(* ===== verification/_CoqProject ===== *)
-Q . S2P
Prelude.v
Walk.v
Crypto.v
HsData.v
CryptoKit.v
Voter.v
SafetyStorage.v
Machine.v
MachineSafety.v
MachineSync.v
MachineInvariant.v
SafetyTrait.v
Quorum.v
Ledger.v
LivenessData.v
StorageContract.v
Persistor.v
Hss.v
HssSafety.v
HssWalk.v
HssReach.v
HssProposal.v
HssTotal.v
ReplicaSpec.v
ReplicaRefine.v
Network.v
Agreement.v
LeaderRound.v
ChainRun.v
HssLiveness.v
HssContract.v
ProtoData.v
Proto.v
ProtoTraits.v
ProtoSafety.v
ProtoServer.v
ProtoNet.v
ProtoHttp.v
ProtoRound.v
Elector.v
Timer.v
Pacemaker.v
PacemakerSafety.v
PacemakerViews.v
PacemakerHss.v
RoundStore.v
RoundMember.v
RoundLeader.v
Cluster.v
ClusterRound.v
Recover.v
RecoverFlush.v
Demo.v
DemoHttp.v
KeysCli.v
DemoSafety.v
Scenario.v
Attack.v
Mocker.v
UnitTests.v
MockerTests.v
MockerNet.v
Witnesses.v
WitnessesLive.v
WitnessesRuns.v
WitnessesNet.v
WitnessesCluster.v
