(* ===== verification/Prelude.v ===== *)
(** * hotstuff-consensus: a verification development

    ** The program

    A Rust implementation of chained HotStuff.  [hs-data] has the proposals
    ([TreeNode]) and quorum certificates ([GenericQC]); [cryptokit] signs and verifies
    them with a threshold scheme; [hotstuff-rs] is the event-driven safety machine
    ([Machine], with [Voter] collecting votes), generic in a storage trait; [pacemaker]
    elects leaders, keeps views and timers, orders pending proposals, synchronises
    branches and runs the event loop around the machine; [hss] implements the storage
    traits of both over in-memory maps with a MySQL backend, and recovers from it.
    [examples/demo] is a node with an HTTP front end, [hs-test] a bench with tests, and
    [hs-prototype] an earlier implementation with its own types, which the other crates
    do not use.

    ** The files

    - [Prelude]: outcomes of a call ([Ret], [Panic], [Diverge]), [Result], 64-bit
      integers, bytes, UTF-8, containers, tactics and the hint database [hs].
      [Walk]: paths along parents in a finite map, and how much fuel a walk needs.
    - [Crypto]: the crates [threshold_crypto] and [sha2] as a class of functions
      ([ThresholdCrypto]) and their documented behaviour ([ThresholdCryptoLaws]); an
      executable scheme that satisfies the laws.
    - [HsData]: crate [hs-data]. [CryptoKit]: crate [cryptokit], the trait [Signaturer]
      as a class.  [Voter]: hotstuff-rs/src/safety/voter.rs.
    - [SafetyStorage]: the trait [SafetyStorage] as a class, and the laws the machine
      relies on.  [Machine]: hotstuff-rs/src/safety/machine.rs, one definition
      [Machine_f] per method [f].  [MachineSafety], [MachineSync]: the theorems for
      every store.  [MachineInvariant]: one rule to prove a property of the store along
      any run.  [SafetyTrait]: the trait [Safety] as a class, the machine as its instance,
      and what any client of it can rely on.  [Quorum]: the arithmetic of the vote
      threshold.
    - [Ledger]: votes, certificates and branches of a system of replicas, and the
      argument that nothing certified leaves the branch of a committed proposal.
      [Network]: a system of machines over the store of [hss] under an adversary, and what
      the changes of one store preserve.  [Agreement]: the handlers, the invariant of the
      system, and agreement.  [Attack]: a run in which correct replicas disagree.
    - [LivenessData]: pacemaker/src/data.rs and the trait of liveness_storage.rs.
      [StorageContract]: the laws the pacemaker relies on.
    - [Persistor]: hss/src/persistor.rs.  [Hss]: hss/src/lib.rs, one definition [HSS_f]
      per method, and the instances of both traits.  [HssSafety], [HssContract]: the
      store meets the laws.  [HssWalk], [HssTotal]: the walk along parents.
      [HssReach]: what the store holds along a run.  [HssProposal]: what a proposal makes
      of the store.  [HssLiveness]: timeout certificates, new-view messages, flushing and the vote
      height.
    - [ReplicaSpec]: an abstract replica as a transition system, and what its runs
      guarantee.  [ReplicaRefine]: the machine over the store of [hss] implements it.
      [ChainRun]: a replica that is fed with a chain of any length.  [LeaderRound]: a
      leader, its replicas and their votes.
    - [Elector], [Timer], [Pacemaker]: elector.rs and utils.rs, timer.rs, pacemaker.rs of
      crate [pacemaker].  [PacemakerSafety], [PacemakerViews]: theorems for every store;
      [PacemakerHss]: for the store of [hss].
    - [RoundStore], [RoundMember], [RoundLeader]: the store, a replica and a leader in one
      round of the protocol, turn by turn of the event loop.  [Cluster]: the pacemakers of
      all replicas together, with messages that may come in any order, late, twice or
      never.  [ClusterRound]: its rounds, one after the other.
    - [Recover]: hss/src/recover.rs and the constructors that use the database.
      [RecoverFlush]: what recovery reads after any sequence of flushes.
    - [ProtoData], [Proto]: the types and the machine of hs-prototype/src/safety (one
      definition [P_f] per method), [ProtoServer]: its pacemaker.rs and main.rs.
      [ProtoHttp]: the routes of its HTTP server.  [ProtoTraits]: safety/traits.rs as
      classes, with the contract of the pool of votes.  [ProtoSafety]: theorems on the
      machine, [ProtoNet], [ProtoRound]: on the tasks together.
    - [Demo]: examples/demo/src and its two programs; [DemoHttp]: the default
      configuration and the transaction server, [KeysCli]: the command line of the key
      generator; [DemoSafety]: its theorems.
    - [Mocker]: the bench of hs-test/src/mocker_hotstuff.rs, [MockerTests]: the tests of
      safety.rs, [MockerNet]: the test of pacemaker.rs.  [UnitTests]: the tests inside
      the crates.
    - [Scenario]: concrete runs.  [Witnesses], [WitnessesLive], [WitnessesRuns],
      [WitnessesNet], [WitnessesCluster]: the theorems applied to concrete data.

    ** State and effects

    A struct is a record, a method a function from the old value of [self] to the new
    one with the result.  The methods that can panic or loop return an [outcome].
    [HashMap]s and [BTreeMap]s are finite maps; where Rust or SQL leaves an iteration
    order open, the order of [map_to_list] is taken.  [u64] and [usize] are integers;
    the operations that can leave the range are written with their wrap-around, as in a
    release build ([wrap64], [as_i64], [quorum_threshold]); views and heights are
    otherwise taken as given.  The tasks that run beside the pacemaker (timers, flusher)
    are steps of transition systems, with their panics (a timer whose receiver is gone, a
    statement that fails) as the end of the task; the tasks of the prototype exchange lists
    of messages.  A [BinaryHeap] is a list, and of events with equal keys, which the library
    may return in any order, the one pushed last is popped first.  The random numbers and the two
    global cells of the pacemaker are the class [PacemakerEnv], the crate [fnv] is the
    class [Fnv], [base64] and [serde_json] the class [Codec]; each has a concrete
    instance in the witnesses.  Key sets that the code draws at random, the clock and
    the uninitialised memory that the bench uses as a signature are arguments.

    ** What is shown

    - The machine implements a specification: every run is a run of the abstract replica
      with the same inputs, votes and proposals (C1), so that no lock and no commit is
      without its certificates (C5).
    - Agreement: in a system with less than a third of faulty replicas, where the correct
      ones run the unchanged code and take any events in any order, the last commit of one
      is on the branch of every higher commit, in runs where what the code leaves unchecked
      holds (C2; the hypotheses are below).  That some such condition is needed is shown by
      two runs: one in which correct replicas commit different branches, because a height
      is skipped ([Attack]), and one in which a replica votes twice at one height
      ([Scenario]).
    - Progress: from a start with empty stores, a quorum of running replicas can make,
      certify and commit any number of batches, with timeouts in the views of leaders that
      are down, by turns of the unmodified event loop alone (C3).
    - Safety of one replica: what a proposal does, branch by branch, to answer and store
      (C4); that lock, commit and view never go back, over single events, event sequences
      and whole sessions of the event loop (C6, C7); synchronising a branch is receiving it
      (C8); what a vote does (C13); that two quorums meet (C14).
    - The store: what changes is queued for the database (C9), every event is answered
      (C10), conflicts are decided by ancestry, and the bounded walk is the loop of the
      source (C15, C16).
    - The normal course: a chain of any length is signed, locked and committed (C11), and
      a leader with willing replicas gets a certificate that all accept (C12).  Where it
      goes wrong: the vote height falls back (C17), and certificates with the signature of
      the initial one are never checked (C18).
    - Liveness machinery: timeouts, the ready loop ends, proposing once per quorum, pending
      proposals (C19 to C24), votes combine (C25), election and timers (C26 to C28).
    - The database: what recovery gives back and where it does not (C29 to C31), that a
      failed statement is never noticed (C32), that a recovered replica stops writing (C33).
    - The prototype: votes rise, nothing is ever committed, a command is certified in one
      round over HTTP, timer and pacemaker drive the views (C34 to C37).
    - The demo: the generated keys work together, transactions stay pending (C38, C39).  The
      bench of the tests works for chains of any length (C40), and the tests of the
      repository are run on these definitions ([MockerTests], [MockerNet], [UnitTests]).

    The hypotheses of C2: less than [2 ^ 63] replicas, less than a third of them faulty, and
    a run from fresh replicas that is [sound]:
    - a certificate that verifies on a proposal has votes of a quorum, counting all faulty
      replicas ([so_backed]); no two proposals in circulation with one hash differ in height
      or parent ([so_digest]), and none has the zero hash ([so_zero]);
    - what the code does not check of its input: a certificate that passes for the initial
      one names the initial proposal ([so_init]); a proposal whose certificate is accepted
      has the certified proposal as parent and is higher ([so_linked]); the certificate of
      a proposal that a correct leader makes is an accepted one ([so_made]); the vote that
      completes a quorum is for the leaf ([vote_for_leaf], a premise of the step);
    - where the code is weaker than the protocol: after a vote for [p] no vote for another
      proposal above what [p] certifies but not above [p] ([so_votes]; the vote height only
      excludes the ones below, C17), and after an own proposal, which moves no lock, no vote
      against the lock it should have moved ([so_leaders]).
    Besides, no height is skipped on top of the lower commit ([no_gap]).  A run with commits,
    a synchronised branch, a leader and a view change that satisfies them is in
    [WitnessesNet].  The hypotheses of C3 ([cluster_ok], [booted], [leaders_live],
    [hashes_ok]): more replicas run than the vote threshold, with different key shares of a
    scheme whose threshold the quorum meets; the cells of the pacemaker are set; views stay
    below [2 ^ 63]; and the proposals of the plan have different hashes, none of them zero.
    Seven batches over nine views with one of four replicas down are in [WitnessesCluster].

    ** Fuel

    [conflict_walk], [P_is_conflicting] and [P_on_commit_rec] have the number of stored
    proposals as fuel, which is enough because a path of parents never looks up a hash
    twice; running out of it is [Diverge], and C16 shows that this happens exactly when the
    loop of the source does not end.  [drain_ready] has the ready events plus the pending
    proposals, which is enough because handling one ready event queues at most one more and
    then takes a pending proposal away (C20).  [timer_loop] has one round per
    tick of the lifetime.  The event loops run over the list of events they take.

    ** Not modelled

    Sockets, HTTP servers, runtimes, threads and real time, which only carry the messages
    and events that the models take as arguments.  The command line of the node, YAML and
    the crate [hs_network], whose sources are not in the repository.  Logging.  The widths
    of database columns and the parsing of values by MySQL.  The tests of [hss] that need a
    running database.  The channel ends and socket addresses of pacemaker/src/network.rs,
    pacemaker/src/conf.rs and of the module files, which declare types and no operations.
    Two type-size printouts.  The JSON bodies of the HTTP requests and responses of the
    prototype, which are passed as the values they encode. *)

From Stdlib Require Export ZArith Lia Strings.Byte.
From stdpp Require Export base gmap list strings sorting relations.

#[global] Open Scope Z_scope.

(** ** Outcomes of a Rust computation

    [Ret a]: the call returns [a].  [Panic]: an [unwrap], an [expect], an
    [assert!], an [unreachable!] or an out-of-range index fires.  [Diverge]: the
    call never returns. *)

Inductive outcome (A : Type) : Type :=
| Ret (a : A)
| Panic
| Diverge.
Arguments Ret {A} a.
Arguments Panic {A}.
Arguments Diverge {A}.

#[export] Instance outcome_ret : MRet outcome := @Ret.
#[export] Instance outcome_bind : MBind outcome := fun A B f m =>
  match m with
  | Ret a => f a
  | Panic => Panic
  | Diverge => Diverge
  end.
#[export] Instance outcome_fmap : FMap outcome := fun A B f m =>
  match m with
  | Ret a => Ret (f a)
  | Panic => Panic
  | Diverge => Diverge
  end.

(** [Option::unwrap] and [Result::unwrap]. *)
Definition unwrap {A : Type} (o : option A) : outcome A :=
  match o with Some a => Ret a | None => Panic end.

(** A loop modelled with fuel: running out of fuel is [Diverge]. *)
Definition or_diverge {A : Type} (o : option A) : outcome A :=
  match o with Some a => Ret a | None => Diverge end.

(** [core::result::Result]. *)
Inductive result (A E : Type) : Type :=
| Ok (a : A)
| Err (e : E).
Arguments Ok {A E} a.
Arguments Err {A E} e.

Definition is_ok {A E : Type} (r : result A E) : bool :=
  match r with Ok _ => true | Err _ => false end.

Definition map_err {A E F : Type} (f : E -> F) (r : result A E) : result A F :=
  match r with Ok a => Ok a | Err e => Err (f e) end.

Lemma Ret_inv {A : Type} (a b : A) : Ret a = Ret b -> a = b.
Proof. by injection 1. Qed.

Lemma bind_Ret_inv {A B : Type} (m : outcome A) (k : A -> outcome B) (b : B) :
  (m ≫= k) = Ret b -> exists a, m = Ret a /\ k a = Ret b.
Proof. destruct m as [a| |]; [|done..]. intros H. by exists a. Qed.

Lemma or_diverge_Ret {A : Type} (o : option A) (a : A) :
  or_diverge o = Ret a <-> o = Some a.
Proof. destruct o; simpl; naive_solver. Qed.

Lemma pair_eq {A B : Type} (a1 a2 : A) (b1 b2 : B) :
  (a1, b1) = (a2, b2) -> a1 = a2 /\ b1 = b2.
Proof. by injection 1. Qed.

Lemma unwrap_Ret {A : Type} (o : option A) (a : A) : unwrap o = Ret a <-> o = Some a.
Proof. destruct o; simpl; naive_solver. Qed.

(** Whether a computation returns, for closed computations. *)
Definition returns {A : Type} (m : outcome A) : bool :=
  match m with Ret _ => true | Panic | Diverge => false end.

Lemma returns_Ret {A : Type} (m : outcome A) : returns m = true -> exists a, m = Ret a.
Proof. destruct m as [a| |]; [by exists a|done..]. Qed.

(** The value a computation returns, or [d]. *)
Definition ret_or {A : Type} (d : A) (m : outcome A) : A :=
  match m with Ret a => a | Panic | Diverge => d end.

(** ** Fixed-width integers *)

Definition u64_ok (z : Z) : Prop := 0 <= z < 2 ^ 64.
Definition wrap64 (z : Z) : Z := z mod 2 ^ 64.

(** The value of the low 64 bits of [z] read as a two's complement [i64]. *)
Definition as_i64 (z : Z) : Z := (z + 2 ^ 63) mod 2 ^ 64 - 2 ^ 63.

(** [(total << 1) / 3] on [usize]: the shift drops the bits above bit 63. *)
Definition quorum_threshold (total : Z) : Z := Z.land (Z.shiftl total 1) (2 ^ 64 - 1) / 3.

Lemma wrap64_ok z : u64_ok (wrap64 z).
Proof. unfold u64_ok, wrap64. apply Z.mod_pos_bound. lia. Qed.

Lemma wrap64_small z : u64_ok z -> wrap64 z = z.
Proof. unfold u64_ok, wrap64. intros. apply Z.mod_small. lia. Qed.

Lemma as_i64_range z : - 2 ^ 63 <= as_i64 z < 2 ^ 63.
Proof.
  unfold as_i64. pose proof (Z.mod_pos_bound (z + 2 ^ 63) (2 ^ 64)). lia.
Qed.

Lemma as_i64_small z : - 2 ^ 63 <= z < 2 ^ 63 -> as_i64 z = z.
Proof. intros. unfold as_i64. rewrite Z.mod_small; lia. Qed.

Lemma as_i64_wrap z : wrap64 (as_i64 z) = wrap64 z.
Proof.
  unfold as_i64, wrap64. rewrite Zminus_mod_idemp_l. f_equal. lia.
Qed.

Lemma quorum_threshold_small total :
  0 <= total < 2 ^ 63 -> quorum_threshold total = 2 * total / 3.
Proof.
  intros. unfold quorum_threshold.
  change (2 ^ 64 - 1) with (Z.ones 64). rewrite Z.land_ones by lia.
  rewrite Z.shiftl_mul_pow2 by lia. rewrite Z.mod_small by lia. f_equal. lia.
Qed.

(** ** Bytes and big-endian encodings *)

#[export] Instance byte_eq_dec : EqDecision byte := Byte.byte_eq_dec.
#[export] Instance byte_countable : Countable byte.
Proof.
  apply (inj_countable Byte.to_N Byte.of_N). intros b. apply Byte.of_to_N.
Defined.

Definition Z_of_byte (b : byte) : Z := Z.of_N (Byte.to_N b).
Definition byte_of_Z (z : Z) : byte :=
  match Byte.of_N (Z.to_N (z mod 256)) with Some b => b | None => x00 end.

(** [to_be_bytes] of an integer of [n] bytes. *)
Fixpoint be_bytes (n : nat) (z : Z) : list byte :=
  match n with
  | O => []
  | S k => be_bytes k (z / 256) ++ [byte_of_Z z]
  end.

Definition of_be_bytes (l : list byte) : Z :=
  fold_left (fun acc b => acc * 256 + Z_of_byte b) l 0.

Definition u64_to_be_bytes (z : Z) : list byte := be_bytes 8 z.

Lemma Z_of_byte_range b : 0 <= Z_of_byte b < 256.
Proof. unfold Z_of_byte. pose proof (Byte.to_N_bounded b). lia. Qed.

Lemma Z_of_byte_of_Z z : Z_of_byte (byte_of_Z z) = z mod 256.
Proof.
  unfold byte_of_Z, Z_of_byte.
  pose proof (Z.mod_pos_bound z 256 ltac:(lia)).
  destruct (Byte.of_N _) eqn:E.
  - apply Byte.to_of_N in E. rewrite E. lia.
  - apply Byte.of_N_None_iff in E. lia.
Qed.

Lemma length_be_bytes n z : length (be_bytes n z) = n.
Proof.
  revert z. induction n as [|n IH]; intros z; simpl; [done|].
  rewrite length_app, IH. simpl. lia.
Qed.

Lemma of_be_bytes_snoc l b : of_be_bytes (l ++ [b]) = of_be_bytes l * 256 + Z_of_byte b.
Proof. unfold of_be_bytes. by rewrite fold_left_app. Qed.

Lemma of_be_bytes_be_bytes n z : 0 <= z < 256 ^ Z.of_nat n -> of_be_bytes (be_bytes n z) = z.
Proof.
  revert z. induction n as [|n IH]; intros z Hz; cbn [be_bytes].
  - change (256 ^ Z.of_nat 0) with 1 in Hz. unfold of_be_bytes. simpl. lia.
  - rewrite of_be_bytes_snoc, Z_of_byte_of_Z, IH.
    + pose proof (Z.div_mod z 256). lia.
    + rewrite Nat2Z.inj_succ, Z.pow_succ_r in Hz by lia.
      split; [apply Z.div_pos; lia|]. apply Z.div_lt_upper_bound; lia.
Qed.

Lemma u64_to_be_bytes_inj a b :
  u64_ok a -> u64_ok b -> u64_to_be_bytes a = u64_to_be_bytes b -> a = b.
Proof.
  unfold u64_ok, u64_to_be_bytes. intros Ha Hb H.
  rewrite <-(of_be_bytes_be_bytes 8 a), <-(of_be_bytes_be_bytes 8 b) by (simpl; lia).
  by rewrite H.
Qed.

(** [str::as_bytes]. *)
Definition str_bytes (s : string) : list byte := String.list_byte_of_string s.

(** [String::from_utf8]: well-formed UTF-8 only ([None] is its [Err]). *)
Definition byte_in (lo hi : Z) (b : byte) : bool := (lo <=? Z_of_byte b) && (Z_of_byte b <=? hi).

Definition cont_bytes (l : list byte) : bool := forallb (byte_in 128 191) l.

Fixpoint utf8_valid (l : list byte) : bool :=
  match l with
  | [] => true
  | b0 :: r1 =>
      if byte_in 0 127 b0 then utf8_valid r1
      else
        match r1 with
        | [] => false
        | b1 :: r2 =>
            if byte_in 194 223 b0 then byte_in 128 191 b1 && utf8_valid r2
            else
              match r2 with
              | [] => false
              | b2 :: r3 =>
                  if byte_in 224 239 b0 then
                    (if byte_in 224 224 b0 then byte_in 160 191 b1
                     else if byte_in 237 237 b0 then byte_in 128 159 b1
                     else byte_in 128 191 b1) && cont_bytes [b2] && utf8_valid r3
                  else
                    match r3 with
                    | [] => false
                    | b3 :: r4 =>
                        byte_in 240 244 b0 &&
                        (if byte_in 240 240 b0 then byte_in 144 191 b1
                         else if byte_in 244 244 b0 then byte_in 128 143 b1
                         else byte_in 128 191 b1) && cont_bytes [b2; b3] && utf8_valid r4
                    end
              end
        end
  end.

Definition String_from_utf8 (l : list byte) : option string :=
  if utf8_valid l then Some (String.string_of_list_byte l) else None.

(** ** Containers *)

(** [iter.collect::<HashMap<_, _>>()]: a later pair replaces an earlier one. *)
Definition map_collect {K V : Type} `{Countable K} (l : list (K * V)) : gmap K V :=
  fold_left (fun m kv => <[kv.1:=kv.2]> m) l ∅.

Lemma NoDup_head_app {A : Type} (x : A) (l k : list A) : NoDup ((x :: l) ++ k) -> NoDup (x :: k).
Proof.
  intros (_ & Hd & Hk)%NoDup_app. constructor; [|done]. intros Hx. by apply (Hd x); [left|].
Qed.

(** The character of a string that delimits strings. *)
Definition quote : string := String.String (Ascii.ascii_of_nat 34) EmptyString.

(** [HashMap::values], [BTreeMap::values]. *)
Definition map_values {K V : Type} `{Countable K} (m : gmap K V) : list V :=
  (map_to_list m).*2.

(** [HashMap::len] and [VecDeque::len], as [usize]. *)
Definition map_len {K V : Type} `{Countable K} (m : gmap K V) : Z := Z.of_nat (size m).

Lemma elem_of_map_values {K V : Type} `{Countable K} (m : gmap K V) (v : V) :
  v ∈ map_values m <-> exists k, m !! k = Some v.
Proof.
  unfold map_values. rewrite list_elem_of_fmap. split.
  - intros ([k w] & -> & Hin). exists k. by apply elem_of_map_to_list in Hin.
  - intros [k Hk]. exists (k, v). split; [done|]. by apply elem_of_map_to_list.
Qed.

Lemma length_map_values {K V : Type} `{Countable K} (m : gmap K V) :
  Z.of_nat (length (map_values m)) = map_len m.
Proof. unfold map_values, map_len. by rewrite length_fmap, length_map_to_list. Qed.

Lemma map_len_nonneg {K V : Type} `{Countable K} (m : gmap K V) : 0 <= map_len m.
Proof. unfold map_len. lia. Qed.

(** ** Proof automation

    [hs] holds the monotonicity and frame lemmas of the components. *)

Create HintDb hs.
#[export] Hint Resolve map_len_nonneg Z.le_refl : hs.

(** Case analysis on the tests of a handler: comparisons become propositions. *)
Ltac zbool :=
  repeat match goal with
  | H : context [?x <? ?y] |- _ => destruct (Z.ltb_spec x y)
  | H : context [?x <=? ?y] |- _ => destruct (Z.leb_spec x y)
  | |- context [?x <? ?y] => destruct (Z.ltb_spec x y)
  | |- context [?x <=? ?y] => destruct (Z.leb_spec x y)
  end.

(** Open a computation of the outcome monad that is known to return. *)
Ltac inv_ret :=
  repeat match goal with
  | H : Ret _ = Ret _ |- _ => apply Ret_inv in H
  | H : (_, _) = (_, _) |- _ => apply pair_eq in H as [? ?]; subst
  | x : (_ * _)%type |- _ => destruct x
  | H : (_ ≫= _) = Ret _ |- _ =>
      let a := fresh "r" in let E := fresh "E" in
      apply bind_Ret_inv in H as (a & E & H)
  | H : or_diverge _ = Ret _ |- _ => apply or_diverge_Ret in H
  | H : unwrap _ = Ret _ |- _ => apply unwrap_Ret in H
  | H : Panic = Ret _ |- _ => discriminate H
  | H : Diverge = Ret _ |- _ => discriminate H
  end.

(** Case analysis on the booleans a computation returned. *)
Ltac case_bools := repeat match goal with b : bool |- _ => destruct b end.
