(* ===== verification/Walk.v ===== *)
(** * Walking along parents

    Both implementations of the store decide conflicts with the same loop: follow the
    parent of a proposal while it is higher than a bound.  Here the loop and its
    termination are studied once, for any type of proposals with a height and the key
    of a parent in a finite map. *)

From S2P Require Import Prelude.

Section Walk.
Context {K N : Type} `{Countable K} (height : N -> Z) (parent : N -> K).

Implicit Types (q : gmap K N) (n : N) (ks : list K).

(** The loop with fuel; [None]: the fuel ran out. *)
Fixpoint walk (fuel : nat) (q : gmap K N) (bh : Z) (n : N) : option N :=
  if bh <? height n then
    match q !! parent n with
    | Some prev =>
        match fuel with
        | O => None
        | S fuel => walk fuel q bh prev
        end
    | None => Some n
    end
  else Some n.

(** The keys the loop looks up, and where it stops. *)
Inductive walk_path q (bh : Z) : N -> list K -> N -> Prop :=
| path_low n : height n <= bh -> walk_path q bh n [] n
| path_unknown n : bh < height n -> q !! parent n = None -> walk_path q bh n [] n
| path_step n prev ks e :
    bh < height n -> q !! parent n = Some prev -> walk_path q bh prev ks e ->
    walk_path q bh n (parent n :: ks) e.

Lemma path_det q bh n ks1 e1 ks2 e2 :
  walk_path q bh n ks1 e1 -> walk_path q bh n ks2 e2 -> ks1 = ks2 /\ e1 = e2.
Proof.
  intros H1. revert ks2 e2. induction H1 as [n Hl|n Hh Hq|n prev ks e Hh Hq H1 IH];
    intros ks2 e2 H2; destruct H2 as [n2 Hl2|n2 Hh2 Hq2|n2 prev2 ks2 e2 Hh2 Hq2 H2];
    try lia; try congruence; try done.
  simplify_eq. by destruct (IH _ _ H2) as [-> ->].
Qed.

(** Every looked-up key is stored, and the rest of the path starts there. *)
Lemma path_suffix q bh n ks e k :
  walk_path q bh n ks e -> k ∈ ks ->
  exists ks1 ks2 prev, ks = ks1 ++ k :: ks2 /\ q !! k = Some prev /\ walk_path q bh prev ks2 e.
Proof.
  induction 1 as [n Hl|n Hh Hq|n prev ks e Hh Hq H1 IH]; intros Hk; [by apply elem_of_nil in Hk..|].
  apply elem_of_cons in Hk as [->|Hk].
  - exists [], ks, prev. auto.
  - destruct (IH Hk) as (ks1 & ks2 & p & -> & ? & ?). by exists (parent n :: ks1), ks2, p.
Qed.

(** A path never looks up a key twice. *)
Lemma path_NoDup q bh n ks e : walk_path q bh n ks e -> NoDup ks.
Proof.
  induction 1 as [n Hl|n Hh Hq|n prev ks e Hh Hq H1 IH]; [constructor..|].
  constructor; [|done]. intros Hk.
  destruct (path_suffix _ _ _ _ _ _ H1 Hk) as (ks1 & ks2 & p & -> & Hp & H2).
  simplify_eq. destruct (path_det _ _ _ _ _ _ _ H1 H2) as [Heq _].
  apply (f_equal length) in Heq. rewrite length_app in Heq. simpl in Heq. lia.
Qed.

Lemma path_length q bh n ks e : walk_path q bh n ks e -> (length ks <= size q)%nat.
Proof.
  intros Hp. rewrite <-(size_dom q : size (dom q : gset K) = size q).
  rewrite <-(size_list_to_set (C := gset K) ks) by eauto using path_NoDup.
  apply subseteq_size. intros k Hk%elem_of_list_to_set.
  destruct (path_suffix _ _ _ _ _ _ Hp Hk) as (_ & _ & p & _ & Hq & _).
  apply elem_of_dom. eauto.
Qed.

(** ** The fuelled loop computes the path *)

Lemma walk_walk_path fuel q bh n e :
  walk fuel q bh n = Some e ->
  exists ks, walk_path q bh n ks e /\ (length ks <= fuel)%nat.
Proof.
  revert n. induction fuel as [|fuel IH]; intros n; cbn [walk];
    destruct (Z.ltb_spec bh (height n)) as [Hh|Hh];
    try (intros [= ->]; exists []; split; [by constructor|simpl; lia]);
    destruct (q !! parent n) as [prev|] eqn:Hq;
    try (intros [= ->]; exists []; split; [by constructor|simpl; lia]); [done|].
  intros Hw. destruct (IH _ Hw) as (ks & Hp & Hl).
  exists (parent n :: ks). split; [by econstructor|simpl; lia].
Qed.

Lemma walk_path_walk fuel q bh n ks e :
  walk_path q bh n ks e -> (length ks <= fuel)%nat -> walk fuel q bh n = Some e.
Proof.
  intros Hw. revert fuel. induction Hw as [n Hl|n Hh Hq|n prev ks e Hh Hq H1 IH];
    intros fuel Hf; destruct fuel as [|fuel]; cbn [walk]; simpl in Hf;
    destruct (Z.ltb_spec bh (height n)); try lia; try done; rewrite Hq; try done.
  apply IH. lia.
Qed.

(** The number of stored proposals is enough fuel. *)
Lemma walk_fuel_enough q bh n fuel :
  (size q <= fuel)%nat -> walk fuel q bh n = walk (size q) q bh n.
Proof.
  intros Hf. destruct (walk fuel q bh n) as [e|] eqn:E.
  - apply walk_walk_path in E as (ks & Hp & _).
    by rewrite (walk_path_walk _ _ _ _ _ _ Hp (path_length _ _ _ _ _ Hp)).
  - destruct (walk (size q) q bh n) as [e|] eqn:E'; [|done].
    apply walk_walk_path in E' as (ks & Hp & Hl).
    rewrite <-E. apply (walk_path_walk _ _ _ _ ks); [done|lia].
Qed.

(** ** Termination *)

(** A measure on keys that falls from a stored proposal's key to its parent's. *)
Lemma path_exists_measure q bh (rank : K -> nat) n :
  (forall k p, q !! k = Some p -> (rank (parent p) < rank k)%nat) ->
  exists ks e, walk_path q bh n ks e.
Proof.
  intros Hr. remember (rank (parent n)) as k eqn:Ek. revert n Ek.
  induction k as [k IH] using lt_wf_ind. intros n ->.
  destruct (Z.le_gt_cases (height n) bh); [by exists [], n; constructor|].
  destruct (q !! parent n) as [p|] eqn:Hp; [|by exists [], n; constructor].
  destruct (IH _ (Hr _ _ Hp) p eq_refl) as (ks & e & Hpath).
  exists (parent n :: ks), e. by econstructor.
Qed.

(** Where the walk stops: low enough, or with an unknown parent. *)
Lemma path_end q bh n ks e :
  walk_path q bh n ks e -> height e <= bh \/ q !! parent e = None.
Proof. induction 1; auto. Qed.
End Walk.

Arguments path_det {_ _ _ _ _ _}.
Arguments path_suffix {_ _ _ _ _ _}.
Arguments path_NoDup {_ _ _ _ _ _}.
Arguments path_length {_ _ _ _ _ _}.
Arguments path_end {_ _ _ _ _ _}.
Arguments walk_path_walk {_ _ _ _ _ _}.
Arguments walk_walk_path {_ _ _ _ _ _}.
