(* ===== verification/Crypto.v ===== *)
(** * Cryptography the sources call

    The crates [threshold_crypto] (BLS threshold signatures) and [sha2] are not
    part of the repository.  Their types and the functions the sources call are
    the fields of [ThresholdCrypto]; what their documentation promises is
    [ThresholdCryptoLaws].  Every definition of the development takes an instance
    of the former, and a theorem that relies on a promise takes one of the latter. *)

From S2P Require Import Prelude.

Class ThresholdCrypto := {
  (** [threshold_crypto::{SecretKeySet, PublicKeySet, SecretKeyShare,
      SignatureShare, Signature}]. *)
  SecretKeySet : Type;
  PK : Type;
  SK : Type;
  Sign : Type;
  CombinedSign : Type;

  secret_key_share : SecretKeySet -> Z -> SK;
  public_keys : SecretKeySet -> PK;

  (** [PublicKeySet::threshold]: a signature needs more shares than this. *)
  pks_threshold : PK -> Z;
  (** [PublicKeySet::combine_signatures]; [None] is its [Err]. *)
  combine_signatures : PK -> list (Z * Sign) -> option CombinedSign;
  (** [SecretKeyShare::sign]. *)
  sk_sign : SK -> list byte -> Sign;
  (** [public_key_share(i).verify(sign, msg)]. *)
  share_verify : PK -> Z -> Sign -> list byte -> bool;
  (** [public_key().verify(sign, msg)]. *)
  pk_verify : PK -> CombinedSign -> list byte -> bool;

  (** [Signature::to_bytes], [Signature::from_bytes]. *)
  sign_to_bytes : CombinedSign -> list byte;
  sign_from_bytes : list byte -> option CombinedSign;
  (** The all-zero memory image of a [Signature]: [unsafe { std::mem::zeroed() }]. *)
  zeroed_sign : CombinedSign;

  (** [Sha256]: the digest of the concatenation of the [update]s. *)
  sha256 : list byte -> list byte;
}.

(** The documented promises.  [combine_ok] and [combine_insufficient] are the
    contract of [combine_signatures]: more than [threshold] shares with distinct
    indices give the signature of the message, fewer give an error. *)
Class ThresholdCryptoLaws `{TC : ThresholdCrypto} : Prop := {
  sign_to_bytes_length s : length (sign_to_bytes s) = 96%nat;
  sign_from_to_bytes s : sign_from_bytes (sign_to_bytes s) = Some s;
  sha256_length l : length (sha256 l) = 32%nat;
  share_verify_ok sks i m :
    share_verify (public_keys sks) i (sk_sign (secret_key_share sks i) m) m = true;
  combine_ok sks m (ids : list Z) :
    NoDup ids ->
    pks_threshold (public_keys sks) < Z.of_nat (length ids) ->
    exists c,
      combine_signatures (public_keys sks)
        ((fun i => (i, sk_sign (secret_key_share sks i) m)) <$> ids) = Some c /\
      pk_verify (public_keys sks) c m = true;
  combine_insufficient pks shares :
    Z.of_nat (length shares) <= pks_threshold pks ->
    combine_signatures pks shares = None;
}.

(** ** A concrete scheme

    Executable stand-in used by the witnesses: a share is the signer's index with
    the message, a signature is a 96-byte digest of the message.  It satisfies
    every law. *)

(** A linear congruential fold of the bytes, and [k] copies of its eight bytes. *)
Definition digest_state (l : list byte) : Z :=
  fold_left (fun acc b =>
    Z.land (acc * 6364136223846793005 + Z_of_byte b + 1442695040888963407) (2 ^ 64 - 1)) l 1.

Definition digest (k : nat) (l : list byte) : list byte :=
  concat (replicate k (be_bytes 8 (digest_state l))).

Definition toy_sign : Type := { l : list byte | Nat.eqb (length l) 96 = true }.

Lemma digest_length k l : length (digest k l) = (8 * k)%nat.
Proof.
  unfold digest. generalize (digest_state l). intros z.
  induction k as [|k IH]; [done|]. cbn [replicate concat].
  rewrite length_app, length_be_bytes, IH. lia.
Qed.

Lemma digest_96 l : Nat.eqb (length (digest 12 l)) 96 = true.
Proof. rewrite digest_length. reflexivity. Qed.

Definition toy_signature (m : list byte) : toy_sign := exist _ (digest 12 m) (digest_96 m).

Definition toy_zeroed : toy_sign := exist _ (repeat x00 96) eq_refl.

Definition toy_from_bytes (l : list byte) : option toy_sign :=
  match decide (Nat.eqb (length l) 96 = true) with
  | left H => Some (exist _ l H)
  | right _ => None
  end.

(** A key set is its threshold; a share key is its index. *)
Definition toy_combine (t : Z) (shares : list (Z * (Z * list byte))) : option toy_sign :=
  match shares with
  | [] => None
  | (_, (_, m)) :: _ =>
      if Z.of_nat (length shares) <=? t then None
      else if bool_decide (NoDup shares.*1) then
        if forallb (fun s => bool_decide (s.2 = (s.1, m))) shares
        then Some (toy_signature m) else Some toy_zeroed
      else None
  end.

Definition ToyCrypto : ThresholdCrypto := {|
  SecretKeySet := Z;
  PK := Z;
  SK := Z;
  Sign := Z * list byte;
  CombinedSign := toy_sign;
  secret_key_share := fun _ i => i;
  public_keys := fun t => Z.max 0 t;
  pks_threshold := fun t => Z.max 0 t;
  combine_signatures := toy_combine;
  sk_sign := fun i m => (i, m);
  share_verify := fun _ i s m => bool_decide (s = (i, m));
  pk_verify := fun _ c m => bool_decide (proj1_sig c = digest 12 m);
  sign_to_bytes := @proj1_sig _ _;
  sign_from_bytes := toy_from_bytes;
  zeroed_sign := toy_zeroed;
  sha256 := digest 4;
|}.

Lemma toy_combine_ok t m (ids : list Z) :
  NoDup ids -> 0 <= t < Z.of_nat (length ids) ->
  toy_combine t ((fun i => (i, (i, m))) <$> ids) = Some (toy_signature m).
Proof.
  intros Hnd Hlen. destruct ids as [|i ids]; [simpl in Hlen; lia|].
  unfold toy_combine. cbn [fmap list_fmap].
  change ((i, (i, m)) :: ((fun i => (i, (i, m))) <$> ids))
    with ((fun i => (i, (i, m))) <$> (i :: ids)).
  rewrite length_fmap. destruct (Z.leb_spec (Z.of_nat (length (i :: ids))) t); [lia|].
  rewrite <-list_fmap_compose. unfold compose. cbn [fst].
  rewrite list_fmap_id, bool_decide_true by done.
  replace (forallb _ _) with true; [done|]. symmetry.
  apply forallb_forall. intros x Hx%list_elem_of_In.
  apply list_elem_of_fmap in Hx as (j & -> & _). by apply bool_decide_eq_true.
Qed.

Lemma ToyCryptoLaws : @ThresholdCryptoLaws ToyCrypto.
Proof.
  split; cbn.
  - intros [l Hl]. exact (proj1 (Nat.eqb_eq _ _) Hl).
  - intros [l Hl]. unfold toy_from_bytes. simpl. case_decide as H; [|done].
    do 2 f_equal. apply (proof_irrel H Hl).
  - done.
  - intros. by apply bool_decide_eq_true.
  - intros t m ids Hnd Hlen. exists (toy_signature m). split.
    + apply toy_combine_ok; [done|]. lia.
    + by apply bool_decide_eq_true.
  - intros t shares Hlen. change (Z.of_nat (length shares) <= Z.max 0 t) in Hlen.
    unfold toy_combine.
    destruct shares as [|[i [j m]] shares]; [done|].
    destruct (Z.leb_spec (Z.of_nat (length ((i, (j, m)) :: shares))) t); [done|].
    rewrite length_cons in *. lia.
Qed.
