(* ===== verification/HsData.v ===== *)
(** * Data shared by every component (crate [hs-data])

    Proposals ([TreeNode]), quorum certificates ([GenericQC]), their hashes and
    byte encodings, the message context and the signature kit.  The functions of
    [lib.rs] that build chains of justified proposals are here too. *)

From S2P Require Import Prelude Crypto.

Abbreviation ReplicaID := string (only parsing).
Abbreviation ViewNumber := Z (only parsing).
Abbreviation SignID := Z (only parsing).

(** ** Hashes *)

(** [NodeHash(pub [u8; 32])] and [QCHash([u8; 32])]. *)
Record NodeHash := mkNodeHash { NodeHash_as_ref : list byte }.
Record QCHash := mkQCHash { QCHash_as_ref : list byte }.

#[export] Instance NodeHash_eq_dec : EqDecision NodeHash.
Proof. solve_decision. Defined.
#[export] Instance NodeHash_countable : Countable NodeHash :=
  inj_countable' NodeHash_as_ref mkNodeHash (fun h => match h with mkNodeHash _ => eq_refl end).
#[export] Instance QCHash_eq_dec : EqDecision QCHash.
Proof. solve_decision. Defined.

Definition NodeHash_genesis : NodeHash := mkNodeHash (replicate 32 xab).

(** The loop [for (i, b) in v.iter().take(32).enumerate() { buf[i] = *b }]. *)
Definition NodeHash_from_vec (v : list byte) : NodeHash :=
  mkNodeHash
    (fold_left (fun buf ib => <[ib.1:=ib.2]> buf)
       (imap pair (take 32 v)) (replicate 32 x00)).

Definition NodeHash_wf (h : NodeHash) : Prop := length (NodeHash_as_ref h) = 32%nat.

(** ** Transactions, certificates, proposals *)

Record Txn := mkTxn { Txn_as_ref : list byte }.

Definition Txn_new (cont : list byte) : Txn := mkTxn cont.

#[export] Instance Txn_eq_dec : EqDecision Txn.
Proof. solve_decision. Defined.

(** [msg.rs]: who a message comes from and goes to. *)
Inductive DeliveryType :=
| Broadcast
| Single (to : ReplicaID)
| Unknown.

Record Context := mkContext {
  ctx_from : ReplicaID;
  ctx_to : DeliveryType;
  ctx_view : ViewNumber;
}.

(** [self.from.len() + size_of::<ViewNumber>()]. *)
Definition Context_size (c : Context) : Z := Z.of_nat (String.length (ctx_from c)) + 8.

Definition Context_new (from : ReplicaID) (to : DeliveryType) (view : ViewNumber) : Context :=
  {| ctx_from := from; ctx_to := to; ctx_view := view |}.
Definition Context_single (from to : ReplicaID) (view : ViewNumber) : Context :=
  {| ctx_from := from; ctx_to := Single to; ctx_view := view |}.
Definition Context_broadcast (from : ReplicaID) (view : ViewNumber) : Context :=
  {| ctx_from := from; ctx_to := Broadcast; ctx_view := view |}.
Definition Context_response (from : ReplicaID) (view : ViewNumber) : Context :=
  {| ctx_from := from; ctx_to := Unknown; ctx_view := view |}.

Section HsData.
Context `{TC : ThresholdCrypto}.

Record GenericQC := mkGenericQC {
  qc_view : ViewNumber;
  qc_node : NodeHash;
  qc_combined_sign : CombinedSign;
}.

Definition GenericQC_new (view : ViewNumber) (node : NodeHash) (s : CombinedSign) : GenericQC :=
  {| qc_view := view; qc_node := node; qc_combined_sign := s |}.

(** [res.copy_from_slice(&self.combined_sign.to_bytes()[32..64])]. *)
Definition GenericQC_hash (qc : GenericQC) : QCHash :=
  mkQCHash (take 32 (drop 32 (sign_to_bytes (qc_combined_sign qc)))).

Definition GenericQC_to_be_bytes (qc : GenericQC) : list byte :=
  u64_to_be_bytes (qc_view qc) ++ NodeHash_as_ref (qc_node qc) ++
  sign_to_bytes (qc_combined_sign qc).

Record TreeNode := mkTreeNode {
  node_height : ViewNumber;
  node_txs : list Txn;
  node_parent : NodeHash;
  node_justify : GenericQC;
}.

(** The digest of the transactions, the height and the parent, in that order. *)
Definition TreeNode_hash (n : TreeNode) : NodeHash :=
  mkNodeHash (sha256 (concat (Txn_as_ref <$> node_txs n) ++
                      u64_to_be_bytes (node_height n) ++ NodeHash_as_ref (node_parent n))).

Definition TreeNode_new (txs : list Txn) (height : ViewNumber) (parent : NodeHash)
    (justify : GenericQC) : TreeNode :=
  {| node_height := height; node_txs := txs; node_parent := parent; node_justify := justify |}.

Definition TreeNode_node_and_hash (txs : list Txn) (height : ViewNumber) (parent : NodeHash)
    (justify : GenericQC) : TreeNode * NodeHash :=
  let node := {| node_height := height; node_txs := txs;
                 node_parent := parent; node_justify := justify |} in
  (node, TreeNode_hash node).

Definition TreeNode_to_be_bytes (n : TreeNode) : list byte :=
  u64_to_be_bytes (node_height n) ++ GenericQC_to_be_bytes (node_justify n) ++
  NodeHash_as_ref (node_parent n) ++ concat (Txn_as_ref <$> node_txs n).

(** ** The genesis proposal and its certificate *)

(** [justify: unsafe { std::mem::zeroed() }]. *)
Definition zeroed_qc : GenericQC :=
  {| qc_view := 0; qc_node := mkNodeHash (replicate 32 x00); qc_combined_sign := zeroed_sign |}.

Definition INIT_NODE : TreeNode :=
  {| node_height := 0; node_txs := []; node_parent := NodeHash_genesis;
     node_justify := zeroed_qc |}.
Definition INIT_NODE_HASH : NodeHash := TreeNode_hash INIT_NODE.
Definition INIT_QC : GenericQC :=
  {| qc_view := 0; qc_node := INIT_NODE_HASH; qc_combined_sign := zeroed_sign |}.
Definition INIT_QC_HASH : QCHash := GenericQC_hash INIT_QC.

Definition GenericQC_is_init_qc (qc : GenericQC) : bool :=
  bool_decide (GenericQC_hash qc = INIT_QC_HASH).

(** ** Signature kits *)

Record SignKit := mkSignKit { kit_sign : Sign; kit_sign_id : SignID }.

Definition SignKit_new (sign_id : SignID) (sign : Sign) : SignKit :=
  {| kit_sign := sign; kit_sign_id := sign_id |}.
Definition SignKit_from (v : Sign * SignID) : SignKit :=
  {| kit_sign := v.1; kit_sign_id := v.2 |}.

(** [assert!(t <= n)]; [s] is the key set [SecretKeySet::random(t, ..)] drew. *)
Definition threshold_sign_kit (s : SecretKeySet) (n t : Z) :
    outcome (SecretKeySet * PK * list (Z * SK)) :=
  if t <=? n then
    Ret (s, public_keys s, (fun i => (i, secret_key_share s i)) <$> seqZ 0 n)
  else Panic.

(** [v.try_into().unwrap()] wants exactly 96 bytes; [from_bytes(..).unwrap()]. *)
Definition combined_sign_from_vec_u8 (v : list byte) : outcome CombinedSign :=
  if decide (length v = 96%nat) then unwrap (sign_from_bytes v) else Panic.

Definition form_combined_sign (node : TreeNode) (sks : list (Z * SK)) (pks : PK) :
    outcome CombinedSign :=
  let node_bytes := TreeNode_to_be_bytes node in
  let signs := (fun isk => (isk.1, sk_sign isk.2 node_bytes)) <$> sks in
  unwrap (combine_signatures pks signs).

(** The loop of [form_chain]: [height], [parent_hash] and [parent_node] are its
    mutable variables. *)
Fixpoint form_chain_loop (txn : list (list byte)) (vec_sks : list (Z * SK)) (pk_set : PK)
    (height : ViewNumber) (parent_hash : NodeHash) (parent_node : TreeNode) :
    outcome (list (NodeHash * TreeNode)) :=
  match txn with
  | [] => Ret []
  | tx :: rest =>
      combined_sign ← form_combined_sign parent_node vec_sks pk_set;
      let justify := GenericQC_new height parent_hash combined_sign in
      let '(node, hash) := TreeNode_node_and_hash [Txn_new tx] (height + 1) parent_hash justify in
      v ← form_chain_loop rest vec_sks pk_set (height + 1) hash node;
      Ret ((hash, node) :: v)
  end.

Definition form_chain (txn : list (list byte)) (vec_sks : list (Z * SK)) (pk_set : PK) :
    outcome (list (NodeHash * TreeNode)) :=
  form_chain_loop txn vec_sks pk_set 0 INIT_NODE_HASH INIT_NODE.

(** ** Well-formed values: what the Rust types guarantee *)

Definition GenericQC_wf (qc : GenericQC) : Prop :=
  u64_ok (qc_view qc) /\ NodeHash_wf (qc_node qc).
Definition TreeNode_wf (n : TreeNode) : Prop :=
  u64_ok (node_height n) /\ NodeHash_wf (node_parent n) /\ GenericQC_wf (node_justify n).

(** [p] is the parent the certificate of [n] justifies: [n] is one view higher,
    names [p] by hash as its parent and as the node of its certificate, and the
    certificate verifies on the bytes of [p]. *)
Definition justified_child (pks : PK) (p n : TreeNode) : Prop :=
  node_height n = node_height p + 1 /\
  node_parent n = TreeNode_hash p /\
  qc_node (node_justify n) = TreeNode_hash p /\
  qc_view (node_justify n) = node_height p /\
  pk_verify pks (qc_combined_sign (node_justify n)) (TreeNode_to_be_bytes p) = true.

(** Consecutive elements of [p :: l] are justified children. *)
Fixpoint justified_chain (pks : PK) (p : TreeNode) (l : list TreeNode) : Prop :=
  match l with
  | [] => True
  | n :: l => justified_child pks p n /\ justified_chain pks n l
  end.

End HsData.

(** ** Theorems *)

Lemma app_inj_len {A : Type} (k1 k2 l1 l2 : list A) :
  length k1 = length k2 -> k1 ++ l1 = k2 ++ l2 -> k1 = k2 /\ l1 = l2.
Proof. intros Hlen Heq. by apply app_inj_1. Qed.

(** The buffer of [from_vec] after the loop, from index [i] on. *)
Lemma from_vec_loop (v buf : list byte) (pre : list byte) :
  (length v <= length buf)%nat ->
  fold_left (fun buf ib => <[ib.1:=ib.2]> buf)
    (imap (fun i b => (length pre + i, b)%nat) v) (pre ++ buf) =
  pre ++ v ++ drop (length v) buf.
Proof.
  revert pre buf. induction v as [|b v IH]; intros pre buf Hlen; simpl.
  - done.
  - destruct buf as [|c buf]; simpl in Hlen; [lia|].
    rewrite Nat.add_0_r, insert_app_r_alt, Nat.sub_diag by lia. simpl.
    rewrite (imap_ext _ (fun i b => (length (pre ++ [b]) + i, b)%nat)).
    2:{ intros i x _. simpl. rewrite length_app. simpl. f_equal. lia. }
    change (pre ++ b :: buf) with (pre ++ [b] ++ buf). rewrite app_assoc.
    erewrite imap_ext; [rewrite (IH (pre ++ [b]) buf) by lia|].
    + by rewrite <-app_assoc.
    + intros i x _. simpl. rewrite !length_app. simpl. f_equal.
Qed.

(** The bytes [from_vec] keeps, and the padding. *)
Lemma from_vec_take (v : list byte) :
  NodeHash_as_ref (NodeHash_from_vec v) = take 32 v ++ replicate (32 - length v) x00.
Proof.
  assert (H : NodeHash_as_ref (NodeHash_from_vec v)
              = take 32 v ++ drop (length (take 32 v)) (replicate 32 x00)).
  { unfold NodeHash_from_vec. cbn [NodeHash_as_ref].
    pose proof (from_vec_loop (take 32 v) (replicate 32 x00) []) as E.
    apply E. rewrite length_take, length_replicate. lia. }
  rewrite drop_replicate, length_take in H.
  by replace (32 - (32 `min` length v))%nat with (32 - length v)%nat in H by lia.
Qed.

Section HsDataTheorems.
Context `{TC : ThresholdCrypto} {Laws : ThresholdCryptoLaws}.

Lemma GenericQC_to_be_bytes_length qc :
  GenericQC_wf qc -> length (GenericQC_to_be_bytes qc) = 136%nat.
Proof.
  intros [_ Hn]. unfold GenericQC_to_be_bytes.
  rewrite !length_app, sign_to_bytes_length, Hn. reflexivity.
Qed.

Lemma sign_to_bytes_inj s1 s2 : sign_to_bytes s1 = sign_to_bytes s2 -> s1 = s2.
Proof.
  intros H. apply (inj Some). by rewrite <-!sign_from_to_bytes, H.
Qed.

Lemma NodeHash_ext h1 h2 : NodeHash_as_ref h1 = NodeHash_as_ref h2 -> h1 = h2.
Proof. destruct h1, h2. simpl. congruence. Qed.

Lemma GenericQC_to_be_bytes_inj qc1 qc2 :
  GenericQC_wf qc1 -> GenericQC_wf qc2 ->
  GenericQC_to_be_bytes qc1 = GenericQC_to_be_bytes qc2 -> qc1 = qc2.
Proof.
  intros [Hv1 Hn1] [Hv2 Hn2] H. unfold GenericQC_to_be_bytes in H.
  apply app_inj_len in H as [Hv H]; [|by unfold u64_to_be_bytes; rewrite !length_be_bytes].
  apply app_inj_len in H as [Hn H]; [|by rewrite Hn1, Hn2].
  apply u64_to_be_bytes_inj in Hv; [|done..].
  apply NodeHash_ext in Hn. apply sign_to_bytes_inj in H.
  destruct qc1, qc2. simpl in *. by subst.
Qed.

Lemma TreeNode_bytes_fields (n1 n2 : TreeNode) :
  TreeNode_wf n1 -> TreeNode_wf n2 ->
  TreeNode_to_be_bytes n1 = TreeNode_to_be_bytes n2 ->
  node_height n1 = node_height n2 /\ node_justify n1 = node_justify n2 /\
  node_parent n1 = node_parent n2 /\
  concat (Txn_as_ref <$> node_txs n1) = concat (Txn_as_ref <$> node_txs n2).
Proof.
  intros (Hh1 & Hp1 & Hq1) (Hh2 & Hp2 & Hq2) H. unfold TreeNode_to_be_bytes in H.
  apply app_inj_len in H as [Hh H]; [|by unfold u64_to_be_bytes; rewrite !length_be_bytes].
  apply app_inj_len in H as [Hq H]; [|by rewrite !GenericQC_to_be_bytes_length].
  apply app_inj_len in H as [Hp H]; [|by rewrite Hp1, Hp2].
  split_and!; [|by apply GenericQC_to_be_bytes_inj|by apply NodeHash_ext|done].
  by apply u64_to_be_bytes_inj.
Qed.

(** The signed encoding of two well-formed proposals is the same exactly when height,
    certificate, parent and the concatenation of the transactions are; the hash depends on
    height, parent and transactions only, so proposals with different certificates share a
    hash but not a signature. *)
Theorem TreeNode_signed_bytes_vs_hash (n1 n2 : TreeNode) :
  TreeNode_wf n1 -> TreeNode_wf n2 ->
  (TreeNode_to_be_bytes n1 = TreeNode_to_be_bytes n2 <->
     node_height n1 = node_height n2 /\ node_justify n1 = node_justify n2 /\
     node_parent n1 = node_parent n2 /\
     concat (Txn_as_ref <$> node_txs n1) = concat (Txn_as_ref <$> node_txs n2)) /\
  (node_height n1 = node_height n2 -> node_parent n1 = node_parent n2 ->
   node_txs n1 = node_txs n2 -> TreeNode_hash n1 = TreeNode_hash n2).
Proof.
  intros Hw1 Hw2. split; [split|].
  - by apply TreeNode_bytes_fields.
  - unfold TreeNode_to_be_bytes. by intros (-> & -> & -> & ->).
  - unfold TreeNode_hash. by intros -> -> ->.
Qed.

Lemma TreeNode_hash_wf (n : TreeNode) : NodeHash_wf (TreeNode_hash n).
Proof. apply sha256_length. Qed.

(** [from_bytes] undoes [to_bytes]. *)
Lemma combined_sign_from_vec_u8_roundtrip (s : CombinedSign) :
  combined_sign_from_vec_u8 (sign_to_bytes s) = Ret s.
Proof.
  unfold combined_sign_from_vec_u8. rewrite decide_True by apply sign_to_bytes_length.
  by rewrite sign_from_to_bytes.
Qed.

(** The shares [threshold_sign_kit] hands out combine on any proposal. *)
Lemma form_combined_sign_ok (s : SecretKeySet) (n : Z) (node : TreeNode) :
  pks_threshold (public_keys s) < n ->
  exists c,
    form_combined_sign node ((fun i => (i, secret_key_share s i)) <$> seqZ 0 n) (public_keys s)
      = Ret c /\
    pk_verify (public_keys s) c (TreeNode_to_be_bytes node) = true.
Proof.
  intros Hn. unfold form_combined_sign. rewrite <-list_fmap_compose. unfold compose. simpl.
  destruct (combine_ok s (TreeNode_to_be_bytes node) (seqZ 0 n)) as (c & Hc & Hv).
  - apply NoDup_seqZ.
  - rewrite length_seqZ. lia.
  - exists c. rewrite Hc. done.
Qed.

Lemma form_chain_loop_ok (s : SecretKeySet) (n : Z) (txn : list (list byte)) :
  pks_threshold (public_keys s) < n ->
  forall p : TreeNode,
  exists l,
    form_chain_loop txn ((fun i => (i, secret_key_share s i)) <$> seqZ 0 n) (public_keys s)
      (node_height p) (TreeNode_hash p) p = Ret l /\
    length l = length txn /\
    Forall (fun hn => hn.1 = TreeNode_hash hn.2) l /\
    justified_chain (public_keys s) p (l.*2).
Proof.
  intros Hn. induction txn as [|tx txn IH]; intros p; cbn [form_chain_loop].
  - exists []. repeat split. constructor.
  - destruct (form_combined_sign_ok s n p Hn) as (c & -> & Hv). cbn -[seqZ].
    set (node := {| node_height := node_height p + 1 |}).
    destruct (IH node) as (l & Hl & Hlen & Hhash & Hch).
    cbn in Hl. rewrite Hl. exists ((TreeNode_hash node, node) :: l).
    cbn. split; [done|]. split; [congruence|]. split; [by constructor|]. by repeat split.
Qed.

(** form_chain returns one proposal per transaction, filed under its hash; each is
    one higher than the one before, names it as parent and as certified node, and carries
    a signature that verifies on it. *)
Theorem form_chain_justified (s : SecretKeySet) (n t : Z) (txn : list (list byte)) sks pks vec_sks :
  threshold_sign_kit s n t = Ret (sks, pks, vec_sks) ->
  pks_threshold pks < n ->
  exists l,
    form_chain txn vec_sks pks = Ret l /\
    length l = length txn /\
    Forall (fun hn => hn.1 = TreeNode_hash hn.2) l /\
    justified_chain pks INIT_NODE (l.*2).
Proof.
  unfold threshold_sign_kit. destruct (t <=? n); [|done].
  intros [= <- <- <-] Hn. exact (form_chain_loop_ok s n txn Hn INIT_NODE).
Qed.

End HsDataTheorems.
