(* ===== verification/CryptoKit.v ===== *)
(** * Signing and verifying proposals (crate [cryptokit])

    The trait [Signaturer] is a class; [DefaultSignaturer], the implementation
    every component uses, is its instance over the threshold scheme. *)

From S2P Require Import Prelude Crypto HsData.

Inductive SignErr :=
| SignErr_InsufficientSigns (need offered : Z).

Class Signaturer `{TC : ThresholdCrypto} (S : Type) := {
  sign_id : S -> SignID;
  sign : S -> TreeNode -> SignKit;
  combine_partial_sign : S -> list SignKit -> result CombinedSign SignErr;
  validate_vote : S -> TreeNode -> SignKit -> bool;
  validate_qc : S -> TreeNode -> CombinedSign -> bool;
}.

Section CryptoKit.
Context `{TC : ThresholdCrypto}.

Record DefaultSignaturer := mkDefaultSignaturer {
  ds_sign_id : SignID;
  ds_pks : PK;
  ds_sks : SK;
}.

Definition DefaultSignaturer_new (sign_id : SignID) (pks : PK) (sks : SK) : DefaultSignaturer :=
  {| ds_sign_id := sign_id; ds_pks := pks; ds_sks := sks |}.

Definition DefaultSignaturer_sign_id (s : DefaultSignaturer) : SignID := ds_sign_id s.

Definition DefaultSignaturer_sign (s : DefaultSignaturer) (node : TreeNode) : SignKit :=
  let buf := TreeNode_to_be_bytes node in
  SignKit_new (ds_sign_id s) (sk_sign (ds_sks s) buf).

Definition DefaultSignaturer_combine_partial_sign (s : DefaultSignaturer)
    (partial_signs : list SignKit) : result CombinedSign SignErr :=
  let voters := (fun kit => (kit_sign_id kit, kit_sign kit)) <$> partial_signs in
  let voter_num := Z.of_nat (length voters) in
  match combine_signatures (ds_pks s) voters with
  | Some c => Ok c
  | None => Err (SignErr_InsufficientSigns (pks_threshold (ds_pks s)) voter_num)
  end.

Definition DefaultSignaturer_validate_vote (s : DefaultSignaturer) (prop : TreeNode)
    (vote : SignKit) : bool :=
  share_verify (ds_pks s) (kit_sign_id vote) (kit_sign vote) (TreeNode_to_be_bytes prop).

Definition DefaultSignaturer_validate_qc (s : DefaultSignaturer) (qc_node : TreeNode)
    (combined_sign : CombinedSign) : bool :=
  pk_verify (ds_pks s) combined_sign (TreeNode_to_be_bytes qc_node).

#[global] Instance DefaultSignaturer_Signaturer : Signaturer DefaultSignaturer := {
  sign_id := DefaultSignaturer_sign_id;
  sign := DefaultSignaturer_sign;
  combine_partial_sign := DefaultSignaturer_combine_partial_sign;
  validate_vote := DefaultSignaturer_validate_vote;
  validate_qc := DefaultSignaturer_validate_qc;
}.

(** A vote share made by replica [i] of the key set [s] on [prop]. *)
Definition honest_kit (s : SecretKeySet) (prop : TreeNode) (kit : SignKit) : Prop :=
  kit_sign kit = sk_sign (secret_key_share s (kit_sign_id kit)) (TreeNode_to_be_bytes prop).

End CryptoKit.

Section CryptoKitTheorems.
Context `{TC : ThresholdCrypto} {Laws : ThresholdCryptoLaws}.

Lemma honest_kits_shares s prop (kits : list SignKit) :
  Forall (honest_kit s prop) kits ->
  (fun kit => (kit_sign_id kit, kit_sign kit)) <$> kits =
  (fun i => (i, sk_sign (secret_key_share s i) (TreeNode_to_be_bytes prop))) <$>
    (kit_sign_id <$> kits).
Proof.
  induction 1 as [|kit kits Hk _ IH]; [done|].
  rewrite !fmap_cons, IH. by rewrite Hk at 1.
Qed.

(** Every replica accepts the vote of every other one. *)
Lemma DefaultSignaturer_sign_validates (sks : SecretKeySet) (i j : SignID) (node : TreeNode) :
  let signer := DefaultSignaturer_new i (public_keys sks) (secret_key_share sks i) in
  let verifier := DefaultSignaturer_new j (public_keys sks) (secret_key_share sks j) in
  DefaultSignaturer_validate_vote verifier node (DefaultSignaturer_sign signer node) = true.
Proof. apply share_verify_ok. Qed.

Lemma DefaultSignaturer_combine_ok (d : DefaultSignaturer) s prop (kits : list SignKit) :
  ds_pks d = public_keys s ->
  Forall (honest_kit s prop) kits -> NoDup (kit_sign_id <$> kits) ->
  pks_threshold (ds_pks d) < Z.of_nat (length kits) ->
  exists c, DefaultSignaturer_combine_partial_sign d kits = Ok c /\
            DefaultSignaturer_validate_qc d prop c = true.
Proof.
  intros Hpk Hk Hnd Hlen. unfold DefaultSignaturer_combine_partial_sign,
    DefaultSignaturer_validate_qc. rewrite (honest_kits_shares s prop) by done.
  rewrite Hpk in *. destruct (combine_ok s (TreeNode_to_be_bytes prop) (kit_sign_id <$> kits))
    as (c & -> & Hv); [done|by rewrite length_fmap|]. by exists c.
Qed.

Lemma DefaultSignaturer_combine_insufficient (d : DefaultSignaturer) (kits : list SignKit) :
  Z.of_nat (length kits) <= pks_threshold (ds_pks d) ->
  DefaultSignaturer_combine_partial_sign d kits =
    Err (SignErr_InsufficientSigns (pks_threshold (ds_pks d)) (Z.of_nat (length kits))).
Proof.
  intros Hlen. unfold DefaultSignaturer_combine_partial_sign.
  rewrite combine_insufficient; rewrite length_fmap; done.
Qed.

End CryptoKitTheorems.
