(* ===== verification/Voter.v ===== *)
(** * Collecting votes (hotstuff-rs/src/safety/voter.rs)

    [Voter] keeps, per view, the votes received from each replica and combines
    them into a threshold signature. *)

From S2P Require Import Prelude Crypto HsData CryptoKit.

Inductive VoteErr :=
| DuplicateVote (from : ReplicaID)
| IncompatibleVote (from : ReplicaID) (view : ViewNumber)
| RoundDecided (view : ViewNumber)
| InsufficientSigns (need offered : Z).

Section Voter.
Context `{TC : ThresholdCrypto} {S : Type} `{!Signaturer S}.

Record Voter := mkVoter {
  v_view : ViewNumber;
  v_signature : S;
  v_threshold : Z;
  v_voting_set : gmap Z (gmap string SignKit);
  v_vote_decided : bool;
}.

Definition Voter_new (threshold : Z) (signature : S) : Voter :=
  {| v_view := 0; v_signature := signature; v_threshold := threshold;
     v_voting_set := ∅; v_vote_decided := false |}.

Definition Voter_sign (v : Voter) (node : TreeNode) : SignKit := sign (v_signature v) node.

Definition Voter_validate_vote (v : Voter) (prop : TreeNode) (vote : SignKit) : bool :=
  validate_vote (v_signature v) prop vote.

Definition Voter_validate_qc (v : Voter) (qc_node : TreeNode) (c : CombinedSign) : bool :=
  validate_qc (v_signature v) qc_node c.

Definition Voter_vote_set_size (v : Voter) (view : ViewNumber) : Z :=
  match v_voting_set v !! view with None => 0 | Some x => map_len x end.

Definition Voter_decide (v : Voter) : Voter :=
  {| v_view := v_view v; v_signature := v_signature v; v_threshold := v_threshold v;
     v_voting_set := v_voting_set v; v_vote_decided := true |}.

Definition Voter_reset (v : Voter) (new_view : ViewNumber) : Voter :=
  {| v_view := new_view; v_signature := v_signature v; v_threshold := v_threshold v;
     v_voting_set := ∅; v_vote_decided := false |}.

Definition Voter_set_voting_set (v : Voter) (m : gmap Z (gmap string SignKit)) : Voter :=
  {| v_view := v_view v; v_signature := v_signature v; v_threshold := v_threshold v;
     v_voting_set := m; v_vote_decided := v_vote_decided v |}.

(** [entry(view).or_insert(HashMap::new()).insert(ctx.from, sign)]: the vote is
    stored in any case; a previous one from the same replica is reported. *)
Definition Voter_add_vote (v : Voter) (ctx : Context) (view : ViewNumber) (sign : SignKit) :
    Voter * result unit VoteErr :=
  let votes := default ∅ (v_voting_set v !! view) in
  let v' := Voter_set_voting_set v (<[view:=<[ctx_from ctx:=sign]> votes]> (v_voting_set v)) in
  match votes !! ctx_from ctx with
  | None => (v', Ok tt)
  | Some _ => (v', Err (DuplicateVote (ctx_from ctx)))
  end.

Definition Voter_combine_partial_sign (v : Voter) (view : ViewNumber) :
    outcome (Voter * result CombinedSign VoteErr) :=
  if Voter_vote_set_size v view <=? v_threshold v then
    Ret (v, Err (InsufficientSigns (v_threshold v + 1) (Voter_vote_set_size v view)))
  else
    let v := Voter_decide v in
    votes ← unwrap (v_voting_set v !! view);
    let res := map_err (fun e => match e with
                                 | SignErr_InsufficientSigns n m => InsufficientSigns n m
                                 end)
                 (combine_partial_sign (v_signature v) (map_values votes)) in
    let v := Voter_set_voting_set v (delete view (v_voting_set v)) in
    Ret (v, res).

(** The votes kept for a view. *)
Definition Voter_votes (v : Voter) (view : ViewNumber) : gmap string SignKit :=
  default ∅ (v_voting_set v !! view).

(** ** Theorems *)

Lemma Voter_vote_set_size_votes (v : Voter) view :
  Voter_vote_set_size v view = map_len (Voter_votes v view).
Proof.
  unfold Voter_vote_set_size, Voter_votes, map_len.
  destruct (_ !! _); simpl; [done|]. by rewrite map_size_empty.
Qed.

Lemma Voter_combine_insufficient v view :
  map_len (Voter_votes v view) <= v_threshold v ->
  Voter_combine_partial_sign v view =
    Ret (v, Err (InsufficientSigns (v_threshold v + 1) (map_len (Voter_votes v view)))).
Proof.
  intros H. unfold Voter_combine_partial_sign. rewrite Voter_vote_set_size_votes.
  destruct (Z.leb_spec (map_len (Voter_votes v view)) (v_threshold v)); [done|lia].
Qed.

Lemma Voter_combine_enough v view :
  0 <= v_threshold v < map_len (Voter_votes v view) ->
  Voter_combine_partial_sign v view =
    Ret (Voter_set_voting_set (Voter_decide v) (delete view (v_voting_set v)),
         map_err (fun e => match e with SignErr_InsufficientSigns n m => InsufficientSigns n m end)
           (combine_partial_sign (v_signature v) (map_values (Voter_votes v view)))).
Proof.
  intros H. unfold Voter_combine_partial_sign. rewrite Voter_vote_set_size_votes.
  destruct (Z.leb_spec (map_len (Voter_votes v view)) (v_threshold v)); [lia|].
  unfold Voter_votes in *. cbn [v_voting_set Voter_decide].
  destruct (v_voting_set v !! view) as [votes|]; [done|].
  unfold map_len in H. simpl in H. rewrite map_size_empty in H. lia.
Qed.

Lemma Voter_combine_returns v view :
  0 <= v_threshold v -> exists v' r, Voter_combine_partial_sign v view = Ret (v', r).
Proof.
  intros Hth. destruct (Z.le_gt_cases (map_len (Voter_votes v view)) (v_threshold v)).
  - rewrite Voter_combine_insufficient by done. eauto.
  - rewrite Voter_combine_enough by lia. eauto.
Qed.

(** add_vote stores the vote under the sender in the set of that view and touches no
    other view; a first vote adds one to the size, a repeated one replaces the old vote,
    keeps the size and is reported as a duplicate. *)
Theorem Voter_add_vote_spec (v : Voter) (ctx : Context) (view : ViewNumber) (sg : SignKit) :
  let '(v', r) := Voter_add_vote v ctx view sg in
  let before := default ∅ (v_voting_set v !! view) in
  v_voting_set v' !! view = Some (<[ctx_from ctx:=sg]> before) /\
  (forall w, w <> view -> v_voting_set v' !! w = v_voting_set v !! w) /\
  match before !! ctx_from ctx with
  | None => r = Ok tt /\ Voter_vote_set_size v' view = Voter_vote_set_size v view + 1
  | Some _ => r = Err (DuplicateVote (ctx_from ctx)) /\
              Voter_vote_set_size v' view = Voter_vote_set_size v view
  end.
Proof.
  unfold Voter_add_vote, Voter_vote_set_size, Voter_set_voting_set.
  destruct (default ∅ (v_voting_set v !! view) !! ctx_from ctx) eqn:E;
    simpl; rewrite lookup_insert_eq;
    (split; [done|]; split; [intros w Hw; by rewrite lookup_insert_ne|]; split; [done|]);
    unfold map_len; destruct (v_voting_set v !! view) as [votes|] eqn:Ev; simpl in E |- *.
  - rewrite map_size_insert_Some by eauto. done.
  - by rewrite lookup_empty in E.
  - rewrite map_size_insert_None by done. lia.
  - rewrite map_size_insert_None by done. by rewrite map_size_empty.
Qed.

(** combine_partial_sign never panics: with too few votes it reports how many are
    needed and changes nothing, otherwise it marks the round decided and removes the votes
    of that view only, whether or not the combination succeeds. *)
Theorem Voter_combine_partial_sign_total (v : Voter) (view : ViewNumber) :
  0 <= v_threshold v ->
  exists v' r, Voter_combine_partial_sign v view = Ret (v', r) /\
    (Voter_vote_set_size v view <= v_threshold v ->
       v' = v /\
       r = Err (InsufficientSigns (v_threshold v + 1) (Voter_vote_set_size v view))) /\
    (v_threshold v < Voter_vote_set_size v view ->
       v_vote_decided v' = true /\ Voter_vote_set_size v' view = 0 /\
       (forall w, w <> view -> v_voting_set v' !! w = v_voting_set v !! w)).
Proof.
  intros Hth. rewrite Voter_vote_set_size_votes.
  destruct (Z.le_gt_cases (map_len (Voter_votes v view)) (v_threshold v)) as [Hle|Hgt].
  - rewrite Voter_combine_insufficient by done. do 2 eexists. split; [done|]. split; [done|lia].
  - rewrite Voter_combine_enough by lia. do 2 eexists. split; [done|]. split; [lia|].
    intros _. unfold Voter_vote_set_size. simpl. rewrite lookup_delete_eq.
    split_and!; [done..|]. intros w Hw. by rewrite lookup_delete_ne.
Qed.

End Voter.
Arguments Voter {TC} S.

Section VoterTheorems.
Context `{TC : ThresholdCrypto} {Laws : ThresholdCryptoLaws}.

(** The share of replica [i] on [prop]. *)
Definition honest_share (s : SecretKeySet) (prop : TreeNode) (i : Z) : SignKit :=
  SignKit_from (sk_sign (secret_key_share s i) (TreeNode_to_be_bytes prop), i).

(** One [add_vote] per vote of [l], with the answers. *)
Fixpoint Voter_add_votes (v : Voter DefaultSignaturer) (view : ViewNumber)
    (l : list (Context * SignKit)) : Voter DefaultSignaturer * list (result unit VoteErr) :=
  match l with
  | [] => (v, [])
  | (ctx, kit) :: l =>
      let '(v, r) := Voter_add_vote v ctx view kit in
      let '(v, rs) := Voter_add_votes v view l in
      (v, r :: rs)
  end.

(** The votes of different senders that have not voted are all kept. *)
Lemma Voter_add_votes_kept view l v :
  NoDup (ctx_from <$> l.*1) -> Forall (fun x => Voter_votes v view !! ctx_from x.1 = None) l ->
  let '(v', rs) := Voter_add_votes v view l in
  Forall (eq (Ok tt)) rs /\ length rs = length l /\
  map_to_list (Voter_votes v' view) ≡ₚ (prod_map ctx_from id <$> l) ++ map_to_list (Voter_votes v view) /\
  v' = Voter_set_voting_set v (v_voting_set v') /\
  delete view (v_voting_set v') = delete view (v_voting_set v).
Proof.
  revert v. induction l as [|[ctx kit] l IH]; intros v Hnd Hnew; [by destruct v|].
  cbn [Voter_add_votes]. rewrite !fmap_cons, NoDup_cons in Hnd. destruct Hnd as [Hctx Hnd].
  apply Forall_cons in Hnew as [Hc Hnew]. cbn in Hc.
  unfold Voter_add_vote. fold (Voter_votes v view). rewrite Hc.
  set (v1 := Voter_set_voting_set v _).
  assert (Hv1 : Voter_votes v1 view = <[ctx_from ctx:=kit]> (Voter_votes v view))
    by (unfold Voter_votes, v1; simpl; by rewrite lookup_insert_eq).
  specialize (IH v1 Hnd). destruct (Voter_add_votes v1 view l) as [v' rs].
  destruct IH as (Hr & Hlen & Hp & Hv' & Hd).
  { rewrite Hv1. apply Forall_forall. intros [c k] Hin. rewrite lookup_insert_ne.
    - by apply (proj1 (Forall_forall _ _) Hnew (c, k)).
    - intros E. apply Hctx. change (ctx_from (ctx, kit).1) with (ctx_from ctx). rewrite E.
      apply list_elem_of_fmap_2, (list_elem_of_fmap_2 fst l (c, k)), Hin. }
  split_and!.
  - by constructor.
  - simpl. by rewrite Hlen.
  - rewrite Hp, Hv1, map_to_list_insert by done. simpl. by rewrite <-Permutation_middle.
  - by rewrite Hv'.
  - rewrite Hd. unfold v1. simpl. by rewrite delete_insert_eq.
Qed.


End VoterTheorems.
