(* ===== verification/SafetyStorage.v ===== *)
(** * The storage interface of the machine (hotstuff-rs/src/safety/machine.rs)

    The trait [SafetyStorage] is a class of operations; [SafetyStorageLaws] states
    what the machine relies on: each setter changes what it names and nothing else
    the machine reads.  The machine's theorems are proved against the two classes,
    and the in-memory store of [hss] is an instance of both.

    [flush] is asynchronous and not called by the machine; it is an operation of
    the store itself. *)

From S2P Require Import Prelude Crypto HsData.

(** Snapshot for machine's internal state. *)
Record Snapshot `{TC : ThresholdCrypto} := mkSnapshot {
  ss_view : ViewNumber;
  ss_leader : option ReplicaID;
  ss_qc_high : GenericQC;
  ss_leaf : TreeNode;
  ss_locked_node : TreeNode;
  ss_last_committed : ViewNumber;
}.

Class SafetyStorage `{TC : ThresholdCrypto} (S : Type) := {
  append_new_node : S -> TreeNode -> S;
  append_new_qc : S -> GenericQC -> S;
  get_node : S -> NodeHash -> option TreeNode;
  find_three_chain : S -> TreeNode -> list TreeNode;
  is_consecutive_three_chain : S -> list TreeNode -> bool;
  (** [None]: the walk along the parents never ends. *)
  is_conflicting : S -> TreeNode -> TreeNode -> option bool;
  get_qc_high : S -> GenericQC;
  update_qc_high : S -> TreeNode -> GenericQC -> S;
  get_leaf : S -> TreeNode;
  update_leaf : S -> TreeNode -> S;
  get_locked_node : S -> TreeNode;
  update_locked_node : S -> TreeNode -> S;
  get_view : S -> ViewNumber;
  increase_view : S -> ViewNumber -> S;
  commit : S -> TreeNode -> S;
  get_last_committed : S -> TreeNode;
  get_vheight : S -> ViewNumber;
  update_vheight : S -> ViewNumber -> S * ViewNumber;
  hotstuff_status : S -> Snapshot;
}.

(** The locked node, the last committed node and the view.  An operation frames
    them when it leaves the three unchanged. *)
Definition same_safety `{TC : ThresholdCrypto} {St : Type} `{!SafetyStorage St} (s s' : St) : Prop :=
  get_locked_node s' = get_locked_node s /\
  get_last_committed s' = get_last_committed s /\
  get_view s' = get_view s.

(** [Inv] is the invariant the store maintains through its operations. *)
Class SafetyStorageLaws `{TC : ThresholdCrypto} (St : Type) `{!SafetyStorage St}
    (Inv : St -> Prop) : Prop := {
  append_new_node_frame s n : same_safety s (append_new_node s n);
  append_new_qc_frame s qc : same_safety s (append_new_qc s qc);
  update_qc_high_frame s n qc : same_safety s (update_qc_high s n qc);
  update_leaf_frame s n : same_safety s (update_leaf s n);
  update_vheight_frame s h : same_safety s (update_vheight s h).1;

  update_locked_node_locked s n : get_locked_node (update_locked_node s n) = n;
  update_locked_node_commit s n :
    get_last_committed (update_locked_node s n) = get_last_committed s;
  update_locked_node_view s n : get_view (update_locked_node s n) = get_view s;

  commit_locked s n : get_locked_node (commit s n) = get_locked_node s;
  commit_view s n : get_view (commit s n) = get_view s;
  (** Committing replaces the last committed node exactly when [n] is higher. *)
  commit_last s n :
    Inv s ->
    get_last_committed (commit s n) =
      if node_height (get_last_committed s) <? node_height n then n else get_last_committed s;

  increase_view_locked s v : get_locked_node (increase_view s v) = get_locked_node s;
  increase_view_commit s v : get_last_committed (increase_view s v) = get_last_committed s;
  increase_view_view s v : get_view (increase_view s v) = Z.max (get_view s) v;

  update_vheight_vheight s h : get_vheight (update_vheight s h).1 = Z.max (get_vheight s) h;
  update_vheight_prev s h : (update_vheight s h).2 = get_vheight s;

  is_consecutive_length s l : is_consecutive_three_chain s l = true -> length l = 3%nat;

  append_new_node_inv s n : Inv s -> Inv (append_new_node s n);
  append_new_qc_inv s qc : Inv s -> Inv (append_new_qc s qc);
  update_qc_high_inv s n qc : Inv s -> Inv (update_qc_high s n qc);
  update_leaf_inv s n : Inv s -> Inv (update_leaf s n);
  update_vheight_inv s h : Inv s -> Inv (update_vheight s h).1;
  update_locked_node_inv s n : Inv s -> Inv (update_locked_node s n);
  commit_inv s n : Inv s -> Inv (commit s n);
  increase_view_inv s v : Inv s -> Inv (increase_view s v);
}.
