(* ===== verification/Machine.v ===== *)
(** * The event-driven HotStuff machine (hotstuff-rs/src/safety/machine.rs)

    [Machine<S>] is generic in its storage, as in the source: the class
    [SafetyStorage] of the previous file.  Each handler is one definition; it
    returns the new machine with the [Result<Ready>] of the Rust function.  The
    handlers that walk the proposal tree return an [outcome], because that walk
    may not end on a cyclic store. *)

From S2P Require Import Prelude Crypto HsData CryptoKit Voter SafetyStorage.

Section MachineDefs.
Context `{TC : ThresholdCrypto} {St : Type} `{!SafetyStorage St}.

Inductive SafetyEvent :=
| RequestSnapshot
| RecvProposal (ctx : Context) (prop : TreeNode)
| RecvSign (ctx : Context) (prop : TreeNode) (sign : SignKit)
| RecvNewViewMsg (ctx : Context) (qc_high : GenericQC)
| ViewChange (leader : ReplicaID) (view : ViewNumber)
| Propose (ctx : Context) (prop : TreeNode) (qc : GenericQC)
| NewTx (cmds : list Txn)
| NewLeader (ctx : Context) (leader : ReplicaID)
| BranchSync (ctx : Context) (branch : list TreeNode).

Inductive Ready :=
| Nil
| InternalState (ctx : Context) (ss : Snapshot)
| NewProposal (ctx : Context) (prop : TreeNode)
| UpdateQCHigh (ctx : Context) (node : TreeNode)
| Signature (ctx : Context) (prop : TreeNode) (sign : SignKit)
| CommitState (ctx : Context) (node : TreeNode)
| BranchSyncDone (leaf : TreeNode)
| ProposalReachConsensus (view : ViewNumber).

Inductive SafetyErr :=
| InvalidViewNumber (view : ViewNumber)
| InvalidLeader (leader : ReplicaID)
| VoterError (e : VoteErr)
| CorruptedVote
| CorruptedQC
| InternalErr.

Record Machine := mkMachine {
  m_storage : St;
  m_voter : Voter DefaultSignaturer;
  m_total : Z;
  m_self_id : ReplicaID;
  m_leader_id : option ReplicaID;
}.

Definition Machine_new (voter : Voter DefaultSignaturer) (self_id : ReplicaID) (total : Z)
    (leader_id : option ReplicaID) (storage : St) : Machine :=
  {| m_storage := storage; m_voter := voter; m_total := total; m_self_id := self_id;
     m_leader_id := leader_id |}.

(** Assignments to one field. *)
Definition set_storage (m : Machine) (s : St) : Machine :=
  {| m_storage := s; m_voter := m_voter m; m_total := m_total m; m_self_id := m_self_id m;
     m_leader_id := m_leader_id m |}.
Definition set_voter (m : Machine) (v : Voter DefaultSignaturer) : Machine :=
  {| m_storage := m_storage m; m_voter := v; m_total := m_total m; m_self_id := m_self_id m;
     m_leader_id := m_leader_id m |}.
Definition set_leader_id (m : Machine) (l : option ReplicaID) : Machine :=
  {| m_storage := m_storage m; m_voter := m_voter m; m_total := m_total m;
     m_self_id := m_self_id m; m_leader_id := l |}.

(** Threshold of the size of the quorum set. *)
Definition Machine_threshold (m : Machine) : Z := quorum_threshold (m_total m).

Definition Machine_on_commit (m : Machine) (to_commit : TreeNode) :
    Machine * result Ready SafetyErr :=
  let m := set_storage m (commit (m_storage m) to_commit) in
  (m, Ok (CommitState (Context_response (m_self_id m) (get_view (m_storage m)))
            (get_last_committed (m_storage m)))).

Definition Machine_update_nodes (m : Machine) (node : TreeNode) :
    outcome (Machine * result Ready SafetyErr) :=
  let chain := find_three_chain (m_storage m) node in
  let m :=
    match chain !! 0%nat with
    | Some b_3 => set_storage m (update_qc_high (m_storage m) b_3 (node_justify node))
    | None => m
    end in
  let m :=
    match chain !! 1%nat with
    | Some b_2 =>
        let locked := get_locked_node (m_storage m) in
        if node_height locked <? node_height b_2
        then set_storage m (update_locked_node (m_storage m) b_2) else m
    | None => m
    end in
  if is_consecutive_three_chain (m_storage m) chain then
    b ← unwrap (last chain);
    Ret (Machine_on_commit m b)
  else Ret (m, Ok Nil).

(** [!conflicting || justify_node.height() > locked.height()]. *)
Definition Machine_safe_node (m : Machine) (node justify_node : TreeNode) : outcome bool :=
  let locked := get_locked_node (m_storage m) in
  conflicting ← or_diverge (is_conflicting (m_storage m) node locked);
  let b := node_height locked <? node_height justify_node in
  Ret (negb conflicting || b).

Definition Machine_form_update_qc_high (m : Machine) : Ready :=
  UpdateQCHigh (Context_response (m_self_id m) (get_view (m_storage m))) (get_leaf (m_storage m)).

Definition Machine_verify_proposal (m : Machine) (justify : GenericQC) : result Ready SafetyErr :=
  match get_node (m_storage m) (qc_node justify) with
  | Some qc_node =>
      if negb (GenericQC_is_init_qc justify) then
        if negb (Voter_validate_qc (m_voter m) qc_node (qc_combined_sign justify))
        then Err CorruptedQC else Ok Nil
      else Ok Nil
  | None => Err CorruptedQC
  end.

Definition Machine_make_leaf (m : Machine) (cmds : list Txn) : TreeNode :=
  let prev_leaf := get_leaf (m_storage m) in
  let parent := TreeNode_hash prev_leaf in
  let justify := get_qc_high (m_storage m) in
  (TreeNode_node_and_hash cmds (get_view (m_storage m)) parent justify).1.

Definition Machine_on_beat (m : Machine) (cmds : list Txn) : Machine * result Ready SafetyErr :=
  let prop := Machine_make_leaf m cmds in
  let m := set_storage m (update_leaf (m_storage m) prop) in
  let ctx := Context_broadcast (m_self_id m) (get_view (m_storage m)) in
  let sign_kit := Voter_sign (m_voter m) prop in
  let m := set_voter m (Voter_add_vote (m_voter m) ctx (node_height prop) sign_kit).1 in
  (m, Ok (NewProposal ctx prop)).

Definition Machine_on_recv_vote (m : Machine) (ctx : Context) (prop : TreeNode) (sign : SignKit) :
    outcome (Machine * result Ready SafetyErr) :=
  if negb (Voter_validate_vote (m_voter m) prop sign) then Ret (m, Err CorruptedVote)
  else
    let '(voter, added) := Voter_add_vote (m_voter m) ctx (node_height prop) sign in
    let m := set_voter m voter in
    match added with
    | Err _ => Ret (m, Ok Nil)
    | Ok _ =>
        if Machine_threshold m <? Voter_vote_set_size (m_voter m) (node_height prop) then
          '(voter, combined) ← Voter_combine_partial_sign (m_voter m) (node_height prop);
          let m := set_voter m voter in
          match combined with
          | Ok combined_sign =>
              let prop_hash := TreeNode_hash (get_leaf (m_storage m)) in
              let qc := GenericQC_new (get_view (m_storage m)) prop_hash combined_sign in
              let m := set_storage m (update_qc_high (m_storage m) prop qc) in
              Ret (m, Ok (ProposalReachConsensus (qc_view qc)))
          | Err e => Ret (m, Err (VoterError e))
          end
        else Ret (m, Ok Nil)
    end.

(** [prop.height() > vheight && self.safe_node(prop, prev_node)]: the second
    operand is evaluated only when the first holds. *)
Definition Machine_accepts (m : Machine) (prop prev_node : TreeNode) : outcome bool :=
  if get_vheight (m_storage m) <? node_height prop
  then Machine_safe_node m prop prev_node else Ret false.

(** [self.storage.append_new_node(&prop); self.storage.update_vheight(prop.height())]. *)
Definition Machine_append (m : Machine) (prop : TreeNode) : Machine :=
  set_storage m (update_vheight (append_new_node (m_storage m) prop) (node_height prop)).1.

Definition Machine_on_recv_proposal (m : Machine) (ctx : Context) (prop : TreeNode)
    (justify : GenericQC) : outcome (Machine * result Ready SafetyErr) :=
  match Machine_verify_proposal m justify with
  | Err e => Ret (m, Err e)
  | Ok ready =>
      '(m, ready) ←
        match get_node (m_storage m) (qc_node (node_justify prop)) with
        | Some prev_node =>
            accept ← Machine_accepts m prop prev_node;
            if (accept : bool) then
              let m := Machine_append m prop in
              let sign_kit := Voter_sign (m_voter m) prop in
              Ret (m, Signature (Context_single (m_self_id m) (ctx_from ctx)
                                   (get_view (m_storage m))) prop sign_kit)
            else Ret (m, ready)
        | None => Ret (set_storage m (append_new_qc (m_storage m) (node_justify prop)), ready)
        end;
      '(m, _) ← Machine_update_nodes m prop;
      Ret (m, Ok ready)
  end.

Definition Machine_on_view_change (m : Machine) (leader : ReplicaID) (view : ViewNumber) :
    Machine * result Ready SafetyErr :=
  if get_view (m_storage m) <? view then
    let m := set_leader_id m (Some leader) in
    let m := set_voter m (Voter_reset (m_voter m) view) in
    let m := set_storage m (increase_view (m_storage m) view) in
    (m, Ok (Machine_form_update_qc_high m))
  else (m, Ok Nil).

Definition Machine_take_snapshot (m : Machine) : Snapshot :=
  let ss := hotstuff_status (m_storage m) in
  {| ss_view := ss_view ss; ss_leader := m_leader_id m; ss_qc_high := ss_qc_high ss;
     ss_leaf := ss_leaf ss; ss_locked_node := ss_locked_node ss;
     ss_last_committed := ss_last_committed ss |}.

(** The body of the loop of [on_branch_sync]. *)
Definition Machine_sync_one (m : Machine) (prop : TreeNode) : outcome Machine :=
  m ← match get_node (m_storage m) (qc_node (node_justify prop)) with
      | Some prev_node =>
          accept ← Machine_accepts m prop prev_node;
          Ret (if (accept : bool) then Machine_append m prop else m)
      | None => Ret m
      end;
  '(m, _) ← Machine_update_nodes m prop;
  Ret m.

Fixpoint Machine_branch_loop (m : Machine) (branch : list TreeNode) : outcome Machine :=
  match branch with
  | [] => Ret m
  | prop :: rest =>
      if negb (is_ok (Machine_verify_proposal m (node_justify prop))) then Ret m
      else m ← Machine_sync_one m prop; Machine_branch_loop m rest
  end.

Definition Machine_on_branch_sync (m : Machine) (branch : list TreeNode) :
    outcome (Machine * result Ready SafetyErr) :=
  m ← Machine_branch_loop m branch;
  Ret (m, Ok (BranchSyncDone (get_leaf (m_storage m)))).

Definition Machine_process_safety_event (m : Machine) (req : SafetyEvent) :
    outcome (Machine * result Ready SafetyErr) :=
  match req with
  | RequestSnapshot =>
      Ret (m, Ok (InternalState (Context_broadcast (m_self_id m) (get_view (m_storage m)))
                    (Machine_take_snapshot m)))
  | RecvProposal ctx proposal => Machine_on_recv_proposal m ctx proposal (node_justify proposal)
  | RecvSign ctx node sign => Machine_on_recv_vote m ctx node sign
  | NewTx cmds => Ret (Machine_on_beat m cmds)
  | RecvNewViewMsg _ qc_high =>
      let m :=
        match get_node (m_storage m) (qc_node qc_high) with
        | Some qc_node => set_storage m (update_qc_high (m_storage m) qc_node qc_high)
        | None => m
        end in
      Ret (m, Ok (Machine_form_update_qc_high m))
  | NewLeader ctx leader =>
      let m :=
        if (get_view (m_storage m) <=? ctx_view ctx) && bool_decide (m_leader_id m = None)
        then set_leader_id m (Some leader) else m in
      Ret (m, Ok Nil)
  | BranchSync _ branch => Machine_on_branch_sync m branch
  | ViewChange _ _ | Propose _ _ _ => Ret (m, Ok Nil)
  end.

(** The events of one replica in the order the pacemaker hands them over; an
    [Err] is logged and the machine goes on. *)
Fixpoint Machine_run (m : Machine) (reqs : list SafetyEvent) :
    outcome (Machine * list (result Ready SafetyErr)) :=
  match reqs with
  | [] => Ret (m, [])
  | req :: rest =>
      '(m, r) ← Machine_process_safety_event m req;
      '(m, rs) ← Machine_run m rest;
      Ret (m, r :: rs)
  end.

End MachineDefs.
Arguments Machine {TC} St.
