(* ===== verification/MachineSafety.v ===== *)
(** * Safety of the machine, for every storage that meets the interface

    What a replica never gives up (its lock, its committed height, its view), when
    it votes, when it rejects, and what its events can answer.  All statements are
    about [Machine_process_safety_event] and the handlers it dispatches to, and
    they hold for any instance of [SafetyStorageLaws]. *)

From S2P Require Import Prelude Crypto HsData CryptoKit Voter SafetyStorage Machine.

Section MachineSafety.
Context `{TC : ThresholdCrypto} {St : Type} `{!SafetyStorage St}
  (Inv : St -> Prop) `{!SafetyStorageLaws St Inv}.

Implicit Types (m : Machine St) (s : St) (p node : TreeNode).

(** ** The order on stores that events respect *)

Record store_le (s s' : St) : Prop := {
  le_locked : node_height (get_locked_node s) <= node_height (get_locked_node s');
  le_commit : node_height (get_last_committed s) <= node_height (get_last_committed s');
  le_view : get_view s' = get_view s;
  le_inv : Inv s -> Inv s';
}.

#[local] Instance store_le_preorder : PreOrder store_le.
Proof.
  split.
  - intros s. by split.
  - intros s1 s2 s3 [????] [????]. split; [lia|lia|congruence|auto].
Qed.

Lemma same_safety_le s s' : same_safety s s' -> (Inv s -> Inv s') -> store_le s s'.
Proof. intros (Hl & Hc & Hv) HI. split; rewrite ?Hl, ?Hc; auto with hs. Qed.

Lemma append_new_node_le s n : store_le s (append_new_node s n).
Proof. apply same_safety_le; [apply append_new_node_frame|apply append_new_node_inv]. Qed.
Lemma append_new_qc_le s qc : store_le s (append_new_qc s qc).
Proof. apply same_safety_le; [apply append_new_qc_frame|apply append_new_qc_inv]. Qed.
Lemma update_qc_high_le s n qc : store_le s (update_qc_high s n qc).
Proof. apply same_safety_le; [apply update_qc_high_frame|apply update_qc_high_inv]. Qed.
Lemma update_leaf_le s n : store_le s (update_leaf s n).
Proof. apply same_safety_le; [apply update_leaf_frame|apply update_leaf_inv]. Qed.
Lemma update_vheight_le s h : store_le s (update_vheight s h).1.
Proof. apply same_safety_le; [apply update_vheight_frame|apply update_vheight_inv]. Qed.

Lemma update_locked_node_le s n :
  node_height (get_locked_node s) < node_height n -> store_le s (update_locked_node s n).
Proof.
  intros H. split.
  - rewrite update_locked_node_locked. lia.
  - rewrite update_locked_node_commit. lia.
  - apply update_locked_node_view.
  - apply update_locked_node_inv.
Qed.

Lemma commit_le s n : Inv s -> store_le s (commit s n).
Proof.
  intros HI. split.
  - rewrite commit_locked. lia.
  - rewrite commit_last by done. zbool; lia.
  - apply commit_view.
  - apply commit_inv.
Qed.

#[local] Hint Resolve append_new_node_le append_new_qc_le update_qc_high_le update_leaf_le
  update_vheight_le : hs.

(** ** Handlers respect the order *)

(** The steps of [update_nodes]: take the certificate, then move the lock. *)
Definition qc_step m node : Machine St :=
  match find_three_chain (m_storage m) node !! 0%nat with
  | Some b_3 => set_storage m (update_qc_high (m_storage m) b_3 (node_justify node))
  | None => m
  end.

Definition lock_step m (b_2 : option TreeNode) : Machine St :=
  match b_2 with
  | Some b_2 =>
      if node_height (get_locked_node (m_storage m)) <? node_height b_2
      then set_storage m (update_locked_node (m_storage m) b_2) else m
  | None => m
  end.

Definition locked_step m node : Machine St :=
  lock_step (qc_step m node) (find_three_chain (m_storage m) node !! 1%nat).

Lemma update_nodes_unfold m node :
  Machine_update_nodes m node =
    let chain := find_three_chain (m_storage m) node in
    let m := locked_step m node in
    if is_consecutive_three_chain (m_storage m) chain
    then b ← unwrap (last chain); Ret (Machine_on_commit m b) else Ret (m, Ok Nil).
Proof. done. Qed.

Lemma locked_step_le m node : store_le (m_storage m) (m_storage (locked_step m node)).
Proof.
  transitivity (m_storage (qc_step m node)).
  - unfold qc_step. destruct (_ !! _); simpl; [auto with hs|reflexivity].
  - unfold locked_step, lock_step. destruct (_ !! 1%nat); [|reflexivity].
    zbool; [|reflexivity]. by apply update_locked_node_le.
Qed.

(** [update_nodes] always returns, and the only ready it makes is [CommitState]. *)
Lemma update_nodes_total m node :
  exists m' r, Machine_update_nodes m node = Ret (m', r).
Proof.
  rewrite update_nodes_unfold. simpl.
  destruct (is_consecutive_three_chain _ _) eqn:E; [|by eauto].
  apply is_consecutive_length in E.
  destruct (last (find_three_chain (m_storage m) node)) eqn:El; [simpl; eauto|].
  apply last_None in El. by rewrite El in E.
Qed.

Lemma update_nodes_le m node m' r :
  Inv (m_storage m) -> Machine_update_nodes m node = Ret (m', r) ->
  store_le (m_storage m) (m_storage m').
Proof.
  intros HI. rewrite update_nodes_unfold. simpl.
  pose proof (locked_step_le m node) as Hle.
  destruct (is_consecutive_three_chain _ _); intros H; inv_ret.
  - unfold Machine_on_commit in H. simplify_eq H. intros <- _. simpl.
    etransitivity; [exact Hle|]. apply commit_le. by apply Hle.
  - by simplify_eq.
Qed.

Lemma Machine_append_le m p : store_le (m_storage m) (m_storage (Machine_append m p)).
Proof.
  unfold Machine_append. simpl.
  etransitivity; [apply append_new_node_le|apply update_vheight_le].
Qed.

#[local] Hint Resolve Machine_append_le : hs.

Lemma on_recv_proposal_le m ctx p qc m' r :
  Inv (m_storage m) -> Machine_on_recv_proposal m ctx p qc = Ret (m', r) ->
  store_le (m_storage m) (m_storage m').
Proof.
  intros HI. unfold Machine_on_recv_proposal.
  destruct (Machine_verify_proposal m qc); intros H; inv_ret; [|reflexivity].
  match goal with E : Machine_update_nodes ?m1 p = _ |- _ =>
    assert (H1 : store_le (m_storage m) (m_storage m1));
      [|etransitivity; [exact H1|]; eapply update_nodes_le; [by apply H1|done]]
  end.
  destruct (get_node _ _); inv_ret; [case_bools; inv_ret|]; subst;
    first [reflexivity | apply Machine_append_le | apply append_new_qc_le].
Qed.

Lemma on_recv_vote_le m ctx p sg m' r :
  Machine_on_recv_vote m ctx p sg = Ret (m', r) -> store_le (m_storage m) (m_storage m').
Proof.
  unfold Machine_on_recv_vote. destruct (negb _); [intros; inv_ret; reflexivity|].
  destruct (Voter_add_vote _ _ _ _) as [voter [[]|e]]; [|intros; inv_ret; reflexivity].
  destruct (_ <? _); intros H; inv_ret; [|reflexivity].
  case_match; inv_ret; simpl; [auto with hs|reflexivity].
Qed.

Lemma sync_one_le m p m' :
  Inv (m_storage m) -> Machine_sync_one m p = Ret m' -> store_le (m_storage m) (m_storage m').
Proof.
  intros HI H. unfold Machine_sync_one in H. inv_ret. subst.
  match goal with E : Machine_update_nodes ?m1 p = _ |- _ =>
    assert (H1 : store_le (m_storage m) (m_storage m1));
      [|etransitivity; [exact H1|]; eapply update_nodes_le; [by apply H1|done]]
  end.
  destruct (get_node _ _); inv_ret; [case_bools|]; subst;
    first [reflexivity | apply Machine_append_le | apply append_new_qc_le].
Qed.

Lemma branch_loop_le branch m m' :
  Inv (m_storage m) -> Machine_branch_loop m branch = Ret m' ->
  store_le (m_storage m) (m_storage m').
Proof.
  revert m. induction branch as [|p branch IH]; intros m HI H; cbn [Machine_branch_loop] in H.
  - inv_ret. by subst.
  - destruct (negb _); inv_ret; [by subst|].
    assert (H1 : store_le (m_storage m) (m_storage r)) by eauto using sync_one_le.
    etransitivity; [exact H1|]. apply IH; [|done]. by apply H1.
Qed.

Lemma process_safety_event_le m req m' r :
  Inv (m_storage m) -> Machine_process_safety_event m req = Ret (m', r) ->
  store_le (m_storage m) (m_storage m').
Proof.
  intros HI H. destruct req; cbn [Machine_process_safety_event] in H; inv_ret; try reflexivity.
  - eauto using on_recv_proposal_le.
  - eauto using on_recv_vote_le.
  - destruct (get_node _ _); simpl; [auto with hs|reflexivity].
  - unfold Machine_on_beat in H. inv_ret. simpl. auto with hs.
  - by destruct (_ && _).
  - unfold Machine_on_branch_sync in H. inv_ret. eauto using branch_loop_le.
Qed.

(** C7. Any sequence of safety events that the machine answers preserves the invariant of
    the store, never lowers the locked height or the committed height, and leaves the view
    alone (views are changed by the pacemaker only). *)
Theorem Machine_run_monotone m reqs m' rs :
  Inv (m_storage m) -> Machine_run m reqs = Ret (m', rs) ->
  Inv (m_storage m') /\
  node_height (get_locked_node (m_storage m)) <= node_height (get_locked_node (m_storage m')) /\
  node_height (get_last_committed (m_storage m)) <=
    node_height (get_last_committed (m_storage m')) /\
  get_view (m_storage m') = get_view (m_storage m).
Proof.
  intros HI H. assert (Hle : store_le (m_storage m) (m_storage m')).
  { revert m rs HI H. induction reqs as [|req reqs IH]; intros m rs HI H;
      cbn [Machine_run] in H.
    - inv_ret. reflexivity.
    - inv_ret. match goal with E : Machine_process_safety_event m req = Ret (?m1, _) |- _ =>
        assert (H1 : store_le (m_storage m) (m_storage m1)) end.
      { eauto using process_safety_event_le. }
      etransitivity; [exact H1|]. eapply IH; [by apply H1|done]. }
  destruct Hle as [????]. auto.
Qed.

(** ** When a replica votes *)

(** The certificate names a stored proposal and is the initial one or verifies on it. *)
Definition qc_accepted m (qc : GenericQC) : Prop :=
  exists n, get_node (m_storage m) (qc_node qc) = Some n /\
    (GenericQC_is_init_qc qc = true \/
     Voter_validate_qc (m_voter m) n (qc_combined_sign qc) = true).

(** The voting rule: higher than anything voted for, and safe for the lock. *)
Definition vote_rule m p (prev : TreeNode) : Prop :=
  get_vheight (m_storage m) < node_height p /\
  (is_conflicting (m_storage m) p (get_locked_node (m_storage m)) = Some false \/
   node_height (get_locked_node (m_storage m)) < node_height prev).

Lemma verify_proposal_spec m qc :
  (qc_accepted m qc /\ Machine_verify_proposal m qc = Ok Nil) \/
  (~ qc_accepted m qc /\ Machine_verify_proposal m qc = Err CorruptedQC).
Proof.
  unfold Machine_verify_proposal, qc_accepted.
  destruct (get_node _ _) as [n|]; [|right; split; [by intros (? & ? & _)|done]].
  destruct (GenericQC_is_init_qc qc) eqn:Ei; cbn [negb]; [left; eauto|].
  destruct (Voter_validate_qc _ _ _) eqn:Ev; cbn [negb]; [left; eauto|].
  right. split; [|done]. intros (n' & Hn' & [?|?]); congruence.
Qed.

Lemma accepts_spec m p prev b :
  Machine_accepts m p prev = Ret b -> b = true <-> vote_rule m p prev.
Proof.
  unfold Machine_accepts, Machine_safe_node, vote_rule. intros H.
  destruct (Z.ltb_spec (get_vheight (m_storage m)) (node_height p));
    [|inv_ret; split; [congruence|lia]].
  inv_ret. rewrite E. subst b. rewrite orb_true_iff, negb_true_iff, Z.ltb_lt.
  split; [intros [->|?]; auto|]. intros [_ [[= ->]|?]]; auto.
Qed.

(** The answer to an accepted proposal. *)
Definition vote_ready m (ctx : Context) p : Ready :=
  Signature (Context_single (m_self_id m) (ctx_from ctx) (get_view (m_storage m))) p
    (Voter_sign (m_voter m) p).

(** Every branch of the handler of a proposal. *)
Lemma recv_proposal_cases m ctx p m' r :
  Machine_process_safety_event m (RecvProposal ctx p) = Ret (m', r) ->
  (~ qc_accepted m (node_justify p) /\ m' = m /\ r = Err CorruptedQC) \/
  (qc_accepted m (node_justify p) /\
   exists prev, get_node (m_storage m) (qc_node (node_justify p)) = Some prev /\
     ((vote_rule m p prev /\ r = Ok (vote_ready m ctx p) /\
       exists rd, Machine_update_nodes (Machine_append m p) p = Ret (m', rd)) \/
      (~ vote_rule m p prev /\ r = Ok Nil /\
       exists rd, Machine_update_nodes m p = Ret (m', rd)))).
Proof.
  cbn [Machine_process_safety_event]. unfold Machine_on_recv_proposal.
  destruct (verify_proposal_spec m (node_justify p)) as [[Hq ->]|[Hq ->]]; intros H.
  - right. split; [done|]. inv_ret. destruct Hq as (prev & Hprev & _).
    exists prev. split; [done|]. rewrite Hprev in E. inv_ret.
    pose proof (accepts_spec _ _ _ _ E1) as Hacc. case_bools; inv_ret; [left|right].
    + split; [by apply Hacc|]. split; [|eauto]. unfold vote_ready. do 3 f_equal.
      by apply Machine_append_le.
    + split; [by rewrite <-Hacc|]. eauto.
  - left. inv_ret. auto.
Qed.

(** ** When a leader forms a certificate *)

(** The certificate a leader makes from the signature [c]. *)
Definition formed_qc m (c : CombinedSign) : GenericQC :=
  GenericQC_new (get_view (m_storage m)) (TreeNode_hash (get_leaf (m_storage m))) c.

(** A vote that counts is added to the set of its view; the certificate is formed
    from that set. *)
Lemma on_recv_vote_fresh m ctx p sg :
  Voter_validate_vote (m_voter m) p sg = true ->
  Voter_votes (m_voter m) (node_height p) !! ctx_from ctx = None ->
  let v := (Voter_add_vote (m_voter m) ctx (node_height p) sg).1 in
  Voter_votes v (node_height p) =
    <[ctx_from ctx:=sg]> (Voter_votes (m_voter m) (node_height p)) /\
  Machine_on_recv_vote m ctx p sg =
    let m := set_voter m v in
    if Machine_threshold m <? Voter_vote_set_size v (node_height p) then
      '(voter, combined) ← Voter_combine_partial_sign v (node_height p);
      let m := set_voter m voter in
      match combined with
      | Ok c => Ret (set_storage m (update_qc_high (m_storage m) p (formed_qc m c)),
                     Ok (ProposalReachConsensus (get_view (m_storage m))))
      | Err e => Ret (m, Err (VoterError e))
      end
    else Ret (m, Ok Nil).
Proof.
  intros Hv Hf. unfold Machine_on_recv_vote. rewrite Hv. cbn [negb].
  unfold Voter_add_vote. unfold Voter_votes in Hf |- *. rewrite Hf. cbn [fst].
  split; [|done]. cbn [v_voting_set Voter_set_voting_set]. by rewrite lookup_insert_eq.
Qed.


(** ** What an event can answer *)

(** What each event can be answered with: a proposal with nothing or a vote for it, a
    vote with nothing or consensus in the current view, a transaction batch with a new
    proposal, a new-view message with the leaf, a synchronisation answer with its
    completion, a snapshot request with the snapshot, and the ignored events with nothing. *)
Theorem process_safety_event_ready m req m' rd :
  Machine_process_safety_event m req = Ret (m', Ok rd) ->
  match req with
  | RequestSnapshot => exists ctx, rd = InternalState ctx (Machine_take_snapshot m)
  | RecvProposal ctx p => rd = Nil \/ rd = vote_ready m ctx p
  | RecvSign _ _ _ => rd = Nil \/ rd = ProposalReachConsensus (get_view (m_storage m))
  | RecvNewViewMsg _ _ => rd = Machine_form_update_qc_high m'
  | NewTx cmds => exists ctx, rd = NewProposal ctx (Machine_make_leaf m cmds)
  | BranchSync _ _ => rd = BranchSyncDone (get_leaf (m_storage m'))
  | NewLeader _ _ | ViewChange _ _ | Propose _ _ _ => rd = Nil
  end.
Proof.
  intros H. destruct req; cbn [Machine_process_safety_event] in H;
    try (inv_ret; simplify_eq; eauto; fail).
  - unfold Machine_on_recv_proposal in H.
    destruct (verify_proposal_spec m (node_justify prop)) as [[_ Hv]|[_ Hv]]; rewrite Hv in H;
      inv_ret; [|discriminate]. destruct (get_node _ _); inv_ret; [|simplify_eq; auto].
    case_bools; inv_ret; [right|left; congruence]. unfold vote_ready. simplify_eq.
    do 2 f_equal. by apply Machine_append_le.
  - unfold Machine_on_recv_vote in H. destruct (negb _); [by inv_ret|].
    destruct (Voter_add_vote _ _ _ _) as [voter [[]|e]]; [|inv_ret; simplify_eq; auto].
    destruct (_ <? _); inv_ret; [|simplify_eq; auto].
    case_match; inv_ret; simplify_eq; auto.
  - unfold Machine_on_beat in H. inv_ret. simplify_eq. eauto.
  - unfold Machine_on_branch_sync in H. inv_ret. simplify_eq. auto.
Qed.
End MachineSafety.
