(* ===== verification/MachineSync.v ===== *)
(** * Branch synchronisation replays proposals

    [on_branch_sync] takes the proposals of an answer one after the other.  For every
    store it does to the replica what receiving the same proposals one by one does,
    up to the first whose certificate is refused. *)

From S2P Require Import Prelude Crypto HsData CryptoKit Voter SafetyStorage Machine.
From S2P Require Import MachineSafety.

Section MachineSync.
Context `{TC : ThresholdCrypto} {St : Type} `{!SafetyStorage St}
  (Inv : St -> Prop) `{!SafetyStorageLaws St Inv}.

Implicit Types (m : Machine St) (p : TreeNode).

(** A proposal that the machine accepts is answered with a vote. *)
Lemma recv_accepted m ctx p prev m' rd :
  qc_accepted m (node_justify p) ->
  get_node (m_storage m) (qc_node (node_justify p)) = Some prev ->
  Machine_accepts m p prev = Ret true ->
  Machine_update_nodes (Machine_append m p) p = Ret (m', rd) ->
  Machine_process_safety_event m (RecvProposal ctx p) = Ret (m', Ok (vote_ready m ctx p)).
Proof.
  intros Hq Hg Ha Hu. cbn [Machine_process_safety_event]. unfold Machine_on_recv_proposal.
  destruct (verify_proposal_spec m (node_justify p)) as [[_ ->]|[Hn _]]; [|done].
  rewrite Hg, Ha. cbn [mbind outcome_bind]. rewrite Hu. cbn [mbind outcome_bind].
  unfold vote_ready. pose proof (le_view _ _ _ (Machine_append_le Inv m p)) as Hv. by rewrite <-Hv.
Qed.

(** One proposal of a branch, and the same proposal received. *)
Lemma sync_one_recv m ctx p m' :
  qc_accepted m (node_justify p) ->
  Machine_sync_one m p = Ret m' ->
  exists rd, Machine_process_safety_event m (RecvProposal ctx p) = Ret (m', Ok rd).
Proof.
  intros Hq H. cbn [Machine_process_safety_event]. unfold Machine_on_recv_proposal.
  destruct (verify_proposal_spec m (node_justify p)) as [[_ ->]|[Hn _]]; [|done].
  destruct Hq as (prev & Hg & _). unfold Machine_sync_one in H. rewrite Hg in H |- *.
  destruct (Machine_accepts m p prev) as [[]| |]; cbn [mbind outcome_bind] in H |- *; [| |done..];
    apply bind_Ret_inv in H as ([m2 r] & -> & [= <-]); cbn [mbind outcome_bind]; eauto.
Qed.

(** The branches of the loop body. *)
Lemma sync_one_cases m p m' :
  qc_accepted m (node_justify p) -> Machine_sync_one m p = Ret m' ->
  exists prev, get_node (m_storage m) (qc_node (node_justify p)) = Some prev /\
    ((vote_rule m p prev /\ exists rd, Machine_update_nodes (Machine_append m p) p = Ret (m', rd)) \/
     exists rd, Machine_update_nodes m p = Ret (m', rd)).
Proof.
  intros Hq H. destruct (sync_one_recv m (Context_broadcast EmptyString 0) p m' Hq H) as [rd Hev].
  destruct (recv_proposal_cases Inv _ _ _ _ _ Hev)
    as [(Hn & _)|(_ & prev & Hg & [(Hv & _ & Hu)|(_ & _ & Hu)])]; [done|exists prev; auto..].
Qed.

Lemma sync_one_total m p :
  (forall prev, exists b, Machine_accepts m p prev = Ret b) -> exists m', Machine_sync_one m p = Ret m'.
Proof.
  intros Ha. unfold Machine_sync_one. destruct (get_node _ _) as [prev|]; [destruct (Ha prev) as [b ->]|];
    cbn [mbind outcome_bind];
    match goal with |- context [Machine_update_nodes ?m1 p] =>
      destruct (update_nodes_total Inv m1 p) as (m2 & r & ->) end; by exists m2.
Qed.

Lemma recv_proposal_total m ctx p :
  (forall prev, exists b, Machine_accepts m p prev = Ret b) ->
  exists m' r, Machine_process_safety_event m (RecvProposal ctx p) = Ret (m', r).
Proof.
  intros Ha. cbn [Machine_process_safety_event]. unfold Machine_on_recv_proposal.
  destruct (Machine_verify_proposal m (node_justify p)); [|eauto].
  destruct (get_node _ _) as [prev|]; [destruct (Ha prev) as [[] ->]|]; cbn [mbind outcome_bind];
    match goal with |- context [Machine_update_nodes ?m1 p] =>
      destruct (update_nodes_total Inv m1 p) as (m2 & r & ->) end; by eexists _, _.
Qed.

(** C8. For every store, on_branch_sync is a replay: what it leaves is what receiving the
    first k proposals of the branch one by one leaves, all of them answered without an
    error, where k is the whole branch or the first proposal whose certificate is refused
    in the state reached. *)
Theorem branch_sync_replays m ctx branch m' r :
  Machine_process_safety_event m (BranchSync ctx branch) = Ret (m', r) ->
  r = Ok (BranchSyncDone (get_leaf (m_storage m'))) /\
  exists k rs,
    Machine_run m (RecvProposal ctx <$> take k branch) = Ret (m', rs) /\
    Forall (fun a => is_ok a = true) rs /\
    (k = length branch \/
     exists p, branch !! k = Some p /\ ~ qc_accepted m' (node_justify p) /\
       Machine_process_safety_event m' (RecvProposal ctx p) = Ret (m', Err CorruptedQC)).
Proof.
  cbn [Machine_process_safety_event]. unfold Machine_on_branch_sync. intros H.
  apply bind_Ret_inv in H as (m1 & H & [= <- <-]). split; [done|].
  revert m H. induction branch as [|p branch IH]; intros m H; cbn [Machine_branch_loop] in H.
  - inv_ret. subst. exists 0%nat, []. split; [done|]. split; [constructor|]. by left.
  - destruct (verify_proposal_spec m (node_justify p)) as [[Hq Hv]|[Hq Hv]]; rewrite Hv in H.
    + cbn [is_ok negb] in H. apply bind_Ret_inv in H as (m2 & H1 & H).
      destruct (sync_one_recv m ctx p m2 Hq H1) as [rd Hev].
      destruct (IH m2 H) as (k & rs & Hrun & Hok & Hend).
      exists (S k), (Ok rd :: rs). split.
      { cbn [take fmap list_fmap Machine_run]. rewrite Hev. cbn [mbind outcome_bind].
        change (list_fmap _ _ (RecvProposal ctx) (take k branch))
          with (RecvProposal ctx <$> take k branch). by rewrite Hrun. }
      split; [by constructor|]. destruct Hend as [->|Hend]; [by left|by right].
    + cbn [is_ok negb] in H. apply Ret_inv in H as <-. exists 0%nat, [].
      split; [done|]. split; [constructor|]. right. exists p. split; [done|]. split; [done|].
      cbn [Machine_process_safety_event]. unfold Machine_on_recv_proposal. by rewrite Hv.
Qed.
End MachineSync.
