(* ===== verification/MachineInvariant.v ===== *)
(** * Invariants of the store along the events of a replica

    One rule for every property [P] of the store that the machine maintains: it is
    enough that each storage operation preserves [P] in the situations in which
    the handlers call it.  The class says exactly what the handlers guarantee at
    the call: the certificate handed to [update_qc_high] names a proposal the
    store has, and locks and commits go to proposals the store has.

    [okN] and [okQ] are what is known of the proposals and certificates that arrive
    from outside; what the replica builds itself must satisfy them too. *)

From S2P Require Import Prelude Crypto HsData CryptoKit Voter SafetyStorage Machine.

Section MachineInvariant.
Context `{TC : ThresholdCrypto} {St : Type} `{!SafetyStorage St}.

Implicit Types (m : Machine St) (s : St) (p n b : TreeNode).

(** The store has a proposal under the hash of [n]. *)
Definition known s n : Prop := is_Some (get_node s (TreeNode_hash n)).

Class StoreInvariant (P : St -> Prop) (okN : TreeNode -> Prop) (okQ : GenericQC -> Prop) : Prop := {
  si_okN_justify n : okN n -> okQ (node_justify n);
  si_get_node_ok s h n : P s -> get_node s h = Some n -> okN n;
  si_make_leaf_ok s cmds :
    P s -> okN (TreeNode_new cmds (get_view s) (TreeNode_hash (get_leaf s)) (get_qc_high s));
  si_formed_qc_ok s c : P s -> okQ (GenericQC_new (get_view s) (TreeNode_hash (get_leaf s)) c);
  si_leaf_known s : P s -> known s (get_leaf s);
  si_chain_known s n b : P s -> b ∈ find_three_chain s n -> known s b /\ okN b;
  si_chain_head s n b : find_three_chain s n !! 0%nat = Some b ->
    is_Some (get_node s (qc_node (node_justify n)));
  si_update_qc_high_known s n qc b : known s b -> known (update_qc_high s n qc) b;
  si_update_locked_known s n b : known s b -> known (update_locked_node s n) b;
  si_append_new_node s n : P s -> okN n -> P (append_new_node s n);
  si_append_new_qc s qc : P s -> okQ qc -> P (append_new_qc s qc);
  si_update_qc_high s n qc :
    P s -> okN n -> okQ qc -> is_Some (get_node s (qc_node qc)) -> P (update_qc_high s n qc);
  si_update_leaf s n : P s -> okN n -> P (update_leaf s n);
  si_update_vheight s n : P s -> okN n -> P (update_vheight s (node_height n)).1;
  si_update_locked s b : P s -> okN b -> known s b -> P (update_locked_node s b);
  si_commit s b : P s -> okN b -> known s b -> P (commit s b);
}.

(** What an event brings satisfies [okN] and [okQ]. *)
Definition event_ok (okN : TreeNode -> Prop) (okQ : GenericQC -> Prop) (req : SafetyEvent) : Prop :=
  match req with
  | RecvProposal _ p | RecvSign _ p _ => okN p
  | RecvNewViewMsg _ qc => okQ qc
  | BranchSync _ branch => Forall okN branch
  | _ => True
  end.

Context (P : St -> Prop) (okN : TreeNode -> Prop) (okQ : GenericQC -> Prop)
  `{!StoreInvariant P okN okQ}.

Lemma update_nodes_inv m p m' r :
  P (m_storage m) -> okN p -> Machine_update_nodes m p = Ret (m', r) -> P (m_storage m').
Proof.
  intros HP Hp H. unfold Machine_update_nodes in H.
  set (chain := find_three_chain (m_storage m) p) in *.
  assert (Hok : forall b, b ∈ chain -> okN b).
  { intros b Hb. by destruct (si_chain_known (m_storage m) p b HP Hb). }
  set (m1 := match chain !! 0%nat with Some _ => _ | None => m end) in H.
  assert (H1 : P (m_storage m1) /\ forall b, b ∈ chain -> known (m_storage m1) b).
  { unfold m1. destruct (chain !! 0%nat) as [b3|] eqn:E0; simpl.
    - assert (b3 ∈ chain) by (by eapply list_elem_of_lookup_2).
      apply (si_chain_head (m_storage m)) in E0.
      split; [apply si_update_qc_high; auto; by apply si_okN_justify|].
      intros b Hb. apply si_update_qc_high_known. by eapply si_chain_known.
    - split; [done|]. intros b Hb. by eapply si_chain_known. }
  clearbody m1. destruct H1 as [HP1 Hk1].
  set (m2 := match chain !! 1%nat with Some _ => _ | None => m1 end) in H.
  assert (H2 : P (m_storage m2) /\ forall b, b ∈ chain -> known (m_storage m2) b).
  { unfold m2. destruct (chain !! 1%nat) as [b2|] eqn:E1; [|done].
    assert (b2 ∈ chain) by (by eapply list_elem_of_lookup_2).
    destruct (_ <? _); [|done]. simpl. split; [apply si_update_locked; auto|].
    intros b Hb. by apply si_update_locked_known, Hk1. }
  clearbody m2. destruct H2 as [HP2 Hk2].
  destruct (is_consecutive_three_chain _ _); inv_ret; [|done].
  unfold Machine_on_commit in H. inv_ret. simpl.
  match goal with E : last chain = Some ?b |- _ => apply last_Some_elem_of in E end.
  apply si_commit; auto.
Qed.

Lemma Machine_append_inv m p :
  P (m_storage m) -> okN p -> P (m_storage (Machine_append m p)).
Proof.
  intros HP Hp. unfold Machine_append. simpl. by apply si_update_vheight; [apply si_append_new_node|].
Qed.

Lemma on_recv_proposal_inv m ctx p m' r :
  P (m_storage m) -> okN p ->
  Machine_on_recv_proposal m ctx p (node_justify p) = Ret (m', r) -> P (m_storage m').
Proof.
  intros HP Hp. unfold Machine_on_recv_proposal.
  destruct (Machine_verify_proposal m (node_justify p)); intros H; inv_ret; [|done].
  eapply update_nodes_inv; [|done..].
  destruct (get_node _ _); inv_ret; [case_bools; inv_ret|]; subst;
    auto using Machine_append_inv. apply si_append_new_qc; [done|]. by apply si_okN_justify.
Qed.

Lemma on_recv_vote_inv m ctx p sg m' r :
  P (m_storage m) -> okN p -> Machine_on_recv_vote m ctx p sg = Ret (m', r) -> P (m_storage m').
Proof.
  intros HP Hp. unfold Machine_on_recv_vote. destruct (negb _); [by intros; inv_ret|].
  destruct (Voter_add_vote _ _ _ _) as [voter [[]|e]]; [|by intros; inv_ret].
  destruct (_ <? _); intros H; inv_ret; [|done].
  case_match; inv_ret; simpl; [|done].
  apply si_update_qc_high; [done..|by apply si_formed_qc_ok|by apply si_leaf_known].
Qed.

Lemma branch_loop_inv branch m m' :
  P (m_storage m) -> Forall okN branch -> Machine_branch_loop m branch = Ret m' -> P (m_storage m').
Proof.
  intros HP Hb. revert m HP. induction Hb as [|p branch Hp Hb IH]; intros m HP H;
    cbn [Machine_branch_loop] in H.
  - by inv_ret; subst.
  - destruct (negb _); inv_ret; [by subst|]. apply (IH r); [|done].
    unfold Machine_sync_one in E. inv_ret. subst. eapply update_nodes_inv; [|done..].
    destruct (get_node _ _); inv_ret; [case_bools|]; subst; auto using Machine_append_inv.
Qed.

Lemma process_safety_event_inv m req m' r :
  P (m_storage m) -> event_ok okN okQ req ->
  Machine_process_safety_event m req = Ret (m', r) -> P (m_storage m').
Proof.
  intros HP Hev H. destruct req; cbn [Machine_process_safety_event] in H; cbn [event_ok] in Hev;
    inv_ret; try done.
  - eauto using on_recv_proposal_inv.
  - eauto using on_recv_vote_inv.
  - destruct (get_node _ _) eqn:E; simpl; [|done]. apply si_update_qc_high; [done| |done|by rewrite E].
    by eapply si_get_node_ok.
  - unfold Machine_on_beat in H. inv_ret. simpl. apply si_update_leaf; [done|].
    by apply si_make_leaf_ok.
  - by destruct (_ && _).
  - unfold Machine_on_branch_sync in H. inv_ret. eauto using branch_loop_inv.
Qed.

Lemma Machine_run_inv m reqs m' rs :
  P (m_storage m) -> Forall (event_ok okN okQ) reqs ->
  Machine_run m reqs = Ret (m', rs) -> P (m_storage m').
Proof.
  intros HP Hev. revert m rs HP. induction Hev as [|req reqs He Hev IH]; intros m rs HP H;
    cbn [Machine_run] in H; inv_ret; [done|]. eapply IH; [|done].
  eauto using process_safety_event_inv.
Qed.
End MachineInvariant.

(** Anything may arrive. *)
Definition any_node `{TC : ThresholdCrypto} (_ : TreeNode) : Prop := True.
Definition any_qc `{TC : ThresholdCrypto} (_ : GenericQC) : Prop := True.

Lemma event_ok_any `{TC : ThresholdCrypto} (reqs : list SafetyEvent) :
  Forall (event_ok any_node any_qc) reqs.
Proof.
  apply Forall_true. intros []; try done. cbn [event_ok]. by apply Forall_true.
Qed.
