(* ===== verification/SafetyTrait.v ===== *)
(** * The trait Safety and its clients

    The operations of the trait as a class, the machine as its implementation, and what any
    client of the trait can rely on: whatever it calls, in any order, the heights of lock
    and commit and the view never go back.  Unlike the events of [process_safety_event],
    the calls include the inner operations ([update_nodes], [on_commit]) and the change of
    view, which the pacemaker makes. *)

From S2P Require Import Prelude Crypto HsData CryptoKit Voter SafetyStorage Machine MachineSafety.

(** The trait; a method on [&mut self] also gives the new state. *)
Class Safety `{TC : ThresholdCrypto} (M : Type) := {
  on_recv_vote : M -> Context -> TreeNode -> SignKit -> outcome (M * result Ready SafetyErr);
  on_recv_proposal : M -> Context -> TreeNode -> GenericQC -> outcome (M * result Ready SafetyErr);
  on_beat : M -> list Txn -> M * result Ready SafetyErr;
  on_commit : M -> TreeNode -> M * result Ready SafetyErr;
  on_view_change : M -> ReplicaID -> ViewNumber -> M * result Ready SafetyErr;
  on_branch_sync : M -> list TreeNode -> outcome (M * result Ready SafetyErr);
  update_nodes : M -> TreeNode -> outcome (M * result Ready SafetyErr);
  safe_node : M -> TreeNode -> TreeNode -> outcome bool;
  take_snapshot : M -> Snapshot;
  process_safety_event : M -> SafetyEvent -> outcome (M * result Ready SafetyErr);
}.

#[export] Instance Machine_Safety `{TC : ThresholdCrypto} {St : Type} `{!SafetyStorage St} :
    Safety (Machine St) := {
  on_recv_vote := Machine_on_recv_vote;
  on_recv_proposal := Machine_on_recv_proposal;
  on_beat := Machine_on_beat;
  on_commit := Machine_on_commit;
  on_view_change := Machine_on_view_change;
  on_branch_sync := Machine_on_branch_sync;
  update_nodes := Machine_update_nodes;
  safe_node := Machine_safe_node;
  take_snapshot := Machine_take_snapshot;
  process_safety_event := Machine_process_safety_event;
}.

(** ** Traits without implementation (hotstuff-rs/src/traits.rs)

    What an earlier version asked of its configuration, its keys and its timer; nothing
    implements or uses them. *)

Inductive HsRequestType := HsNewView | HsProposal | HsVote.

Class HsSysConf (M : Type) := {
  hs_self_id : M -> string;
  hs_get_addr : M -> string -> option string;
  hs_threshold : M -> Z;
}.

Class HsCrypto `{TC : ThresholdCrypto} (M : Type) := {
  hs_sign_id : M -> SignID;
  hs_sign : M -> TreeNode -> Sign;
  hs_combine_partial_sign : M -> CombinedSign;
}.

Class HsTimer (M : Type) := {
  hs_reset_timer : M -> M;
  hs_tick : M -> Z -> M;
  hs_deadline : M -> Z;
  hs_update_deadline : M -> Z -> M;
  hs_touch_deadline : M -> bool;
}.

(** ** Clients *)

Section Clients.
Context `{TC : ThresholdCrypto}.

(** A call of a method that may change the machine. *)
Inductive SafetyCall :=
| CallRecvVote (ctx : Context) (node : TreeNode) (sign : SignKit)
| CallRecvProposal (ctx : Context) (node : TreeNode) (justify : GenericQC)
| CallBeat (cmds : list Txn)
| CallCommit (node : TreeNode)
| CallViewChange (leader : ReplicaID) (view : ViewNumber)
| CallBranchSync (branch : list TreeNode)
| CallUpdateNodes (node : TreeNode)
| CallEvent (req : SafetyEvent).

Definition safety_call {M : Type} `{!Safety M} (m : M) (call : SafetyCall) :
    outcome (M * result Ready SafetyErr) :=
  match call with
  | CallRecvVote ctx node sign => on_recv_vote m ctx node sign
  | CallRecvProposal ctx node justify => on_recv_proposal m ctx node justify
  | CallBeat cmds => Ret (on_beat m cmds)
  | CallCommit node => Ret (on_commit m node)
  | CallViewChange leader view => Ret (on_view_change m leader view)
  | CallBranchSync branch => on_branch_sync m branch
  | CallUpdateNodes node => update_nodes m node
  | CallEvent req => process_safety_event m req
  end.

(** The calls a client makes, one after the other, with their answers. *)
Fixpoint safety_calls {M : Type} `{!Safety M} (m : M) (calls : list SafetyCall) :
    outcome (M * list (result Ready SafetyErr)) :=
  match calls with
  | [] => Ret (m, [])
  | call :: calls =>
      '(m, r) ← safety_call m call;
      '(m, rs) ← safety_calls m calls;
      Ret (m, r :: rs)
  end.

(** What an implementation promises its clients, in terms of the snapshot and of an
    invariant of its own. *)
Class SafetyLaws (M : Type) `{!Safety M} (Inv : M -> Prop) (lock_height commit_height view : M -> Z) : Prop := {
  safety_call_inv m call m' r : Inv m -> safety_call m call = Ret (m', r) -> Inv m';
  safety_call_lock m call m' r :
    Inv m -> safety_call m call = Ret (m', r) -> lock_height m <= lock_height m';
  safety_call_commit m call m' r :
    Inv m -> safety_call m call = Ret (m', r) -> commit_height m <= commit_height m';
  safety_call_view m call m' r : Inv m -> safety_call m call = Ret (m', r) -> view m <= view m';
}.

(** Proved against the interface: no client can move lock, commit or view back. *)
Theorem safety_calls_monotone (M : Type) `{!Safety M} (Inv : M -> Prop)
    (lock_height commit_height view : M -> Z) `{!SafetyLaws M Inv lock_height commit_height view}
    m calls m' rs :
  Inv m -> safety_calls m calls = Ret (m', rs) ->
  Inv m' /\ lock_height m <= lock_height m' /\ commit_height m <= commit_height m' /\ view m <= view m'.
Proof.
  revert m rs. induction calls as [|call calls IH]; intros m rs HI H; cbn [safety_calls] in H.
  - inv_ret. auto with lia.
  - apply bind_Ret_inv in H as ([m1 r] & H1 & H). apply bind_Ret_inv in H as ([m2 rs'] & H2 & H).
    apply Ret_inv, pair_eq in H as [<- _].
    destruct (IH m1 rs') as (? & ? & ? & ?); [by eapply safety_call_inv|done|].
    pose proof (safety_call_lock m call m1 r HI H1). pose proof (safety_call_commit m call m1 r HI H1).
    pose proof (safety_call_view m call m1 r HI H1). auto with lia.
Qed.
End Clients.

(** ** The machine keeps the promises *)

Section Implementation.
Context `{TC : ThresholdCrypto} {St : Type} `{!SafetyStorage St}
  (Inv : St -> Prop) `{!SafetyStorageLaws St Inv}.

Implicit Types (m : Machine St).

(** The order on stores with the view let free to grow. *)
Definition grows m m' : Prop :=
  Inv (m_storage m') /\
  node_height (get_locked_node (m_storage m)) <= node_height (get_locked_node (m_storage m')) /\
  node_height (get_last_committed (m_storage m)) <= node_height (get_last_committed (m_storage m')) /\
  get_view (m_storage m) <= get_view (m_storage m').

Lemma store_le_grows m m' :
  Inv (m_storage m) -> store_le Inv (m_storage m) (m_storage m') -> grows m m'.
Proof. intros HI [H1 H2 H3 H4]. split; [auto|]. split; [done|]. split; [done|]. lia. Qed.

Lemma view_change_grows m leader view :
  Inv (m_storage m) -> grows m (Machine_on_view_change m leader view).1.
Proof.
  intros HI. unfold Machine_on_view_change. zbool.
  - unfold grows. cbn [fst m_storage set_storage set_voter set_leader_id].
    split; [by apply increase_view_inv|].
    rewrite increase_view_locked, increase_view_commit, increase_view_view. lia.
  - unfold grows. cbn [fst]. auto with lia.
Qed.

Lemma safety_call_grows m call m' r :
  Inv (m_storage m) -> safety_call m call = Ret (m', r) -> grows m m'.
Proof.
  intros HI H. destruct call; cbn [safety_call] in H.
  - apply store_le_grows; [done|]. exact (on_recv_vote_le Inv m ctx node sign m' r H).
  - apply store_le_grows; [done|]. exact (on_recv_proposal_le Inv m ctx node justify m' r HI H).
  - apply store_le_grows; [done|]. by apply (process_safety_event_le Inv m (NewTx cmds) m' r).
  - apply Ret_inv in H. unfold on_commit, Machine_Safety, Machine_on_commit in H.
    apply pair_eq in H as [<- _]. apply store_le_grows; [done|]. by apply commit_le.
  - apply Ret_inv in H. pose proof (view_change_grows m leader view HI) as Hg.
    change (on_view_change m leader view) with (Machine_on_view_change m leader view) in H.
    by rewrite H in Hg.
  - apply store_le_grows; [done|].
    by apply (process_safety_event_le Inv m (BranchSync (Context_broadcast (m_self_id m) 0) branch) m' r).
  - apply store_le_grows; [done|]. exact (update_nodes_le Inv m node m' r HI H).
  - apply store_le_grows; [done|]. exact (process_safety_event_le Inv m req m' r HI H).
Qed.

#[export] Instance Machine_SafetyLaws :
  SafetyLaws (Machine St) (fun m => Inv (m_storage m))
    (fun m => node_height (get_locked_node (m_storage m)))
    (fun m => node_height (get_last_committed (m_storage m)))
    (fun m => get_view (m_storage m)).
Proof.
  split; intros m call m' r HI H; by destruct (safety_call_grows m call m' r HI H) as (? & ? & ? & ?).
Qed.
End Implementation.
