(* ===== verification/Quorum.v ===== *)
(** * Quorums

    Why [(total << 1) / 3] is the right threshold: with fewer than a third of the
    replicas faulty, two vote sets above it share a correct replica, and the
    correct replicas alone are above it. *)

From S2P Require Import Prelude Crypto HsData CryptoKit Voter SafetyStorage Machine.

Section Quorum.
Context `{TC : ThresholdCrypto} {St : Type} `{!SafetyStorage St}.

Implicit Types (all faulty A B : gset string).

Lemma size_inter_ge all A B :
  A ⊆ all -> B ⊆ all -> (size A + size B <= size all + size (A ∩ B))%nat.
Proof.
  intros HA HB.
  assert (H1 : (size A + size (B ∖ A) <= size all)%nat).
  { rewrite <-size_union by set_solver. apply subseteq_size. set_solver. }
  assert (H2 : size B = (size (B ∖ A) + size (A ∩ B))%nat).
  { rewrite <-size_union by set_solver. f_equal. apply leibniz_equiv. intros x.
    destruct (decide (x ∈ A)); set_solver. }
  lia.
Qed.

Lemma size_gt_not_subseteq A B : (size B < size A)%nat -> exists x, x ∈ A /\ x ∉ B.
Proof.
  intros H. destruct (set_choose_or_empty (A ∖ B)) as [[x Hx]|He].
  - exists x. set_solver.
  - exfalso. assert (HAB : A ⊆ B).
    { intros x Hx. destruct (decide (x ∈ B)); [done|]. set_solver. }
    apply subseteq_size in HAB. lia.
Qed.

Lemma threshold_size all A :
  Z.of_nat (size all) < 2 ^ 63 -> quorum_threshold (Z.of_nat (size all)) < Z.of_nat (size A) ->
  (2 * size all < 3 * size A)%nat.
Proof.
  intros Hb. rewrite quorum_threshold_small by lia. intros H.
  pose proof (Z.mul_succ_div_gt (2 * Z.of_nat (size all)) 3). lia.
Qed.

(** C14. Two vote sets that pass the threshold (total << 1) / 3, held by any two machines
    of the same system, share a replica that is not faulty whenever fewer than a third of
    the replicas are faulty. *)
Theorem quorum_intersection (m1 m2 : Machine St) (votes1 votes2 : gmap string SignKit) all faulty :
  m_total m1 = Z.of_nat (size all) -> m_total m2 = Z.of_nat (size all) ->
  Z.of_nat (size all) < 2 ^ 63 -> (3 * size faulty < size all)%nat ->
  dom votes1 ⊆ all -> dom votes2 ⊆ all ->
  Machine_threshold m1 < map_len votes1 -> Machine_threshold m2 < map_len votes2 ->
  exists r, is_Some (votes1 !! r) /\ is_Some (votes2 !! r) /\ r ∉ faulty.
Proof.
  unfold Machine_threshold. intros -> -> Hb Hf Ha1 Ha2 Hq1 Hq2. unfold map_len in *.
  rewrite <-(size_dom votes1 : size (dom votes1 : gset string) = _) in Hq1.
  rewrite <-(size_dom votes2 : size (dom votes2 : gset string) = _) in Hq2.
  apply threshold_size in Hq1, Hq2; [|done..].
  pose proof (size_inter_ge _ _ _ Ha1 Ha2).
  destruct (size_gt_not_subseteq (dom votes1 ∩ dom votes2) faulty) as (r & Hr & Hnf); [lia|].
  exists r. apply elem_of_intersection in Hr as [?%elem_of_dom ?%elem_of_dom]. done.
Qed.

(** With fewer than a third of the replicas faulty, the votes of all correct replicas
    alone pass the threshold. *)
Theorem correct_replicas_reach_quorum (m : Machine St) (votes : gmap string SignKit) all faulty :
  m_total m = Z.of_nat (size all) -> Z.of_nat (size all) < 2 ^ 63 ->
  (3 * size faulty < size all)%nat -> all ∖ faulty ⊆ dom votes ->
  Machine_threshold m < map_len votes.
Proof.
  unfold Machine_threshold, map_len. intros -> Hb Hf Hsub.
  rewrite quorum_threshold_small by lia.
  rewrite <-(size_dom votes : size (dom votes : gset string) = _).
  apply subseteq_size in Hsub.
  assert (size all <= size (all ∖ faulty) + size faulty)%nat.
  { rewrite <-size_union by set_solver. apply subseteq_size. intros x Hx.
    destruct (decide (x ∈ faulty)); set_solver. }
  apply Z.div_lt_upper_bound; lia.
Qed.
End Quorum.
