(* ===== verification/Ledger.v ===== *)
(** * Votes, certificates and branches of a system of replicas

    The part of the safety argument that is about the protocol and not about a machine: a
    ledger holds the proposals and certificates in circulation and the votes that correct
    replicas have cast.  [sound] lists what is asked of a run, [ledger_inv] what the
    machines guarantee in such a run, and [certified_extends] is the consequence: nothing
    above a proposal committed through three consecutive heights leaves its branch. *)

From S2P Require Import Prelude Crypto HsData CryptoKit Voter SafetyStorage Machine Quorum.

Section Ledger.
Context `{TC : ThresholdCrypto} (pks : PK) (all faulty : gset string).

Implicit Types (n p b x y : TreeNode) (h : NodeHash) (r : string) (qc : GenericQC).

(** Proposals received or made by correct replicas, the certificates they came with, the
    votes of correct replicas, the latest first, and the proposals each of them made. *)
Record Ledger := mkLedger {
  lg_seen : list TreeNode;
  lg_certs : list GenericQC;
  lg_votes : list (string * TreeNode);
  lg_made : list (string * TreeNode);
}.

Implicit Types (L : Ledger).

(** The replicas that voted for a proposal of hash [h], and the votes of [r]. *)
Definition voters L h : gset string :=
  list_to_set (omap (fun rp => if decide (TreeNode_hash rp.2 = h) then Some rp.1 else None) (lg_votes L)).

Definition cast L r : list TreeNode :=
  omap (fun rp => if decide (rp.1 = r) then Some rp.2 else None) (lg_votes L).

Lemma elem_of_voters L h r : r ∈ voters L h <-> exists p, (r, p) ∈ lg_votes L /\ TreeNode_hash p = h.
Proof.
  unfold voters. rewrite elem_of_list_to_set, list_elem_of_omap. split.
  - intros ([r' p] & Hin & He). simpl in He. case_decide; simplify_eq. by exists p.
  - intros (p & Hin & Hh). exists (r, p). split; [done|]. simpl. by rewrite decide_True.
Qed.

Lemma elem_of_cast L r p : p ∈ cast L r <-> (r, p) ∈ lg_votes L.
Proof.
  unfold cast. rewrite list_elem_of_omap. split.
  - intros ([r' q] & Hin & He). simpl in He. case_decide; by simplify_eq.
  - intros Hin. exists (r, p). split; [done|]. simpl. by rewrite decide_True.
Qed.

(** A certificate of hash [h] can exist: the faulty replicas and those that voted for it
    are more than the threshold.  The initial proposal needs none. *)
Definition certified L h : Prop :=
  h = INIT_NODE_HASH \/
  quorum_threshold (Z.of_nat (size all)) < Z.of_nat (size (faulty ∪ voters L h)).

#[global] Instance certified_dec L h : Decision (certified L h).
Proof. apply _. Defined.

(** [b] is [n] or an ancestor of [n], by hash. *)
Inductive ancestor L h : NodeHash -> Prop :=
| ancestor_refl : ancestor L h h
| ancestor_up n : n ∈ lg_seen L -> ancestor L h (node_parent n) -> ancestor L h (TreeNode_hash n).

Lemma ancestor_trans L h k i : ancestor L h k -> ancestor L k i -> ancestor L h i.
Proof. intros Hk. induction 1; [done|]. by apply ancestor_up. Qed.

(** What the check of a certificate by a correct replica establishes: it circulates and
    names a proposal on which it verifies, or it passes for the initial one. *)
Definition stands L qc : Prop :=
  qc ∈ lg_certs L /\ exists prev, prev ∈ lg_seen L /\ TreeNode_hash prev = qc_node qc /\
    (GenericQC_is_init_qc qc = true \/
     pk_verify pks (qc_combined_sign qc) (TreeNode_to_be_bytes prev) = true).

(** A proposal that a correct replica has stored. *)
Definition kept L n : Prop := n ∈ lg_seen L /\ (n = INIT_NODE \/ stands L (node_justify n)).

(** [n] extends a certified proposal at least as high as the grandparent of [p]: what the
    lock left behind by a vote for [p] asks of a vote for [n]. *)
Definition respects L p n : Prop :=
  exists b2, kept L b2 /\ TreeNode_hash b2 = node_parent p /\
    (b2 = INIT_NODE \/
     exists b l, kept L b /\ TreeNode_hash b = node_parent b2 /\
       kept L l /\ certified L (TreeNode_hash l) /\ ancestor L (TreeNode_hash l) (TreeNode_hash n) /\
       node_height b <= node_height l < node_height n).

(** The digest separates height and parent of the proposals in circulation. *)
Definition collision_free L : Prop :=
  forall x y, x ∈ lg_seen L -> y ∈ lg_seen L -> TreeNode_hash x = TreeNode_hash y ->
    node_height x = node_height y /\ node_parent x = node_parent y.

(** No proposal in circulation has the zero hash that the certificate of the initial
    proposal names. *)
Definition no_zero_hash L : Prop :=
  forall x, x ∈ lg_seen L -> TreeNode_hash x <> qc_node (node_justify INIT_NODE).

(** What is asked of a run.  The first group is about the primitives: a certificate that
    verifies has a quorum behind it, and the digest has no collisions.  The second is about
    proposals, which no check of the code covers: the initial certificate is not forged, a
    proposal whose certificate stands has the certified proposal as parent and is higher,
    and so is the certificate of a proposal that a correct replica makes itself.  The third
    excludes two weaknesses of the code: after a vote for [p] a second vote that is not
    higher, which [vheight] admits as far down as the height that [p] certifies; and, after
    a proposal [p] of its own, for which a leader does not move its lock, a vote that does
    not respect [p]. *)
Record sound L : Prop := {
  so_backed qc prev : qc ∈ lg_certs L -> prev ∈ lg_seen L -> TreeNode_hash prev = qc_node qc ->
    pk_verify pks (qc_combined_sign qc) (TreeNode_to_be_bytes prev) = true -> certified L (qc_node qc);
  so_digest : collision_free L;
  so_zero : no_zero_hash L;

  so_init qc : qc ∈ lg_certs L -> GenericQC_is_init_qc qc = true -> qc_node qc = INIT_NODE_HASH;
  so_linked n : n ∈ lg_seen L -> stands L (node_justify n) ->
    node_parent n = qc_node (node_justify n) /\ 0 < node_height n /\
    forall prev, prev ∈ lg_seen L -> TreeNode_hash prev = node_parent n -> node_height prev < node_height n;
  so_made r p : (r, p) ∈ lg_made L -> stands L (node_justify p);

  so_votes r later n earlier p prev : cast L r = later ++ n :: earlier -> p ∈ earlier ->
    prev ∈ lg_seen L -> TreeNode_hash prev = node_parent p ->
    node_height prev < node_height n <= node_height p -> TreeNode_hash n = TreeNode_hash p;
  so_leaders r later n earlier p : cast L r = later ++ n :: earlier -> p ∈ earlier ->
    (r, p) ∈ lg_made L -> node_height p < node_height n -> respects L p n;
}.

(** A vote for [n] after the votes [earlier]. *)
Definition vote_ok L n (earlier : list TreeNode) : Prop :=
  Forall (fun p => TreeNode_hash n = TreeNode_hash p \/
                   node_height p < node_height n /\ respects L p n) earlier.

Fixpoint safe_history L (votes : list TreeNode) : Prop :=
  match votes with
  | [] => True
  | n :: earlier => vote_ok L n earlier /\ safe_history L earlier
  end.

(** What correct replicas guarantee in a sound run. *)
Record ledger_inv L : Prop := {
  li_init : INIT_NODE ∈ lg_seen L;
  li_vote r p : (r, p) ∈ lg_votes L -> r ∈ all /\ p ∈ lg_seen L /\ stands L (node_justify p);
  li_history r : safe_history L (cast L r);
}.

(** ** Facts of a sound run *)

Section Sound.
Context (L : Ledger) (Hso : sound L).

Lemma stands_certified qc : stands L qc -> certified L (qc_node qc).
Proof.
  intros (Hc & prev & Hs & Hh & [Hi|Hv]); [left; by apply (so_init L Hso)|].
  by apply (so_backed L Hso qc prev).
Qed.

(** A kept proposal is the initial one or sits on the certified one it names. *)
Lemma kept_cases n :
  kept L n -> n = INIT_NODE \/
  node_parent n = qc_node (node_justify n) /\ certified L (node_parent n) /\ 0 < node_height n /\
  exists prev, prev ∈ lg_seen L /\ TreeNode_hash prev = node_parent n /\ node_height prev < node_height n.
Proof.
  intros [Hs [?|Hst]]; [by left|right]. destruct (so_linked L Hso n Hs Hst) as (Hl & H0 & Hlt).
  rewrite Hl. split; [done|]. split; [by apply stands_certified|]. split; [done|].
  destruct Hst as (_ & prev & Hp & Hh & _). exists prev. split; [done|]. split; [done|].
  apply Hlt; [done|congruence].
Qed.

Lemma kept_nonneg n : kept L n -> 0 <= node_height n.
Proof. intros [->|(_ & _ & ? & _)]%kept_cases; [done|lia]. Qed.

Lemma kept_seen n : kept L n -> n ∈ lg_seen L.
Proof. by intros []. Qed.

(** Proposals with the same hash agree on height and parent. *)
Lemma same_hash x y : x ∈ lg_seen L -> y ∈ lg_seen L -> TreeNode_hash x = TreeNode_hash y ->
  node_height x = node_height y /\ node_parent x = node_parent y.
Proof. apply (so_digest L Hso). Qed.
End Sound.

(** Two votes of one replica: the same, or one respects the other. *)
Lemma two_votes L votes p q :
  safe_history L votes -> p ∈ votes -> q ∈ votes ->
  TreeNode_hash p = TreeNode_hash q \/
  (node_height p < node_height q /\ respects L p q) \/ (node_height q < node_height p /\ respects L q p).
Proof.
  induction votes as [|n votes IH]; [by intros _ ?%not_elem_of_nil|].
  intros [Hn Hs] [->|Hp]%elem_of_cons [->|Hq]%elem_of_cons; [by left| | |auto].
  - unfold vote_ok in Hn. rewrite Forall_forall in Hn. destruct (Hn q Hq) as [?|?]; auto.
  - unfold vote_ok in Hn. rewrite Forall_forall in Hn. destruct (Hn p Hp) as [?|?]; auto.
Qed.

(** ** Nothing leaves the branch of a committed proposal *)

Context (Hbound : Z.of_nat (size all) < 2 ^ 63) (Hthird : (3 * size faulty < size all)%nat)
  (Hfaulty : faulty ⊆ all).

Lemma quorums_meet L h k :
  ledger_inv L ->
  quorum_threshold (Z.of_nat (size all)) < Z.of_nat (size (faulty ∪ voters L h)) ->
  quorum_threshold (Z.of_nat (size all)) < Z.of_nat (size (faulty ∪ voters L k)) ->
  exists r p q, p ∈ cast L r /\ q ∈ cast L r /\ TreeNode_hash p = h /\ TreeNode_hash q = k.
Proof.
  intros Hi Hh Hk.
  assert (Hsub : forall i, faulty ∪ voters L i ⊆ all).
  { intros i r. rewrite elem_of_union, elem_of_voters. intros [?|(p & Hp & _)]; [by apply Hfaulty|].
    by destruct (li_vote _ Hi _ _ Hp). }
  apply threshold_size in Hh, Hk; [|done..].
  pose proof (size_inter_ge _ _ _ (Hsub h) (Hsub k)).
  destruct (size_gt_not_subseteq ((faulty ∪ voters L h) ∩ (faulty ∪ voters L k)) faulty)
    as (r & Hr & Hnf); [lia|].
  assert (r ∈ voters L h /\ r ∈ voters L k)
    as [(p & Hp & <-)%elem_of_voters (q & Hq & <-)%elem_of_voters] by (clear - Hr Hnf; set_solver).
  exists r, p, q. by rewrite !elem_of_cast.
Qed.

Section Core.
Context (L : Ledger) (Hso : sound L) (Hinv : ledger_inv L).

Lemma voted_kept r p : p ∈ cast L r -> kept L p.
Proof. intros (_ & ? & ?)%elem_of_cast%(li_vote _ Hinv). split; [done|by right]. Qed.

Lemma voted_seen r p : p ∈ cast L r -> p ∈ lg_seen L.
Proof. intros Hp. by apply kept_seen, (voted_kept r). Qed.

(** A certified proposal is the initial one, or a correct replica voted for its hash. *)
Lemma certified_cases x :
  kept L x -> certified L (TreeNode_hash x) ->
  (TreeNode_hash x = INIT_NODE_HASH /\ node_height x = 0) \/
  (quorum_threshold (Z.of_nat (size all)) < Z.of_nat (size (faulty ∪ voters L (TreeNode_hash x))) /\
   0 < node_height x).
Proof.
  intros Hx [He|Hq].
  - left. split; [done|]. by destruct (same_hash L Hso x INIT_NODE (kept_seen _ _ Hx) (li_init _ Hinv) He).
  - right. split; [done|]. destruct (quorums_meet L _ _ Hinv Hq Hq) as (r & p & _ & Hp & _ & Hh & _).
    pose proof (voted_kept r p Hp) as [Hs _]. destruct (same_hash L Hso p x Hs (kept_seen _ _ Hx) Hh) as [<- _].
    apply elem_of_cast, (li_vote _ Hinv) in Hp as (_ & _ & Hst). apply (so_linked L Hso p Hs Hst).
Qed.

(** At most one proposal of a height is certified. *)
Lemma certified_unique x y :
  kept L x -> kept L y -> certified L (TreeNode_hash x) -> certified L (TreeNode_hash y) ->
  node_height x = node_height y -> TreeNode_hash x = TreeNode_hash y.
Proof.
  intros Hx Hy Cx Cy He.
  destruct (certified_cases x Hx Cx) as [[Ex ?]|[Qx ?]], (certified_cases y Hy Cy) as [[Ey ?]|[Qy ?]];
    [congruence|lia|lia|].
  destruct (quorums_meet L _ _ Hinv Qx Qy) as (r & p & q & Hp & Hq & Ep & Eq).
  destruct (same_hash L Hso p x) as [Hpx _]; [by apply (voted_seen r)|by apply kept_seen|done|].
  destruct (same_hash L Hso q y) as [Hqy _]; [by apply (voted_seen r)|by apply kept_seen|done|].
  destruct (two_votes L _ p q (li_history _ Hinv r) Hp Hq) as [?|[[? _]|[? _]]]; [congruence|lia|lia].
Qed.

(** [b], [b2] and [b3] in a row, at consecutive heights, the last of them certified. *)
Definition committing b b2 b3 : Prop :=
  kept L b /\ kept L b2 /\ kept L b3 /\
  node_parent b3 = TreeNode_hash b2 /\ node_parent b2 = TreeNode_hash b /\
  certified L (TreeNode_hash b3) /\
  node_height b2 = node_height b + 1 /\ node_height b3 = node_height b + 2.

(** A replica that voted for [b3] and for a higher [n]: [n] extends a certified proposal
    that is at least as high as [b]. *)
Lemma vote_above b b2 b3 r p n :
  committing b b2 b3 -> p ∈ cast L r -> n ∈ cast L r -> TreeNode_hash p = TreeNode_hash b3 ->
  node_height b3 < node_height n ->
  exists l, kept L l /\ certified L (TreeNode_hash l) /\
    ancestor L (TreeNode_hash l) (TreeNode_hash n) /\ node_height b <= node_height l < node_height n.
Proof.
  intros (Hb & H2 & H3 & P3 & P2 & C3 & E2 & E3) Hp Hn Hh Hlt.
  assert (Hsp : p ∈ lg_seen L) by (by apply (voted_seen r)).
  destruct (same_hash L Hso p b3 Hsp (kept_seen _ _ H3) Hh) as [Hph Hpp].
  pose proof (kept_nonneg L Hso b Hb).
  destruct (two_votes L _ p n (li_history _ Hinv r) Hp Hn) as [He|[[_ Hr]|[? _]]]; [| |lia].
  - destruct (same_hash L Hso p n Hsp) as [? _]; [by apply (voted_seen r)|done|lia].
  - destruct Hr as (c2 & Hc2 & Ec2 & Hc).
    destruct (same_hash L Hso c2 b2) as [Hch Hcp]; [by apply kept_seen|by apply kept_seen|congruence|].
    destruct Hc as [->|(c & l & Hc & Ec & Hl & Cl & Ha & Hll)];
      [change (node_height INIT_NODE) with 0 in Hch; lia|].
    destruct (same_hash L Hso c b) as [? _]; [by apply kept_seen|by apply kept_seen|congruence|].
    exists l. split; [done|]. split; [done|]. split; [done|lia].
Qed.

Lemma certified_extends b b2 b3 n :
  committing b b2 b3 -> kept L n -> certified L (TreeNode_hash n) ->
  node_height b <= node_height n -> ancestor L (TreeNode_hash b) (TreeNode_hash n).
Proof.
  intros Hcm. remember (Z.to_nat (node_height n)) as k eqn:Ek. revert n Ek.
  induction k as [k IH] using (well_founded_induction lt_wf). intros n Ek Hn Cn Hle.
  pose proof Hcm as (Hb & H2 & H3 & P3 & P2 & C3 & E2 & E3). pose proof (kept_nonneg L Hso b Hb).
  assert (A2 : ancestor L (TreeNode_hash b) (TreeNode_hash b2))
    by (apply ancestor_up; [by apply kept_seen|rewrite P2; constructor]).
  assert (A3 : ancestor L (TreeNode_hash b) (TreeNode_hash b3))
    by (apply ancestor_up; [by apply kept_seen|by rewrite P3]).
  assert (C2 : certified L (TreeNode_hash b2)).
  { rewrite <-P3. destruct (kept_cases L Hso b3 H3) as [->|(_ & ? & _)]; [|done].
    change (node_height INIT_NODE) with 0 in E3. lia. }
  assert (C1 : certified L (TreeNode_hash b)).
  { rewrite <-P2. destruct (kept_cases L Hso b2 H2) as [->|(_ & ? & _)]; [|done].
    change (node_height INIT_NODE) with 0 in E2. lia. }
  assert (node_height n = node_height b \/ node_height n = node_height b2 \/
    node_height n = node_height b3 \/ node_height b3 < node_height n) as [E|[E|[E|Hlt]]] by lia.
  - rewrite (certified_unique n b) by done. constructor.
  - by rewrite (certified_unique n b2).
  - by rewrite (certified_unique n b3).
  - destruct (certified_cases n Hn Cn) as [[_ ?]|[Qn _]]; [lia|].
    destruct (certified_cases b3 H3 C3) as [[_ ?]|[Q3 _]]; [lia|].
    destruct (quorums_meet L _ _ Hinv Q3 Qn) as (r & p & q & Hp & Hq & Ep & Eq).
    destruct (same_hash L Hso q n) as [Hqh _]; [by apply (voted_seen r)|by apply kept_seen|done|].
    destruct (vote_above b b2 b3 r p q Hcm Hp Hq Ep) as (l & Hl & Cl & Ha & Hlh); [lia|].
    rewrite <-Eq. eapply ancestor_trans; [|exact Ha].
    apply (IH (Z.to_nat (node_height l))); [lia|done|done|done|lia].
Qed.

(** Everything kept descends from the initial proposal. *)
Lemma kept_from_init n : kept L n -> ancestor L INIT_NODE_HASH (TreeNode_hash n).
Proof.
  remember (Z.to_nat (node_height n)) as k eqn:Ek. revert n Ek.
  induction k as [k IH] using (well_founded_induction lt_wf). intros n Ek Hn.
  pose proof (kept_nonneg L Hso n Hn). pose proof (kept_seen _ _ Hn) as Hs.
  destruct (kept_cases L Hso n Hn) as [->|(_ & [Hc|Hc] & H0 & prev & Hp & Hh & Hlt)]; [constructor| |].
  - apply ancestor_up; [done|]. rewrite Hc. constructor.
  - destruct (quorums_meet L _ _ Hinv Hc Hc) as (r & p & _ & Hv & _ & Eh & _).
    destruct (same_hash L Hso p prev) as [? _]; [by apply (voted_seen r)|done|congruence|].
    pose proof (voted_kept r p Hv) as Hk. pose proof (kept_nonneg L Hso p Hk).
    apply ancestor_up; [done|]. rewrite <-Eh. apply (IH (Z.to_nat (node_height p))); [lia|done|done].
Qed.
End Core.
End Ledger.
