(* ===== verification/LivenessData.v ===== *)
(** * Liveness data and the liveness storage interface
      (pacemaker/src/data.rs, pacemaker/src/liveness_storage.rs)

    Timeout certificates, the events peers exchange, and the trait
    [LivenessStorage] as a class. *)

From S2P Require Import Prelude Crypto HsData CryptoKit.

Section LivenessData.
Context `{TC : ThresholdCrypto}.

Inductive SignType :=
| Partial (kit : SignKit)
| Combined (c : CombinedSign).

Record TimeoutCertificate := mkTimeoutCertificate {
  tc_from : ReplicaID;
  tc_view : ViewNumber;
  tc_view_sign : SignType;
  tc_qc_high : GenericQC;
}.

Definition TimeoutCertificate_new (from : ReplicaID) (view : ViewNumber) (view_sign : SignKit)
    (qc_high : GenericQC) : TimeoutCertificate :=
  {| tc_from := from; tc_view := view; tc_view_sign := Partial view_sign; tc_qc_high := qc_high |}.

Definition TimeoutCertificate_compressed (from : ReplicaID) (view : ViewNumber)
    (view_sign : CombinedSign) (qc_high : GenericQC) : TimeoutCertificate :=
  {| tc_from := from; tc_view := view; tc_view_sign := Combined view_sign; tc_qc_high := qc_high |}.

(** [PartialEq] and [Hash] look at the view and the sender only. *)
Definition tc_key (tc : TimeoutCertificate) : Z * string := (tc_view tc, tc_from tc).

Definition TimeoutCertificate_eq (a b : TimeoutCertificate) : bool :=
  (tc_view a =? tc_view b) && bool_decide (tc_from a = tc_from b).

(** [HashSet<TimeoutCertificate>]: at most one certificate per key;
    [HashSet::insert] keeps the one already there. *)
Definition TcSet : Type := gmap (Z * string) TimeoutCertificate.

(** [HashSet::len]. *)
Definition TcSet_len (s : TcSet) : Z := map_len (s : gmap (Z * string) TimeoutCertificate).

(** The certificates of the set, as [iter] yields them. *)
Definition TcSet_values (s : TcSet) : list TimeoutCertificate :=
  map_values (s : gmap (Z * string) TimeoutCertificate).

Definition TcSet_insert (s : TcSet) (tc : TimeoutCertificate) : TcSet :=
  match (s : gmap (Z * string) TimeoutCertificate) !! tc_key tc with
  | Some _ => s
  | None => <[tc_key tc:=tc]> (s : gmap (Z * string) TimeoutCertificate)
  end.

Definition partial_sign_of (tc : TimeoutCertificate) : option SignKit :=
  match tc_view_sign tc with Partial ps => Some ps | Combined _ => None end.

(** The [filter] and [map] over [tcs] keep the partial signatures. *)
Definition combine_time_certificates (signaturer : DefaultSignaturer) (_ : ReplicaID)
    (view : ViewNumber) (qc_high : GenericQC) (tcs : list TimeoutCertificate) :
    option TimeoutCertificate :=
  let partial_signs := omap partial_sign_of tcs in
  match combine_partial_sign signaturer partial_signs with
  | Ok s => Some (TimeoutCertificate_compressed EmptyString view s qc_high)
  | Err _ => None
  end.

Inductive BranchSyncStrategy :=
| Grow (grow_from : ViewNumber) (batch_size : Z).

Record BranchData := mkBranchData { bd_data : list TreeNode }.

Inductive SyncStatus := Success | ProposalNonExists.

Inductive PeerEvent :=
| PE_Ping (ctx : Context) (cont : string)
| PE_NewProposal (ctx : Context) (prop : TreeNode)
| PE_AcceptProposal (ctx : Context) (prop : TreeNode) (sign : option SignKit)
| PE_NewView (ctx : Context) (qc_high : GenericQC)
| PE_Timeout (ctx : Context) (tc : TimeoutCertificate)
| PE_BranchSyncRequest (ctx : Context) (strategy : BranchSyncStrategy)
| PE_BranchSyncResponse (ctx : Context) (strategy : BranchSyncStrategy)
    (branch : option BranchData) (status : SyncStatus).

Inductive LivenessStorageErr :=
| InvalidTC (view : ViewNumber)
| DuplicatedData
| StaleData (view current : ViewNumber)
| InvalidBranch (bd : BranchData)
| FailedToFlush.

(** [flush] may wait for ever, hence the [outcome].  [new_view_set] returns
    [&mut HashMap]: reading it creates the entry of the view, and
    [new_view_insert] is the [insert] the pacemaker does through the borrow. *)
Class LivenessStorage (St : Type) := {
  flush : St -> outcome (St * result unit LivenessStorageErr);
  append_tc : St -> TimeoutCertificate -> St * result ViewNumber LivenessStorageErr;
  is_reach_threshold : St -> ViewNumber -> bool;
  ls_update_qc_high : St -> TreeNode -> GenericQC -> St * result unit LivenessStorageErr;
  fetch_branch : St -> BranchSyncStrategy -> result BranchData LivenessStorageErr;
  is_qc_node_exists : St -> GenericQC -> bool;
  ls_get_locked_node : St -> TreeNode;
  ls_get_leaf : St -> TreeNode;
  ls_increase_view : St -> ViewNumber -> St;
  new_view_set : St -> ViewNumber -> St * gmap string GenericQC;
  new_view_insert : St -> ViewNumber -> ReplicaID -> GenericQC -> St;
  clean_new_view_set : St -> ViewNumber -> St;
  get_threshold : St -> Z;
}.

Lemma TcSet_insert_size (s : TcSet) tc :
  TcSet_len (TcSet_insert s tc) <= TcSet_len s + 1.
Proof.
  unfold TcSet_len, TcSet_insert. destruct (_ !! _) eqn:E; unfold map_len; [lia|].
  rewrite map_size_insert_None by done. lia.
Qed.

Lemma TimeoutCertificate_eq_key a b : TimeoutCertificate_eq a b = true <-> tc_key a = tc_key b.
Proof.
  unfold TimeoutCertificate_eq, tc_key.
  rewrite andb_true_iff, Z.eqb_eq, bool_decide_eq_true. split; [intros [-> ->]; done|].
  by intros [= -> ->].
Qed.
End LivenessData.
