(* ===== verification/StorageContract.v ===== *)
(** * The contract of the liveness storage

    What the pacemaker relies on: the liveness operations of a store leave the
    safety state alone, and the new-view messages behave as a map from views to
    messages by sender.  [Inv] is the invariant of [SafetyStorageLaws]. *)

From S2P Require Import Prelude Crypto HsData CryptoKit SafetyStorage LivenessData.

Section StorageContract.
Context `{TC : ThresholdCrypto} {St : Type} `{!SafetyStorage St, !LivenessStorage St}.

Implicit Types (s : St).

(** The safety state is untouched, certificate and leaf included. *)
Definition same_replica (s s' : St) : Prop :=
  same_safety s s' /\ get_qc_high s' = get_qc_high s /\ ls_get_leaf s' = ls_get_leaf s.

(** The new-view messages of a view. *)
Definition nv (s : St) (view : ViewNumber) : gmap string GenericQC := (new_view_set s view).2.

Class LivenessStorageLaws (Inv : St -> Prop) : Prop := {
  append_tc_frame s tc : same_replica s (append_tc s tc).1;
  new_view_set_frame s v : same_replica s (new_view_set s v).1;
  new_view_insert_frame s v r qc : same_replica s (new_view_insert s v r qc);
  clean_new_view_set_frame s v : same_replica s (clean_new_view_set s v);
  flush_frame s s' r : flush s = Ret (s', r) -> same_replica s s';
  ls_update_qc_high_frame s n qc : same_safety s (ls_update_qc_high s n qc).1;
  ls_increase_view_view s v : get_view (ls_increase_view s v) = Z.max (get_view s) v;
  ls_increase_view_frame s v :
    get_locked_node (ls_increase_view s v) = get_locked_node s /\
    get_last_committed (ls_increase_view s v) = get_last_committed s /\
    get_qc_high (ls_increase_view s v) = get_qc_high s /\
    ls_get_leaf (ls_increase_view s v) = ls_get_leaf s;

  append_tc_inv s tc : Inv s -> Inv (append_tc s tc).1;
  new_view_set_inv s v : Inv s -> Inv (new_view_set s v).1;
  new_view_insert_inv s v r qc : Inv s -> Inv (new_view_insert s v r qc);
  clean_new_view_set_inv s v : Inv s -> Inv (clean_new_view_set s v);
  flush_inv s s' r : flush s = Ret (s', r) -> Inv s -> Inv s';
  ls_update_qc_high_inv s n qc : Inv s -> Inv (ls_update_qc_high s n qc).1;
  ls_increase_view_inv s v : Inv s -> Inv (ls_increase_view s v);

  get_threshold_nonneg s : 0 <= get_threshold s;
  nv_set s v w : nv (new_view_set s v).1 w = nv s w;
  nv_insert s v r qc w :
    nv (new_view_insert s v r qc) w = if decide (v = w) then <[r:=qc]> (nv s v) else nv s w;
  nv_clean s t w : nv (clean_new_view_set s t) w = if decide (t <= w) then nv s w else ∅;
  nv_update_leaf s n w : nv (update_leaf s n) w = nv s w;
}.
End StorageContract.
