(* ===== verification/Persistor.v ===== *)
(** * The MySQL backend (hss/src/persistor.rs) and the state it writes

    [InMemoryState] and [HotStuffConfig] (hss/src/lib.rs), the database as the
    tables of [create_tables] (hss/src/recover.rs), the flush of dirty data as the
    SQL statements of [MySQLFlusher::flush] in their order, and the channel between
    the store and the flusher task.

    [base64] and [serde_json] are not part of the repository: [Codec] holds the
    functions the sources call, and [CodecLaws] that decoding undoes encoding. *)

From S2P Require Import Prelude Crypto HsData CryptoKit LivenessData.

Class Codec `{TC : ThresholdCrypto} := {
  base64_encode : list byte -> string;
  base64_decode : string -> option (list byte);
  json_of_txns : list Txn -> list byte;
  txns_of_json : list byte -> option (list Txn);
  json_of_sign_type : SignType -> string;
  tc_of_json : string -> option TimeoutCertificate;
  json_of_pk : PK -> list byte;
  pk_of_json : list byte -> option PK;
  json_of_sk : SK -> list byte;
  sk_of_json : list byte -> option SK;
}.

(** The variant's name in its serialised form. *)
Definition SignType_variant `{TC : ThresholdCrypto} (t : SignType) : string :=
  match t with Partial _ => "Partial" | Combined _ => "Combined" end.

Class CodecLaws `{TC : ThresholdCrypto} {C : Codec} : Prop := {
  base64_roundtrip l : base64_decode (base64_encode l) = Some l;
  json_txns_roundtrip l : txns_of_json (json_of_txns l) = Some l;
  json_pk_roundtrip k : pk_of_json (json_of_pk k) = Some k;
  json_sk_roundtrip k : sk_of_json (json_of_sk k) = Some k;
  (** The derived serialiser writes a [SignType] as an object with one field, named after
      its variant; the derived deserialiser of [TimeoutCertificate] needs the field [from]. *)
  json_derived_fields : exists fields : string -> list string,
    (forall t, fields (json_of_sign_type t) = [SignType_variant t]) /\
    (forall s tc, tc_of_json s = Some tc -> "from"%string ∈ fields s);
}.

Section Persistor.
Context `{TC : ThresholdCrypto} {C : Codec}.

(** ** State and configuration of the store *)

Record InMemoryState := mkInMemoryState {
  st_token : string;
  st_leaf : TreeNode;
  st_qc_high : GenericQC;
  st_vheight : ViewNumber;
  st_current_view : ViewNumber;
  st_committed_height : ViewNumber;
  st_last_commit : TreeNode;
  st_b_locked : TreeNode;
}.

Record HotStuffConfig := mkHotStuffConfig {
  conf_token : string;
  conf_total : Z;
  conf_replica_id : ReplicaID;
  conf_peers_addr : gmap string string;
}.

Definition HotStuffConfig_threshold (c : HotStuffConfig) : Z := quorum_threshold (conf_total c).

(** ** Tables, by primary key *)

Record proposal_row := mkProposalRow {
  pr_parent_hash : string;
  pr_justify_view : ViewNumber;
  pr_prop_hash : string;
  pr_txn : list byte;
}.

Record qc_row := mkQcRow { qr_node_hash : string; qr_combined_sign : string }.

Record state_row := mkStateRow {
  sr_current_view : ViewNumber;
  sr_last_voted_view : ViewNumber;
  sr_locked_view : ViewNumber;
  sr_committed_view : ViewNumber;
  sr_executed_view : ViewNumber;
  sr_leaf_view : ViewNumber;
}.

Record conf_row := mkConfRow { cr_total : Z; cr_self_addr : string; cr_self_id : string }.
Record crypto_row := mkCryptoRow { cy_pk_set : list byte; cy_sk_share : list byte; cy_sk_id : Z }.

Record Database := mkDatabase {
  db_combined_tc : gmap Z string;
  db_crypto : gmap string crypto_row;
  db_hotstuff_conf : gmap string conf_row;
  db_hotstuff_state : gmap string state_row;
  db_partial_tc : gmap (Z * string) string;
  db_peers : gmap string string;
  db_proposal : gmap Z proposal_row;
  db_qc : gmap Z qc_row;
}.

(** [insert ignore into]: a row with the same primary key stays. *)
Definition insert_ignore {K V : Type} `{Countable K} (k : K) (v : V) (t : gmap K V) : gmap K V :=
  match t !! k with Some _ => t | None => <[k:=v]> t end.

Definition set_proposal (t : gmap Z proposal_row) (db : Database) : Database :=
  {| db_combined_tc := db_combined_tc db; db_crypto := db_crypto db;
     db_hotstuff_conf := db_hotstuff_conf db; db_hotstuff_state := db_hotstuff_state db;
     db_partial_tc := db_partial_tc db; db_peers := db_peers db; db_proposal := t;
     db_qc := db_qc db |}.
Definition set_qc (t : gmap Z qc_row) (db : Database) : Database :=
  {| db_combined_tc := db_combined_tc db; db_crypto := db_crypto db;
     db_hotstuff_conf := db_hotstuff_conf db; db_hotstuff_state := db_hotstuff_state db;
     db_partial_tc := db_partial_tc db; db_peers := db_peers db;
     db_proposal := db_proposal db; db_qc := t |}.
Definition set_partial_tc (t : gmap (Z * string) string) (db : Database) : Database :=
  {| db_combined_tc := db_combined_tc db; db_crypto := db_crypto db;
     db_hotstuff_conf := db_hotstuff_conf db; db_hotstuff_state := db_hotstuff_state db;
     db_partial_tc := t; db_peers := db_peers db; db_proposal := db_proposal db;
     db_qc := db_qc db |}.
Definition set_combined_tc (t : gmap Z string) (db : Database) : Database :=
  {| db_combined_tc := t; db_crypto := db_crypto db; db_hotstuff_conf := db_hotstuff_conf db;
     db_hotstuff_state := db_hotstuff_state db; db_partial_tc := db_partial_tc db;
     db_peers := db_peers db; db_proposal := db_proposal db; db_qc := db_qc db |}.
Definition set_hotstuff_state (t : gmap string state_row) (db : Database) : Database :=
  {| db_combined_tc := db_combined_tc db; db_crypto := db_crypto db;
     db_hotstuff_conf := db_hotstuff_conf db; db_hotstuff_state := t;
     db_partial_tc := db_partial_tc db; db_peers := db_peers db;
     db_proposal := db_proposal db; db_qc := db_qc db |}.

(** ** Flushing *)

Record DirtyData := mkDirtyData {
  dd_combined_tc_queue : list TimeoutCertificate;
  dd_partial_tc_queue : list TimeoutCertificate;
  dd_prop_queue : list TreeNode;
  dd_justify_queue : list GenericQC;
  dd_state : InMemoryState;
}.

(** [Sync] also carries the sender that reports completion; [waits] says whether the
    requester is still there when that happens. *)
Inductive FlushTask :=
| FlushTask_Async (data : DirtyData)
| FlushTask_Sync (data : DirtyData) (waits : bool).

Definition task_data (t : FlushTask) : DirtyData :=
  match t with FlushTask_Async data | FlushTask_Sync data _ => data end.

(** [done.send(()).is_err()]. *)
Definition requester_gone (t : FlushTask) : bool :=
  match t with FlushTask_Async _ => false | FlushTask_Sync _ waits => negb waits end.

Definition FlushTask_asynch (ctc ptc : list TimeoutCertificate) (props : list TreeNode)
    (qcs : list GenericQC) (state : InMemoryState) : FlushTask :=
  FlushTask_Async {| dd_combined_tc_queue := ctc; dd_partial_tc_queue := ptc;
                     dd_prop_queue := props; dd_justify_queue := qcs; dd_state := state |}.

Definition FlushTask_synch (ctc ptc : list TimeoutCertificate) (props : list TreeNode)
    (qcs : list GenericQC) (state : InMemoryState) (waits : bool) : FlushTask :=
  FlushTask_Sync {| dd_combined_tc_queue := ctc; dd_partial_tc_queue := ptc;
                    dd_prop_queue := props; dd_justify_queue := qcs; dd_state := state |} waits.

(** One turn of the loop over [prop_queue]: a row of [qc] that carries the hash of
    the proposal itself, then the row of [proposal]. *)
Definition flush_prop (db : Database) (prop : TreeNode) : Database :=
  let view := node_height prop in
  let parent_hash := base64_encode (NodeHash_as_ref (node_parent prop)) in
  let node_hash := base64_encode (NodeHash_as_ref (TreeNode_hash prop)) in
  let sign := base64_encode (sign_to_bytes (qc_combined_sign (node_justify prop))) in
  let txn := json_of_txns (node_txs prop) in
  let jview := qc_view (node_justify prop) in
  let db := set_qc (insert_ignore jview (mkQcRow node_hash sign) (db_qc db)) db in
  set_proposal
    (insert_ignore view (mkProposalRow parent_hash jview node_hash txn) (db_proposal db)) db.

Definition flush_justify (db : Database) (qc : GenericQC) : Database :=
  let node_hash := base64_encode (NodeHash_as_ref (qc_node qc)) in
  let sign := base64_encode (sign_to_bytes (qc_combined_sign qc)) in
  set_qc (insert_ignore (qc_view qc) (mkQcRow node_hash sign) (db_qc db)) db.

Definition flush_ptc (db : Database) (ptc : TimeoutCertificate) : Database :=
  set_partial_tc (insert_ignore (tc_view ptc, tc_from ptc)
                    (json_of_sign_type (tc_view_sign ptc)) (db_partial_tc db)) db.

Definition flush_ctc (db : Database) (ctc : TimeoutCertificate) : Database :=
  set_combined_tc (insert_ignore (tc_view ctc)
                     (json_of_sign_type (tc_view_sign ctc)) (db_combined_tc db)) db.

(** [replace into hotstuff_state]. *)
Definition flush_state (db : Database) (s : InMemoryState) : Database :=
  set_hotstuff_state
    (<[st_token s :=
         {| sr_current_view := st_current_view s; sr_last_voted_view := st_vheight s;
            sr_locked_view := node_height (st_b_locked s);
            sr_committed_view := st_committed_height s;
            sr_executed_view := node_height (st_last_commit s);
            sr_leaf_view := node_height (st_leaf s) |}]> (db_hotstuff_state db)) db.

Definition MySQLFlusher_flush (db : Database) (data : DirtyData) : Database :=
  let db := fold_left flush_prop (dd_prop_queue data) db in
  let db := fold_left flush_justify (dd_justify_queue data) db in
  let db := fold_left flush_ptc (dd_partial_tc_queue data) db in
  let db := fold_left flush_ctc (dd_combined_tc_queue data) db in
  flush_state db (dd_state data).

(** ** The channel to the flusher task

    [my_conn_pool]: the pool is still held by the storage ([conn_pool.is_some()]);
    [my_channel]: the tasks sent and not yet received; [my_recvr_tmp]: the receiver
    has not been handed to a flusher; [my_flusher]: the flusher task runs and holds the
    receiver; [my_db]: the database behind the pool; [my_txs]: how the next transactions
    will end, the ones after them are committed. *)

(** A transaction of the flusher: committed; [tx.commit()] fails, which the code ignores;
    or its start or one of the statements fails, and the [unwrap] ends the task. *)
Inductive tx_outcome := Tx_committed | Tx_commit_failed | Tx_statement_failed.

Record MySQLStorage := mkMySQLStorage {
  my_conn_pool : bool;
  my_channel : list FlushTask;
  my_recvr_tmp : bool;
  my_flusher : bool;
  my_txs : list tx_outcome;
  my_db : Database;
}.

Definition channel_capacity : nat := 4.

(** [conn] is what the pool reaches, [txs] how its first transactions will end. *)
Definition MySQLStorage_with (conn : Database) (txs : list tx_outcome) : MySQLStorage :=
  {| my_conn_pool := true; my_channel := []; my_recvr_tmp := true; my_flusher := false;
     my_txs := txs; my_db := conn |}.

Definition MySQLStorage_new (conn : Database) : MySQLStorage := MySQLStorage_with conn [].

Definition MySQLStorage_connection (b : MySQLStorage) : option Database :=
  if my_conn_pool b then Some (my_db b) else None.

(** The database after the transaction of [data], and whether the task goes on. *)
Definition MySQLFlusher_transaction (o : tx_outcome) (db : Database) (data : DirtyData) : Database * bool :=
  match o with
  | Tx_committed => (MySQLFlusher_flush db data, true)
  | Tx_commit_failed => (db, true)
  | Tx_statement_failed => (db, false)
  end.

(** One turn of the loop of [MySQLFlusher::run]: take the next task, write it, report the
    completion of a [Sync] task.  When the loop or the task ends the receiver is dropped,
    and with it the tasks in the channel.  An empty channel makes the flusher wait. *)
Definition MySQLFlusher_step (b : MySQLStorage) : MySQLStorage :=
  if my_flusher b then
    match my_channel b with
    | [] => b
    | task :: rest =>
        let '(db, alive) :=
          MySQLFlusher_transaction (default Tx_committed (head (my_txs b))) (my_db b) (task_data task) in
        let alive := alive && negb (requester_gone task) in
        {| my_conn_pool := my_conn_pool b; my_channel := if (alive : bool) then rest else [];
           my_recvr_tmp := my_recvr_tmp b; my_flusher := alive; my_txs := tail (my_txs b); my_db := db |}
    end
  else b.

(** The loop until it waits for the next task or ends. *)
Fixpoint flusher_loop (n : nat) (b : MySQLStorage) : MySQLStorage :=
  match n with O => b | S n => flusher_loop n (MySQLFlusher_step b) end.

Definition MySQLFlusher_run (b : MySQLStorage) : MySQLStorage := flusher_loop (length (my_channel b)) b.

Definition MySQLStorage_push (b : MySQLStorage) (task : FlushTask) : MySQLStorage :=
  {| my_conn_pool := my_conn_pool b; my_channel := my_channel b ++ [task];
     my_recvr_tmp := my_recvr_tmp b; my_flusher := my_flusher b; my_txs := my_txs b; my_db := my_db b |}.

(** The receiver is gone: neither the storage nor a flusher has it. *)
Definition receiver_dropped (b : MySQLStorage) : bool := negb (my_recvr_tmp b) && negb (my_flusher b).

(** [let _ = self.sender.send(task).await]: without a receiver the send fails and the task
    is lost; with a full channel the call waits for the flusher to receive; while the
    receiver is still held by the storage itself nobody receives. *)
Definition MySQLStorage_async_flush (b : MySQLStorage) (task : FlushTask) : outcome MySQLStorage :=
  if receiver_dropped b then Ret b
  else if (length (my_channel b) <? channel_capacity)%nat then Ret (MySQLStorage_push b task)
  else if my_recvr_tmp b then Diverge
  else
    let b := MySQLFlusher_step b in
    if receiver_dropped b then Ret b else Ret (MySQLStorage_push b task).

End Persistor.
