(* ===== verification/Hss.v ===== *)
(** * The HotStuff store (hss/src/lib.rs)

    [HotstuffStorage] implements both storage traits over in-memory maps, with an
    optional MySQL backend fed through queues of dirty data.  Its operations, the
    two instances, and the laws of [SafetyStorageLaws] are here; the walk along the
    parents has its own file. *)

From S2P Require Import Prelude Crypto HsData CryptoKit SafetyStorage LivenessData Persistor.

Section Hss.
Context `{TC : ThresholdCrypto} {C : Codec}.

Record HotstuffStorage := mkHotstuffStorage {
  hss_backend : option MySQLStorage;
  hss_state : InMemoryState;
  hss_conf : HotStuffConfig;
  hss_signaturer : DefaultSignaturer;
  hss_in_mem_queue : gmap NodeHash TreeNode;
  hss_tc_map : gmap Z TcSet;
  hss_new_view_set : gmap Z (gmap string GenericQC);
  hss_combined_tc_queue : list TimeoutCertificate;
  hss_partial_tc_queue : list TimeoutCertificate;
  hss_prop_queue : list TreeNode;
  hss_justify_queue : list GenericQC;
  hss_dirty : bool;
}.

(** ** Assignments to one field *)

Definition set_backend (b : option MySQLStorage) (s : HotstuffStorage) : HotstuffStorage :=
  mkHotstuffStorage b (hss_state s) (hss_conf s) (hss_signaturer s) (hss_in_mem_queue s)
    (hss_tc_map s) (hss_new_view_set s) (hss_combined_tc_queue s) (hss_partial_tc_queue s)
    (hss_prop_queue s) (hss_justify_queue s) (hss_dirty s).
Definition set_state (st : InMemoryState) (s : HotstuffStorage) : HotstuffStorage :=
  mkHotstuffStorage (hss_backend s) st (hss_conf s) (hss_signaturer s) (hss_in_mem_queue s)
    (hss_tc_map s) (hss_new_view_set s) (hss_combined_tc_queue s) (hss_partial_tc_queue s)
    (hss_prop_queue s) (hss_justify_queue s) (hss_dirty s).
Definition set_in_mem_queue (q : gmap NodeHash TreeNode) (s : HotstuffStorage) : HotstuffStorage :=
  mkHotstuffStorage (hss_backend s) (hss_state s) (hss_conf s) (hss_signaturer s) q
    (hss_tc_map s) (hss_new_view_set s) (hss_combined_tc_queue s) (hss_partial_tc_queue s)
    (hss_prop_queue s) (hss_justify_queue s) (hss_dirty s).
Definition set_tc_map (t : gmap Z TcSet) (s : HotstuffStorage) : HotstuffStorage :=
  mkHotstuffStorage (hss_backend s) (hss_state s) (hss_conf s) (hss_signaturer s)
    (hss_in_mem_queue s) t (hss_new_view_set s) (hss_combined_tc_queue s)
    (hss_partial_tc_queue s) (hss_prop_queue s) (hss_justify_queue s) (hss_dirty s).
Definition set_new_view_set (n : gmap Z (gmap string GenericQC)) (s : HotstuffStorage) :
    HotstuffStorage :=
  mkHotstuffStorage (hss_backend s) (hss_state s) (hss_conf s) (hss_signaturer s)
    (hss_in_mem_queue s) (hss_tc_map s) n (hss_combined_tc_queue s) (hss_partial_tc_queue s)
    (hss_prop_queue s) (hss_justify_queue s) (hss_dirty s).
Definition set_queues (ctc ptc : list TimeoutCertificate) (props : list TreeNode)
    (qcs : list GenericQC) (s : HotstuffStorage) : HotstuffStorage :=
  mkHotstuffStorage (hss_backend s) (hss_state s) (hss_conf s) (hss_signaturer s)
    (hss_in_mem_queue s) (hss_tc_map s) (hss_new_view_set s) ctc ptc props qcs (hss_dirty s).
Definition set_dirty_flag (d : bool) (s : HotstuffStorage) : HotstuffStorage :=
  mkHotstuffStorage (hss_backend s) (hss_state s) (hss_conf s) (hss_signaturer s)
    (hss_in_mem_queue s) (hss_tc_map s) (hss_new_view_set s) (hss_combined_tc_queue s)
    (hss_partial_tc_queue s) (hss_prop_queue s) (hss_justify_queue s) d.

Definition HSS_set_dirty (s : HotstuffStorage) : HotstuffStorage := set_dirty_flag true s.
Definition HSS_reset_dirty (s : HotstuffStorage) : HotstuffStorage := set_dirty_flag false s.

(** ** Construction *)

Definition HSS_new (token : string) (init_node : TreeNode) (init_qc : GenericQC)
    (conf : HotStuffConfig) (signaturer : DefaultSignaturer) (backend : option MySQLStorage) :
    HotstuffStorage :=
  {| hss_state :=
       {| st_token := token; st_current_view := 0; st_vheight := 0; st_committed_height := 0;
          st_last_commit := init_node; st_b_locked := init_node; st_leaf := init_node;
          st_qc_high := init_qc |};
     hss_backend := backend; hss_signaturer := signaturer; hss_conf := conf;
     hss_tc_map := ∅; hss_in_mem_queue := ∅; hss_combined_tc_queue := [];
     hss_partial_tc_queue := []; hss_prop_queue := []; hss_justify_queue := [];
     hss_dirty := false; hss_new_view_set := ∅ |}.

Definition init_in_mem_storage (total : Z) (init_node : TreeNode) (init_node_hash : NodeHash)
    (init_qc : GenericQC) (self_id : ReplicaID) (peers_addr : gmap string string)
    (signaturer : DefaultSignaturer) : HotstuffStorage :=
  let token := "hotstuff_test"%string in
  let conf := {| conf_token := token; conf_total := total; conf_replica_id := self_id;
                 conf_peers_addr := peers_addr |} in
  let hss := HSS_new token init_node init_qc conf signaturer None in
  set_in_mem_queue (<[init_node_hash:=init_node]> (hss_in_mem_queue hss)) hss.

(** ** Private helpers *)

Definition HSS_threshold (s : HotstuffStorage) : Z := quorum_threshold (conf_total (hss_conf s)).

Definition HSS_get (s : HotstuffStorage) (h : NodeHash) : option TreeNode :=
  hss_in_mem_queue s !! h.

Definition HSS_insert (s : HotstuffStorage) (h : NodeHash) (prop : TreeNode) : HotstuffStorage :=
  let s := set_in_mem_queue (<[h:=prop]> (hss_in_mem_queue s)) s in
  set_queues (hss_combined_tc_queue s) (hss_partial_tc_queue s) (hss_prop_queue s ++ [prop])
    (hss_justify_queue s) s.

(** ** [impl SafetyStorage for HotstuffStorage] *)

Definition HSS_append_new_node (s : HotstuffStorage) (node : TreeNode) : HotstuffStorage :=
  HSS_set_dirty (HSS_insert s (TreeNode_hash node) node).

Definition HSS_append_new_qc (s : HotstuffStorage) (qc : GenericQC) : HotstuffStorage :=
  HSS_set_dirty
    (set_queues (hss_combined_tc_queue s) (hss_partial_tc_queue s) (hss_prop_queue s)
       (hss_justify_queue s ++ [qc]) s).

Definition HSS_find_three_chain (s : HotstuffStorage) (node : TreeNode) : list TreeNode :=
  match HSS_get s (qc_node (node_justify node)) with
  | Some b3 =>
      b3 :: match HSS_get s (qc_node (node_justify b3)) with
            | Some b2 =>
                b2 :: match HSS_get s (qc_node (node_justify b2)) with
                      | Some b1 => [b1]
                      | None => []
                      end
            | None => []
            end
  | None => []
  end.

Definition state_with_leaf (st : InMemoryState) (leaf : TreeNode) : InMemoryState :=
  {| st_token := st_token st; st_leaf := leaf; st_qc_high := st_qc_high st;
     st_vheight := node_height leaf; st_current_view := st_current_view st;
     st_committed_height := st_committed_height st; st_last_commit := st_last_commit st;
     st_b_locked := st_b_locked st |}.

(** Sets the leaf, and [vheight] to the height of the leaf. *)
Definition HSS_update_leaf (s : HotstuffStorage) (new_leaf : TreeNode) : HotstuffStorage :=
  let hash := TreeNode_hash new_leaf in
  let s := set_state (state_with_leaf (hss_state s) new_leaf) s in
  HSS_set_dirty (HSS_insert s hash new_leaf).

Definition HSS_get_leaf (s : HotstuffStorage) : TreeNode := st_leaf (hss_state s).
Definition HSS_get_qc_high (s : HotstuffStorage) : GenericQC := st_qc_high (hss_state s).

Definition state_with_qc_high (st : InMemoryState) (qc : GenericQC) : InMemoryState :=
  {| st_token := st_token st; st_leaf := st_leaf st; st_qc_high := qc;
     st_vheight := st_vheight st; st_current_view := st_current_view st;
     st_committed_height := st_committed_height st; st_last_commit := st_last_commit st;
     st_b_locked := st_b_locked st |}.

Definition HSS_update_qc_high (s : HotstuffStorage) (new_qc_node : TreeNode)
    (new_qc_high : GenericQC) : HotstuffStorage :=
  match HSS_get s (qc_node (HSS_get_qc_high s)) with
  | Some qc_node =>
      if node_height qc_node <? node_height new_qc_node then
        let s := set_state (state_with_qc_high (hss_state s) new_qc_high) s in
        let s := HSS_update_leaf s new_qc_node in
        let s := HSS_append_new_qc s new_qc_high in
        HSS_set_dirty s
      else s
  | None => s
  end.

(** The loop [while height_now > b.height()]: [node] is the current proposal,
    [height_now] and [parent_hash] are its height and parent.  [None]: the fuel ran
    out. *)
Fixpoint conflict_walk (fuel : nat) (q : gmap NodeHash TreeNode) (b_height : ViewNumber)
    (node : TreeNode) : option TreeNode :=
  if b_height <? node_height node then
    match q !! node_parent node with
    | Some prev =>
        match fuel with
        | O => None
        | S fuel => conflict_walk fuel q b_height prev
        end
    | None => Some node
    end
  else Some node.

Definition HSS_is_conflicting (s : HotstuffStorage) (a b : TreeNode) : option bool :=
  let '(a, b) := if node_height b <=? node_height a then (a, b) else (b, a) in
  match conflict_walk (size (hss_in_mem_queue s)) (hss_in_mem_queue s) (node_height b) a with
  | Some node => Some (bool_decide (TreeNode_hash node <> TreeNode_hash b))
  | None => None
  end.

Definition HSS_get_node (s : HotstuffStorage) (h : NodeHash) : option TreeNode := HSS_get s h.

Definition HSS_get_locked_node (s : HotstuffStorage) : TreeNode := st_b_locked (hss_state s).

Definition state_with_locked (st : InMemoryState) (node : TreeNode) : InMemoryState :=
  {| st_token := st_token st; st_leaf := st_leaf st; st_qc_high := st_qc_high st;
     st_vheight := st_vheight st; st_current_view := st_current_view st;
     st_committed_height := st_committed_height st; st_last_commit := st_last_commit st;
     st_b_locked := node |}.

Definition HSS_update_locked_node (s : HotstuffStorage) (node : TreeNode) : HotstuffStorage :=
  HSS_set_dirty (set_state (state_with_locked (hss_state s) node) s).

Definition HSS_get_last_committed (s : HotstuffStorage) : TreeNode := st_last_commit (hss_state s).
Definition HSS_get_view (s : HotstuffStorage) : ViewNumber := st_current_view (hss_state s).

Definition state_with_view (st : InMemoryState) (v : ViewNumber) : InMemoryState :=
  {| st_token := st_token st; st_leaf := st_leaf st; st_qc_high := st_qc_high st;
     st_vheight := st_vheight st; st_current_view := v;
     st_committed_height := st_committed_height st; st_last_commit := st_last_commit st;
     st_b_locked := st_b_locked st |}.

Definition HSS_increase_view (s : HotstuffStorage) (new_view : ViewNumber) : HotstuffStorage :=
  HSS_set_dirty
    (set_state (state_with_view (hss_state s)
                  (Z.max (st_current_view (hss_state s)) new_view)) s).

Definition HSS_is_consecutive_three_chain (_ : HotstuffStorage) (chain : list TreeNode) : bool :=
  match chain with
  | [b_3; b_2; b] =>
      bool_decide (node_parent b_3 = TreeNode_hash b_2) &&
      bool_decide (node_parent b_2 = TreeNode_hash b)
  | _ => false
  end.

Definition HSS_get_vheight (s : HotstuffStorage) : ViewNumber := st_vheight (hss_state s).

Definition state_with_vheight (st : InMemoryState) (v : ViewNumber) : InMemoryState :=
  {| st_token := st_token st; st_leaf := st_leaf st; st_qc_high := st_qc_high st;
     st_vheight := v; st_current_view := st_current_view st;
     st_committed_height := st_committed_height st; st_last_commit := st_last_commit st;
     st_b_locked := st_b_locked st |}.

Definition HSS_update_vheight (s : HotstuffStorage) (vheight : ViewNumber) :
    HotstuffStorage * ViewNumber :=
  let prev := st_vheight (hss_state s) in
  (HSS_set_dirty
     (set_state (state_with_vheight (hss_state s) (Z.max (st_vheight (hss_state s)) vheight)) s),
   prev).

Definition state_with_commit (st : InMemoryState) (h : ViewNumber) (node : TreeNode) :
    InMemoryState :=
  {| st_token := st_token st; st_leaf := st_leaf st; st_qc_high := st_qc_high st;
     st_vheight := st_vheight st; st_current_view := st_current_view st;
     st_committed_height := h; st_last_commit := node; st_b_locked := st_b_locked st |}.

(** The loop [for h in committed_height + 1 ..= to_commit.height()], which assigns
    [committed_height] at every turn. *)
Definition commit_loop (committed_height to_committed_height : ViewNumber) : ViewNumber :=
  fold_left (fun _ h => h)
    (seqZ (committed_height + 1) (to_committed_height - committed_height)) committed_height.

Definition HSS_commit (s : HotstuffStorage) (to_commit : TreeNode) : HotstuffStorage :=
  let committed := st_committed_height (hss_state s) in
  if node_height to_commit <=? committed then s
  else
    HSS_set_dirty
      (set_state (state_with_commit (hss_state s)
                    (commit_loop committed (node_height to_commit)) to_commit) s).

Definition HSS_hotstuff_status (s : HotstuffStorage) : Snapshot :=
  {| ss_view := st_current_view (hss_state s); ss_leader := None;
     ss_qc_high := st_qc_high (hss_state s); ss_leaf := st_leaf (hss_state s);
     ss_locked_node := st_b_locked (hss_state s);
     ss_last_committed := st_committed_height (hss_state s) |}.

#[global] Instance HSS_SafetyStorage : SafetyStorage HotstuffStorage := {
  append_new_node := HSS_append_new_node;
  append_new_qc := HSS_append_new_qc;
  get_node := HSS_get_node;
  find_three_chain := HSS_find_three_chain;
  is_consecutive_three_chain := HSS_is_consecutive_three_chain;
  is_conflicting := HSS_is_conflicting;
  get_qc_high := HSS_get_qc_high;
  update_qc_high := HSS_update_qc_high;
  get_leaf := HSS_get_leaf;
  update_leaf := HSS_update_leaf;
  get_locked_node := HSS_get_locked_node;
  update_locked_node := HSS_update_locked_node;
  get_view := HSS_get_view;
  increase_view := HSS_increase_view;
  commit := HSS_commit;
  get_last_committed := HSS_get_last_committed;
  get_vheight := HSS_get_vheight;
  update_vheight := HSS_update_vheight;
  hotstuff_status := HSS_hotstuff_status;
}.

(** ** [impl LivenessStorage for HotstuffStorage] *)

Definition HSS_async_flush (s : HotstuffStorage) : outcome HotstuffStorage :=
  if negb (hss_dirty s) then Ret s
  else
    match hss_backend s with
    | Some backend =>
        let task := FlushTask_asynch (hss_combined_tc_queue s) (hss_partial_tc_queue s)
                      (hss_prop_queue s) (hss_justify_queue s) (hss_state s) in
        let s := set_queues [] [] [] [] s in
        backend ← MySQLStorage_async_flush backend task;
        Ret (HSS_reset_dirty (set_backend (Some backend) s))
    | None => Ret s
    end.

Definition HSS_flush (s : HotstuffStorage) : outcome (HotstuffStorage * result unit LivenessStorageErr) :=
  s ← HSS_async_flush s; Ret (s, Ok tt).

(** The highest view with at least [threshold] certificates. *)
Definition tc_views_reached (s : HotstuffStorage) : list Z :=
  (filter (fun kv : Z * TcSet =>
      HotStuffConfig_threshold (hss_conf s) <= TcSet_len kv.2) (map_to_list (hss_tc_map s))).*1.

Definition max_key (l : list Z) : option Z :=
  match l with [] => None | k :: l => Some (fold_left Z.max l k) end.

Definition HSS_compress_tc (s : HotstuffStorage) : HotstuffStorage * option ViewNumber :=
  let view := max_key (tc_views_reached s) in
  match view with
  | Some v =>
      match hss_tc_map s !! v with
      | Some tcs =>
          let s := set_tc_map (delete v (hss_tc_map s)) s in
          match combine_time_certificates (hss_signaturer s) EmptyString v (HSS_get_qc_high s)
                  (TcSet_values tcs) with
          | Some combined_tc =>
              (set_queues (hss_combined_tc_queue s ++ [combined_tc]) (hss_partial_tc_queue s)
                 (hss_prop_queue s) (hss_justify_queue s) s, view)
          | None => (s, view)
          end
      | None => (s, view)
      end
  | None => (s, view)
  end.

Definition HSS_append_tc (s : HotstuffStorage) (tc : TimeoutCertificate) :
    HotstuffStorage * result ViewNumber LivenessStorageErr :=
  let s :=
    match tc_view_sign tc with
    | Partial _ =>
        set_queues (hss_combined_tc_queue s) (hss_partial_tc_queue s ++ [tc])
          (hss_prop_queue s) (hss_justify_queue s) s
    | Combined _ =>
        set_queues (hss_combined_tc_queue s ++ [tc]) (hss_partial_tc_queue s)
          (hss_prop_queue s) (hss_justify_queue s) s
    end in
  let s := HSS_set_dirty s in
  let '(s, v) := HSS_compress_tc s in
  (s, Ok (match v with Some v => v | None => Z.max 0 (HSS_get_view s - 1) end)).

Definition HSS_is_reach_threshold (s : HotstuffStorage) (view : ViewNumber) : bool :=
  match hss_tc_map s !! view with
  | None => false
  | Some tcs => HotStuffConfig_threshold (hss_conf s) <=? TcSet_len tcs
  end.

Definition HSS_ls_update_qc_high (s : HotstuffStorage) (node : TreeNode) (qc : GenericQC) :
    HotstuffStorage * result unit LivenessStorageErr :=
  (HSS_set_dirty (HSS_update_qc_high s node qc), Ok tt).

(** [v.sort_by(|a, b| a.height().cmp(&b.height()))]. *)
Definition height_le (a b : TreeNode) : Prop := node_height a <= node_height b.
#[global] Instance height_le_dec : RelDecision height_le := fun a b => Z_le_dec _ _.

Definition HSS_fetch_branch (s : HotstuffStorage) (strategy : BranchSyncStrategy) :
    result BranchData LivenessStorageErr :=
  match strategy with
  | Grow grow_from _ =>
      let v := filter (fun n => grow_from < node_height n) (map_values (hss_in_mem_queue s)) in
      Ok {| bd_data := merge_sort height_le v |}
  end.

Definition HSS_is_qc_node_exists (s : HotstuffStorage) (qc : GenericQC) : bool :=
  bool_decide (is_Some (HSS_get s (qc_node qc))).

(** [self.new_view_set.entry(view).or_insert(HashMap::new())]. *)
Definition HSS_new_view_set (s : HotstuffStorage) (view : ViewNumber) :
    HotstuffStorage * gmap string GenericQC :=
  let m := default ∅ (hss_new_view_set s !! view) in
  (set_new_view_set (<[view:=m]> (hss_new_view_set s)) s, m).

Definition HSS_new_view_insert (s : HotstuffStorage) (view : ViewNumber) (from : ReplicaID)
    (qc : GenericQC) : HotstuffStorage :=
  let '(s, m) := HSS_new_view_set s view in
  set_new_view_set (<[view:=<[from:=qc]> m]> (hss_new_view_set s)) s.

(** [split_off(&view_threshold)] keeps the keys from [view_threshold] on. *)
Definition HSS_clean_new_view_set (s : HotstuffStorage) (view_threshold : ViewNumber) :
    HotstuffStorage :=
  set_new_view_set (filter (fun kv => view_threshold <= kv.1) (hss_new_view_set s)) s.

#[global] Instance HSS_LivenessStorage : LivenessStorage HotstuffStorage := {
  flush := HSS_flush;
  append_tc := HSS_append_tc;
  is_reach_threshold := HSS_is_reach_threshold;
  ls_update_qc_high := HSS_ls_update_qc_high;
  fetch_branch := HSS_fetch_branch;
  is_qc_node_exists := HSS_is_qc_node_exists;
  ls_get_locked_node := HSS_get_locked_node;
  ls_get_leaf := HSS_get_leaf;
  ls_increase_view := HSS_increase_view;
  new_view_set := HSS_new_view_set;
  new_view_insert := HSS_new_view_insert;
  clean_new_view_set := HSS_clean_new_view_set;
  get_threshold := HSS_threshold;
}.
End Hss.
