(* ===== verification/HssSafety.v ===== *)
(** * The store keeps its promises

    The invariant of [HotstuffStorage], the proof that it implements the interface
    the machine is verified against, and what the liveness operations guarantee. *)

From S2P Require Import Prelude Crypto HsData CryptoKit SafetyStorage LivenessData Persistor Hss.

Section HssSafety.
Context `{TC : ThresholdCrypto} {C : Codec}.

Implicit Types (s : HotstuffStorage) (n : TreeNode) (qc : GenericQC).

(** Proposals are stored under their hash, and the committed height is the height
    of the last committed proposal. *)
Record HSS_inv s : Prop := {
  inv_keys h n : hss_in_mem_queue s !! h = Some n -> TreeNode_hash n = h;
  inv_commit : st_committed_height (hss_state s) = node_height (st_last_commit (hss_state s));
}.

Lemma commit_loop_spec c t : c < t -> commit_loop c t = t.
Proof.
  intros H. unfold commit_loop. replace (t - c) with (Z.of_nat (S (Z.to_nat (t - c - 1)))) by lia.
  rewrite seqZ_S, fold_left_app. simpl. lia.
Qed.

(** The stored proposals after an insertion. *)
Lemma HSS_insert_queue s h n : hss_in_mem_queue (HSS_insert s h n) = <[h:=n]> (hss_in_mem_queue s).
Proof. done. Qed.

Lemma keys_insert (q : gmap NodeHash TreeNode) n :
  (forall h m, q !! h = Some m -> TreeNode_hash m = h) ->
  forall h m, <[TreeNode_hash n:=n]> q !! h = Some m -> TreeNode_hash m = h.
Proof. intros Hq h m [[<- <-]|[_ Hm]]%lookup_insert_Some; auto. Qed.

Lemma HSS_inv_append_new_node s n : HSS_inv s -> HSS_inv (HSS_append_new_node s n).
Proof. intros [Hk Hc]. split; [|done]. by apply keys_insert. Qed.

Lemma HSS_inv_update_leaf s n : HSS_inv s -> HSS_inv (HSS_update_leaf s n).
Proof. intros [Hk Hc]. split; [|done]. by apply keys_insert. Qed.

Lemma HSS_inv_update_qc_high s n qc : HSS_inv s -> HSS_inv (HSS_update_qc_high s n qc).
Proof.
  intros Hi. unfold HSS_update_qc_high. destruct (HSS_get _ _); [|done].
  destruct (_ <? _); [|done].
  assert (H1 : HSS_inv (set_state (state_with_qc_high (hss_state s) qc) s)) by (by destruct Hi).
  apply HSS_inv_update_leaf with (n := n) in H1. by destruct H1.
Qed.

Lemma HSS_inv_commit s n : HSS_inv s -> HSS_inv (HSS_commit s n).
Proof.
  intros [Hk Hc]. unfold HSS_commit. zbool; [by split|]. split; [done|].
  cbn -[commit_loop]. by apply commit_loop_spec.
Qed.

Lemma HSS_commit_last s n :
  HSS_inv s ->
  HSS_get_last_committed (HSS_commit s n) =
    if node_height (HSS_get_last_committed s) <? node_height n
    then n else HSS_get_last_committed s.
Proof.
  intros [_ Hc]. unfold HSS_commit, HSS_get_last_committed. rewrite Hc. zbool; done || lia.
Qed.

Lemma HSS_update_qc_high_frame s n qc : same_safety s (HSS_update_qc_high s n qc).
Proof.
  unfold HSS_update_qc_high. destruct (HSS_get _ _); [|done]. by destruct (_ <? _).
Qed.

#[global] Instance HSS_SafetyStorageLaws : SafetyStorageLaws HotstuffStorage HSS_inv.
Proof.
  split; try done.
  - apply HSS_update_qc_high_frame.
  - intros s n. simpl. unfold HSS_commit. by zbool.
  - intros s n. simpl. unfold HSS_commit. by zbool.
  - apply HSS_commit_last.
  - intros s l. simpl. unfold HSS_is_consecutive_three_chain.
    by destruct l as [|? [|? [|? []]]].
  - apply HSS_inv_append_new_node.
  - by intros s qc [].
  - apply HSS_inv_update_qc_high.
  - apply HSS_inv_update_leaf.
  - by intros s h [].
  - by intros s n [].
  - apply HSS_inv_commit.
  - by intros s v [].
Qed.

(** A fresh store satisfies the invariant. *)
Lemma HSS_inv_init total peers self_id sg :
  HSS_inv (init_in_mem_storage total INIT_NODE INIT_NODE_HASH INIT_QC self_id peers sg).
Proof.
  split; [|done]. intros h n. simpl. intros [[<- <-]|[_ Hm]]%lookup_insert_Some; [done|].
  by rewrite lookup_empty in Hm.
Qed.

(** ** Three-chains *)

(** When the commit condition holds for the three-chain of a proposal, the chain
    consists of the stored proposals reached by following the certificates three times,
    each is the direct parent of the next by hash, and the proposal to be committed is the
    last of them. *)
Theorem HSS_three_chain_commit_rule s node chain b :
  chain = HSS_find_three_chain s node ->
  HSS_is_consecutive_three_chain s chain = true -> last chain = Some b ->
  exists b3 b2, chain = [b3; b2; b] /\
    HSS_get s (qc_node (node_justify node)) = Some b3 /\
    HSS_get s (qc_node (node_justify b3)) = Some b2 /\
    HSS_get s (qc_node (node_justify b2)) = Some b /\
    node_parent b3 = TreeNode_hash b2 /\ node_parent b2 = TreeNode_hash b.
Proof.
  intros ->. unfold HSS_find_three_chain.
  destruct (HSS_get s (qc_node (node_justify node))) as [b3|] eqn:E3; [|done].
  destruct (HSS_get s (qc_node (node_justify b3))) as [b2|] eqn:E2; [|done].
  destruct (HSS_get s (qc_node (node_justify b2))) as [b1|] eqn:E1; [|done].
  simpl. rewrite andb_true_iff, !bool_decide_eq_true. intros [H32 H21] [= ->].
  by exists b3, b2.
Qed.

(** ** Branches for synchronisation *)

#[local] Instance height_le_total : Total height_le.
Proof. intros a b. unfold height_le. lia. Qed.
#[local] Instance height_le_trans : Transitive height_le.
Proof. intros a b c. unfold height_le. lia. Qed.

(** fetch_branch always succeeds and returns the stored proposals above grow_from,
    all of them and nothing else, sorted by height; the batch size has no influence. *)
Theorem HSS_fetch_branch_spec s grow_from batch :
  exists bd, HSS_fetch_branch s (Grow grow_from batch) = Ok bd /\
    StronglySorted height_le (bd_data bd) /\
    (forall n, n ∈ bd_data bd <->
       grow_from < node_height n /\ exists h, hss_in_mem_queue s !! h = Some n) /\
    Z.of_nat (length (bd_data bd)) <= map_len (hss_in_mem_queue s).
Proof.
  eexists. split; [done|]. cbn [bd_data].
  set (v := filter _ _). split; [apply StronglySorted_merge_sort; apply _|]. split.
  - intros n. rewrite merge_sort_Permutation. unfold v.
    by rewrite list_elem_of_filter, elem_of_map_values.
  - rewrite merge_sort_Permutation, <-length_map_values. unfold v.
    pose proof (length_filter (fun n => grow_from < node_height n)
      (map_values (hss_in_mem_queue s))). lia.
Qed.
End HssSafety.
