(* ===== verification/HssWalk.v ===== *)
(** * The walk of [is_conflicting]

    [is_conflicting] follows parent hashes until it reaches the height of the lower
    proposal.  The source bounds that loop by nothing; here the number of stored
    proposals is shown to be enough fuel, so that [None] means the Rust loop never
    ends, and the answer is characterised by ancestry. *)

From S2P Require Import Prelude Walk Crypto HsData SafetyStorage LivenessData Persistor Hss HssSafety.

(** Paths of proposals along their parent hashes. *)
Abbreviation path := (walk_path node_height node_parent).

Section HssWalk.
Context `{TC : ThresholdCrypto} {C : Codec}.

Implicit Types (q : gmap NodeHash TreeNode) (n : TreeNode) (ks : list NodeHash).

(** The loop of [is_conflicting] is the generic one. *)
Lemma conflict_walk_walk fuel q bh n :
  conflict_walk fuel q bh n = walk node_height node_parent fuel q bh n.
Proof. reflexivity. Qed.

Lemma conflict_walk_path fuel q bh n e :
  conflict_walk fuel q bh n = Some e ->
  exists ks, path q bh n ks e /\ (length ks <= fuel)%nat.
Proof. rewrite conflict_walk_walk. apply walk_walk_path. Qed.

Lemma path_conflict_walk fuel q bh n ks e :
  path q bh n ks e -> (length ks <= fuel)%nat -> conflict_walk fuel q bh n = Some e.
Proof. rewrite conflict_walk_walk. apply walk_path_walk. Qed.

(** ** The loop of the source *)

(** One turn of [while height_now > b.height()]: the parent is found, and the loop goes on
    with it; an unknown parent ends the loop. *)
Definition walk_turn q (bh : Z) n n' : Prop := bh < node_height n /\ q !! node_parent n = Some n'.

Lemma path_turns q bh n ks e :
  path q bh n ks e -> rtc (walk_turn q bh) n e /\ forall n', ~ walk_turn q bh e n'.
Proof.
  induction 1 as [n Hl|n Hh Hq|n prev ks e Hh Hq _ [IH1 IH2]].
  - split; [apply rtc_refl|]. intros n' [? _]. lia.
  - split; [apply rtc_refl|]. intros n' [_ ?]. congruence.
  - split; [|done]. by eapply rtc_l.
Qed.

Lemma turns_path q bh n e :
  rtc (walk_turn q bh) n e -> (forall n', ~ walk_turn q bh e n') -> exists ks, path q bh n ks e.
Proof.
  induction 1 as [e|n n' e [Hh Hq] _ IH]; intros Hend.
  - exists []. destruct (Z.le_gt_cases (node_height e) bh); [by constructor|].
    destruct (q !! node_parent e) as [n'|] eqn:Hq; [|by constructor]. destruct (Hend n'). split; [lia|done].
  - destruct (IH Hend) as [ks Hp]. exists (node_parent n :: ks). by econstructor.
Qed.

(** C16. is_conflicting is the loop of the source, on any store: it answers exactly when
    the loop, which goes from a proposal above the height of the lower one to its stored
    parent, reaches a proposal it cannot go on from, and the answer is then whether that
    proposal has another hash than the lower one; it has no answer exactly when the loop
    can always go on, that is, when the source does not return. *)
Theorem HSS_is_conflicting_loop (s : HotstuffStorage) (a b : TreeNode) :
  let '(hi, lo) := if node_height b <=? node_height a then (a, b) else (b, a) in
  let turn := walk_turn (hss_in_mem_queue s) (node_height lo) in
  match HSS_is_conflicting s a b with
  | Some c => exists e, rtc turn hi e /\ (forall n, ~ turn e n) /\
      (c = false <-> TreeNode_hash e = TreeNode_hash lo)
  | None => forall e, rtc turn hi e -> exists n, turn e n
  end.
Proof.
  unfold HSS_is_conflicting. destruct (if _ <=? _ then _ else _) as [hi lo]. cbn zeta.
  destruct (conflict_walk _ _ _ _) as [e|] eqn:E.
  - apply conflict_walk_path in E as (ks & Hp & _). apply path_turns in Hp as [Hr Hend].
    exists e. split; [done|]. split; [done|]. rewrite bool_decide_eq_false.
    split; [apply dec_stable|auto].
  - intros e Hr. destruct (Z.lt_ge_cases (node_height lo) (node_height e)) as [Hlt|Hge];
      [destruct (hss_in_mem_queue s !! node_parent e) as [n|] eqn:Hq; [by exists n|]|];
      (destruct (turns_path _ _ _ _ Hr) as [ks Hp]; [intros n [? ?]; (lia || congruence)|];
       rewrite (path_conflict_walk _ _ _ _ _ _ Hp (path_length _ _ _ _ _ Hp)) in E; discriminate).
Qed.

(** ** Termination and meaning on well-formed trees *)

(** The parent of [n], when stored, is lower than [n]. *)
Definition lower_parent q n : Prop :=
  forall p, q !! node_parent n = Some p -> node_height p < node_height n.

Definition parents_lower q : Prop := forall h n, q !! h = Some n -> lower_parent q n.

Definition heights_nonneg q : Prop := forall h n, q !! h = Some n -> 0 <= node_height n.

(** No stored proposal, nor [a], collides with [b] at another height. *)
Definition no_collision q (a b : TreeNode) : Prop :=
  forall n, n = a \/ (exists h, q !! h = Some n) ->
    TreeNode_hash n = TreeNode_hash b -> node_height n = node_height b.

(** [b] is [a] or an ancestor of [a] among the stored proposals, by hash. *)
Inductive extends q : TreeNode -> TreeNode -> Prop :=
| extends_refl a b : TreeNode_hash a = TreeNode_hash b -> extends q a b
| extends_parent a p b : q !! node_parent a = Some p -> extends q p b -> extends q a b.

Lemma path_exists_stored q bh k n h :
  parents_lower q -> heights_nonneg q -> q !! h = Some n ->
  (Z.to_nat (node_height n) < k)%nat -> exists ks e, path q bh n ks e.
Proof.
  intros Hpl Hpos. revert n h. induction k as [|k IH]; intros n h Hn Hk; [lia|].
  destruct (Z.le_gt_cases (node_height n) bh); [by exists [], n; constructor|].
  destruct (q !! node_parent n) as [p|] eqn:Hp; [|by exists [], n; constructor].
  pose proof (Hpl _ _ Hn _ Hp). pose proof (Hpos _ _ Hp).
  destruct (IH p _ Hp) as (ks & e & Hpath); [lia|].
  exists (node_parent n :: ks), e. by econstructor.
Qed.

Lemma path_exists q bh n :
  parents_lower q -> heights_nonneg q -> exists ks e, path q bh n ks e.
Proof.
  intros Hpl Hpos.
  destruct (Z.le_gt_cases (node_height n) bh); [by exists [], n; constructor|].
  destruct (q !! node_parent n) as [p|] eqn:Hp; [|by exists [], n; constructor].
  destruct (path_exists_stored q bh _ p _ Hpl Hpos Hp (Nat.lt_succ_diag_r _))
    as (ks & e & Hpath).
  exists (node_parent n :: ks), e. by econstructor.
Qed.

Lemma path_extends q bh n ks e : path q bh n ks e -> extends q n e.
Proof. induction 1; [by constructor..|]. by econstructor. Qed.

Lemma extends_hash q a b b' : extends q a b -> TreeNode_hash b = TreeNode_hash b' -> extends q a b'.
Proof.
  intros H Hb. induction H as [a b He|a p b Hp H IH]; [constructor; congruence|].
  eapply extends_parent; [exact Hp|auto].
Qed.

(** The walk from a proposal that extends [b] stops at [b]. *)
Lemma extends_path q a b ks e :
  parents_lower q -> lower_parent q a -> no_collision q a b ->
  extends q a b -> path q (node_height b) a ks e ->
  node_height b <= node_height a /\ TreeNode_hash e = TreeNode_hash b.
Proof.
  intros Hpl Hlow Hcol H. revert ks e Hlow Hcol.
  induction H as [a b He|a p b Hp H IH]; intros ks e Hlow Hcol Hpath.
  - assert (node_height a = node_height b) by eauto.
    destruct Hpath; [split; [lia|done]|lia|lia].
  - assert (Hrec : forall ks e, path q (node_height b) p ks e ->
      node_height b <= node_height p /\ TreeNode_hash e = TreeNode_hash b).
    { intros ks' e' Hp'. apply (IH ks' e'); [eauto| |done].
      intros n [->|Hn]; eauto. }
    assert (Hpb : node_height p < node_height a) by eauto.
    destruct Hpath as [a Hl|a Hl Hq|a p' ks e Hl Hq Hpath]; simplify_eq.
    + destruct (Z.le_gt_cases (node_height b) (node_height p)); [lia|].
      destruct (Hrec [] p); [constructor; lia|lia].
    + destruct (Hrec _ _ Hpath). split; [lia|done].
Qed.

(** On such a store the walk decides ancestry. *)
Lemma is_conflicting_extends (s : HotstuffStorage) (hi lo : TreeNode) :
  let q := hss_in_mem_queue s in
  parents_lower q -> heights_nonneg q -> lower_parent q hi -> no_collision q hi lo ->
  node_height lo <= node_height hi ->
  exists c, HSS_is_conflicting s hi lo = Some c /\ (c = false <-> extends q hi lo) /\
    (node_height lo < node_height hi -> HSS_is_conflicting s lo hi = Some c).
Proof.
  intros q Hpl Hpos Hlow Hcol Hle. unfold HSS_is_conflicting.
  destruct (Z.leb_spec (node_height lo) (node_height hi)); [|lia].
  destruct (path_exists q (node_height lo) hi Hpl Hpos) as (ks & e & Hpath).
  unfold q in *. rewrite (path_conflict_walk _ _ _ _ _ _ Hpath (path_length _ _ _ _ _ Hpath)).
  eexists. split; [done|]. split.
  - rewrite bool_decide_eq_false. split.
    + intros Hd. apply dec_stable in Hd. eauto using path_extends, extends_hash.
    + intros He. by destruct (extends_path _ _ _ _ _ Hpl Hlow Hcol He Hpath) as [_ ->]; auto.
  - intros Hlt. destruct (Z.leb_spec (node_height hi) (node_height lo)); [lia|].
    by rewrite (path_conflict_walk _ _ _ _ _ _ Hpath (path_length _ _ _ _ _ Hpath)).
Qed.

(** C15. On a store whose parents are lower than their children and without hash
    collisions with the lower proposal, is_conflicting always answers, and it answers no
    exactly when the lower proposal is the higher one or one of its stored ancestors,
    whichever way round the two are passed. *)
Theorem HSS_is_conflicting_spec (s : HotstuffStorage) (hi lo : TreeNode) :
  let q := hss_in_mem_queue s in
  parents_lower q -> heights_nonneg q -> lower_parent q hi -> no_collision q hi lo ->
  node_height lo <= node_height hi ->
  exists c, HSS_is_conflicting s hi lo = Some c /\ (c = false <-> extends q hi lo) /\
    (node_height lo < node_height hi -> HSS_is_conflicting s lo hi = Some c).
Proof. apply is_conflicting_extends. Qed.
End HssWalk.
