(* ===== verification/HssReach.v ===== *)
(** * What the store holds along the events of a replica

    The store never drops a hash; the leaf, the lock, the last commit and [qc_high]
    always refer to proposals it has, and whatever the events stored waits in the queues
    of dirty data.  This is less than the documentation of [HotstuffStorage] promises
    (no certificate is lost once received): [HssProposal] states what is not kept. *)

From S2P Require Import Prelude Crypto HsData CryptoKit Voter SafetyStorage Machine.
From S2P Require Import MachineInvariant LivenessData Persistor Hss HssSafety.

Section HssReach.
Context `{TC : ThresholdCrypto} {C : Codec}.

Implicit Types (s : HotstuffStorage) (n b : TreeNode) (qc : GenericQC).

(** Everything the state refers to is in the store. *)
Record HSS_wf s : Prop := {
  wf_inv : HSS_inv s;
  wf_leaf : known s (HSS_get_leaf s);
  wf_qc_high : is_Some (HSS_get s (qc_node (HSS_get_qc_high s)));
  wf_locked : known s (HSS_get_locked_node s);
  wf_commit : known s (HSS_get_last_committed s);
}.

(** [s] came from [s0] without losing a hash, and what is new is queued. *)
Record HSS_tracked (s0 s : HotstuffStorage) : Prop := {
  tr_dom h : is_Some (HSS_get s0 h) -> is_Some (HSS_get s h);
  tr_props h n : HSS_get s h = Some n -> HSS_get s0 h = Some n \/ n ∈ hss_prop_queue s;
  tr_prefix : hss_prop_queue s0 `prefix_of` hss_prop_queue s;
  tr_justify : hss_justify_queue s0 `prefix_of` hss_justify_queue s;
  tr_qc : HSS_get_qc_high s = HSS_get_qc_high s0 \/ HSS_get_qc_high s ∈ hss_justify_queue s;
  tr_dirty : hss_dirty s = true \/ s = s0;
}.

Lemma HSS_insert_get s k n h :
  HSS_get (HSS_insert s k n) h = if decide (k = h) then Some n else HSS_get s h.
Proof. unfold HSS_get. simpl. by rewrite lookup_insert. Qed.

Lemma HSS_insert_known s k n b : known s b -> known (HSS_insert s k n) b.
Proof.
  unfold known. cbn [get_node HSS_SafetyStorage]. unfold HSS_get_node.
  rewrite HSS_insert_get. by case_decide.
Qed.

Lemma HSS_insert_known_self s n : known (HSS_insert s (TreeNode_hash n) n) n.
Proof.
  unfold known. cbn [get_node HSS_SafetyStorage]. unfold HSS_get_node.
  rewrite HSS_insert_get. by case_decide.
Qed.

Lemma HSS_chain_known s n b : HSS_inv s -> b ∈ HSS_find_three_chain s n -> known s b.
Proof.
  intros [Hk _] Hb. assert (exists h, HSS_get s h = Some b) as [h Hh].
  { unfold HSS_find_three_chain in Hb.
    repeat (case_match; [|by apply elem_of_nil in Hb]; apply elem_of_cons in Hb as [->|Hb]; eauto).
    by apply elem_of_nil in Hb. }
  change (is_Some (HSS_get s (TreeNode_hash b))). by rewrite (Hk _ _ Hh), Hh.
Qed.

Lemma HSS_update_qc_high_cases s n qc :
  HSS_update_qc_high s n qc = s \/
  HSS_update_qc_high s n qc =
    HSS_set_dirty (HSS_append_new_qc
      (HSS_update_leaf (set_state (state_with_qc_high (hss_state s) qc) s) n) qc).
Proof.
  unfold HSS_update_qc_high. destruct (HSS_get _ _); [|auto]. destruct (_ <? _); auto.
Qed.

(** ** Well-formedness *)

Lemma HSS_wf_append_new_node s n : HSS_wf s -> HSS_wf (HSS_append_new_node s n).
Proof.
  intros []. split; try by apply HSS_insert_known.
  - by apply HSS_inv_append_new_node.
  - unfold HSS_append_new_node. cbn -[HSS_get HSS_insert].
    change (HSS_get (HSS_set_dirty ?x)) with (HSS_get x). rewrite HSS_insert_get.
    by case_decide.
Qed.

Lemma HSS_wf_update_leaf s n : HSS_wf s -> HSS_wf (HSS_update_leaf s n).
Proof.
  intros []. split.
  - by apply HSS_inv_update_leaf.
  - apply HSS_insert_known_self.
  - change (HSS_get (HSS_update_leaf s n)) with (HSS_get (HSS_insert s (TreeNode_hash n) n)).
    rewrite HSS_insert_get. by case_decide.
  - by apply (HSS_insert_known (set_state (state_with_leaf (hss_state s) n) s)).
  - by apply (HSS_insert_known (set_state (state_with_leaf (hss_state s) n) s)).
Qed.

Lemma HSS_wf_update_qc_high s n qc :
  HSS_wf s -> is_Some (HSS_get s (qc_node qc)) -> HSS_wf (HSS_update_qc_high s n qc).
Proof.
  intros Hwf Hqc. destruct (HSS_update_qc_high_cases s n qc) as [->| ->]; [done|].
  assert (H1 : HSS_wf (set_state (state_with_qc_high (hss_state s) qc) s)).
  { destruct Hwf. split; try done. by destruct wf_inv0. }
  apply HSS_wf_update_leaf with (n := n) in H1. destruct H1. split; try done.
  by destruct wf_inv0.
Qed.

Lemma HSS_wf_commit s n : HSS_wf s -> known s n -> HSS_wf (HSS_commit s n).
Proof.
  intros [] Hn. pose proof (HSS_inv_commit s n wf_inv0) as Hi.
  unfold HSS_commit in *. destruct (node_height n <=? _); by split.
Qed.

#[global] Instance HSS_wf_StoreInvariant : StoreInvariant HSS_wf any_node any_qc.
Proof.
  split; try done.
  - by intros s [].
  - intros s n b [Hi _ _ _ _] Hb. split; [by apply (HSS_chain_known s n)|done].
  - intros s n b. simpl. unfold HSS_find_three_chain, HSS_get_node.
    destruct (HSS_get s (qc_node (node_justify n))); [done|]. done.
  - intros s n qc b Hb. simpl. destruct (HSS_update_qc_high_cases s n qc) as [->| ->]; [done|].
    by apply (HSS_insert_known (set_state (state_with_leaf (hss_state s) n) s)).
  - intros s n Hs _. by apply HSS_wf_append_new_node.
  - intros s qc [] _. split; try done. by destruct wf_inv0.
  - intros s n qc Hs _ _. by apply HSS_wf_update_qc_high.
  - intros s n Hs _. by apply HSS_wf_update_leaf.
  - intros s n [] _. split; try done. by destruct wf_inv0.
  - intros s b [] _ Hb. split; try done. by destruct wf_inv0.
  - intros s b Hs _. by apply HSS_wf_commit.
Qed.

(** ** Tracking *)

(** Operations that change neither the proposals nor the queues nor [qc_high]. *)
Lemma HSS_tracked_frame s0 s s' :
  HSS_tracked s0 s -> hss_in_mem_queue s' = hss_in_mem_queue s ->
  hss_prop_queue s' = hss_prop_queue s -> hss_justify_queue s `prefix_of` hss_justify_queue s' ->
  HSS_get_qc_high s' = HSS_get_qc_high s -> hss_dirty s' = true -> HSS_tracked s0 s'.
Proof.
  intros [Hd Hp Hpre Hj Hq _] Eq Ep [l Ej] Eqc Edirty.
  split; unfold HSS_get in *; rewrite ?Eq, ?Ep, ?Ej, ?Eqc; auto; [by apply prefix_app_r|].
  destruct Hq as [?|?]; [by left|right]. apply elem_of_app. by left.
Qed.

Lemma HSS_tracked_insert s0 s n :
  HSS_tracked s0 s -> hss_dirty (HSS_insert s (TreeNode_hash n) n) = true ->
  HSS_tracked s0 (HSS_insert s (TreeNode_hash n) n).
Proof.
  intros [Hd Hp [l Hl] Hj Hq _] Hdirty. split; [..|by left].
  - intros h Hh. rewrite HSS_insert_get. case_decide; [done|auto].
  - intros h b. rewrite HSS_insert_get. case_decide.
    + intros [= ->]. right. simpl. apply elem_of_app. right. by apply list_elem_of_singleton.
    + intros [?|?]%Hp; [by left|right]. simpl. apply elem_of_app. by left.
  - exists (l ++ [n]). simpl. by rewrite Hl, app_assoc.
  - done.
  - done.
Qed.

Lemma HSS_tracked_append_new_node s0 s n :
  HSS_tracked s0 s -> HSS_tracked s0 (HSS_append_new_node s n).
Proof.
  intros H. apply (HSS_tracked_insert s0 (HSS_set_dirty s)); [|done].
  by apply (HSS_tracked_frame s0 s).
Qed.

Lemma HSS_tracked_update_leaf s0 s n :
  HSS_tracked s0 s -> HSS_tracked s0 (HSS_update_leaf s n).
Proof.
  intros H.
  apply (HSS_tracked_insert s0 (HSS_set_dirty (set_state (state_with_leaf (hss_state s) n) s)));
    [|done].
  by apply (HSS_tracked_frame s0 s).
Qed.

Lemma HSS_tracked_update_qc_high s0 s n qc :
  HSS_tracked s0 s -> HSS_tracked s0 (HSS_update_qc_high s n qc).
Proof.
  intros H. destruct (HSS_update_qc_high_cases s n qc) as [->| ->]; [done|].
  apply (HSS_tracked_update_leaf _ _ n) in H. destruct H as [Hd Hp Hl Hj _ _].
  split; [done|done|done|by apply prefix_app_r| |by left]. right. simpl.
  apply elem_of_app. right. by apply list_elem_of_singleton.
Qed.

Lemma HSS_tracked_commit s0 s n : HSS_tracked s0 s -> HSS_tracked s0 (HSS_commit s n).
Proof.
  intros H. unfold HSS_commit. destruct (_ <=? _); [done|]. by apply (HSS_tracked_frame s0 s).
Qed.

#[local] Instance HSS_tracked_StoreInvariant s0 :
  StoreInvariant (fun s => HSS_wf s /\ HSS_tracked s0 s) any_node any_qc.
Proof.
  destruct HSS_wf_StoreInvariant. split; try done.
  - intros s [??]. auto.
  - intros s n b [??]. eauto.
  - intros s n [??] ?. split; [eauto|]. by apply HSS_tracked_append_new_node.
  - intros s qc [??] ?. split; [eauto|]. apply (HSS_tracked_frame s0 s); try done.
    by exists [qc].
  - intros s n qc [??] ???. split; [eauto|]. by apply HSS_tracked_update_qc_high.
  - intros s n [??] ?. split; [eauto|]. by apply HSS_tracked_update_leaf.
  - intros s n [??] ?. split; [eauto|]. by apply (HSS_tracked_frame s0 s).
  - intros s b [??] ??. split; [eauto|]. by apply (HSS_tracked_frame s0 s).
  - intros s b [??] ??. split; [eauto|]. by apply HSS_tracked_commit.
Qed.

Lemma HSS_tracked_refl s : HSS_tracked s s.
Proof. split; auto. Qed.

(** C9. Over any run of events on a well-formed HotstuffStorage: the leaf, the lock, the
    last commit and the node of qc_high are always stored proposals, no stored hash
    disappears, every stored proposal that is new or replaced is in the queue to be
    flushed, a new qc_high is in the queue of certificates, nothing is taken out of these
    queues, and the dirty flag is set whenever the store changed. (The documentation of
    HotstuffStorage promises more, see the findings.) *)
Theorem HSS_machine_tracks_changes (m m' : Machine HotstuffStorage) reqs rs :
  HSS_wf (m_storage m) -> Machine_run m reqs = Ret (m', rs) ->
  HSS_wf (m_storage m') /\ HSS_tracked (m_storage m) (m_storage m').
Proof.
  intros Hwf Hrun.
  apply (Machine_run_inv (fun s => HSS_wf s /\ HSS_tracked (m_storage m) s) any_node any_qc
           m reqs m' rs); [|apply event_ok_any|done].
  split; [done|apply HSS_tracked_refl].
Qed.

(** A fresh in-memory store is well formed. *)
Lemma HSS_wf_init total peers self_id sg :
  HSS_wf (init_in_mem_storage total INIT_NODE INIT_NODE_HASH INIT_QC self_id peers sg).
Proof.
  split; [apply HSS_inv_init|..];
    unfold known; simpl; unfold HSS_get_node, HSS_get; simpl; by rewrite lookup_insert_eq.
Qed.
End HssReach.
