(* ===== verification/HssProposal.v ===== *)
(** * What a proposal does to the store

    The handler of a proposal over [HotstuffStorage], described by what is in the store
    before and after: which proposals are stored, what [qc_high], leaf and vote height
    become, and when lock and last commit move. *)

From S2P Require Import Prelude Crypto HsData CryptoKit Voter SafetyStorage Machine.
From S2P Require Import MachineSafety LivenessData Persistor Hss HssSafety HssReach.

Section HssProposal.
Context `{TC : ThresholdCrypto} {C : Codec}.

Implicit Types (s : HotstuffStorage) (n p b : TreeNode) (m : Machine HotstuffStorage)
  (q : gmap NodeHash TreeNode).

(** ** The effect of the certificates *)

(** The stored proposal that the certificate of [n] names. *)
Definition certified_by q n : option TreeNode := q !! qc_node (node_justify n).

(** The proposal that becomes the leaf: the one certified by [p], if it is higher than the
    one [qc] names. *)
Definition raised_leaf q (qc : GenericQC) p : option TreeNode :=
  hq ← q !! qc_node qc;
  b3 ← certified_by q p;
  if node_height hq <? node_height b3 then Some b3 else None.

(** The proposal that becomes the lock: two certificates below [p], if it is higher. *)
Definition new_lock q (lock : TreeNode) p : option TreeNode :=
  b3 ← certified_by q p;
  b2 ← certified_by q b3;
  if node_height lock <? node_height b2 then Some b2 else None.

(** The proposal that is committed: three certificates below [p], the parent of the parent
    of the first of them, if it is higher. *)
Definition new_commit q (commit : TreeNode) p : option TreeNode :=
  b3 ← certified_by q p;
  b2 ← certified_by q b3;
  b1 ← certified_by q b2;
  if bool_decide (node_parent b3 = TreeNode_hash b2) && bool_decide (node_parent b2 = TreeNode_hash b1) &&
     (node_height commit <? node_height b1)
  then Some b1 else None.

(** From [s] to [s'], when the proposals stored are [q] and the vote height is [vh] before
    the certificates of [p] are looked at. *)
Record certificates_taken q (vh : Z) s s' p : Prop := {
  ct_stored : hss_in_mem_queue s' = q;
  ct_qc_high : HSS_get_qc_high s' =
    match raised_leaf q (HSS_get_qc_high s) p with
    | Some _ => node_justify p
    | None => HSS_get_qc_high s
    end;
  ct_leaf : HSS_get_leaf s' = default (HSS_get_leaf s) (raised_leaf q (HSS_get_qc_high s) p);
  ct_vheight : HSS_get_vheight s' =
    from_option node_height vh (raised_leaf q (HSS_get_qc_high s) p);
  ct_lock : HSS_get_locked_node s' =
    default (HSS_get_locked_node s) (new_lock q (HSS_get_locked_node s) p);
  ct_commit : HSS_get_last_committed s' =
    default (HSS_get_last_committed s) (new_commit q (HSS_get_last_committed s) p);
  ct_view : HSS_get_view s' = HSS_get_view s;
  ct_justify_queue : hss_justify_queue s' = hss_justify_queue s ++
    match raised_leaf q (HSS_get_qc_high s) p with Some _ => [node_justify p] | None => [] end;
}.

Lemma qc_step_taken m p :
  HSS_inv (m_storage m) ->
  let s := m_storage m in let s' := m_storage (qc_step m p) in
  let raised := raised_leaf (hss_in_mem_queue s) (HSS_get_qc_high s) p in
  hss_in_mem_queue s' = hss_in_mem_queue s /\
  HSS_get_qc_high s' = match raised with Some _ => node_justify p | None => HSS_get_qc_high s end /\
  HSS_get_leaf s' = default (HSS_get_leaf s) raised /\
  HSS_get_vheight s' = from_option node_height (HSS_get_vheight s) raised /\
  HSS_get_locked_node s' = HSS_get_locked_node s /\
  HSS_get_last_committed s' = HSS_get_last_committed s /\ HSS_get_view s' = HSS_get_view s /\
  hss_justify_queue s' = hss_justify_queue s ++
    match raised with Some _ => [node_justify p] | None => [] end /\
  HSS_inv s'.
Proof.
  intros [Hk Hc]. cbn zeta. unfold qc_step, raised_leaf, certified_by.
  cbn [find_three_chain HSS_SafetyStorage]. unfold HSS_find_three_chain, HSS_get.
  destruct (hss_in_mem_queue (m_storage m) !! qc_node (node_justify p)) as [b3|] eqn:E3;
    [|destruct (_ !! qc_node (HSS_get_qc_high (m_storage m))); cbn; by rewrite app_nil_r].
  cbn [lookup list_lookup m_storage set_storage update_qc_high HSS_SafetyStorage]. unfold HSS_update_qc_high, HSS_get.
  destruct (hss_in_mem_queue (m_storage m) !! qc_node (HSS_get_qc_high (m_storage m))) as [hq|];
    [|cbn; by rewrite app_nil_r].
  cbn [mbind option_bind]. destruct (_ <? _); [|cbn; by rewrite app_nil_r]. split_and!; try done.
  - cbn. rewrite (Hk _ _ E3). by apply insert_id.
  - split; [|done]. intros h n. cbn. intros [[<- <-]|[_ Hn]]%lookup_insert_Some; [done|by apply Hk].
Qed.

(** Equal up to lock and last commit. *)
Record same_but_commit s s' : Prop := {
  sb_stored : hss_in_mem_queue s' = hss_in_mem_queue s;
  sb_qc_high : HSS_get_qc_high s' = HSS_get_qc_high s;
  sb_leaf : HSS_get_leaf s' = HSS_get_leaf s;
  sb_vheight : HSS_get_vheight s' = HSS_get_vheight s;
  sb_view : HSS_get_view s' = HSS_get_view s;
  sb_justify_queue : hss_justify_queue s' = hss_justify_queue s;
}.

#[local] Instance same_but_commit_preorder : PreOrder same_but_commit.
Proof. split; [by split|]. intros s1 s2 s3 [] []. split; congruence. Qed.

(** The remaining equations of a step that leaves the store, or all but one field of it. *)
Ltac keep_store := split_and!; try done; by split.

Lemma lock_step_taken m p m0 :
  HSS_inv (m_storage m) -> hss_in_mem_queue (m_storage m) = hss_in_mem_queue (m_storage m0) ->
  let m' := lock_step m (HSS_find_three_chain (m_storage m0) p !! 1%nat) in
  m' = set_storage m (m_storage m') /\ same_but_commit (m_storage m) (m_storage m') /\
  HSS_get_locked_node (m_storage m') = default (HSS_get_locked_node (m_storage m))
    (new_lock (hss_in_mem_queue (m_storage m0)) (HSS_get_locked_node (m_storage m)) p) /\
  HSS_get_last_committed (m_storage m') = HSS_get_last_committed (m_storage m) /\ HSS_inv (m_storage m').
Proof.
  intros Hi Hq. cbn zeta. unfold lock_step, new_lock, certified_by, HSS_find_three_chain, HSS_get.
  destruct (hss_in_mem_queue (m_storage m0) !! _) as [b3|]; cbn [mbind option_bind lookup list_lookup];
    [|split; [by destruct m|]; by keep_store].
  destruct (hss_in_mem_queue (m_storage m0) !! _) as [b2|]; cbn [mbind option_bind lookup list_lookup];
    [|split; [by destruct m|]; by keep_store].
  cbn [get_locked_node HSS_SafetyStorage].
  destruct (_ <? _); [|split; [by destruct m|]; by keep_store].
  split; [done|]. destruct Hi. by keep_store.
Qed.

Lemma commit_step_taken m p m0 m' rd :
  HSS_inv (m_storage m) ->
  (if HSS_is_consecutive_three_chain (m_storage m) (HSS_find_three_chain (m_storage m0) p)
   then b ← unwrap (last (HSS_find_three_chain (m_storage m0) p)); Ret (Machine_on_commit m b)
   else Ret (m, Ok Nil)) = Ret (m', rd) ->
  m' = set_storage m (m_storage m') /\ same_but_commit (m_storage m) (m_storage m') /\
  HSS_get_locked_node (m_storage m') = HSS_get_locked_node (m_storage m) /\
  HSS_get_last_committed (m_storage m') = default (HSS_get_last_committed (m_storage m))
    (new_commit (hss_in_mem_queue (m_storage m0)) (HSS_get_last_committed (m_storage m)) p).
Proof.
  intros [_ Hh] H. unfold new_commit, certified_by, HSS_find_three_chain, HSS_get in *.
  destruct (hss_in_mem_queue (m_storage m0) !! _) as [b3|]; cbn [mbind option_bind];
    [|cbn in H; injection H as <- <-; split; [by destruct m|]; by keep_store].
  destruct (hss_in_mem_queue (m_storage m0) !! _) as [b2|]; cbn [mbind option_bind];
    [|cbn in H; injection H as <- <-; split; [by destruct m|]; by keep_store].
  destruct (hss_in_mem_queue (m_storage m0) !! _) as [b1|]; cbn [mbind option_bind];
    [|cbn in H; injection H as <- <-; split; [by destruct m|]; by keep_store].
  cbn [HSS_is_consecutive_three_chain] in H.
  destruct (bool_decide _ && bool_decide _); cbn [andb];
    [|cbn in H; injection H as <- <-; split; [by destruct m|]; by keep_store].
  cbn [last unwrap mbind outcome_bind] in H. unfold Machine_on_commit in H. injection H as <- _.
  cbn [m_storage set_storage commit HSS_SafetyStorage]. split; [done|]. unfold HSS_commit. rewrite Hh.
  unfold HSS_get_last_committed.
  destruct (Z.leb_spec (node_height b1) (node_height (st_last_commit (hss_state (m_storage m)))));
    destruct (Z.ltb_spec (node_height (st_last_commit (hss_state (m_storage m)))) (node_height b1));
    try lia; by keep_store.
Qed.

(** [update_nodes] takes the certificates. *)
Lemma update_nodes_taken m p m' rd :
  HSS_inv (m_storage m) -> Machine_update_nodes m p = Ret (m', rd) ->
  m' = set_storage m (m_storage m') /\
  certificates_taken (hss_in_mem_queue (m_storage m)) (HSS_get_vheight (m_storage m))
    (m_storage m) (m_storage m') p.
Proof.
  intros Hi. rewrite update_nodes_unfold. cbn zeta. intros H.
  destruct (qc_step_taken m p Hi) as (Qs & Qq & Ql & Qv & Qk & Qc & Qw & Qj & Qi).
  assert (Hm1 : qc_step m p = set_storage m (m_storage (qc_step m p)))
    by (unfold qc_step; destruct (_ !! _); by destruct m).
  destruct (lock_step_taken (qc_step m p) p m Qi Qs) as (Hm2 & [Ls Lq Ll Lv Lw Lj] & Lk & Lc & Li).
  change (lock_step (qc_step m p) (HSS_find_three_chain (m_storage m) p !! 1%nat))
    with (locked_step m p) in *.
  destruct (commit_step_taken _ _ _ _ _ Li H) as (Hm3 & [Cs Cq Cl Cv Cw Cj] & Ck & Cc).
  split.
  - rewrite Hm3, Hm2, Hm1. done.
  - rewrite Qk in Lk. rewrite Lc, Qc in Cc. split; congruence.
Qed.

(** ** The handler of a proposal *)

Lemma append_queue m p :
  hss_in_mem_queue (m_storage (Machine_append m p)) = <[TreeNode_hash p:=p]> (hss_in_mem_queue (m_storage m)).
Proof. done. Qed.

Lemma append_vheight m p :
  HSS_get_vheight (m_storage (Machine_append m p)) = Z.max (HSS_get_vheight (m_storage m)) (node_height p).
Proof. done. Qed.

(** The certificate of [p] names the stored [prev] and verifies on it. *)
Definition certificate_valid m p prev : bool :=
  GenericQC_is_init_qc (node_justify p) ||
  pk_verify (ds_pks (v_signature (m_voter m))) (qc_combined_sign (node_justify p)) (TreeNode_to_be_bytes prev).

(** C4. Every branch of the handler of a proposal over HotstuffStorage, by what the store
    holds before and after. If the certificate does not name a stored proposal, or neither
    verifies on it nor passes for the initial one, the answer is CorruptedQC and the store
    is unchanged. Otherwise the replica votes exactly when the proposal is above the vote
    height and either does not conflict with the lock or is justified above it; the answer
    is then its share on the proposal, and the proposal is stored and its height becomes
    the vote height, while without a vote nothing is stored and the answer is empty. In
    both cases the certificates are then taken: qc_high and the leaf move to the certified
    proposal, and the vote height to its height, exactly when it is higher than the one
    qc_high names; the lock moves to the proposal two certificates below and the last
    commit to the one three certificates below (with matching parents) exactly when they
    are higher; the view stays; and only a certificate that raised qc_high is queued for
    the database. *)
Theorem HSS_recv_proposal_spec m ctx p m' r :
  HSS_inv (m_storage m) -> Machine_process_safety_event m (RecvProposal ctx p) = Ret (m', r) ->
  let s := m_storage m in
  let q := hss_in_mem_queue s in
  m' = set_storage m (m_storage m') /\
  match certified_by q p with
  | Some prev =>
      if certificate_valid m p prev then
        exists vote : bool,
          (vote = true <->
             HSS_get_vheight s < node_height p /\
             (HSS_is_conflicting s p (HSS_get_locked_node s) = Some false \/
              node_height (HSS_get_locked_node s) < node_height prev)) /\
          r = (if vote
               then Ok (Signature (Context_single (m_self_id m) (ctx_from ctx) (HSS_get_view s)) p
                          (SignKit_from (sk_sign (ds_sks (v_signature (m_voter m))) (TreeNode_to_be_bytes p),
                                         ds_sign_id (v_signature (m_voter m)))))
               else Ok Nil) /\
          certificates_taken (if vote then <[TreeNode_hash p:=p]> q else q)
            (if vote then node_height p else HSS_get_vheight s) s (m_storage m') p
      else r = Err CorruptedQC /\ m_storage m' = s
  | None => r = Err CorruptedQC /\ m_storage m' = s
  end.
Proof.
  intros Hi H s q.
  assert (Hacc : qc_accepted m (node_justify p) <->
    exists prev, certified_by q p = Some prev /\ certificate_valid m p prev = true).
  { unfold qc_accepted, certificate_valid. split; intros (prev & Hg & Hv); exists prev;
      (split; [exact Hg|]); rewrite orb_true_iff in *; exact Hv. }
  destruct (recv_proposal_cases HSS_inv m ctx p m' r H)
    as [(Hq & -> & ->)|(Hq & prev & Hg & Hcase)].
  { split; [by destruct m|]. destruct (certified_by q p) as [prev|] eqn:Ec; [|done].
    destruct (certificate_valid m p prev) eqn:Ev; [|done]. destruct Hq. apply Hacc. eauto. }
  apply Hacc in Hq as (prev' & Ec & Ev). change (certified_by q p = Some prev) in Hg. rewrite Ec in Hg. injection Hg as ->.
  rewrite Ec, Ev. destruct Hcase as [(Hv & -> & rd & Hu)|(Hv & -> & rd & Hu)].
  - apply update_nodes_taken in Hu as [Hm Ht].
    + split; [exact Hm|]. exists true. split; [done|]. split; [done|].
      rewrite append_vheight, append_queue in Ht. destruct Hv as [Hvh _].
      rewrite Z.max_r in Ht by (cbn in Hvh; lia). destruct Ht. by split.
    + apply HSS_inv_append_new_node with (n := p) in Hi. by destruct Hi.
  - apply update_nodes_taken in Hu as [Hm Ht]; [|done]. split; [exact Hm|]. exists false.
    split; [split; [done|intros Hv'; by destruct Hv]|]. by split.
Qed.
End HssProposal.
