(* ===== verification/HssTotal.v ===== *)
(** * A replica answers every event

    The only loop of the machine that could run for ever is the walk along parent
    hashes.  It ends whenever the stored proposals have no cycle of parents: a rank
    on hashes that falls from a proposal to its parent.  (A cycle would be a cycle
    of SHA-256 digests.) *)

From S2P Require Import Prelude Walk Crypto HsData CryptoKit Voter SafetyStorage Machine.
From S2P Require Import MachineSafety MachineSync LivenessData Persistor Hss HssSafety HssWalk.
From S2P Require Import HssReach.

Section HssTotal.
Context `{TC : ThresholdCrypto} {C : Codec}.

Implicit Types (s : HotstuffStorage) (n p : TreeNode) (m : Machine HotstuffStorage).

Context (rank : NodeHash -> nat).

(** The rank falls from the hash of [p] to its parent. *)
Definition ranked_node p : Prop := (rank (node_parent p) < rank (TreeNode_hash p))%nat.

Record ranked s : Prop := {
  rk_inv : HSS_inv s;
  rk_nodes h n : HSS_get s h = Some n -> ranked_node n;
}.

Lemma ranked_path s bh n : ranked s -> exists ks e, path (hss_in_mem_queue s) bh n ks e.
Proof.
  intros [[Hkeys _] Hr]. apply (path_exists_measure _ _ _ _ rank). intros k p Hp.
  pose proof (Hr _ _ Hp) as Hlt. unfold ranked_node in Hlt. by rewrite (Hkeys _ _ Hp) in Hlt.
Qed.

Lemma ranked_is_conflicting s a b : ranked s -> exists c, HSS_is_conflicting s a b = Some c.
Proof.
  intros Hr. unfold HSS_is_conflicting.
  destruct (if node_height b <=? node_height a then (a, b) else (b, a)) as [hi lo].
  destruct (ranked_path s (node_height lo) hi Hr) as (ks & e & Hpath).
  rewrite (path_conflict_walk _ _ _ _ _ _ Hpath (path_length _ _ _ _ _ Hpath)). eauto.
Qed.

Lemma ranked_accepts m p prev : ranked (m_storage m) -> exists b, Machine_accepts m p prev = Ret b.
Proof.
  intros Hr. unfold Machine_accepts, Machine_safe_node. destruct (_ <? _); [|eauto].
  destruct (ranked_is_conflicting (m_storage m) p (HSS_get_locked_node (m_storage m)) Hr) as [c Hc].
  cbn [is_conflicting get_locked_node HSS_SafetyStorage]. rewrite Hc. simpl. eauto.
Qed.

(** ** The rank along the operations *)

Lemma ranked_insert s n :
  ranked s -> ranked_node n -> forall h p, HSS_get (HSS_insert s (TreeNode_hash n) n) h = Some p ->
  ranked_node p.
Proof.
  intros [_ Hr] Hn h p. rewrite HSS_insert_get. case_decide; [by intros [= <-]|apply Hr].
Qed.

Lemma ranked_append m p :
  ranked (m_storage m) -> ranked_node p -> ranked (m_storage (Machine_append m p)).
Proof.
  intros Hr Hp. split.
  - pose proof (HSS_inv_append_new_node (m_storage m) p (rk_inv _ Hr)) as Hi. by destruct Hi.
  - exact (ranked_insert _ _ Hr Hp).
Qed.

Lemma ranked_update_qc_high s n qc : ranked s -> ranked_node n -> ranked (HSS_update_qc_high s n qc).
Proof.
  intros Hr Hn. split; [by apply HSS_inv_update_qc_high, Hr|].
  destruct (HSS_update_qc_high_cases s n qc) as [->| ->]; [apply Hr|].
  exact (ranked_insert _ _ Hr Hn).
Qed.

Lemma ranked_update_nodes m p m' r :
  ranked (m_storage m) -> Machine_update_nodes m p = Ret (m', r) -> ranked (m_storage m').
Proof.
  intros Hr. rewrite update_nodes_unfold. cbn zeta.
  assert (Hq : ranked (m_storage (qc_step m p))).
  { unfold qc_step. destruct (find_three_chain (m_storage m) p !! 0%nat) as [b|] eqn:E; [|done].
    apply ranked_update_qc_high; [done|]. cbn [find_three_chain HSS_SafetyStorage] in E.
    unfold HSS_find_three_chain in E.
    destruct (HSS_get (m_storage m) (qc_node (node_justify p))) as [b3|] eqn:Eg; [|done].
    injection E as <-. exact (rk_nodes _ Hr _ _ Eg). }
  assert (Hl : ranked (m_storage (locked_step m p))).
  { unfold locked_step, lock_step. destruct (_ !! 1%nat); [|done]. destruct (_ <? _); [|done].
    destruct Hq as [Hi Hn]. split; [by destruct Hi|exact Hn]. }
  destruct (is_consecutive_three_chain _ _); intros H; inv_ret; [|done].
  unfold Machine_on_commit in H. inv_ret. destruct Hl as [Hi Hn].
  split; [by apply HSS_inv_commit|]. intros h n. cbn [m_storage set_storage commit HSS_SafetyStorage].
  unfold HSS_commit. destruct (_ <=? _); apply Hn.
Qed.

Lemma branch_loop_total branch m :
  ranked (m_storage m) -> Forall ranked_node branch ->
  exists m', Machine_branch_loop m branch = Ret m'.
Proof.
  intros Hr Hb. revert m Hr. induction Hb as [|p branch Hp Hb IH]; intros m Hr;
    cbn [Machine_branch_loop]; [eauto|].
  destruct (verify_proposal_spec m (node_justify p)) as [[Hq ->]|[_ ->]]; cbn [is_ok negb]; [|eauto].
  destruct (sync_one_total HSS_inv m p (fun prev => ranked_accepts m p prev Hr)) as [m1 H1].
  rewrite H1. cbn [mbind outcome_bind]. apply IH.
  destruct (sync_one_cases HSS_inv m p m1 Hq H1) as (prev & _ & [(_ & rd & Hu)|(rd & Hu)]);
    eauto using ranked_update_nodes, ranked_append.
Qed.

(** The proposals that a synchronisation answer carries. *)
Definition sync_branch (req : SafetyEvent) : list TreeNode :=
  match req with BranchSync _ branch => branch | _ => [] end.

(** C10. A machine over HotstuffStorage answers every event (it neither panics nor loops)
    whenever the stored proposals, and those a synchronisation answer brings, have no
    cycle of parent hashes. *)
Theorem HSS_event_returns m req :
  ranked (m_storage m) -> Forall ranked_node (sync_branch req) -> 0 <= v_threshold (m_voter m) ->
  exists m' r, Machine_process_safety_event m req = Ret (m', r).
Proof.
  intros Hr Hb Hth. destruct req; try by (do 2 eexists).
  - apply (recv_proposal_total HSS_inv). intros prev. by apply ranked_accepts.
  - cbn [Machine_process_safety_event]. unfold Machine_on_recv_vote.
    destruct (negb _); [eauto|].
    destruct (Voter_add_vote _ _ _ _) as [voter [[]|]] eqn:E; [|eauto].
    destruct (_ <? _); [|eauto].
    assert (Hv : 0 <= v_threshold voter).
    { unfold Voter_add_vote in E. destruct (_ !! ctx_from ctx) in E; by simplify_eq. }
    destruct (Voter_combine_returns voter (node_height prop) Hv) as (v' & [c|e] & Hc);
      cbn [set_voter m_voter]; rewrite Hc; simpl; eauto.
  - cbn [Machine_process_safety_event]. unfold Machine_on_branch_sync.
    destruct (branch_loop_total branch m Hr Hb) as [m' ->]. simpl. eauto.
Qed.
End HssTotal.
