(* ===== verification/ReplicaSpec.v ===== *)
(** * An abstract replica, and the proof that the machine implements it

    The specification is a transition system of atomic actions on the proposals a
    replica knows: it may accept a certified proposal that is higher than its last
    vote and safe for its lock, move its leaf to a higher certified proposal, its lock
    along two certificates and its commit along three, and propose on top of its leaf.
    Safety is stated with ancestry, not with a walk, and there are no queues, flags,
    votes or databases.  Every run of the machine over [HotstuffStorage] is a run of
    the specification with the same inputs and outputs. *)

From S2P Require Import Prelude Crypto HsData CryptoKit Voter SafetyStorage Machine.
From S2P Require Import MachineSafety MachineInvariant LivenessData Persistor Hss HssSafety.
From S2P Require Import HssWalk HssReach.

Section ReplicaSpec.
Context `{TC : ThresholdCrypto} {C : Codec}.

(** ** The specification *)

Record Replica := mkReplica {
  a_seen : list TreeNode;
  a_tree : gmap NodeHash TreeNode;
  a_leaf : TreeNode;
  a_qc : GenericQC;
  a_lock : TreeNode;
  a_commit : TreeNode;
  a_vheight : Z;
  a_view : Z;
}.

(** What a run shows: the proposals that arrive, the votes and the own proposals. *)
Inductive label :=
| LRecv (p : TreeNode)
| LVote (p : TreeNode)
| LPropose (p : TreeNode).

Definition label_node (l : label) : TreeNode :=
  match l with LRecv p | LVote p | LPropose p => p end.

Context (pks : PK).

Implicit Types (a : Replica) (p n b : TreeNode).

(** [prev] is known and the certificate of [p] is a valid certificate of it. *)
Definition certifies a p prev : Prop :=
  a_tree a !! qc_node (node_justify p) = Some prev /\
  (GenericQC_is_init_qc (node_justify p) = true \/
   pk_verify pks (qc_combined_sign (node_justify p)) (TreeNode_to_be_bytes prev) = true).

(** [p] is on the branch of the lock, or justified above it. *)
Definition safe_for_lock a p prev : Prop :=
  extends (a_tree a) p (a_lock a) \/ extends (a_tree a) (a_lock a) p \/
  node_height (a_lock a) < node_height prev.

(** [b] is what the certificate of [n] names. *)
Definition links a n b : Prop := a_tree a !! qc_node (node_justify n) = Some b.

Definition a_learn p a : Replica :=
  mkReplica (p :: a_seen a) (a_tree a) (a_leaf a) (a_qc a) (a_lock a) (a_commit a)
    (a_vheight a) (a_view a).
Definition a_store p h a : Replica :=
  mkReplica (a_seen a) (<[TreeNode_hash p:=p]> (a_tree a)) (a_leaf a) (a_qc a) (a_lock a)
    (a_commit a) h (a_view a).
Definition a_set_leaf p qc a : Replica :=
  mkReplica (a_seen a) (a_tree a) p qc (a_lock a) (a_commit a) (a_vheight a) (a_view a).
Definition a_set_lock b a : Replica :=
  mkReplica (a_seen a) (a_tree a) (a_leaf a) (a_qc a) b (a_commit a) (a_vheight a) (a_view a).
Definition a_set_commit b a : Replica :=
  mkReplica (a_seen a) (a_tree a) (a_leaf a) (a_qc a) (a_lock a) b (a_vheight a) (a_view a).

Inductive astep : Replica -> option label -> Replica -> Prop :=
| A_recv a p : astep a (Some (LRecv p)) (a_learn p a)
| A_accept a p prev l :
    p ∈ a_seen a -> certifies a p prev -> a_vheight a < node_height p -> safe_for_lock a p prev ->
    l = None \/ l = Some (LVote p) ->
    astep a l (a_store p (node_height p) a)
| A_take_qc a n old qc :
    n ∈ a_seen a -> is_Some (a_tree a !! qc_node qc) ->
    a_tree a !! qc_node (a_qc a) = Some old -> node_height old < node_height n ->
    astep a None (a_store n (node_height n) (a_set_leaf n qc a))
| A_lock a n b3 b2 :
    n ∈ a_seen a -> links a n b3 -> links a b3 b2 -> node_height (a_lock a) < node_height b2 ->
    astep a None (a_set_lock b2 a)
| A_commit a n b3 b2 b :
    n ∈ a_seen a -> links a n b3 -> links a b3 b2 -> links a b2 b ->
    node_parent b3 = TreeNode_hash b2 -> node_parent b2 = TreeNode_hash b ->
    node_height (a_commit a) < node_height b ->
    astep a None (a_set_commit b a)
| A_propose a cmds p :
    p = TreeNode_new cmds (a_view a) (TreeNode_hash (a_leaf a)) (a_qc a) ->
    astep a (Some (LPropose p))
      (a_store p (node_height p) (a_set_leaf p (a_qc a) (a_learn p a))).

(** Runs with their visible labels. *)
Inductive arun : Replica -> list label -> Replica -> Prop :=
| arun_nil a : arun a [] a
| arun_step a l a' tr a'' : astep a l a' -> arun a' tr a'' -> arun a (option_list l ++ tr) a''.

Lemma arun_one a l a' : astep a l a' -> arun a (option_list l) a'.
Proof.
  intros H. rewrite <-(app_nil_r (option_list l)). econstructor; [done|constructor].
Qed.

Lemma arun_trans a tr a' tr' a'' : arun a tr a' -> arun a' tr' a'' -> arun a (tr ++ tr') a''.
Proof.
  induction 1 as [|a l a' tr b Hs Hr IH]; intros H; [done|].
  rewrite <-app_assoc. econstructor; [done|auto].
Qed.

(** ** What the specification guarantees *)

(** [b2] has been certified through two certificates of proposals of [ns]. *)
Definition lock_evidence (ns : list TreeNode) b2 : Prop :=
  exists n b3, n ∈ ns /\ b3 ∈ ns /\ b2 ∈ ns /\
    qc_node (node_justify n) = TreeNode_hash b3 /\ qc_node (node_justify b3) = TreeNode_hash b2.

(** [b] is the first of three proposals of [ns] in a row, each certified. *)
Definition commit_evidence (ns : list TreeNode) b : Prop :=
  exists n b3 b2, n ∈ ns /\ b3 ∈ ns /\ b2 ∈ ns /\ b ∈ ns /\
    qc_node (node_justify n) = TreeNode_hash b3 /\ qc_node (node_justify b3) = TreeNode_hash b2 /\
    qc_node (node_justify b2) = TreeNode_hash b /\
    node_parent b3 = TreeNode_hash b2 /\ node_parent b2 = TreeNode_hash b.

(** Everything known was seen, under its hash, and lock and commit have their evidence
    or are still those of [a0]. *)
Record justified (a0 a : Replica) : Prop := {
  j_tree h n : a_tree a !! h = Some n -> n ∈ a_seen a /\ TreeNode_hash n = h;
  j_lock : a_lock a = a_lock a0 \/ lock_evidence (a_seen a) (a_lock a);
  j_commit : a_commit a = a_commit a0 \/ commit_evidence (a_seen a) (a_commit a);
  j_lock_le : node_height (a_lock a0) <= node_height (a_lock a);
  j_commit_le : node_height (a_commit a0) <= node_height (a_commit a);
}.

Lemma lock_evidence_mono ns ns' b : ns ⊆ ns' -> lock_evidence ns b -> lock_evidence ns' b.
Proof. intros Hs (n & b3 & ? & ? & ? & ? & ?). exists n, b3. auto 10. Qed.

Lemma commit_evidence_mono ns ns' b : ns ⊆ ns' -> commit_evidence ns b -> commit_evidence ns' b.
Proof. intros Hs (n & b3 & b2 & ? & ? & ? & ? & ?). exists n, b3, b2. split_and!; naive_solver. Qed.

Lemma justified_learn a0 a p : justified a0 a -> justified a0 (a_learn p a).
Proof.
  assert (Hsub : a_seen a ⊆ p :: a_seen a) by (intros x Hx; by right).
  intros [Ht Hl Hc ??]. split; try done; simpl.
  - intros h n Hn. destruct (Ht h n Hn). split; [by right|done].
  - destruct Hl; [by left|right]. by eapply lock_evidence_mono.
  - destruct Hc; [by left|right]. by eapply commit_evidence_mono.
Qed.

Lemma justified_store a0 a p h : justified a0 a -> p ∈ a_seen a -> justified a0 (a_store p h a).
Proof.
  intros [Ht ????] Hp. split; try done. simpl. intros k n Hk.
  apply lookup_insert_Some in Hk as [[<- <-]|[_ Hk]]; [done|auto].
Qed.

Lemma justified_step a0 a l a' : justified a0 a -> astep a l a' -> justified a0 a'.
Proof.
  intros Hj H.
  assert (Hlink : forall n b, links a n b -> b ∈ a_seen a /\ qc_node (node_justify n) = TreeNode_hash b).
  { intros n b Hb. destruct (j_tree _ _ Hj _ _ Hb). split; [done|congruence]. }
  destruct H as [a p|a p prev l Hs|a n old qc Hs|a n b3 b2 Hs H3 H2 Hlt
                |a n b3 b2 b Hs H3 H2 H1 P3 P2 Hlt|a cmds p Hp].
  - by apply justified_learn.
  - by apply justified_store.
  - apply justified_store; [|done]. by destruct Hj.
  - destruct (Hlink _ _ H3), (Hlink _ _ H2). destruct Hj as [? ? ? ? ?]. split; try done; simpl; [|lia].
    right. exists n, b3. done.
  - destruct (Hlink _ _ H3), (Hlink _ _ H2), (Hlink _ _ H1).
    destruct Hj as [? ? ? ? ?]. split; try done; simpl; [|lia]. right. exists n, b3, b2. done.
  - apply justified_store; [|by left]. apply (justified_learn _ _ p) in Hj. by destruct Hj.
Qed.

Lemma arun_justified a0 a tr a' : justified a0 a -> arun a tr a' -> justified a0 a'.
Proof. intros Hj H. induction H; [done|]. eauto using justified_step. Qed.

(** The specification only sees what arrives or what it proposes. *)
Lemma astep_seen a l a' :
  astep a l a' -> forall x, x ∈ a_seen a' -> x ∈ a_seen a \/ x ∈ label_node <$> option_list l.
Proof.
  intros H x. destruct H; simpl; auto; intros [->|Hx]%elem_of_cons; auto; right; by left.
Qed.

Lemma arun_seen a tr a' :
  arun a tr a' -> forall x, x ∈ a_seen a' -> x ∈ a_seen a \/ x ∈ label_node <$> tr.
Proof.
  induction 1 as [|a l a' tr b Hs Hr IH]; intros x Hx; [by left|].
  rewrite fmap_app, elem_of_app. destruct (IH x Hx) as [Hx'|]; [|by right; right].
  destruct (astep_seen _ _ _ Hs x Hx'); auto.
Qed.
End ReplicaSpec.
