(* ===== verification/ReplicaRefine.v ===== *)
(** * The machine over [HotstuffStorage] implements the abstract replica

    A forward simulation.  The abstract state is read off the store, except for the
    history of proposals seen, which only the specification keeps. *)

From S2P Require Import Prelude Walk Crypto HsData CryptoKit Voter SafetyStorage Machine.
From S2P Require Import MachineSafety MachineSync MachineInvariant LivenessData Persistor Hss HssSafety.
From S2P Require Import HssWalk HssReach ReplicaSpec.

Section ReplicaRefine.
Context `{TC : ThresholdCrypto} {C : Codec} (pks : PK).

Implicit Types (s : HotstuffStorage) (n p b : TreeNode) (m : Machine HotstuffStorage)
  (seen : list TreeNode).

Definition abs seen s : Replica :=
  mkReplica seen (hss_in_mem_queue s) (HSS_get_leaf s) (HSS_get_qc_high s)
    (HSS_get_locked_node s) (HSS_get_last_committed s) (HSS_get_vheight s) (HSS_get_view s).

(** The store is well formed, its proposals were seen, and the machine verifies with [pks]. *)
Record simulated seen m : Prop := {
  sm_wf : HSS_wf (m_storage m);
  sm_seen h n : HSS_get (m_storage m) h = Some n -> n ∈ seen;
  sm_pks : ds_pks (v_signature (m_voter m)) = pks;
}.

(** The inputs of an event and the outputs of its answer. *)
Definition event_recv (req : SafetyEvent) : list TreeNode :=
  match req with
  | RecvProposal _ p | RecvSign _ p _ => [p]
  | BranchSync _ branch => branch
  | _ => []
  end.

Definition ready_out (r : result Ready SafetyErr) : list label :=
  match r with
  | Ok (Signature _ p _) => [LVote p]
  | Ok (NewProposal _ p) => [LPropose p]
  | _ => []
  end.

Definition event_trace (req : SafetyEvent) (r : result Ready SafetyErr) : list label :=
  (LRecv <$> event_recv req) ++ ready_out r.

Definition run_trace (reqs : list SafetyEvent) (rs : list (result Ready SafetyErr)) : list label :=
  concat (zip_with event_trace reqs rs).

(** ** Single operations *)

Lemma sim_learn seen s ps : arun pks (abs seen s) (LRecv <$> ps) (abs (reverse ps ++ seen) s).
Proof.
  revert seen. induction ps as [|p ps IH]; intros seen; [constructor|].
  rewrite reverse_cons, <-app_assoc.
  apply (arun_step pks (abs seen s) (Some (LRecv p)) (abs (p :: seen) s)); [|apply IH].
  exact (A_recv pks (abs seen s) p).
Qed.

Lemma is_conflicting_false_extends s a b :
  HSS_is_conflicting s a b = Some false ->
  extends (hss_in_mem_queue s) a b \/ extends (hss_in_mem_queue s) b a.
Proof.
  unfold HSS_is_conflicting. destruct (_ <=? _);
    (destruct (conflict_walk _ _ _ _) as [e|] eqn:E; [|done]);
    apply conflict_walk_path in E as (ks & Hp & _);
    intros [= He%bool_decide_eq_false]; apply dec_stable in He; [left|right];
    eauto using path_extends, extends_hash.
Qed.

Lemma vote_rule_safe m p prev seen :
  vote_rule m p prev ->
  HSS_get_vheight (m_storage m) < node_height p /\ safe_for_lock (abs seen (m_storage m)) p prev.
Proof.
  intros [Hv Hs]. split; [done|]. destruct Hs as [Hs|Hs]; [|by right; right].
  destruct (is_conflicting_false_extends _ _ _ Hs); [by left|by right; left].
Qed.

Lemma sim_update_qc_high seen s n qc :
  n ∈ seen -> is_Some (HSS_get s (qc_node qc)) ->
  arun pks (abs seen s) [] (abs seen (HSS_update_qc_high s n qc)).
Proof.
  intros Hn Hqc. unfold HSS_update_qc_high.
  destruct (HSS_get s (qc_node (HSS_get_qc_high s))) as [old|] eqn:Hold; [|constructor].
  destruct (Z.ltb_spec (node_height old) (node_height n)); [|constructor].
  apply (arun_one pks _ None). exact (A_take_qc pks (abs seen s) n old qc Hn Hqc Hold H).
Qed.

Lemma covers_update_qc_high seen s n qc :
  n ∈ seen -> (forall h b, HSS_get s h = Some b -> b ∈ seen) ->
  forall h b, HSS_get (HSS_update_qc_high s n qc) h = Some b -> b ∈ seen.
Proof.
  intros Hn Hs h b. destruct (HSS_update_qc_high_cases s n qc) as [->| ->]; [apply Hs|].
  change (HSS_get (HSS_insert s (TreeNode_hash n) n) h = Some b -> b ∈ seen).
  rewrite HSS_insert_get. case_decide; [by intros [= <-]|apply Hs].
Qed.

(** Taking the certificate of a stored proposal stores nothing new. *)
Lemma update_qc_high_queue s b qc :
  HSS_get s (TreeNode_hash b) = Some b ->
  hss_in_mem_queue (HSS_update_qc_high s b qc) = hss_in_mem_queue s.
Proof.
  intros Hb. destruct (HSS_update_qc_high_cases s b qc) as [->| ->]; [done|].
  change (<[TreeNode_hash b:=b]> (hss_in_mem_queue s) = hss_in_mem_queue s). by apply insert_id.
Qed.

Lemma sim_accept seen m p prev l :
  simulated seen m -> p ∈ seen -> certifies pks (abs seen (m_storage m)) p prev ->
  vote_rule m p prev -> l = None \/ l = Some (LVote p) ->
  arun pks (abs seen (m_storage m)) (option_list l) (abs seen (m_storage (Machine_append m p))) /\
  simulated seen (Machine_append m p).
Proof.
  intros Hs Hp Hc Ha Hl. destruct (vote_rule_safe m p prev seen Ha) as [Hv Hsafe]. split.
  - apply arun_one.
    replace (abs seen (m_storage (Machine_append m p)))
      with (a_store p (node_height p) (abs seen (m_storage m))); [by eapply A_accept|].
    unfold abs, a_store. cbn. unfold HSS_get_vheight in *. cbn. by rewrite Z.max_r by lia.
  - destruct Hs as [Hw Hsn Hpk]. split; [|..|done].
    + by apply (Machine_append_inv HSS_wf any_node any_qc).
    + intros h n. change (HSS_get (HSS_insert (m_storage m) (TreeNode_hash p) p) h = Some n -> n ∈ seen).
      rewrite HSS_insert_get. case_decide; [by intros [= <-]|apply Hsn].
Qed.
(** ** [update_nodes] *)

Lemma stored_known s h b : HSS_inv s -> HSS_get s h = Some b -> known s b.
Proof.
  intros Hi Hb. change (is_Some (HSS_get s (TreeNode_hash b))).
  by rewrite (inv_keys _ Hi _ _ Hb), Hb.
Qed.

(** The three-chain follows certificates through the stored proposals. *)
Lemma three_chain_links s p chain :
  chain = HSS_find_three_chain s p ->
  (forall b3, chain !! 0%nat = Some b3 -> HSS_get s (qc_node (node_justify p)) = Some b3) /\
  (forall b2, chain !! 1%nat = Some b2 ->
     exists b3, HSS_get s (qc_node (node_justify p)) = Some b3 /\
       HSS_get s (qc_node (node_justify b3)) = Some b2).
Proof.
  intros ->. unfold HSS_find_three_chain.
  destruct (HSS_get s (qc_node (node_justify p))) as [b3|]; [|done].
  split; [by intros b [= ->]|]. intros b2 Hb. exists b3. split; [done|]. cbn in Hb.
  destruct (HSS_get s (qc_node (node_justify b3))) as [b|]; [|done]. by injection Hb as ->.
Qed.

Lemma sim_qc_step seen m p :
  simulated seen m ->
  let m1 := qc_step m p in
  arun pks (abs seen (m_storage m)) [] (abs seen (m_storage m1)) /\ simulated seen m1 /\
  hss_in_mem_queue (m_storage m1) = hss_in_mem_queue (m_storage m).
Proof.
  intros Hs m1. unfold m1, qc_step. cbn [find_three_chain HSS_SafetyStorage].
  destruct (three_chain_links (m_storage m) p _ eq_refl) as [H0 _].
  destruct (HSS_find_three_chain (m_storage m) p !! 0%nat) as [b3|]; [|by split; [constructor|]].
  specialize (H0 b3 eq_refl). destruct Hs as [Hw Hsn Hpk].
  assert (Hb3 : b3 ∈ seen) by eauto.
  assert (Hk : HSS_get (m_storage m) (TreeNode_hash b3) = Some b3).
  { by rewrite (inv_keys _ (wf_inv _ Hw) _ _ H0). }
  cbn [m_storage set_storage update_qc_high HSS_SafetyStorage].
  split; [by apply sim_update_qc_high|]. split; [|by apply update_qc_high_queue].
  split; [by apply HSS_wf_update_qc_high|by apply covers_update_qc_high|done].
Qed.

Lemma sim_lock_step seen m p (b2 : option TreeNode) :
  simulated seen m -> p ∈ seen ->
  (forall b, b2 = Some b -> exists b3, HSS_get (m_storage m) (qc_node (node_justify p)) = Some b3 /\
     HSS_get (m_storage m) (qc_node (node_justify b3)) = Some b) ->
  let m1 := lock_step m b2 in
  arun pks (abs seen (m_storage m)) [] (abs seen (m_storage m1)) /\ simulated seen m1 /\
  hss_in_mem_queue (m_storage m1) = hss_in_mem_queue (m_storage m).
Proof.
  intros Hs Hp Hl m1. unfold m1, lock_step. destruct b2 as [b|]; [|by split; [constructor|]].
  destruct (Hl b eq_refl) as (b3 & H3 & H2).
  destruct (Z.ltb_spec (node_height (get_locked_node (m_storage m))) (node_height b));
    [|by split; [constructor|]].
  split.
  - apply (arun_one pks _ None). by apply (A_lock pks (abs seen (m_storage m)) p b3 b).
  - split; [|done]. destruct Hs as [Hw Hsn Hpk]. split; [|done..].
    apply (si_update_locked (okN := any_node) (okQ := any_qc)); [done..|].
    by apply (stored_known _ _ _ (wf_inv _ Hw) H2).
Qed.

(** The conditions of the commit rule, as links between stored proposals. *)
Lemma three_chain_commit s p chain b :
  chain = HSS_find_three_chain s p ->
  HSS_is_consecutive_three_chain s chain = true -> last chain = Some b ->
  exists b3 b2,
    HSS_get s (qc_node (node_justify p)) = Some b3 /\
    HSS_get s (qc_node (node_justify b3)) = Some b2 /\
    HSS_get s (qc_node (node_justify b2)) = Some b /\
    node_parent b3 = TreeNode_hash b2 /\ node_parent b2 = TreeNode_hash b.
Proof.
  intros -> Hc Hb. unfold HSS_find_three_chain in *.
  destruct (HSS_get s (qc_node (node_justify p))) as [b3|]; [|done].
  destruct (HSS_get s (qc_node (node_justify b3))) as [b2|] eqn:E2; [|done].
  destruct (HSS_get s (qc_node (node_justify b2))) as [b1|] eqn:E1; [|done].
  simpl in Hc, Hb. rewrite andb_true_iff, !bool_decide_eq_true in Hc. injection Hb as ->.
  exists b3, b2. naive_solver.
Qed.

Lemma sim_update_nodes seen m p m' r :
  simulated seen m -> p ∈ seen -> Machine_update_nodes m p = Ret (m', r) ->
  arun pks (abs seen (m_storage m)) [] (abs seen (m_storage m')) /\ simulated seen m'.
Proof.
  intros Hs Hp. rewrite update_nodes_unfold. cbn zeta. intros H.
  destruct (sim_qc_step seen m p Hs) as (R1 & S1 & Q1).
  destruct (three_chain_links (m_storage m) p _ eq_refl) as [_ Hl].
  unfold locked_step in H. cbn [find_three_chain is_consecutive_three_chain HSS_SafetyStorage] in H.
  destruct (sim_lock_step seen (qc_step m p) p (HSS_find_three_chain (m_storage m) p !! 1%nat) S1 Hp)
    as (R2 & S2 & Q2).
  { intros b Hb. destruct (Hl b Hb) as (b3 & H3 & H2). exists b3. unfold HSS_get in *. by rewrite Q1. }
  set (m2 := lock_step _ _) in *. rewrite Q1 in Q2.
  assert (R : arun pks (abs seen (m_storage m)) [] (abs seen (m_storage m2)))
    by exact (arun_trans pks _ [] _ [] _ R1 R2).
  destruct (HSS_is_consecutive_three_chain _ _) eqn:Ec; inv_ret; [|done].
  unfold Machine_on_commit in H. inv_ret. cbn [m_storage set_storage commit HSS_SafetyStorage].
  match goal with E : last _ = Some ?b |- _ =>
    destruct (three_chain_commit (m_storage m) p _ b eq_refl Ec E) as (b3 & b2 & H3 & H2 & H1 & P3 & P2)
  end.
  unfold HSS_get in H3, H2, H1. rewrite <-Q2 in H3, H2, H1. split.
  - apply (arun_trans pks _ [] _ [] _ R). unfold HSS_commit.
    rewrite (inv_commit _ (wf_inv _ (sm_wf _ _ S2))).
    destruct (Z.leb_spec (node_height r0) (node_height (st_last_commit (hss_state (m_storage m2)))));
      [constructor|]. apply (arun_one pks _ None).
    by apply (A_commit pks (abs seen (m_storage m2)) p b3 b2 r0).
  - destruct S2 as [Hw Hsn Hpk]. split; [|..|done].
    + apply HSS_wf_commit; [done|]. by apply (stored_known _ _ _ (wf_inv _ Hw) H1).
    + cbn. unfold HSS_commit. by destruct (_ <=? _).
Qed.
(** ** Events *)

Lemma simulated_weaken seen seen' m : seen ⊆ seen' -> simulated seen m -> simulated seen' m.
Proof. intros Hsub [Hw Hsn Hpk]. split; [done|eauto|done]. Qed.

Lemma qc_accepted_certifies seen m p :
  simulated seen m -> qc_accepted m (node_justify p) ->
  exists prev, get_node (m_storage m) (qc_node (node_justify p)) = Some prev /\
    certifies pks (abs seen (m_storage m)) p prev.
Proof.
  intros Hs (prev & Hg & Hv). exists prev. split; [done|]. split; [done|].
  destruct Hv as [?|Hv]; [by left|right]. rewrite <-(sm_pks _ _ Hs). exact Hv.
Qed.

Lemma sim_recv_proposal seen m ctx p m' r :
  simulated seen m -> p ∈ seen ->
  Machine_process_safety_event m (RecvProposal ctx p) = Ret (m', r) ->
  arun pks (abs seen (m_storage m)) (ready_out r) (abs seen (m_storage m')) /\ simulated seen m'.
Proof.
  intros Hs Hp H.
  destruct (recv_proposal_cases HSS_inv m ctx p m' r H)
    as [(_ & -> & ->)|(Hq & prev & Hg & [(Hv & -> & rd & Hu)|(_ & -> & rd & Hu)])].
  - split; [constructor|done].
  - destruct (qc_accepted_certifies seen m p Hs Hq) as (prev' & Hg' & Hc).
    assert (prev' = prev) as -> by congruence.
    destruct (sim_accept seen m p prev (Some (LVote p)) Hs Hp Hc Hv (or_intror eq_refl)) as [R1 S1].
    destruct (sim_update_nodes seen (Machine_append m p) p m' rd S1 Hp Hu) as [R2 S2].
    split; [|done]. exact (arun_trans pks _ _ _ [] _ R1 R2).
  - exact (sim_update_nodes seen m p m' rd Hs Hp Hu).
Qed.

Lemma sim_branch_loop seen branch m m' :
  simulated seen m -> branch ⊆ seen -> Machine_branch_loop m branch = Ret m' ->
  arun pks (abs seen (m_storage m)) [] (abs seen (m_storage m')) /\ simulated seen m'.
Proof.
  revert m. induction branch as [|p branch IH]; intros m Hs Hb H; cbn [Machine_branch_loop] in H.
  { inv_ret. subst. split; [constructor|done]. }
  assert (Hp : p ∈ seen) by (apply Hb; by left).
  destruct (verify_proposal_spec m (node_justify p)) as [[Hq Hv]|[_ Hv]]; rewrite Hv in H;
    cbn [is_ok negb] in H; [|inv_ret; subst; split; [constructor|done]].
  apply bind_Ret_inv in H as (m1 & H1 & H).
  assert (Hone : arun pks (abs seen (m_storage m)) [] (abs seen (m_storage m1)) /\ simulated seen m1).
  { destruct (sync_one_cases HSS_inv m p m1 Hq H1) as (prev & Hg & [(Hr & rd & Hu)|(rd & Hu)]).
    - destruct (qc_accepted_certifies seen m p Hs Hq) as (prev' & Hg' & Hc).
      assert (prev' = prev) as -> by congruence.
      destruct (sim_accept seen m p prev None Hs Hp Hc Hr (or_introl eq_refl)) as [R1 S1].
      destruct (sim_update_nodes _ _ _ _ _ S1 Hp Hu) as [R2 S2].
      split; [|done]. exact (arun_trans pks _ [] _ [] _ R1 R2).
    - exact (sim_update_nodes _ _ _ _ _ Hs Hp Hu). }
  destruct Hone as [R1 S1]. destruct (IH m1 S1) as [R2 S2]; [|done|].
  - intros x Hx. apply Hb. by right.
  - split; [|done]. exact (arun_trans pks _ [] _ [] _ R1 R2).
Qed.

Lemma Voter_add_vote_signature (v : Voter DefaultSignaturer) ctx view sg :
  v_signature (Voter_add_vote v ctx view sg).1 = v_signature v.
Proof. unfold Voter_add_vote. by case_match. Qed.

Lemma Voter_combine_signature (v v' : Voter DefaultSignaturer) view r :
  Voter_combine_partial_sign v view = Ret (v', r) -> v_signature v' = v_signature v.
Proof.
  unfold Voter_combine_partial_sign. destruct (_ <=? _); intros H; by inv_ret.
Qed.

Lemma sim_recv_vote seen m ctx p sg m' r :
  simulated seen m -> p ∈ seen -> Machine_on_recv_vote m ctx p sg = Ret (m', r) ->
  arun pks (abs seen (m_storage m)) (ready_out r) (abs seen (m_storage m')) /\ simulated seen m'.
Proof.
  intros Hs Hp H. unfold Machine_on_recv_vote in H.
  destruct (negb _); [inv_ret; split; [constructor|done]|].
  destruct (Voter_add_vote _ _ _ _) as [v1 added] eqn:Ea.
  assert (E1 : v_signature v1 = v_signature (m_voter m)).
  { change v1 with (v1, added).1. rewrite <-Ea. apply Voter_add_vote_signature. }
  assert (S1 : simulated seen (set_voter m v1)).
  { destruct Hs as [Hw Hsn Hpk]. split; [done|done|]. cbn. by rewrite E1. }
  destruct added as [[]|e]; [|inv_ret; split; [constructor|done]].
  destruct (_ <? _); [|inv_ret; split; [constructor|done]].
  apply bind_Ret_inv in H as ([v2 combined] & Ec & H).
  assert (E2 : v_signature v2 = v_signature v1) by (by eapply Voter_combine_signature).
  assert (S2 : simulated seen (set_voter (set_voter m v1) v2)).
  { destruct S1 as [Hw Hsn Hpk]. split; [done|done|]. cbn in *. by rewrite E2. }
  destruct combined as [c|e]; [|inv_ret; split; [constructor|done]].
  apply Ret_inv, pair_eq in H as [<- <-].
  cbn [m_storage set_storage set_voter m_voter update_qc_high get_view get_leaf HSS_SafetyStorage
       ready_out].
  destruct S2 as [Hw Hsn Hpk]. cbn [m_storage set_voter m_voter] in Hw, Hsn, Hpk.
  set (qc := GenericQC_new _ _ c).
  assert (Hqc : is_Some (HSS_get (m_storage m) (qc_node qc))) by exact (wf_leaf _ Hw).
  clearbody qc. split; [exact (sim_update_qc_high seen (m_storage m) p qc Hp Hqc)|].
  split; cbn [m_storage set_storage set_voter m_voter].
  - by apply HSS_wf_update_qc_high.
  - exact (covers_update_qc_high seen (m_storage m) p qc Hp Hsn).
  - exact Hpk.
Qed.

(** [m2] is reached from [m] by a run of the specification with the labels [tr]. *)
Definition sim_steps seen m (tr : list label) m2 : Prop :=
  exists seen', seen ⊆ seen' /\
    arun pks (abs seen (m_storage m)) tr (abs seen' (m_storage m2)) /\ simulated seen' m2.

(** First the inputs are learnt, then the rest happens with them in the history. *)
Lemma sim_inputs seen m ps m2 out :
  simulated seen m ->
  (simulated (reverse ps ++ seen) m -> (forall x, x ∈ ps -> x ∈ reverse ps ++ seen) ->
   arun pks (abs (reverse ps ++ seen) (m_storage m)) out (abs (reverse ps ++ seen) (m_storage m2)) /\
   simulated (reverse ps ++ seen) m2) ->
  sim_steps seen m ((LRecv <$> ps) ++ out) m2.
Proof.
  intros Hs Hk. assert (Hsub : seen ⊆ reverse ps ++ seen) by (intros x Hx; apply elem_of_app; by right).
  destruct Hk as [R S2]; [by eapply simulated_weaken| |].
  { intros x Hx. apply elem_of_app. left. by apply elem_of_reverse. }
  exists (reverse ps ++ seen). split; [done|]. split; [|done].
  eapply arun_trans; [apply sim_learn|done].
Qed.

Lemma sim_stutter seen m m2 :
  simulated seen m -> m_storage m2 = m_storage m -> m_voter m2 = m_voter m -> sim_steps seen m [] m2.
Proof.
  intros [Hw Hsn Hpk] Es Ev. exists seen. split; [done|]. rewrite Es.
  split; [constructor|]. split; by rewrite ?Es, ?Ev.
Qed.

Lemma sim_new_view seen m n qc :
  simulated seen m -> HSS_get (m_storage m) (qc_node qc) = Some n ->
  sim_steps seen m [] (set_storage m (HSS_update_qc_high (m_storage m) n qc)).
Proof.
  intros [Hw Hsn Hpk] E. exists seen. split; [done|]. assert (Hn : n ∈ seen) by exact (Hsn _ _ E).
  assert (Hqc : is_Some (HSS_get (m_storage m) (qc_node qc))) by (exists n; exact E).
  split; [exact (sim_update_qc_high seen (m_storage m) n qc Hn Hqc)|].
  split; [by apply HSS_wf_update_qc_high|by apply covers_update_qc_high|done].
Qed.

Lemma sim_beat seen m cmds m' rd :
  simulated seen m -> Machine_on_beat m cmds = (m', rd) -> sim_steps seen m (ready_out rd) m'.
Proof.
  intros [Hw Hsn Hpk] H. unfold Machine_on_beat in H. injection H as <- <-.
  set (p := Machine_make_leaf m cmds). exists (p :: seen).
  split; [intros x Hx; by right|]. split.
  - apply (arun_one pks _ (Some (LPropose p))).
    exact (A_propose pks (abs seen (m_storage m)) cmds p eq_refl).
  - split; [by apply HSS_wf_update_leaf| |].
    + intros h n. change (HSS_get (HSS_insert (m_storage m) (TreeNode_hash p) p) h = Some n ->
        n ∈ p :: seen). rewrite HSS_insert_get.
      case_decide; [intros [= <-]; by left|]. intros Hn. right. eauto.
    + rewrite <-Hpk. cbn [m_voter set_voter set_storage]. by rewrite Voter_add_vote_signature.
Qed.

Lemma sim_event seen m req m' r :
  simulated seen m -> Machine_process_safety_event m req = Ret (m', r) ->
  sim_steps seen m (event_trace req r) m'.
Proof.
  intros Hs H. destruct req; unfold event_trace; cbn [event_recv Machine_process_safety_event] in *.
  - apply Ret_inv, pair_eq in H as [<- <-]. by apply sim_stutter.
  - apply sim_inputs; [done|]. intros S1 Hin. apply (sim_recv_proposal _ _ ctx prop); [done| |done].
    apply Hin. by left.
  - apply sim_inputs; [done|]. intros S1 Hin. apply (sim_recv_vote _ _ ctx prop sign); [done| |done].
    apply Hin. by left.
  - apply Ret_inv, pair_eq in H as [<- <-].
    destruct (get_node (m_storage m) (qc_node qc_high)) as [n|] eqn:E; [|by apply sim_stutter].
    by apply sim_new_view.
  - apply Ret_inv, pair_eq in H as [<- <-]. by apply sim_stutter.
  - apply Ret_inv, pair_eq in H as [<- <-]. by apply sim_stutter.
  - apply Ret_inv in H. by apply (sim_beat _ _ cmds).
  - apply Ret_inv, pair_eq in H as [<- <-]. destruct (_ && _); by apply sim_stutter.
  - unfold Machine_on_branch_sync in H. apply bind_Ret_inv in H as (m1 & H & [= <- <-]).
    apply sim_inputs; [done|]. intros S1 Hin. by apply (sim_branch_loop _ branch).
Qed.

Lemma sim_run seen m reqs m' rs :
  simulated seen m -> Machine_run m reqs = Ret (m', rs) ->
  exists seen', seen ⊆ seen' /\
    arun pks (abs seen (m_storage m)) (run_trace reqs rs) (abs seen' (m_storage m')) /\
    simulated seen' m'.
Proof.
  revert seen m rs. induction reqs as [|req reqs IH]; intros seen m rs Hs H; cbn [Machine_run] in H.
  - apply Ret_inv, pair_eq in H as [<- <-]. exists seen. split; [done|]. split; [constructor|done].
  - apply bind_Ret_inv in H as ([m1 r] & H1 & H). apply bind_Ret_inv in H as ([m2 rs'] & H2 & H).
    apply Ret_inv, pair_eq in H as [<- <-].
    destruct (sim_event seen m req m1 r Hs H1) as (seen1 & Hsub1 & R1 & S1).
    destruct (IH seen1 m1 rs' S1 H2) as (seen2 & Hsub2 & R2 & S2).
    exists seen2. split; [by transitivity seen1|]. split; [|done].
    exact (arun_trans pks _ _ _ _ _ R1 R2).
Qed.

(** C1. The machine over HotstuffStorage refines an abstract replica whose steps are
    atomic (receive, accept a certified proposal that is safe for the lock, take a
    certificate, lock along two certificates, commit along three, propose on the leaf) and
    whose safety test is stated with ancestry: whatever sequence of events the machine
    answers, the abstract replica has a run from the state of the store before to the
    state of the store after with exactly the same proposals received, the same votes and
    the same proposals made, in the same order. *)
Theorem HSS_machine_refines_replica seen m reqs m' rs :
  simulated seen m -> Machine_run m reqs = Ret (m', rs) ->
  exists seen', arun pks (abs seen (m_storage m)) (run_trace reqs rs) (abs seen' (m_storage m')) /\
    simulated seen' m'.
Proof.
  intros Hs H. destruct (sim_run seen m reqs m' rs Hs H) as (seen' & _ & R & S). eauto.
Qed.

(** The proposals of a run: the initial one, those that arrived, and its own. *)
Definition run_nodes (reqs : list SafetyEvent) (rs : list (result Ready SafetyErr)) : list TreeNode :=
  INIT_NODE :: (label_node <$> run_trace reqs rs).

End ReplicaRefine.

Section Evidence.
Context `{TC : ThresholdCrypto} {C : Codec}.

(** A fresh replica is simulated by the abstract one that has seen the initial proposal. *)
Lemma fresh_simulated voter self_id total leader peers sg :
  let m := Machine_new voter self_id total leader
             (init_in_mem_storage total INIT_NODE INIT_NODE_HASH INIT_QC self_id peers sg) in
  simulated (ds_pks (v_signature voter)) [INIT_NODE] m /\
  justified (abs [INIT_NODE] (m_storage m)) (abs [INIT_NODE] (m_storage m)).
Proof.
  intros m.
  assert (Hget : forall h n, HSS_get (m_storage m) h = Some n -> n ∈ [INIT_NODE] /\ TreeNode_hash n = h).
  { intros h n. unfold HSS_get. simpl. rewrite lookup_insert. case_decide; [|done].
    intros [= <-]. split; [by left|done]. }
  split; [split; [apply HSS_wf_init| |done]|split; [exact Hget|by left|by left|done..]].
  intros h n Hn. by destruct (Hget h n Hn).
Qed.

(** C5. No lock and no commit without certificates: after any run of a fresh replica its
    last commit is the initial proposal or the first of three proposals in a row, by
    parent hash, each named by the certificate of the next and the third by the
    certificate of a fourth, and its lock is the initial proposal or has two such
    certificates; all of them among the proposals that arrived or that it made itself. *)
Theorem HSS_commit_has_evidence voter self_id total leader peers sg reqs m' rs :
  let m := Machine_new voter self_id total leader
             (init_in_mem_storage total INIT_NODE INIT_NODE_HASH INIT_QC self_id peers sg) in
  Machine_run m reqs = Ret (m', rs) ->
  (HSS_get_last_committed (m_storage m') = INIT_NODE \/
   commit_evidence (run_nodes reqs rs) (HSS_get_last_committed (m_storage m'))) /\
  (HSS_get_locked_node (m_storage m') = INIT_NODE \/
   lock_evidence (run_nodes reqs rs) (HSS_get_locked_node (m_storage m'))).
Proof.
  intros m H. destruct (fresh_simulated voter self_id total leader peers sg) as [Hs Hj].
  destruct (sim_run _ _ m reqs m' rs Hs H) as (seen & _ & R & _).
  assert (Hsub : seen ⊆ run_nodes reqs rs).
  { intros x Hx. destruct (arun_seen _ _ _ _ R x Hx) as [Hx'|Hx']; [|by right].
    apply list_elem_of_singleton in Hx' as ->. by left. }
  destruct (arun_justified _ _ _ _ _ Hj R) as [_ Hl Hc _ _]. split.
  - destruct Hc as [Hc|Hc]; [left; exact Hc|right]. exact (commit_evidence_mono _ _ _ Hsub Hc).
  - destruct Hl as [Hl|Hl]; [left; exact Hl|right]. exact (lock_evidence_mono _ _ _ Hsub Hl).
Qed.
End Evidence.
