(* ===== verification/Network.v ===== *)
(** * A system of replicas under an adversary

    Each correct replica runs the machine over the store of [hss], unchanged; the network
    and the faulty replicas may send it anything, in any order and any number of times, and
    the pacemaker may raise its view at any time.  [held] is what the store of a correct
    replica satisfies in a [sound] run, and here it is shown to survive every change of the
    store that the machine makes. *)

From S2P Require Import Prelude Crypto HsData CryptoKit Voter SafetyStorage Machine Quorum Ledger.
From S2P Require Import MachineSafety LivenessData Persistor Hss HssSafety HssWalk HssReach HssProposal.

Section Network.
Context `{TC : ThresholdCrypto} {C : Codec} (pks : PK) (all faulty : gset string).

Implicit Types (n p b : TreeNode) (m : Machine HotstuffStorage) (r : string) (L : Ledger)
  (q : gmap NodeHash TreeNode).

#[local] Abbreviation certified := (certified all faulty).
#[local] Abbreviation stands := (stands pks).
#[local] Abbreviation kept := (kept pks).
#[local] Abbreviation respects := (respects pks all faulty).
#[local] Abbreviation sound := (sound pks all faulty).

(** ** Steps *)

Record Net := mkNet {
  nw_machines : gmap string (Machine HotstuffStorage);
  nw_ledger : Ledger;
}.

(** The proposals an event brings, the one it makes, and the one it signs: a proposal is
    answered with a vote for it, and a leader adds its own share to its own proposal. *)
Definition event_props (req : SafetyEvent) : list TreeNode :=
  match req with
  | RecvProposal _ p | RecvSign _ p _ => [p]
  | BranchSync _ branch => branch
  | _ => []
  end.

Definition event_made (answer : result Ready SafetyErr) : list TreeNode :=
  match answer with Ok (NewProposal _ p) => [p] | _ => [] end.

Definition event_voted (answer : result Ready SafetyErr) : list TreeNode :=
  match answer with Ok (Signature _ p _) | Ok (NewProposal _ p) => [p] | _ => [] end.

Definition ledger_after L r (req : SafetyEvent) answer : Ledger :=
  let props := event_props req ++ event_made answer in
  {| lg_seen := props ++ lg_seen L;
     lg_certs := (node_justify <$> props) ++ lg_certs L;
     lg_votes := (pair r <$> event_voted answer) ++ lg_votes L;
     lg_made := (pair r <$> event_made answer) ++ lg_made L |}.

(** The vote that completes a quorum is for the proposal the leader has as its leaf. *)
Definition vote_for_leaf m (req : SafetyEvent) (answer : result Ready SafetyErr) : Prop :=
  match req, answer with
  | RecvSign _ p _, Ok (ProposalReachConsensus _) => p = HSS_get_leaf (m_storage m)
  | _, _ => True
  end.

Inductive net_step (net : Net) : Net -> Prop :=
| net_deliver r m req m' answer :
    r ∈ all -> r ∉ faulty -> nw_machines net !! r = Some m ->
    Machine_process_safety_event m req = Ret (m', answer) -> vote_for_leaf m req answer ->
    net_step net {| nw_machines := <[r:=m']> (nw_machines net);
                    nw_ledger := ledger_after (nw_ledger net) r req answer |}
| net_view r m leader view :
    nw_machines net !! r = Some m ->
    net_step net {| nw_machines := <[r:=(Machine_on_view_change m leader view).1]> (nw_machines net);
                    nw_ledger := nw_ledger net |}.

Inductive net_reach (net : Net) : Net -> Prop :=
| reach_refl : net_reach net net
| reach_step net1 net2 : net_reach net net1 -> net_step net1 net2 -> net_reach net net2.

(** Every machine is new, nothing but the initial proposal is in circulation. *)
Definition net_fresh (net : Net) : Prop :=
  nw_ledger net = {| lg_seen := [INIT_NODE]; lg_certs := []; lg_votes := []; lg_made := [] |} /\
  forall r m, nw_machines net !! r = Some m ->
    exists voter self_id total leader peers sg,
      ds_pks (v_signature voter) = pks /\
      m = Machine_new voter self_id total leader
            (init_in_mem_storage total INIT_NODE INIT_NODE_HASH INIT_QC self_id peers sg).

(** ** What the store of a correct replica satisfies *)

(** The part of the store the argument is about. *)
Record Core := mkCore {
  co_queue : gmap NodeHash TreeNode;
  co_qc_high : GenericQC;
  co_leaf : TreeNode;
  co_vheight : Z;
  co_lock : TreeNode;
  co_commit : TreeNode;
}.

Definition core_of (s : HotstuffStorage) : Core :=
  mkCore (hss_in_mem_queue s) (HSS_get_qc_high s) (HSS_get_leaf s) (HSS_get_vheight s)
    (HSS_get_locked_node s) (HSS_get_last_committed s).

(** A kept proposal whose certificate names a stored one. *)
Definition node_ok L q n : Prop :=
  kept L n /\ (n = INIT_NODE \/ is_Some (q !! qc_node (node_justify n))).

(** The lock that a vote for [p] leaves behind is at most as high as [l]. *)
Definition locks_behind L p l : Prop :=
  exists b2, kept L b2 /\ TreeNode_hash b2 = node_parent p /\
    (b2 = INIT_NODE \/
     exists b, kept L b /\ TreeNode_hash b = node_parent b2 /\ node_height b <= node_height l).

(** What justified the commit of [b]: two more proposals on top of it, the last certified. *)
Definition commit_behind L b : Prop :=
  b = INIT_NODE \/
  exists b2 b3, kept L b2 /\ kept L b3 /\ node_parent b2 = TreeNode_hash b /\
    node_parent b3 = TreeNode_hash b2 /\ certified L (TreeNode_hash b3).

(** The proposal that [p] certifies is at most [z] high. *)
Definition prev_at_most L p (z : Z) : Prop :=
  exists prev, kept L prev /\ TreeNode_hash prev = node_parent p /\ node_height prev <= z.

(** [mine]: what the replica [r] voted for so far. *)
Record held L r (c : Core) (mine : list TreeNode) : Prop := {
  hd_keys h n : co_queue c !! h = Some n -> TreeNode_hash n = h;
  hd_stored h n : co_queue c !! h = Some n -> node_ok L (co_queue c) n;
  hd_leaf : node_ok L (co_queue c) (co_leaf c);
  hd_high : exists hq, co_queue c !! qc_node (co_qc_high c) = Some hq /\
    node_height hq <= co_vheight c /\ (co_lock c = INIT_NODE \/ node_height (co_lock c) < node_height hq) /\
    Forall (fun p => prev_at_most L p (node_height hq)) mine;
  hd_lock : kept L (co_lock c) /\ certified L (TreeNode_hash (co_lock c));
  hd_commit : kept L (co_commit c) /\ certified L (TreeNode_hash (co_commit c)) /\
    commit_behind L (co_commit c);
  hd_votes : Forall (fun p => (r, p) ∈ lg_made L \/ locks_behind L p (co_lock c)) mine;
}.

Lemma prev_at_most_mono L p z z' : z <= z' -> prev_at_most L p z -> prev_at_most L p z'.
Proof. intros Hz (prev & ? & ? & ?). exists prev. split; [done|]. split; [done|lia]. Qed.

Lemma locks_behind_mono L p l l' :
  node_height l <= node_height l' -> locks_behind L p l -> locks_behind L p l'.
Proof.
  intros Hl (b2 & ? & ? & Hb). exists b2. split; [done|]. split; [done|].
  destruct Hb as [?|(b & ? & ? & ?)]; [by left|right]. exists b. split; [done|]. split; [done|lia].
Qed.

Lemma node_ok_mono L q q' n :
  (forall h, is_Some (q !! h) -> is_Some (q' !! h)) -> node_ok L q n -> node_ok L q' n.
Proof. intros Hq [Hk [?|?]]; (split; [done|]); [by left|right; auto]. Qed.

(** ** The changes of the store *)

Section Changes.
Context (L : Ledger) (Hso : sound L) (r : string) (mine : list TreeNode).

Lemma insert_some q p h : is_Some (q !! h) -> is_Some (<[TreeNode_hash p:=p]> q !! h).
Proof. intros ?. rewrite lookup_insert. case_decide; eauto. Qed.

(** A stored proposal with the hash of another one has its height. *)
Lemma insert_height q p h n :
  n ∈ lg_seen L -> p ∈ lg_seen L -> TreeNode_hash n = h -> q !! h = Some n ->
  exists n', <[TreeNode_hash p:=p]> q !! h = Some n' /\ node_height n' = node_height n.
Proof.
  intros Hn Hp Hh Hq. rewrite lookup_insert. case_decide as E; [|by exists n].
  exists p. split; [done|]. by destruct (so_digest _ _ _ _ Hso p n Hp Hn) as [? _]; [congruence|].
Qed.

Lemma held_insert q qc leaf vh lock commit p :
  held L r (mkCore q qc leaf vh lock commit) mine -> node_ok L q p ->
  held L r (mkCore (<[TreeNode_hash p:=p]> q) qc leaf vh lock commit) mine.
Proof.
  intros [Hk Hs Hl (hq & Hq & Hvh & Hlo & Hm) ? ? ?] Hp. cbn in *.
  assert (Hmono : forall n, node_ok L q n -> node_ok L (<[TreeNode_hash p:=p]> q) n)
    by (intros n; apply node_ok_mono, insert_some).
  split; cbn; [by apply keys_insert| |by apply Hmono| |done|done|done].
  - intros h n [[_ <-]|[_ Hn]]%lookup_insert_Some; apply Hmono; [done|by eapply Hs].
  - destruct (insert_height q p (qc_node qc) hq) as (hq' & Hq' & Eh); [|by apply Hp|by apply Hk|done|].
    + by apply (Hs _ _ Hq).
    + exists hq'. rewrite Eh. auto.
Qed.

Lemma held_vheight q qc leaf vh vh' lock commit :
  vh <= vh' -> held L r (mkCore q qc leaf vh lock commit) mine ->
  held L r (mkCore q qc leaf vh' lock commit) mine.
Proof.
  intros Hle [? ? ? (hq & ? & ? & ?) ? ? ?]. split; try done. exists hq. cbn in *. split; [done|]. split; [lia|done].
Qed.

(** A higher certificate: the proposal it names becomes the leaf, its height the vote height. *)
Lemma held_raise q qc leaf vh lock commit hq qc' n :
  held L r (mkCore q qc leaf vh lock commit) mine ->
  q !! qc_node qc = Some hq -> q !! qc_node qc' = Some n -> node_height hq < node_height n ->
  held L r (mkCore q qc' n (node_height n) lock commit) mine.
Proof.
  intros [Hk Hs ? (hq' & Hq & ? & Hlo & Hm) ? ? ?] Hhq Hn Hlt. cbn in *.
  rewrite Hhq in Hq. injection Hq as <-. split; try done; cbn.
  - by eapply Hs.
  - exists n. split; [done|]. split; [lia|]. split; [destruct Hlo; [by left|right; lia]|].
    eapply Forall_impl; [exact Hm|]. intros p. apply prev_at_most_mono. lia.
Qed.

Lemma held_lock_up q qc leaf vh lock commit hq b :
  held L r (mkCore q qc leaf vh lock commit) mine ->
  q !! qc_node qc = Some hq -> kept L b -> certified L (TreeNode_hash b) ->
  node_height lock < node_height b < node_height hq ->
  held L r (mkCore q qc leaf vh b commit) mine.
Proof.
  intros [Hk Hs ? (hq' & Hq & ? & Hlo & Hm) ? ? Hv] Hhq Hb Cb Hlt. cbn in *.
  rewrite Hhq in Hq. injection Hq as <-. split; try done; cbn.
  - exists hq. split; [done|]. split; [done|]. split; [right; lia|done].
  - eapply Forall_impl; [exact Hv|]. intros p [?|?]; [by left|right]. eapply locks_behind_mono; [|done]. lia.
Qed.

Lemma held_commit_up q qc leaf vh lock commit b :
  held L r (mkCore q qc leaf vh lock commit) mine ->
  kept L b -> certified L (TreeNode_hash b) -> commit_behind L b ->
  held L r (mkCore q qc leaf vh lock b) mine.
Proof. intros [] Hb Cb Bb. by split. Qed.

Lemma held_vote c p :
  held L r c mine ->
  (exists hq, co_queue c !! qc_node (co_qc_high c) = Some hq /\ prev_at_most L p (node_height hq)) ->
  (r, p) ∈ lg_made L \/ locks_behind L p (co_lock c) -> held L r c (p :: mine).
Proof.
  intros [? ? ? (hq & Hq & ? & ? & ?) ? ? ?] (hq' & Hq' & Hp) Hl. rewrite Hq in Hq'. injection Hq' as <-.
  split; try done; [|by constructor]. exists hq. split_and!; try done. by constructor.
Qed.
End Changes.

(** ** What the certificates lead to *)

Section Chain.
Context (L : Ledger) (Hso : sound L) (r : string) (mine : list TreeNode) (c : Core) (Hc : held L r c mine).

(** The proposal one certificate below a stored one. *)
Lemma stored_below n b :
  node_ok L (co_queue c) n -> certified_by (co_queue c) n = Some b ->
  node_ok L (co_queue c) b /\ certified L (TreeNode_hash b) /\ TreeNode_hash b = node_parent n /\
  node_height b < node_height n.
Proof.
  intros [[Hs Hk] _] Hb. unfold certified_by in Hb.
  pose proof (hd_stored _ _ _ _ Hc _ _ Hb) as Hok. pose proof (hd_keys _ _ _ _ Hc _ _ Hb) as Hh.
  destruct Hk as [->|Hst].
  - exfalso. by apply (so_zero _ _ _ _ Hso b); [apply Hok|].
  - destruct (so_linked _ _ _ _ Hso n Hs Hst) as (Hl & _ & Hlt). split; [done|].
    rewrite Hh. split; [by eapply stands_certified|]. split; [done|]. apply Hlt; [apply Hok|congruence].
Qed.
End Chain.

(** The lock and the commit of [update_nodes], once [qc_high] is at or above [b3]. *)
Lemma held_chain L r mine q qc leaf vh lock commit hq p b3 :
  sound L -> held L r (mkCore q qc leaf vh lock commit) mine -> q !! qc_node qc = Some hq ->
  certified_by q p = Some b3 -> certified L (TreeNode_hash b3) -> node_height b3 <= node_height hq ->
  held L r (mkCore q qc leaf vh (default lock (new_lock q lock p)) (default commit (new_commit q commit p))) mine.
Proof.
  intros Hso Hc Hhq E3 C3 Hle. pose proof (hd_stored _ _ _ _ Hc _ _ E3) as Hok3. cbn in Hok3.
  unfold new_lock, new_commit. rewrite E3. cbn [mbind option_bind].
  destruct (certified_by q b3) as [b2|] eqn:E2; cbn [mbind option_bind]; [|exact Hc].
  destruct (stored_below L Hso r mine _ Hc b3 b2 Hok3 E2) as (Hok2 & C2 & H23 & Hlt2). cbn in Hok2.
  assert (Hl : held L r (mkCore q qc leaf vh
    (default lock (if node_height lock <? node_height b2 then Some b2 else None)) commit) mine).
  { destruct (Z.ltb_spec (node_height lock) (node_height b2)); cbn; [|exact Hc].
    eapply held_lock_up; [exact Hc|done|by apply Hok2|done|lia]. }
  destruct (certified_by q b2) as [b1|] eqn:E1; cbn [mbind option_bind]; [|exact Hl].
  destruct (stored_below L Hso r mine _ Hc b2 b1 Hok2 E1) as (Hok1 & C1 & H12 & _).
  destruct (bool_decide_reflect (node_parent b3 = TreeNode_hash b2)); [|exact Hl].
  destruct (bool_decide_reflect (node_parent b2 = TreeNode_hash b1)); [|exact Hl]. cbn [andb].
  destruct (_ <? node_height b1); cbn [default]; [|exact Hl].
  eapply held_commit_up; [exact Hl|apply Hok1|done|]. right.
  exists b2, b3. split; [apply Hok2|]. split; [apply Hok3|done].
Qed.

(** [update_nodes] keeps the invariant; afterwards [qc_high] and the lock are at least
    where the certificates of [p] lead. *)
Lemma held_update L r mine m p m' rd b3 :
  sound L -> HSS_inv (m_storage m) -> held L r (core_of (m_storage m)) mine ->
  Machine_update_nodes m p = Ret (m', rd) ->
  certified_by (hss_in_mem_queue (m_storage m)) p = Some b3 -> certified L (TreeNode_hash b3) ->
  held L r (core_of (m_storage m')) mine /\
  (exists hq, hss_in_mem_queue (m_storage m') !! qc_node (HSS_get_qc_high (m_storage m')) = Some hq /\
     node_height b3 <= node_height hq) /\
  (forall b2, certified_by (hss_in_mem_queue (m_storage m)) b3 = Some b2 ->
     node_height b2 <= node_height (HSS_get_locked_node (m_storage m'))).
Proof.
  intros Hso Hi Hheld Hu E3 C3.
  destruct (update_nodes_taken m p m' rd Hi Hu) as [_ [Tq Th Tl Tv Tk Tc _ _]].
  destruct (hd_high _ _ _ _ Hheld) as (hq & Ehq & _). cbn in Ehq.
  set (q := hss_in_mem_queue (m_storage m)) in *. set (lock := HSS_get_locked_node (m_storage m)) in *.
  assert (H1 : exists hq1, held L r (mkCore q (HSS_get_qc_high (m_storage m')) (HSS_get_leaf (m_storage m'))
                   (HSS_get_vheight (m_storage m')) lock (HSS_get_last_committed (m_storage m))) mine /\
    q !! qc_node (HSS_get_qc_high (m_storage m')) = Some hq1 /\ node_height b3 <= node_height hq1).
  { rewrite Th, Tl, Tv. unfold raised_leaf. rewrite Ehq, E3. cbn [mbind option_bind].
    destruct (Z.ltb_spec (node_height hq) (node_height b3)); cbn [default from_option];
      [exists b3|exists hq]; (split; [|by split; [|lia]]); [|exact Hheld].
    by eapply held_raise; [exact Hheld|done|exact E3|]. }
  destruct H1 as (hq1 & Hh1 & Eq1 & Hle1). rewrite Tq. split; [|split; [by exists hq1|]].
  - unfold core_of. rewrite Tq, Tk, Tc. by eapply held_chain.
  - intros b2 E2. rewrite Tk. unfold new_lock. rewrite E3. cbn [mbind option_bind]. rewrite E2.
    cbn [mbind option_bind]. destruct (Z.ltb_spec (node_height lock) (node_height b2)); cbn; [done|lia].
Qed.
End Network.
