(* ===== verification/Agreement.v ===== *)
(** * Correct replicas agree

    Every event keeps the invariant of [Network] and casts votes that respect the earlier
    ones; so in a sound run what one correct replica has committed through consecutive
    heights is on the branch of everything committed at or above it. *)

From S2P Require Import Prelude Crypto HsData CryptoKit Voter SafetyStorage Machine Quorum Ledger.
From S2P Require Import MachineSafety LivenessData Persistor Hss HssSafety HssWalk HssReach HssProposal.
From S2P Require Import ReplicaRefine Network.

Section Agreement.
Context `{TC : ThresholdCrypto} {C : Codec} (pks : PK) (all faulty : gset string).

Implicit Types (n p b : TreeNode) (m : Machine HotstuffStorage) (r : string) (L : Ledger).

#[local] Abbreviation certified := (certified all faulty).
#[local] Abbreviation stands := (stands pks).
#[local] Abbreviation kept := (kept pks).
#[local] Abbreviation sound := (sound pks all faulty).
#[local] Abbreviation held := (held pks all faulty).
#[local] Abbreviation vote_ok := (vote_ok pks all faulty).
#[local] Abbreviation stored m := (hss_in_mem_queue (m_storage m)).

(** ** Ancestry *)

(** Ancestry among the stored proposals is ancestry in the ledger. *)
Lemma extends_ancestor L (q : gmap NodeHash TreeNode) a b :
  (forall h n, q !! h = Some n -> n ∈ lg_seen L /\ TreeNode_hash n = h) -> a ∈ lg_seen L ->
  extends q a b -> ancestor L (TreeNode_hash b) (TreeNode_hash a).
Proof.
  intros Hq Ha H. revert Ha. induction H as [a b He|a p b Hp H IH]; intros Ha.
  - rewrite He. constructor.
  - destruct (Hq _ _ Hp) as [Hs Hh]. apply ancestor_up; [done|]. rewrite <-Hh. auto.
Qed.

(** A vote above the lock is for the branch of the lock or justified above it. *)
Lemma vote_rule_ancestor L m p prev :
  (forall h n, HSS_get (m_storage m) h = Some n -> n ∈ lg_seen L /\ TreeNode_hash n = h) ->
  p ∈ lg_seen L -> node_height (HSS_get_locked_node (m_storage m)) < node_height p ->
  vote_rule m p prev ->
  ancestor L (TreeNode_hash (HSS_get_locked_node (m_storage m))) (TreeNode_hash p) \/
  node_height (HSS_get_locked_node (m_storage m)) < node_height prev.
Proof.
  intros Hq Hp Hlt [_ [Hc|Hc]]; [left|by right].
  cbn [is_conflicting get_locked_node HSS_SafetyStorage] in Hc. unfold HSS_is_conflicting in Hc.
  destruct (Z.leb_spec (node_height (HSS_get_locked_node (m_storage m))) (node_height p)); [|lia].
  destruct (conflict_walk _ _ _ _) as [e|] eqn:E; [|done].
  apply conflict_walk_path in E as (ks & Hpath & _).
  injection Hc as He%bool_decide_eq_false. apply dec_stable in He.
  apply (extends_ancestor L (hss_in_mem_queue (m_storage m))); [exact Hq|done|].
  eauto using path_extends, extends_hash.
Qed.

(** ** A machine in a sound run *)

Section Machine.
Context (L : Ledger) (Hso : sound L) (r : string) (mine : list TreeNode).

(** What is known of the machine of [r]. *)
Record machine_ok m (votes : list TreeNode) : Prop := {
  mo_inv : HSS_inv (m_storage m);
  mo_pks : ds_pks (v_signature (m_voter m)) = pks;
  mo_held : held L r (core_of (m_storage m)) votes;
}.

Lemma stored_seen m h n : machine_ok m mine -> stored m !! h = Some n -> n ∈ lg_seen L /\ TreeNode_hash n = h.
Proof.
  intros [_ _ Hh] Hn. split; [|by apply (hd_keys _ _ _ _ _ _ _ Hh)].
  by apply (hd_stored _ _ _ _ _ _ _ Hh _ _ Hn).
Qed.

(** The check of the certificate, in terms of the run. *)
Lemma accepted_stands m qc :
  machine_ok m mine -> qc ∈ lg_certs L -> qc_accepted m qc ->
  stands L qc /\ exists b, stored m !! qc_node qc = Some b /\ TreeNode_hash b = qc_node qc /\
    certified L (TreeNode_hash b).
Proof.
  intros Hm Hc (b & Hb & Hv). destruct (stored_seen m _ b Hm Hb) as [Hs Hh].
  assert (Hst : stands L qc).
  { split; [done|]. exists b. split; [done|]. split; [done|]. destruct Hv as [?|Hv]; [by left|right].
    rewrite <-(mo_pks _ _ Hm). exact Hv. }
  split; [done|]. exists b. split; [done|]. split; [done|]. rewrite Hh. by eapply stands_certified.
Qed.

(** A proposal with an accepted certificate is stored. *)
Lemma append_ok m p :
  machine_ok m mine -> p ∈ lg_seen L -> stands L (node_justify p) ->
  is_Some (stored m !! qc_node (node_justify p)) -> machine_ok (Machine_append m p) mine.
Proof.
  intros [Hi Hpk Hh] Hs Hst Hq. split; [|done|].
  - apply HSS_inv_append_new_node with (n := p) in Hi. by destruct Hi.
  - change (held L r (mkCore (<[TreeNode_hash p:=p]> (stored m)) (HSS_get_qc_high (m_storage m))
      (HSS_get_leaf (m_storage m)) (Z.max (HSS_get_vheight (m_storage m)) (node_height p))
      (HSS_get_locked_node (m_storage m)) (HSS_get_last_committed (m_storage m))) mine).
    apply (held_vheight pks all faulty L r mine _ _ _ (HSS_get_vheight (m_storage m))); [lia|].
    apply held_insert; [done|exact Hh|]. split; [split; [done|by right]|by right].
Qed.

Lemma update_ok m p m' rd b3 :
  machine_ok m mine -> Machine_update_nodes m p = Ret (m', rd) ->
  stored m !! qc_node (node_justify p) = Some b3 -> certified L (TreeNode_hash b3) ->
  machine_ok m' mine /\
  (exists hq, stored m' !! qc_node (HSS_get_qc_high (m_storage m')) = Some hq /\
     node_height b3 <= node_height hq) /\
  (forall b2, stored m !! qc_node (node_justify b3) = Some b2 ->
     node_height b2 <= node_height (HSS_get_locked_node (m_storage m'))).
Proof.
  intros [Hi Hpk Hh] Hu E3 C3.
  destruct (held_update pks all faulty L r mine m p m' rd b3 Hso Hi Hh Hu E3 C3) as (Hh' & Hq & Hl).
  split; [|done]. split; [|by destruct (update_nodes_taken m p m' rd Hi Hu) as [-> _]|done].
  by destruct (update_nodes_le HSS_inv m p m' rd Hi Hu) as [_ _ _ ?]; auto.
Qed.

(** ** A new vote *)

(** A vote for [n] above the certificate held respects the earlier votes, if [n] extends a
    certified proposal that is at least as high as the lock. *)
Lemma new_vote_ok c n later hq :
  held L r c mine -> cast L r = later ++ n :: mine ->
  co_queue c !! qc_node (co_qc_high c) = Some hq -> node_height hq < node_height n ->
  (exists l, kept L l /\ certified L (TreeNode_hash l) /\
     ancestor L (TreeNode_hash l) (TreeNode_hash n) /\
     node_height (co_lock c) <= node_height l < node_height n) ->
  vote_ok L n mine.
Proof.
  intros Hh Hcast Hq Hlt (l & Hl & Cl & Ha & Hll). apply Forall_forall. intros x Hx.
  destruct (hd_high _ _ _ _ _ _ _ Hh) as (hq' & Hq' & _ & _ & Hm). rewrite Hq in Hq'. injection Hq' as <-.
  destruct (proj1 (Forall_forall _ _) Hm x Hx) as (prev & Hp & Hhp & Hle).
  destruct (Z.le_gt_cases (node_height n) (node_height x)) as [Hnx|Hnx].
  - left. apply (so_votes _ _ _ _ Hso r later n mine x prev Hcast Hx); [by apply Hp|done|lia].
  - right. split; [done|]. destruct (proj1 (Forall_forall _ _) (hd_votes _ _ _ _ _ _ _ Hh) x Hx) as [Hmd|Hlb].
    + by apply (so_leaders _ _ _ _ Hso r later n mine x).
    + destruct Hlb as (b2 & ? & ? & Hb). exists b2. split; [done|]. split; [done|].
      destruct Hb as [?|(b & ? & ? & ?)]; [by left|right]. exists b, l. split_and!; try done; lia.
Qed.

(** The lock is below the certificate held. *)
Lemma lock_below c hq :
  held L r c mine -> co_queue c !! qc_node (co_qc_high c) = Some hq ->
  node_height (co_lock c) <= node_height hq.
Proof.
  intros Hh Hq. destruct (hd_high _ _ _ _ _ _ _ Hh) as (hq' & Hq' & _ & Hlo & _).
  rewrite Hq in Hq'. injection Hq' as <-. destruct Hlo as [->|?]; [|lia].
  change (node_height INIT_NODE) with 0. eapply kept_nonneg; [done|]. by apply (hd_stored _ _ _ _ _ _ _ Hh _ _ Hq).
Qed.

(** ** Proposals *)

Section Proposal.
Context (m : Machine HotstuffStorage) (p b3 : TreeNode) (Hm : machine_ok m mine) (Hp : p ∈ lg_seen L)
  (Hst : stands L (node_justify p)) (E3 : stored m !! qc_node (node_justify p) = Some b3).

(** The certified proposal is the parent and lower. *)
Lemma prop_parent : kept L b3 /\ TreeNode_hash b3 = node_parent p /\ certified L (TreeNode_hash b3) /\
  node_height b3 < node_height p.
Proof.
  destruct (stored_seen m _ b3 Hm E3) as [Hs Hh]. destruct (so_linked _ _ _ _ Hso p Hp Hst) as (Hl & _ & Hlt).
  split; [by apply (hd_stored _ _ _ _ _ _ _ (mo_held _ _ Hm) _ _ E3)|]. split; [congruence|].
  split; [rewrite Hh; by eapply stands_certified|]. apply Hlt; [done|congruence].
Qed.

(** Storing the proposal does not hide the one its certificate names. *)
Lemma append_keeps : stored (Machine_append m p) !! qc_node (node_justify p) = Some b3.
Proof.
  change (stored (Machine_append m p)) with (<[TreeNode_hash p:=p]> (stored m)).
  rewrite lookup_insert_ne; [done|]. intros E. destruct (so_linked _ _ _ _ Hso p Hp Hst) as (Hl & _ & Hlt).
  specialize (Hlt p Hp). rewrite Hl, E in Hlt. specialize (Hlt eq_refl). lia.
Qed.

Lemma append_update_ok m' rd :
  Machine_update_nodes (Machine_append m p) p = Ret (m', rd) ->
  machine_ok m' mine /\ machine_ok m' (p :: mine).
Proof.
  intros Hu. destruct prop_parent as (Hk & Hh & C3 & Hlt).
  assert (Hm1 : machine_ok (Machine_append m p) mine) by (apply append_ok; eauto).
  destruct (update_ok _ p m' rd b3 Hm1 Hu append_keeps C3) as (Hm' & (hq & Hq & Hle) & Hlk).
  split; [done|]. destruct Hm' as [Hi Hpk Hh']. split; [done|done|]. apply held_vote; [done| |right].
  - exists hq. split; [done|]. by exists b3.
  - exists b3. split; [done|]. split; [done|].
    destruct (hd_stored _ _ _ _ _ _ _ (mo_held _ _ Hm1) _ _ append_keeps) as [[Hs _] [?|[b Hb]]]; [by left|right].
    pose proof (hd_stored _ _ _ _ _ _ _ (mo_held _ _ Hm1) _ _ append_keeps) as Hok3.
    destruct (stored_below _ _ _ L Hso r mine _ (mo_held _ _ Hm1) b3 b Hok3 Hb) as ([Hkb _] & _ & Hhb & _).
    exists b. split; [done|]. split; [done|]. by apply Hlk.
Qed.

Lemma prop_vote_ok later :
  vote_rule m p b3 -> cast L r = later ++ p :: mine -> vote_ok L p mine.
Proof.
  intros Hv Hcast. destruct prop_parent as (Hk & Hh & C3 & Hlt). pose proof (mo_held _ _ Hm) as Hheld.
  destruct (hd_high _ _ _ _ _ _ _ Hheld) as (hq & Hq & Hvh & _). pose proof (lock_below _ hq Hheld Hq) as Hlo.
  pose proof (proj1 Hv) as Hvp. cbn in Hq, Hvh, Hlo, Hvp.
  apply (new_vote_ok _ p later hq Hheld Hcast Hq); [lia|]. cbn [co_lock core_of].
  destruct (vote_rule_ancestor L m p b3) as [Ha|Hlb]; [|done|lia|done| |].
  - intros h n Hn. by apply (stored_seen m).
  - exists (HSS_get_locked_node (m_storage m)). destruct (hd_lock _ _ _ _ _ _ _ Hheld) as [? ?].
    split_and!; try done. lia.
  - exists b3. split_and!; try done; [|lia]. apply ancestor_up; [done|]. rewrite Hh. constructor.
Qed.
End Proposal.

(** The handler of a proposal. *)
Lemma proposal_ok m ctx p m' answer later :
  machine_ok m mine -> p ∈ lg_seen L -> node_justify p ∈ lg_certs L ->
  Machine_process_safety_event m (RecvProposal ctx p) = Ret (m', answer) ->
  cast L r = later ++ event_voted answer ++ mine ->
  machine_ok m' (event_voted answer ++ mine) /\
  Forall (fun n => vote_ok L n mine /\ n ∈ lg_seen L /\ stands L (node_justify n)) (event_voted answer).
Proof.
  intros Hm Hp Hc H Hcast.
  destruct (recv_proposal_cases HSS_inv m ctx p m' answer H)
    as [(_ & -> & ->)|(Hq & prev & Hg & [(Hv & -> & rd & Hu)|(_ & -> & rd & Hu)])]; [done| |].
  - destruct (accepted_stands m _ Hm Hc Hq) as (Hst & b & Hb & _). cbn in Hg. unfold HSS_get_node, HSS_get in Hg.
    rewrite Hg in Hb. injection Hb as <-. cbn [event_voted vote_ready app] in *. split.
    + by apply (append_update_ok m p prev Hm Hp Hst Hg m' rd).
    + constructor; [|done]. split; [|done]. by apply (prop_vote_ok m p prev Hm Hp Hst Hg later).
  - destruct (accepted_stands m _ Hm Hc Hq) as (Hst & b & Hb & _ & C3).
    split; [|constructor]. by apply (update_ok m p m' rd b).
Qed.

(** Synchronisation stores and takes certificates like a proposal, without a vote. *)
Lemma sync_ok branch : forall m m',
  machine_ok m mine -> Forall (fun p => p ∈ lg_seen L /\ node_justify p ∈ lg_certs L) branch ->
  Machine_branch_loop m branch = Ret m' -> machine_ok m' mine.
Proof.
  induction branch as [|p branch IH]; intros m m' Hm Hb H; cbn [Machine_branch_loop] in H; [by inv_ret; subst|].
  apply Forall_cons in Hb as [[Hp Hc] Hb].
  destruct (verify_proposal_spec m (node_justify p)) as [[Hq Ev]|[_ Ev]]; rewrite Ev in H; cbn [is_ok negb] in H;
    [|by inv_ret; subst].
  apply bind_Ret_inv in H as (m1 & H1 & H). apply (IH m1 m'); [|done|done].
  destruct (accepted_stands m _ Hm Hc Hq) as (Hst & b & Hg & _ & C3). unfold Machine_sync_one in H1.
  cbn [get_node HSS_SafetyStorage] in H1. unfold HSS_get_node, HSS_get in H1. rewrite Hg in H1.
  apply bind_Ret_inv in H1 as (m2 & H2 & H1). apply bind_Ret_inv in H1 as ([m3 rd] & Hu & H1).
  apply Ret_inv in H1 as <-. apply bind_Ret_inv in H2 as ([] & _ & H2); apply Ret_inv in H2 as <-.
  - by apply (append_update_ok m p b Hm Hp Hst Hg m3 rd).
  - by apply (update_ok m p m3 rd b).
Qed.

(** ** Certificates that arrive alone, and own proposals *)

(** A store whose [qc_high] may have been raised to a proposal it holds. *)
Lemma qc_high_ok m n qc :
  machine_ok m mine -> node_ok pks L (stored m) n -> qc_node qc = TreeNode_hash n ->
  machine_ok (set_storage m (HSS_update_qc_high (m_storage m) n qc)) mine.
Proof.
  intros [Hi Hpk Hh] Hn Hqc. split; [by apply HSS_inv_update_qc_high|done|].
  unfold HSS_update_qc_high. cbn [m_storage set_storage].
  destruct (hd_high _ _ _ _ _ _ _ Hh) as (hq & Hq & _). cbn in Hq. unfold HSS_get. rewrite Hq.
  destruct (Z.ltb_spec (node_height hq) (node_height n)) as [Hlt|]; [|done].
  change (held L r (mkCore (<[TreeNode_hash n:=n]> (stored m)) qc n (node_height n)
    (HSS_get_locked_node (m_storage m)) (HSS_get_last_committed (m_storage m))) mine).
  destruct (insert_height pks all faulty L Hso (stored m) n (qc_node (HSS_get_qc_high (m_storage m))) hq)
    as (hq' & Hq' & Eh); [by apply (hd_stored _ _ _ _ _ _ _ Hh _ _ Hq)|by apply Hn|by apply (hd_keys _ _ _ _ _ _ _ Hh)|done|].
  eapply held_raise; [eapply held_insert; [done|exact Hh|exact Hn]|exact Hq'| |lia].
  rewrite Hqc. apply lookup_insert_eq.
Qed.

(** A leader proposes and signs. *)
Lemma beat_ok m cmds m' answer later :
  machine_ok m mine -> Machine_on_beat m cmds = (m', answer) ->
  let p := Machine_make_leaf m cmds in
  (r, p) ∈ lg_made L -> p ∈ lg_seen L -> cast L r = later ++ p :: mine ->
  machine_ok m' (p :: mine) /\ vote_ok L p mine.
Proof.
  intros Hm Hb p Hmd Hp Hcast. pose proof (mo_held _ _ Hm) as Hh.
  destruct (hd_high _ _ _ _ _ _ _ Hh) as (hq & Hq & Hvh & _). cbn in Hq, Hvh.
  pose proof (so_made _ _ _ _ Hso r p Hmd) as Hst. change (node_justify p) with (HSS_get_qc_high (m_storage m)) in Hst.
  destruct (prop_parent m p hq Hm Hp Hst Hq) as (Hk & Hhp & Chq & Hlt).
  pose proof (lock_below _ hq Hh Hq) as Hlo. cbn in Hlo.
  assert (Hok : node_ok pks L (stored m) p) by (split; [split; [done|by right]|right; eauto]).
  injection Hb as <- _. split.
  - destruct Hm as [Hi Hpk _]. split.
    + apply HSS_inv_update_leaf with (n := p) in Hi. exact Hi.
    + cbn [m_voter set_voter set_storage]. by rewrite Voter_add_vote_signature.
    + change (held L r (mkCore (<[TreeNode_hash p:=p]> (stored m)) (HSS_get_qc_high (m_storage m)) p (node_height p)
        (HSS_get_locked_node (m_storage m)) (HSS_get_last_committed (m_storage m))) (p :: mine)).
      destruct (insert_height pks all faulty L Hso (stored m) p (qc_node (HSS_get_qc_high (m_storage m))) hq)
        as (hq2 & E2 & Eh); [by apply Hk|done|by apply (hd_keys _ _ _ _ _ _ _ Hh)|done|].
      pose proof (held_insert pks all faulty L Hso r mine _ _ _ _ _ _ p Hh Hok) as Hh1. apply held_vote; [|..|by left].
      * destruct Hh1 as [? ? ? (hq' & Hq' & ? & ? & ?) ? ? ?]. split; try done.
        -- apply (node_ok_mono pks L (stored m)); [apply insert_some|done].
        -- exists hq'. cbn in *. split; [done|]. split; [|done].
           rewrite E2 in Hq'. injection Hq' as <-. lia.
      * exists hq2. split; [done|]. exists hq. split; [done|]. split; [done|lia].
  - apply (new_vote_ok (core_of (m_storage m)) p later hq); [done|done|done|done|].
    exists hq. split; [done|]. split; [done|]. split; [|split; [exact Hlo|exact Hlt]]. apply ancestor_up; [done|]. rewrite Hhp. constructor.
Qed.

(** The handler of a vote. *)
Lemma machine_ok_same m m' votes :
  m_storage m' = m_storage m -> v_signature (m_voter m') = v_signature (m_voter m) ->
  machine_ok m votes -> machine_ok m' votes.
Proof. intros Es Ev [? ? ?]. split; rewrite ?Es, ?Ev; done. Qed.

Lemma recv_vote_ok m ctx p sg m' answer :
  machine_ok m mine -> Machine_on_recv_vote m ctx p sg = Ret (m', answer) ->
  vote_for_leaf m (RecvSign ctx p sg) answer -> machine_ok m' mine /\ event_voted answer = [].
Proof.
  intros Hm H Hleaf. unfold Machine_on_recv_vote in H.
  destruct (negb _); [apply Ret_inv, pair_eq in H as [<- <-]; done|].
  pose proof (Voter_add_vote_signature (m_voter m) ctx (node_height p) sg) as E1.
  destruct (Voter_add_vote _ _ _ _) as [v1 added]. cbn [fst] in E1.
  assert (Hm1 : machine_ok (set_voter m v1) mine) by by apply (machine_ok_same m).
  destruct added as [[]|e]; [|apply Ret_inv, pair_eq in H as [<- <-]; done].
  destruct (_ <? _); [|apply Ret_inv, pair_eq in H as [<- <-]; done].
  apply bind_Ret_inv in H as ([v2 combined] & Ec & H). apply Voter_combine_signature in Ec.
  assert (Hm2 : machine_ok (set_voter (set_voter m v1) v2) mine) by (apply (machine_ok_same (set_voter m v1)); done).
  destruct combined as [c|e]; apply Ret_inv, pair_eq in H as [<- <-]; [|done].
  split; [|done]. cbn in Hleaf. subst p. apply qc_high_ok; [done| |done].
  exact (hd_leaf _ _ _ _ _ _ _ (mo_held _ _ Hm)).
Qed.

(** Every event. *)
Lemma network_event_ok m req m' answer later :
  machine_ok m mine -> Machine_process_safety_event m req = Ret (m', answer) -> vote_for_leaf m req answer ->
  Forall (fun p => p ∈ lg_seen L /\ node_justify p ∈ lg_certs L) (event_props req ++ event_made answer) ->
  Forall (fun p => (r, p) ∈ lg_made L) (event_made answer) ->
  cast L r = later ++ event_voted answer ++ mine ->
  machine_ok m' (event_voted answer ++ mine) /\
  Forall (fun n => vote_ok L n mine /\ n ∈ lg_seen L /\ stands L (node_justify n)) (event_voted answer).
Proof.
  intros Hm H Hleaf Hprops Hmade Hcast. apply Forall_app in Hprops as [Hprops Hnew].
  destruct req as [|ctx p|ctx p sg|ctx qc| | |cmds|ctx ld|ctx branch]; cbn [Machine_process_safety_event] in H;
    try (apply Ret_inv, pair_eq in H as [<- <-]; done).
  - apply Forall_cons in Hprops as [[? ?] _]. by apply (proposal_ok m ctx p m' answer later).
  - destruct (recv_vote_ok m ctx p sg m' answer Hm H Hleaf) as [? ->]. done.
  - apply Ret_inv, pair_eq in H as [<- <-]. cbn. split; [|done].
    unfold HSS_get_node, HSS_get. destruct (stored m !! qc_node qc) as [n|] eqn:E; [|done].
    apply qc_high_ok; [done|by apply (hd_stored _ _ _ _ _ _ _ (mo_held _ _ Hm) _ _ E)|].
    symmetry. by apply (hd_keys _ _ _ _ _ _ _ (mo_held _ _ Hm)).
  - destruct (Machine_on_beat m cmds) as [m1 a1] eqn:Eb. apply Ret_inv, pair_eq in H as [-> ->].
    assert (Ea : exists c, answer = Ok (NewProposal c (Machine_make_leaf m cmds)))
      by (injection Eb as _ <-; eauto). destruct Ea as [c ->].
    cbn [event_voted event_made app] in *. apply Forall_cons in Hmade as [Hmade _].
    apply Forall_cons in Hnew as [[Hs _] _].
    destruct (beat_ok m cmds m' _ later Hm Eb Hmade Hs Hcast) as [? ?]. split; [done|].
    constructor; [|done]. split; [done|]. split; [done|]. by apply (so_made _ _ _ _ Hso r).
  - apply Ret_inv, pair_eq in H as [<- <-]. split; [|done].
    apply (machine_ok_same m); [by destruct (_ && _)..|done].
  - apply bind_Ret_inv in H as (m1 & H1 & H). apply Ret_inv, pair_eq in H as [<- <-]. split; [|done].
    by apply (sync_ok branch m m1).
Qed.
End Machine.

(** ** The system *)

(** The ledger of an earlier state of a run. *)
Record earlier_ledger L0 L : Prop := {
  el_seen : lg_seen L0 ⊆ lg_seen L;
  el_certs : lg_certs L0 ⊆ lg_certs L;
  el_made : lg_made L0 ⊆ lg_made L;
  el_votes : lg_votes L0 `suffix_of` lg_votes L;
}.

#[local] Instance earlier_ledger_preorder : PreOrder earlier_ledger.
Proof. split; [by intros L; split|]. intros L1 L2 L3 [] []. split; by etransitivity. Qed.

Lemma ledger_after_earlier L r req answer : earlier_ledger L (ledger_after L r req answer).
Proof. split; cbn; try (intros x Hx; apply elem_of_app; by right). by apply suffix_app_r. Qed.

Lemma net_step_earlier net net' :
  net_step all faulty net net' -> earlier_ledger (nw_ledger net) (nw_ledger net').
Proof. intros []; [apply ledger_after_earlier|reflexivity]. Qed.

Lemma cast_app L r later votes : lg_votes L = later ++ votes ->
  cast L r = omap (fun rp => if decide (rp.1 = r) then Some rp.2 else None) later ++
             omap (fun rp => if decide (rp.1 = r) then Some rp.2 else None) votes.
Proof. intros E. unfold cast. by rewrite E, omap_app. Qed.

Lemma cast_after L r r' req answer :
  cast (ledger_after L r req answer) r' =
    (if decide (r = r') then event_voted answer else []) ++ cast L r'.
Proof.
  rewrite (cast_app _ _ (pair r <$> event_voted answer) (lg_votes L)) by done. f_equal.
  induction (event_voted answer) as [|p l IH]; [by case_decide|]. rewrite fmap_cons. cbn.
  rewrite IH. by case_decide.
Qed.

(** What holds in every state of a run whose final ledger [L] is sound. *)
Record net_ok L (net : Net) : Prop := {
  no_init : INIT_NODE ∈ lg_seen (nw_ledger net);
  no_machine r m : nw_machines net !! r = Some m -> machine_ok L r m (cast (nw_ledger net) r);
  no_history r : safe_history pks all faulty L (cast (nw_ledger net) r);
  no_vote r p : (r, p) ∈ lg_votes (nw_ledger net) -> r ∈ all /\ p ∈ lg_seen L /\ stands L (node_justify p);
}.

Lemma net_deliver_ok L net r m req m' answer :
  sound L -> net_ok L net -> r ∈ all -> nw_machines net !! r = Some m ->
  Machine_process_safety_event m req = Ret (m', answer) -> vote_for_leaf m req answer ->
  earlier_ledger (ledger_after (nw_ledger net) r req answer) L ->
  machine_ok L r m' (event_voted answer ++ cast (nw_ledger net) r) /\
  Forall (fun n => vote_ok L n (cast (nw_ledger net) r) /\ n ∈ lg_seen L /\ stands L (node_justify n))
    (event_voted answer).
Proof.
  intros Hso [_ Hmach _ _] Hall Hm Hrun Hleaf [Hs Hc Hmd [later Hv]]. cbn in Hs, Hc, Hmd, Hv.
  pose proof (cast_app L r later _ Hv) as Ecast.
  change (omap _ ((pair r <$> event_voted answer) ++ lg_votes (nw_ledger net)))
    with (cast (ledger_after (nw_ledger net) r req answer) r) in Ecast.
  rewrite cast_after, decide_True in Ecast by done.
  eapply network_event_ok; [done|by apply Hmach|done|done| | |exact Ecast]; apply Forall_forall; intros p Hp.
  - split; [apply Hs, elem_of_app; by left|]. apply Hc, elem_of_app. left. by apply list_elem_of_fmap_2.
  - apply Hmd, elem_of_app. left. by apply list_elem_of_fmap_2.
Qed.

Lemma net_step_ok L net net' :
  sound L -> net_ok L net -> net_step all faulty net net' -> earlier_ledger (nw_ledger net') L -> net_ok L net'.
Proof.
  intros Hso Hok Hstep Hle. pose proof Hok as [Hin Hmach Hhist Hvote].
  destruct Hstep as [r m req m' answer Hall _ Hm Hrun Hleaf|r m leader view Hm]; cbn in Hle.
  - destruct (net_deliver_ok L net r m req m' answer) as [Hm' Hnew]; try done. split; cbn [nw_ledger nw_machines].
    + apply elem_of_app. by right.
    + intros r' m2 [[<- <-]|[Hne H2]]%lookup_insert_Some; rewrite cast_after;
        [by rewrite decide_True|rewrite decide_False by done; by apply Hmach].
    + intros r'. rewrite cast_after. case_decide as E; [|apply Hhist]. subst r'.
      destruct answer as [[]|]; cbn [event_voted app] in *; try apply Hhist;
        (split; [by apply Forall_cons in Hnew as [[? _] _]|apply Hhist]).
    + intros r' p [Hp|Hp]%elem_of_app; [|by apply Hvote].
      apply list_elem_of_fmap in Hp as (x & [= -> ->] & Hx). split; [done|].
      rewrite Forall_forall in Hnew. by destruct (Hnew _ Hx).
  - split; cbn; [done| |done|done].
    intros r' m2 [[<- <-]|[Hne H2]]%lookup_insert_Some; [|by apply Hmach].
    specialize (Hmach r m Hm). unfold Machine_on_view_change. destruct (_ <? _); [|done].
    destruct Hmach as [[] ? Hh]. by split.
Qed.

Lemma net_fresh_ok L net :
  net_fresh pks net -> INIT_NODE ∈ lg_seen L -> net_ok L net.
Proof.
  intros [EL Hf] Hin. split; rewrite ?EL; [by left| |done|by intros ?? ?%not_elem_of_nil].
  intros r m Hm. destruct (Hf r m Hm) as (voter & self_id & total & leader & peers & sg & Hpk & ->).
  assert (Hk : kept L INIT_NODE) by (split; [done|by left]).
  assert (Hok : forall q, node_ok pks L q INIT_NODE) by (intros q; split; [done|by left]).
  split; [apply HSS_inv_init|done|]. split; cbn.
  - intros h n. rewrite lookup_insert_Some. intros [[<- <-]|[_ Hn]]; [done|by rewrite lookup_empty in Hn].
  - intros h n. rewrite lookup_insert_Some. intros [[<- <-]|[_ Hn]]; [done|by rewrite lookup_empty in Hn].
  - done.
  - exists INIT_NODE. split; [apply lookup_insert_eq|]. split; [done|]. split; [by left|done].
  - split; [done|by left].
  - split; [done|]. split; [by left|by left].
  - done.
Qed.

Lemma net_reach_ok net0 net L :
  net_fresh pks net0 -> net_reach all faulty net0 net -> sound L -> earlier_ledger (nw_ledger net) L -> net_ok L net.
Proof.
  intros Hf H Hso. induction H as [|net1 net2 Hr IH Hs]; intros Hle.
  - apply net_fresh_ok; [done|]. apply Hle. destruct Hf as [-> _]. by left.
  - eapply net_step_ok; [done| |exact Hs|done]. apply IH. etransitivity; [by apply net_step_earlier|done].
Qed.

(** ** Agreement *)

(** Two proposals on top of [b], the higher one certified, have the next two heights. *)
Definition no_gap L b : Prop :=
  forall b2 b3, b2 ∈ lg_seen L -> b3 ∈ lg_seen L -> node_parent b2 = TreeNode_hash b ->
    node_parent b3 = TreeNode_hash b2 -> certified L (TreeNode_hash b3) ->
    node_height b2 = node_height b + 1 /\ node_height b3 = node_height b + 2.

(** C2. Agreement of correct replicas that run the code unchanged, in a system with less
    than a third of faulty ones. Start from fresh replicas and take any sequence of safety
    events of any kind (proposals, votes, new-view messages, transactions for a leader,
    synchronised branches), sent by anyone in any order, and of view changes. If the run
    is sound and no two proposals stacked on c1, the upper one certified, skip a height,
    then the last commit c1 of one correct replica is an ancestor of the last commit of
    any other that is at least as high. Sound means: (1) a certificate that verifies has
    votes of a quorum behind it, counting all faulty replicas, and the digest has no
    collisions and no zero hash among the proposals in circulation; (2) what the code does
    not check of its input: no forged initial certificate, a proposal whose certificate is
    accepted has the certified proposal as parent and is higher, the certificate a leader
    builds on verifies, and the vote that completes a quorum is for the leader's leaf; (3)
    two weaknesses of the code did not show: no correct replica, after signing p, signs
    another proposal that is above the height p certifies but not above p, and none, after
    proposing p itself, signs a proposal that does not extend a certified one as high as
    the grandparent of p. That votes do not fall below this window, that locks are
    respected and that a commit has three linked certificates behind it is what the
    machine contributes. *)
Theorem agreement net0 net r1 r2 m1 m2 :
  Z.of_nat (size all) < 2 ^ 63 -> (3 * size faulty < size all)%nat -> faulty ⊆ all ->
  net_fresh pks net0 -> net_reach all faulty net0 net -> sound (nw_ledger net) ->
  nw_machines net !! r1 = Some m1 -> nw_machines net !! r2 = Some m2 ->
  let c1 := HSS_get_last_committed (m_storage m1) in
  let c2 := HSS_get_last_committed (m_storage m2) in
  no_gap (nw_ledger net) c1 -> node_height c1 <= node_height c2 ->
  ancestor (nw_ledger net) (TreeNode_hash c1) (TreeNode_hash c2).
Proof.
  intros Hbound Hthird Hsub Hf Hreach Hso H1 H2 c1 c2 Hgap Hle.
  destruct (net_reach_ok net0 net (nw_ledger net) Hf Hreach Hso) as [Hin Hmach Hhist Hvote]; [reflexivity|].
  assert (Hinv : ledger_inv pks all faulty (nw_ledger net)) by by split.
  destruct (hd_commit _ _ _ _ _ _ _ (mo_held _ _ _ _ (Hmach _ _ H1))) as (Hk1 & _ & Hb1).
  destruct (hd_commit _ _ _ _ _ _ _ (mo_held _ _ _ _ (Hmach _ _ H2))) as (Hk2 & Hc2 & _).
  cbn in Hk1, Hb1, Hk2, Hc2. fold c1 c2 in Hk1, Hb1, Hk2, Hc2.
  destruct Hb1 as [->|(b2 & b3 & K2 & K3 & P2 & P3 & C3)]; [by eapply kept_from_init|].
  destruct (Hgap b2 b3) as [E2 E3]; [by apply K2|by apply K3|done|done|done|].
  by eapply certified_extends with (b2 := b2) (b3 := b3).
Qed.
End Agreement.
