(* ===== verification/LeaderRound.v ===== *)
(** * A round of the protocol reaches a certificate

    A leader with a batch of transactions, replicas that are willing to vote, and the votes
    on their way back: the last vote of a quorum makes the leader form a certificate of its
    own proposal, which every replica of the system accepts.  Any threshold scheme that
    keeps its promises, any stores, any number of replicas. *)

From S2P Require Import Prelude Crypto HsData CryptoKit Voter SafetyStorage Machine.
From S2P Require Import MachineSafety MachineSync MachineInvariant LivenessData Persistor Hss HssSafety.
From S2P Require Import HssWalk HssReach.

Section LeaderRound.
Context `{TC : ThresholdCrypto} {Laws : ThresholdCryptoLaws} {C : Codec} (s : SecretKeySet).

Implicit Types (m x : Machine HotstuffStorage) (p : TreeNode) (vs : list (string * Z)).

(** The member of index [i] of the system with the key set [s]. *)
Definition member (i : Z) : DefaultSignaturer :=
  DefaultSignaturer_new i (public_keys s) (secret_key_share s i).

(** A leader in view [v] that is about to make the first proposal of that view: nobody has
    voted in it, and what it has certified is lower. *)
Record ready_to_lead m (i v : Z) : Prop := {
  rl_view : HSS_get_view (m_storage m) = v;
  rl_member : v_signature (m_voter m) = member i;
  rl_votes : Voter_votes (m_voter m) v = ∅;
  rl_threshold : v_threshold (m_voter m) = Machine_threshold m;
  rl_pos : 0 < Machine_threshold m;
  rl_scheme : pks_threshold (public_keys s) <= Machine_threshold m;
  rl_high : exists old, HSS_get (m_storage m) (qc_node (HSS_get_qc_high (m_storage m))) = Some old /\
              node_height old < v;
}.

(** A replica that votes for [p] in view [v]: it knows what [p] certifies, [p] is higher than
    its last vote and on the branch of its lock. *)
Record willing x (i v : Z) p : Prop := {
  wl_member : v_signature (m_voter x) = member i;
  wl_view : HSS_get_view (m_storage x) = v;
  wl_qc : qc_accepted x (node_justify p);
  wl_height : HSS_get_vheight (m_storage x) < node_height p;
  wl_branch : HSS_is_conflicting (m_storage x) p (HSS_get_locked_node (m_storage x)) = Some false;
}.

(** The vote of the member [i], named [id], for [p]. *)
Definition share_of p (i : Z) : SignKit := sign (member i) p.
Definition vote_msg (leader : ReplicaID) (v : Z) p (id : string) (i : Z) : SafetyEvent :=
  RecvSign (Context_single id leader v) p (share_of p i).

Lemma willing_votes x i v p leader :
  willing x i v p ->
  exists x', Machine_process_safety_event x (RecvProposal (Context_broadcast leader v) p) =
    Ret (x', Ok (Signature (Context_single (m_self_id x) leader v) p (share_of p i))).
Proof.
  intros [Hm Hv Hq Hh Hb]. pose proof Hq as (prev & Hg & _).
  destruct (update_nodes_total HSS_inv (Machine_append x p) p) as (x' & rd & Hu). exists x'.
  rewrite (recv_accepted HSS_inv x _ p prev x' rd Hq Hg); [|clear Hu|exact Hu].
  - unfold vote_ready, Voter_sign. rewrite Hm. cbn [get_view HSS_SafetyStorage ctx_from Context_broadcast].
    by rewrite Hv.
  - unfold Machine_accepts, Machine_safe_node. cbn [get_vheight is_conflicting get_locked_node HSS_SafetyStorage].
    destruct (Z.ltb_spec (HSS_get_vheight (m_storage x)) (node_height p)); [|lia]. by rewrite Hb.
Qed.

(** ** Counting *)

Section Count.
Context (m1 : Machine HotstuffStorage) (i v : Z) (p : TreeNode) (leader : ReplicaID)
  (Hp : node_height p = v).

Definition ballot_of (id_i : string * Z) : string * SignKit := (id_i.1, share_of p id_i.2).

(** [m] is the same replica as [m1], with the same votes in every view but [v]. *)
Record vote_frame m : Prop := {
  vf_self : m_self_id m = m_self_id m1;
  vf_total : m_total m = m_total m1;
  vf_member : v_signature (m_voter m) = member i;
  vf_threshold : v_threshold (m_voter m) = Machine_threshold m1;
  vf_other w : w <> v -> Voter_votes (m_voter m) w = Voter_votes (m_voter m1) w;
}.

(** [m] is [m1] with the votes of [acc] counted. *)
Record counted_votes m (acc : list (string * Z)) : Prop := {
  cv_storage : m_storage m = m_storage m1;
  cv_frame : vote_frame m;
  cv_votes : Voter_votes (m_voter m) v = list_to_map (ballot_of <$> acc);
}.

Lemma ballot_keys acc : (ballot_of <$> acc).*1 = acc.*1.
Proof. rewrite <-list_fmap_compose. by apply list_fmap_ext. Qed.

Lemma ballots_len acc :
  NoDup acc.*1 -> map_len (list_to_map (ballot_of <$> acc) : gmap string SignKit) = Z.of_nat (length acc).
Proof.
  intros Hnd. unfold map_len.
  rewrite <-length_map_to_list, map_to_list_to_map by (by rewrite ballot_keys). by rewrite length_fmap.
Qed.

Lemma ballots_combine acc :
  NoDup acc.*1 -> NoDup acc.*2 -> pks_threshold (public_keys s) < Z.of_nat (length acc) ->
  exists c, combine_partial_sign (member i) (map_values (list_to_map (ballot_of <$> acc) : gmap string SignKit))
              = Ok c /\ pk_verify (public_keys s) c (TreeNode_to_be_bytes p) = true.
Proof.
  intros Hk Hi Hth. set (votes := map_values _).
  assert (Hperm : votes ≡ₚ (ballot_of <$> acc).*2).
  { unfold votes, map_values. by rewrite map_to_list_to_map by (by rewrite ballot_keys). }
  apply (DefaultSignaturer_combine_ok (member i) s p votes); [done|..].
  - rewrite Hperm. apply Forall_fmap, Forall_fmap, Forall_true. by intros [id j].
  - rewrite Hperm, <-!list_fmap_compose.
    replace (kit_sign_id ∘ snd ∘ ballot_of <$> acc) with acc.*2; [done|]. by apply list_fmap_ext.
  - rewrite Hperm, !length_fmap. done.
Qed.

Context (Hth : 0 <= Machine_threshold m1) (Hscheme : pks_threshold (public_keys s) <= Machine_threshold m1).

(** What the last vote of a quorum leaves. *)
Definition certified_state m (r : result Ready SafetyErr) : Prop :=
  r = Ok (ProposalReachConsensus (HSS_get_view (m_storage m1))) /\
  vote_frame m /\ Voter_votes (m_voter m) v = ∅ /\
  exists c, pk_verify (public_keys s) c (TreeNode_to_be_bytes p) = true /\
    m_storage m = HSS_update_qc_high (m_storage m1) p
      (GenericQC_new (HSS_get_view (m_storage m1)) (TreeNode_hash (HSS_get_leaf (m_storage m1))) c).

Lemma lookup_delete_votes (voter : Voter DefaultSignaturer) :
  Voter_votes (Voter_set_voting_set (Voter_decide voter) (delete v (v_voting_set voter))) v = ∅.
Proof. unfold Voter_votes. cbn. by rewrite lookup_delete_eq. Qed.

Lemma vote_frame_decide m voter st :
  vote_frame (set_voter m voter) ->
  vote_frame (set_storage (set_voter (set_voter m voter)
    (Voter_set_voting_set (Voter_decide voter) (delete v (v_voting_set voter)))) st).
Proof.
  intros [Hs Ht Hm Ht2 Ho]. split; try done. intros w Hw. rewrite <-(Ho w Hw).
  unfold Voter_votes. cbn. by rewrite lookup_delete_ne.
Qed.

Lemma count_vote m acc id j :
  counted_votes m acc -> NoDup (id :: acc.*1) -> NoDup (j :: acc.*2) ->
  exists m' r, Machine_process_safety_event m (vote_msg leader v p id j) = Ret (m', r) /\
    if Machine_threshold m1 <? Z.of_nat (S (length acc)) then certified_state m' r
    else r = Ok Nil /\ counted_votes m' ((id, j) :: acc).
Proof.
  intros [Es [Eself Et Em Eth Eo] Ev] Hk Hi. cbn [Machine_process_safety_event vote_msg].
  destruct (on_recv_vote_fresh m (Context_single id leader v) p (share_of p j)) as [Hvotes Heq].
  { unfold Voter_validate_vote. rewrite Em. apply share_verify_ok. }
  { rewrite Hp, Ev. apply not_elem_of_list_to_map_1. rewrite ballot_keys. by apply NoDup_cons in Hk as [? _]. }
  rewrite Heq. clear Heq. cbn zeta. rewrite Hp, Ev in Hvotes. rewrite Hp.
  set (v' := (Voter_add_vote (m_voter m) (Context_single id leader v) v (share_of p j)).1) in *.
  change (<[_:=_]> (list_to_map (ballot_of <$> acc))) with
    (list_to_map (ballot_of <$> (id, j) :: acc) : gmap string SignKit) in Hvotes.
  assert (Hf : vote_frame (set_voter m v')).
  { unfold v', Voter_add_vote. destruct (_ !! ctx_from _); split; try done;
      intros w Hw; rewrite <-(Eo w Hw); unfold Voter_votes; cbn; by rewrite lookup_insert_ne. }
  assert (Esig : v_signature v' = member i) by apply Hf.
  assert (Evth : v_threshold v' = Machine_threshold m1) by apply Hf.
  assert (Hsize : map_len (Voter_votes v' v) = Z.of_nat (S (length acc)))
    by (rewrite Hvotes; by apply ballots_len).
  replace (Machine_threshold (set_voter m v')) with (Machine_threshold m1)
    by (unfold Machine_threshold; cbn; by rewrite Et).
  rewrite Voter_vote_set_size_votes, Hsize.
  destruct (Z.ltb_spec (Machine_threshold m1) (Z.of_nat (S (length acc)))) as [Hlt|Hge].
  - rewrite Voter_combine_enough by (rewrite Hsize, Evth; lia). cbn [mbind outcome_bind].
    destruct (ballots_combine ((id, j) :: acc)) as (c & Hc & Hv); [done|done|simpl; lia|].
    rewrite Esig, Hvotes, Hc. cbn [map_err]. do 2 eexists. split; [reflexivity|].
    unfold certified_state. cbn [m_storage set_storage set_voter]. rewrite Es. split; [done|].
    split; [by apply vote_frame_decide|]. split; [apply lookup_delete_votes|].
    exists c. split; [exact Hv|]. unfold formed_qc. cbn [m_storage set_voter]. by rewrite Es.
  - do 2 eexists. split; [reflexivity|]. split; [done|]. by split.
Qed.

Lemma count_votes m acc vs :
  counted_votes m acc -> NoDup (vs ++ acc).*1 -> NoDup (vs ++ acc).*2 ->
  Z.of_nat (length acc) <= Machine_threshold m1 ->
  Z.of_nat (length (vs ++ acc)) = Machine_threshold m1 + 1 ->
  exists m' rs r, Machine_run m (uncurry (vote_msg leader v p) <$> vs) = Ret (m', rs) /\
    last rs = Some r /\ certified_state m' r.
Proof.
  revert m acc. induction vs as [|[id j] vs IH]; intros m acc Hc Hk Hi Hle Hlen; [simpl in Hlen; lia|].
  assert (Hperm : (id, j) :: vs ++ acc ≡ₚ vs ++ (id, j) :: acc) by apply Permutation_middle.
  destruct (count_vote m acc id j Hc) as (m2 & r & H2 & Hr).
  { rewrite fmap_app in Hk. exact (NoDup_head_app id vs.*1 acc.*1 Hk). }
  { rewrite fmap_app in Hi. exact (NoDup_head_app j vs.*2 acc.*2 Hi). }
  cbn [fmap list_fmap Machine_run uncurry]. rewrite H2. cbn [mbind outcome_bind].
  destruct vs as [|x vs].
  - assert ((Machine_threshold m1 <? Z.of_nat (S (length acc))) = true) as E
      by (apply Z.ltb_lt; simpl in Hlen; lia).
    rewrite E in Hr. exists m2, [r], r. done.
  - assert ((Machine_threshold m1 <? Z.of_nat (S (length acc))) = false) as E
      by (apply Z.ltb_ge; simpl in Hlen; rewrite length_app in Hlen; simpl in Hlen; lia).
    rewrite E in Hr. destruct Hr as [_ Hr]. apply Z.ltb_ge in E.
    destruct (IH m2 ((id, j) :: acc) Hr) as (m' & rs & r' & -> & Hl & Hcert);
      [by rewrite <-Hperm..|simpl; lia|by rewrite <-Hperm|].
    exists m', (r :: rs), r'. split; [done|]. split; [|done]. by destruct rs.
Qed.
End Count.

(** ** The round *)

(** The leader with its proposal made and its own vote counted. *)
Lemma beat_counts m i v cmds :
  ready_to_lead m i v ->
  let p := Machine_make_leaf m cmds in
  exists m1, Machine_process_safety_event m (NewTx cmds) =
      Ret (m1, Ok (NewProposal (Context_broadcast (m_self_id m) v) p)) /\
    m_storage m1 = HSS_update_leaf (m_storage m) p /\ Machine_threshold m1 = Machine_threshold m /\
    node_height p = v /\ vote_frame m i v m1 /\ counted_votes m1 i v p m1 [(m_self_id m, i)].
Proof.
  intros [Hv Hm Hn Ht _ _ _] p. cbn [Machine_process_safety_event]. unfold Machine_on_beat.
  fold p. set (m1 := set_voter _ _). exists m1.
  assert (Hh : node_height p = v) by exact Hv.
  split; [by rewrite <-Hv|]. split; [done|]. split; [done|]. split; [done|].
  unfold m1. cbn [m_voter set_voter set_storage m_self_id]. unfold Voter_add_vote.
  rewrite Hh. unfold Voter_votes in Hn. cbn [ctx_from Context_broadcast]. rewrite Hn, lookup_empty.
  split; [split; try done; intros w Hw; unfold Voter_votes; cbn; by rewrite lookup_insert_ne|].
  split; [done|by split|].
  unfold Voter_votes. cbn [m_voter set_voter fst v_voting_set Voter_set_voting_set]. rewrite lookup_insert_eq.
  unfold Voter_sign. cbn [m_voter set_storage]. by rewrite Hm.
Qed.

(** The store takes a certificate of the proposal it has just made. *)
Lemma leaf_certified m v p qc :
  HSS_get (m_storage m) (TreeNode_hash p) = None -> node_height p = v ->
  (exists old, HSS_get (m_storage m) (qc_node (HSS_get_qc_high (m_storage m))) = Some old /\ node_height old < v) ->
  let st := HSS_update_qc_high (HSS_update_leaf (m_storage m) p) p qc in
  HSS_get_qc_high st = qc /\ HSS_get_leaf st = p /\ HSS_get st (TreeNode_hash p) = Some p.
Proof.
  intros Hnew Hp (old & Hold & Hlt) st. unfold st, HSS_update_qc_high.
  change (HSS_get_qc_high (HSS_update_leaf (m_storage m) p)) with (HSS_get_qc_high (m_storage m)).
  change (HSS_get (HSS_update_leaf (m_storage m) p)) with (HSS_get (HSS_insert (m_storage m) (TreeNode_hash p) p)).
  rewrite HSS_insert_get, decide_False, Hold by (intros He; rewrite He in Hnew; congruence).
  destruct (Z.ltb_spec (node_height old) (node_height p)); [|lia]. split; [done|]. split; [done|].
  unfold HSS_get. cbn. apply lookup_insert_eq.
Qed.

(** C12. A round of the protocol reaches a certificate: a leader that is given
    transactions in a view in which nobody voted proposes them, every replica that is
    willing to vote answers the proposal with a vote, and when the leader has received the
    votes of as many replicas as the threshold, in any order, the last one is answered
    with consensus in that view; the leader's leaf is then its proposal and its qc_high a
    certificate of it, and every replica with the same keys that stores the proposal
    accepts that certificate. *)
Theorem leader_round_certifies m i v cmds (replicas : list (Z * Machine HotstuffStorage)) :
  ready_to_lead m i v ->
  let p := Machine_make_leaf m cmds in
  let vs := (fun r => (m_self_id r.2, r.1)) <$> replicas in
  HSS_get (m_storage m) (TreeNode_hash p) = None ->
  Forall (fun r => willing r.2 r.1 v p) replicas ->
  NoDup (m_self_id m :: vs.*1) -> NoDup (i :: vs.*2) ->
  Z.of_nat (length replicas) = Machine_threshold m ->
  exists m1 msgs m' rs,
    Machine_process_safety_event m (NewTx cmds) =
      Ret (m1, Ok (NewProposal (Context_broadcast (m_self_id m) v) p)) /\
    Forall2 (fun r msg => exists x' ctx kit,
      Machine_process_safety_event r.2 (RecvProposal (Context_broadcast (m_self_id m) v) p) =
        Ret (x', Ok (Signature ctx p kit)) /\ msg = RecvSign ctx p kit) replicas msgs /\
    Machine_run m1 msgs = Ret (m', rs) /\ last rs = Some (Ok (ProposalReachConsensus v)) /\
    HSS_get_leaf (m_storage m') = p /\ qc_node (HSS_get_qc_high (m_storage m')) = TreeNode_hash p /\
    forall x, ds_pks (v_signature (m_voter x)) = public_keys s ->
      HSS_get (m_storage x) (TreeNode_hash p) = Some p -> qc_accepted x (HSS_get_qc_high (m_storage m')).
Proof.
  intros Hlead p vs Hnew Hwill Hk Hi Hlen.
  destruct (beat_counts m i v cmds Hlead) as (m1 & Hb & Hst & Hth & Hp & _ & Hc). fold p in Hb, Hst, Hp, Hc.
  pose proof Hlead as [Hv _ _ _ Hpos Hsch Hhigh].
  assert (Hlvs : length vs = length replicas) by (unfold vs; by rewrite length_fmap).
  destruct (count_votes m1 i v p (m_self_id m) Hp) with (m := m1) (acc := [(m_self_id m, i)]) (vs := vs)
    as (m' & rs & r & Hrun & Hlast & -> & _ & _ & c & Hver & Hm'); [rewrite Hth; lia|rewrite Hth; lia|done|..].
  { rewrite fmap_app. cbn [fmap list_fmap fst snd]. by rewrite <-Permutation_cons_append. }
  { rewrite fmap_app. cbn [fmap list_fmap fst snd]. by rewrite <-Permutation_cons_append. }
  { rewrite Hth. simpl. lia. }
  { rewrite Hth, length_app, Hlvs. simpl. lia. }
  rewrite Hst in Hlast, Hm'.
  destruct (leaf_certified m v p (GenericQC_new v (TreeNode_hash p) c) Hnew Hp Hhigh) as (Eq & El & _).
  change (HSS_get_view (HSS_update_leaf (m_storage m) p)) with (HSS_get_view (m_storage m)) in Hlast, Hm'.
  change (HSS_get_leaf (HSS_update_leaf (m_storage m) p)) with p in Hm'. rewrite Hv in Hlast, Hm'.
  exists m1, (uncurry (vote_msg (m_self_id m) v p) <$> vs), m', rs.
  rewrite Hm', Eq, El. split; [exact Hb|]. split; [|split_and!; try done].
  - unfold vs. apply Forall2_fmap_r, Forall2_fmap_r, Forall_Forall2_diag.
    eapply Forall_impl; [exact Hwill|]. intros [j x] Hx.
    destruct (willing_votes x j v p (m_self_id m) Hx) as [x' Hx']. by exists x', (Context_single (m_self_id x) (m_self_id m) v), (share_of p j).
  - intros x Hpk Hx. exists p. split; [exact Hx|right].
    unfold Voter_validate_qc. cbn. unfold DefaultSignaturer_validate_qc. by rewrite Hpk.
Qed.
End LeaderRound.
