(* ===== verification/ChainRun.v ===== *)
(** * A replica that is fed with a chain

    The normal course of the protocol: proposals arrive in order, each justified by
    a certificate of the one before.  A fresh replica signs every one of them, its
    lock stays two proposals behind and its last commit three.  The positions are
    stated for chains of any length, which makes the concrete runs instances. *)

From S2P Require Import Prelude Walk Crypto HsData CryptoKit Voter SafetyStorage Machine.
From S2P Require Import MachineSafety MachineSync LivenessData Persistor Hss HssSafety.
From S2P Require Import HssWalk HssReach.

Section ChainRun.
Context `{TC : ThresholdCrypto} {C : Codec}.

Implicit Types (s : HotstuffStorage) (n p : TreeNode) (m : Machine HotstuffStorage).

(** ** Chains *)

(** No two proposals of the chain share a hash, and no hash is the zero hash that
    the certificate of the initial proposal names. *)
Definition chain_hashes_ok (full : list TreeNode) : Prop :=
  NoDup (TreeNode_hash <$> full) /\ qc_node zeroed_qc ∉ TreeNode_hash <$> full.

Definition chain_hashes_okb (full : list TreeNode) : bool :=
  bool_decide (NoDup (NodeHash_as_ref <$> (TreeNode_hash <$> full))) &&
  bool_decide (replicate 32 x00 ∉ NodeHash_as_ref <$> (TreeNode_hash <$> full)).

Lemma chain_hashes_okb_spec full : chain_hashes_okb full = true -> chain_hashes_ok full.
Proof.
  unfold chain_hashes_okb. rewrite andb_true_iff, !bool_decide_eq_true. intros [Hn Hz]. split.
  - by eapply NoDup_fmap_1.
  - intros Hin. apply Hz. apply list_elem_of_fmap. by exists (qc_node zeroed_qc).
Qed.

(** What a replica asks of the certificate of a proposal: it is the initial one, or it
    verifies on the proposal before. *)
Definition certified_child (pks : PK) p n : Prop :=
  node_height p < node_height n /\
  node_parent n = TreeNode_hash p /\
  qc_node (node_justify n) = TreeNode_hash p /\
  (GenericQC_is_init_qc (node_justify n) = true \/
   pk_verify pks (qc_combined_sign (node_justify n)) (TreeNode_to_be_bytes p) = true).

Fixpoint certified_chain (pks : PK) p (l : list TreeNode) : Prop :=
  match l with
  | [] => True
  | n :: l => certified_child pks p n /\ certified_chain pks n l
  end.

Lemma justified_certified pks p l : justified_chain pks p l -> certified_chain pks p l.
Proof.
  revert p. induction l as [|n l IH]; intros p; [done|].
  intros [(? & ? & ? & ? & ?) Hc]. split; [|by apply IH]. split_and!; auto. lia.
Qed.

Lemma certified_chain_lookup pks p l i a b :
  certified_chain pks p l -> (p :: l) !! i = Some a -> (p :: l) !! S i = Some b ->
  certified_child pks a b.
Proof.
  revert p i. induction l as [|n l IH]; intros p i Hc Ha Hb; [by destruct i|].
  destruct Hc as [Hpn Hc]. destruct i as [|i].
  - by simplify_eq/=.
  - by apply (IH n i).
Qed.

(** The height of the proposal at position [i]. *)
Definition chain_height (l : list TreeNode) (i : nat) : Z :=
  default 0 (node_height <$> (INIT_NODE :: l) !! i).

Lemma chain_height_at l i n : (INIT_NODE :: l) !! i = Some n -> node_height n = chain_height l i.
Proof. intros H. unfold chain_height. by rewrite H. Qed.

Lemma certified_chain_mono pks l i j a b :
  certified_chain pks INIT_NODE l -> (i < j)%nat ->
  (INIT_NODE :: l) !! i = Some a -> (INIT_NODE :: l) !! j = Some b -> node_height a < node_height b.
Proof.
  intros Hc Hij. revert b. induction Hij as [|j Hij IH]; intros b Ha Hb.
  - by destruct (certified_chain_lookup _ _ _ _ _ _ Hc Ha Hb) as [? _].
  - destruct ((INIT_NODE :: l) !! j) as [c|] eqn:Hj.
    + destruct (certified_chain_lookup _ _ _ _ _ _ Hc Hj Hb) as [Hh _].
      specialize (IH c Ha eq_refl). lia.
    + apply lookup_ge_None in Hj. apply lookup_lt_Some in Hb. lia.
Qed.

(** ** The replica after the first [k] proposals of the chain *)

Section Fed.
Context (pks : PK) (l : list TreeNode).
Let full : list TreeNode := INIT_NODE :: l.
Context (Hchain : certified_chain pks INIT_NODE l) (Hok : chain_hashes_ok full).

(** The first [k + 1] proposals of [full] are stored and nothing else; leaf, lock and
    last commit are the proposals at [leaf], [lock] and [com]. *)
Record fed (k leaf lock com : nat) s : Prop := {
  fs_inv : HSS_inv s;
  fs_get i n : full !! i = Some n -> (i <= k)%nat -> HSS_get s (TreeNode_hash n) = Some n;
  fs_only h n : HSS_get s h = Some n -> exists i, (i <= k)%nat /\ full !! i = Some n;
  fs_leaf_le : (leaf <= k)%nat;
  fs_leaf : full !! leaf = Some (HSS_get_leaf s);
  fs_qc_high : qc_node (HSS_get_qc_high s) = TreeNode_hash (HSS_get_leaf s);
  fs_vheight : HSS_get_vheight s <= chain_height l k;
  fs_locked : full !! lock = Some (HSS_get_locked_node s);
  fs_commit : full !! com = Some (HSS_get_last_committed s);
  fs_len : (k <= length l)%nat;
}.

Definition fed_state (k : nat) s : Prop := fed k (k - 1) (k - 2) (k - 3) s.

Lemma full_height i n : full !! i = Some n -> node_height n = chain_height l i.
Proof. apply chain_height_at. Qed.

(** Heights are compared like positions. *)
Lemma height_lt i j a b :
  full !! i = Some a -> full !! j = Some b -> (chain_height l i < chain_height l j <-> (i < j)%nat).
Proof.
  intros Ha Hb. rewrite <-(full_height _ _ Ha), <-(full_height _ _ Hb). split.
  - intros Hlt. destruct (decide (i < j)%nat) as [|Hge]; [done|].
    destruct (decide (i = j)) as [->|Hne]; [simplify_eq; lia|].
    assert (j < i)%nat as Hji by lia. pose proof (certified_chain_mono _ _ _ _ _ _ Hchain Hji Hb Ha). lia.
  - intros Hij. exact (certified_chain_mono _ _ _ _ _ _ Hchain Hij Ha Hb).
Qed.

Lemma height_ltb i j a b :
  full !! i = Some a -> full !! j = Some b -> (chain_height l i <? chain_height l j) = (i <? j)%nat.
Proof.
  intros Ha Hb. pose proof (height_lt _ _ _ _ Ha Hb) as H.
  destruct (Z.ltb_spec (chain_height l i) (chain_height l j)), (Nat.ltb_spec i j); try done; lia.
Qed.

Lemma height_leb i j a b :
  full !! i = Some a -> full !! j = Some b -> (chain_height l i <=? chain_height l j) = (i <=? j)%nat.
Proof.
  intros Ha Hb. pose proof (height_lt _ _ _ _ Hb Ha) as H.
  destruct (Z.leb_spec (chain_height l i) (chain_height l j)), (Nat.leb_spec i j); try done; lia.
Qed.

Lemma height_mono i j b : full !! j = Some b -> (i <= j)%nat -> chain_height l i <= chain_height l j.
Proof.
  intros Hb Hij. destruct (decide (i = j)) as [->|Hne]; [done|].
  destruct (lookup_lt_is_Some_2 full i) as [a Ha]; [apply lookup_lt_Some in Hb; lia|].
  pose proof (height_lt _ _ _ _ Ha Hb). lia.
Qed.

Lemma full_succ i a b : full !! i = Some a -> full !! S i = Some b -> certified_child pks a b.
Proof. by apply certified_chain_lookup. Qed.

Lemma full_pred i b : full !! S i = Some b -> exists a, full !! i = Some a.
Proof.
  intros Hb. apply lookup_lt_Some in Hb. apply lookup_lt_is_Some_2. lia.
Qed.

Lemma full_hash_inj i j a b :
  full !! i = Some a -> full !! j = Some b -> TreeNode_hash a = TreeNode_hash b -> i = j /\ a = b.
Proof.
  intros Ha Hb E. assert (i = j) as ->.
  { eapply NoDup_lookup; [apply Hok| |]; rewrite list_lookup_fmap; [by rewrite Ha|].
    rewrite Hb. simpl. by rewrite E. }
  split; [done|congruence].
Qed.

Lemma fed_zero k x y z s : fed k x y z s -> HSS_get s (qc_node zeroed_qc) = None.
Proof.
  intros Hf. destruct (HSS_get s _) as [n|] eqn:E; [|done].
  destruct (fs_only _ _ _ _ _ Hf _ _ E) as (i & _ & Hi). destruct Hok as [_ Hz]. exfalso. apply Hz.
  rewrite <-(inv_keys _ (fs_inv _ _ _ _ _ Hf) _ _ E). apply list_elem_of_fmap_2.
  by eapply list_elem_of_lookup_2.
Qed.

(** ** The walk from a proposal of the chain down to another *)

Lemma fed_path k x y z s i j a b :
  fed k x y z s -> (j <= i)%nat -> (i <= S k)%nat -> full !! i = Some a -> full !! j = Some b ->
  exists ks, path (hss_in_mem_queue s) (node_height b) a ks b.
Proof.
  intros Hf. revert a. induction i as [|i IH]; intros a Hji Hik Ha Hb.
  - replace j with 0%nat in Hb by lia. simplify_eq. exists []. by constructor.
  - destruct (decide (j = S i)) as [->|Hne].
    { simplify_eq. exists []. by constructor. }
    destruct (full_pred _ _ Ha) as [p Hp]. destruct (full_succ _ _ _ Hp Ha) as (_ & Hpar & _).
    destruct (IH p) as [ks Hks]; [lia|lia|done|done|].
    exists (node_parent a :: ks). econstructor; [|rewrite Hpar|exact Hks].
    + rewrite (full_height _ _ Ha), (full_height _ _ Hb). apply (height_lt _ _ _ _ Hb Ha). lia.
    + apply (fs_get _ _ _ _ _ Hf i); [done|lia].
Qed.

Lemma fed_not_conflicting k s p :
  fed_state k s -> full !! S k = Some p ->
  HSS_is_conflicting s p (HSS_get_locked_node s) = Some false.
Proof.
  intros Hf Hp. pose proof (fs_locked _ _ _ _ _ Hf) as Hl.
  unfold HSS_is_conflicting. rewrite (full_height _ _ Hp), (full_height _ _ Hl), (height_leb _ _ _ _ Hl Hp).
  destruct (Nat.leb_spec (k - 2) (S k)); [|lia].
  destruct (fed_path k _ _ _ s (S k) (k - 2) _ _ Hf ltac:(lia) ltac:(lia) Hp Hl) as [ks Hks].
  rewrite (path_conflict_walk _ _ _ _ _ _ Hks (path_length _ _ _ _ _ Hks)).
  f_equal. apply bool_decide_eq_false. intros Hn. by apply Hn.
Qed.

(** ** The operations move one position each *)

Lemma fed_append_at k x y z m j p :
  fed k x y z (m_storage m) -> full !! j = Some p -> (j <= S k)%nat ->
  fed (k `max` j) x y z (m_storage (Machine_append m p)).
Proof.
  intros [Hi Hg Ho Hx Hl Hq Hv Hlk Hc Hlen] Hp Hj. split; try done; [|..].
  - pose proof (HSS_inv_append_new_node (m_storage m) p Hi) as []. by split.
  - intros i n Hn Hik. change (HSS_get (HSS_insert (m_storage m) (TreeNode_hash p) p)
      (TreeNode_hash n) = Some n). rewrite HSS_insert_get. case_decide as He.
    + by destruct (full_hash_inj _ _ _ _ Hp Hn He) as [_ ->].
    + apply (Hg i); [done|]. assert (i <> j) by (intros ->; simplify_eq). lia.
  - intros h n. change (HSS_get (HSS_insert (m_storage m) (TreeNode_hash p) p) h = Some n -> 
      exists i, (i <= k `max` j)%nat /\ full !! i = Some n).
    rewrite HSS_insert_get. case_decide; [intros [= <-]; exists j; split; [lia|done]|].
    intros Hn. destruct (Ho _ _ Hn) as (i & Hi' & Hin). exists i. split; [lia|done].
  - lia.
  - cbn. rewrite (full_height _ _ Hp). unfold HSS_get_vheight in Hv.
    destruct (Nat.max_spec k j) as [[? ->]|[? ->]]; [|destruct (decide (j = k)) as [->|]; [lia|]].
    + pose proof (height_mono k j p Hp ltac:(lia)). lia.
    + apply Z.max_lub; [done|]. destruct (lookup_lt_is_Some_2 full k) as [b Hb]; [simpl; lia|].
      apply (height_mono j k b Hb). lia.
  - apply lookup_lt_Some in Hp. simpl in Hp. lia.
Qed.

Lemma fed_append k x y z m p :
  fed k x y z (m_storage m) -> full !! S k = Some p ->
  fed (S k) x y z (m_storage (Machine_append m p)).
Proof.
  intros Hf Hp. replace (S k) with (k `max` S k)%nat by lia. by apply fed_append_at.
Qed.

Lemma fed_update_qc_high k x y z s j b qc :
  fed k x y z s -> full !! j = Some b -> (j <= k)%nat -> qc_node qc = TreeNode_hash b ->
  fed k (x `max` j) y z (HSS_update_qc_high s b qc).
Proof.
  intros Hf Hb Hj Hqc. unfold HSS_update_qc_high.
  rewrite (fs_qc_high _ _ _ _ _ Hf).
  rewrite (fs_get _ _ _ _ _ Hf _ _ (fs_leaf _ _ _ _ _ Hf) (fs_leaf_le _ _ _ _ _ Hf)).
  rewrite (full_height _ _ Hb), (full_height _ _ (fs_leaf _ _ _ _ _ Hf)).
  rewrite (height_ltb _ _ _ _ (fs_leaf _ _ _ _ _ Hf) Hb).
  destruct (Nat.ltb_spec x j); [|by replace (x `max` j)%nat with x by lia].
  replace (x `max` j)%nat with j by lia.
  destruct Hf as [Hi Hg Ho Hx Hl Hq Hv Hlk Hc Hlen]. split; try done; [|..].
  - destruct Hi as [Hk Hcm]. split; [|done]. by apply keys_insert.
  - intros i n Hn Hik. change (HSS_get (HSS_insert s (TreeNode_hash b) b) (TreeNode_hash n) = Some n).
    rewrite HSS_insert_get. case_decide as He; [|by apply (Hg i)].
    by destruct (full_hash_inj _ _ _ _ Hb Hn He) as [_ ->].
  - intros h n. change (HSS_get (HSS_insert s (TreeNode_hash b) b) h = Some n ->
      exists i, (i <= k)%nat /\ full !! i = Some n).
    rewrite HSS_insert_get. case_decide; [intros [= <-]; by exists j|apply Ho].
  - change (node_height b <= chain_height l k). rewrite (full_height _ _ Hb).
    destruct (lookup_lt_is_Some_2 full k) as [c Hck]; [simpl; lia|]. by apply (height_mono j k c).
Qed.

Lemma fed_lock_step k x y z m j b :
  fed k x y z (m_storage m) -> full !! j = Some b ->
  fed k x (y `max` j) z (m_storage (lock_step m (Some b))).
Proof.
  intros Hf Hb. unfold lock_step.
  cbn [get_locked_node HSS_SafetyStorage].
  rewrite (full_height _ _ Hb), (full_height _ _ (fs_locked _ _ _ _ _ Hf)).
  rewrite (height_ltb _ _ _ _ (fs_locked _ _ _ _ _ Hf) Hb).
  destruct (Nat.ltb_spec y j); [|by replace (y `max` j)%nat with y by lia].
  replace (y `max` j)%nat with j by lia. destruct Hf as [Hi Hg Ho Hx Hl Hq Hv Hlk Hc Hlen].
  split; try done. by destruct Hi.
Qed.

Lemma fed_commit k x y z s j b :
  fed k x y z s -> full !! j = Some b -> fed k x y (z `max` j) (HSS_commit s b).
Proof.
  intros Hf Hb. pose proof (HSS_inv_commit s b (fs_inv _ _ _ _ _ Hf)) as Hi'.
  pose proof (HSS_commit_last s b (fs_inv _ _ _ _ _ Hf)) as Hlast.
  rewrite (full_height _ _ Hb), (full_height _ _ (fs_commit _ _ _ _ _ Hf)) in Hlast.
  rewrite (height_ltb _ _ _ _ (fs_commit _ _ _ _ _ Hf) Hb) in Hlast.
  assert (Hc : full !! (z `max` j)%nat = Some (HSS_get_last_committed (HSS_commit s b))).
  { rewrite Hlast. destruct (Nat.ltb_spec z j); [by replace (z `max` j)%nat with j by lia|].
    replace (z `max` j)%nat with z by lia. apply Hf. }
  destruct Hf as [Hi Hg Ho Hx Hl Hq Hv Hlk _ Hlen]. clear Hlast.
  unfold HSS_commit in *. destruct (node_height b <=? _); by split.
Qed.
(** ** One proposal *)

(** The certificate of a proposal of the chain leads to the one before. *)
Lemma fed_justify k x y z s i a b :
  fed k x y z s -> (i <= k)%nat -> full !! i = Some a -> full !! S i = Some b ->
  HSS_get s (qc_node (node_justify b)) = Some a.
Proof.
  intros Hf Hi Ha Hb. destruct (full_succ _ _ _ Ha Hb) as (_ & _ & -> & _).
  by apply (fs_get _ _ _ _ _ Hf i).
Qed.

(** The certificates lead to the three proposals before, as far as there are any. *)
Lemma fed_three_chain k x y z s i b3 p :
  fed k x y z s -> (i <= k)%nat -> full !! i = Some b3 -> full !! S i = Some p ->
  HSS_find_three_chain s p =
    match i with
    | 0%nat => [b3]
    | 1%nat => b3 :: option_list (full !! 0%nat)
    | S (S j) => b3 :: option_list (full !! S j) ++ option_list (full !! j)
    end.
Proof.
  intros Hf Hi H3 Hp. pose proof (fed_justify _ _ _ _ _ _ _ _ Hf Hi H3 Hp) as G3.
  assert (Hz : HSS_get s (qc_node (node_justify INIT_NODE)) = None) by exact (fed_zero _ _ _ _ _ Hf).
  unfold HSS_find_three_chain. rewrite G3. destruct i as [|i].
  { injection H3 as <-. by rewrite Hz. }
  destruct (full_pred _ _ H3) as [b2 H2].
  rewrite (fed_justify _ _ _ _ _ i b2 b3 Hf ltac:(lia) H2 H3). destruct i as [|i].
  { injection H2 as <-. by rewrite Hz. }
  destruct (full_pred _ _ H2) as [b1 H1].
  rewrite (fed_justify _ _ _ _ _ i b1 b2 Hf ltac:(lia) H1 H2), H2, H1. done.
Qed.

Lemma fed_consecutive s j b3 b2 b1 :
  full !! S (S j) = Some b3 -> full !! S j = Some b2 -> full !! j = Some b1 ->
  HSS_is_consecutive_three_chain s [b3; b2; b1] = true.
Proof.
  intros H3 H2 H1. destruct (full_succ _ _ _ H2 H3) as (_ & E3 & _).
  destruct (full_succ _ _ _ H1 H2) as (_ & E2 & _). simpl. by rewrite !bool_decide_true.
Qed.

Lemma set_storage_lock_step m b s : set_storage (lock_step m b) s = set_storage m s.
Proof. unfold lock_step. destruct b; [|done]. by destruct (_ <? _). Qed.

(** A proposal of the chain moves leaf, lock and last commit up to the three before it. *)
Lemma fed_update_nodes_at k x y z m i p :
  fed k x y z (m_storage m) -> (i <= k)%nat -> full !! S i = Some p ->
  exists s r, Machine_update_nodes m p = Ret (set_storage m s, r) /\
    fed k (x `max` i) (y `max` (i - 1)) (z `max` (i - 2)) s.
Proof.
  intros Hf Hi Hp. destruct (full_pred _ _ Hp) as [b3 H3].
  destruct (full_succ _ _ _ H3 Hp) as (_ & _ & Hqc & _).
  rewrite update_nodes_unfold. cbn zeta. unfold locked_step, qc_step.
  cbn [find_three_chain is_consecutive_three_chain HSS_SafetyStorage].
  rewrite (fed_three_chain _ _ _ _ _ i b3 p Hf Hi H3 Hp).
  pose proof (fed_update_qc_high _ _ _ _ _ i b3 (node_justify p) Hf H3 Hi Hqc) as Hf1.
  set (s1 := HSS_update_qc_high (m_storage m) b3 (node_justify p)) in *.
  destruct i as [|[|i]].
  - exists s1. eexists. split; [done|]. by rewrite !Nat.max_0_r in *.
  - cbn [option_list list_lookup lookup list_lookup full].
    pose proof (fed_lock_step _ _ _ _ (set_storage m s1) 0 INIT_NODE Hf1 eq_refl) as Hf2.
    replace (z `max` (1 - 2))%nat with z by lia. unfold lock_step in Hf2 |- *.
    cbn -[node_height INIT_NODE Nat.max] in Hf2 |- *.
    destruct (_ <? _); eexists _, _; (split; [done|exact Hf2]).
  - destruct (full_pred _ _ H3) as [b2 H2]. destruct (full_pred _ _ H2) as [b1 H1].
    rewrite H2, H1.
    change (b3 :: option_list (Some b2) ++ option_list (Some b1)) with [b3; b2; b1].
    change ([b3; b2; b1] !! 0%nat) with (Some b3). change ([b3; b2; b1] !! 1%nat) with (Some b2).
    pose proof (fed_lock_step _ _ _ _ (set_storage m s1) _ b2 Hf1 H2) as Hf2.
    pose proof (fed_commit _ _ _ _ _ _ b1 Hf2 H1) as Hf3.
    rewrite (fed_consecutive _ i b3 b2 b1 H3 H2 H1). cbn [last unwrap mbind outcome_bind].
    unfold Machine_on_commit. cbn zeta. rewrite set_storage_lock_step. eexists _, _. split.
    + reflexivity.
    + cbn [commit HSS_SafetyStorage]. cbn [Nat.sub]. rewrite Nat.sub_0_r. exact Hf3.
Qed.

Lemma fed_update_nodes k m p :
  fed (S k) (k - 1) (k - 2) (k - 3) (m_storage m) -> full !! S k = Some p ->
  exists s r, Machine_update_nodes m p = Ret (set_storage m s, r) /\ fed_state (S k) s.
Proof.
  intros Hf Hp.
  destruct (fed_update_nodes_at _ _ _ _ m k p Hf (Nat.le_succ_diag_r k) Hp) as (s & r & Hup & Hs).
  exists s, r. split; [done|]. unfold fed_state.
  replace (S k - 1)%nat with ((k - 1) `max` k)%nat by lia.
  replace (S k - 2)%nat with ((k - 2) `max` (k - 1))%nat by lia.
  replace (S k - 3)%nat with ((k - 3) `max` (k - 2))%nat by lia. done.
Qed.

Lemma fed_accepts k m p prev :
  fed_state k (m_storage m) -> full !! S k = Some p -> Machine_accepts m p prev = Ret true.
Proof.
  intros Hf Hp. unfold Machine_accepts, Machine_safe_node.
  cbn [get_vheight get_locked_node is_conflicting HSS_SafetyStorage].
  rewrite (fed_not_conflicting k (m_storage m) p Hf Hp), (full_height _ _ Hp).
  pose proof (fs_vheight _ _ _ _ _ Hf). destruct (full_pred _ _ Hp) as [a Ha].
  pose proof (height_lt _ _ _ _ Ha Hp).
  by destruct (Z.ltb_spec (HSS_get_vheight (m_storage m)) (chain_height l (S k))); [|lia].
Qed.

(** The next proposal of the chain is signed. *)
Lemma fed_recv k m ctx p :
  fed_state k (m_storage m) -> ds_pks (v_signature (m_voter m)) = pks -> full !! S k = Some p ->
  exists s, Machine_process_safety_event m (RecvProposal ctx p)
            = Ret (set_storage m s, Ok (vote_ready m ctx p)) /\
    fed_state (S k) s /\ HSS_get_view s = HSS_get_view (m_storage m).
Proof.
  intros Hf Hpk Hp. destruct (full_pred _ _ Hp) as [b3 H3].
  destruct (full_succ _ _ _ H3 Hp) as (_ & _ & _ & Hver).
  pose proof (fed_justify _ _ _ _ _ _ _ _ Hf (Nat.le_refl k) H3 Hp) as Hg.
  pose proof (fed_append _ _ _ _ m p Hf Hp) as Hf1.
  destruct (fed_update_nodes k (Machine_append m p) p Hf1 Hp) as (s & rd & Hup & Hf2).
  exists s. assert (Hev : Machine_process_safety_event m (RecvProposal ctx p)
    = Ret (set_storage m s, Ok (vote_ready m ctx p))).
  { apply (recv_accepted HSS_inv) with (prev := b3) (rd := rd).
    - exists b3. split; [done|]. destruct Hver as [?|?]; [by left|right].
      cbn. unfold DefaultSignaturer_validate_qc. by rewrite Hpk.
    - done.
    - apply fed_accepts with (k := k); done.
    - done. }
  split; [done|]. split; [done|].
  apply (process_safety_event_le HSS_inv _ _ _ _ (fs_inv _ _ _ _ _ Hf) Hev).
Qed.

Lemma fed_run k m ctx ps :
  fed_state k (m_storage m) -> ds_pks (v_signature (m_voter m)) = pks -> drop (S k) full = ps ->
  exists s, Machine_run m (RecvProposal ctx <$> ps)
            = Ret (set_storage m s, (fun p => Ok (vote_ready m ctx p)) <$> ps) /\
    fed_state (k + length ps) s /\ HSS_get_view s = HSS_get_view (m_storage m).
Proof.
  revert k m. induction ps as [|p ps IH]; intros k m Hf Hpk Hps.
  - exists (m_storage m). rewrite Nat.add_0_r. split; [by destruct m|done].
  - assert (Hp : full !! S k = Some p).
    { rewrite <-(Nat.add_0_r (S k)), <-lookup_drop, Hps. done. }
    destruct (fed_recv k m ctx p Hf Hpk Hp) as (s & Hev & Hf1 & Hv).
    destruct (IH (S k) (set_storage m s) Hf1 Hpk) as (s' & Hrun & Hf2 & Hv2).
    { replace (S (S k)) with (S k + 1)%nat by lia. rewrite <-drop_drop, Hps. done. }
    exists s'. cbn [fmap list_fmap Machine_run]. rewrite Hev. cbn [mbind outcome_bind].
    change (list_fmap _ _ (RecvProposal ctx) ps) with (RecvProposal ctx <$> ps).
    rewrite Hrun. cbn [mbind outcome_bind length]. cbn [m_storage set_storage] in Hv2.
    rewrite Nat.add_succ_r. split; [|split; [done|congruence]].
    do 3 f_equal. apply list_fmap_ext. intros _ q _. unfold vote_ready. simpl. by rewrite Hv.
Qed.
End Fed.

(** A fresh store has taken none of the chain. *)
Lemma fed_init l total peers self_id sg :
  fed_state l 0 (init_in_mem_storage total INIT_NODE INIT_NODE_HASH INIT_QC self_id peers sg).
Proof.
  set (s := init_in_mem_storage _ _ _ _ _ _ _).
  assert (Hget : forall h, HSS_get s h = if decide (INIT_NODE_HASH = h) then Some INIT_NODE else None).
  { intros h. unfold HSS_get. simpl. rewrite lookup_insert. by case_decide. }
  split; try done; [apply HSS_inv_init|..].
  - intros i n Hn Hi. replace i with 0%nat in Hn by lia. injection Hn as <-.
    rewrite Hget. by rewrite decide_True.
  - intros h n. rewrite Hget. case_decide; [|done]. intros [= <-]. by exists 0%nat.
  - simpl. lia.
Qed.

(** Feeding a fresh replica. *)
Lemma certified_chain_run (voter : Voter DefaultSignaturer) self_id total leader peers sg ctx l :
  let m := Machine_new voter self_id total leader
             (init_in_mem_storage total INIT_NODE INIT_NODE_HASH INIT_QC self_id peers sg) in
  certified_chain (ds_pks (v_signature voter)) INIT_NODE l -> chain_hashes_ok (INIT_NODE :: l) ->
  exists s, Machine_run m (RecvProposal ctx <$> l)
            = Ret (set_storage m s, (fun p => Ok (vote_ready m ctx p)) <$> l) /\
    fed_state l (length l) s /\ HSS_get_view s = 0.
Proof.
  intros m Hc Hok.
  destruct (fed_run _ l Hc Hok 0 m ctx l (fed_init _ _ _ _ _) eq_refl eq_refl)
    as (s & Hrun & Hf & Hv). exists s. auto.
Qed.

(** C11. A fresh replica that is fed with a chain of justified proposals, whatever its
    length, signs every proposal in order and keeps its view; its leaf is then the last
    proposal but one, its lock the last but two and its last commit the last but three
    (the initial proposal while the chain is too short). *)
Theorem justified_chain_run (voter : Voter DefaultSignaturer) self_id total leader peers sg ctx l :
  let m := Machine_new voter self_id total leader
             (init_in_mem_storage total INIT_NODE INIT_NODE_HASH INIT_QC self_id peers sg) in
  let full := INIT_NODE :: l in
  let k := length l in
  justified_chain (ds_pks (v_signature voter)) INIT_NODE l ->
  chain_hashes_ok full ->
  exists s, Machine_run m (RecvProposal ctx <$> l)
            = Ret (set_storage m s, (fun p => Ok (vote_ready m ctx p)) <$> l) /\
    full !! (k - 1)%nat = Some (HSS_get_leaf s) /\
    full !! (k - 2)%nat = Some (HSS_get_locked_node s) /\
    full !! (k - 3)%nat = Some (HSS_get_last_committed s) /\
    HSS_get_view s = 0.
Proof.
  intros m full k Hc Hok.
  destruct (certified_chain_run voter self_id total leader peers sg ctx l) as (s & Hrun & Hf & Hv);
    [by apply justified_certified|done|].
  exists s. destruct Hf. auto.
Qed.

(** ** A chain nobody signed *)

(** Proposals whose certificates name the one before and carry the all-zero signature. *)
Fixpoint forged_chain (txs : list (list Txn)) p : list TreeNode :=
  match txs with
  | [] => []
  | t :: txs =>
      let n := TreeNode_new t (node_height p + 1) (TreeNode_hash p)
                 (GenericQC_new (node_height p) (TreeNode_hash p) zeroed_sign) in
      n :: forged_chain txs n
  end.

Lemma forged_certified pks txs p : certified_chain pks p (forged_chain txs p).
Proof.
  revert p. induction txs as [|t txs IH]; intros p; [done|]. split; [|apply IH].
  split_and!; [cbn; lia|done|done|]. left. by apply bool_decide_eq_true.
Qed.

(** C18. A certificate counts as the initial one when its signature is all zeros, whatever
    proposal it names: a chain whose certificates nobody signed, which anyone can compute
    without a key, is signed by a fresh replica from the first proposal to the last, and
    locked and committed like a chain of valid certificates. *)
Theorem forged_chain_commits (voter : Voter DefaultSignaturer) self_id total leader peers sg ctx txs :
  let m := Machine_new voter self_id total leader
             (init_in_mem_storage total INIT_NODE INIT_NODE_HASH INIT_QC self_id peers sg) in
  let l := forged_chain txs INIT_NODE in
  let k := length l in
  chain_hashes_ok (INIT_NODE :: l) ->
  exists s, Machine_run m (RecvProposal ctx <$> l)
            = Ret (set_storage m s, (fun p => Ok (vote_ready m ctx p)) <$> l) /\
    (INIT_NODE :: l) !! (k - 2)%nat = Some (HSS_get_locked_node s) /\
    (INIT_NODE :: l) !! (k - 3)%nat = Some (HSS_get_last_committed s).
Proof.
  intros m l k Hok.
  destruct (certified_chain_run voter self_id total leader peers sg ctx l) as (s & Hrun & Hf & _);
    [apply forged_certified|done|].
  exists s. destruct Hf. auto.
Qed.
End ChainRun.
