(* ===== verification/HssLiveness.v ===== *)
(** * Timeouts, new-view messages and flushing in the store

    What [append_tc] and [compress_tc] answer, how the sets of new-view messages
    behave, what a flush hands to the backend, and what becomes of the height of
    the last vote when a certificate arrives. *)

From S2P Require Import Prelude Crypto HsData CryptoKit Voter SafetyStorage Machine.
From S2P Require Import MachineSafety LivenessData Persistor Hss HssSafety HssReach.

Section HssLiveness.
Context `{TC : ThresholdCrypto} {C : Codec}.

Implicit Types (s : HotstuffStorage) (n p : TreeNode) (tc : TimeoutCertificate).

(** ** Timeout certificates *)

(** The number of certificates kept for a view. *)
Definition tc_count s (v : ViewNumber) : Z :=
  match hss_tc_map s !! v with
  | Some tcs => TcSet_len tcs
  | None => 0
  end.

Lemma fold_max_ge (l : list Z) k : k <= fold_left Z.max l k.
Proof. revert k. induction l as [|x l IH]; intros k; simpl; [lia|]. specialize (IH (Z.max k x)). lia. Qed.

Lemma max_key_spec (l : list Z) :
  match max_key l with
  | None => l = []
  | Some v => v ∈ l /\ forall w, w ∈ l -> w <= v
  end.
Proof.
  destruct l as [|k l]; [done|]. simpl.
  revert k. induction l as [|x l IH]; intros k; simpl.
  - split; [by left|]. by intros w ->%list_elem_of_singleton.
  - destruct (IH (Z.max k x)) as [Hin Hle]. split.
    + apply elem_of_cons in Hin as [Hin|Hin]; [|by do 2 right].
      rewrite Hin. destruct (Z.max_spec k x) as [[_ ->]|[_ ->]]; [right; left|left].
    + intros w Hw. apply elem_of_cons in Hw as [->|Hw]; [pose proof (fold_max_ge l (Z.max k x)); lia|].
      apply elem_of_cons in Hw as [->|Hw]; [pose proof (fold_max_ge l (Z.max k x)); lia|].
      apply Hle. by right.
Qed.

Lemma elem_of_tc_views_reached s v :
  v ∈ tc_views_reached s <->
  is_Some (hss_tc_map s !! v) /\ HotStuffConfig_threshold (hss_conf s) <= tc_count s v.
Proof.
  unfold tc_views_reached, tc_count. rewrite list_elem_of_fmap. split.
  - intros ([k tcs] & -> & [Hth Hin]%list_elem_of_filter).
    apply elem_of_map_to_list in Hin. simpl in *. rewrite Hin. by split; [eexists|].
  - intros [[tcs Htcs] Hth]. rewrite Htcs in Hth. exists (v, tcs). split; [done|].
    apply list_elem_of_filter. split; [done|]. by apply elem_of_map_to_list.
Qed.

(** compress_tc returns the highest view with at least threshold certificates,
    removes the certificates of that view and only those, and queues at most one combined
    certificate, of that view; with no such view it does nothing. *)
Theorem HSS_compress_tc_spec s :
  let '(s', r) := HSS_compress_tc s in
  let reached v := is_Some (hss_tc_map s !! v) /\
                   HotStuffConfig_threshold (hss_conf s) <= tc_count s v in
  hss_state s' = hss_state s /\ hss_in_mem_queue s' = hss_in_mem_queue s /\
  match r with
  | None => s' = s /\ forall v, ~ reached v
  | Some v =>
      reached v /\ (forall w, reached w -> w <= v) /\
      hss_tc_map s' = delete v (hss_tc_map s) /\
      exists new, hss_combined_tc_queue s' = hss_combined_tc_queue s ++ new /\
        (length new <= 1)%nat /\ Forall (fun tc => tc_view tc = v) new
  end.
Proof.
  unfold HSS_compress_tc. pose proof (max_key_spec (tc_views_reached s)) as Hm.
  destruct (max_key (tc_views_reached s)) as [v|].
  - destruct Hm as [Hin Hle]. apply elem_of_tc_views_reached in Hin as Hr.
    destruct Hr as [[tcs Htcs] Hth]. rewrite Htcs.
    destruct (combine_time_certificates _ _ _ _ _) as [ctc|] eqn:E; simpl.
    + assert (tc_view ctc = v).
      { unfold combine_time_certificates in E. case_match; [|done]. by simplify_eq. }
      split_and!; [done|done|by eexists|done| |done|].
      { intros w [??]. by apply Hle, elem_of_tc_views_reached. }
      exists [ctc]. split_and!; [done|simpl; lia|by repeat constructor].
    + split_and!; [done|done|by eexists|done| |done|].
      { intros w [??]. by apply Hle, elem_of_tc_views_reached. }
      exists []. split_and!; [by rewrite app_nil_r|simpl; lia|constructor].
  - split_and!; try done. intros v Hv%elem_of_tc_views_reached. rewrite Hm in Hv.
    by apply elem_of_nil in Hv.
Qed.

(** ** New-view messages *)

(** The messages kept for a view. *)
Definition new_views s (v : ViewNumber) : gmap string GenericQC := default ∅ (hss_new_view_set s !! v).

Lemma new_views_insert s v from qc w :
  new_views (HSS_new_view_insert s v from qc) w =
    if decide (v = w) then <[from:=qc]> (new_views s v) else new_views s w.
Proof.
  unfold new_views, HSS_new_view_insert. simpl.
  rewrite insert_insert_eq, lookup_insert. by case_decide.
Qed.

Lemma new_views_set s v w : new_views (HSS_new_view_set s v).1 w = new_views s w.
Proof.
  unfold new_views. simpl. rewrite lookup_insert. case_decide; [by subst|done].
Qed.

Lemma new_views_clean s t w :
  new_views (HSS_clean_new_view_set s t) w = if decide (t <= w) then new_views s w else ∅.
Proof.
  unfold new_views, HSS_clean_new_view_set. simpl.
  rewrite map_lookup_filter. destruct (hss_new_view_set s !! w); simpl; [|by case_decide].
  case_decide; [by rewrite option_guard_True|by rewrite option_guard_False].
Qed.

(** ** Flushing *)

(** What is waiting to be written. *)
Definition HSS_pending s : DirtyData :=
  {| dd_combined_tc_queue := hss_combined_tc_queue s; dd_partial_tc_queue := hss_partial_tc_queue s;
     dd_prop_queue := hss_prop_queue s; dd_justify_queue := hss_justify_queue s;
     dd_state := hss_state s |}.

(** The database when the tasks in the channel are written in order. *)
Definition written (b : MySQLStorage) : Database :=
  fold_left (fun db t => MySQLFlusher_flush db (task_data t)) (my_channel b) (my_db b).

(** A backend with its receiver, all of whose transactions succeed. *)
Record healthy (b : MySQLStorage) : Prop := {
  hl_receiver : receiver_dropped b = false;
  hl_txs : my_txs b = [];
  hl_tasks : Forall (fun t => requester_gone t = false) (my_channel b);
}.

Lemma healthy_step b : healthy b -> healthy (MySQLFlusher_step b) /\ written (MySQLFlusher_step b) = written b.
Proof.
  intros [Hr Hx Ht]. unfold MySQLFlusher_step, written. destruct (my_flusher b) eqn:Ef; [|by split].
  destruct (my_channel b) as [|t rest] eqn:Ec; [split; [split; [done|done|by rewrite Ec]|by rewrite Ec]|].
  rewrite Hx. cbn [head default MySQLFlusher_transaction tail]. inversion Ht as [|? ? Hg Hrest]; subst.
  rewrite Hg. cbn [negb andb]. split; [|done].
  split; [unfold receiver_dropped in *; cbn; by rewrite andb_false_r|done|done].
Qed.

Lemma healthy_push b d : healthy b -> healthy (MySQLStorage_push b (FlushTask_Async d)).
Proof. intros [Hr Hx Ht]. split; [done|done|]. cbn. apply Forall_app. split; [done|by constructor]. Qed.

Lemma written_push b d : written (MySQLStorage_push b (FlushTask_Async d)) =
  MySQLFlusher_flush (written b) d.
Proof. unfold written. simpl. by rewrite fold_left_app. Qed.

(** Without a backend, or when nothing is dirty, a flush does nothing; otherwise, with a
    healthy backend, everything that was queued is handed over, so that the database after
    the tasks in the channel is the old one with the queued data written, the queues are
    empty and the store is clean; it waits for ever exactly when the channel is full and
    nobody receives. *)
Theorem HSS_flush_spec s :
  match hss_backend s with
  | None => HSS_flush s = Ret (s, Ok tt)
  | Some b =>
      if negb (hss_dirty s) then HSS_flush s = Ret (s, Ok tt)
      else healthy b ->
        if (length (my_channel b) <? channel_capacity)%nat || negb (my_recvr_tmp b) then
          exists b', HSS_flush s = Ret (HSS_reset_dirty (set_backend (Some b') (set_queues [] [] [] [] s)), Ok tt) /\
            healthy b' /\ written b' = MySQLFlusher_flush (written b) (HSS_pending s)
        else HSS_flush s = Diverge
  end.
Proof.
  unfold HSS_flush, HSS_async_flush.
  destruct (hss_backend s) as [b|]; destruct (hss_dirty s); cbn [negb]; try done.
  intros Hh. unfold MySQLStorage_async_flush. rewrite (hl_receiver b Hh).
  destruct (_ <? _)%nat; cbn [orb].
  - eexists. split; [done|]. split; [by apply healthy_push|]. apply (written_push b (HSS_pending s)).
  - destruct (my_recvr_tmp b); cbn [negb]; [done|].
    destruct (healthy_step b Hh) as [Hh' <-]. rewrite (hl_receiver _ Hh').
    eexists. split; [done|]. split; [by apply healthy_push|]. apply (written_push _ (HSS_pending s)).
Qed.

(** The flusher writes everything in the channel and then waits. *)
Theorem flusher_writes_all b :
  healthy b -> my_flusher b = true ->
  let b' := MySQLFlusher_run b in
  my_db b' = written b /\ my_channel b' = [] /\ my_flusher b' = true.
Proof.
  intros Hh Hf. cbn zeta. unfold MySQLFlusher_run. remember (length (my_channel b)) as n eqn:En.
  revert b Hh Hf En. induction n as [|n IH]; intros b Hh Hf En; cbn [flusher_loop].
  - symmetry in En. apply nil_length_inv in En. unfold written. by rewrite En.
  - destruct (healthy_step b Hh) as [Hh' Hw]. rewrite <-Hw. apply IH; [done|..]; clear IH;
      unfold MySQLFlusher_step; rewrite Hf; (destruct (my_channel b) as [|t rest] eqn:Ec; [by simplify_eq/=|]);
      destruct Hh as [_ Hx Ht]; rewrite Hx, Ec in *; cbn [head default MySQLFlusher_transaction];
      inversion Ht as [|? ? Hg Hrest]; subst; rewrite Hg; [done|]. by simplify_eq/=.
Qed.

(** ** A flusher that has ended *)

(** Changes, each followed by a flush, with the answers of the flushes. *)
Fixpoint flush_changes (changes : list (HotstuffStorage -> HotstuffStorage)) s :
    outcome (HotstuffStorage * list (result unit LivenessStorageErr)) :=
  match changes with
  | [] => Ret (s, [])
  | change :: changes =>
      '(s, r) ← HSS_flush (HSS_set_dirty (change s));
      '(s, rs) ← flush_changes changes s;
      Ret (s, r :: rs)
  end.

Lemma dropped_flush s b :
  hss_backend s = Some b -> receiver_dropped b = true ->
  HSS_flush (HSS_set_dirty s) = Ret (HSS_reset_dirty (set_backend (Some b) (set_queues [] [] [] [] s)), Ok tt).
Proof.
  intros Hb Hd. unfold HSS_flush, HSS_async_flush. cbn [HSS_set_dirty set_dirty_flag hss_dirty negb hss_backend].
  rewrite Hb. unfold MySQLStorage_async_flush. by rewrite Hd.
Qed.

(** C32. A statement that fails ends the flusher without a trace: the tasks still in the
    channel are dropped with it, the database stays as it was, and from then on, whatever
    the store takes in (by changes that leave the backend alone), every flush answers Ok,
    empties the queues and marks the store clean, while nothing reaches the database any
    more. *)
Theorem flusher_ends_silently s b task rest txs changes :
  hss_backend s = Some b -> my_flusher b = true -> my_recvr_tmp b = false ->
  my_channel b = task :: rest -> my_txs b = Tx_statement_failed :: txs ->
  Forall (fun f => forall s, hss_backend (f s) = hss_backend s) changes ->
  let b1 := MySQLFlusher_step b in
  my_channel b1 = [] /\ my_db b1 = my_db b /\
  exists s', flush_changes changes (set_backend (Some b1) s) = Ret (s', (fun _ => Ok tt) <$> changes) /\
    hss_backend s' = Some b1 /\ MySQLFlusher_run b1 = b1 /\
    (changes <> [] -> hss_dirty s' = false /\ hss_prop_queue s' = [] /\ hss_justify_queue s' = [] /\
       hss_partial_tc_queue s' = [] /\ hss_combined_tc_queue s' = []).
Proof.
  intros Hb Hf Hr Hc Hx Hch b1.
  assert (Eb : b1 = {| my_conn_pool := my_conn_pool b; my_channel := []; my_recvr_tmp := false;
    my_flusher := false; my_txs := txs; my_db := my_db b |}).
  { unfold b1, MySQLFlusher_step. by rewrite Hf, Hc, Hx, Hr. }
  rewrite Eb. clear Eb b1. set (b1 := mkMySQLStorage _ _ _ _ _ _). split; [done|]. split; [done|].
  cut (forall s, hss_backend s = Some b1 ->
    exists s', flush_changes changes s = Ret (s', (fun _ => Ok tt) <$> changes) /\
    hss_backend s' = Some b1 /\ MySQLFlusher_run b1 = b1 /\
    (changes <> [] -> hss_dirty s' = false /\ hss_prop_queue s' = [] /\ hss_justify_queue s' = [] /\
       hss_partial_tc_queue s' = [] /\ hss_combined_tc_queue s' = [])); [by intros H; apply H|].
  clear s Hb. induction Hch as [|f changes Hk Hch IH]; intros s Hb; cbn [flush_changes]; [by exists s|].
  rewrite (dropped_flush (f s) b1) by (done || by rewrite Hk). cbn [mbind outcome_bind].
  destruct (IH (HSS_reset_dirty (set_backend (Some b1) (set_queues [] [] [] [] (f s)))) eq_refl)
    as (s' & Hs' & Hb' & Hrun & Hq).
  exists s'. rewrite Hs'. split; [done|]. split; [done|]. split; [done|]. intros _.
  destruct changes; [|by apply Hq]. cbn [flush_changes] in Hs'. by apply Ret_inv, pair_eq in Hs' as [<- _].
Qed.

(** ** The height of the last vote *)

Lemma HSS_update_locked_vheight s n : HSS_get_vheight (HSS_update_locked_node s n) = HSS_get_vheight s.
Proof. done. Qed.

Lemma HSS_commit_vheight s n : HSS_get_vheight (HSS_commit s n) = HSS_get_vheight s.
Proof. unfold HSS_commit. by destruct (_ <=? _). Qed.

(** Only the certificate of the proposal touches [vheight] in [update_nodes]. *)
Lemma update_nodes_vheight (m m' : Machine HotstuffStorage) p r :
  Machine_update_nodes m p = Ret (m', r) ->
  HSS_get_vheight (m_storage m') = HSS_get_vheight (m_storage (qc_step m p)).
Proof.
  rewrite update_nodes_unfold. cbn zeta. intros H.
  assert (Hl : HSS_get_vheight (m_storage (locked_step m p)) =
               HSS_get_vheight (m_storage (qc_step m p))).
  { unfold locked_step, lock_step. destruct (_ !! 1%nat); [|done]. by destruct (_ <? _). }
  destruct (is_consecutive_three_chain _ _); inv_ret; [|done].
  unfold Machine_on_commit in H. inv_ret. rewrite <-Hl. apply HSS_commit_vheight.
Qed.

Lemma HSS_update_qc_high_vheight s n qc hq :
  HSS_get s (qc_node (HSS_get_qc_high s)) = Some hq ->
  HSS_get_vheight (HSS_update_qc_high s n qc) =
    if node_height hq <? node_height n then node_height n else HSS_get_vheight s.
Proof. intros Hq. unfold HSS_update_qc_high. rewrite Hq. by destruct (_ <? _). Qed.

End HssLiveness.
