(* ===== verification/HssContract.v ===== *)
(** * The store meets the contract of the pacemaker *)

From S2P Require Import Prelude Crypto HsData CryptoKit SafetyStorage LivenessData.
From S2P Require Import StorageContract Persistor Hss HssSafety HssReach HssLiveness.

Section HssContract.
Context `{TC : ThresholdCrypto} {C : Codec}.

Implicit Types (s : HotstuffStorage).

Lemma HSS_compress_tc_frame s :
  hss_state (HSS_compress_tc s).1 = hss_state s /\
  hss_in_mem_queue (HSS_compress_tc s).1 = hss_in_mem_queue s.
Proof. unfold HSS_compress_tc. by repeat case_match. Qed.

Lemma HSS_append_tc_frame s tc :
  hss_state (HSS_append_tc s tc).1 = hss_state s /\
  hss_in_mem_queue (HSS_append_tc s tc).1 = hss_in_mem_queue s.
Proof.
  unfold HSS_append_tc. destruct (HSS_compress_tc _) as [s' v] eqn:E. cbn [fst].
  change s' with (s', v).1. rewrite <-E. destruct (tc_view_sign tc);
    apply (HSS_compress_tc_frame (HSS_set_dirty (set_queues _ _ _ _ s))).
Qed.

Lemma HSS_flush_frame s s' r :
  HSS_flush s = Ret (s', r) ->
  hss_state s' = hss_state s /\ hss_in_mem_queue s' = hss_in_mem_queue s.
Proof.
  unfold HSS_flush, HSS_async_flush. intros H.
  destruct (hss_dirty s); cbn [negb] in H; [|by inv_ret].
  destruct (hss_backend s); [|by inv_ret]. inv_ret. by subst.
Qed.

(** What only depends on the state and on the stored proposals. *)
Lemma HSS_same_replica s s' :
  hss_state s' = hss_state s -> same_replica s s'.
Proof. intros H. unfold same_replica, same_safety. cbn. unfold HSS_get_locked_node,
  HSS_get_last_committed, HSS_get_view, HSS_get_qc_high, HSS_get_leaf. by rewrite H. Qed.

Lemma HSS_inv_frame s s' :
  hss_state s' = hss_state s -> hss_in_mem_queue s' = hss_in_mem_queue s -> HSS_inv s -> HSS_inv s'.
Proof. intros H1 H2 [Hk Hc]. split; rewrite ?H1, ?H2; auto. Qed.

#[global] Instance HSS_LivenessStorageLaws : LivenessStorageLaws HSS_inv.
Proof.
  split; try done.
  - intros s tc. apply HSS_same_replica, HSS_append_tc_frame.
  - intros s s' r H. by apply HSS_same_replica, (HSS_flush_frame s s' r).
  - intros s n qc. cbn. apply HSS_update_qc_high_frame.
  - intros s tc. destruct (HSS_append_tc_frame s tc). by apply HSS_inv_frame.
  - intros s v. by apply HSS_inv_frame.
  - intros s v r qc. by apply HSS_inv_frame.
  - intros s v. by apply HSS_inv_frame.
  - intros s s' r H. destruct (HSS_flush_frame s s' r H). by apply HSS_inv_frame.
  - intros s n qc Hi. apply (HSS_inv_update_qc_high s n qc) in Hi. by destruct Hi.
  - by intros s v [].
  - intros s. cbn. unfold HSS_threshold, quorum_threshold. apply Z.div_pos; [|lia].
    apply Z.land_nonneg. right. lia.
  - apply new_views_set.
  - apply new_views_insert.
  - apply new_views_clean.
Qed.
End HssContract.
