(* ===== verification/ProtoData.v ===== *)
(** * Data of the first prototype (hs-prototype/src/safety/basic.rs, msg.rs, utils.rs)

    The prototype has its own proposals and certificates: a proposal names its
    certificate by hash, commands are strings, and the first certificate has no
    signature.  The messages between its tasks and over HTTP are here too. *)

From S2P Require Import Prelude Crypto HsData LivenessData Persistor.

(** ** Hashes *)

Record PNodeHash := mkPNodeHash { PNodeHash_0 : list byte }.
Record PQCHash := mkPQCHash { PQCHash_0 : list byte }.

#[export] Instance PNodeHash_eq_dec : EqDecision PNodeHash.
Proof. solve_decision. Defined.
#[export] Instance PNodeHash_countable : Countable PNodeHash :=
  inj_countable' PNodeHash_0 mkPNodeHash (fun h => match h with mkPNodeHash _ => eq_refl end).
#[export] Instance PQCHash_eq_dec : EqDecision PQCHash.
Proof. solve_decision. Defined.
#[export] Instance PQCHash_countable : Countable PQCHash :=
  inj_countable' PQCHash_0 mkPQCHash (fun h => match h with mkPQCHash _ => eq_refl end).

Definition PNodeHash_genesis : PNodeHash := mkPNodeHash (replicate 32 xab).
Definition PNodeHash_as_ref (h : PNodeHash) : list byte := PNodeHash_0 h.
Definition PQCHash_as_ref (h : PQCHash) : list byte := PQCHash_0 h.
Definition PQCHash_genesis : PQCHash := mkPQCHash (replicate 32 x00).

Inductive PRole := PLeader | PFollower.

Abbreviation Cmd := string (only parsing).

(** ** Proposals *)

Record PTreeNode := mkPTreeNode {
  pn_height : Z;
  pn_cmds : list Cmd;
  pn_parent : PNodeHash;
  pn_justify : PQCHash;
}.

#[export] Instance PTreeNode_eq_dec : EqDecision PTreeNode.
Proof. solve_decision. Defined.

Definition PTreeNode_genesis : PTreeNode :=
  {| pn_height := 0; pn_cmds := []; pn_parent := PNodeHash_genesis; pn_justify := PQCHash_genesis |}.

Definition PTreeNode_to_be_bytes (n : PTreeNode) : list byte :=
  u64_to_be_bytes (pn_height n) ++ PQCHash_as_ref (pn_justify n) ++
  PNodeHash_as_ref (pn_parent n) ++ concat (str_bytes <$> pn_cmds n).

Section ProtoData.
Context `{TC : ThresholdCrypto} {C : Codec}.

(** The digest of the commands, the height and the parent, in that order. *)
Definition PTreeNode_hash (n : PTreeNode) : PNodeHash :=
  mkPNodeHash (sha256 (concat (str_bytes <$> pn_cmds n) ++ u64_to_be_bytes (pn_height n) ++
                       PNodeHash_0 (pn_parent n))).

Definition PTreeNode_node_and_hash (cmds : list Cmd) (height : Z) (parent : PNodeHash)
    (justify : PQCHash) : PTreeNode * PNodeHash :=
  let node := {| pn_cmds := cmds; pn_height := height; pn_parent := parent;
                 pn_justify := justify |} in
  (node, PTreeNode_hash node).

(** ** Certificates *)

Record PGenericQC := mkPGenericQC {
  pq_view : Z;
  pq_node : PNodeHash;
  pq_combined_sign : option CombinedSign;
}.

Definition PGenericQC_new (view : Z) (node : PNodeHash) (s : CombinedSign) : PGenericQC :=
  {| pq_view := view; pq_node := node; pq_combined_sign := Some s |}.

Definition PGenericQC_genesis (view : Z) (node : PTreeNode) : PGenericQC :=
  {| pq_view := view; pq_node := PTreeNode_hash node; pq_combined_sign := None |}.

(** [res.copy_from_slice(&v.to_bytes()[32..64])], zeros without a signature. *)
Definition PGenericQC_hash (qc : PGenericQC) : PQCHash :=
  match pq_combined_sign qc with
  | Some v => mkPQCHash (take 32 (drop 32 (sign_to_bytes v)))
  | None => mkPQCHash (replicate 32 x00)
  end.

Definition PGenericQC_to_be_bytes (qc : PGenericQC) : list byte :=
  u64_to_be_bytes (pq_view qc) ++ PNodeHash_as_ref (pq_node qc) ++
  match pq_combined_sign qc with Some s => sign_to_bytes s | None => [] end.

Record PSignKit := mkPSignKit { pk_sign : Sign; pk_sign_id : Z }.

(** utils.rs; [s] is the key set that was drawn. *)
Definition P_threshold_sign_kit (s : SecretKeySet) (n t : Z) :
    outcome (SecretKeySet * PK * list (Z * SK)) :=
  if t <=? n then
    let vec_sk := (fun i => (i, secret_key_share s i)) <$> seqZ 0 n in
    let pks := public_keys s in
    Ret (s, pks, vec_sk)
  else Panic.

(** ** Messages *)

Record PSnapshot := mkPSnapshot {
  pss_view : Z;
  pss_leader : option ReplicaID;
  pss_threshold : Z;
  pss_node_num : Z;
  pss_leaf : string;
  pss_qc_high : string;
}.

Record PContext := mkPContext { pc_from : ReplicaID; pc_view : Z }.

(** The sending end of a channel of the runtime: whether somebody still listens. *)
Record PSender := mkPSender { listening : bool }.

(** [sender.send(..).await.unwrap()]. *)
Definition send_unwrap {A : Type} (ch : PSender) (a : A) : outcome A :=
  if listening ch then Ret a else Panic.

Inductive InternalMsg :=
| PRequestSnapshot (reply : PSender)
| PRecvProposal (ctx : PContext) (prop : PTreeNode) (qc : PGenericQC) (reply : PSender)
| PRecvSign (ctx : PContext) (node : PTreeNode) (sign : PSignKit)
| PRecvNewViewMsg (ctx : PContext) (node : PTreeNode) (qc_high : PGenericQC)
| PViewChange (leader : ReplicaID) (view : Z) (reply : PSender)
| PPropose (ctx : PContext) (node : PTreeNode) (qc : PGenericQC)
| PNewTx (cmd : Cmd)
| PNewLeader (ctx : PContext) (leader : ReplicaID)
| PDown.

Inductive RpcType := RpcNewProposal | RpcNewView | RpcNewLeader | RpcTypeStatus.

Inductive RpcStatus := RpcOk | RpcInvalidUsage | RpcInternalError | RpcAccept | RpcReject.

#[global] Instance RpcStatus_eq_dec : EqDecision RpcStatus.
Proof. solve_decision. Defined.

Record NewTransaction := mkNewTransaction { nt_client_id : string; nt_cmd : string }.

Record RpcRequest := mkRpcRequest {
  rq_ctx : PContext;
  rq_msg_type : RpcType;
  rq_leader : option ReplicaID;
  rq_prop : option PTreeNode;
  rq_qc : option PGenericQC;
}.

Record RpcResponse := mkRpcResponse {
  rs_ctx : PContext;
  rs_status : RpcStatus;
  rs_msg_type : RpcType;
  rs_node : option PTreeNode;
  rs_sign : option PSignKit;
  rs_snapshot : option PSnapshot;
  rs_qc : option PGenericQC;
}.

Definition RpcResponse_accept (ctx : PContext) (node : PTreeNode) (sign : PSignKit) : RpcResponse :=
  {| rs_ctx := ctx; rs_status := RpcAccept; rs_msg_type := RpcNewProposal; rs_node := Some node;
     rs_sign := Some sign; rs_snapshot := None; rs_qc := None |}.

Definition RpcResponse_reject (ctx : PContext) : RpcResponse :=
  {| rs_ctx := ctx; rs_status := RpcReject; rs_msg_type := RpcNewProposal; rs_node := None;
     rs_sign := None; rs_snapshot := None; rs_qc := None |}.

Definition RpcResponse_internal_err (ctx : PContext) (msg_type : RpcType) : RpcResponse :=
  {| rs_ctx := ctx; rs_status := RpcInternalError; rs_msg_type := msg_type; rs_node := None;
     rs_snapshot := None; rs_sign := None; rs_qc := None |}.

Definition RpcResponse_invalid_usage (ctx : PContext) (msg_type : RpcType) : RpcResponse :=
  {| rs_ctx := ctx; rs_status := RpcInvalidUsage; rs_msg_type := msg_type; rs_node := None;
     rs_snapshot := None; rs_sign := None; rs_qc := None |}.

Definition RpcResponse_status (ctx : PContext) (ss : option PSnapshot) : RpcResponse :=
  {| rs_ctx := ctx; rs_status := RpcOk; rs_msg_type := RpcTypeStatus; rs_snapshot := ss;
     rs_node := None; rs_sign := None; rs_qc := None |}.

Definition RpcResponse_new_view (ctx : PContext) (node : PTreeNode) (qc : PGenericQC) : RpcResponse :=
  {| rs_ctx := ctx; rs_status := RpcOk; rs_msg_type := RpcNewView; rs_snapshot := None;
     rs_node := Some node; rs_sign := None; rs_qc := Some qc |}.

Definition RpcResponse_ok (ctx : PContext) (msg_type : RpcType) : RpcResponse :=
  {| rs_ctx := ctx; rs_status := RpcOk; rs_msg_type := msg_type; rs_snapshot := None;
     rs_node := None; rs_sign := None; rs_qc := None |}.

(** A response that accepts a proposal becomes a vote; every other one is dropped. *)
Definition InternalMsg_from_rpc_response (resp : RpcResponse) : option InternalMsg :=
  if negb (bool_decide (rs_status resp = RpcAccept)) then None
  else
    match rs_node resp, rs_sign resp with
    | Some node, Some sign => Some (PRecvSign (rs_ctx resp) node sign)
    | _, _ => None
    end.
End ProtoData.
