(* ===== verification/Proto.v ===== *)
(** * The machine of the first prototype (hs-prototype/src/safety/mod.rs)

    One definition [P_f] per method [f] of the traits [MemPool], [StateMachine],
    [SysConf], [Crypto] and [HotStuff] as [Machine] implements them, and the dispatcher
    [process_internal_msg] with the loop [run].  Messages to other tasks are outputs; a
    send with [unwrap] panics when nobody listens.  Walks along parents have fuel. *)

From S2P Require Import Prelude Walk Crypto HsData LivenessData Persistor ProtoData.

Section Proto.
Context `{TC : ThresholdCrypto} {C : Codec}.

Record PMachine := mkPMachine {
  px_node_pool : gmap PNodeHash PTreeNode;
  px_qc_map : gmap PQCHash PGenericQC;
  px_leaf : PTreeNode;
  px_leaf_high : Z;
  px_qc_high : PGenericQC;
  px_view : Z;
  px_vheight : Z;
  px_commit_height : Z;
  px_b_executed : PTreeNode;
  px_b_locked : PTreeNode;
  px_peer_conf : gmap string string;
  px_self_id : ReplicaID;
  px_leader_id : option ReplicaID;
  px_sign_id : Z;
  px_pks : PK;
  px_sks : SK;
  px_voting_set : gmap string PSignKit;
  px_decided : bool;
  px_step_out : PSender;
}.

(** ** Assignments to one field *)

Definition px_set_node_pool (v : gmap PNodeHash PTreeNode) (m : PMachine) : PMachine :=
  mkPMachine v (px_qc_map m) (px_leaf m) (px_leaf_high m) (px_qc_high m) (px_view m)
    (px_vheight m) (px_commit_height m) (px_b_executed m) (px_b_locked m) (px_peer_conf m)
    (px_self_id m) (px_leader_id m) (px_sign_id m) (px_pks m) (px_sks m) (px_voting_set m)
    (px_decided m) (px_step_out m).
Definition px_set_qc_map (v : gmap PQCHash PGenericQC) (m : PMachine) : PMachine :=
  mkPMachine (px_node_pool m) v (px_leaf m) (px_leaf_high m) (px_qc_high m) (px_view m)
    (px_vheight m) (px_commit_height m) (px_b_executed m) (px_b_locked m) (px_peer_conf m)
    (px_self_id m) (px_leader_id m) (px_sign_id m) (px_pks m) (px_sks m) (px_voting_set m)
    (px_decided m) (px_step_out m).
Definition px_set_leaf_high (v : Z) (m : PMachine) : PMachine :=
  mkPMachine (px_node_pool m) (px_qc_map m) (px_leaf m) v (px_qc_high m) (px_view m)
    (px_vheight m) (px_commit_height m) (px_b_executed m) (px_b_locked m) (px_peer_conf m)
    (px_self_id m) (px_leader_id m) (px_sign_id m) (px_pks m) (px_sks m) (px_voting_set m)
    (px_decided m) (px_step_out m).
Definition px_set_leaf (v : PTreeNode) (m : PMachine) : PMachine :=
  mkPMachine (px_node_pool m) (px_qc_map m) v (px_leaf_high m) (px_qc_high m) (px_view m)
    (px_vheight m) (px_commit_height m) (px_b_executed m) (px_b_locked m) (px_peer_conf m)
    (px_self_id m) (px_leader_id m) (px_sign_id m) (px_pks m) (px_sks m) (px_voting_set m)
    (px_decided m) (px_step_out m).
Definition px_set_qc_high (v : PGenericQC) (m : PMachine) : PMachine :=
  mkPMachine (px_node_pool m) (px_qc_map m) (px_leaf m) (px_leaf_high m) v (px_view m)
    (px_vheight m) (px_commit_height m) (px_b_executed m) (px_b_locked m) (px_peer_conf m)
    (px_self_id m) (px_leader_id m) (px_sign_id m) (px_pks m) (px_sks m) (px_voting_set m)
    (px_decided m) (px_step_out m).
Definition px_set_view (v : Z) (m : PMachine) : PMachine :=
  mkPMachine (px_node_pool m) (px_qc_map m) (px_leaf m) (px_leaf_high m) (px_qc_high m) v
    (px_vheight m) (px_commit_height m) (px_b_executed m) (px_b_locked m) (px_peer_conf m)
    (px_self_id m) (px_leader_id m) (px_sign_id m) (px_pks m) (px_sks m) (px_voting_set m)
    (px_decided m) (px_step_out m).
Definition px_set_vheight (v : Z) (m : PMachine) : PMachine :=
  mkPMachine (px_node_pool m) (px_qc_map m) (px_leaf m) (px_leaf_high m) (px_qc_high m)
    (px_view m) v (px_commit_height m) (px_b_executed m) (px_b_locked m) (px_peer_conf m)
    (px_self_id m) (px_leader_id m) (px_sign_id m) (px_pks m) (px_sks m) (px_voting_set m)
    (px_decided m) (px_step_out m).
Definition px_set_commit_height (v : Z) (m : PMachine) : PMachine :=
  mkPMachine (px_node_pool m) (px_qc_map m) (px_leaf m) (px_leaf_high m) (px_qc_high m)
    (px_view m) (px_vheight m) v (px_b_executed m) (px_b_locked m) (px_peer_conf m)
    (px_self_id m) (px_leader_id m) (px_sign_id m) (px_pks m) (px_sks m) (px_voting_set m)
    (px_decided m) (px_step_out m).
Definition px_set_b_executed (v : PTreeNode) (m : PMachine) : PMachine :=
  mkPMachine (px_node_pool m) (px_qc_map m) (px_leaf m) (px_leaf_high m) (px_qc_high m)
    (px_view m) (px_vheight m) (px_commit_height m) v (px_b_locked m) (px_peer_conf m)
    (px_self_id m) (px_leader_id m) (px_sign_id m) (px_pks m) (px_sks m) (px_voting_set m)
    (px_decided m) (px_step_out m).
Definition px_set_b_locked (v : PTreeNode) (m : PMachine) : PMachine :=
  mkPMachine (px_node_pool m) (px_qc_map m) (px_leaf m) (px_leaf_high m) (px_qc_high m)
    (px_view m) (px_vheight m) (px_commit_height m) (px_b_executed m) v (px_peer_conf m)
    (px_self_id m) (px_leader_id m) (px_sign_id m) (px_pks m) (px_sks m) (px_voting_set m)
    (px_decided m) (px_step_out m).
Definition px_set_leader_id (v : option ReplicaID) (m : PMachine) : PMachine :=
  mkPMachine (px_node_pool m) (px_qc_map m) (px_leaf m) (px_leaf_high m) (px_qc_high m)
    (px_view m) (px_vheight m) (px_commit_height m) (px_b_executed m) (px_b_locked m)
    (px_peer_conf m) (px_self_id m) v (px_sign_id m) (px_pks m) (px_sks m) (px_voting_set m)
    (px_decided m) (px_step_out m).
Definition px_set_voting_set (v : gmap string PSignKit) (m : PMachine) : PMachine :=
  mkPMachine (px_node_pool m) (px_qc_map m) (px_leaf m) (px_leaf_high m) (px_qc_high m)
    (px_view m) (px_vheight m) (px_commit_height m) (px_b_executed m) (px_b_locked m)
    (px_peer_conf m) (px_self_id m) (px_leader_id m) (px_sign_id m) (px_pks m) (px_sks m) v
    (px_decided m) (px_step_out m).
Definition px_set_decided (v : bool) (m : PMachine) : PMachine :=
  mkPMachine (px_node_pool m) (px_qc_map m) (px_leaf m) (px_leaf_high m) (px_qc_high m)
    (px_view m) (px_vheight m) (px_commit_height m) (px_b_executed m) (px_b_locked m)
    (px_peer_conf m) (px_self_id m) (px_leader_id m) (px_sign_id m) (px_pks m) (px_sks m)
    (px_voting_set m) v (px_step_out m).

Definition P_new (self_id : ReplicaID) (sign_id : Z) (pks : PK) (sks : SK) (step_out : PSender)
    (peer_conf : gmap string string) : PMachine :=
  let node := PTreeNode_genesis in
  let node_pool := {[PTreeNode_hash node := node]} in
  let first_qc := PGenericQC_genesis 0 node in
  let qc_map := {[PGenericQC_hash first_qc := first_qc]} in
  {| px_node_pool := node_pool; px_qc_map := qc_map; px_leaf := node; px_leaf_high := 0;
     px_qc_high := first_qc; px_view := 1; px_vheight := 0; px_commit_height := 0;
     px_b_executed := node; px_b_locked := node; px_peer_conf := peer_conf;
     px_self_id := self_id; px_leader_id := Some "node-0"%string; px_sign_id := sign_id;
     px_pks := pks; px_sks := sks; px_voting_set := ∅; px_decided := false;
     px_step_out := step_out |}.

Definition P_id (m : PMachine) : string * Z := (px_self_id m, px_view m).

(** ** [impl MemPool for Machine] *)

Definition P_append_new_node (m : PMachine) (node : PTreeNode) : PMachine :=
  px_set_node_pool (<[PTreeNode_hash node:=node]> (px_node_pool m)) m.

Definition P_append_new_qc (m : PMachine) (qc : PGenericQC) : PMachine :=
  px_set_qc_map (<[PGenericQC_hash qc:=qc]> (px_qc_map m)) m.

Definition P_find_parent (m : PMachine) (node : PTreeNode) : option PTreeNode :=
  px_node_pool m !! pn_parent node.

Definition P_find_qc_by_justify (m : PMachine) (node_hash : PNodeHash) : option PGenericQC :=
  node ← px_node_pool m !! node_hash; px_qc_map m !! pn_justify node.

Definition P_find_node_by_qc (m : PMachine) (qc_hash : PQCHash) : option PTreeNode :=
  qc ← px_qc_map m !! qc_hash; px_node_pool m !! pq_node qc.

Definition P_find_three_chain (m : PMachine) (node : PTreeNode) : list PTreeNode :=
  match px_qc_map m !! pn_justify node with
  | Some qc3 =>
      match px_node_pool m !! pq_node qc3 with
      | Some b3 =>
          b3 :: match px_qc_map m !! pn_justify b3 with
                | Some qc2 =>
                    match px_node_pool m !! pq_node qc2 with
                    | Some b2 =>
                        b2 :: match px_qc_map m !! pn_justify b2 with
                              | Some qc1 =>
                                  match px_node_pool m !! pq_node qc1 with
                                  | Some b1 => [b1]
                                  | None => []
                                  end
                              | None => []
                              end
                    | None => []
                    end
                | None => []
                end
      | None => []
      end
  | None => []
  end.

Definition P_update_leaf (m : PMachine) (new_leaf : PTreeNode) : PMachine :=
  if px_leaf_high m <? pn_height new_leaf then
    let m := px_set_leaf_high (pn_height new_leaf) m in
    let m := px_set_leaf new_leaf m in
    px_set_node_pool (<[PTreeNode_hash new_leaf:=px_leaf m]> (px_node_pool m)) m
  else m.

Definition P_get_leaf (m : PMachine) : PTreeNode := px_leaf m.
Definition P_get_qc_high (m : PMachine) : PGenericQC := px_qc_high m.

Definition P_update_qc_high (m : PMachine) (new_qc_node : PTreeNode) (new_qc_high : PGenericQC) :
    PMachine :=
  let qc_high := P_get_qc_high m in
  match P_find_node_by_qc m (PGenericQC_hash qc_high) with
  | Some qc_node =>
      if pn_height qc_node <? pn_height new_qc_node then
        let m := px_set_qc_high new_qc_high m in
        let m := px_set_leaf_high (pn_height new_qc_node) m in
        P_update_leaf m new_qc_node
      else m
  | None => m
  end.

(** The loop of [is_conflicting]; [None]: it never ends. *)
Definition P_is_conflicting (m : PMachine) (a b : PTreeNode) : option bool :=
  let '(a, b) := if pn_height b <=? pn_height a then (a, b) else (b, a) in
  node ← walk pn_height pn_parent (size (px_node_pool m)) (px_node_pool m) (pn_height b) a;
  Some (negb (bool_decide (pn_height node = pn_height b) &&
              bool_decide (pn_cmds node = pn_cmds b))).

Definition P_get_node (m : PMachine) (node_hash : PNodeHash) : option PTreeNode :=
  px_node_pool m !! node_hash.
Definition P_get_qc (m : PMachine) (qc_hash : PQCHash) : option PGenericQC :=
  px_qc_map m !! qc_hash.
Definition P_get_locked_node (m : PMachine) : PTreeNode := px_b_locked m.
Definition P_update_locked_node (m : PMachine) (node : PTreeNode) : PMachine :=
  px_set_b_locked node m.
Definition P_get_last_executed (m : PMachine) : PTreeNode := px_b_executed m.
Definition P_update_last_executed_node (m : PMachine) (node : PTreeNode) : PMachine :=
  px_set_b_executed node m.
Definition P_get_view (m : PMachine) : Z := px_view m.
Definition P_increase_view (m : PMachine) (new_view : Z) : PMachine :=
  px_set_view (Z.max (px_view m) new_view) m.

(** [b_3.parent == hash(b_3) && b_2.parent == hash(b)]. *)
Definition P_is_continues_three_chain (chain : list PTreeNode) : bool :=
  match chain with
  | [b_3; b_2; b] =>
      bool_decide (pn_parent b_3 = PTreeNode_hash b_3) &&
      bool_decide (pn_parent b_2 = PTreeNode_hash b)
  | _ => false
  end.

Definition P_reset (m : PMachine) : PMachine := px_set_decided false (px_set_voting_set ∅ m).

(** [insert(..).is_none()]. *)
Definition P_add_vote (m : PMachine) (ctx : PContext) (sign : PSignKit) : PMachine * bool :=
  (px_set_voting_set (<[pc_from ctx:=sign]> (px_voting_set m)) m,
   bool_decide (px_voting_set m !! pc_from ctx = None)).

Definition P_vote_set_size (m : PMachine) : Z := map_len (px_voting_set m).

(** ** [impl StateMachine for Machine] *)

(** The recursion of [on_commit], which calls itself on the parent first; [None]: it
    never returns. *)
Fixpoint P_on_commit_rec (fuel : nat) (m : PMachine) (node : PTreeNode) : option PMachine :=
  let b_exec := P_get_locked_node m in
  if pn_height b_exec <? pn_height node then
    match P_get_node m (pn_parent node) with
    | Some parent =>
        match fuel with
        | O => None
        | S fuel =>
            m ← P_on_commit_rec fuel m parent;
            Some (px_set_commit_height (pn_height node) m)
        end
    | None => Some (px_set_commit_height (pn_height node) m)
    end
  else Some m.

Definition P_on_commit (m : PMachine) (node : PTreeNode) : outcome PMachine :=
  or_diverge (P_on_commit_rec (size (px_node_pool m)) m node).

Definition P_update_nodes (m : PMachine) (node : PTreeNode) : outcome PMachine :=
  let chain := P_find_three_chain m node in
  let b_lock := P_get_locked_node m in
  m ← match chain !! 0%nat with
      | Some b_3 =>
          b3_qc ← unwrap (P_get_qc m (pn_justify node));
          Ret (P_update_qc_high m b_3 b3_qc)
      | None => Ret m
      end;
  let m :=
    match chain !! 1%nat with
    | Some b_2 => if pn_height b_lock <? pn_height b_2 then P_update_locked_node m node else m
    | None => m
    end in
  if bool_decide (length chain = 3%nat) && P_is_continues_three_chain chain then
    b ← unwrap (last chain); P_on_commit m b
  else Ret m.

Definition P_safe_node (m : PMachine) (node prev_node : PTreeNode) : outcome bool :=
  conflicting ← or_diverge (P_is_conflicting m node (px_b_locked m));
  let a := negb conflicting in
  let b := pn_height (px_b_locked m) <? pn_height prev_node in
  Ret (a || b).

(** ** [impl SysConf for Machine], [impl Crypto for Machine] *)

Definition P_self_id (m : PMachine) : string := px_self_id m.
Definition P_get_addr (m : PMachine) (node_id : string) : option string := px_peer_conf m !! node_id.
Definition P_threshold (m : PMachine) : Z := quorum_threshold (map_len (px_peer_conf m)).

Definition P_sign_id (m : PMachine) : Z := px_sign_id m.
Definition P_sign (m : PMachine) (node : PTreeNode) : Sign :=
  let buf := PTreeNode_to_be_bytes node in sk_sign (px_sks m) buf.

Definition P_combine_partial_sign (m : PMachine) : outcome CombinedSign :=
  let tmp := (fun kit => (pk_sign_id kit, pk_sign kit)) <$> map_values (px_voting_set m) in
  unwrap (combine_signatures (px_pks m) tmp).

(** ** [impl HotStuff for Machine] *)

(** What the machine sends: a proposal to the network task, or an answer on the channel
    a message carries. *)
Inductive POut :=
| OutPropose (ctx : PContext) (node : PTreeNode) (qc : PGenericQC)
| OutVote (ctx : PContext) (node : PTreeNode) (kit : PSignKit)
| OutSnapshot (ctx : PContext) (ss : PSnapshot)
| OutNewView (leaf : PTreeNode) (qc_high : PGenericQC).

Definition P_is_leader (m : PMachine) : bool :=
  match px_leader_id m with
  | Some leader => bool_decide (leader = px_self_id m)
  | None => false
  end.

Definition P_propose (m : PMachine) (node : PTreeNode) (qc : PGenericQC) : outcome POut :=
  send_unwrap (px_step_out m)
    (OutPropose {| pc_view := P_get_view m; pc_from := px_self_id m |} node qc).

Definition P_on_beat (m : PMachine) (cmds : list Cmd) : outcome (PMachine * list POut) :=
  let prev_leaf := P_get_leaf m in
  let parent := PTreeNode_hash prev_leaf in
  let justify := PGenericQC_hash (P_get_qc_high m) in
  let '(node, _) := PTreeNode_node_and_hash cmds (px_view m) parent justify in
  let m := P_update_leaf m node in
  out ← P_propose m node (P_get_qc_high m);
  Ret (m, [out]).

(** [self.decided || !self.add_vote(ctx, sign)]: the vote is added only when undecided. *)
Definition P_on_recv_vote (m : PMachine) (ctx : PContext) (prop : PTreeNode) (sign : PSignKit) :
    outcome PMachine :=
  if px_decided m then Ret m
  else
    let '(m, added) := P_add_vote m ctx sign in
    if negb added then Ret m
    else if P_threshold m <? P_vote_set_size m then
      combined_sign ← P_combine_partial_sign m;
      let prop_hash := PTreeNode_hash prop in
      let qc := {| pq_view := px_view m; pq_node := prop_hash;
                   pq_combined_sign := Some combined_sign |} in
      let m := P_update_qc_high m prop qc in
      let m := px_set_decided true m in
      Ret (P_append_new_qc m qc)
    else Ret m.

Definition P_on_recv_proposal (m : PMachine) (ctx : PContext) (prop : PTreeNode)
    (justify : PGenericQC) (sender : PSender) : outcome (PMachine * list POut) :=
  if bool_decide (px_leader_id m = Some (pc_from ctx)) then
    let m := P_append_new_qc m justify in
    '(m, out) ←
      match P_find_node_by_qc m (pn_justify prop) with
      | Some prev_node =>
          accept ← (if px_vheight m <? pn_height prop then P_safe_node m prop prev_node
                    else Ret false);
          if (accept : bool) then
            let m := px_set_vheight (pn_height prop) m in
            let kit := {| pk_sign := P_sign m prop; pk_sign_id := P_sign_id m |} in
            vote ← send_unwrap sender
                     (OutVote {| pc_view := px_view m; pc_from := px_self_id m |} prop kit);
            Ret (P_append_new_node m prop, [vote])
          else Ret (m, [])
      | None => Ret (m, [])
      end;
    m ← P_update_nodes m prop;
    Ret (m, out)
  else Ret (m, []).

(** ** The task *)

Definition P_snapshot (m : PMachine) : PSnapshot :=
  {| pss_view := px_view m; pss_leader := px_leader_id m; pss_threshold := P_threshold m;
     pss_node_num := map_len (px_node_pool m);
     pss_leaf := base64_encode (PTreeNode_to_be_bytes (P_get_last_executed m));
     pss_qc_high := base64_encode (PGenericQC_to_be_bytes (P_get_qc_high m)) |}.

Definition P_process_internal_msg (m : PMachine) (req : InternalMsg) :
    outcome (PMachine * list POut) :=
  match req with
  | PRequestSnapshot sender =>
      out ← send_unwrap sender
              (OutSnapshot {| pc_from := px_self_id m; pc_view := px_view m |} (P_snapshot m));
      Ret (m, [out])
  | PRecvProposal ctx proposal justify sender => P_on_recv_proposal m ctx proposal justify sender
  | PRecvSign ctx node sign => m ← P_on_recv_vote m ctx node sign; Ret (m, [])
  | PNewTx cmd => P_on_beat m [cmd]
  | PRecvNewViewMsg _ _ qc_high =>
      match P_get_node m (pq_node qc_high) with
      | Some qc_node => Ret (P_update_qc_high m qc_node qc_high, [])
      | None => Ret (m, [])
      end
  | PNewLeader ctx leader =>
      if (px_view m <=? pc_view ctx) && bool_decide (px_leader_id m = None)
      then Ret (px_set_leader_id (Some leader) m, []) else Ret (m, [])
  | PViewChange leader view sender =>
      if px_view m <? view then
        let m := px_set_view view m in
        let m := px_set_leader_id (Some leader) m in
        let m := P_reset m in
        Ret (m, if listening sender then [OutNewView (P_get_leaf m) (P_get_qc_high m)] else [])
      else Ret (m, [])
  | PPropose _ _ _ | PDown => Ret (m, [])
  end.

(** The loop [run] over the messages of [step_in]: [Down] ends it; when every sender is
    gone the only branch of [select!] is disabled and the macro panics. *)
Fixpoint P_run (m : PMachine) (step_in : list InternalMsg) : outcome (PMachine * list POut) :=
  match step_in with
  | [] => Panic
  | PDown :: _ => Ret (m, [])
  | request :: rest =>
      '(m, out) ← P_process_internal_msg m request;
      '(m, out') ← P_run m rest;
      Ret (m, out ++ out')
  end.
End Proto.
