(* ===== verification/ProtoTraits.v ===== *)
(** * The traits of the prototype (hs-prototype/src/safety/traits.rs)

    The traits as classes and the machine as their implementation.  What a client of the
    pool of proposals and votes relies on is stated as laws and proved of the machine; the
    count of votes, on which the certificate depends, is proved against the laws. *)

From S2P Require Import Prelude Walk Crypto HsData LivenessData Persistor ProtoData Proto.

(** The kinds of requests; nothing uses them. *)
Inductive RequestType := RequestNewView | RequestProposal | RequestVote.

Section Traits.
Context `{TC : ThresholdCrypto} {C : Codec}.

Class PSysConf (M : Type) := {
  self_id : M -> string;
  get_addr : M -> string -> option string;
  threshold : M -> Z;
}.

Class PCrypto (M : Type) := {
  sign_id : M -> Z;
  sign : M -> PTreeNode -> Sign;
  combine_partial_signs : M -> outcome CombinedSign;
}.

(** Without implementation: the task of the pacemaker keeps its own tick and deadline. *)
Class PTimer (M : Type) := {
  reset_timer : M -> M;
  tick : M -> Z -> M;
  deadline : M -> Z;
  update_deadline : M -> Z -> M;
  touch_deadline : M -> bool;
}.

Class PMemPool (M : Type) := {
  mp_append_new_node : M -> PTreeNode -> M;
  mp_append_new_qc : M -> PGenericQC -> M;
  mp_get_node : M -> PNodeHash -> option PTreeNode;
  mp_get_qc : M -> PQCHash -> option PGenericQC;
  mp_find_parent : M -> PTreeNode -> option PTreeNode;
  mp_find_qc_by_justify : M -> PNodeHash -> option PGenericQC;
  mp_find_node_by_qc : M -> PQCHash -> option PTreeNode;
  mp_find_three_chain : M -> PTreeNode -> list PTreeNode;
  mp_is_continues_three_chain : M -> list PTreeNode -> bool;
  (** [None]: the walk along the parents never ends. *)
  mp_is_conflicting : M -> PTreeNode -> PTreeNode -> option bool;
  mp_get_qc_high : M -> PGenericQC;
  mp_update_qc_high : M -> PTreeNode -> PGenericQC -> M;
  mp_get_leaf : M -> PTreeNode;
  mp_update_leaf : M -> PTreeNode -> M;
  mp_get_locked_node : M -> PTreeNode;
  mp_update_locked_node : M -> PTreeNode -> M;
  mp_get_last_executed : M -> PTreeNode;
  mp_update_last_executed_node : M -> PTreeNode -> M;
  mp_get_view : M -> Z;
  mp_increase_view : M -> Z -> M;
  mp_reset : M -> M;
  mp_add_vote : M -> PContext -> PSignKit -> M * bool;
  mp_vote_set_size : M -> Z;
}.

Class PStateMachine (M : Type) := {
  sm_mem_pool :: PMemPool M;
  sm_on_commit : M -> PTreeNode -> outcome M;
  sm_update_nodes : M -> PTreeNode -> outcome M;
  sm_safe_node : M -> PTreeNode -> PTreeNode -> outcome bool;
}.

(** The methods of the task; what they send is the list of outputs. *)
Class PHotStuff (M : Type) := {
  hs_sys_conf :: PSysConf M;
  hs_state_machine :: PStateMachine M;
  hs_crypto :: PCrypto M;
  hs_is_leader : M -> bool;
  hs_on_recv_vote : M -> PContext -> PTreeNode -> PSignKit -> outcome M;
  hs_on_recv_proposal : M -> PContext -> PTreeNode -> PGenericQC -> PSender -> outcome (M * list POut);
  hs_on_beat : M -> list Cmd -> outcome (M * list POut);
  hs_propose : M -> PTreeNode -> PGenericQC -> outcome POut;
}.

#[export] Instance PMachine_SysConf : PSysConf PMachine := {
  self_id := P_self_id; get_addr := P_get_addr; threshold := P_threshold;
}.

#[export] Instance PMachine_Crypto : PCrypto PMachine := {
  sign_id := P_sign_id; sign := P_sign; combine_partial_signs := P_combine_partial_sign;
}.

#[export] Instance PMachine_MemPool : PMemPool PMachine := {
  mp_append_new_node := P_append_new_node;
  mp_append_new_qc := P_append_new_qc;
  mp_get_node := P_get_node;
  mp_get_qc := P_get_qc;
  mp_find_parent := P_find_parent;
  mp_find_qc_by_justify := P_find_qc_by_justify;
  mp_find_node_by_qc := P_find_node_by_qc;
  mp_find_three_chain := P_find_three_chain;
  mp_is_continues_three_chain := fun _ => P_is_continues_three_chain;
  mp_is_conflicting := P_is_conflicting;
  mp_get_qc_high := P_get_qc_high;
  mp_update_qc_high := P_update_qc_high;
  mp_get_leaf := P_get_leaf;
  mp_update_leaf := P_update_leaf;
  mp_get_locked_node := P_get_locked_node;
  mp_update_locked_node := P_update_locked_node;
  mp_get_last_executed := P_get_last_executed;
  mp_update_last_executed_node := P_update_last_executed_node;
  mp_get_view := P_get_view;
  mp_increase_view := P_increase_view;
  mp_reset := P_reset;
  mp_add_vote := P_add_vote;
  mp_vote_set_size := P_vote_set_size;
}.

#[export] Instance PMachine_StateMachine : PStateMachine PMachine := {
  sm_on_commit := P_on_commit; sm_update_nodes := P_update_nodes; sm_safe_node := P_safe_node;
}.

#[export] Instance PMachine_HotStuff : PHotStuff PMachine := {
  hs_is_leader := P_is_leader;
  hs_on_recv_vote := P_on_recv_vote;
  hs_on_recv_proposal := P_on_recv_proposal;
  hs_on_beat := P_on_beat;
  hs_propose := P_propose;
}.

(** ** The contract of the pool *)

(** [mp_voters] is the set of replicas whose votes are in the voting set. *)
Class PMemPoolLaws (M : Type) `{!PMemPool M} (mp_voters : M -> gset string) : Prop := {
  mp_size m : mp_vote_set_size m = Z.of_nat (size (mp_voters m));
  mp_reset_voters m : mp_voters (mp_reset m) = ∅;
  (** The answer [false] means duplicate votes of one replica. *)
  mp_add_vote_voters m ctx kit : mp_voters (mp_add_vote m ctx kit).1 = {[pc_from ctx]} ∪ mp_voters m;
  mp_add_vote_fresh m ctx kit : (mp_add_vote m ctx kit).2 = bool_decide (pc_from ctx ∉ mp_voters m);
  mp_get_appended m n : mp_get_node (mp_append_new_node m n) (PTreeNode_hash n) = Some n;
  mp_get_others m n h :
    h <> PTreeNode_hash n -> mp_get_node (mp_append_new_node m n) h = mp_get_node m h;
  mp_view_grows m v : mp_get_view (mp_increase_view m v) = Z.max (mp_get_view m) v;
}.

#[export] Instance PMachine_MemPoolLaws : PMemPoolLaws PMachine (fun m => dom (px_voting_set m)).
Proof.
  split.
  - intros m. cbn. unfold P_vote_set_size, map_len. by rewrite size_dom.
  - intros m. apply dom_empty_L.
  - intros m ctx kit. cbn. apply dom_insert_L.
  - intros m ctx kit. cbn. apply bool_decide_ext. by rewrite not_elem_of_dom.
  - intros m n. apply lookup_insert_eq.
  - intros m n h Hne. exact (lookup_insert_ne (px_node_pool m) _ _ _ (not_eq_sym Hne)).
  - done.
Qed.

(** A client that counts votes: one [add_vote] per message. *)
Fixpoint mp_add_votes {M : Type} `{!PMemPool M} (m : M) (votes : list (PContext * PSignKit)) :
    M * list bool :=
  match votes with
  | [] => (m, [])
  | (ctx, kit) :: votes =>
      let '(m, fresh) := mp_add_vote m ctx kit in
      let '(m, rest) := mp_add_votes m votes in
      (m, fresh :: rest)
  end.

Section Client.
Context (M : Type) `{!PMemPool M} (mp_voters : M -> gset string) `{!PMemPoolLaws M mp_voters}.

Definition senders (votes : list (PContext * PSignKit)) : gset string :=
  list_to_set ((fun v => pc_from v.1) <$> votes).

Lemma add_votes_voters m votes :
  mp_voters (mp_add_votes m votes).1 = senders votes ∪ mp_voters m.
Proof.
  revert m. induction votes as [|[ctx kit] votes IH]; intros m.
  - unfold senders. cbn. set_solver.
  - cbn [mp_add_votes]. destruct (mp_add_vote m ctx kit) as [m1 fresh] eqn:E.
    pose proof (mp_add_vote_voters m ctx kit) as Hv. rewrite E in Hv. cbn [fst] in Hv.
    specialize (IH m1). destruct (mp_add_votes m1 votes) as [m2 rest]. cbn [fst] in IH |- *.
    rewrite IH, Hv. unfold senders. cbn. set_solver.
Qed.

(** Votes are counted once per replica: after a reset the size of the voting set is the
    number of different senders, and as many votes were reported as fresh. *)
Theorem votes_counted_once m votes :
  let '(m', answers) := mp_add_votes (mp_reset m) votes in
  mp_vote_set_size m' = Z.of_nat (size (senders votes)) /\
  length (filter (eq true) answers) = size (senders votes).
Proof.
  assert (Hgen : forall m0, let '(m', answers) := mp_add_votes m0 votes in
    size (mp_voters m') = (length (filter (eq true) answers) + size (mp_voters m0))%nat).
  { induction votes as [|[ctx kit] votes IH]; intros m0; [done|]. cbn [mp_add_votes].
    destruct (mp_add_vote m0 ctx kit) as [m1 fresh] eqn:E.
    pose proof (mp_add_vote_voters m0 ctx kit) as Hv. pose proof (mp_add_vote_fresh m0 ctx kit) as Hf.
    rewrite E in Hv, Hf. cbn [fst snd] in Hv, Hf. specialize (IH m1).
    destruct (mp_add_votes m1 votes) as [m2 rest]. rewrite filter_cons. subst fresh.
    destruct (bool_decide_reflect (pc_from ctx ∉ mp_voters m0)) as [Hn|Hn]; case_decide; try done.
    - rewrite IH, Hv, size_union, size_singleton by set_solver. simpl. lia.
    - apply dec_stable in Hn. assert (mp_voters m1 = mp_voters m0) as <- by set_solver. done. }
  specialize (Hgen (mp_reset m)). pose proof (add_votes_voters (mp_reset m) votes) as Hv.
  destruct (mp_add_votes (mp_reset m) votes) as [m' answers]. cbn [fst] in Hv.
  rewrite mp_reset_voters, union_empty_r_L in Hv. rewrite mp_size, Hv in *.
  rewrite mp_reset_voters, size_empty in Hgen. split; [done|lia].
Qed.
End Client.
End Traits.
