(* ===== verification/ProtoSafety.v ===== *)
(** * What the prototype guarantees, and what it does not

    Votes of the prototype rise strictly, which the later machine gave up; but its
    commit rule compares a proposal with itself, so nothing is ever committed, its lock
    goes to the proposal just received instead of the grandparent, and a certificate
    never moves the leaf. *)

From S2P Require Import Prelude Walk Crypto HsData LivenessData Persistor ProtoData Proto.

Section ProtoSafety.
Context `{TC : ThresholdCrypto} {C : Codec}.

Implicit Types (m : PMachine) (n node prop : PTreeNode) (out : list POut).

(** ** Certificates *)

(** [leaf_high] is raised before [update_leaf] compares with it, so the latter never
    does anything. *)
Lemma P_update_qc_high_cases m n qc :
  P_update_qc_high m n qc = m \/
  P_update_qc_high m n qc = px_set_leaf_high (pn_height n) (px_set_qc_high qc m).
Proof.
  unfold P_update_qc_high. destruct (P_find_node_by_qc _ _) as [q|]; [|auto].
  destruct (_ <? _); [|auto]. right. unfold P_update_leaf. cbn [px_leaf_high px_set_leaf_high].
  by rewrite Z.ltb_irrefl.
Qed.

(** ** Commits *)

(** [on_commit] walks along the parents down to the lock and then records one height. *)
Lemma P_on_commit_rec_walk fuel m n :
  P_on_commit_rec fuel m n =
    (fun _ => if pn_height (px_b_locked m) <? pn_height n
              then px_set_commit_height (pn_height n) m else m) <$>
    walk pn_height pn_parent fuel (px_node_pool m) (pn_height (px_b_locked m)) n.
Proof.
  revert n. induction fuel as [|fuel IH]; intros n; cbn [P_on_commit_rec walk];
    unfold P_get_locked_node, P_get_node; destruct (_ <? _) eqn:E; try done;
    (destruct (px_node_pool m !! pn_parent n) as [p|]; cbn; [|by rewrite ?E]); [done|].
  rewrite IH. destruct (walk _ _ _ _ _ p); cbn; [|done]. f_equal.
  destruct (_ <? pn_height p); by destruct m.
Qed.

(** Whether [on_commit] returns, and what it changes. *)
Lemma P_on_commit_spec m n m' :
  P_on_commit m n = Ret m' ->
  (exists ks e, walk_path pn_height pn_parent (px_node_pool m) (pn_height (px_b_locked m)) n ks e) /\
  m' = (if pn_height (px_b_locked m) <? pn_height n then px_set_commit_height (pn_height n) m else m).
Proof.
  unfold P_on_commit. rewrite or_diverge_Ret, P_on_commit_rec_walk. intros H.
  apply fmap_Some in H as (e & Hw & ->). split; [|done].
  apply walk_walk_path in Hw as (ks & Hp & _). eauto.
Qed.

Lemma P_on_commit_total m n ks e :
  walk_path pn_height pn_parent (px_node_pool m) (pn_height (px_b_locked m)) n ks e ->
  exists m', P_on_commit m n = Ret m'.
Proof.
  intros Hp. unfold P_on_commit. rewrite P_on_commit_rec_walk.
  rewrite (walk_path_walk _ _ _ _ _ _ Hp (path_length _ _ _ _ _ Hp)). by eexists.
Qed.

(** A proposal that names its own hash as its parent. *)
Definition self_parent n : Prop := pn_parent n = PTreeNode_hash n.

Lemma P_chain_pool m node b :
  b ∈ P_find_three_chain m node -> exists k, px_node_pool m !! k = Some b.
Proof.
  unfold P_find_three_chain. intros Hb.
  repeat (case_match; [|by apply elem_of_nil in Hb];
          case_match; [|by apply elem_of_nil in Hb];
          apply elem_of_cons in Hb as [->|Hb]; [by eexists|]).
  by apply elem_of_nil in Hb.
Qed.

(** The state after [update_nodes] when nothing is committed: the certificate is taken
    and the lock is moved to the proposal itself. *)
Definition P_qc_step m node : PMachine :=
  match P_find_three_chain m node !! 0%nat, P_get_qc m (pn_justify node) with
  | Some b_3, Some qc => P_update_qc_high m b_3 qc
  | _, _ => m
  end.

Definition P_lock_step m node : PMachine :=
  match P_find_three_chain m node !! 1%nat with
  | Some b_2 =>
      if pn_height (px_b_locked m) <? pn_height b_2
      then px_set_b_locked node (P_qc_step m node) else P_qc_step m node
  | None => P_qc_step m node
  end.

Lemma P_update_nodes_unfold m node :
  P_update_nodes m node =
    if bool_decide (length (P_find_three_chain m node) = 3%nat) &&
       P_is_continues_three_chain (P_find_three_chain m node)
    then b ← unwrap (last (P_find_three_chain m node)); P_on_commit (P_lock_step m node) b
    else Ret (P_lock_step m node).
Proof.
  unfold P_update_nodes, P_lock_step, P_qc_step, P_get_locked_node, P_update_locked_node, P_get_qc.
  assert (Hqc : forall b, P_find_three_chain m node !! 0%nat = Some b ->
    is_Some (px_qc_map m !! pn_justify node)).
  { intros b. unfold P_find_three_chain. by destruct (px_qc_map m !! pn_justify node). }
  destruct (P_find_three_chain m node !! 0%nat) as [b|]; cbn [mbind outcome_bind]; [|done].
  destruct (Hqc b eq_refl) as [qc ->]. cbn [unwrap mbind outcome_bind]. done.
Qed.

(** What every step of a proposal leaves alone. *)
Definition same_votes m m' : Prop :=
  px_vheight m' = px_vheight m /\ px_leaf m' = px_leaf m /\ px_b_executed m' = px_b_executed m /\
  px_node_pool m' = px_node_pool m.

Lemma P_update_qc_high_same m n qc :
  same_votes m (P_update_qc_high m n qc) /\
  px_commit_height (P_update_qc_high m n qc) = px_commit_height m /\
  px_b_locked (P_update_qc_high m n qc) = px_b_locked m /\
  px_view (P_update_qc_high m n qc) = px_view m.
Proof. by destruct (P_update_qc_high_cases m n qc) as [->| ->]. Qed.

Lemma P_lock_step_same m node :
  same_votes m (P_lock_step m node) /\ px_commit_height (P_lock_step m node) = px_commit_height m /\
  px_view (P_lock_step m node) = px_view m.
Proof.
  assert (Hq : same_votes m (P_qc_step m node) /\
    px_commit_height (P_qc_step m node) = px_commit_height m /\
    px_view (P_qc_step m node) = px_view m).
  { unfold P_qc_step. destruct (_ !! 0%nat) as [b|]; [|done]. destruct (P_get_qc _ _) as [qc|]; [|done].
    by destruct (P_update_qc_high_same m b qc) as (? & ? & ? & ?). }
  unfold P_lock_step. destruct (_ !! 1%nat); [|done]. by destruct (_ <? _).
Qed.

Lemma P_update_nodes_same m node m' :
  P_update_nodes m node = Ret m' ->
  same_votes m m' /\ px_view m' = px_view m /\
  (px_commit_height m' = px_commit_height m \/
   exists k n, px_node_pool m !! k = Some n /\ self_parent n).
Proof.
  rewrite P_update_nodes_unfold. destruct (P_lock_step_same m node) as (Hs & Hc & Hv).
  destruct (bool_decide _ && _) eqn:Eb; intros H; inv_ret; [|subst; auto].
  apply andb_true_iff in Eb as [_ Ec]. apply P_on_commit_spec in H as [_ ->].
  assert (Hself : exists k n, px_node_pool m !! k = Some n /\ self_parent n).
  { destruct (P_find_three_chain m node) as [|b3 [|b2 [|b []]]] eqn:Ech; try done.
    apply andb_true_iff in Ec as [Ec _]. apply bool_decide_eq_true in Ec.
    destruct (P_chain_pool m node b3) as [k Hk]; [rewrite Ech; by left|]. by exists k, b3. }
  destruct (_ <? _); [|by split; [|split; [|right]]].
  split; [exact Hs|]. split; [exact Hv|]. by right.
Qed.
(** ** One message *)

(** The heights voted for, the proposals made, and the proposals that arrive. *)
Definition vote_heights out : list Z :=
  omap (fun o => match o with OutVote _ n _ => Some (pn_height n) | _ => None end) out.
Definition out_nodes out : list PTreeNode :=
  omap (fun o => match o with OutPropose _ n _ => Some n | _ => None end) out.
Definition msg_nodes (req : InternalMsg) : list PTreeNode :=
  match req with PRecvProposal _ n _ _ => [n] | _ => [] end.

Record msg_effect m (req : InternalMsg) m' out : Prop := {
  me_votes : (vote_heights out = [] /\ px_vheight m' = px_vheight m) \/
    exists h, vote_heights out = [h] /\ px_vheight m < h /\ px_vheight m' = h;
  me_view : px_view m <= px_view m';
  me_exec : px_b_executed m' = px_b_executed m;
  me_leaf : px_leaf m' = px_leaf m \/ exists cmd, req = PNewTx cmd;
  me_pool k n : px_node_pool m' !! k = Some n ->
    px_node_pool m !! k = Some n \/ n ∈ msg_nodes req ++ out_nodes out;
  me_commit : px_commit_height m' = px_commit_height m \/
    exists n, self_parent n /\ (n ∈ msg_nodes req \/ exists k, px_node_pool m !! k = Some n);
}.

(** Messages that leave all of this alone. *)
Lemma msg_effect_frame m req m' out :
  same_votes m m' -> px_commit_height m' = px_commit_height m -> px_view m <= px_view m' ->
  vote_heights out = [] -> msg_effect m req m' out.
Proof.
  intros (Hv & Hl & He & Hp) Hc Hw Ho. split; auto. intros k n. rewrite Hp. auto.
Qed.

Lemma P_on_recv_vote_effect m ctx prop sg m' :
  P_on_recv_vote m ctx prop sg = Ret m' ->
  same_votes m m' /\ px_commit_height m' = px_commit_height m /\ px_view m' = px_view m.
Proof.
  unfold P_on_recv_vote, P_add_vote. destruct (px_decided m); [by intros; inv_ret; subst|].
  destruct (negb _); [by intros; inv_ret; subst|].
  destruct (_ <? _); intros H; inv_ret; [|by subst]. subst m'.
  match goal with |- context [P_update_qc_high ?m1 prop ?qc] =>
    destruct (P_update_qc_high_same m1 prop qc) as (Hs & Hc & _ & Hv) end.
  split; [exact Hs|]. split; [exact Hc|exact Hv].
Qed.

Lemma P_on_beat_effect m cmd m' out :
  P_on_beat m [cmd] = Ret (m', out) -> msg_effect m (PNewTx cmd) m' out.
Proof.
  unfold P_on_beat, P_propose, send_unwrap. cbn [PTreeNode_node_and_hash].
  set (node := {| pn_cmds := [cmd] |}). intros H.
  destruct (listening _); cbn [mbind outcome_bind] in H; [|done].
  apply Ret_inv, pair_eq in H as [<- <-]. unfold P_update_leaf.
  split; try (destruct (_ <? _); auto; by left); [destruct (_ <? _); simpl; lia|eauto|].
  intros k n Hn. destruct (_ <? _); [|by left]. cbn in Hn.
  apply lookup_insert_Some in Hn as [[_ <-]|[_ Hn]]; [right; by left|by left].
Qed.

(** The machine after a proposal, before [update_nodes]: either it voted or it only took
    the certificate. *)
Lemma P_on_recv_proposal_cases m ctx prop qc ch m' out :
  P_on_recv_proposal m ctx prop qc ch = Ret (m', out) ->
  (m' = m /\ out = [] /\ px_leader_id m <> Some (pc_from ctx)) \/
  (px_leader_id m = Some (pc_from ctx) /\
   exists m1, P_update_nodes m1 prop = Ret m' /\
    ((out = [] /\ m1 = P_append_new_qc m qc) \/
     (exists c kit, out = [OutVote c prop kit] /\ px_vheight m < pn_height prop /\
        m1 = P_append_new_node (px_set_vheight (pn_height prop) (P_append_new_qc m qc)) prop))).
Proof.
  unfold P_on_recv_proposal, send_unwrap. case_bool_decide; [|intros; inv_ret; auto].
  intros H0. right. split; [done|]. apply bind_Ret_inv in H0 as ([m1 o1] & H1 & H0).
  apply bind_Ret_inv in H0 as (m2 & H2 & H0). apply Ret_inv, pair_eq in H0 as [<- <-].
  exists m1. split; [done|].
  destruct (P_find_node_by_qc _ _) as [prev|]; [|inv_ret; auto].
  apply bind_Ret_inv in H1 as (acc & Ha & H1). destruct acc; [|inv_ret; auto].
  destruct (Z.ltb_spec (px_vheight (P_append_new_qc m qc)) (pn_height prop)); [|done].
  destruct (listening ch); [|done]. cbn [mbind outcome_bind] in H1.
  apply Ret_inv, pair_eq in H1 as [<- <-]. right. eauto 10.
Qed.

Lemma P_on_recv_proposal_effect m ctx prop qc ch m' out :
  P_on_recv_proposal m ctx prop qc ch = Ret (m', out) ->
  msg_effect m (PRecvProposal ctx prop qc ch) m' out.
Proof.
  intros H. destruct (P_on_recv_proposal_cases _ _ _ _ _ _ _ H)
    as [(-> & -> & _)|(_ & m1 & H2 & Hcases)]; [by apply msg_effect_frame|].
  apply P_update_nodes_same in H2 as ((Hv & Hl & He & Hp) & Hw & Hc).
  destruct Hcases as [[-> ->]|(c & kit & -> & Hlt & ->)]; split; rewrite ?Hv, ?Hl, ?He, ?Hp, ?Hw;
    auto; try (simpl; lia); try (left; done).
  - destruct Hc as [Hc|(k & n & Hk & Hn)]; [by left|right]. exists n. eauto.
  - right. exists (pn_height prop). auto.
  - intros k n Hn. cbn in Hn. apply lookup_insert_Some in Hn as [[_ <-]|[_ Hn]]; [|by left].
    right. by left.
  - destruct Hc as [Hc|(k & n & Hk & Hn)]; [by left|right]. exists n. split; [done|].
    cbn in Hk. apply lookup_insert_Some in Hk as [[_ <-]|[_ Hk]]; [left; by left|eauto].
Qed.

Lemma P_process_effect m req m' out :
  P_process_internal_msg m req = Ret (m', out) -> msg_effect m req m' out.
Proof.
  destruct req; cbn [P_process_internal_msg]; intros H.
  - unfold send_unwrap in H. destruct (listening reply); [|done]. cbn [mbind outcome_bind] in H.
    apply Ret_inv, pair_eq in H as [<- <-]. by apply msg_effect_frame.
  - by apply P_on_recv_proposal_effect.
  - inv_ret. destruct (P_on_recv_vote_effect _ _ _ _ _ E) as (Hs & Hc & Hv).
    apply msg_effect_frame; [done|done|lia|done].
  - destruct (P_get_node _ _) as [q|]; inv_ret; [|by apply msg_effect_frame].
    destruct (P_update_qc_high_same m q qc_high) as (Hs & Hc & _ & Hv).
    apply msg_effect_frame; [done|done|lia|done].
  - destruct (Z.ltb_spec (px_view m) view); inv_ret; [|by apply msg_effect_frame].
    apply msg_effect_frame; [done|done|simpl; lia|by destruct (listening reply)].
  - inv_ret. by apply msg_effect_frame.
  - by apply P_on_beat_effect.
  - destruct (_ && _); inv_ret; by apply msg_effect_frame.
  - inv_ret. by apply msg_effect_frame.
Qed.
(** ** Runs *)

(** The messages the loop takes before [Down]. *)
Fixpoint before_down (reqs : list InternalMsg) : list InternalMsg :=
  match reqs with
  | [] | PDown :: _ => []
  | req :: rest => req :: before_down rest
  end.

(** The first message is [Down], or it is processed and the loop goes on. *)
Lemma P_run_cons req :
  req = PDown \/
  ((forall m reqs, P_run m (req :: reqs) =
      ('(m, out) ← P_process_internal_msg m req; '(m, out') ← P_run m reqs; Ret (m, out ++ out'))) /\
   forall reqs, before_down (req :: reqs) = req :: before_down reqs).
Proof. destruct req; auto. Qed.

(** A rule for properties of a run: [Q m out] relates the machine so far with its outputs. *)
Lemma P_run_ind (Q : PMachine -> list InternalMsg -> list POut -> Prop) m0 :
  Q m0 [] [] ->
  (forall m req reqs out m' out', Q m reqs out -> P_process_internal_msg m req = Ret (m', out') ->
     Q m' (reqs ++ [req]) (out ++ out')) ->
  forall reqs m' out, P_run m0 reqs = Ret (m', out) -> Q m' (before_down reqs) out.
Proof.
  intros Hinit Hstep.
  assert (Hgen : forall reqs m pre outs m' out, Q m pre outs -> P_run m reqs = Ret (m', out) ->
    Q m' (pre ++ before_down reqs) (outs ++ out)).
  { induction reqs as [|req reqs IH]; intros m pre outs m' out HQ H; [done|].
    destruct (P_run_cons req) as [->|[Hr Hb]].
    - cbn in H. apply Ret_inv, pair_eq in H as [<- <-]. cbn [before_down]. by rewrite !app_nil_r.
    - rewrite Hr in H. rewrite Hb.
      apply bind_Ret_inv in H as ([m1 o1] & H1 & H). apply bind_Ret_inv in H as ([m2 o2] & H2 & H).
      apply Ret_inv, pair_eq in H as [<- <-].
      replace (pre ++ req :: before_down reqs) with ((pre ++ [req]) ++ before_down reqs)
        by (by rewrite <-app_assoc). rewrite app_assoc. eapply IH; [|done]. by eapply Hstep. }
  intros reqs m' out H. exact (Hgen reqs m0 [] [] m' out Hinit H).
Qed.

Lemma vote_heights_app out out' : vote_heights (out ++ out') = vote_heights out ++ vote_heights out'.
Proof. apply omap_app. Qed.
Lemma out_nodes_app out out' : out_nodes (out ++ out') = out_nodes out ++ out_nodes out'.
Proof. apply omap_app. Qed.

(** C34. A replica of the prototype votes for strictly increasing heights: along any run
    the heights it votes for rise strictly from the vote height it started with to the one
    it ends with, so it never votes twice for one height; and its view never goes back. *)
Theorem P_votes_increase m reqs m' out :
  P_run m reqs = Ret (m', out) ->
  StronglySorted Z.lt (px_vheight m :: vote_heights out) /\
  last (px_vheight m :: vote_heights out) = Some (px_vheight m') /\
  px_view m <= px_view m'.
Proof.
  intros H.
  apply (P_run_ind (fun m1 _ o => StronglySorted Z.lt (px_vheight m :: vote_heights o) /\
    last (px_vheight m :: vote_heights o) = Some (px_vheight m1) /\ px_view m <= px_view m1)
    m) in H; [done|split; [by repeat constructor|]; split; [done|lia]|].
  clear. intros m1 req reqs o m2 o2 (Hs & Hl & Hv) H.
  apply P_process_effect in H as [Hvt Hview _ _ _ _]. rewrite vote_heights_app.
  destruct Hvt as [[-> ->]|(h & -> & Hlt & ->)]; [rewrite app_nil_r; split_and!; auto; lia|].
  split_and!; [| |lia].
  - rewrite app_comm_cons. apply StronglySorted_app_2; [|done|by repeat constructor].
    intros x y Hx ->%list_elem_of_singleton.
    cut (x <= px_vheight m1); [lia|]. revert Hl Hx. generalize (px_vheight m :: vote_heights o) Hs.
    intros l Hsl Hl Hx. apply last_Some in Hl as [l' ->].
    apply elem_of_app in Hx as [Hx|Hx%list_elem_of_singleton]; [|lia].
    apply Z.lt_le_incl. eapply StronglySorted_app_1_elem_of; [done|done|by left].
  - rewrite app_comm_cons. by rewrite last_snoc.
Qed.

(** C35. Nothing the prototype does commits a proposal, short of a proposal whose parent
    hash is its own hash (a fixed point of the digest): from its start and over any run,
    the last executed proposal stays the initial one, and the commit height stays zero
    unless a proposal that arrived, was made, or is the initial one is its own parent. *)
Theorem P_commit_needs_self_parent self_id sign_id pks sks ch peers reqs m' out :
  P_run (P_new self_id sign_id pks sks ch peers) reqs = Ret (m', out) ->
  px_b_executed m' = PTreeNode_genesis /\
  (px_commit_height m' = 0 \/
   exists n, self_parent n /\
     n ∈ PTreeNode_genesis :: concat (msg_nodes <$> before_down reqs) ++ out_nodes out).
Proof.
  set (seen := fun (rs : list InternalMsg) o =>
    PTreeNode_genesis :: concat (msg_nodes <$> rs) ++ out_nodes o).
  intros H.
  apply (P_run_ind (fun m1 rs o => px_b_executed m1 = PTreeNode_genesis /\
    (forall k n, px_node_pool m1 !! k = Some n -> n ∈ seen rs o) /\
    (px_commit_height m1 = 0 \/ exists n, self_parent n /\ n ∈ seen rs o))) in H;
    [by destruct H as (? & _ & ?)| |].
  { split; [done|]. split; [|by left]. intros k n Hk. simpl in Hk.
    apply lookup_singleton_Some in Hk as [_ <-]. by left. }
  clear. intros m1 req rs o m2 o2 (He & Hp & Hc) H.
  assert (Hmono : forall n, n ∈ seen rs o -> n ∈ seen (rs ++ [req]) (o ++ o2)).
  { intros n. unfold seen. rewrite fmap_app, concat_app, out_nodes_app, !elem_of_cons, !elem_of_app.
    tauto. }
  assert (Hnew : forall n, n ∈ msg_nodes req ++ out_nodes o2 -> n ∈ seen (rs ++ [req]) (o ++ o2)).
  { intros n. unfold seen. rewrite fmap_app, concat_app, out_nodes_app. cbn [fmap list_fmap concat].
    rewrite app_nil_r, !elem_of_cons, !elem_of_app. tauto. }
  apply P_process_effect in H as [_ _ He' _ Hp' Hc']. split; [congruence|]. split.
  - intros k n [Hk|Hn]%Hp'; [eauto|auto].
  - destruct Hc' as [->|(n & Hs & [Hn|[k Hk]])].
    + destruct Hc as [?|(n & ? & ?)]; eauto.
    + right. exists n. split; [done|]. apply Hnew, elem_of_app. by left.
    + right. exists n. eauto.
Qed.

(** Certificates never move the leaf of the prototype: a replica that makes no proposal
    itself keeps the leaf it started with, whatever votes, certificates and view changes
    arrive, although its qc_high moves. *)
Theorem P_leaf_only_moves_by_own_proposals m reqs m' out :
  P_run m reqs = Ret (m', out) -> (forall cmd, PNewTx cmd ∉ before_down reqs) ->
  px_leaf m' = px_leaf m.
Proof.
  intros H Hno.
  revert Hno. refine (P_run_ind (fun m1 rs _ => (forall cmd, PNewTx cmd ∉ rs) ->
    px_leaf m1 = px_leaf m) m _ _ reqs m' out H); [done|].
  clear. intros m1 req rs o m2 o2 IH H Hno.
  apply P_process_effect in H as [_ _ _ [->|[cmd ->]] _ _].
  - apply IH. intros cmd Hin. apply (Hno cmd), elem_of_app. by left.
  - exfalso. apply (Hno cmd), elem_of_app. right. by left.
Qed.

(** The lock of the prototype: when the certificates behind a proposal lead to a b_2
    higher than the lock, the lock becomes the proposal just received and not b_2;
    otherwise it stays. *)
Theorem P_locks_the_new_proposal m node m' :
  P_update_nodes m node = Ret m' ->
  px_b_locked m' =
    match P_find_three_chain m node !! 1%nat with
    | Some b_2 => if pn_height (px_b_locked m) <? pn_height b_2 then node else px_b_locked m
    | None => px_b_locked m
    end.
Proof.
  rewrite P_update_nodes_unfold. intros H.
  assert (Hl : px_b_locked m' = px_b_locked (P_lock_step m node)).
  { destruct (_ && _); inv_ret; [|by subst]. apply P_on_commit_spec in H as [_ ->].
    by destruct (_ <? _). }
  rewrite Hl. unfold P_lock_step.
  assert (Hq : px_b_locked (P_qc_step m node) = px_b_locked m).
  { unfold P_qc_step. destruct (_ !! 0%nat) as [b|]; [|done]. destruct (P_get_qc _ _) as [qc|]; [|done].
    by destruct (P_update_qc_high_same m b qc) as (_ & _ & ? & _). }
  destruct (_ !! 1%nat); [|done]. by destruct (_ <? _).
Qed.

(** The task runs until the first Down and not beyond; without one it does not return. *)
Theorem P_run_until_down m reqs :
  (PDown ∈ reqs -> P_run m reqs = P_run m (before_down reqs ++ [PDown])) /\
  (PDown ∉ reqs -> forall r, P_run m reqs <> Ret r).
Proof.
  revert m. induction reqs as [|req reqs IH]; intros m.
  { split; [by intros ?%elem_of_nil|done]. }
  destruct (P_run_cons req) as [->|[Hr Hb]].
  { split; [done|]. intros Hn. exfalso. apply Hn. by left. }
  split.
  - intros Hin. rewrite Hb. cbn [app]. rewrite !Hr.
    destruct (P_process_internal_msg m req) as [[m1 o1]| |]; [|done..]. cbn [mbind outcome_bind].
    assert (Hin' : PDown ∈ reqs).
    { apply elem_of_cons in Hin as [<-|Hin]; [|done]. by specialize (Hb []). }
    destruct (IH m1) as [IH' _]. by rewrite (IH' Hin').
  - intros Hn r. rewrite Hr.
    destruct (P_process_internal_msg m req) as [[m1 o1]| |]; [|done..]. cbn [mbind outcome_bind].
    destruct (P_run m1 reqs) as [[m2 o2]| |] eqn:E2; [|done..].
    exfalso. destruct (IH m1) as [_ IH']. apply (IH') in E2; [done|].
    intros Hin. apply Hn. by right.
Qed.
End ProtoSafety.
