(* ===== verification/ProtoServer.v ===== *)
(** * The tasks around the prototype's machine (hs-prototype/src/main.rs, pacemaker.rs)

    The timer and the pacemaker that change views, the HTTP handlers that hand messages
    to the machine and wait for its answer, the task per peer that posts proposals and
    turns answers into votes, and the proxy loop.  A task that has ended is a channel
    without a listener; HTTP itself is the list of answers a peer gives. *)

From stdpp Require Import pretty.
From S2P Require Import Prelude Walk Crypto HsData LivenessData Persistor ProtoData Proto.

Section ProtoServer.
Context `{TC : ThresholdCrypto} {C : Codec}.

(** ** Timer and pacemaker *)

Record DefaultPacemaker := mkDefaultPacemaker {
  dp_view : Z;
  dp_tick : Z;
  dp_deadline : Z;
  dp_to_sm : PSender;
  dp_to_net : PSender;
  dp_peer_conf : gmap string string;
  dp_leader : option ReplicaID;
}.

Definition DP_new (peer_conf : gmap string string) (to_sm to_net : PSender)
    (leader : option ReplicaID) : DefaultPacemaker :=
  {| dp_view := 1; dp_tick := 0; dp_deadline := Z.shiftl 1 10; dp_to_sm := to_sm;
     dp_to_net := to_net; dp_peer_conf := peer_conf; dp_leader := leader |}.

Definition DP_touch_deadline (p : DefaultPacemaker) : bool := dp_deadline p <=? dp_tick p.

(** The receiving end of the reply is dropped when the function returns. *)
Definition DP_view_change (p : DefaultPacemaker) : outcome InternalMsg :=
  leader ← unwrap (dp_leader p);
  send_unwrap (dp_to_sm p) (PViewChange leader (dp_view p) {| listening := false |}).

(** The body of the loop of [run] for one message of the timer. *)
Definition DP_on_tick (p : DefaultPacemaker) (new_tick deadline : Z) :
    outcome (DefaultPacemaker * list InternalMsg) :=
  let p := {| dp_view := dp_view p; dp_tick := Z.max new_tick (dp_tick p); dp_deadline := deadline;
              dp_to_sm := dp_to_sm p; dp_to_net := dp_to_net p; dp_peer_conf := dp_peer_conf p;
              dp_leader := dp_leader p |} in
  if DP_touch_deadline p then
    let p := {| dp_view := wrap64 (dp_view p + 1); dp_tick := dp_tick p;
                dp_deadline := dp_deadline p; dp_to_sm := dp_to_sm p; dp_to_net := dp_to_net p;
                dp_peer_conf := dp_peer_conf p; dp_leader := dp_leader p |} in
    msg ← DP_view_change p;
    Ret (p, [msg])
  else Ret (p, []).

(** What [run] sends, and how it ends: [down] is never set, and when the timer is gone
    the only branch of [select!] is disabled, which panics. *)
Fixpoint DP_run (p : DefaultPacemaker) (ticks : list (Z * Z)) : list InternalMsg * outcome unit :=
  match ticks with
  | [] => ([], Panic)
  | (new_tick, deadline) :: rest =>
      match DP_on_tick p new_tick deadline with
      | Ret (p, out) => let '(out', e) := DP_run p rest in (out ++ out', e)
      | Panic => ([], Panic)
      | Diverge => ([], Diverge)
      end
  end.

(** The loop of [default_timer]: the pairs it sends from [tick] on; [alive t] says whether
    the pacemaker still listens at tick [t].  One round per tick below [lifetime]. *)
Fixpoint timer_loop (rounds : nat) (lifetime step tick deadline : Z) (alive : Z -> bool) :
    list (Z * Z) :=
  match rounds with
  | O => []
  | S rounds =>
      if (lifetime <=? tick) || negb (alive tick) then []
      else
        let sent := (tick, deadline) in
        let tick := wrap64 (tick + 1) in
        let deadline := if deadline <? tick then wrap64 (deadline + step) else deadline in
        sent :: timer_loop rounds lifetime step tick deadline alive
  end.

Definition default_timer (lifetime step : Z) (alive : Z -> bool) : list (Z * Z) :=
  let tick := 0 in
  let deadline := wrap64 (tick + step) in
  timer_loop (Z.to_nat lifetime) lifetime step tick deadline alive.

(** ** HTTP handlers *)

Inductive HttpResponse (A : Type) :=
| HttpOk (body : A)
| HttpInternalServerError (body : A).

Arguments HttpOk {A}.
Arguments HttpInternalServerError {A}.

(** A message for the machine's task; [None] as the task: it is gone.  The answer is
    [None] when the message could not be sent; a task that panics answers nothing. *)
Definition deliver (sm : option PMachine) (msg : InternalMsg) :
    outcome (option PMachine * option (list POut)) :=
  match sm with
  | None => Ret (None, None)
  | Some m =>
      match P_process_internal_msg m msg with
      | Ret (m, out) => Ret (Some m, Some out)
      | Panic => Ret (None, Some [])
      | Diverge => Diverge
      end
  end.

Definition reply_ch : PSender := {| listening := true |}.

(** The first answer on a reply channel. *)
Definition recv_snapshot (out : list POut) : option (PContext * PSnapshot) :=
  head (omap (fun o => match o with OutSnapshot c s => Some (c, s) | _ => None end) out).
Definition recv_vote (out : list POut) : option (PContext * PTreeNode * PSignKit) :=
  head (omap (fun o => match o with OutVote c n k => Some (c, n, k) | _ => None end) out).

Definition Proxy_status (sm : option PMachine) (ctx : PContext) :
    outcome (option PMachine * HttpResponse RpcResponse) :=
  '(sm, answer) ← deliver sm (PRequestSnapshot reply_ch);
  match answer with
  | None => Ret (sm, HttpOk (RpcResponse_status ctx None))
  | Some out =>
      let resp := match recv_snapshot out with
                  | None => RpcResponse_status ctx None
                  | Some (ctx, ss) => RpcResponse_status ctx (Some ss)
                  end in
      Ret (sm, HttpOk resp)
  end.

Definition Proxy_recv_new_proposal (sm : option PMachine) (data : RpcRequest) :
    outcome (option PMachine * HttpResponse RpcResponse) :=
  let ctx := rq_ctx data in
  node ← unwrap (rq_prop data);
  justify ← unwrap (rq_qc data);
  '(sm, answer) ← deliver sm (PRecvProposal ctx node justify reply_ch);
  match answer with
  | None => Ret (sm, HttpInternalServerError (RpcResponse_internal_err ctx RpcNewProposal))
  | Some out =>
      Ret (sm, HttpOk (match recv_vote out with
                       | None => RpcResponse_reject ctx
                       | Some (ctx, node, sign) => RpcResponse_accept ctx node sign
                       end))
  end.

Definition Proxy_on_recv_new_view (sm : option PMachine) (data : RpcRequest) :
    outcome (option PMachine * HttpResponse RpcResponse) :=
  match rq_qc data, rq_prop data with
  | Some qc, Some node =>
      '(sm, _) ← deliver sm (PRecvNewViewMsg (rq_ctx data) node qc);
      Ret (sm, HttpOk (RpcResponse_ok (rq_ctx data) RpcNewView))
  | _, _ => Ret (sm, HttpOk (RpcResponse_invalid_usage (rq_ctx data) RpcNewView))
  end.

Definition Proxy_new_leader (sm : option PMachine) (data : RpcRequest) :
    outcome (option PMachine * HttpResponse RpcResponse) :=
  match rq_leader data with
  | Some leader =>
      '(sm, answer) ← deliver sm (PNewLeader (rq_ctx data) leader);
      _ ← unwrap answer;
      Ret (sm, HttpOk (RpcResponse_ok (rq_ctx data) RpcNewLeader))
  | None => Ret (sm, HttpOk (RpcResponse_invalid_usage (rq_ctx data) RpcNewLeader))
  end.

(** The proposals the machine makes leave through its other channel. *)
Definition Proxy_new_tx (sm : option PMachine) (data : NewTransaction) :
    outcome (option PMachine * list POut * HttpResponse string) :=
  '(sm, answer) ← deliver sm (PNewTx (nt_cmd data));
  Ret (sm, default [] answer,
       HttpOk (match answer with
               | None => "internal error"
               | Some _ => "ok, tx is queuing"
               end%string)).

(** ** Broadcasting *)

(** What a peer task sees: the answer to a post (without a body that parses, the task
    panics), a failed post, or the signal to stop. *)
Inductive BcEvent :=
| BcPosted (body : option RpcResponse)
| BcPostFailed
| BcDown.

(** The loop body: the value of [exit] and what is sent to the machine. *)
Definition broadcastor_step (resp_sender : PSender) (exit : bool) (ev : BcEvent) :
    outcome (bool * list InternalMsg) :=
  match ev with
  | BcPosted body =>
      rpc_resp ← unwrap body;
      match InternalMsg_from_rpc_response rpc_resp with
      | Some msg => msg ← send_unwrap resp_sender msg; Ret (exit, [msg])
      | None => Ret (exit, [])
      end
  | BcPostFailed => Ret (exit, [])
  | BcDown => let exit := false in Ret (exit, [])
  end.

(** The loop; the flag says whether it has been left with [break]. *)
Fixpoint broadcastor_run (resp_sender : PSender) (exit : bool) (evs : list BcEvent) :
    outcome (bool * list InternalMsg) :=
  match evs with
  | [] => Ret (false, [])
  | ev :: rest =>
      '(exit, out) ← broadcastor_step resp_sender exit ev;
      if (exit : bool) then Ret (true, out)
      else '(broke, out') ← broadcastor_run resp_sender exit rest; Ret (broke, out ++ out')
  end.

(** The proxy loop of [run_server] over the messages of the machine: the requests it fans
    out; [fan_out.send(..).unwrap()] needs a peer task. *)
Fixpoint proxy_loop (peers : gmap string string) (msgs : list InternalMsg) :
    outcome (list RpcRequest) :=
  match msgs with
  | [] => Panic
  | PPropose ctx node qc :: rest =>
      if bool_decide (peers = ∅) then Panic
      else
        reqs ← proxy_loop peers rest;
        Ret ({| rq_ctx := ctx; rq_msg_type := RpcNewProposal; rq_leader := None;
                rq_prop := Some node; rq_qc := Some qc |} :: reqs)
  | PDown :: _ => Ret []
  | _ :: rest => proxy_loop peers rest
  end.

(** ** Start-up ([main]) *)

(** [(0..n).map(|i| (format!(..), format!(..))).collect()]. *)
Definition main_peers (n : Z) : gmap string string :=
  map_collect ((fun i => ("node-" +:+ pretty i, "localhost:" +:+ pretty (8000 + i))%string)
                 <$> seqZ 0 n).

(** One machine and one pacemaker per peer; the addresses in the order the map gives
    them, each with the next key share. *)
Definition main_replicas (s : SecretKeySet) :
    outcome (list (PMachine * DefaultPacemaker)) :=
  let f := 1 in
  let n := 3 * f + 1 in
  let peer_config := main_peers n in
  '(_, pks, sk) ← P_threshold_sign_kit s n (2 * f);
  Ret (zip_with (fun kv sk_conf =>
         (P_new kv.1 (sk_conf.1 mod 2 ^ 32) pks sk_conf.2 reply_ch peer_config,
          DP_new peer_config reply_ch reply_ch (Some "node-0"%string)))
       (map_to_list peer_config) sk).
End ProtoServer.
Arguments HttpOk {A}.
Arguments HttpInternalServerError {A}.
