(* ===== verification/ProtoNet.v ===== *)
(** * The prototype's tasks together

    The timer drives the pacemaker and the pacemaker the machine; a vote that a machine
    casts reaches the leader through an HTTP answer unchanged; the task that posts to a
    peer cannot be stopped.  One round of the whole prototype is run at the end. *)

From S2P Require Import Prelude Walk Crypto HsData LivenessData Persistor ProtoData Proto.
From S2P Require Import ProtoSafety ProtoServer.

Section ProtoNet.
Context `{TC : ThresholdCrypto} {C : Codec}.

(** ** Timer, pacemaker, machine *)

Definition view_change_msg (leader : ReplicaID) (v : Z) : InternalMsg :=
  PViewChange leader v {| listening := false |}.

(** The pacemaker fed by the rest of the timer's life: [v] is its view and [step * v] the
    next deadline. *)
Lemma timer_loop_drives rounds lifetime step tick v leader p :
  0 < step -> lifetime + step < 2 ^ 64 ->
  rounds = Z.to_nat (lifetime - tick) -> 0 <= tick <= lifetime -> 1 <= v ->
  v = 1 \/ step * (v - 1) < tick -> tick <= step * v ->
  dp_view p = v -> dp_tick p <= tick -> dp_leader p = Some leader ->
  listening (dp_to_sm p) = true -> 0 < lifetime ->
  DP_run p (timer_loop rounds lifetime step tick (step * v) (fun _ => true)) =
    (view_change_msg leader <$> seqZ (v + 1) ((lifetime - 1) / step - (v - 1)), Panic).
Proof.
  intros Hstep Hmax. revert tick v p.
  induction rounds as [|rounds IH]; intros tick v p Hr Ht Hv Hlo Hhi Hpv Hpt Hl Hch Hlife.
  - assert (tick = lifetime) as -> by lia. cbn [timer_loop DP_run].
    replace ((lifetime - 1) / step - (v - 1)) with 0; [done|].
    enough ((lifetime - 1) / step = v - 1) by lia. symmetry.
    apply (Z.div_unique (lifetime - 1) step (v - 1) (lifetime - 1 - step * (v - 1))); [|lia].
    left. destruct Hlo as [->|Hlo]; lia.
  - cbn [timer_loop]. destruct (Z.leb_spec lifetime tick); [lia|]. cbn [orb negb].
    rewrite (wrap64_small (tick + 1)) by (unfold u64_ok; lia).
    cbn [DP_run]. unfold DP_on_tick, DP_touch_deadline. cbn [dp_deadline dp_tick dp_view dp_leader].
    rewrite (Z.max_l tick (dp_tick p)) by lia.
    destruct (Z.leb_spec (step * v) tick) as [Heq|Hlt].
    + assert (tick = step * v) as -> by lia.
      unfold DP_view_change, send_unwrap. cbn [dp_leader dp_to_sm dp_view].
      rewrite Hl. cbn [unwrap mbind outcome_bind]. rewrite Hch. cbn [mbind outcome_bind].
      rewrite Hpv, (wrap64_small (v + 1)) by (unfold u64_ok; nia).
      destruct (Z.ltb_spec (step * v) (step * v + 1)); [|lia].
      rewrite wrap64_small by (unfold u64_ok; nia).
      replace (step * v + step) with (step * (v + 1)) by lia.
      rewrite (IH (step * v + 1) (v + 1)); cbn [dp_view dp_tick dp_leader dp_to_sm]; try done; try lia.
      cbn [app]. f_equal.
      assert (Hq : v <= (lifetime - 1) / step) by (apply Z.div_le_lower_bound; lia).
      replace ((lifetime - 1) / step - (v - 1)) with (Z.succ ((lifetime - 1) / step - (v + 1 - 1))) by lia.
      rewrite (seqZ_cons (v + 1)) by lia. rewrite Z.pred_succ. cbn [fmap list_fmap].
      by rewrite <-Z.add_1_r.
    + destruct (Z.ltb_spec (step * v) (tick + 1)); [lia|].
      rewrite (IH (tick + 1) v); cbn [dp_view dp_tick dp_leader dp_to_sm]; try done; try lia.
Qed.

Lemma machine_view_changes leader k m :
  exists m', P_run m ((view_change_msg leader <$> seqZ (px_view m + 1) (Z.of_nat k)) ++ [PDown])
             = Ret (m', []) /\ px_view m' = px_view m + Z.of_nat k /\
    (k <> 0%nat -> px_leader_id m' = Some leader /\ px_voting_set m' = ∅ /\ px_decided m' = false).
Proof.
  revert m. induction k as [|k IH]; intros m.
  - exists m. split; [done|]. split; [lia|done].
  - rewrite Nat2Z.inj_succ, seqZ_cons by lia. rewrite Z.pred_succ. cbn [fmap list_fmap app P_run].
    set (m1 := P_reset (px_set_leader_id (Some leader) (px_set_view (px_view m + 1) m))).
    assert (H1 : P_process_internal_msg m (view_change_msg leader (px_view m + 1)) = Ret (m1, [])).
    { cbn [P_process_internal_msg view_change_msg].
      by destruct (Z.ltb_spec (px_view m) (px_view m + 1)); [|lia]. }
    destruct (IH m1) as (m' & Hrun & Hv & Hr). change (px_view m1) with (px_view m + 1) in Hrun, Hv.
    cbn [P_run view_change_msg] in H1 |- *. rewrite H1. cbn [mbind outcome_bind].
    change (list_fmap _ _ (view_change_msg leader) ?l) with (view_change_msg leader <$> l).
    rewrite <-Z.add_1_r. rewrite Hrun. cbn [mbind outcome_bind app].
    exists m'. split; [done|]. split; [lia|]. intros _.
    destruct k as [|k]; [|by apply Hr].
    cbn in Hrun. apply Ret_inv, pair_eq in Hrun as [<- _]. done.
Qed.

(** C37. Timer, pacemaker and machine of the prototype together: a timer with a positive
    lifetime and step (their sum below 2^64) makes the pacemaker announce the views 2, 3,
    ... one per step, (lifetime - 1) / step of them, before it stops with a panic because
    its timer is gone; and a fresh machine that receives them ends in exactly the last of
    these views. *)
Theorem timer_drives_views lifetime step peers to_net leader self_id sign_id pks sks ch peers' :
  0 < step -> 0 < lifetime -> lifetime + step < 2 ^ 64 ->
  let '(sent, e) := DP_run (DP_new peers reply_ch to_net (Some leader))
                      (default_timer lifetime step (fun _ => true)) in
  sent = view_change_msg leader <$> seqZ 2 ((lifetime - 1) / step) /\ e = Panic /\
  exists m', P_run (P_new self_id sign_id pks sks ch peers') (sent ++ [PDown]) = Ret (m', []) /\
    px_view m' = 1 + (lifetime - 1) / step.
Proof.
  intros Hs Hl Hmax. unfold default_timer. rewrite wrap64_small by (unfold u64_ok; lia).
  replace (0 + step) with (step * 1) by lia.
  rewrite (timer_loop_drives _ lifetime step 0 1 leader); try done; try (simpl; lia).
  rewrite Z.sub_0_r. split; [done|]. split; [done|].
  assert (0 <= (lifetime - 1) / step) by (apply Z.div_pos; lia).
  destruct (machine_view_changes leader (Z.to_nat ((lifetime - 1) / step))
    (P_new self_id sign_id pks sks ch peers')) as (m' & Hrun & Hv & _).
  rewrite Z2Nat.id in Hrun, Hv by done. exists m'. split; [exact Hrun|exact Hv].
Qed.

(** ** Votes over HTTP *)

(** The votes among the outputs of a machine, as the messages the leader should get. *)
Definition votes_as_msgs (out : list POut) : list InternalMsg :=
  omap (fun o => match o with OutVote c n k => Some (PRecvSign c n k) | _ => None end) out.

(** A vote of the prototype goes round unchanged: the handler of a proposal that its
    machine processes answers 200, and from that answer the peer task of the leader makes
    exactly the votes the machine cast (none when it cast none), with the context, the
    proposal and the signature share it cast them with. *)
Theorem vote_roundtrip m data node qc m' out :
  rq_prop data = Some node -> rq_qc data = Some qc ->
  P_process_internal_msg m (PRecvProposal (rq_ctx data) node qc reply_ch) = Ret (m', out) ->
  exists body, Proxy_recv_new_proposal (Some m) data = Ret (Some m', HttpOk body) /\
    broadcastor_step reply_ch false (BcPosted (Some body)) = Ret (false, votes_as_msgs out).
Proof.
  intros Hn Hq Hp. unfold Proxy_recv_new_proposal, deliver. rewrite Hn, Hq.
  cbn [unwrap mbind outcome_bind]. rewrite Hp. cbn [mbind outcome_bind]. eexists. split; [done|].
  destruct (P_on_recv_proposal_cases _ _ _ _ _ _ _ Hp)
    as [(_ & -> & _)|(_ & m1 & _ & [[-> _]|(c & kit & -> & _)])]; done.
Qed.

(** Every outcome of the handler: it panics exactly when the request lacks the proposal or
    the certificate, answers 500 when the machine's task is gone, and otherwise answers
    200 (or never, when the machine's walk never ends). *)
Theorem recv_new_proposal_outcomes sm data :
  (Proxy_recv_new_proposal sm data = Panic <-> rq_prop data = None \/ rq_qc data = None) /\
  (sm = None -> forall node qc, rq_prop data = Some node -> rq_qc data = Some qc ->
     Proxy_recv_new_proposal sm data =
       Ret (None, HttpInternalServerError (RpcResponse_internal_err (rq_ctx data) RpcNewProposal))).
Proof.
  unfold Proxy_recv_new_proposal.
  destruct (rq_prop data) as [node|], (rq_qc data) as [qc|]; cbn [unwrap mbind outcome_bind];
    try (split; [split; auto|intros; done]).
  split; [|intros -> ? ? _ _; done]. split; [|intros [|]; done]. unfold deliver.
  destruct sm as [m|]; [|done]. destruct (P_process_internal_msg _ _) as [[m' out]| |]; done.
Qed.

(** ** The task that posts to a peer *)

Definition is_down (ev : BcEvent) : bool := match ev with BcDown => true | _ => false end.

(** The signal to stop has no effect on the task that posts to a peer: it is never left,
    whatever happens, and it does what it would have done without the signals. *)
Theorem broadcastor_never_stops ch evs r :
  broadcastor_run ch false evs = Ret r ->
  r.1 = false /\
  broadcastor_run ch false (filter (fun ev => is_down ev = false) evs) = Ret r.
Proof.
  revert r. induction evs as [|ev evs IH]; intros r H; cbn [broadcastor_run] in H.
  - apply Ret_inv in H as <-. done.
  - apply bind_Ret_inv in H as ([ex o1] & H1 & H).
    assert (ex = false) as ->.
    { destruct ev; cbn in H1; inv_ret; try done. by destruct (InternalMsg_from_rpc_response _); inv_ret. }
    apply bind_Ret_inv in H as ([b o2] & H2 & H). apply Ret_inv in H as <-.
    destruct (IH _ H2) as [Hb H2']. split; [exact Hb|].
    destruct (is_down ev) eqn:Hd.
    + rewrite filter_cons_False by (by rewrite Hd). destruct ev; try done.
      cbn in H1. apply Ret_inv, pair_eq in H1 as [_ <-]. exact H2'.
    + rewrite filter_cons_True by done. cbn [broadcastor_run]. rewrite H1. cbn [mbind outcome_bind].
      by rewrite H2'.
Qed.
End ProtoNet.
