(* ===== verification/ProtoHttp.v ===== *)
(** * The HTTP server of the prototype (hs-prototype/src/main.rs)

    The proxy of a replica, the table of routes of [run_server] and what a request does
    when it is routed; the tasks of [broadcastor], one per peer, and the address they post
    to.  Matching a path is that of the framework: a request without a route or with a body
    that does not parse never reaches a handler. *)

From S2P Require Import Prelude Walk Crypto HsData LivenessData Persistor ProtoData Proto.
From S2P Require Import ProtoSafety ProtoServer ProtoNet.

Section ProtoHttp.
Context `{TC : ThresholdCrypto} {C : Codec}.

(** ** The proxy *)

Record HotStuffProxy := mkHotStuffProxy {
  hp_peer_conf : gmap string string;
  hp_self_id : string;
  hp_self_addr : string;
  hp_sender : PSender;
}.

(** The proxy and the sending end that the machine gets; both receiving ends are alive. *)
Definition Proxy_new (self_id self_addr : string) (peer_conf : gmap string string) :
    HotStuffProxy * PSender :=
  let nk_sender := reply_ch in
  let sender := reply_ch in
  ({| hp_self_id := self_id; hp_self_addr := self_addr; hp_peer_conf := peer_conf;
      hp_sender := nk_sender |}, sender).

(** What the handlers share. *)
Record SharedState := mkSharedState { sh_ctx : PContext; sh_sender : PSender }.

(** ** Routes *)

Inductive HttpMethod := GET | POST.

Inductive Endpoint := EpStatus | EpNewProposal | EpNewView | EpNewLeader | EpNewTx.

Definition proxy_scope : string := "/hotstuff".

Definition proxy_routes : list (string * HttpMethod * Endpoint) :=
  [("status", GET, EpStatus); ("new-proposal", POST, EpNewProposal); ("new-view", POST, EpNewView);
   ("new-leader", POST, EpNewLeader); ("new-tx", POST, EpNewTx)]%string.

#[local] Instance HttpMethod_eq_dec : EqDecision HttpMethod.
Proof. solve_decision. Defined.

Definition find_route (method : HttpMethod) (path : string) : option Endpoint :=
  head (omap (fun '(p, mt, ep) =>
    if decide (path = proxy_scope +:+ "/" +:+ p /\ method = mt)%string then Some ep else None) proxy_routes).

(** ** Requests *)

Inductive HttpBody := NoBody | RpcBody (r : RpcRequest) | TxBody (t : NewTransaction).

Inductive HttpAnswer :=
| AnswerRpc (r : HttpResponse RpcResponse)
| AnswerText (r : HttpResponse string).

(** The state that [run_server] builds for its handlers: the context says view 0 for ever. *)
Definition server_state (hp : HotStuffProxy) : SharedState :=
  {| sh_ctx := {| pc_from := hp_self_id hp; pc_view := 0 |}; sh_sender := hp_sender hp |}.

(** A routed request: the machine's task afterwards, what the machine sends to the proxy,
    and the answer; [None]: the framework answers by itself. *)
Definition run_server_request (hp : HotStuffProxy) (sm : option PMachine) (method : HttpMethod)
    (path : string) (body : HttpBody) :
    outcome (option PMachine * list POut * option HttpAnswer) :=
  match find_route method path, body with
  | Some EpStatus, _ =>
      '(sm, r) ← Proxy_status sm (sh_ctx (server_state hp)); Ret (sm, [], Some (AnswerRpc r))
  | Some EpNewProposal, RpcBody data =>
      '(sm, r) ← Proxy_recv_new_proposal sm data; Ret (sm, [], Some (AnswerRpc r))
  | Some EpNewView, RpcBody data =>
      '(sm, r) ← Proxy_on_recv_new_view sm data; Ret (sm, [], Some (AnswerRpc r))
  | Some EpNewLeader, RpcBody data =>
      '(sm, r) ← Proxy_new_leader sm data; Ret (sm, [], Some (AnswerRpc r))
  | Some EpNewTx, TxBody data =>
      '(sm, out, r) ← Proxy_new_tx sm data; Ret (sm, out, Some (AnswerText r))
  | _, _ => Ret (sm, [], None)
  end.

(** Requests one after the other. *)
Fixpoint run_server_requests (hp : HotStuffProxy) (sm : option PMachine)
    (reqs : list (HttpMethod * string * HttpBody)) : outcome (option PMachine * list (option HttpAnswer)) :=
  match reqs with
  | [] => Ret (sm, [])
  | (method, path, body) :: reqs =>
      '(sm, _, a) ← run_server_request hp sm method path body;
      '(sm, l) ← run_server_requests hp sm reqs;
      Ret (sm, a :: l)
  end.

(** ** Broadcasting *)

Definition post_path : string := "/hotstuff/new-proposal".
Definition peer_url (addr : string) : string := "http://" +:+ addr +:+ post_path.

(** One task per peer; [evs url] is what the task that posts to [url] sees. *)
Definition broadcastor (peer_conf : gmap string string) (resp_sender : PSender)
    (evs : string -> list BcEvent) : gmap string (outcome (bool * list InternalMsg)) :=
  (fun addr => broadcastor_run resp_sender false (evs (peer_url addr))) <$> peer_conf.

(** ** Theorems *)

(** The address a peer task posts to is the route of the handler of proposals, and no other
    method or path reaches that handler. *)
Theorem post_path_routed method path :
  find_route method path = Some EpNewProposal <-> method = POST /\ path = post_path.
Proof.
  split.
  - intros H. apply head_Some_elem_of, list_elem_of_omap in H as ([[p mt] ep] & Hin & He).
    case_decide as Hd; [|done]. destruct Hd as [-> ->]. injection He as ->.
    unfold proxy_routes in Hin. repeat (apply elem_of_cons in Hin as [Hin|Hin]; [by simplify_eq|]).
    by apply not_elem_of_nil in Hin.
  - intros [-> ->]. reflexivity.
Qed.

(** When the machine's task is gone every request still has a defined end: it stays gone,
    nothing is sent, and the answer is a status without snapshot, an internal error for a
    proposal, a plain text for a transaction; the route for a new leader panics on a request
    that names one, and the route for proposals on one without proposal or certificate. *)
Theorem dead_machine_answers hp method path body :
  match run_server_request hp None method path body with
  | Ret (sm, out, a) =>
      sm = None /\ out = [] /\
      (find_route method path = Some EpStatus ->
         a = Some (AnswerRpc (HttpOk (RpcResponse_status {| pc_from := hp_self_id hp; pc_view := 0 |} None)))) /\
      (forall data, find_route method path = Some EpNewProposal -> body = RpcBody data ->
         a = Some (AnswerRpc (HttpInternalServerError (RpcResponse_internal_err (rq_ctx data) RpcNewProposal)))) /\
      (forall data, find_route method path = Some EpNewTx -> body = TxBody data ->
         a = Some (AnswerText (HttpOk "internal error"%string)))
  | Panic =>
      exists data, body = RpcBody data /\
        ((find_route method path = Some EpNewLeader /\ is_Some (rq_leader data)) \/
         (find_route method path = Some EpNewProposal /\ (rq_prop data = None \/ rq_qc data = None)))
  | Diverge => False
  end.
Proof.
  unfold run_server_request.
  destruct (find_route method path) as [[]|], body; try by split_and!; intros; simplify_eq.
  - unfold Proxy_recv_new_proposal.
    destruct (rq_prop r) as [n|] eqn:En; cbn [unwrap mbind outcome_bind]; [|eauto 10].
    destruct (rq_qc r) as [q|] eqn:Eq; cbn [unwrap mbind outcome_bind]; [|eauto 10].
    by split_and!; intros; simplify_eq.
  - unfold Proxy_on_recv_new_view. destruct (rq_qc r), (rq_prop r); by split_and!; intros; simplify_eq.
  - unfold Proxy_new_leader. destruct (rq_leader r) eqn:El; cbn; [eauto 10|].
    by split_and!; intros; simplify_eq.
Qed.

(** Asking for the status changes nothing, and shows the machine's own snapshot. *)
Theorem status_is_pure hp m :
  run_server_request hp (Some m) GET (proxy_scope +:+ "/status") NoBody =
    Ret (Some m, [], Some (AnswerRpc (HttpOk (RpcResponse_status
           {| pc_from := px_self_id m; pc_view := px_view m |} (Some (P_snapshot m)))))).
Proof. reflexivity. Qed.
End ProtoHttp.
