(* ===== verification/ProtoRound.v ===== *)
(** * A round of the prototype reaches a certificate

    One transaction at the leader of a freshly started prototype: the proposal goes out
    through the proxy, every replica's HTTP handler answers it with a vote, the peer tasks
    hand the votes to the leader, and the leader forms a certificate that verifies.  For
    every threshold scheme that keeps its promises, any command and any set of voters. *)

From S2P Require Import Prelude Walk Crypto HsData LivenessData Persistor ProtoData Proto.
From S2P Require Import ProtoSafety ProtoServer ProtoNet.

Section ProtoRound.
Context `{TC : ThresholdCrypto} {Laws : ThresholdCryptoLaws} {C : Codec}
  (s : SecretKeySet) (peers : gmap string string) (cmd : string).

(** A replica as [main] starts it. *)
Definition fresh (id : string) (i : Z) : PMachine :=
  P_new id i (public_keys s) (secret_key_share s i) reply_ch peers.

(** The first proposal, and the machine of the leader once it has made it. *)
Definition first_node : PTreeNode :=
  {| pn_cmds := [cmd]; pn_height := 1; pn_parent := PTreeNode_hash PTreeNode_genesis;
     pn_justify := PQCHash_genesis |}.

Definition first_qc : PGenericQC := PGenericQC_genesis 0 PTreeNode_genesis.
Definition leader_ctx : PContext := {| pc_view := 1; pc_from := "node-0"%string |}.

Definition leader_after (i : Z) : PMachine := P_update_leaf (fresh "node-0" i) first_node.

Lemma leader_proposes i :
  P_process_internal_msg (fresh "node-0" i) (PNewTx cmd) =
    Ret (leader_after i, [OutPropose leader_ctx first_node first_qc]).
Proof. reflexivity. Qed.

(** The request the proxy fans out. *)
Definition first_request : RpcRequest :=
  {| rq_ctx := leader_ctx; rq_msg_type := RpcNewProposal; rq_leader := None;
     rq_prop := Some first_node; rq_qc := Some first_qc |}.

Lemma proxy_forwards :
  peers <> ∅ -> proxy_loop peers [PPropose leader_ctx first_node first_qc; PDown] = Ret [first_request].
Proof. intros H. cbn [proxy_loop]. by rewrite bool_decide_false. Qed.

(** ** The replicas *)

(** The vote of the replica [v.1] with the key share [v.2]. *)
Definition kit_of (v : string * Z) : string * PSignKit :=
  (v.1, {| pk_sign := sk_sign (secret_key_share s v.2) (PTreeNode_to_be_bytes first_node);
           pk_sign_id := v.2 |}).

Definition vote_of (id : string) (i : Z) : InternalMsg :=
  PRecvSign {| pc_view := 1; pc_from := id |} first_node (kit_of (id, i)).2.

Context (Hhash : PTreeNode_hash first_node <> PTreeNode_hash PTreeNode_genesis).

(** The first proposal does not conflict with the initial lock. *)
Lemma first_accepted m :
  px_node_pool m = {[PTreeNode_hash PTreeNode_genesis := PTreeNode_genesis]} ->
  px_b_locked m = PTreeNode_genesis ->
  P_safe_node m first_node PTreeNode_genesis = Ret true.
Proof.
  intros Hp Hl. unfold P_safe_node, P_is_conflicting. rewrite Hl, Hp, map_size_singleton.
  cbn [pn_height first_node PTreeNode_genesis Z.leb Z.compare walk].
  change (0 <? 1) with true. cbn [pn_parent first_node]. rewrite lookup_singleton_eq. reflexivity.
Qed.

(** While the initial proposal is all that its certificate leads to, [update_nodes] has
    nothing to do. *)
Lemma first_update m node :
  pn_justify node = PQCHash_genesis -> px_qc_map m = {[PQCHash_genesis := first_qc]} ->
  px_node_pool m !! PTreeNode_hash PTreeNode_genesis = Some PTreeNode_genesis ->
  px_b_locked m = PTreeNode_genesis -> px_qc_high m = first_qc ->
  exists m', P_update_nodes m node = Ret m'.
Proof.
  intros Hj Hq Hp Hl Hh.
  assert (Hc : P_find_three_chain m node = [PTreeNode_genesis; PTreeNode_genesis; PTreeNode_genesis]).
  { assert (H1 : px_qc_map m !! PQCHash_genesis = Some first_qc) by (rewrite Hq; apply lookup_singleton_eq).
    assert (H2 : px_node_pool m !! pq_node first_qc = Some PTreeNode_genesis) by exact Hp.
    unfold P_find_three_chain. rewrite Hj, H1, H2.
    change (pn_justify PTreeNode_genesis) with PQCHash_genesis. rewrite H1, H2.
    change (pn_justify PTreeNode_genesis) with PQCHash_genesis. by rewrite H1, H2. }
  assert (Hlock : px_b_locked (P_lock_step m node) = PTreeNode_genesis).
  { unfold P_lock_step. rewrite Hc. cbn [lookup list_lookup]. rewrite Hl.
    change (pn_height PTreeNode_genesis <? pn_height PTreeNode_genesis) with false. cbv iota.
    unfold P_qc_step. rewrite Hc. cbn [lookup list_lookup].
    destruct (P_get_qc m (pn_justify node)) as [q|]; [|done].
    destruct (P_update_qc_high_same m PTreeNode_genesis q) as (_ & _ & E & _). by rewrite E. }
  rewrite P_update_nodes_unfold, Hc. destruct (_ && _); [|by eexists].
  cbn [last unwrap mbind outcome_bind].
  destruct (P_on_commit_total (P_lock_step m node) PTreeNode_genesis [] PTreeNode_genesis) as [m' Hm];
    [|by exists m'].
  constructor. by rewrite Hlock.
Qed.

Lemma replica_votes id i :
  exists m', P_process_internal_msg (fresh id i) (PRecvProposal leader_ctx first_node first_qc reply_ch) =
    Ret (m', [OutVote {| pc_view := 1; pc_from := id |} first_node
                {| pk_sign := sk_sign (secret_key_share s i) (PTreeNode_to_be_bytes first_node);
                   pk_sign_id := i |}]).
Proof.
  cbn [P_process_internal_msg]. unfold P_on_recv_proposal.
  rewrite bool_decide_true by done.
  set (m0 := P_append_new_qc (fresh id i) first_qc).
  assert (Hq : px_qc_map m0 = {[PQCHash_genesis := first_qc]}) by apply insert_singleton_eq.
  assert (Hprev : P_find_node_by_qc m0 (pn_justify first_node) = Some PTreeNode_genesis).
  { unfold P_find_node_by_qc. rewrite Hq. cbn [pn_justify first_node]. rewrite lookup_singleton_eq.
    exact (lookup_singleton_eq (M := gmap PNodeHash) _ _). }
  rewrite Hprev. change (px_vheight m0 <? pn_height first_node) with true. cbv iota.
  rewrite (first_accepted m0) by done. cbn [mbind outcome_bind send_unwrap reply_ch listening].
  set (m1 := P_append_new_node _ _).
  assert (Hpool : px_node_pool m1 !! PTreeNode_hash PTreeNode_genesis = Some PTreeNode_genesis).
  { change (px_node_pool m1) with (<[PTreeNode_hash first_node:=first_node]>
      ({[PTreeNode_hash PTreeNode_genesis := PTreeNode_genesis]} : gmap PNodeHash PTreeNode)).
    rewrite lookup_insert_ne by done. apply lookup_singleton_eq. }
  destruct (first_update m1 first_node) as [m2 H2]; [done|exact Hq|done|done|done|].
  exists m2. rewrite H2. reflexivity.
Qed.

(** The handler answers with the vote, and the peer task makes the message of it. *)
Lemma vote_arrives id i :
  exists m' body, Proxy_recv_new_proposal (Some (fresh id i)) first_request = Ret (Some m', HttpOk body) /\
    broadcastor_step reply_ch false (BcPosted (Some body)) = Ret (false, [vote_of id i]).
Proof.
  destruct (replica_votes id i) as [m' Hm]. exists m'. unfold Proxy_recv_new_proposal, deliver.
  cbn [first_request rq_ctx rq_prop rq_qc unwrap mbind outcome_bind]. rewrite Hm.
  cbn [mbind outcome_bind]. eexists. split; [reflexivity|]. reflexivity.
Qed.

(** ** The leader *)

(** The leader that has counted the votes of [vs]. *)
Definition counting (i : Z) (vs : list (string * Z)) : PMachine :=
  px_set_voting_set (list_to_map (kit_of <$> vs)) (leader_after i).

Lemma kit_of_keys vs : (kit_of <$> vs).*1 = vs.*1.
Proof. rewrite <-list_fmap_compose. by apply list_fmap_ext. Qed.

Lemma counting_size i vs : NoDup vs.*1 -> P_vote_set_size (counting i vs) = Z.of_nat (length vs).
Proof.
  intros Hnd. unfold P_vote_set_size, map_len. cbn [counting px_voting_set px_set_voting_set].
  rewrite <-length_map_to_list, map_to_list_to_map by (by rewrite kit_of_keys). by rewrite length_fmap.
Qed.

(** Enough votes of different signers combine to a valid signature. *)
Lemma counting_combines i vs :
  NoDup vs.*1 -> NoDup vs.*2 -> pks_threshold (public_keys s) < Z.of_nat (length vs) ->
  exists c, P_combine_partial_sign (counting i vs) = Ret c /\
    pk_verify (public_keys s) c (PTreeNode_to_be_bytes first_node) = true.
Proof.
  intros Hk Hi Hth.
  assert (Hp : map_values (px_voting_set (counting i vs)) ≡ₚ (kit_of <$> vs).*2).
  { unfold map_values. cbn [counting px_voting_set px_set_voting_set].
    by rewrite map_to_list_to_map by (by rewrite kit_of_keys). }
  set (ids := pk_sign_id <$> map_values (px_voting_set (counting i vs))).
  assert (Hids : ids ≡ₚ vs.*2).
  { unfold ids. rewrite Hp, <-!list_fmap_compose. by apply reflexive_eq, list_fmap_ext. }
  destruct (combine_ok s (PTreeNode_to_be_bytes first_node) ids) as (c & Hc & Hv).
  - by rewrite Hids.
  - rewrite Hids, length_fmap. done.
  - exists c. split; [|done]. unfold P_combine_partial_sign.
    change (px_pks (counting i vs)) with (public_keys s).
    replace (_ <$> map_values (px_voting_set (counting i vs)))
      with ((fun i => (i, sk_sign (secret_key_share s i) (PTreeNode_to_be_bytes first_node))) <$> ids);
      [by rewrite Hc|].
    unfold ids. rewrite <-list_fmap_compose. apply list_fmap_ext. intros j kit Hj.
    apply list_elem_of_lookup_2 in Hj. rewrite Hp in Hj.
    apply list_elem_of_fmap in Hj as (x & -> & (v & -> & _)%list_elem_of_fmap). done.
Qed.

(** A certificate of the first proposal that verifies. *)
Definition certificate_of_first (qc : PGenericQC) : Prop :=
  exists c, qc = PGenericQC_new 1 (PTreeNode_hash first_node) c /\
    pk_verify (public_keys s) c (PTreeNode_to_be_bytes first_node) = true.

Lemma counting_takes_qc i vs qc :
  px_qc_high (P_update_qc_high (counting i vs) first_node qc) = qc.
Proof.
  unfold P_update_qc_high.
  assert (Hg : P_find_node_by_qc (counting i vs) (PGenericQC_hash (P_get_qc_high (counting i vs)))
               = Some PTreeNode_genesis).
  { unfold P_find_node_by_qc.
    change (px_qc_map (counting i vs)) with ({[PQCHash_genesis := first_qc]} : gmap PQCHash PGenericQC).
    change (PGenericQC_hash (P_get_qc_high (counting i vs))) with PQCHash_genesis.
    rewrite lookup_singleton_eq. cbn [mbind option_bind].
    change (px_node_pool (counting i vs)) with (<[PTreeNode_hash first_node:=first_node]>
      ({[PTreeNode_hash PTreeNode_genesis := PTreeNode_genesis]} : gmap PNodeHash PTreeNode)).
    change (pq_node first_qc) with (PTreeNode_hash PTreeNode_genesis).
    rewrite lookup_insert_ne by done. apply lookup_singleton_eq. }
  rewrite Hg. change (pn_height PTreeNode_genesis <? pn_height first_node) with true. cbv iota.
  unfold P_update_leaf. cbn [px_leaf_high px_set_leaf_high]. by rewrite Z.ltb_irrefl.
Qed.

(** A leader that has decided ignores further votes. *)
Lemma decided_ignores m vs :
  px_decided m = true -> P_run m ((uncurry vote_of <$> vs) ++ [PDown]) = Ret (m, []).
Proof.
  intros Hd. induction vs as [|[id i] vs IH]; [done|].
  cbn [fmap list_fmap app P_run uncurry vote_of P_process_internal_msg]. unfold P_on_recv_vote.
  rewrite Hd. cbn [mbind outcome_bind]. by rewrite IH.
Qed.

Context (Hpeers : map_len peers = 4) (Hth : pks_threshold (public_keys s) <= 2).

Lemma counting_add i acc id j :
  P_add_vote (counting i acc) {| pc_view := 1; pc_from := id |} (kit_of (id, j)).2 =
    (counting i ((id, j) :: acc), bool_decide ((list_to_map (kit_of <$> acc) : gmap string PSignKit) !! id = None)).
Proof. reflexivity. Qed.

Lemma counting_threshold i acc : P_threshold (counting i acc) = 2.
Proof.
  unfold P_threshold. change (px_peer_conf (counting i acc)) with peers. by rewrite Hpeers.
Qed.

Lemma counting_decided i acc : px_decided (counting i acc) = false.
Proof. reflexivity. Qed.

(** The branches of [on_recv_vote] for a fresh vote of an undecided leader. *)
Lemma recv_vote_counted m ctx prop kit m1 :
  px_decided m = false -> P_add_vote m ctx kit = (m1, true) ->
  (P_threshold m1 <? P_vote_set_size m1) = false -> P_on_recv_vote m ctx prop kit = Ret m1.
Proof. intros Hd Ha Ht. unfold P_on_recv_vote. by rewrite Hd, Ha, Ht. Qed.

Lemma recv_vote_decides m ctx prop kit m1 c :
  px_decided m = false -> P_add_vote m ctx kit = (m1, true) ->
  (P_threshold m1 <? P_vote_set_size m1) = true -> P_combine_partial_sign m1 = Ret c ->
  (forall qc, px_qc_high (P_update_qc_high m1 prop qc) = qc) ->
  exists m', P_on_recv_vote m ctx prop kit = Ret m' /\ px_decided m' = true /\
    px_qc_high m' = PGenericQC_new (px_view m1) (PTreeNode_hash prop) c /\
    px_qc_map m' !! PGenericQC_hash (px_qc_high m') = Some (px_qc_high m').
Proof.
  intros Hd Ha Ht Hc Hq. unfold P_on_recv_vote. rewrite Hd, Ha. cbn [negb]. rewrite Ht, Hc.
  cbn [mbind outcome_bind]. eexists. split; [reflexivity|].
  cbn [px_decided P_append_new_qc px_set_qc_map px_set_decided px_qc_high px_qc_map].
  rewrite Hq. split; [done|]. split; [done|]. apply lookup_insert_eq.
Qed.

(** One more vote: counted, or the one that completes the certificate. *)
Lemma counting_vote i acc id j :
  NoDup (id :: acc.*1) -> NoDup (j :: acc.*2) ->
  exists m', P_process_internal_msg (counting i acc) (vote_of id j) = Ret (m', []) /\
    if (length acc <? 2)%nat then m' = counting i ((id, j) :: acc)
    else px_decided m' = true /\ certificate_of_first (px_qc_high m') /\
         px_qc_map m' !! PGenericQC_hash (px_qc_high m') = Some (px_qc_high m').
Proof.
  intros Hk Hi. cbn [P_process_internal_msg vote_of].
  pose proof (counting_add i acc id j) as Ha. rewrite bool_decide_true in Ha.
  2:{ apply not_elem_of_list_to_map_1. rewrite kit_of_keys. by apply NoDup_cons in Hk as [? _]. }
  assert (Hs : P_vote_set_size (counting i ((id, j) :: acc)) = Z.of_nat (S (length acc)))
    by by apply counting_size.
  destruct (Nat.ltb_spec (length acc) 2).
  - rewrite (recv_vote_counted _ _ first_node _ _ (counting_decided i acc) Ha); [by eexists|].
    rewrite counting_threshold, Hs. apply Z.ltb_ge. lia.
  - destruct (counting_combines i ((id, j) :: acc)) as (c & Hc & Hv); [done|done|rewrite length_cons; lia|].
    destruct (recv_vote_decides _ _ first_node _ _ c (counting_decided i acc) Ha) as (m' & -> & Hd & Hq & Hm);
      [rewrite counting_threshold, Hs; apply Z.ltb_lt; lia|exact Hc|apply counting_takes_qc|].
    exists m'. split; [done|]. split; [exact Hd|]. split; [|exact Hm]. exists c. split; [exact Hq|exact Hv].
Qed.

Lemma leader_certifies i acc vs :
  NoDup (vs ++ acc).*1 -> NoDup (vs ++ acc).*2 -> (length acc <= 2)%nat -> (3 <= length (vs ++ acc))%nat ->
  exists m', P_run (counting i acc) ((uncurry vote_of <$> vs) ++ [PDown]) = Ret (m', []) /\
    px_decided m' = true /\ certificate_of_first (px_qc_high m') /\
    px_qc_map m' !! PGenericQC_hash (px_qc_high m') = Some (px_qc_high m').
Proof.
  revert acc. induction vs as [|[id j] vs IH]; intros acc Hk Hi Hle Hge; [simpl in Hge; lia|].
  assert (Hperm : (id, j) :: vs ++ acc ≡ₚ vs ++ (id, j) :: acc) by apply Permutation_middle.
  destruct (counting_vote i acc id j) as (m1 & H1 & Hm1).
  { rewrite fmap_app in Hk. exact (NoDup_head_app id vs.*1 acc.*1 Hk). }
  { rewrite fmap_app in Hi. exact (NoDup_head_app j vs.*2 acc.*2 Hi). }
  destruct (Nat.ltb_spec (length acc) 2).
  - subst m1. destruct (IH ((id, j) :: acc)) as (m' & Hrun & Hm); [by rewrite <-Hperm..|simpl; lia| |].
    { rewrite <-Hperm. done. }
    exists m'. split; [|done]. cbn [fmap list_fmap app P_run uncurry]. 
    unfold vote_of at 1. fold (vote_of id j). rewrite H1. cbn [mbind outcome_bind]. by rewrite Hrun.
  - exists m1. split; [|done]. cbn [fmap list_fmap app P_run uncurry].
    unfold vote_of at 1. fold (vote_of id j). rewrite H1. cbn [mbind outcome_bind].
    by rewrite decided_ignores by apply Hm1.
Qed.

(** C36. A round of the prototype reaches a certificate: the leader of four freshly
    started replicas that is given a command proposes it, the proxy makes one request of
    the proposal, the handler of every replica answers it with 200 and the peer task turns
    the answer into one message for the leader, and the leader that gets these messages
    from any three or more different replicas, in any order, ends with qc_high a
    certificate of its proposal that verifies and is stored under its hash. *)
Theorem prototype_round_certifies i vs :
  NoDup vs.*1 -> NoDup vs.*2 -> (3 <= length vs)%nat ->
  exists l1 node qc req msgs l2 c,
    P_process_internal_msg (fresh "node-0" i) (PNewTx cmd) =
      Ret (l1, [OutPropose leader_ctx node qc]) /\ pn_cmds node = [cmd] /\
    proxy_loop peers [PPropose leader_ctx node qc; PDown] = Ret [req] /\
    Forall2 (fun v msg => exists m' body,
      Proxy_recv_new_proposal (Some (fresh v.1 v.2)) req = Ret (Some m', HttpOk body) /\
      broadcastor_step reply_ch false (BcPosted (Some body)) = Ret (false, [msg])) vs msgs /\
    P_run l1 (msgs ++ [PDown]) = Ret (l2, []) /\ px_decided l2 = true /\
    px_qc_high l2 = PGenericQC_new 1 (PTreeNode_hash node) c /\
    px_qc_map l2 !! PGenericQC_hash (px_qc_high l2) = Some (px_qc_high l2) /\
    pk_verify (public_keys s) c (PTreeNode_to_be_bytes node) = true.
Proof.
  intros Hk Hi Hlen.
  destruct (leader_certifies i [] vs) as (l2 & Hrun & Hd & (c & Hq & Hv) & Hm);
    [by rewrite app_nil_r..|simpl; lia|by rewrite app_nil_r|].
  exists (leader_after i), first_node, first_qc, first_request, (uncurry vote_of <$> vs), l2, c.
  split; [apply leader_proposes|]. split; [done|]. split; [apply proxy_forwards|].
  { intros He. rewrite He in Hpeers. unfold map_len in Hpeers. by rewrite map_size_empty in Hpeers. }
  split; [|by split_and!].
  apply Forall2_fmap_r, Forall_Forall2_diag, Forall_forall. intros [id j] _. apply vote_arrives.
Qed.
End ProtoRound.
