(* ===== verification/Elector.v ===== *)
(** * Leader election (pacemaker/src/elector.rs, pacemaker/src/utils.rs)

    Every replica sorts the replica names, drops duplicates and indexes the result
    with a hash of the view.  The hasher is the crate [fnv], which is not part of
    the repository: [Fnv] holds the function the source calls and [FnvLaws] that a
    [u64] comes out. *)

From S2P Require Import Prelude HsData.

Class Fnv := {
  (** [FnvHasher::default()], [write_u64(view)], [finish()]. *)
  fnv_u64 : Z -> Z;
}.

Class FnvLaws `{F : Fnv} : Prop := {
  fnv_u64_range view : u64_ok (fnv_u64 view);
}.

Section Elector.
Context `{F : Fnv}.

(** [h.finish() as usize % total]: the remainder by zero panics. *)
Definition view_hash (view : ViewNumber) (total : Z) : outcome Z :=
  if total =? 0 then Panic else Ret (fnv_u64 view mod total).

Record RoundRobinLeaderElector := mkElector { round_mapper : list ReplicaID }.

Definition RoundRobinLeaderElector_default : RoundRobinLeaderElector := {| round_mapper := [] |}.

(** [Vec::dedup]: drops an element equal to the one kept before it. *)
Fixpoint dedup (l : list string) : list string :=
  match l with
  | [] => []
  | x :: rest =>
      match dedup rest with
      | [] => [x]
      | y :: rest' => if decide (x = y) then y :: rest' else x :: y :: rest'
      end
  end.

Definition RoundRobinLeaderElector_init (replicas : list ReplicaID) : RoundRobinLeaderElector :=
  {| round_mapper := dedup (merge_sort String.le replicas) |}.

Definition get_leader (e : RoundRobinLeaderElector) (view : ViewNumber) : outcome ReplicaID :=
  i ← view_hash view (Z.of_nat (length (round_mapper e)));
  unwrap (round_mapper e !! Z.to_nat i).

(** ** Theorems *)

Lemma dedup_elem l x : x ∈ dedup l <-> x ∈ l.
Proof.
  induction l as [|y l IH]; [done|]. cbn [dedup].
  rewrite (elem_of_cons l x y), <-IH. destruct (dedup l) as [|z l'].
  - rewrite list_elem_of_singleton, elem_of_nil. tauto.
  - case_decide as Hd; [subst|]; rewrite !elem_of_cons; tauto.
Qed.

Lemma dedup_head l : head (dedup l) = head l.
Proof.
  induction l as [|y l IH]; [done|]. cbn [dedup]. destruct (dedup l); [done|]. by case_decide; subst.
Qed.

Lemma dedup_sorted_NoDup l :
  StronglySorted String.le l -> StronglySorted String.le (dedup l) /\ NoDup (dedup l).
Proof.
  induction 1 as [|x l Hs [IHs IHn] Hx]; [split; constructor|].
  assert (Hx' : Forall (String.le x) (dedup l)).
  { apply Forall_forall. intros y Hy. apply (proj1 (Forall_forall _ _) Hx).
    by apply dedup_elem. }
  cbn [dedup]. destruct (dedup l) as [|y l'] eqn:E.
  - split; repeat constructor. by intros ?%elem_of_nil.
  - case_decide as Hd; [done|]. split; [by constructor|]. constructor; [|done].
    intros Hin. apply Hd. apply (anti_symm String.le); [by inversion Hx'|].
    apply elem_of_cons in Hin as [->|Hin]; [done|]. inversion IHs as [|? ? _ Hy]; subst.
    by apply (proj1 (Forall_forall _ _) Hy).
Qed.

Lemma round_mapper_elem l x : x ∈ round_mapper (RoundRobinLeaderElector_init l) <-> x ∈ l.
Proof. simpl. by rewrite dedup_elem, merge_sort_Permutation. Qed.

Lemma round_mapper_sorted l :
  StronglySorted String.le (round_mapper (RoundRobinLeaderElector_init l)) /\
  NoDup (round_mapper (RoundRobinLeaderElector_init l)).
Proof. apply dedup_sorted_NoDup, StronglySorted_merge_sort; apply _. Qed.

(** C26. Replicas that know the same set of replica names agree on the leader of every
    view, in whatever order and with whatever repetitions the names were given to them. *)
Theorem get_leader_agreement (l1 l2 : list ReplicaID) (view : ViewNumber) :
  (forall r, r ∈ l1 <-> r ∈ l2) ->
  get_leader (RoundRobinLeaderElector_init l1) view =
  get_leader (RoundRobinLeaderElector_init l2) view.
Proof.
  intros H. f_equal. unfold RoundRobinLeaderElector_init. f_equal.
  destruct (round_mapper_sorted l1) as [Hs1 Hn1], (round_mapper_sorted l2) as [Hs2 Hn2].
  apply (StronglySorted_unique String.le _ _ Hs1 Hs2).
  apply NoDup_Permutation; [done..|]. intros x. rewrite !round_mapper_elem. apply H.
Qed.

Lemma get_leader_total `{!FnvLaws} e view :
  round_mapper e <> [] ->
  exists r, get_leader e view = Ret r /\ r ∈ round_mapper e.
Proof.
  intros Hne. unfold get_leader, view_hash.
  destruct (Z.eqb_spec (Z.of_nat (length (round_mapper e))) 0) as [E|E].
  { destruct (round_mapper e); [done|simpl in E; lia]. }
  pose proof (fnv_u64_range view) as [Hr _].
  pose proof (Z.mod_pos_bound (fnv_u64 view) (Z.of_nat (length (round_mapper e)))) as Hb.
  destruct (lookup_lt_is_Some_2 (round_mapper e)
              (Z.to_nat (fnv_u64 view mod Z.of_nat (length (round_mapper e))))) as [r Hr']; [lia|].
  exists r. cbn. rewrite Hr'. split; [done|]. by eapply list_elem_of_lookup_2.
Qed.

(** The leader of a view is always one of the configured replicas; with no replica
    configured get_leader panics. *)
Theorem get_leader_spec `{!FnvLaws} (l : list ReplicaID) (view : ViewNumber) :
  match l with
  | [] => get_leader (RoundRobinLeaderElector_init l) view = Panic
  | _ :: _ => exists r, get_leader (RoundRobinLeaderElector_init l) view = Ret r /\ r ∈ l
  end.
Proof.
  destruct l as [|x l]; [done|].
  destruct (get_leader_total (RoundRobinLeaderElector_init (x :: l)) view) as (r & Hr & Hin).
  - intros E. assert (Hx : x ∈ round_mapper (RoundRobinLeaderElector_init (x :: l))).
    { apply round_mapper_elem. by left. }
    rewrite E in Hx. by apply elem_of_nil in Hx.
  - exists r. split; [done|]. by apply round_mapper_elem.
Qed.
End Elector.

(** FNV-1a on the eight little-endian bytes of the view, for the witnesses. *)
Definition fnv1a (view : Z) : Z :=
  fold_left (fun h b => wrap64 (Z.lxor h (Z_of_byte b) * 1099511628211))
    (rev (u64_to_be_bytes view)) 14695981039346656037.

Definition Fnv1a : Fnv := {| fnv_u64 := fnv1a |}.

Lemma Fnv1aLaws : @FnvLaws Fnv1a.
Proof.
  split. intros view. change (u64_ok (fnv1a view)). unfold fnv1a.
  assert (H0 : u64_ok 14695981039346656037) by (unfold u64_ok; lia).
  revert H0. generalize 14695981039346656037 (rev (u64_to_be_bytes view)).
  intros h l. revert h. induction l as [|b l IH]; intros h Hh; [done|]. apply IH, wrap64_ok.
Qed.
