(* ===== verification/Timer.v ===== *)
(** * The cancellable view timer (pacemaker/src/timer.rs)

    [start] spawns a task that waits for its delay or for the stop signal; the
    tasks run concurrently with the pacemaker, so they are steps of a transition
    system.  A duration is a number of milliseconds; the random number drawn by
    [timeout_by_delay] is an argument. *)

From S2P Require Import Prelude HsData.

Inductive TimeoutEvent :=
| ViewTimeout (view : ViewNumber).

#[export] Instance TimeoutEvent_eq_dec : EqDecision TimeoutEvent.
Proof. solve_decision. Defined.

(** Where a spawned task is: not polled yet, inside [select!], or past the delay
    branch and waiting for room in the channel. *)
Inductive task_phase := Spawned | Selecting | Sending.

#[export] Instance task_phase_eq_dec : EqDecision task_phase.
Proof. solve_decision. Defined.

(** [tk_stopped]: the stop signal was sent after the task subscribed to it. *)
Record TimerTask := mkTimerTask {
  tk_event : TimeoutEvent;
  tk_dur : Z;
  tk_phase : task_phase;
  tk_stopped : bool;
}.

(** [dt_tasks]: the tasks spawned; [dt_notifier]: the events in the channel;
    [dt_closed]: the receiver of the channel is gone; [dt_panicked]: the events of the tasks
    that ended with a panic, which nothing in the program looks at. *)
Record DefaultTimer := mkDefaultTimer {
  dt_max_timeout : Z;
  dt_rtt : Z;
  dt_tasks : list TimerTask;
  dt_notifier : list TimeoutEvent;
  dt_closed : bool;
  dt_panicked : list TimeoutEvent;
  dt_cnt : Z;
}.

Definition DefaultTimer_new (max_timeout rtt : Z) : DefaultTimer :=
  {| dt_max_timeout := max_timeout; dt_rtt := rtt; dt_tasks := []; dt_notifier := [];
     dt_closed := false; dt_panicked := []; dt_cnt := 0 |}.

(** [min(max_timeout, rtt.wrapping_shl(1) + rand % 5000)], with the addition of a
    release build. *)
Definition timeout_by_delay (t : DefaultTimer) (rand : Z) : Z :=
  Z.min (dt_max_timeout t) (wrap64 (wrap64 (Z.shiftl (dt_rtt t) 1) + rand mod 5000)).

Definition set_tasks (t : DefaultTimer) (l : list TimerTask) : DefaultTimer :=
  {| dt_max_timeout := dt_max_timeout t; dt_rtt := dt_rtt t; dt_tasks := l;
     dt_notifier := dt_notifier t; dt_closed := dt_closed t; dt_panicked := dt_panicked t;
     dt_cnt := dt_cnt t |}.

Definition timer_start (t : DefaultTimer) (dur : Z) (te : TimeoutEvent) : DefaultTimer :=
  set_tasks t (dt_tasks t ++
    [{| tk_event := te; tk_dur := dur; tk_phase := Spawned; tk_stopped := false |}]).

Definition stop_task (k : TimerTask) : TimerTask :=
  {| tk_event := tk_event k; tk_dur := tk_dur k; tk_phase := tk_phase k; tk_stopped := true |}.

Definition stop_view_timer (t : DefaultTimer) : DefaultTimer :=
  set_tasks t (stop_task <$> dt_tasks t).

Definition view_timeout (t : DefaultTimer) (this_view : ViewNumber) (dur : Z) : DefaultTimer :=
  timer_start (stop_view_timer t) dur (ViewTimeout this_view).

(** [impl Drop]: the tasks are told to stop. *)
Definition DefaultTimer_drop (t : DefaultTimer) : DefaultTimer := stop_view_timer t.

(** ** The tasks *)

Definition notifier_capacity : nat := 1.

Definition with_phase (k : TimerTask) (ph : task_phase) : TimerTask :=
  {| tk_event := tk_event k; tk_dur := tk_dur k; tk_phase := ph; tk_stopped := tk_stopped k |}.

Definition timer_upd (t : DefaultTimer) (l : list TimerTask) (chan : list TimeoutEvent)
    (d : Z) : DefaultTimer :=
  {| dt_max_timeout := dt_max_timeout t; dt_rtt := dt_rtt t; dt_tasks := l;
     dt_notifier := chan; dt_closed := dt_closed t; dt_panicked := dt_panicked t;
     dt_cnt := dt_cnt t + d |}.

(** The task of [te] panics: it is gone, and [fetch_sub] is not reached. *)
Definition timer_fail (t : DefaultTimer) (l : list TimerTask) (te : TimeoutEvent) : DefaultTimer :=
  {| dt_max_timeout := dt_max_timeout t; dt_rtt := dt_rtt t; dt_tasks := l;
     dt_notifier := dt_notifier t; dt_closed := dt_closed t; dt_panicked := dt_panicked t ++ [te];
     dt_cnt := dt_cnt t |}.

(** The receiver is dropped, with what the channel holds. *)
Definition close_notifier (t : DefaultTimer) : DefaultTimer :=
  {| dt_max_timeout := dt_max_timeout t; dt_rtt := dt_rtt t; dt_tasks := dt_tasks t;
     dt_notifier := []; dt_closed := true; dt_panicked := dt_panicked t; dt_cnt := dt_cnt t |}.

(** One step of one task: it is polled for the first time and counts itself; its
    delay ends; it sees the stop signal; it delivers its event; or the receiver is gone and
    the [unwrap] of the send panics.  [select!] may take the branch of the delay even when
    the stop signal is there too. *)
Inductive timer_step (t : DefaultTimer) : DefaultTimer -> Prop :=
| timer_poll l1 k l2 :
    dt_tasks t = l1 ++ k :: l2 -> tk_phase k = Spawned ->
    timer_step t (timer_upd t (l1 ++ with_phase k Selecting :: l2) (dt_notifier t) 1)
| timer_elapse l1 k l2 :
    dt_tasks t = l1 ++ k :: l2 -> tk_phase k = Selecting ->
    timer_step t (timer_upd t (l1 ++ with_phase k Sending :: l2) (dt_notifier t) 0)
| timer_cancel l1 k l2 :
    dt_tasks t = l1 ++ k :: l2 -> tk_phase k = Selecting -> tk_stopped k = true ->
    timer_step t (timer_upd t (l1 ++ l2) (dt_notifier t) (-1))
| timer_deliver l1 k l2 :
    dt_tasks t = l1 ++ k :: l2 -> tk_phase k = Sending -> dt_closed t = false ->
    (length (dt_notifier t) < notifier_capacity)%nat ->
    timer_step t (timer_upd t (l1 ++ l2) (dt_notifier t ++ [tk_event k]) (-1))
| timer_panic l1 k l2 :
    dt_tasks t = l1 ++ k :: l2 -> tk_phase k = Sending -> dt_closed t = true ->
    timer_step t (timer_fail t (l1 ++ l2) (tk_event k)).

(** Everything that happens to a timer: its tasks move, the pacemaker re-arms it, takes an
    event from the channel, drops the receiver, or drops the timer, whose tasks still have
    to end. *)
Inductive timer_reachable : DefaultTimer -> Prop :=
| reach_new max_timeout rtt : timer_reachable (DefaultTimer_new max_timeout rtt)
| reach_step t t' : timer_reachable t -> timer_step t t' -> timer_reachable t'
| reach_arm t view dur : timer_reachable t -> timer_reachable (view_timeout t view dur)
| reach_recv t te rest :
    timer_reachable t -> dt_notifier t = te :: rest ->
    timer_reachable (timer_upd t (dt_tasks t) rest 0)
| reach_drop t : timer_reachable t -> timer_reachable (DefaultTimer_drop t)
| reach_close t : timer_reachable t -> timer_reachable (close_notifier t).

(** ** Theorems *)

Definition counted (k : TimerTask) : bool :=
  match tk_phase k with Spawned => false | Selecting | Sending => true end.
Definition live (k : TimerTask) : bool := negb (tk_stopped k).

Definition count (f : TimerTask -> bool) (l : list TimerTask) : Z :=
  Z.of_nat (length (filter (fun k => f k = true) l)).

Lemma count_app f l1 l2 : count f (l1 ++ l2) = count f l1 + count f l2.
Proof. unfold count. rewrite filter_app, length_app. lia. Qed.

Lemma count_cons f k l : count f (k :: l) = (if f k then 1 else 0) + count f l.
Proof.
  unfold count. destruct (f k) eqn:E.
  - rewrite filter_cons_True by done. simpl. lia.
  - rewrite filter_cons_False by congruence. lia.
Qed.

Lemma count_nil f : count f [] = 0.
Proof. done. Qed.

Lemma count_nonneg f l : 0 <= count f l.
Proof. unfold count. lia. Qed.

Lemma count_stopped_live l : count live (stop_task <$> l) = 0.
Proof. induction l as [|k l IH]; [done|]. rewrite fmap_cons, count_cons, IH. done. Qed.

Lemma count_stopped_counted l : count counted (stop_task <$> l) = count counted l.
Proof. induction l as [|k l IH]; [done|]. by rewrite fmap_cons, !count_cons, IH. Qed.

Create Rewrite HintDb hs_count.
#[export] Hint Rewrite count_app count_cons count_nil count_stopped_live count_stopped_counted : hs_count.

(** The bounds of a delay; 24 to 29 seconds with the constants of the pacemaker. *)
Lemma timeout_by_delay_bounds (t : DefaultTimer) (rand : Z) :
  0 <= dt_max_timeout t -> 0 <= dt_rtt t -> 2 * dt_rtt t + 5000 <= 2 ^ 64 -> 0 <= rand ->
  Z.min (dt_max_timeout t) (2 * dt_rtt t) <= timeout_by_delay t rand <=
  Z.min (dt_max_timeout t) (2 * dt_rtt t + 4999).
Proof.
  intros Hm Hr Hb Hrand. unfold timeout_by_delay.
  rewrite Z.shiftl_mul_pow2 by lia. change (2 ^ 1) with 2.
  pose proof (Z.mod_pos_bound rand 5000).
  rewrite (wrap64_small (dt_rtt t * 2)) by (unfold u64_ok; lia).
  rewrite wrap64_small by (unfold u64_ok; lia). lia.
Qed.

(** What holds of a timer in every interleaving. *)
Record timer_ok (t : DefaultTimer) : Prop := {
  to_cnt : dt_cnt t = count counted (dt_tasks t) + Z.of_nat (length (dt_panicked t));
  to_live : count live (dt_tasks t) <= 1;
  to_room : (length (dt_notifier t) <= notifier_capacity)%nat;
  to_open : dt_closed t = false -> dt_panicked t = [];
  to_closed : dt_closed t = true -> dt_notifier t = [];
}.

Lemma timer_step_ok t t' : timer_step t t' -> timer_ok t -> timer_ok t'.
Proof.
  intros Hstep [Hc Hl Hn Hp Hd].
  destruct Hstep as [l1 k l2 E Hk|l1 k l2 E Hk|l1 k l2 E Hk Hs|l1 k l2 E Hk Ho Hlen|l1 k l2 E Hk Ho];
    split; cbn [dt_cnt dt_tasks dt_notifier dt_closed dt_panicked timer_upd timer_fail];
    rewrite E in Hc, Hl; autorewrite with hs_count in *;
    change (live (with_phase k ?ph)) with (live k);
    (assert (Hk' : counted k = match tk_phase k with Spawned => false | _ => true end) by done);
    rewrite Hk in Hk'; rewrite Hk' in Hc; cbn [counted with_phase tk_phase];
    rewrite ?length_app; cbn [length]; try done; try congruence; try lia; destruct (live k); lia.
Qed.

Lemma timer_reachable_ok (t : DefaultTimer) : timer_reachable t -> timer_ok t.
Proof.
  induction 1 as [mt rtt|t t' _ IH Hstep|t v d _ [Hc Hl Hn Hp Hd]|t te rest _ [Hc Hl Hn Hp Hd] Hrecv
                 |t _ [Hc Hl Hn Hp Hd]|t _ [Hc Hl Hn Hp Hd]].
  - split; simpl; rewrite ?count_nil; unfold notifier_capacity; (done || lia).
  - by eapply timer_step_ok.
  - split; simpl; autorewrite with hs_count; simpl; (done || lia).
  - rewrite Hrecv in Hn, Hd. simpl in Hn. split; simpl; [lia|done|lia|done|]. by intros ?%Hd.
  - split; simpl; autorewrite with hs_count; (done || lia).
  - split; simpl; (done || lia).
Qed.

Lemma closed_empty t : timer_reachable t -> dt_closed t = true -> dt_notifier t = [].
Proof. intros H. by destruct (timer_reachable_ok t H). Qed.

(** C27. In every interleaving of the timer tasks with the pacemaker, also after the
    receiver of the channel is gone: the counter is the number of running tasks plus the
    number of tasks that ended with a panic because they could not send, at most one task
    has not been told to stop, the channel never holds more than its capacity, and no task
    panics while the receiver is there. *)
Theorem timer_reachable_inv (t : DefaultTimer) :
  timer_reachable t ->
  dt_cnt t = count counted (dt_tasks t) + Z.of_nat (length (dt_panicked t)) /\
  count live (dt_tasks t) <= 1 /\
  (length (dt_notifier t) <= notifier_capacity)%nat /\
  (dt_closed t = false -> dt_panicked t = []).
Proof. intros H. by destruct (timer_reachable_ok t H). Qed.

(** The view the timer is armed for. *)
Definition timer_armed (t : DefaultTimer) (view : ViewNumber) : Prop :=
  exists k, k ∈ dt_tasks t /\ tk_event k = ViewTimeout view /\ tk_stopped k = false.

(** A dropped timer is not armed. *)
Lemma drop_disarms (t : DefaultTimer) (view : ViewNumber) : ~ timer_armed (DefaultTimer_drop t) view.
Proof. by intros (k & (k' & -> & _)%list_elem_of_fmap & _ & ?). Qed.

(** ** The life of one timeout *)

(** What can happen between two calls of [view_timeout] while the receiver is kept or has
    been dropped before: the tasks move, and the pacemaker receives the events listed. *)
Inductive timer_run (t : DefaultTimer) : list TimeoutEvent -> DefaultTimer -> Prop :=
| run_nil : timer_run t [] t
| run_step t1 t2 evs : timer_step t t1 -> timer_run t1 evs t2 -> timer_run t evs t2
| run_recv te rest evs t2 :
    dt_notifier t = te :: rest -> timer_run (timer_upd t (dt_tasks t) rest 0) evs t2 ->
    timer_run t (te :: evs) t2.

Lemma timer_run_trans t1 evs t2 evs' t3 :
  timer_run t1 evs t2 -> timer_run t2 evs' t3 -> timer_run t1 (evs ++ evs') t3.
Proof.
  induction 1; intros H'; [done|by eapply run_step; eauto|]. cbn. eapply run_recv; eauto.
Qed.

(** The timeout of [view] is waiting for its delay or in the channel. *)
Definition underway (t : DefaultTimer) (view : ViewNumber) : Prop :=
  timer_armed t view \/ ViewTimeout view ∈ dt_notifier t.

Lemma timer_step_closed t t' : timer_step t t' -> dt_closed t' = dt_closed t.
Proof. by intros []. Qed.

Lemma armed_step t t' view :
  timer_step t t' -> dt_closed t = false -> timer_armed t view -> underway t' view.
Proof.
  intros Hstep Hopen (x & Hx & Hev & Hlive).
  assert (Hkeep : forall l1 k l2, dt_tasks t = l1 ++ k :: l2 -> x = k \/ x ∈ l1 ++ l2).
  { intros l1 k l2 E. rewrite E, elem_of_app, elem_of_cons in Hx. rewrite elem_of_app. tauto. }
  assert (Hmid : forall l1 (k k' : TimerTask) l2, dt_tasks t = l1 ++ k :: l2 ->
    tk_event k' = tk_event k -> tk_stopped k' = tk_stopped k ->
    exists y, y ∈ l1 ++ k' :: l2 /\ tk_event y = ViewTimeout view /\ tk_stopped y = false).
  { intros l1 k k' l2 E He Hs. destruct (Hkeep _ _ _ E) as [->|Hin].
    - exists k'. rewrite elem_of_app, elem_of_cons. split_and!; [auto|congruence|congruence].
    - exists x. rewrite elem_of_app, elem_of_cons in *. tauto. }
  destruct Hstep as [l1 k l2 E Hk|l1 k l2 E Hk|l1 k l2 E Hk Hs|l1 k l2 E Hk _ Hlen|l1 k l2 E Hk Hc].
  - left. by apply (Hmid l1 k _ l2).
  - left. by apply (Hmid l1 k _ l2).
  - destruct (Hkeep _ _ _ E) as [->|Hin]; [congruence|]. left. by exists x.
  - destruct (Hkeep _ _ _ E) as [->|Hin]; [right|left; by exists x].
    simpl. rewrite Hev, elem_of_app, list_elem_of_singleton. auto.
  - congruence.
Qed.

Lemma notifier_step t t' te : timer_step t t' -> te ∈ dt_notifier t -> te ∈ dt_notifier t'.
Proof. intros [] Hin; simpl; rewrite ?elem_of_app; auto. Qed.

Lemma timer_run_closed t evs t' : timer_run t evs t' -> dt_closed t' = dt_closed t.
Proof.
  induction 1 as [t|t t1 t2 evs Hs Hr IH|t te rest evs t2 Hn Hr IH]; [done| |exact IH].
  by rewrite IH, (timer_step_closed _ _ Hs).
Qed.

(** A timeout under way is received or still under way. *)
Lemma run_underway t evs t' view :
  timer_run t evs t' -> dt_closed t = false -> underway t view ->
  ViewTimeout view ∈ evs \/ underway t' view.
Proof.
  induction 1 as [t|t t1 t2 evs Hs Hr IH|t te rest evs t2 Hn Hr IH]; intros Hc Hu; [by auto|..].
  - apply IH; [by rewrite (timer_step_closed _ _ Hs)|].
    destruct Hu as [Hu|Hu]; [by eapply armed_step|right; by eapply notifier_step].
  - rewrite elem_of_cons. assert (Hu' : ViewTimeout view = te \/ underway (timer_upd t (dt_tasks t) rest 0) view).
    { destruct Hu as [Hu|Hu]; [by right; left|]. rewrite Hn in Hu.
      apply elem_of_cons in Hu as [?|Hu]; [by left|by right; right]. }
    destruct Hu' as [?|Hu']; [auto|]. destruct (IH Hc Hu'); auto.
Qed.

(** Whatever is in the channel can be received. *)
Lemma run_drains t : timer_run t (dt_notifier t) (timer_upd t (dt_tasks t) [] 0).
Proof.
  remember (dt_notifier t) as l eqn:E. revert t E. induction l as [|te l IH]; intros t E.
  - replace (timer_upd t (dt_tasks t) [] 0) with t; [constructor|].
    destruct t; unfold timer_upd; simpl in *; subst. f_equal. lia.
  - eapply run_recv; [by symmetry|]. specialize (IH (timer_upd t (dt_tasks t) l 0) eq_refl).
    revert IH. unfold timer_upd. simpl. by rewrite !Z.add_0_r.
Qed.

(** A task can go on until it sends. *)
Lemma run_to_sending t l1 k l2 :
  dt_tasks t = l1 ++ k :: l2 ->
  exists t', timer_run t [] t' /\ dt_tasks t' = l1 ++ with_phase k Sending :: l2 /\ dt_closed t' = dt_closed t.
Proof.
  intros E. destruct (tk_phase k) eqn:Hk.
  - eexists. split.
    + eapply run_step; [by apply timer_poll|].
      eapply run_step; [by apply (timer_elapse _ l1 (with_phase k Selecting) l2)|]. constructor.
    + done.
  - eexists. split; [eapply run_step; [by apply timer_elapse|constructor]|]. done.
  - exists t. split; [constructor|]. split; [|done]. rewrite E. destruct k; simpl in *; by subst.
Qed.

Lemma run_delivers t view :
  dt_closed t = false -> underway t view -> exists evs t', timer_run t evs t' /\ ViewTimeout view ∈ evs.
Proof.
  intros Hc [(k & (l1 & l2 & E)%list_elem_of_split & Hev & _)|Hin];
    [|eexists _, _; split; [apply run_drains|done]].
  destruct (run_to_sending t l1 k l2 E) as (t1 & Hr1 & E1 & Hc1).
  pose proof (run_drains t1) as Hr2. set (t2 := timer_upd t1 (dt_tasks t1) [] 0) in Hr2.
  assert (Hs : timer_step t2 (timer_upd t2 (l1 ++ l2) [ViewTimeout view] (-1))).
  { rewrite <-Hev. apply (timer_deliver t2 l1 (with_phase k Sending) l2); [exact E1|done| |].
    - change (dt_closed t1 = false). congruence.
    - simpl. unfold notifier_capacity. lia. }
  eexists _, _. split.
  - eapply timer_run_trans; [exact Hr1|]. eapply timer_run_trans; [exact Hr2|].
    eapply run_step; [exact Hs|]. apply run_drains.
  - rewrite !elem_of_app. right; right. by left.
Qed.

(** With the receiver gone nothing is delivered any more. *)
Lemma run_closed_silent t evs t' :
  timer_run t evs t' -> dt_closed t = true -> dt_notifier t = [] -> evs = [] /\ dt_notifier t' = [].
Proof.
  induction 1 as [t|t t1 t2 evs Hs Hr IH|t te rest evs t2 Hn Hr IH]; intros Hc He; [done| |congruence].
  apply IH; [by rewrite (timer_step_closed _ _ Hs)|].
  destruct Hs; simpl; congruence.
Qed.

(** C28. The life of one timeout: after view_timeout and any steps of the tasks and
    receptions by the pacemaker, the timeout event of that view has been received, is in
    the channel, or its task still runs and is not stopped, and there is a continuation in
    which the pacemaker receives it. If the receiver was gone before, no event ever
    arrives. *)
Theorem timeout_reaches_pacemaker (t0 t : DefaultTimer) (view : ViewNumber) (dur : Z) evs :
  timer_reachable t0 -> timer_run (view_timeout t0 view dur) evs t ->
  if dt_closed t0 then evs = [] /\ dt_notifier t = []
  else
    (ViewTimeout view ∈ evs \/ timer_armed t view \/ ViewTimeout view ∈ dt_notifier t) /\
    exists evs' t', timer_run t evs' t' /\ ViewTimeout view ∈ evs ++ evs'.
Proof.
  intros Hreach Hrun. destruct (dt_closed t0) eqn:Hc.
  - apply (run_closed_silent _ _ _ Hrun); [done|]. exact (closed_empty t0 Hreach Hc).
  - assert (Hu : underway (view_timeout t0 view dur) view).
    { left. eexists. split; [apply elem_of_app; right; by left|done]. }
    pose proof (run_underway _ _ _ _ Hrun Hc Hu) as Hv. split; [exact Hv|].
    destruct Hv as [Hv|Hv].
    + exists [], t. split; [constructor|]. by rewrite app_nil_r.
    + destruct (run_delivers t view) as (evs' & t' & Hr & Hin);
        [by rewrite (timer_run_closed _ _ _ Hrun)|done|].
      exists evs', t'. split; [done|]. apply elem_of_app. by right.
Qed.
