(* ===== verification/Pacemaker.v ===== *)
(** * The pacemaker (pacemaker/src/pacemaker.rs)

    [Pacemaker<S>] drives a machine: it keeps the view, orders pending proposals,
    answers synchronisation requests and turns what the machine has ready into
    messages.  Each method is one definition.  Every [io::Result] the methods build
    is [Ok(())], so a method returns the new pacemaker in the outcome monad.

    [net_adaptor.event_sender.send_timeout] either hands the event to the network
    or drops it after the timeout; the pacemaker does not look at which.  The field
    [pm_sent] lists the events offered, in order. *)

From S2P Require Import Prelude Crypto HsData CryptoKit Voter SafetyStorage Machine.
From S2P Require Import LivenessData Elector Timer.

(** The process environment: the random numbers drawn so far and next, and the two
    cells [FLUSH_INTERVAL] and [DUR_REPLICA_WAIT], [None] when not initialised. *)
Class PacemakerEnv := {
  rand_u64 : nat -> Z;
  FLUSH_INTERVAL : option Z;
  DUR_REPLICA_WAIT : option Z;
}.

Definition SYNC_SYNCHRONIZING : Z := 0.
Definition SYNC_IDLE : Z := 1.
Definition BATCH_SIZE : Z := 8.

Section PacemakerDefs.
Context `{TC : ThresholdCrypto} {St : Type} `{!SafetyStorage St, !LivenessStorage St}.
Context {F : Fnv} {Env : PacemakerEnv}.

(** ** Pending proposals *)

Record SafetyEventWrapper := mkSafetyEventWrapper { sw_se : SafetyEvent; sw_view : Z }.

(** [view: -1 * view as i64]. *)
Definition SafetyEventWrapper_from (view : ViewNumber) (se : SafetyEvent) : SafetyEventWrapper :=
  {| sw_se := se; sw_view := as_i64 (-1 * as_i64 view) |}.

(** [-sw.view as ViewNumber]. *)
Definition sw_justify_view (sw : SafetyEventWrapper) : ViewNumber := wrap64 (as_i64 (- sw_view sw)).

(** [BinaryHeap::pop]: an element with the greatest [view]; which one of several
    is not specified by the library, here the one pushed last. *)
Fixpoint heap_pop (l : list SafetyEventWrapper) :
    option (SafetyEventWrapper * list SafetyEventWrapper) :=
  match l with
  | [] => None
  | x :: rest =>
      match heap_pop rest with
      | None => Some (x, [])
      | Some (y, rest') => if sw_view x <? sw_view y then Some (y, x :: rest') else Some (x, rest)
      end
  end.

Definition heap_push (sw : SafetyEventWrapper) (l : list SafetyEventWrapper) :
    list SafetyEventWrapper := sw :: l.

(** ** State *)

Record Pacemaker := mkPacemaker {
  pm_view : ViewNumber;
  pm_id : ReplicaID;
  pm_elector : RoundRobinLeaderElector;
  pm_signaturer : DefaultSignaturer;
  pm_machine : Machine St;
  pm_ready_queue : list Ready;
  pm_pending_prop : list SafetyEventWrapper;
  pm_sync_state : Z;
  pm_sent : list PeerEvent;
  pm_timer : DefaultTimer;
  pm_rng : nat;
}.

Definition Pacemaker_new (id : ReplicaID) (elector : RoundRobinLeaderElector)
    (machine : Machine St) (signaturer : DefaultSignaturer) : Pacemaker :=
  let max_view_timeout := 30000 in
  let rtt := 12000 in
  {| pm_view := 0; pm_id := id; pm_elector := elector; pm_signaturer := signaturer;
     pm_machine := machine; pm_ready_queue := []; pm_pending_prop := [];
     pm_sync_state := SYNC_IDLE; pm_sent := [];
     pm_timer := DefaultTimer_new max_view_timeout rtt; pm_rng := 0 |}.

Definition pm_set_view (v : ViewNumber) (p : Pacemaker) : Pacemaker :=
  mkPacemaker v (pm_id p) (pm_elector p) (pm_signaturer p) (pm_machine p) (pm_ready_queue p)
    (pm_pending_prop p) (pm_sync_state p) (pm_sent p) (pm_timer p) (pm_rng p).
Definition pm_set_machine (m : Machine St) (p : Pacemaker) : Pacemaker :=
  mkPacemaker (pm_view p) (pm_id p) (pm_elector p) (pm_signaturer p) m (pm_ready_queue p)
    (pm_pending_prop p) (pm_sync_state p) (pm_sent p) (pm_timer p) (pm_rng p).
Definition pm_set_ready (q : list Ready) (p : Pacemaker) : Pacemaker :=
  mkPacemaker (pm_view p) (pm_id p) (pm_elector p) (pm_signaturer p) (pm_machine p) q
    (pm_pending_prop p) (pm_sync_state p) (pm_sent p) (pm_timer p) (pm_rng p).
Definition pm_set_pending (h : list SafetyEventWrapper) (p : Pacemaker) : Pacemaker :=
  mkPacemaker (pm_view p) (pm_id p) (pm_elector p) (pm_signaturer p) (pm_machine p)
    (pm_ready_queue p) h (pm_sync_state p) (pm_sent p) (pm_timer p) (pm_rng p).
Definition pm_set_sync (b : Z) (p : Pacemaker) : Pacemaker :=
  mkPacemaker (pm_view p) (pm_id p) (pm_elector p) (pm_signaturer p) (pm_machine p)
    (pm_ready_queue p) (pm_pending_prop p) b (pm_sent p) (pm_timer p) (pm_rng p).
Definition pm_set_sent (l : list PeerEvent) (r : nat) (p : Pacemaker) : Pacemaker :=
  mkPacemaker (pm_view p) (pm_id p) (pm_elector p) (pm_signaturer p) (pm_machine p)
    (pm_ready_queue p) (pm_pending_prop p) (pm_sync_state p) l (pm_timer p) r.
Definition pm_set_timer (t : DefaultTimer) (r : nat) (p : Pacemaker) : Pacemaker :=
  mkPacemaker (pm_view p) (pm_id p) (pm_elector p) (pm_signaturer p) (pm_machine p)
    (pm_ready_queue p) (pm_pending_prop p) (pm_sync_state p) (pm_sent p) t r.

(** [self.machine.storage()], borrowed mutably: the store, and an assignment to it. *)
Definition liveness_storage (p : Pacemaker) : St := m_storage (pm_machine p).
Definition pm_set_storage (s : St) (p : Pacemaker) : Pacemaker :=
  pm_set_machine (set_storage (pm_machine p) s) p.

(** [sync_state.compare_exchange(old, new).is_ok()]. *)
Definition sync_cas (old new : Z) (p : Pacemaker) : Pacemaker * bool :=
  if pm_sync_state p =? old then (pm_set_sync new p, true) else (p, false).

(** ** Methods *)

(** Draws the send timeout and offers the event. *)
Definition emit_peer_event (p : Pacemaker) (pe : PeerEvent) : Pacemaker :=
  pm_set_sent (pm_sent p ++ [pe]) (S (pm_rng p)) p.

Definition emit_safety_event (p : Pacemaker) (se : SafetyEvent) : outcome Pacemaker :=
  '(m, r) ← Machine_process_safety_event (pm_machine p) se;
  let p := pm_set_machine m p in
  match r with
  | Ok Nil => Ret p
  | Ok ready => Ret (pm_set_ready (pm_ready_queue p ++ [ready]) p)
  | Err _ => Ret p
  end.

Definition check_pending_prop (p : Pacemaker) (leaf_height : ViewNumber) : outcome Pacemaker :=
  match heap_pop (pm_pending_prop p) with
  | Some (sw, rest) =>
      let p := pm_set_pending rest p in
      let justify_view := sw_justify_view sw in
      if justify_view <=? leaf_height then emit_safety_event p (sw_se sw)
      else
        let p := pm_set_pending (heap_push sw (pm_pending_prop p)) p in
        let '(p, ok) := sync_cas SYNC_IDLE SYNC_SYNCHRONIZING p in
        if (ok : bool) then
          let grow_from := leaf_height in
          leader ← get_leader (pm_elector p) (pm_view p);
          let ctx := Context_single (pm_id p) leader (pm_view p) in
          Ret (emit_peer_event p (PE_BranchSyncRequest ctx (Grow grow_from BATCH_SIZE)))
        else Ret p
  | None => Ret p
  end.

Definition update_pm_status (p : Pacemaker) (view : ViewNumber) : Pacemaker :=
  let p := pm_set_view (Z.max (pm_view p) view) p in
  pm_set_storage (ls_increase_view (liveness_storage p) (pm_view p)) p.

Definition goto_new_view (p : Pacemaker) (new_view : ViewNumber) : outcome Pacemaker :=
  let dur := timeout_by_delay (pm_timer p) (rand_u64 (pm_rng p)) in
  let p := pm_set_timer (view_timeout (pm_timer p) new_view dur) (S (pm_rng p)) p in
  let p := update_pm_status p new_view in
  let p := pm_set_storage (clean_new_view_set (liveness_storage p) (pm_view p)) p in
  let qc_high := get_qc_high (liveness_storage p) in
  leader ← get_leader (pm_elector p) (pm_view p);
  let ctx := Context_single (pm_id p) leader (pm_view p) in
  Ret (emit_peer_event p (PE_NewView ctx qc_high)).

(** The share is on the eight bytes of [view]; the certificate names [self.view]. *)
Definition sign_tc (p : Pacemaker) (view : ViewNumber) (qc_high : GenericQC) : TimeoutCertificate :=
  let sign_kit := SignKit_from (sk_sign (ds_sks (pm_signaturer p)) (u64_to_be_bytes view),
                                ds_sign_id (pm_signaturer p)) in
  TimeoutCertificate_new (pm_id p) (pm_view p) sign_kit qc_high.

(** [timeout_view + 1] wraps as in a release build. *)
Definition process_local_timeout (p : Pacemaker) (timeout_view : ViewNumber) : outcome Pacemaker :=
  if pm_view p <=? timeout_view then
    let qc_high := get_qc_high (liveness_storage p) in
    let tc := sign_tc p (pm_view p) qc_high in
    let p := pm_set_storage (append_tc (liveness_storage p) tc).1 p in
    let p := emit_peer_event p (PE_Timeout (Context_broadcast (pm_id p) (pm_view p)) tc) in
    p ← goto_new_view p (wrap64 (timeout_view + 1));
    let p := pm_set_storage (ls_increase_view (liveness_storage p) (pm_view p)) p in
    let '(p, ok) := sync_cas SYNC_SYNCHRONIZING SYNC_IDLE p in
    if (ok : bool) then check_pending_prop p (node_height (ls_get_leaf (liveness_storage p)))
    else Ret p
  else Ret p.

Definition process_timeout_event (p : Pacemaker) (te : TimeoutEvent) : outcome Pacemaker :=
  match te with ViewTimeout view => process_local_timeout p view end.

Definition process_network_event (p : Pacemaker) (net_event : PeerEvent) : outcome Pacemaker :=
  match net_event with
  | PE_NewProposal ctx prop =>
      let sw := SafetyEventWrapper_from (qc_view (node_justify prop)) (RecvProposal ctx prop) in
      let p := pm_set_pending (heap_push sw (pm_pending_prop p)) p in
      check_pending_prop p (node_height (ls_get_leaf (liveness_storage p)))
  | PE_AcceptProposal ctx prop sign =>
      match sign with
      | Some sign => emit_safety_event p (RecvSign ctx prop sign)
      | None => Ret p
      end
  | PE_Timeout ctx tc =>
      let '(s, r) := append_tc (liveness_storage p) tc in
      let p := pm_set_storage s p in
      match r with
      | Ok v => if pm_view p <? v then process_local_timeout p v else Ret p
      | Err _ => Ret p
      end
  | PE_BranchSyncRequest ctx strategy =>
      let reply := Context_single (pm_id p) (ctx_from ctx) (pm_view p) in
      match fetch_branch (liveness_storage p) strategy with
      | Ok bd => Ret (emit_peer_event p (PE_BranchSyncResponse reply strategy (Some bd) Success))
      | Err _ =>
          Ret (emit_peer_event p (PE_BranchSyncResponse reply strategy None ProposalNonExists))
      end
  | PE_BranchSyncResponse ctx _ branch status =>
      match status with
      | Success =>
          match branch with
          | Some branch => emit_safety_event p (BranchSync ctx (bd_data branch))
          | None => Ret p
          end
      | ProposalNonExists => Ret p
      end
  | PE_Ping _ _ => Ret p
  | PE_NewView ctx qc_high =>
      let p := pm_set_storage
                 (new_view_insert (liveness_storage p) (ctx_view ctx) (ctx_from ctx) qc_high) p in
      emit_safety_event p (RecvNewViewMsg ctx qc_high)
  end.

Definition process_ready_event (p : Pacemaker) (ready : Ready) : outcome Pacemaker :=
  match ready with
  | Nil | InternalState _ _ | CommitState _ _ => Ret p
  | NewProposal ctx prop => Ret (emit_peer_event p (PE_NewProposal ctx prop))
  | UpdateQCHigh _ node =>
      Ret (pm_set_storage (ls_update_qc_high (liveness_storage p) node (node_justify node)).1 p)
  | Signature ctx prop sign =>
      flag ← match ctx_to ctx with
             | Single to => Ret (negb (bool_decide (to = pm_id p)))
             | _ => Panic
             end;
      let p := emit_peer_event p (PE_AcceptProposal ctx prop (Some sign)) in
      if (flag : bool) then
        _ ← unwrap DUR_REPLICA_WAIT;
        process_local_timeout p (node_height prop)
      else Ret p
  | BranchSyncDone leaf =>
      let '(p, ok) := sync_cas SYNC_SYNCHRONIZING SYNC_IDLE p in
      if (ok : bool) then check_pending_prop p (node_height leaf) else Ret p
  | ProposalReachConsensus prop_view => process_local_timeout p prop_view
  end.

(** [on_beat(cmds).unwrap()]. *)
Definition make_new_proposal (p : Pacemaker) (cmds : list Txn) :
    outcome (Pacemaker * option Ready) :=
  let th := get_threshold (liveness_storage p) in
  let '(s, set) := new_view_set (liveness_storage p) (pm_view p) in
  let p := pm_set_storage s p in
  let lens := map_len set in
  if lens <=? th then Ret (p, None)
  else
    let p := pm_set_storage
               (clean_new_view_set (liveness_storage p) (wrap64 (pm_view p + 1))) p in
    let '(m, r) := Machine_on_beat (pm_machine p) cmds in
    let p := pm_set_machine m p in
    match r with
    | Ok ready => Ret (p, Some ready)
    | Err _ => Panic
    end.

(** ** The event loops *)

Definition pm_flush (p : Pacemaker) : outcome Pacemaker :=
  '(s, r) ← flush (liveness_storage p);
  match r with
  | Ok _ => Ret (pm_set_storage s p)
  | Err _ => Panic
  end.

(** [while let Some(ready) = self.ready_queue.pop_front()]. *)
Fixpoint drain_ready (fuel : nat) (p : Pacemaker) : outcome Pacemaker :=
  match pm_ready_queue p with
  | [] => Ret p
  | ready :: rest =>
      match fuel with
      | O => Diverge
      | S fuel =>
          p ← process_ready_event (pm_set_ready rest p) ready;
          drain_ready fuel p
      end
  end.

(** Enough for the loop: see [drain_ready_ends]. *)
Definition drain_fuel (p : Pacemaker) : nat :=
  (length (pm_ready_queue p) + length (pm_pending_prop p))%nat.

(** What a turn of [tokio::select!] waits for. *)
Inductive loop_event :=
| Ev_tick
| Ev_quit
| Ev_net (pe : PeerEvent)
| Ev_timeout (te : TimeoutEvent).

(** The prologue of both loops. *)
Definition loop_start (p : Pacemaker) : outcome Pacemaker :=
  p ← goto_new_view p 1;
  _ ← unwrap FLUSH_INTERVAL;
  Ret p.

(** One turn of [Pacemaker::run]; the flag is [quit]. *)
Definition run_turn (p : Pacemaker) (ev : loop_event) : outcome (Pacemaker * bool) :=
  match ev with
  | Ev_tick => p ← pm_flush p; p ← drain_ready (drain_fuel p) p; Ret (p, false)
  | Ev_quit => Ret (p, true)
  | Ev_net pe => p ← process_network_event p pe; Ret (p, false)
  | Ev_timeout te => p ← process_timeout_event p te; Ret (p, false)
  end.

Fixpoint run_loop (p : Pacemaker) (evs : list loop_event) : outcome Pacemaker :=
  match evs with
  | [] => Ret p
  | ev :: evs =>
      '(p, quit) ← run_turn p ev;
      if (quit : bool) then pm_flush p else run_loop p evs
  end.

(** [Pacemaker::run] on the events of a session. *)
Definition Pacemaker_run (p : Pacemaker) (evs : list loop_event) : outcome Pacemaker :=
  p ← loop_start p; run_loop p evs.

Record PacemakerState := mkPacemakerState {
  ps_replica_id : ReplicaID;
  ps_current_view : ViewNumber;
  ps_current_leader : option ReplicaID;
  ps_machine_snapshot : Snapshot;
}.

(** The state sent to an observer. *)
Definition pm_observe (p : Pacemaker) : outcome PacemakerState :=
  leader ← get_leader (pm_elector p) (pm_view p);
  Ret {| ps_replica_id := pm_id p; ps_current_view := pm_view p;
         ps_current_leader := Some leader;
         ps_machine_snapshot := Machine_take_snapshot (pm_machine p) |}.

(** The first part of a turn of [event_loop_with_functions]: [fetch] is asked for
    transactions and told whether a proposal is possible; [observed] says whether
    [observe_fn] returned a sender. *)
Definition loop_propose (p : Pacemaker) (fetch : bool -> option (list Txn)) (observed : bool) :
    outcome (Pacemaker * option PacemakerState) :=
  let '(s, set) := new_view_set (liveness_storage p) (pm_view p) in
  let p := pm_set_storage s p in
  let enable_make_prop := get_threshold (liveness_storage p) <? map_len set in
  p ← match fetch enable_make_prop with
      | Some cmds =>
          '(p, ready) ← make_new_proposal p cmds;
          Ret (match ready with
               | Some ready => pm_set_ready (pm_ready_queue p ++ [ready]) p
               | None => p
               end)
      | None => Ret p
      end;
  if observed then st ← pm_observe p; Ret (p, Some st) else Ret (p, None).

(** One turn; the flag says that the loop ends: [end_fn] asked for it, or [quit]
    was received (the rest of the turn still runs). *)
Definition event_loop_turn (p : Pacemaker) (end_fn : ViewNumber -> bool)
    (fetch : bool -> option (list Txn)) (observed : bool) (ev : loop_event) :
    outcome (Pacemaker * bool) :=
  if end_fn (pm_view p) then Ret (p, true)
  else
    '(p, _) ← loop_propose p fetch observed;
    '(p, quit) ← match ev with
                 | Ev_tick => p ← pm_flush p; Ret (p, false)
                 | Ev_quit => Ret (p, true)
                 | Ev_net pe => p ← process_network_event p pe; Ret (p, false)
                 | Ev_timeout te => p ← process_timeout_event p te; Ret (p, false)
                 end;
    p ← drain_ready (drain_fuel p) p;
    Ret (p, quit).

(** [event_loop_with_functions] after its prologue; each turn has the answers of
    the callbacks and the event [select!] took. *)
Fixpoint event_loop (p : Pacemaker) (end_fn : ViewNumber -> bool)
    (turns : list ((bool -> option (list Txn)) * bool * loop_event)) : outcome Pacemaker :=
  match turns with
  | [] => Ret p
  | (fetch, observed, ev) :: turns =>
      '(p, stop) ← event_loop_turn p end_fn fetch observed ev;
      if (stop : bool) then pm_flush p else event_loop p end_fn turns
  end.

Definition event_loop_with_functions (p : Pacemaker) (end_fn : ViewNumber -> bool)
    (turns : list ((bool -> option (list Txn)) * bool * loop_event)) : outcome Pacemaker :=
  p ← loop_start p; event_loop p end_fn turns.

End PacemakerDefs.
Arguments Pacemaker {TC} St.
