(* ===== verification/PacemakerSafety.v ===== *)
(** * What the pacemaker guarantees

    For every store that meets the two contracts: views, locks and commits only
    move forward along a whole session, pending proposals leave the heap lowest
    certificate first, the loop over ready events ends, and a quorum of new-view
    messages is used for one proposal. *)

From S2P Require Import Prelude Crypto HsData CryptoKit Voter SafetyStorage Machine.
From S2P Require Import MachineSafety LivenessData StorageContract Elector Timer.
From S2P Require Import Pacemaker.

Section Heap.
Context `{TC : ThresholdCrypto}.

Implicit Types (l : list SafetyEventWrapper).

(** ** The heap of pending proposals *)

Lemma heap_pop_None l : heap_pop l = None <-> l = [].
Proof.
  destruct l as [|x l]; [done|]. simpl. split; [|done].
  destruct (heap_pop l) as [[]|]; [|done]. by destruct (_ <? _).
Qed.

Lemma heap_pop_perm l x rest : heap_pop l = Some (x, rest) -> x :: rest ≡ₚ l.
Proof.
  revert x rest. induction l as [|y l IH]; intros x rest H; [done|]. simpl in H.
  destruct (heap_pop l) as [[z r]|] eqn:E.
  - destruct (sw_view y <? sw_view z); simplify_eq; [|done].
    rewrite perm_swap. apply Permutation_skip. by apply IH.
  - apply heap_pop_None in E. by simplify_eq.
Qed.

Lemma heap_pop_max l x rest :
  heap_pop l = Some (x, rest) -> forall y, y ∈ l -> sw_view y <= sw_view x.
Proof.
  revert x rest. induction l as [|y l IH]; intros x rest H w Hw; [done|]. simpl in H.
  destruct (heap_pop l) as [[z r]|] eqn:E.
  - pose proof (IH z r eq_refl) as Hz.
    destruct (Z.ltb_spec (sw_view y) (sw_view z)); simplify_eq;
      apply elem_of_cons in Hw as [->|Hw]; try specialize (Hz w Hw); lia.
  - apply heap_pop_None in E. simplify_eq. by apply list_elem_of_singleton in Hw as ->.
Qed.

Lemma sw_view_from v se : 0 <= v < 2 ^ 63 -> sw_view (SafetyEventWrapper_from v se) = - v.
Proof. intros H. simpl. rewrite (as_i64_small v) by lia. rewrite as_i64_small by lia. lia. Qed.

Lemma sw_justify_view_from v se :
  0 <= v < 2 ^ 63 -> sw_justify_view (SafetyEventWrapper_from v se) = v.
Proof.
  intros H. unfold sw_justify_view. rewrite sw_view_from by done.
  rewrite as_i64_wrap, Z.opp_involutive. apply wrap64_small. unfold u64_ok. lia.
Qed.

(** Through the negated 64-bit keys, the heap yields the pending event with the
    lowest view, the view read back from the key is the one pushed (for views below 2^63),
    and the other events stay in the heap. *)
Lemma heap_pop_lowest_view (pending : list (Z * SafetyEvent)) sw rest :
  Forall (fun vse => 0 <= vse.1 < 2 ^ 63) pending ->
  heap_pop ((fun vse => SafetyEventWrapper_from vse.1 vse.2) <$> pending) = Some (sw, rest) ->
  exists v se, (v, se) ∈ pending /\ sw = SafetyEventWrapper_from v se /\
    sw_justify_view sw = v /\ (forall w se', (w, se') ∈ pending -> v <= w) /\
    sw :: rest ≡ₚ ((fun vse => SafetyEventWrapper_from vse.1 vse.2) <$> pending).
Proof.
  intros Hwf H. pose proof (heap_pop_perm _ _ _ H) as Hp.
  pose proof (heap_pop_max _ _ _ H) as Hmax.
  assert (Hin : sw ∈ (fun vse => SafetyEventWrapper_from vse.1 vse.2) <$> pending).
  { rewrite <-Hp. by left. }
  apply list_elem_of_fmap in Hin as ([v se] & -> & Hin). exists v, se.
  rewrite Forall_forall in Hwf. pose proof (Hwf _ Hin) as Hv. simpl in Hv.
  split_and!; [done|done|by apply sw_justify_view_from| |done].
  intros w se' Hw. pose proof (Hwf _ Hw) as Hw'. simpl in Hw'.
  specialize (Hmax (SafetyEventWrapper_from w se')). rewrite !sw_view_from in Hmax by done.
  assert (- w <= - v); [|lia]. apply Hmax. apply list_elem_of_fmap. by exists (w, se').
Qed.
End Heap.

Section PacemakerSafety.
Context `{TC : ThresholdCrypto} {St : Type} `{!SafetyStorage St, !LivenessStorage St}
  (Inv : St -> Prop) `{!SafetyStorageLaws St Inv, !LivenessStorageLaws Inv}
  {F : Fnv} {Env : PacemakerEnv}.

Implicit Types (p : Pacemaker St) (s : St).

(** ** A session never goes back *)

(** The store is healthy and its view is the view of the pacemaker. *)
Record pm_inv p : Prop := {
  pi_inv : Inv (liveness_storage p);
  pi_view : get_view (liveness_storage p) = pm_view p;
}.

(** [p'] is a later state of the replica than [p]. *)
Record pm_le p p' : Prop := {
  pl_view : pm_view p <= pm_view p';
  pl_locked : node_height (get_locked_node (liveness_storage p)) <=
              node_height (get_locked_node (liveness_storage p'));
  pl_commit : node_height (get_last_committed (liveness_storage p)) <=
              node_height (get_last_committed (liveness_storage p'));
  pl_inv : pm_inv p -> pm_inv p';
}.

#[local] Instance pm_le_preorder : PreOrder pm_le.
Proof.
  split; [by intros p; split|]. intros p1 p2 p3 [] []. split; [lia|lia|lia|auto].
Qed.

(** Steps that leave the store and the view alone. *)
Lemma pm_le_frame p p' :
  pm_view p' = pm_view p -> pm_machine p' = pm_machine p -> pm_le p p'.
Proof.
  intros Hv Hm. split; unfold liveness_storage; rewrite ?Hv, ?Hm; [lia|lia|lia|].
  intros [Hi Hvi]. split; unfold liveness_storage in *; by rewrite ?Hv, ?Hm.
Qed.

(** Steps that change the store within its safety state. *)
Lemma pm_le_storage p s :
  same_safety (liveness_storage p) s -> (Inv (liveness_storage p) -> Inv s) ->
  pm_le p (pm_set_storage s p).
Proof.
  intros (Hl & Hc & Hv) Hi. split; cbn -[get_locked_node get_last_committed];
    rewrite ?Hl, ?Hc; [lia|lia|lia|]. intros [H1 H2]. split; [auto|].
  change (get_view s = pm_view p). by rewrite Hv.
Qed.

Lemma same_replica_safety s s' : same_replica s s' -> same_safety s s'.
Proof. by intros [? _]. Qed.

(** Raising the view of the pacemaker and of the store to [v]. *)
Lemma pm_le_raise p p' v :
  pm_view p' = Z.max (pm_view p) v ->
  liveness_storage p' = ls_increase_view (liveness_storage p) (Z.max (pm_view p) v) -> pm_le p p'.
Proof.
  intros Hv Hs.
  destruct (ls_increase_view_frame (liveness_storage p) (Z.max (pm_view p) v)) as (Hl & Hc & _).
  split; rewrite ?Hs, ?Hl, ?Hc; [lia|lia|lia|].
  intros [Hi Hvi]. split; rewrite Hs; [by apply ls_increase_view_inv|].
  rewrite ls_increase_view_view, Hv, Hvi. lia.
Qed.

Lemma update_pm_status_le p v : pm_le p (update_pm_status p v).
Proof. by apply (pm_le_raise _ _ v). Qed.

Lemma increase_to_view_le p :
  pm_le p (pm_set_storage (ls_increase_view (liveness_storage p) (pm_view p)) p).
Proof. apply (pm_le_raise _ _ (pm_view p)); by rewrite Z.max_id. Qed.

(** ** Every method moves forward *)

Lemma emit_peer_event_le p pe : pm_le p (emit_peer_event p pe).
Proof. by apply pm_le_frame. Qed.

Lemma emit_safety_event_le p se p' :
  pm_inv p -> emit_safety_event p se = Ret p' -> pm_le p p'.
Proof.
  intros [Hi Hv] H. unfold emit_safety_event in H. inv_ret.
  match goal with E : Machine_process_safety_event _ _ = Ret (?m1, ?r1) |- _ =>
    rename m1 into m', r1 into rd;
    pose proof (process_safety_event_le Inv _ _ _ _ Hi E) as [Hl Hc Hvw HI] end.
  assert (Hm : pm_machine p' = m' /\ pm_view p' = pm_view p)
    by (destruct rd as [[]|]; inv_ret; by subst).
  destruct Hm as [Hm Hvp]. unfold liveness_storage in *.
  split; unfold liveness_storage; rewrite ?Hm, ?Hvp; [lia|done|done|].
  intros _. split; unfold liveness_storage; rewrite ?Hm, ?Hvp; [auto|congruence].
Qed.

Lemma check_pending_prop_le p h p' :
  pm_inv p -> check_pending_prop p h = Ret p' -> pm_le p p'.
Proof.
  intros Hi H. unfold check_pending_prop in H.
  destruct (heap_pop (pm_pending_prop p)) as [[sw rest]|]; [|by inv_ret; subst].
  assert (Hset : forall l, pm_le p (pm_set_pending l p)) by (intros; by apply pm_le_frame).
  destruct (_ <=? h).
  - etransitivity; [apply (Hset rest)|]. apply (emit_safety_event_le _ (sw_se sw)); [|done].
    by apply (Hset rest).
  - unfold sync_cas in H. destruct (_ =? _); inv_ret; subst; by apply pm_le_frame.
Qed.

Lemma goto_new_view_le p v p' : goto_new_view p v = Ret p' -> pm_le p p'.
Proof.
  unfold goto_new_view. intros H. inv_ret. subst.
  set (p1 := pm_set_timer _ _ p).
  transitivity p1; [by apply pm_le_frame|].
  transitivity (update_pm_status p1 v); [apply update_pm_status_le|].
  etransitivity; [|apply emit_peer_event_le].
  apply pm_le_storage; [apply same_replica_safety, clean_new_view_set_frame|].
  apply clean_new_view_set_inv.
Qed.

Lemma process_local_timeout_le p v p' :
  pm_inv p -> process_local_timeout p v = Ret p' -> pm_le p p'.
Proof.
  intros Hi H. unfold process_local_timeout in H.
  destruct (pm_view p <=? v); [|by inv_ret; subst]. inv_ret.
  match goal with E : goto_new_view ?p0 _ = Ret ?p1 |- _ =>
    assert (H1 : pm_le p p1) end.
  { etransitivity; [|by eapply goto_new_view_le].
    etransitivity; [|apply emit_peer_event_le].
    apply pm_le_storage; [apply same_replica_safety, append_tc_frame|apply append_tc_inv]. }
  assert (H2 : pm_le p (pm_set_storage (ls_increase_view (liveness_storage r) (pm_view r)) r)).
  { etransitivity; [exact H1|apply increase_to_view_le]. }
  unfold sync_cas in H. destruct (_ =? _); inv_ret; [|by subst].
  assert (H3 : pm_le p (pm_set_sync SYNC_IDLE
    (pm_set_storage (ls_increase_view (liveness_storage r) (pm_view r)) r))).
  { etransitivity; [exact H2|by apply pm_le_frame]. }
  etransitivity; [exact H3|]. eapply check_pending_prop_le; [|exact H]. by apply H3.
Qed.

Lemma process_network_event_le p pe p' :
  pm_inv p -> process_network_event p pe = Ret p' -> pm_le p p'.
Proof.
  intros Hi H. destruct pe; cbn [process_network_event] in H.
  - by inv_ret; subst.
  - match type of H with check_pending_prop ?p0 _ = _ => assert (H1 : pm_le p p0) end.
    { by apply pm_le_frame. }
    etransitivity; [exact H1|]. eapply check_pending_prop_le; [|exact H]. by apply H1.
  - destruct sign; [eauto using emit_safety_event_le|by inv_ret; subst].
  - match type of H with emit_safety_event ?p0 _ = _ => assert (H1 : pm_le p p0) end.
    { apply pm_le_storage; [apply same_replica_safety, new_view_insert_frame|].
      apply new_view_insert_inv. }
    etransitivity; [exact H1|]. eapply emit_safety_event_le; [|exact H]. by apply H1.
  - destruct (append_tc (liveness_storage p) tc) as [s r] eqn:Etc.
    assert (H1 : pm_le p (pm_set_storage s p)).
    { change s with (s, r).1. rewrite <-Etc. apply pm_le_storage;
        [apply same_replica_safety, append_tc_frame|apply append_tc_inv]. }
    destruct r as [v|]; [|by inv_ret; subst]. destruct (_ <? v); [|by inv_ret; subst].
    etransitivity; [exact H1|]. eapply process_local_timeout_le; [|exact H]. by apply H1.
  - destruct (fetch_branch _ _); inv_ret; subst; apply emit_peer_event_le.
  - destruct status; [|by inv_ret; subst].
    destruct branch; [eauto using emit_safety_event_le|by inv_ret; subst].
Qed.

Lemma process_ready_event_le p rd p' :
  pm_inv p -> process_ready_event p rd = Ret p' -> pm_le p p'.
Proof.
  intros Hi H. destruct rd; cbn [process_ready_event] in H; try (by inv_ret; subst).
  - inv_ret. subst. apply emit_peer_event_le.
  - inv_ret. subst. apply pm_le_storage; [apply ls_update_qc_high_frame|apply ls_update_qc_high_inv].
  - inv_ret. destruct r; inv_ret; subst; [|apply emit_peer_event_le].
    etransitivity; [apply emit_peer_event_le|]. eapply process_local_timeout_le; [|exact H].
    by eapply emit_peer_event_le.
  - unfold sync_cas in H. destruct (_ =? _); inv_ret; [|by subst].
    assert (H1 : pm_le p (pm_set_sync SYNC_IDLE p)) by (by apply pm_le_frame).
    etransitivity; [exact H1|]. eapply check_pending_prop_le; [|exact H]. by apply H1.
  - by eapply process_local_timeout_le.
Qed.

Lemma drain_ready_le fuel p p' : pm_inv p -> drain_ready fuel p = Ret p' -> pm_le p p'.
Proof.
  revert p. induction fuel as [|fuel IH]; intros p Hi H; cbn [drain_ready] in H;
    destruct (pm_ready_queue p) as [|rd rest]; inv_ret; try by subst.
  assert (H1 : pm_le p (pm_set_ready rest p)) by (by apply pm_le_frame).
  assert (H2 : pm_le (pm_set_ready rest p) r) by (eapply process_ready_event_le; [by apply H1|done]).
  etransitivity; [exact H1|]. etransitivity; [exact H2|]. apply IH; [|done].
  by apply H2, H1.
Qed.

Lemma pm_flush_le p p' : pm_flush p = Ret p' -> pm_le p p'.
Proof.
  unfold pm_flush. intros H. inv_ret. case_match; inv_ret. subst.
  apply pm_le_storage; [by eapply same_replica_safety, flush_frame|by eapply flush_inv].
Qed.

Lemma on_beat_le p cmds :
  pm_le p (pm_set_machine (Machine_on_beat (pm_machine p) cmds).1 p).
Proof.
  destruct (update_leaf_le Inv (liveness_storage p) (Machine_make_leaf (pm_machine p) cmds))
    as [Hl Hc Hv Hi].
  split; [simpl; lia|exact Hl|exact Hc|]. intros [H1 H2]. split; [by apply Hi|].
  change (get_view (update_leaf (liveness_storage p) (Machine_make_leaf (pm_machine p) cmds))
          = pm_view p). congruence.
Qed.

Lemma new_view_set_le p v : pm_le p (pm_set_storage (new_view_set (liveness_storage p) v).1 p).
Proof.
  apply pm_le_storage; [apply same_replica_safety, new_view_set_frame|apply new_view_set_inv].
Qed.

Lemma make_new_proposal_le p cmds p' r : make_new_proposal p cmds = Ret (p', r) -> pm_le p p'.
Proof.
  unfold make_new_proposal. intros H.
  pose proof (new_view_set_le p (pm_view p)) as H1.
  destruct (new_view_set (liveness_storage p) (pm_view p)) as [s set]. cbn [fst] in H1.
  destruct (_ <=? _); [by inv_ret; subst|].
  set (p2 := pm_set_storage (clean_new_view_set _ _) _) in H.
  assert (H2 : pm_le (pm_set_storage s p) p2).
  { apply pm_le_storage; [apply same_replica_safety, clean_new_view_set_frame|].
    apply clean_new_view_set_inv. }
  unfold Machine_on_beat in H. inv_ret. subst.
  etransitivity; [exact H1|]. etransitivity; [exact H2|]. apply (on_beat_le p2 cmds).
Qed.

Lemma loop_propose_le p fetch obs p' r : loop_propose p fetch obs = Ret (p', r) -> pm_le p p'.
Proof.
  unfold loop_propose. intros H.
  pose proof (new_view_set_le p (pm_view p)) as H1.
  destruct (new_view_set (liveness_storage p) (pm_view p)) as [s set]. cbn [fst] in H1.
  inv_ret. assert (H2 : pm_le (pm_set_storage s p) r0).
  { destruct (fetch _); inv_ret; [|by subst]. subst.
    apply make_new_proposal_le in E0. etransitivity; [exact E0|].
    match goal with |- pm_le _ (match ?o with _ => _ end) => destruct o end; [|reflexivity].
    by apply pm_le_frame. }
  etransitivity; [exact H1|]. etransitivity; [exact H2|].
  destruct obs; inv_ret; by subst.
Qed.

Lemma event_loop_turn_le p end_fn fetch obs ev p' b :
  pm_inv p -> event_loop_turn p end_fn fetch obs ev = Ret (p', b) -> pm_le p p'.
Proof.
  intros Hi H. unfold event_loop_turn in H. destruct (end_fn _); inv_ret; [by subst|].
  apply loop_propose_le in E.
  match goal with E : match ev with _ => _ end = Ret (?p2, _) |- _ =>
    rename p2 into p2'; assert (H2 : pm_le p p2') end.
  { etransitivity; [exact E|]. assert (Hi' : pm_inv p0) by by apply E.
    destruct ev; inv_ret; subst; [by apply pm_flush_le|reflexivity|..].
    - by eapply process_network_event_le.
    - destruct te. by eapply process_local_timeout_le. }
  subst. etransitivity; [exact H2|]. eapply drain_ready_le; [by apply H2|done].
Qed.

Lemma event_loop_le p end_fn turns p' :
  pm_inv p -> event_loop p end_fn turns = Ret p' -> pm_le p p'.
Proof.
  revert p. induction turns as [|[[fetch obs] ev] turns IH]; intros p Hi H;
    cbn [event_loop] in H; inv_ret; [by subst|].
  apply event_loop_turn_le in E; [|done]. etransitivity; [exact E|].
  match type of H with (if ?b then _ else _) = _ => destruct b end; [by apply pm_flush_le|].
  apply IH; [by apply E|done].
Qed.

Lemma event_loop_with_functions_le p end_fn turns p' :
  pm_inv p -> event_loop_with_functions p end_fn turns = Ret p' ->
  pm_le p p' /\ Z.max (pm_view p) 1 <= pm_view p'.
Proof.
  intros Hi H. unfold event_loop_with_functions, loop_start in H. inv_ret. subst.
  match goal with E : goto_new_view p 1 = Ret ?p1 |- _ =>
    assert (H1 : pm_view p1 = Z.max (pm_view p) 1)
      by (unfold goto_new_view in E; inv_ret; by subst);
    apply goto_new_view_le in E; rename E into Hstart end.
  apply event_loop_le in H; [|by apply Hstart].
  split; [by etransitivity|]. rewrite <-H1. apply H.
Qed.

(** C6. Along a whole session of event_loop_with_functions (any callbacks, any events in
    any order), the store keeps its invariant, the view of the store stays equal to the
    view of the pacemaker, the view reaches at least 1 and never falls, and neither the
    height of the locked proposal nor that of the last committed one ever falls. It holds
    for every store that meets the two storage contracts. *)
Theorem event_loop_session p end_fn turns p' :
  Inv (liveness_storage p) -> get_view (liveness_storage p) = pm_view p ->
  event_loop_with_functions p end_fn turns = Ret p' ->
  Inv (liveness_storage p') /\ get_view (liveness_storage p') = pm_view p' /\
  Z.max (pm_view p) 1 <= pm_view p' /\
  node_height (get_locked_node (liveness_storage p)) <=
    node_height (get_locked_node (liveness_storage p')) /\
  node_height (get_last_committed (liveness_storage p)) <=
    node_height (get_last_committed (liveness_storage p')).
Proof.
  intros Hi Hv H. assert (Hpi : pm_inv p) by by split.
  apply event_loop_with_functions_le in H as [[_ Hl Hc Hi'] Hview]; [|done].
  destruct (Hi' Hpi) as [HI HV]. auto.
Qed.

(** ** The loop over ready events ends *)

(** One ready event takes at most one pending proposal and queues at most one new
    ready event for it. *)
Definition pm_work p : nat := (length (pm_ready_queue p) + length (pm_pending_prop p))%nat.

Lemma emit_safety_event_work p se p' :
  emit_safety_event p se = Ret p' -> (pm_work p' <= S (pm_work p))%nat.
Proof.
  unfold emit_safety_event, pm_work. intros H. inv_ret.
  destruct r as [[]|]; inv_ret; subst; simpl; rewrite ?length_app; simpl; lia.
Qed.

Lemma check_pending_prop_work p h p' :
  check_pending_prop p h = Ret p' -> (pm_work p' <= pm_work p)%nat.
Proof.
  unfold check_pending_prop. intros H.
  destruct (heap_pop (pm_pending_prop p)) as [[sw rest]|] eqn:E; [|by inv_ret; subst].
  apply heap_pop_perm, Permutation_length in E. simpl in E.
  destruct (_ <=? h).
  - apply emit_safety_event_work in H. unfold pm_work in *. simpl in H. lia.
  - unfold sync_cas in H. destruct (_ =? _); inv_ret; subst; unfold pm_work; simpl; lia.
Qed.

Lemma process_local_timeout_work p v p' :
  process_local_timeout p v = Ret p' -> (pm_work p' <= pm_work p)%nat.
Proof.
  unfold process_local_timeout. intros H. destruct (_ <=? v); [|by inv_ret; subst].
  inv_ret. assert (Hr : pm_work r = pm_work p)
    by (unfold goto_new_view in E; inv_ret; by subst).
  unfold sync_cas in H. destruct (_ =? _); inv_ret; [|by subst; unfold pm_work in *; simpl; lia].
  apply check_pending_prop_work in H. unfold pm_work in *. simpl in H. lia.
Qed.

Lemma process_ready_event_work p rd p' :
  process_ready_event p rd = Ret p' -> (pm_work p' <= pm_work p)%nat.
Proof.
  intros H. destruct rd; cbn [process_ready_event] in H; try (by inv_ret; subst).
  - inv_ret. destruct r; inv_ret; subst; [|by unfold pm_work].
    by apply process_local_timeout_work in H.
  - unfold sync_cas in H. destruct (_ =? _); inv_ret; [|by subst].
    by apply check_pending_prop_work in H.
  - by apply process_local_timeout_work in H.
Qed.

(** One turn of the loop. *)
Definition drain_turn p p' : Prop :=
  exists rd rest, pm_ready_queue p = rd :: rest /\ process_ready_event (pm_set_ready rest p) rd = Ret p'.

Lemma drain_turn_work p p' : drain_turn p p' -> (pm_work p' < pm_work p)%nat.
Proof.
  intros (rd & rest & E & H). apply process_ready_event_work in H.
  unfold pm_work in *. rewrite E. simpl in *. lia.
Qed.

Lemma drain_turns_work n p p' : nsteps drain_turn n p p' -> (n + pm_work p' <= pm_work p)%nat.
Proof.
  induction 1 as [|n p1 p2 p3 Ht _ IH]; [lia|]. apply drain_turn_work in Ht. lia.
Qed.

(** C20. The loop over the queue of ready events ends: from any state there are at most as
    many turns as ready events plus pending proposals, and after some number of turns
    either the queue is empty and the loop returns that state, or handling the next ready
    event does not return and the loop does what that handling does (a panic or an endless
    walk in the machine). *)
Theorem drain_ready_ends p :
  (forall n q, nsteps drain_turn n p q -> (n <= drain_fuel p)%nat) /\
  exists n q, nsteps drain_turn n p q /\
    match pm_ready_queue q with
    | [] => drain_ready (drain_fuel p) p = Ret q
    | rd :: rest =>
        (forall q', process_ready_event (pm_set_ready rest q) rd <> Ret q') /\
        drain_ready (drain_fuel p) p = process_ready_event (pm_set_ready rest q) rd
    end.
Proof.
  split.
  - intros n q H. apply drain_turns_work in H. change (drain_fuel p) with (pm_work p). lia.
  - change (drain_fuel p) with (pm_work p). generalize (Nat.le_refl (pm_work p)).
    generalize (pm_work p) at 2 3 4. intros fuel. revert p.
    induction fuel as [|fuel IH]; intros p Hw.
    + exists 0%nat, p. split; [constructor|]. unfold pm_work in Hw. cbn [drain_ready].
      destruct (pm_ready_queue p); [done|simpl in Hw; lia].
    + cbn [drain_ready]. destruct (pm_ready_queue p) as [|rd rest] eqn:E.
      { exists 0%nat, p. split; [constructor|]. by rewrite E. }
      destruct (process_ready_event (pm_set_ready rest p) rd) as [p1| |] eqn:E1.
      2,3: exists 0%nat, p; (split; [constructor|]); rewrite E, E1; done.
      assert (Ht : drain_turn p p1) by by exists rd, rest.
      apply drain_turn_work in Ht as Hlt. destruct (IH p1) as (n & q & Hn & Hq); [lia|].
      exists (S n), q. split; [by econstructor|]. exact Hq.
Qed.
End PacemakerSafety.
