(* ===== verification/PacemakerViews.v ===== *)
(** * Views, proposals and synchronisation, operation by operation

    The effect of a timeout, of a pending proposal and of a quorum of new-view
    messages, stated on every branch. *)

From S2P Require Import Prelude Crypto HsData CryptoKit Voter SafetyStorage Machine.
From S2P Require Import LivenessData StorageContract Elector Timer Pacemaker.
From S2P Require Import PacemakerSafety.

Section PacemakerViews.
Context `{TC : ThresholdCrypto} {St : Type} `{!SafetyStorage St, !LivenessStorage St}
  (Inv : St -> Prop) `{!LivenessStorageLaws Inv}
  {F : Fnv} `{!FnvLaws} {Env : PacemakerEnv}.

Implicit Types (p : Pacemaker St) (s : St).

(** The only task of the timer that was not told to stop is for [view]. *)
Definition timer_only_armed (t : DefaultTimer) (view : ViewNumber) : Prop :=
  timer_armed t view /\ forall v, timer_armed t v -> v = view.

Lemma view_timeout_only_armed t view dur : timer_only_armed (view_timeout t view dur) view.
Proof.
  unfold timer_only_armed, timer_armed, view_timeout, timer_start, stop_view_timer. simpl. split.
  - eexists. rewrite elem_of_app, list_elem_of_singleton. split; [by right|done].
  - intros v (k & Hk & Hev & Hs). apply elem_of_app in Hk as [Hk|Hk].
    + apply list_elem_of_fmap in Hk as (k' & -> & _). done.
    + apply list_elem_of_singleton in Hk as ->. simpl in Hev. congruence.
Qed.

(** The messages of a timeout in [view] that leads to [next]. *)
Definition timeout_messages p (next : ViewNumber) (leader : ReplicaID) : list PeerEvent :=
  let qc_high := get_qc_high (liveness_storage p) in
  [PE_Timeout (Context_broadcast (pm_id p) (pm_view p)) (sign_tc p (pm_view p) qc_high);
   PE_NewView (Context_single (pm_id p) leader next) qc_high].

Lemma goto_new_view_spec p v :
  round_mapper (pm_elector p) <> [] ->
  let view := Z.max (pm_view p) v in
  exists p' leader,
    goto_new_view p v = Ret p' /\ get_leader (pm_elector p) view = Ret leader /\
    pm_view p' = view /\ timer_only_armed (pm_timer p') v /\
    pm_sent p' = pm_sent p ++
      [PE_NewView (Context_single (pm_id p) leader view) (get_qc_high (liveness_storage p))] /\
    get_view (liveness_storage p') = Z.max (get_view (liveness_storage p)) view /\
    get_qc_high (liveness_storage p') = get_qc_high (liveness_storage p) /\
    ls_get_leaf (liveness_storage p') = ls_get_leaf (liveness_storage p) /\
    pm_sync_state p' = pm_sync_state p /\ pm_pending_prop p' = pm_pending_prop p /\
    pm_ready_queue p' = pm_ready_queue p /\ pm_id p' = pm_id p /\ pm_elector p' = pm_elector p /\
    (forall w, nv (liveness_storage p') w =
       if decide (view <= w) then nv (ls_increase_view (liveness_storage p) view) w else ∅).
Proof.
  intros Hne view. unfold goto_new_view.
  destruct (get_leader_total (pm_elector p) view Hne) as (leader & Hl & _).
  set (p1 := pm_set_timer _ _ p).
  assert (Ev : pm_view (update_pm_status p1 v) = view) by done.
  assert (Es : liveness_storage (update_pm_status p1 v)
               = ls_increase_view (liveness_storage p) view) by done.
  rewrite Ev, Es.
  set (s1 := ls_increase_view (liveness_storage p) view) in *.
  destruct (ls_increase_view_frame (liveness_storage p) view) as (_ & _ & Hq1 & Hf1).
  fold s1 in Hq1, Hf1.
  destruct (clean_new_view_set_frame s1 view) as [[_ [_ Hv2]] [Hq2 Hf2]].
  set (s2 := clean_new_view_set s1 view) in *.
  change (pm_view (pm_set_storage s2 (update_pm_status p1 v))) with view.
  change (pm_elector (pm_set_storage s2 (update_pm_status p1 v))) with (pm_elector p).
  rewrite Hl. cbn [mbind outcome_bind].
  exists (emit_peer_event (pm_set_storage s2 (update_pm_status p1 v))
            (PE_NewView (Context_single (pm_id p) leader view) (get_qc_high s2))), leader.
  split; [done|]. split; [done|]. split; [done|].
  split; [apply view_timeout_only_armed|]. split; [by rewrite Hq2, Hq1|].
  split; [change (get_view s2 = Z.max (get_view (liveness_storage p)) view);
          rewrite Hv2; apply ls_increase_view_view|].
  split; [change (get_qc_high s2 = get_qc_high (liveness_storage p)); congruence|].
  split; [change (ls_get_leaf s2 = ls_get_leaf (liveness_storage p)); congruence|].
  split_and!; try done. intros w. apply nv_clean.
Qed.

(** C19. A timeout for a past view does nothing; a timeout for view v at or above the
    current one moves the replica to v + 1, arms the timer for exactly that view, raises
    the view of the store, and sends exactly a signed timeout certificate for the old view
    to everyone and a new-view message with qc_high to the leader of v + 1; if a branch
    synchronisation was under way it is given up and the pending proposals are looked at
    again. *)
Theorem process_local_timeout_spec p (timeout_view : ViewNumber) :
  round_mapper (pm_elector p) <> [] -> 0 <= timeout_view < 2 ^ 64 - 1 ->
  if timeout_view <? pm_view p then process_local_timeout p timeout_view = Ret p
  else
    exists p' leader,
      pm_view p' = timeout_view + 1 /\
      get_leader (pm_elector p) (timeout_view + 1) = Ret leader /\
      pm_sent p' = pm_sent p ++ timeout_messages p (timeout_view + 1) leader /\
      get_view (liveness_storage p') = Z.max (get_view (liveness_storage p)) (timeout_view + 1) /\
      timer_only_armed (pm_timer p') (timeout_view + 1) /\
      pm_pending_prop p' = pm_pending_prop p /\ pm_ready_queue p' = pm_ready_queue p /\
      process_local_timeout p timeout_view =
        if pm_sync_state p =? SYNC_SYNCHRONIZING
        then check_pending_prop (pm_set_sync SYNC_IDLE p')
               (node_height (ls_get_leaf (liveness_storage p)))
        else Ret p'.
Proof.
  intros Hne Hb. unfold process_local_timeout.
  destruct (Z.ltb_spec timeout_view (pm_view p)); destruct (Z.leb_spec (pm_view p) timeout_view);
    try lia; [done|].
  set (qc := get_qc_high (liveness_storage p)). set (tc := sign_tc p (pm_view p) qc).
  destruct (append_tc_frame (liveness_storage p) tc) as [[_ [_ Hv1]] [Hq1 Hf1]].
  set (s1 := (append_tc (liveness_storage p) tc).1) in *.
  set (p1 := emit_peer_event (pm_set_storage s1 p) _).
  rewrite wrap64_small by (unfold u64_ok; lia).
  destruct (goto_new_view_spec p1 (timeout_view + 1)) as (p2 & leader & Hgo & Hl & Hview & Ht & Hsent
    & Hv2 & Hq2 & Hf2 & Hsync & Hpend & Hready & _); [done|].
  change (pm_view p1) with (pm_view p) in *. rewrite Z.max_r in * by lia.
  change (liveness_storage p1) with s1 in *.
  rewrite Hgo. cbn [mbind outcome_bind].
  set (s3 := ls_increase_view (liveness_storage p2) (pm_view p2)).
  destruct (ls_increase_view_frame (liveness_storage p2) (pm_view p2)) as (_ & _ & _ & Hf3).
  fold s3 in Hf3. assert (Hv3 : get_view s3 = Z.max (get_view (liveness_storage p2)) (pm_view p2))
    by apply ls_increase_view_view.
  exists (pm_set_storage s3 p2), leader. split; [done|]. split; [done|].
  split. { change (pm_sent p2 = pm_sent p ++ timeout_messages p (timeout_view + 1) leader).
    rewrite Hsent. change (pm_sent p1) with (pm_sent p ++ [PE_Timeout (Context_broadcast (pm_id p) (pm_view p)) tc]).
    rewrite <-app_assoc, Hq1. done. }
  split. { change (get_view s3 = Z.max (get_view (liveness_storage p)) (timeout_view + 1)).
    rewrite Hv3, Hv2, Hview, Hv1. lia. }
  split; [done|]. split; [done|]. split; [done|].
  unfold sync_cas. change (pm_sync_state (pm_set_storage s3 p2)) with (pm_sync_state p2).
  rewrite Hsync. change (pm_sync_state p1) with (pm_sync_state p).
  destruct (_ =? _); [|done]. f_equal.
  change (ls_get_leaf (liveness_storage (pm_set_sync SYNC_IDLE (pm_set_storage s3 p2))))
    with (ls_get_leaf s3). rewrite Hf3, Hf2, Hf1. done.
Qed.

(** C24. A timeout for the largest view wraps in a release build: the view does not
    change, the timer is armed for view 0 only, and that timeout will be ignored, so the
    replica has no timer left. *)
Theorem process_local_timeout_overflow p :
  round_mapper (pm_elector p) <> [] -> 0 < pm_view p < 2 ^ 64 ->
  pm_sync_state p = SYNC_IDLE ->
  exists p', process_local_timeout p (2 ^ 64 - 1) = Ret p' /\
    pm_view p' = pm_view p /\ timer_only_armed (pm_timer p') 0 /\
    process_timeout_event p' (ViewTimeout 0) = Ret p'.
Proof.
  intros Hne Hb Hidle. unfold process_local_timeout.
  destruct (Z.leb_spec (pm_view p) (2 ^ 64 - 1)); [|lia].
  set (tc := sign_tc p _ _). set (s1 := (append_tc (liveness_storage p) tc).1).
  set (p1 := emit_peer_event (pm_set_storage s1 p) _).
  change (wrap64 (2 ^ 64 - 1 + 1)) with 0.
  destruct (goto_new_view_spec p1 0 Hne) as (p2 & leader & Hgo & _ & Hview & Ht & _
    & _ & _ & _ & Hsync & _).
  change (pm_view p1) with (pm_view p) in *. rewrite Z.max_l in Hview by lia.
  rewrite Hgo. cbn [mbind outcome_bind]. unfold sync_cas.
  change (pm_sync_state (pm_set_storage _ p2)) with (pm_sync_state p2).
  rewrite Hsync. change (pm_sync_state p1) with (pm_sync_state p). rewrite Hidle.
  change (SYNC_IDLE =? SYNC_SYNCHRONIZING) with false. cbn iota.
  eexists. split; [done|]. split; [done|]. split; [done|].
  cbn [process_timeout_event]. unfold process_local_timeout.
  change (pm_view (pm_set_storage _ p2)) with (pm_view p2).
  destruct (Z.leb_spec (pm_view p2) 0); [lia|done].
Qed.

(** A pacemaker started over a store that is already in a later view begins in view 1
    while the store keeps its view, and the proposals it makes carry the view of the
    store. *)
Theorem restarted_pacemaker_view id elector (m : Machine St) sg p' :
  1 <= get_view (m_storage m) ->
  loop_start (Pacemaker_new id elector m sg) = Ret p' ->
  pm_view p' = 1 /\ get_view (liveness_storage p') = get_view (m_storage m) /\
  forall cmds, node_height (Machine_make_leaf (pm_machine p') cmds) = get_view (m_storage m).
Proof.
  intros Hv Hrun. unfold loop_start in Hrun. inv_ret. subst.
  set (p0 := Pacemaker_new id elector m sg) in *.
  assert (Hne : round_mapper (pm_elector p0) <> []).
  { intros E'. unfold goto_new_view in E. inv_ret.
    match goal with El : get_leader _ _ = Ret ?l |- _ =>
      change (get_leader (pm_elector p0) 1 = Ret l) in El;
      unfold get_leader, view_hash in El; rewrite E' in El; discriminate El end. }
  destruct (goto_new_view_spec p0 1 Hne) as (p2 & leader & Hgo & _ & Hview & _ & _ & Hv2 & _).
  rewrite Hgo in E. inv_ret. subst. change (Z.max (pm_view p0) 1) with 1 in *.
  change (liveness_storage p0) with (m_storage m) in Hv2. rewrite Z.max_l in Hv2 by lia.
  split; [done|]. split; [done|]. intros cmds. exact Hv2.
Qed.

(** ** Pending proposals and synchronisation *)

(** The pending events with the views they were pushed with. *)
Definition wrapped (pending : list (Z * SafetyEvent)) : list SafetyEventWrapper :=
  (fun vse => SafetyEventWrapper_from vse.1 vse.2) <$> pending.

(** What the machine's answer adds to the queue. *)
Definition ready_of (r : result Ready SafetyErr) : list Ready :=
  match r with Ok Nil | Err _ => [] | Ok rd => [rd] end.

Lemma emit_safety_event_spec p se m r :
  Machine_process_safety_event (pm_machine p) se = Ret (m, r) ->
  emit_safety_event p se =
    Ret (pm_set_ready (pm_ready_queue p ++ ready_of r) (pm_set_machine m p)).
Proof.
  intros Hm. unfold emit_safety_event. rewrite Hm. cbn [mbind outcome_bind].
  destruct r as [[]|]; cbn [ready_of]; try done; rewrite app_nil_r; by destruct p.
Qed.

(** The lowest pending view comes out first, the rest stays. *)
Lemma heap_pop_wrapped pending sw rest :
  Forall (fun vse => 0 <= vse.1 < 2 ^ 63) pending -> heap_pop (wrapped pending) = Some (sw, rest) ->
  exists v se others, pending ≡ₚ (v, se) :: others /\ (forall w se', (w, se') ∈ others -> v <= w) /\
    rest ≡ₚ wrapped others /\ sw_justify_view sw = v /\ sw_se sw = se /\ sw :: rest ≡ₚ wrapped pending.
Proof.
  intros Hwf Hpop. destruct (heap_pop_lowest_view _ _ _ Hwf Hpop) as (v & se & Hin & -> & Hv & Hmin & Hp).
  apply elem_of_Permutation in Hin as [others Ho]. exists v, se, others. split_and!; try done.
  - intros w se' Hw. apply (Hmin w se'). rewrite Ho. by right.
  - unfold wrapped. rewrite Ho in Hp. cbn in Hp. by apply Permutation.Permutation_cons_inv in Hp.
Qed.

(** C22. When proposals are pending, with certificate views below 2^63 and some replica
    configured, check_pending_prop picks one whose certificate view is lowest among them.
    If the leaf has reached that view the proposal is handed to the machine and no longer
    pending, and the machine's answer is queued; otherwise all of them stay pending and a
    synchronisation request from the leaf height goes to the leader of the current view,
    and the synchronisation is marked as under way, exactly when none was under way. *)
Theorem check_pending_prop_spec p (leaf_height : ViewNumber) (pending : list (Z * SafetyEvent)) :
  round_mapper (pm_elector p) <> [] -> pm_pending_prop p = wrapped pending ->
  Forall (fun vse => 0 <= vse.1 < 2 ^ 63) pending -> pending <> [] ->
  exists v se others, pending ≡ₚ (v, se) :: others /\ (forall w se', (w, se') ∈ others -> v <= w) /\
    if v <=? leaf_height then
      forall m r, Machine_process_safety_event (pm_machine p) se = Ret (m, r) ->
        exists p', check_pending_prop p leaf_height = Ret p' /\ pm_machine p' = m /\
          pm_pending_prop p' ≡ₚ wrapped others /\ pm_ready_queue p' = pm_ready_queue p ++ ready_of r /\
          pm_sent p' = pm_sent p /\ pm_view p' = pm_view p /\ pm_sync_state p' = pm_sync_state p
    else
      exists p', check_pending_prop p leaf_height = Ret p' /\
        pm_pending_prop p' ≡ₚ pm_pending_prop p /\ pm_machine p' = pm_machine p /\
        pm_view p' = pm_view p /\ pm_ready_queue p' = pm_ready_queue p /\
        if pm_sync_state p =? SYNC_IDLE then
          pm_sync_state p' = SYNC_SYNCHRONIZING /\
          exists leader, get_leader (pm_elector p) (pm_view p) = Ret leader /\
            pm_sent p' = pm_sent p ++
              [PE_BranchSyncRequest (Context_single (pm_id p) leader (pm_view p))
                 (Grow leaf_height BATCH_SIZE)]
        else pm_sync_state p' = pm_sync_state p /\ pm_sent p' = pm_sent p.
Proof.
  intros Hne Hpend Hwf Hnil. unfold check_pending_prop.
  destruct (heap_pop (pm_pending_prop p)) as [[sw rest]|] eqn:E.
  2:{ apply heap_pop_None in E. rewrite Hpend in E. by apply fmap_nil_inv in E. }
  rewrite Hpend in E. destruct (heap_pop_wrapped _ _ _ Hwf E) as (v & se & others & Ho & Hmin & Hr & Hv & Hse & Hp).
  exists v, se, others. split; [done|]. split; [done|]. rewrite Hv, Hse. destruct (v <=? leaf_height).
  - intros m r Hm. rewrite (emit_safety_event_spec (pm_set_pending rest p) se m r Hm).
    eexists. split; [done|]. by split_and!.
  - unfold sync_cas.
    change (pm_sync_state (pm_set_pending _ (pm_set_pending rest p))) with (pm_sync_state p).
    rewrite <-Hpend in Hp. destruct (pm_sync_state p =? SYNC_IDLE).
    + destruct (get_leader_total (pm_elector p) (pm_view p) Hne) as (leader & Hl & _).
      change (get_leader (pm_elector (pm_set_sync _ _)) _) with (get_leader (pm_elector p) (pm_view p)).
      rewrite Hl. cbn [mbind outcome_bind]. eexists. split; [done|].
      split_and!; try done. by exists leader.
    + eexists. split; [done|]. by split_and!.
Qed.

(** ** Proposals *)

(** C21. A proposal is made exactly when more new-view messages than the threshold were
    received for the current view; it carries the given transactions and goes to everyone;
    and the messages are used up: the next attempt in the same view makes none. *)
Theorem make_new_proposal_spec p (cmds : list Txn) :
  exists p' r, make_new_proposal p cmds = Ret (p', r) /\
    pm_view p' = pm_view p /\
    if map_len (nv (liveness_storage p) (pm_view p)) <=? get_threshold (liveness_storage p)
    then r = None /\ forall w, nv (liveness_storage p') w = nv (liveness_storage p) w
    else
      (exists ctx prop, r = Some (NewProposal ctx prop) /\ node_txs prop = cmds /\
         ctx_to ctx = Broadcast) /\
      (0 <= pm_view p < 2 ^ 64 - 1 ->
         nv (liveness_storage p') (pm_view p) = ∅ /\
         forall cmds', exists p'', make_new_proposal p' cmds' = Ret (p'', None)).
Proof.
  unfold make_new_proposal. destruct (new_view_set (liveness_storage p) (pm_view p)) as [s set] eqn:E.
  assert (Hset : set = nv (liveness_storage p) (pm_view p)) by (unfold nv; by rewrite E).
  assert (Hs : forall w, nv s w = nv (liveness_storage p) w).
  { intros w. change s with (s, set).1. rewrite <-E. apply nv_set. }
  rewrite Hset. destruct (map_len _ <=? get_threshold (liveness_storage p)).
  - do 2 eexists. split; [done|]. split; [done|]. split; [done|]. exact Hs.
  - set (p1 := pm_set_storage (clean_new_view_set _ _) _).
    unfold Machine_on_beat. do 2 eexists. split; [done|]. split; [done|].
    split; [do 2 eexists; split_and!; done|]. intros Hb.
    match goal with |- nv ?s2 _ = ∅ /\ _ => assert (He : nv s2 (pm_view p) = ∅) end.
    { cbn -[nv Machine_make_leaf]. rewrite nv_update_leaf, nv_clean.
      rewrite wrap64_small by (unfold u64_ok; simpl; lia). case_decide; [simpl in *; lia|done]. }
    split; [exact He|]. intros cmds'.
    match goal with |- exists p'', (let '(s, set) := new_view_set ?s2 _ in _) = _ =>
      destruct (new_view_set s2 (pm_view p)) as [s3 set3] eqn:E3;
      assert (H3 : set3 = ∅) by (rewrite <-He; unfold nv; by rewrite E3);
      pose proof (get_threshold_nonneg s2) as Hth end.
    match goal with |- context [pm_view (pm_set_machine ?m ?q)] =>
      change (pm_view (pm_set_machine m q)) with (pm_view p) end.
    rewrite E3, H3. unfold map_len. rewrite map_size_empty.
    match goal with |- context [?a <=? ?b] => destruct (Z.leb_spec a b); [by eexists|lia] end.
Qed.
End PacemakerViews.
