(* ===== verification/PacemakerHss.v ===== *)
(** * The pacemaker over the HotStuff store

    [append_tc] queues a certificate for the database and then looks at [tc_map],
    which nothing ever fills: so the timeouts of the peers, however many, never
    move a replica that started with an empty map. *)

From S2P Require Import Prelude Crypto HsData CryptoKit Voter SafetyStorage Machine.
From S2P Require Import LivenessData StorageContract Persistor Hss HssSafety HssReach.
From S2P Require Import HssLiveness HssContract Elector Timer Pacemaker.
From S2P Require Import PacemakerSafety.

Section PacemakerHss.
Context `{TC : ThresholdCrypto} {C : Codec} {F : Fnv} {Env : PacemakerEnv}.

Implicit Types (s : HotstuffStorage) (p : Pacemaker HotstuffStorage).

(** The invariant of the store, with no timeout certificate counted. *)
Definition HSS_inv_no_tc s : Prop := HSS_inv s /\ hss_tc_map s = ∅.

Lemma HSS_update_qc_high_tc_map s n qc : hss_tc_map (HSS_update_qc_high s n qc) = hss_tc_map s.
Proof. by destruct (HSS_update_qc_high_cases s n qc) as [->| ->]. Qed.

Lemma HSS_commit_tc_map s n : hss_tc_map (HSS_commit s n) = hss_tc_map s.
Proof. unfold HSS_commit. by destruct (_ <=? _). Qed.

#[local] Instance HSS_no_tc_SafetyStorageLaws : SafetyStorageLaws HotstuffStorage HSS_inv_no_tc.
Proof.
  destruct HSS_SafetyStorageLaws. split; try done;
    try (intros s ? [Hi Ht]; split; [eauto|first [done|by apply HSS_commit_tc_map]]; fail).
  - intros s n [Hi _]. auto.
  - intros s n qc [Hi Ht]. split; [eauto|]. simpl. by rewrite HSS_update_qc_high_tc_map.
  - intros s n [Hi Ht]. split; [eauto|]. simpl. by rewrite HSS_commit_tc_map.
Qed.

Lemma HSS_append_tc_no_tc s tc :
  hss_tc_map s = ∅ ->
  hss_tc_map (HSS_append_tc s tc).1 = ∅ /\
  (HSS_append_tc s tc).2 = Ok (Z.max 0 (HSS_get_view s - 1)).
Proof.
  intros Hs. unfold HSS_append_tc, HSS_compress_tc, tc_views_reached.
  destruct (tc_view_sign tc); simpl; rewrite Hs, map_to_list_empty; done.
Qed.

Lemma HSS_flush_tc_map s s' r : HSS_flush s = Ret (s', r) -> hss_tc_map s' = hss_tc_map s.
Proof.
  unfold HSS_flush, HSS_async_flush. intros H.
  destruct (hss_dirty s); cbn [negb] in H; [|by inv_ret].
  destruct (hss_backend s); [|by inv_ret]. inv_ret. by subst.
Qed.

#[local] Instance HSS_no_tc_LivenessStorageLaws : LivenessStorageLaws HSS_inv_no_tc.
Proof.
  destruct HSS_LivenessStorageLaws. split; try done; try (by eauto).
  - intros s tc [Hi Ht]. split; [auto|]. by apply HSS_append_tc_no_tc.
  - intros s v [Hi Ht]. split; [auto|done].
  - intros s v r qc [Hi Ht]. split; [auto|done].
  - intros s v [Hi Ht]. split; [auto|done].
  - intros s s' r H [Hi Ht]. split; [eauto|]. by rewrite (HSS_flush_tc_map s s' r).
  - intros s n qc [Hi Ht]. split; [auto|]. simpl. by rewrite HSS_update_qc_high_tc_map.
  - intros s v [Hi Ht]. split; [auto|done].
Qed.

(** C23. After any session of a replica that started without counted timeout certificates,
    a timeout certificate of a peer only ends up in the queues of the store: no
    certificate is ever counted, so the timeouts of the other replicas, however many,
    never move the replica to another view. *)
Theorem peer_timeouts_never_advance p end_fn turns p' ctx tc :
  HSS_inv (liveness_storage p) -> hss_tc_map (liveness_storage p) = ∅ ->
  HSS_get_view (liveness_storage p) = pm_view p -> 0 <= pm_view p ->
  event_loop_with_functions p end_fn turns = Ret p' ->
  exists s', process_network_event p' (PE_Timeout ctx tc) = Ret (pm_set_storage s' p') /\
    hss_state s' = hss_state (liveness_storage p') /\ hss_tc_map s' = ∅.
Proof.
  intros Hi Ht Hv Hpos H. assert (Hpi : pm_inv HSS_inv_no_tc p) by (split; [by split|exact Hv]).
  apply (event_loop_with_functions_le HSS_inv_no_tc) in H as [[_ _ _ H] Hge]; [|done].
  destruct (H Hpi) as [[_ Ht'] Hv'].
  exists (HSS_append_tc (liveness_storage p') tc).1.
  destruct (HSS_append_tc_no_tc (liveness_storage p') tc Ht') as [Hmap Hres].
  destruct (HSS_append_tc_frame (liveness_storage p') tc) as [Hst _].
  split; [|done]. cbn [process_network_event append_tc HSS_LivenessStorage].
  destruct (HSS_append_tc (liveness_storage p') tc) as [s' r]. cbn [fst snd] in *. subst r.
  change (pm_view (pm_set_storage s' p')) with (pm_view p').
  change (get_view (liveness_storage p')) with (HSS_get_view (liveness_storage p')) in Hv'.
  destruct (Z.ltb_spec (pm_view p') (Z.max 0 (HSS_get_view (liveness_storage p') - 1))); [lia|done].
Qed.
End PacemakerHss.
