(* ===== verification/RoundStore.v ===== *)
(** * The store of a replica in a round of the protocol

    What receiving, synchronising and voting for the next proposal of a certified chain
    does to the store, from any position of leaf, lock and last commit: the step that
    [Cluster] repeats for every replica and every view. *)

From S2P Require Import Prelude Walk Crypto HsData CryptoKit Voter SafetyStorage Machine.
From S2P Require Import MachineSafety MachineSync LivenessData Persistor Hss HssSafety.
From S2P Require Import HssWalk HssReach HssLiveness ChainRun.

Section RoundStore.
Context `{TC : ThresholdCrypto} {C : Codec}.

Implicit Types (s : HotstuffStorage) (n p : TreeNode) (m : Machine HotstuffStorage).

(** ** What the machine leaves alone *)

(** Configuration, backend, new-view messages and view. *)
Record store_frame s s' : Prop := {
  sf_conf : hss_conf s' = hss_conf s;
  sf_backend : hss_backend s' = hss_backend s;
  sf_new_views : hss_new_view_set s' = hss_new_view_set s;
  sf_view : HSS_get_view s' = HSS_get_view s;
}.

#[global] Instance store_frame_preorder : PreOrder store_frame.
Proof. split; [by split|]. intros s1 s2 s3 [] []. split; congruence. Qed.

Lemma update_qc_high_store_frame s n qc : store_frame s (HSS_update_qc_high s n qc).
Proof. by destruct (HSS_update_qc_high_cases s n qc) as [->| ->]. Qed.

Lemma commit_store_frame s n : store_frame s (HSS_commit s n).
Proof. unfold HSS_commit. by destruct (_ <=? _). Qed.

Lemma append_store_frame m p : store_frame (m_storage m) (m_storage (Machine_append m p)).
Proof. done. Qed.

(** The certificate step alone decides [qc_high]. *)
Lemma update_nodes_store_frame m p m' r :
  Machine_update_nodes m p = Ret (m', r) ->
  store_frame (m_storage m) (m_storage m') /\
  HSS_get_qc_high (m_storage m') = HSS_get_qc_high (m_storage (qc_step m p)).
Proof.
  rewrite update_nodes_unfold. cbn zeta. intros H.
  assert (Hq : store_frame (m_storage m) (m_storage (qc_step m p))).
  { unfold qc_step. destruct (_ !! 0%nat); [apply update_qc_high_store_frame|done]. }
  assert (Hl : store_frame (m_storage (qc_step m p)) (m_storage (locked_step m p)) /\
    HSS_get_qc_high (m_storage (locked_step m p)) = HSS_get_qc_high (m_storage (qc_step m p))).
  { unfold locked_step, lock_step. destruct (_ !! 1%nat); [|done]. by destruct (_ <? _). }
  destruct Hl as [Hl Hlq].
  destruct (is_consecutive_three_chain _ _); inv_ret; [|split; [by etransitivity|done]].
  unfold Machine_on_commit in H. inv_ret. cbn [m_storage set_storage].
  split; [etransitivity; [exact Hq|]; etransitivity; [exact Hl|]; apply commit_store_frame|].
  rewrite <-Hlq. cbn [commit HSS_SafetyStorage]. unfold HSS_commit. by destruct (_ <=? _).
Qed.

(** ** One proposal, at any position *)

Section Chain.
Context (pks : PK) (l : list TreeNode).
Let full : list TreeNode := INIT_NODE :: l.
Context (Hchain : certified_chain pks INIT_NODE l) (Hok : chain_hashes_ok full).

(** What [update_nodes] makes of the certificate of the proposal at [S i]. *)
Lemma fed_qc_step k x y z m i p :
  fed l k x y z (m_storage m) -> (i <= k)%nat -> full !! S i = Some p ->
  HSS_get_qc_high (m_storage (qc_step m p)) =
    (if decide (x < i)%nat then node_justify p else HSS_get_qc_high (m_storage m)) /\
  HSS_get_vheight (m_storage (qc_step m p)) =
    if decide (x < i)%nat then chain_height l i else HSS_get_vheight (m_storage m).
Proof.
  intros Hf Hi Hp. destruct (full_pred l _ _ Hp) as [b3 H3].
  unfold qc_step. cbn [find_three_chain HSS_SafetyStorage]. unfold HSS_find_three_chain.
  rewrite (fed_justify _ _ Hchain _ _ _ _ _ i b3 p Hf Hi H3 Hp).
  cbn [lookup list_lookup m_storage set_storage update_qc_high HSS_SafetyStorage].
  unfold HSS_update_qc_high. rewrite (fs_qc_high _ _ _ _ _ _ Hf).
  rewrite (fs_get _ _ _ _ _ _ Hf _ _ (fs_leaf _ _ _ _ _ _ Hf) (fs_leaf_le _ _ _ _ _ _ Hf)).
  rewrite (full_height l _ _ H3), (full_height l _ _ (fs_leaf _ _ _ _ _ _ Hf)).
  rewrite (height_ltb _ _ Hchain _ _ _ _ (fs_leaf _ _ _ _ _ _ Hf) H3).
  destruct (Nat.ltb_spec x i); [rewrite !decide_True by lia|by rewrite !decide_False by lia].
  split; [done|]. exact (full_height l _ _ H3).
Qed.

(** [update_nodes] with everything it changes. *)
Lemma fed_take k x y z m i p :
  fed l k x y z (m_storage m) -> (i <= k)%nat -> full !! S i = Some p ->
  exists s r, Machine_update_nodes m p = Ret (set_storage m s, r) /\
    fed l k (x `max` i) (y `max` (i - 1)) (z `max` (i - 2)) s /\ store_frame (m_storage m) s /\
    HSS_get_qc_high s = (if decide (x < i)%nat then node_justify p else HSS_get_qc_high (m_storage m)) /\
    HSS_get_vheight s = if decide (x < i)%nat then chain_height l i else HSS_get_vheight (m_storage m).
Proof.
  intros Hf Hi Hp. destruct (fed_qc_step _ _ _ _ _ _ _ Hf Hi Hp) as [Hq Hv].
  destruct (fed_update_nodes_at _ _ Hchain Hok _ _ _ _ m i p Hf Hi Hp) as (s & r & Hup & Hf').
  exists s, r. split; [done|]. split; [done|].
  destruct (update_nodes_store_frame _ _ _ _ Hup) as [Hfr Hqc]. apply update_nodes_vheight in Hup.
  cbn [m_storage set_storage] in *. split; [done|]. split; congruence.
Qed.

Lemma fed_conflict_free k x y z s i p :
  fed l k x y z s -> (i <= k)%nat -> (y <= S i)%nat -> full !! S i = Some p ->
  HSS_is_conflicting s p (HSS_get_locked_node s) = Some false.
Proof.
  intros Hf Hi Hy Hp. pose proof (fs_locked _ _ _ _ _ _ Hf) as Hl.
  unfold HSS_is_conflicting.
  rewrite (full_height l _ _ Hp), (full_height l _ _ Hl), (height_leb _ _ Hchain _ _ _ _ Hl Hp).
  destruct (Nat.leb_spec y (S i)); [|lia].
  destruct (fed_path _ _ Hchain _ _ _ _ s (S i) y _ _ Hf Hy ltac:(lia) Hp Hl) as [ks Hks].
  rewrite (path_conflict_walk _ _ _ _ _ _ Hks (path_length _ _ _ _ _ Hks)).
  f_equal. apply bool_decide_eq_false. intros Hn. by apply Hn.
Qed.

Lemma fed_accepts_iff k x y z m i p prev :
  fed l k x y z (m_storage m) -> (i <= k)%nat -> (y <= S i)%nat -> full !! S i = Some p ->
  Machine_accepts m p prev = Ret (HSS_get_vheight (m_storage m) <? chain_height l (S i)).
Proof.
  intros Hf Hi Hy Hp. unfold Machine_accepts, Machine_safe_node.
  cbn [get_vheight get_locked_node is_conflicting HSS_SafetyStorage].
  rewrite (fed_conflict_free _ _ _ _ _ _ _ Hf Hi Hy Hp), (full_height l _ _ Hp).
  by destruct (_ <? _).
Qed.

Lemma fed_qc_accepted k x y z m i p :
  fed l k x y z (m_storage m) -> ds_pks (v_signature (m_voter m)) = pks -> (i <= k)%nat ->
  full !! S i = Some p -> qc_accepted m (node_justify p).
Proof.
  intros Hf Hpk Hi Hp. destruct (full_pred l _ _ Hp) as [b3 H3].
  destruct (full_succ _ _ Hchain _ _ _ H3 Hp) as (_ & _ & _ & Hver).
  exists b3. split; [exact (fed_justify _ _ Hchain _ _ _ _ _ i b3 p Hf Hi H3 Hp)|].
  destruct Hver as [?|?]; [by left|right]. cbn. unfold DefaultSignaturer_validate_qc. by rewrite Hpk.
Qed.

(** The next proposal is voted for, also when it is stored already. *)
Lemma fed_vote K x y z m k ctx p :
  fed l K x y z (m_storage m) -> ds_pks (v_signature (m_voter m)) = pks ->
  (k <= K <= S k)%nat -> (y <= S k)%nat -> full !! S k = Some p ->
  HSS_get_vheight (m_storage m) <= chain_height l k ->
  exists s, Machine_process_safety_event m (RecvProposal ctx p)
            = Ret (set_storage m s, Ok (vote_ready m ctx p)) /\
    fed l (S k) (x `max` k) (y `max` (k - 1)) (z `max` (k - 2)) s /\ store_frame (m_storage m) s /\
    HSS_get_qc_high s = if decide (x < k)%nat then node_justify p else HSS_get_qc_high (m_storage m).
Proof.
  intros Hf Hpk HK Hy Hp Hvh. destruct (full_pred l _ _ Hp) as [b3 H3].
  pose proof (fed_append_at _ _ Hchain Hok _ _ _ _ m (S k) p Hf Hp ltac:(lia)) as Hf1.
  replace (K `max` S k)%nat with (S k) in Hf1 by lia.
  destruct (fed_take _ _ _ _ (Machine_append m p) k p Hf1 ltac:(lia) Hp)
    as (s & r & Hup & Hf2 & Hfr & Hq & _).
  exists s. split; [|split; [done|]; split; [exact (transitivity (append_store_frame m p) Hfr)|exact Hq]].
  apply (recv_accepted HSS_inv) with (prev := b3) (rd := r).
  - apply (fed_qc_accepted K x y z m k); [done|done|lia|done].
  - exact (fed_justify _ _ Hchain _ _ _ _ _ k b3 p Hf ltac:(lia) H3 Hp).
  - rewrite (fed_accepts_iff K x y z m k p b3 Hf ltac:(lia) Hy Hp).
    pose proof (height_lt _ _ Hchain _ _ _ _ H3 Hp).
    by destruct (Z.ltb_spec (HSS_get_vheight (m_storage m)) (chain_height l (S k))); [|lia].
  - exact Hup.
Qed.

(** ** A synchronised branch *)

Lemma fed_sync_one k x y z m i p :
  fed l k x y z (m_storage m) -> ds_pks (v_signature (m_voter m)) = pks ->
  (i <= k)%nat -> (y <= S i)%nat -> full !! S i = Some p ->
  HSS_get_vheight (m_storage m) <= chain_height l i \/ (S i <= k)%nat ->
  Machine_verify_proposal m (node_justify p) = Ok Nil /\
  exists s, Machine_sync_one m p = Ret (set_storage m s) /\
    fed l (k `max` S i) (x `max` i) (y `max` (i - 1)) (z `max` (i - 2)) s /\
    store_frame (m_storage m) s /\
    HSS_get_qc_high s = (if decide (x < i)%nat then node_justify p else HSS_get_qc_high (m_storage m)) /\
    ((x < i)%nat -> HSS_get_vheight s = chain_height l i).
Proof.
  intros Hf Hpk Hi Hy Hp Hcase. destruct (full_pred l _ _ Hp) as [b3 H3].
  pose proof (fed_qc_accepted _ _ _ _ m i p Hf Hpk Hi Hp) as Hqa.
  split; [by destruct (verify_proposal_spec m (node_justify p)) as [[_ ?]|[? _]]|].
  pose proof (fed_justify _ _ Hchain _ _ _ _ _ i b3 p Hf Hi H3 Hp) as Hg.
  unfold Machine_sync_one. cbn [get_node HSS_SafetyStorage]. unfold HSS_get_node. rewrite Hg.
  rewrite (fed_accepts_iff _ _ _ _ m i p b3 Hf Hi Hy Hp). cbn [mbind outcome_bind].
  pose proof (height_lt _ _ Hchain _ _ _ _ H3 Hp) as Hh.
  destruct (Z.ltb_spec (HSS_get_vheight (m_storage m)) (chain_height l (S i))) as [Hlt|Hge].
  - pose proof (fed_append_at _ _ Hchain Hok _ _ _ _ m (S i) p Hf Hp ltac:(lia)) as Hf1.
    destruct (fed_take _ _ _ _ (Machine_append m p) i p Hf1 ltac:(lia) Hp)
      as (s & r & -> & Hf2 & Hfr & Hq & Hv).
    exists s. split_and!; [done|exact Hf2|exact (transitivity (append_store_frame m p) Hfr)|exact Hq|]. intros Hx. by rewrite decide_True in Hv.
  - destruct Hcase as [?|Hk]; [lia|]. replace (k `max` S i)%nat with k by lia.
    destruct (fed_take _ _ _ _ m i p Hf Hi Hp) as (s & r & -> & Hf2 & Hfr & Hq & Hv).
    exists s. split_and!; [done..|]. intros Hx. by rewrite decide_True in Hv.
Qed.

(** A replica whose leaf is one behind the certificate of the new proposal [p] is sent the
    certified proposal [a] and [p]: it has then taken the certificate, and its vote height
    allows it to vote for [p]. *)
Lemma fed_sync_pair k y z m ctx a p :
  fed l (S k) k y z (m_storage m) -> ds_pks (v_signature (m_voter m)) = pks ->
  (y <= S k)%nat -> full !! S k = Some a -> full !! S (S k) = Some p ->
  exists s, Machine_process_safety_event m (BranchSync ctx [a; p])
            = Ret (set_storage m s, Ok (BranchSyncDone a)) /\
    fed l (S (S k)) (S k) (y `max` k) (z `max` (k - 1)) s /\ store_frame (m_storage m) s /\
    HSS_get_qc_high s = node_justify p /\ HSS_get_vheight s = chain_height l (S k).
Proof.
  intros Hf Hpk Hy Ha Hp.
  destruct (fed_sync_one _ _ _ _ m k a Hf Hpk ltac:(lia) Hy Ha) as (Hv1 & s1 & H1 & Hf1 & Hfr1 & Hq1 & _);
    [by right|].
  replace (S k `max` S k)%nat with (S k) in Hf1 by lia.
  assert (Hvh : HSS_get_vheight (m_storage (set_storage m s1)) <= chain_height l (S k)) by apply (fs_vheight _ _ _ _ _ _ Hf1).
  destruct (fed_sync_one _ _ _ _ (set_storage m s1) (S k) p Hf1 Hpk ltac:(lia) ltac:(lia) Hp)
    as (Hv2 & s2 & H2 & Hf2 & Hfr2 & Hq2 & Hvh2); [by left|].
  rewrite decide_True in Hq2 by lia. specialize (Hvh2 ltac:(lia)).
  replace (S k `max` S (S k))%nat with (S (S k)) in Hf2 by lia.
  replace ((k `max` k) `max` S k)%nat with (S k) in Hf2 by lia.
  replace ((y `max` (k - 1)) `max` (S k - 1))%nat with (y `max` k)%nat in Hf2 by lia.
  replace ((z `max` (k - 2)) `max` (S k - 2))%nat with (z `max` (k - 1))%nat in Hf2 by lia.
  assert (El : HSS_get_leaf s2 = a) by (pose proof (fs_leaf _ _ _ _ _ _ Hf2) as E; unfold full in Ha; congruence).
  exists s2. cbn [Machine_process_safety_event]. unfold Machine_on_branch_sync.
  cbn [Machine_branch_loop]. rewrite Hv1, H1. cbn [is_ok negb mbind outcome_bind].
  rewrite Hv2, H2. cbn [is_ok negb mbind outcome_bind].
  split; [cbn [get_leaf HSS_SafetyStorage m_storage set_storage]; by rewrite El|].
  split; [done|]. split; [by etransitivity|]. split; [exact Hq2|exact Hvh2].
Qed.

(** ** The store of the leader *)

(** A leader whose leaf is certified and that has made the next proposal has, once it
    takes a certificate of that proposal, stored one proposal more and certified it. *)
Lemma fed_certified k y z s p qc :
  fed l k k y z s -> full !! S k = Some p -> qc_node qc = TreeNode_hash p ->
  let s' := HSS_update_qc_high (HSS_update_leaf s p) p qc in
  fed l (S k) (S k) y z s' /\ HSS_get_qc_high s' = qc /\ store_frame s s'.
Proof.
  intros Hf Hp Hqc s'.
  pose proof (fed_append_at _ _ Hchain Hok _ _ _ _ (Machine_new (Voter_new 0 (hss_signaturer s)) EmptyString 0 None s)
    (S k) p Hf Hp ltac:(lia)) as Hf1.
  replace (k `max` S k)%nat with (S k) in Hf1 by lia.
  assert (Hold : HSS_get (HSS_update_leaf s p) (qc_node (HSS_get_qc_high s)) = Some (HSS_get_leaf s)).
  { change (HSS_get (HSS_insert s (TreeNode_hash p) p) (qc_node (HSS_get_qc_high s)) = Some (HSS_get_leaf s)).
    rewrite (fs_qc_high _ _ _ _ _ _ Hf), HSS_insert_get. case_decide as He.
    - destruct (full_hash_inj _ Hok _ _ _ _ Hp (fs_leaf _ _ _ _ _ _ Hf) He) as [E _]. lia.
    - exact (fs_get _ _ _ _ _ _ Hf _ _ (fs_leaf _ _ _ _ _ _ Hf) (fs_leaf_le _ _ _ _ _ _ Hf)). }
  assert (E : s' = HSS_set_dirty (HSS_append_new_qc (HSS_update_leaf
    (set_state (state_with_qc_high (hss_state (HSS_update_leaf s p)) qc) (HSS_update_leaf s p)) p) qc)).
  { unfold s', HSS_update_qc_high.
    change (HSS_get_qc_high (HSS_update_leaf s p)) with (HSS_get_qc_high s). rewrite Hold.
    rewrite (full_height l _ _ Hp), (full_height l _ _ (fs_leaf _ _ _ _ _ _ Hf)).
    rewrite (height_ltb _ _ Hchain _ _ _ _ (fs_leaf _ _ _ _ _ _ Hf) Hp).
    by destruct (Nat.ltb_spec k (S k)); [|lia]. }
  rewrite E. split; [|done].
  assert (Hq : hss_in_mem_queue (HSS_update_leaf (HSS_update_leaf s p) p) =
    hss_in_mem_queue (HSS_append_new_node s p)).
  { cbn [hss_in_mem_queue HSS_update_leaf HSS_append_new_node HSS_set_dirty set_dirty_flag HSS_insert
      set_queues set_in_mem_queue set_state]. by rewrite insert_insert_eq. }
  destruct Hf1 as [[Hk Hcm] Hg Ho _ _ _ _ Hlk Hc Hlen]. split; try done.
  - split; [|exact Hcm]. intros h n Hn. apply (Hk h n).
    change (hss_in_mem_queue (HSS_append_new_node s p) !! h = Some n). rewrite <-Hq. exact Hn.
  - intros i n Hn Hi. rewrite <-(Hg i n Hn Hi).
    change (hss_in_mem_queue (HSS_update_leaf (HSS_update_leaf s p) p) !! TreeNode_hash n =
            hss_in_mem_queue (HSS_append_new_node s p) !! TreeNode_hash n). by rewrite Hq.
  - intros h n Hn. apply (Ho h n).
    change (hss_in_mem_queue (HSS_append_new_node s p) !! h = Some n). rewrite <-Hq. exact Hn.
  - change (node_height p <= chain_height l (S k)). by rewrite (full_height l _ _ Hp).
Qed.

Lemma stored_values_NoDup s : HSS_inv s -> NoDup (map_values (hss_in_mem_queue s)).
Proof.
  intros [Hk _]. apply (NoDup_fmap_1 TreeNode_hash). unfold map_values. rewrite <-list_fmap_compose.
  replace (_ <$> map_to_list (hss_in_mem_queue s)) with (map_to_list (hss_in_mem_queue s)).*1;
    [apply NoDup_fst_map_to_list|].
  apply list_fmap_ext. intros i [h n] Hn. apply list_elem_of_lookup_2, elem_of_map_to_list in Hn.
  symmetry. exact (Hk h n Hn).
Qed.

(** The branch that a replica two behind is sent. *)
Lemma fed_fetch_pair k x y z s a p batch :
  fed l (S k) x y z s -> full !! S k = Some a -> full !! S (S k) = Some p ->
  HSS_fetch_branch (HSS_update_leaf s p) (Grow (chain_height l k) batch) = Ok {| bd_data := [a; p] |}.
Proof.
  intros Hf Ha Hp. cbn [HSS_fetch_branch]. do 2 f_equal.
  set (q := hss_in_mem_queue (HSS_update_leaf s p)).
  pose proof (full_height l _ _ Ha) as Hha. pose proof (full_height l _ _ Hp) as Hhp.
  destruct (full_pred l _ _ Ha) as [a0 Ha0]. pose proof (height_lt _ _ Hchain _ _ _ _ Ha0 Ha).
  pose proof (height_lt _ _ Hchain _ _ _ _ Ha Hp).
  assert (Hperm : filter (fun n => chain_height l k < node_height n) (map_values q) ≡ₚ [a; p]).
  { apply NoDup_Permutation.
    - apply NoDup_filter, stored_values_NoDup, HSS_inv_update_leaf, Hf.
    - apply NoDup_cons. split; [|apply NoDup_singleton]. intros ->%list_elem_of_singleton.
      destruct (full_hash_inj _ Hok _ _ _ _ Ha Hp eq_refl). lia.
    - intros n. rewrite list_elem_of_filter, elem_of_map_values, !elem_of_cons, elem_of_nil.
      change q with (<[TreeNode_hash p:=p]> (hss_in_mem_queue s)). split.
      + intros [Hh (h & [[_ <-]|[_ Hn]]%lookup_insert_Some)]; [auto|].
        destruct (fs_only _ _ _ _ _ _ Hf h n Hn) as (i & Hi & Hin).
        rewrite (full_height l _ _ Hin) in Hh. apply (height_lt _ _ Hchain _ _ _ _ Ha0 Hin) in Hh.
        assert (i = S k) as -> by lia.
        unfold full in Ha. left. congruence.
      + intros [->|[->|[]]]; (split; [lia|]).
        * exists (TreeNode_hash a). rewrite lookup_insert_ne; [exact (fs_get _ _ _ _ _ _ Hf _ _ Ha (Nat.le_refl _))|].
          intros He. destruct (full_hash_inj _ Hok _ _ _ _ Hp Ha He). lia.
        * exists (TreeNode_hash p). apply lookup_insert_eq. }
  apply (StronglySorted_unique_strong height_le).
  - intros n1 n2 H1 H2. rewrite merge_sort_Permutation, Hperm in H1. unfold height_le.
    rewrite !elem_of_cons, elem_of_nil in H1, H2.
    destruct H1 as [->|[->|[]]], H2 as [->|[->|[]]]; try done; lia.
  - apply StronglySorted_merge_sort; intros ?; unfold height_le; intros; lia.
  - repeat constructor; unfold height_le. lia.
  - by rewrite merge_sort_Permutation.
Qed.
End Chain.

(** ** A chain that grows *)

(** A certificate of the proposal at position [x], of the view of that proposal. *)
Definition qc_certifies (pks : PK) (l : list TreeNode) (x : nat) (qc : GenericQC) : Prop :=
  exists n, (INIT_NODE :: l) !! x = Some n /\ qc_node qc = TreeNode_hash n /\
    qc_view qc = chain_height l x /\
    (GenericQC_is_init_qc qc = true \/
     pk_verify pks (qc_combined_sign qc) (TreeNode_to_be_bytes n) = true).

Lemma qc_certifies_extend pks l l' x qc : qc_certifies pks l x qc -> qc_certifies pks (l ++ l') x qc.
Proof.
  intros (n & Hn & Hq & Hv & Hver). exists n.
  assert (Hn' : (INIT_NODE :: l ++ l') !! x = Some n) by (rewrite app_comm_cons; by apply lookup_app_l_Some).
  split_and!; [done|done| |done]. by rewrite Hv, <-(chain_height_at _ _ _ Hn), (chain_height_at _ _ _ Hn').
Qed.

Lemma chain_height_extend l l' k : (k <= length l)%nat -> chain_height (l ++ l') k = chain_height l k.
Proof.
  intros Hk. unfold chain_height. rewrite app_comm_cons, lookup_app_l by (simpl; lia). done.
Qed.

Lemma fed_extend l l' k x y z s :
  (k <= length l)%nat -> fed l k x y z s -> fed (l ++ l') k x y z s.
Proof.
  intros Hk [Hi Hg Ho Hx Hl Hq Hv Hlk Hc Hlen].
  assert (Hext : forall i n, (INIT_NODE :: l) !! i = Some n -> (INIT_NODE :: l ++ l') !! i = Some n)
    by (intros i n Hn; rewrite app_comm_cons; by apply lookup_app_l_Some).
  split; auto.
  - intros i n Hn Hik. apply (Hg i); [|done]. rewrite app_comm_cons in Hn.
    rewrite lookup_app_l in Hn by (simpl; lia). done.
  - intros h n Hn. destruct (Ho h n Hn) as (i & ? & ?). exists i. auto.
  - by rewrite chain_height_extend.
  - rewrite length_app. lia.
Qed.

Lemma certified_chain_snoc pks p l a q :
  certified_chain pks p l -> (p :: l) !! length l = Some a -> certified_child pks a q ->
  certified_chain pks p (l ++ [q]).
Proof.
  revert p. induction l as [|n l IH]; intros p Hc Ha Hq; [by simplify_eq/=|].
  destruct Hc as [Hpn Hc]. split; [done|]. by apply IH.
Qed.
End RoundStore.
