(* ===== verification/RoundMember.v ===== *)
(** * A replica in a round: its turns of the event loop

    The pacemaker of a replica that is in the view of the next proposal of a certified
    chain.  It votes for that proposal and goes to the next view; when its leaf is behind
    the certificate of the proposal it first asks the leader for the branch. *)

From S2P Require Import Prelude Crypto HsData CryptoKit Voter SafetyStorage Machine.
From S2P Require Import MachineSafety LivenessData Persistor Hss HssSafety HssReach HssLiveness HssContract.
From S2P Require Import LeaderRound ChainRun Elector Timer Pacemaker PacemakerSafety PacemakerViews RoundStore.

(** ** Stores up to what the machine reads *)

Section SameCore.
Context `{TC : ThresholdCrypto} {C : Codec}.

Implicit Types (s : HotstuffStorage).

(** Equal but for the sets of new-view messages, timeout certificates and the queues. *)
Record same_core s s' : Prop := {
  sc_state : hss_state s' = hss_state s;
  sc_queue : hss_in_mem_queue s' = hss_in_mem_queue s;
  sc_conf : hss_conf s' = hss_conf s;
  sc_backend : hss_backend s' = hss_backend s;
}.

#[global] Instance same_core_equivalence : Equivalence same_core.
Proof.
  split; [by split|intros s1 s2 []; by split|intros s1 s2 s3 [] []; split; congruence].
Qed.

#[global] Instance fed_proper l k x y z : Proper (same_core ==> iff) (fed l k x y z).
Proof.
  assert (H : forall s s', same_core s s' -> fed l k x y z s -> fed l k x y z s').
  { intros s s' [Hs Hq _ _] [Hi Hg Ho Hx Hl Hqc Hv Hlk Hc Hlen].
    split; unfold HSS_get, HSS_get_leaf, HSS_get_qc_high, HSS_get_vheight, HSS_get_locked_node,
      HSS_get_last_committed in *; rewrite ?Hs, ?Hq; auto. by apply (HSS_inv_frame s s'). }
  intros s s' Hss. split; apply H; [done|by symmetry].
Qed.

Lemma same_core_view s s' : same_core s s' -> HSS_get_view s' = HSS_get_view s.
Proof. intros [Hs _ _ _]. unfold HSS_get_view. by rewrite Hs. Qed.

Lemma same_core_qc_high s s' : same_core s s' -> HSS_get_qc_high s' = HSS_get_qc_high s.
Proof. intros [Hs _ _ _]. unfold HSS_get_qc_high. by rewrite Hs. Qed.

Lemma same_core_update_leaf s s' n :
  same_core s s' -> same_core (HSS_update_leaf s n) (HSS_update_leaf s' n).
Proof. intros [Hs Hq Hc Hb]. split; cbn; congruence. Qed.

Lemma same_core_get s s' h : same_core s s' -> HSS_get s' h = HSS_get s h.
Proof. intros [_ Hq _ _]. unfold HSS_get. by rewrite Hq. Qed.

Lemma same_core_update_qc_high s s' n qc :
  same_core s s' -> same_core (HSS_update_qc_high s n qc) (HSS_update_qc_high s' n qc).
Proof.
  intros Hss. unfold HSS_update_qc_high. rewrite (same_core_qc_high _ _ Hss), (same_core_get _ _ _ Hss).
  destruct (HSS_get s _) as [b|]; [|done]. destruct (_ <? _); [|done].
  destruct Hss as [Hs Hq Hc Hb]. split; cbn; congruence.
Qed.

Lemma new_view_set_core s v : same_core s (HSS_new_view_set s v).1.
Proof. done. Qed.

Lemma append_tc_core s tc :
  same_core s (HSS_append_tc s tc).1 /\
  hss_new_view_set (HSS_append_tc s tc).1 = hss_new_view_set s.
Proof.
  assert (H : forall s, same_core s (HSS_compress_tc s).1 /\
    hss_new_view_set (HSS_compress_tc s).1 = hss_new_view_set s).
  { intros s0. unfold HSS_compress_tc. by repeat case_match. }
  unfold HSS_append_tc. destruct (HSS_compress_tc _) as [s' v] eqn:E. cbn [fst].
  change s' with (s', v).1. rewrite <-E.
  destruct (tc_view_sign tc);
    match goal with |- context [HSS_compress_tc ?s1] => destruct (H s1) as [H1 H2] end;
    (split; [etransitivity; [|exact H1]; done|exact H2]).
Qed.

(** The store in view [v]. *)
Definition at_view (v : Z) s : HotstuffStorage := set_state (state_with_view (hss_state s) v) s.

Lemma fed_at_view l k x y z v s : fed l k x y z s -> fed l k x y z (at_view v s).
Proof. intros [Hi Hg Ho Hx Hl Hqc Hv Hlk Hc Hlen]. split; try done. by destruct Hi. Qed.
End SameCore.

Section RoundMember.
Context `{TC : ThresholdCrypto} {Laws : ThresholdCryptoLaws} {C : Codec} {F : Fnv} {FL : FnvLaws}
  {Env : PacemakerEnv}.

(** The system: its key set, the elector everyone has, the indices of the key shares and
    the number of replicas. *)
Context (s : SecretKeySet) (el : RoundRobinLeaderElector) (idx : string -> Z) (total : Z).

Implicit Types (p : Pacemaker HotstuffStorage) (id leader : string) (prop : TreeNode).

(** The pacemaker of the member [id]. *)
Record configured id p : Prop := {
  cf_id : pm_id p = id;
  cf_elector : pm_elector p = el;
  cf_self : m_self_id (pm_machine p) = id;
  cf_total : m_total (pm_machine p) = total;
  cf_member : v_signature (m_voter (pm_machine p)) = member s (idx id);
  cf_threshold : v_threshold (m_voter (pm_machine p)) = quorum_threshold total;
  cf_conf : conf_total (hss_conf (liveness_storage p)) = total;
  cf_backend : hss_backend (liveness_storage p) = None;
}.

(** Nothing is left to do. *)
Record idle p : Prop := {
  se_ready : pm_ready_queue p = [];
  se_pending : pm_pending_prop p = [];
  se_sync : pm_sync_state p = SYNC_IDLE;
}.

(** No transactions are offered. *)
Definition no_txs (_ : bool) : option (list Txn) := None.
Definition never (_ : ViewNumber) : bool := false.

(** A turn in which the message [pe] arrives. *)
Definition net_turn p (pe : PeerEvent) : outcome (Pacemaker HotstuffStorage * bool) :=
  event_loop_turn p never no_txs false (Ev_net pe).

(** The pacemaker after the first part of a turn without transactions. *)
Definition touched p : Pacemaker HotstuffStorage :=
  pm_set_storage (HSS_new_view_set (liveness_storage p) (pm_view p)).1 p.

Lemma net_turn_unfold p pe :
  net_turn p pe =
    (p' ← process_network_event (touched p) pe; p' ← drain_ready (drain_fuel p') p'; Ret (p', false)).
Proof.
  unfold net_turn, event_loop_turn. cbn [never loop_propose no_txs].
  change (loop_propose p no_txs false) with (Ret (touched p, None) : outcome (Pacemaker HotstuffStorage * option PacemakerState)).
  cbn [mbind outcome_bind]. by destruct (process_network_event (touched p) pe).
Qed.

Lemma drain_empty fuel p : pm_ready_queue p = [] -> drain_ready fuel p = Ret p.
Proof. intros H. destruct fuel; cbn [drain_ready]; by rewrite H. Qed.

(** One ready event that queues none. *)
Lemma drain_one p r p' :
  pm_ready_queue p = [] -> process_ready_event p r = Ret p' -> pm_ready_queue p' = [] ->
  drain_ready (drain_fuel (pm_set_ready [r] p)) (pm_set_ready [r] p) = Ret p'.
Proof.
  intros He Hr He'. unfold drain_fuel. cbn [pm_ready_queue pm_set_ready length Nat.add drain_ready].
  replace (pm_set_ready [] (pm_set_ready [r] p)) with p by (destruct p; cbn in He; by subst).
  rewrite Hr. cbn [mbind outcome_bind]. by apply drain_empty.
Qed.

(** ** Moving to the next view *)

(** [p'] is [p] in another view with another store, with [msgs] sent. *)
Record moved (v : Z) (st : HotstuffStorage) (msgs : list PeerEvent) p p' : Prop := {
  mv_view : pm_view p' = v;
  mv_id : pm_id p' = pm_id p;
  mv_elector : pm_elector p' = pm_elector p;
  mv_machine : pm_machine p' = set_storage (pm_machine p) st;
  mv_sent : pm_sent p' = pm_sent p ++ msgs;
  mv_ready : pm_ready_queue p' = pm_ready_queue p;
  mv_pending : pm_pending_prop p' = pm_pending_prop p;
  mv_sync : pm_sync_state p' = pm_sync_state p;
  mv_timer : timer_armed (pm_timer p') v;
}.

Lemma local_timeout_moves p v :
  round_mapper (pm_elector p) <> [] -> pm_view p = v -> HSS_get_view (liveness_storage p) = v ->
  0 <= v < 2 ^ 64 - 1 -> pm_sync_state p = SYNC_IDLE ->
  exists p' st leader, process_local_timeout p v = Ret p' /\
    get_leader (pm_elector p) (v + 1) = Ret leader /\
    moved (v + 1) st (timeout_messages p (v + 1) leader) p p' /\
    same_core (at_view (v + 1) (liveness_storage p)) st /\
    forall w, v < w -> new_views st w = new_views (liveness_storage p) w.
Proof.
  intros Hne Hv Hsv Hb Hidle. unfold process_local_timeout. rewrite Hv, Z.leb_refl.
  set (tc := sign_tc p v _). destruct (append_tc_core (liveness_storage p) tc) as [Hc1 Hn1].
  cbn [append_tc HSS_LivenessStorage]. set (s1 := (HSS_append_tc (liveness_storage p) tc).1) in *.
  rewrite wrap64_small by (unfold u64_ok; lia). unfold goto_new_view.
  destruct (get_leader_total (pm_elector p) (v + 1) Hne) as (leader & Hl & _).
  match goal with |- context [get_leader ?e ?w] =>
    replace (get_leader e w) with (Ret leader : outcome ReplicaID) end.
  2:{ rewrite <-Hl. cbn. rewrite Hv. f_equal. lia. }
  cbn [mbind outcome_bind]. unfold sync_cas.
  match goal with |- context [pm_sync_state ?q =? _] => change (pm_sync_state q) with (pm_sync_state p) end.
  rewrite Hidle. change (SYNC_IDLE =? SYNC_SYNCHRONIZING) with false. cbn iota.
  do 3 eexists. split; [reflexivity|]. split; [exact Hl|].
  assert (Hvw : Z.max (pm_view p) (v + 1) = v + 1) by lia.
  split; [split; try reflexivity|split].
  - exact Hvw.
  - cbn [pm_sent pm_set_storage pm_set_machine emit_peer_event pm_set_sent update_pm_status pm_set_view
      pm_set_timer pm_view pm_id]. rewrite Hvw, <-app_assoc. unfold timeout_messages. rewrite Hv.
    cbn [app]. do 4 f_equal. cbn [get_qc_high HSS_SafetyStorage]. exact (same_core_qc_high _ _ Hc1).
  - apply view_timeout_only_armed.
  - destruct Hc1 as [Hst Hq Hco Hbk]. split; cbn; [|done..]. unfold at_view. cbn.
    rewrite Hst. cbn. unfold HSS_get_view in Hsv. rewrite Hsv, Hv. unfold state_with_view. cbn. f_equal. lia.
  - intros w Hw. unfold new_views. cbn. rewrite map_lookup_filter, Hn1, Hv.
    destruct (hss_new_view_set (liveness_storage p) !! w); [|done]. cbn.
    rewrite option_guard_True by lia. done.
Qed.

(** ** A member of the system *)

(** The member [id] in view [v]: it stores the first [k] proposals of the chain [l], leaf,
    lock and last commit are at [x], [y] and [z], its [qc_high] is a certificate of the
    leaf, and it has no votes and no new-view messages for this view or a later one. *)
Record member_at (l : list TreeNode) (k x y z : nat) (v : Z) id p : Prop := {
  ma_conf : configured id p;
  ma_settled : idle p;
  ma_view : pm_view p = v;
  ma_store_view : HSS_get_view (liveness_storage p) = v;
  ma_fed : fed l k x y z (liveness_storage p);
  ma_qc : qc_certifies (public_keys s) l x (HSS_get_qc_high (liveness_storage p));
  ma_votes w : v <= w -> Voter_votes (m_voter (pm_machine p)) w = ∅;
  ma_new_views w : v <= w -> new_views (liveness_storage p) w = ∅;
}.

Lemma configured_store id p st :
  hss_conf st = hss_conf (liveness_storage p) -> hss_backend st = hss_backend (liveness_storage p) ->
  configured id p -> configured id (pm_set_storage st p).
Proof. intros Hc Hb []. split; try done; unfold liveness_storage in *; cbn; congruence. Qed.

(** The machine puts another store in place. *)
Lemma member_store l k x y z v id p k' x' y' z' st :
  member_at l k x y z v id p -> fed l k' x' y' z' st ->
  store_frame (liveness_storage p) st -> qc_certifies (public_keys s) l x' (HSS_get_qc_high st) ->
  member_at l k' x' y' z' v id (pm_set_storage st p).
Proof.
  intros [Hc Hs Hv Hsv Hf Hq Hvo Hn] Hf' [Eco Eb En Ev] Hq'.
  split; [by apply configured_store|by destruct Hs|exact Hv| |exact Hf'|exact Hq'|exact Hvo|].
  - change (HSS_get_view st = v). congruence.
  - intros w Hw. change (new_views st w = ∅). unfold new_views. rewrite En. by apply Hn.
Qed.

Lemma member_touched l k x y z v id p :
  member_at l k x y z v id p -> member_at l k x y z v id (touched p).
Proof.
  intros [Hc Hs Hv Hsv Hf Hq Hvo Hn].
  split; [by apply configured_store|by destruct Hs|exact Hv|exact Hsv| |exact Hq|exact Hvo|].
  - change (fed l k x y z (HSS_new_view_set (liveness_storage p) (pm_view p)).1). 
    by rewrite <-(new_view_set_core (liveness_storage p) (pm_view p)).
  - intros w Hw. change (new_views (HSS_new_view_set (liveness_storage p) (pm_view p)).1 w = ∅).
    rewrite new_views_set. auto.
Qed.

Context (Hel : round_mapper el <> []).

(** At the end of a view: the timer of the next view runs, and the view is announced to its
    leader. *)
Definition announced (v : Z) id p : Prop :=
  timer_armed (pm_timer p) v /\ exists leader, get_leader el v = Ret leader /\
    PE_NewView (Context_single id leader v) (HSS_get_qc_high (liveness_storage p)) ∈ pm_sent p.

Lemma member_moves l k x y z v id p :
  member_at l k x y z v id p -> 0 <= v < 2 ^ 63 ->
  exists p', process_local_timeout p v = Ret p' /\
    member_at l k x y z (v + 1) id p' /\ announced (v + 1) id p' /\ pm_sent p `prefix_of` pm_sent p'.
Proof.
  intros [Hc Hs Hv Hsv Hf Hq Hvo Hn] Hb. destruct Hc as [Ei Ee Es Et Em Eth Eco Eb].
  destruct (local_timeout_moves p v) as (p' & st & leader & Hp & Hl & Hm & Hcore & Hnv);
    [by rewrite Ee|done|done|lia|apply Hs|].
  destruct Hm as [Mv Mi Me Mm Ms Mr Mp My Mt]. exists p'. split; [done|].
  assert (Est : liveness_storage p' = st) by (unfold liveness_storage; by rewrite Mm).
  assert (Eqc : HSS_get_qc_high st = HSS_get_qc_high (liveness_storage p))
    by exact (same_core_qc_high _ _ Hcore).
  split; [|split].
  - split; rewrite ?Est, ?Mm; try done.
    + destruct Hcore as [_ _ Hco Hbk]. split; rewrite ?Est, ?Mm; try done; try congruence.
      all: cbn in *; congruence.
    + destruct Hs. split; congruence.
    + exact (same_core_view _ _ Hcore).
    + rewrite <-Hcore. by apply fed_at_view.
    + by rewrite Eqc.
    + intros w Hw. apply Hvo. lia.
    + intros w Hw. rewrite Hnv by lia. apply Hn. lia.
  - split; [done|]. exists leader. rewrite Ee in Hl. split; [done|]. rewrite Est, Eqc, Ms. unfold timeout_messages.
    rewrite Ei. apply elem_of_app. right. right. by left.
  - rewrite Ms. by apply prefix_app_r.
Qed.

(** The turn in which the timer of the view fires. *)
Lemma member_times_out l k x y z v id p :
  member_at l k x y z v id p -> 0 <= v < 2 ^ 63 ->
  exists p', event_loop_turn p never no_txs false (Ev_timeout (ViewTimeout v)) = Ret (p', false) /\
    member_at l k x y z (v + 1) id p' /\ announced (v + 1) id p' /\ pm_sent p `prefix_of` pm_sent p'.
Proof.
  intros Hm Hb. apply member_touched in Hm as Ht.
  destruct (member_moves _ _ _ _ _ _ _ _ Ht Hb) as (p' & Hp & Hm' & Ha & Hpre).
  exists p'. split; [|done]. unfold event_loop_turn. cbn [never].
  change (loop_propose p no_txs false) with (Ret (touched p, None) : outcome (Pacemaker HotstuffStorage * option PacemakerState)).
  cbn [mbind outcome_bind process_timeout_event]. rewrite Hp. cbn [mbind outcome_bind].
  rewrite drain_empty by apply Hm'. done.
Qed.

(** ** A vote *)

Definition vote_event leader (v : Z) prop id : PeerEvent :=
  PE_AcceptProposal (Context_single id leader v) prop (Some (share_of s prop (idx id))).

(** The vote that is ready goes out and the view ends. *)
Lemma drain_vote l k x y z v id leader prop p fuel :
  member_at l k x y z v id p -> 0 <= v < 2 ^ 63 -> id <> leader -> is_Some DUR_REPLICA_WAIT ->
  node_height prop = v ->
  exists p', drain_ready (S fuel) (pm_set_ready
      [Signature (Context_single id leader v) prop (share_of s prop (idx id))] p) = Ret p' /\
    member_at l k x y z (v + 1) id p' /\ announced (v + 1) id p' /\
    vote_event leader v prop id ∈ pm_sent p' /\ pm_sent p `prefix_of` pm_sent p'.
Proof.
  intros Hm Hb Hne [d Hd] Hh.
  set (p0 := emit_peer_event p (vote_event leader v prop id)).
  assert (H0 : member_at l k x y z v id p0) by (destruct Hm as [[] [] ? ? ? ? ? ?]; by split).
  destruct (member_moves _ _ _ _ _ _ _ _ H0 Hb) as (p' & Hp & Hm' & Ha & Hpre).
  exists p'. split; [|split; [done|]; split; [done|split]].
  - cbn [drain_ready pm_ready_queue pm_set_ready process_ready_event ctx_to Context_single].
    destruct Hm as [[Ei _ _ _ _ _ _ _] [Er _ _] _ _ _ _ _ _].
    rewrite bool_decide_eq_false_2 by (cbn; congruence). cbn [negb mbind outcome_bind].
    rewrite Hd. cbn [unwrap mbind outcome_bind]. rewrite Hh.
    match goal with |- (process_local_timeout ?q _ ≫= _) = _ => replace q with p0 end.
    2:{ unfold p0, vote_event. destruct p; cbn in Er; by subst. }
    rewrite Hp. cbn [mbind outcome_bind].
    destruct Hm' as [_ [Er' _ _] _ _ _ _ _ _]. by apply drain_empty.
  - eapply elem_of_prefix; [|exact Hpre]. cbn. apply elem_of_app. right. by left.
  - etransitivity; [|exact Hpre]. cbn. by apply prefix_app_r.
Qed.

(** ** The turns of a replica *)

Section Turns.
Context (l : list TreeNode) (k : nat) (v : Z) (prop : TreeNode) (leader : string).
Let full : list TreeNode := INIT_NODE :: l.
Context (Hchain : certified_chain (public_keys s) INIT_NODE l) (Hok : chain_hashes_ok full)
  (Hprop : full !! S k = Some prop) (Hjust : qc_certifies (public_keys s) l k (node_justify prop))
  (Hheight : node_height prop = v) (Hb : v < 2 ^ 63) (Hwait : is_Some DUR_REPLICA_WAIT).

Definition proposal_ctx : Context := Context_broadcast leader v.

Lemma heights_in_range : 0 <= chain_height l k < v.
Proof.
  destruct (full_pred l _ _ Hprop) as [a Ha]. split; [exact (height_mono _ _ Hchain 0 k a Ha (Nat.le_0_l k))|].
  rewrite <-Hheight, (full_height l _ _ Hprop). by apply (height_lt _ _ Hchain _ _ _ _ Ha Hprop), Nat.lt_succ_diag_r.
Qed.

(** The proposal is handed to the machine, which signs it. *)
Lemma emit_vote K x y z id p :
  member_at l K x y z v id p -> (k <= K <= S k)%nat -> (y <= S k)%nat ->
  HSS_get_vheight (liveness_storage p) <= chain_height l k ->
  exists p', emit_safety_event p (RecvProposal proposal_ctx prop) =
      Ret (pm_set_ready [Signature (Context_single id leader v) prop
                           (share_of s prop (idx id))] p') /\
    member_at l (S k) (x `max` k) (y `max` (k - 1)) (z `max` (k - 2)) v id p' /\
    pm_sent p' = pm_sent p.
Proof.
  intros Hm HK Hy Hvh. pose proof Hm as [Hc Hs Hv Hsv Hf Hq _ _].
  pose proof Hc as [_ _ Es _ Em _ _ _].
  destruct (fed_vote _ _ Hchain Hok K x y z (pm_machine p) k proposal_ctx prop Hf)
    as (st & Hev & Hf' & Hfr & Hqc); [by rewrite Em|done|done|done|exact Hvh|].
  exists (pm_set_storage st p). split; [|split; [|done]].
  - unfold emit_safety_event. rewrite Hev. cbn [mbind outcome_bind]. unfold vote_ready.
    cbn [pm_ready_queue pm_set_machine]. rewrite (se_ready _ Hs). cbn [app].
    change (get_view (m_storage (pm_machine p))) with (HSS_get_view (liveness_storage p)).
    unfold Voter_sign. rewrite Es, Em, Hsv. done.
  - apply (member_store _ _ _ _ _ _ _ _ _ _ _ _ _ Hm); [done|exact Hfr|].
    rewrite Hqc. case_decide as Hx; [by replace (x `max` k)%nat with k by lia|].
    replace (x `max` k)%nat with x by lia. exact Hq.
Qed.

(** What a turn that ends with a vote leaves. *)
Definition has_voted x y z id p p' : Prop :=
  member_at l (S k) x y z (v + 1) id p' /\ announced (v + 1) id p' /\
  vote_event leader v prop id ∈ pm_sent p' /\ pm_sent p `prefix_of` pm_sent p'.

Lemma emit_vote_drained K x y z id p :
  member_at l K x y z v id p -> (k <= K <= S k)%nat -> (y <= S k)%nat ->
  HSS_get_vheight (liveness_storage p) <= chain_height l k -> id <> leader ->
  exists p1, emit_safety_event p (RecvProposal proposal_ctx prop) = Ret p1 /\
    length (pm_ready_queue p1) = 1%nat /\
    forall fuel, exists p', drain_ready (S fuel) p1 = Ret p' /\
      has_voted (x `max` k) (y `max` (k - 1)) (z `max` (k - 2)) id p p'.
Proof.
  intros Hm HK Hy Hvh Hne. destruct (emit_vote _ _ _ _ _ _ Hm HK Hy Hvh) as (p1 & He & Hm1 & Hs1).
  eexists. split; [exact He|]. split; [done|]. intros fuel.
  pose proof heights_in_range.
  destruct (drain_vote _ _ _ _ _ _ id leader prop p1 fuel Hm1 ltac:(lia) Hne Hwait Hheight)
    as (p' & Hd & Hm' & Ha & Hvo & Hpre).
  exists p'. unfold has_voted. rewrite <-Hs1. by split_and!.
Qed.

(** The turn of a proposal up to the test of its certificate against the leaf. *)
Lemma proposal_arrives K x y z id p :
  member_at l K x y z v id p ->
  exists sw, sw_justify_view sw = chain_height l k /\ sw_se sw = RecvProposal proposal_ctx prop /\
  process_network_event (touched p) (PE_NewProposal proposal_ctx prop) =
    check_pending_prop (pm_set_pending [sw] (touched p)) (chain_height l x).
Proof.
  intros [Hc Hs Hv Hsv Hf Hq _ _]. destruct Hjust as (n & _ & _ & Ejv & _).
  exists (SafetyEventWrapper_from (qc_view (node_justify prop)) (RecvProposal proposal_ctx prop)).
  pose proof heights_in_range.
  split; [rewrite Ejv, sw_justify_view_from by lia; done|]. split; [done|].
  cbn [process_network_event]. unfold heap_push.
  change (pm_pending_prop (touched p)) with (pm_pending_prop p). rewrite (se_pending _ Hs).
  f_equal. exact (full_height l _ _ (fs_leaf _ _ _ _ _ _ Hf)).
Qed.

(** A replica whose leaf is certified by the proposal votes at once. *)
Lemma member_votes y z id p :
  member_at l k k y z v id p -> (y <= S k)%nat -> id <> leader ->
  exists p', net_turn p (PE_NewProposal proposal_ctx prop) = Ret (p', false) /\
    has_voted k (y `max` (k - 1)) (z `max` (k - 2)) id p p'.
Proof.
  intros Hm Hy Hne. apply member_touched in Hm as Ht.
  destruct (proposal_arrives _ _ _ _ _ _ Hm) as (sw & Ejv & Ese & Hpe).
  destruct (emit_vote_drained k k y z id (touched p) Ht ltac:(lia) Hy) as (p1 & He & Hlen & Hd);
    [apply (fs_vheight _ _ _ _ _ _ (ma_fed _ _ _ _ _ _ _ _ Ht))|done|].
  rewrite Nat.max_id in Hd.
  assert (E0 : pm_set_pending [] (pm_set_pending [sw] (touched p)) = touched p).
  { destruct Hm as [_ [_ Ep _] _ _ _ _ _ _]. unfold touched. destruct p; cbn in *; by subst. }
  rewrite net_turn_unfold, Hpe. unfold check_pending_prop.
  cbn [heap_pop pm_pending_prop pm_set_pending]. rewrite Ejv, Z.leb_refl, E0, Ese, He.
  cbn [mbind outcome_bind]. unfold drain_fuel.
  rewrite Hlen. cbn [Nat.add].
  destruct (Hd (length (pm_pending_prop p1))) as (p' & -> & Hvo).
  exists p'. split; [done|]. exact Hvo.
Qed.

(** A replica that has asked for the branch and keeps the proposal pending. *)
Definition waiting j y z id p : Prop :=
  exists q sw, member_at l (S j) j y z v id q /\
    p = pm_set_sync SYNC_SYNCHRONIZING (pm_set_pending [sw] q) /\
    sw_justify_view sw = chain_height l k /\ sw_se sw = RecvProposal proposal_ctx prop.

Definition sync_request j id : PeerEvent :=
  PE_BranchSyncRequest (Context_single id leader v) (Grow (chain_height l j) BATCH_SIZE).

(** A replica whose leaf is behind the certificate of the proposal asks the leader. *)
Lemma member_requests j y z id p :
  k = S j -> member_at l (S j) j y z v id p -> get_leader el v = Ret leader ->
  exists p', net_turn p (PE_NewProposal proposal_ctx prop) = Ret (p', false) /\
    waiting j y z id p' /\ pm_sent p' = pm_sent p ++ [sync_request j id].
Proof.
  intros Hk Hm Hl. apply member_touched in Hm as Ht.
  destruct (proposal_arrives _ _ _ _ _ _ Hm) as (sw & Ejv & Ese & Hpe).
  pose proof Hm as [Hc Hs Hv _ _ _ _ _]. destruct Hc as [Ei Ee _ _ _ _ _ _].
  rewrite net_turn_unfold, Hpe. unfold check_pending_prop.
  cbn [heap_pop pm_pending_prop pm_set_pending heap_push]. rewrite Ejv.
  destruct (full_pred l _ _ Hprop) as [a Ha]. pose proof (ma_fed _ _ _ _ _ _ _ _ Hm) as Hf.
  rewrite (height_leb _ _ Hchain _ _ _ _ Ha (fs_leaf _ _ _ _ _ _ Hf)).
  destruct (Nat.leb_spec k j); [lia|]. unfold sync_cas.
  match goal with |- context [pm_sync_state ?q =? _] => change (pm_sync_state q) with (pm_sync_state p) end.
  rewrite (se_sync _ Hs), Z.eqb_refl. cbn iota.
  match goal with |- context [get_leader (pm_elector ?q) (pm_view ?q')] =>
    change (pm_elector q) with (pm_elector p); change (pm_view q') with (pm_view p) end.
  rewrite Ee, Hv, Hl. cbn [mbind outcome_bind].
  rewrite drain_empty by exact (se_ready _ Hs). cbn [mbind outcome_bind].
  eexists. split; [reflexivity|]. split.
  - exists (emit_peer_event (touched p) (sync_request j id)), sw. split; [|split; [|done]].
    + destruct Ht as [[] [] ? ? ? ? ? ?]. by split.
    + unfold sync_request, emit_peer_event. cbn. by rewrite Ei.
  - cbn. by rewrite Ei.
Qed.

(** With the branch it takes the certificate, votes and goes on. *)
Lemma member_synced j y z id p a ctx :
  k = S j -> waiting j y z id p -> (y <= k)%nat -> id <> leader -> full !! k = Some a ->
  exists p', net_turn p (PE_BranchSyncResponse ctx (Grow (chain_height l j) BATCH_SIZE)
      (Some {| bd_data := [a; prop] |}) Success) = Ret (p', false) /\
    has_voted k (y `max` (k - 1)) (z `max` (k - 2)) id p p'.
Proof.
  intros Hk (q & sw & Hm & -> & Ejv & Ese) Hy Hne Ha. apply member_touched in Hm as Ht.
  pose proof Ht as [Hc Hs Hv _ Hf _ _ _]. pose proof Hc as [_ _ _ _ Em _ _ _].
  destruct (fed_sync_pair _ _ Hchain Hok j y z (pm_machine (touched q)) ctx a prop Hf)
    as (st & Hev & Hf' & Hfr & Hqc & Hvh); [by rewrite Em|lia|by rewrite <-Hk|by rewrite <-Hk|].
  rewrite <-Hk in Hf', Hvh.
  assert (Hm2 : member_at l (S k) k (y `max` j) (z `max` (j - 1)) v id
                  (pm_set_storage st (touched q))).
  { apply (member_store _ _ _ _ _ _ _ _ _ _ _ _ _ Ht); [done|exact Hfr|]. by rewrite Hqc. }
  destruct (emit_vote_drained _ _ _ _ id _ Hm2 ltac:(lia) ltac:(lia)) as (p1 & He & Hlen & Hd);
    [by apply Z.eq_le_incl|done|].
  assert (Hpe : process_network_event (touched (pm_set_sync SYNC_SYNCHRONIZING (pm_set_pending [sw] q)))
      (PE_BranchSyncResponse ctx (Grow (chain_height l j) BATCH_SIZE) (Some {| bd_data := [a; prop] |}) Success) =
    Ret (pm_set_ready [BranchSyncDone a]
           (pm_set_sync SYNC_SYNCHRONIZING (pm_set_pending [sw] (pm_set_storage st (touched q)))))).
  { cbn [process_network_event]. unfold emit_safety_event.
    change (pm_machine (touched (pm_set_sync SYNC_SYNCHRONIZING (pm_set_pending [sw] q))))
      with (pm_machine (touched q)).
    cbn [bd_data]. rewrite Hev. cbn [mbind outcome_bind].
    match goal with |- context [pm_ready_queue ?x ++ _] => change (pm_ready_queue x) with (pm_ready_queue q) end.
    destruct Hm as [_ [Er _ _] _ _ _ _ _ _]. by rewrite Er. }
  rewrite net_turn_unfold, Hpe. cbn [mbind outcome_bind].
  unfold drain_fuel. cbn [pm_ready_queue pm_pending_prop pm_set_ready pm_set_sync pm_set_pending length Nat.add].
  cbn [drain_ready pm_ready_queue pm_set_ready process_ready_event]. unfold sync_cas.
  cbn [pm_sync_state pm_set_ready pm_set_sync]. rewrite Z.eqb_refl. unfold check_pending_prop.
  cbn [heap_pop pm_pending_prop pm_set_ready pm_set_sync pm_set_pending].
  rewrite Ejv, (full_height l _ _ Ha), Z.leb_refl, Ese.
  match goal with |- context [emit_safety_event ?x _] => replace x with (pm_set_storage st (touched q)) end.
  2:{ destruct Hm as [_ [Er Ep Esy] _ _ _ _ _ _]. unfold touched. destruct q; cbn in *; by subst. }
  rewrite He. cbn [mbind outcome_bind]. destruct (Hd 0%nat) as (p' & Hp' & Hvo).
  cbn [drain_ready] in Hp'. rewrite Hp'. exists p'. split; [done|]. rewrite Nat.max_id in Hvo.
  replace ((y `max` j) `max` (k - 1))%nat with (y `max` (k - 1))%nat in Hvo by lia.
  replace ((z `max` (j - 1)) `max` (k - 2))%nat with (z `max` (k - 2))%nat in Hvo by lia.
  exact Hvo.
Qed.
End Turns.
End RoundMember.
