(* ===== verification/RoundLeader.v ===== *)
(** * The leader in a round: its turns of the event loop

    New-view messages bring the leader the certificate of the last proposal; it proposes
    on top of it, answers the replicas that ask for the branch, counts their votes, and
    with the last vote of a quorum certifies its proposal and goes to the next view. *)

From S2P Require Import Prelude Crypto HsData CryptoKit Voter SafetyStorage Machine.
From S2P Require Import MachineSafety LivenessData Persistor Hss HssSafety HssReach HssLiveness HssContract.
From S2P Require Import LeaderRound ChainRun Elector Timer Pacemaker PacemakerSafety PacemakerViews RoundStore.
From S2P Require Import RoundMember.

Section RoundLeader.
Context `{TC : ThresholdCrypto} {Laws : ThresholdCryptoLaws} {C : Codec} {F : Fnv} {FL : FnvLaws}
  {Env : PacemakerEnv}.
Context (s : SecretKeySet) (el : RoundRobinLeaderElector) (idx : string -> Z) (total : Z).

Implicit Types (p : Pacemaker HotstuffStorage) (id leader : string) (prop : TreeNode).

#[local] Abbreviation configured := (configured s el idx total).
#[local] Abbreviation member_at := (member_at s el idx total).

(** ** New-view messages *)

(** The leader of view [v] with the new-view messages [nvs] of that view. *)
Record collecting (l : list TreeNode) (k x y z : nat) (v : Z) id p (nvs : gmap string GenericQC) : Prop := {
  co_conf : configured id p;
  co_settled : idle p;
  co_view : pm_view p = v;
  co_store_view : HSS_get_view (liveness_storage p) = v;
  co_fed : fed l k x y z (liveness_storage p);
  co_qc : qc_certifies (public_keys s) l x (HSS_get_qc_high (liveness_storage p));
  co_votes w : v <= w -> Voter_votes (m_voter (pm_machine p)) w = ∅;
  co_new_views : new_views (liveness_storage p) v = nvs;
  co_later w : v < w -> new_views (liveness_storage p) w = ∅;
}.

Lemma member_collecting l k x y z v id p :
  member_at l k x y z v id p -> collecting l k x y z v id p ∅.
Proof. intros []. split; auto with lia. Qed.

(** [UpdateQCHigh] of the leaf changes nothing when the leaf is certified. *)
Lemma fed_update_leaf_noop l k x y z st :
  fed l k x y z st ->
  HSS_update_qc_high st (HSS_get_leaf st) (node_justify (HSS_get_leaf st)) = st.
Proof.
  intros Hf. unfold HSS_update_qc_high. rewrite (fs_qc_high _ _ _ _ _ _ Hf).
  rewrite (fs_get _ _ _ _ _ _ Hf _ _ (fs_leaf _ _ _ _ _ _ Hf) (fs_leaf_le _ _ _ _ _ _ Hf)).
  by rewrite Z.ltb_irrefl.
Qed.

Lemma qc_certifies_stored l k x y z st j qc :
  fed l k x y z st -> qc_certifies (public_keys s) l j qc -> (j <= k)%nat ->
  exists n, (INIT_NODE :: l) !! j = Some n /\ HSS_get st (qc_node qc) = Some n /\
    qc_node qc = TreeNode_hash n.
Proof.
  intros Hf (n & Hn & Hq & _) Hj. exists n. split; [done|]. split; [|done].
  rewrite Hq. by apply (fs_get _ _ _ _ _ _ Hf j).
Qed.

Lemma fed_new_view l k x y z st j qc n :
  certified_chain (public_keys s) INIT_NODE l -> chain_hashes_ok (INIT_NODE :: l) ->
  fed l k x y z st -> qc_certifies (public_keys s) l x (HSS_get_qc_high st) ->
  qc_certifies (public_keys s) l j qc -> (j <= k)%nat ->
  (INIT_NODE :: l) !! j = Some n -> qc_node qc = TreeNode_hash n ->
  let st' := HSS_update_qc_high st n qc in
  fed l k (x `max` j) y z st' /\ qc_certifies (public_keys s) l (x `max` j) (HSS_get_qc_high st').
Proof.
  intros Hch Hok Hf Hx Hj Hjk Hn Hqn st'.
  split; [by apply (fed_update_qc_high _ _ Hch Hok)|].
  unfold st', HSS_update_qc_high. rewrite (fs_qc_high _ _ _ _ _ _ Hf).
  rewrite (fs_get _ _ _ _ _ _ Hf _ _ (fs_leaf _ _ _ _ _ _ Hf) (fs_leaf_le _ _ _ _ _ _ Hf)).
  rewrite (full_height l _ _ Hn), (full_height l _ _ (fs_leaf _ _ _ _ _ _ Hf)).
  rewrite (height_ltb _ _ Hch _ _ _ _ (fs_leaf _ _ _ _ _ _ Hf) Hn).
  destruct (Nat.ltb_spec x j); [by replace (x `max` j)%nat with j by lia|].
  by replace (x `max` j)%nat with x by lia.
Qed.

(** One new-view message of the view. *)
Lemma leader_new_view l k x y z v id p nvs from to j qc :
  certified_chain (public_keys s) INIT_NODE l -> chain_hashes_ok (INIT_NODE :: l) ->
  collecting l k x y z v id p nvs -> qc_certifies (public_keys s) l j qc -> (j <= k)%nat ->
  exists p', net_turn p (PE_NewView (Context_single from to v) qc) = Ret (p', false) /\
    collecting l k (x `max` j) y z v id p' (<[from:=qc]> nvs) /\ pm_sent p' = pm_sent p.
Proof.
  intros Hch Hok [Hc Hs Hv Hsv Hf Hq Hvo Hn Hl] Hj Hjk.
  set (s0 := (HSS_new_view_set (liveness_storage p) (pm_view p)).1).
  set (s1 := HSS_new_view_insert s0 v from qc).
  assert (Hcore : same_core (liveness_storage p) s1) by done.
  assert (Hf1 : fed l k x y z s1) by (by rewrite <-Hcore).
  destruct (qc_certifies_stored _ _ _ _ _ _ j qc Hf1 Hj Hjk) as (n & Hn1 & Hg & Hqn).
  destruct (fed_new_view _ _ _ _ _ s1 j qc n Hch Hok Hf1 Hq Hj Hjk Hn1 Hqn) as [Hf2 Hq2].
  set (s2 := HSS_update_qc_high s1 n qc) in *.
  pose proof (update_qc_high_store_frame s1 n qc) as [Eco Eb En Ev]. fold s2 in Eco, Eb, En, Ev.
  set (s3 := HSS_set_dirty (HSS_update_qc_high s2 (HSS_get_leaf s2) (node_justify (HSS_get_leaf s2)))).
  assert (Hcore3 : same_core s2 s3) by (unfold s3; by rewrite (fed_update_leaf_noop _ _ _ _ _ _ Hf2)).
  assert (Hn3 : hss_new_view_set s3 = hss_new_view_set s1)
    by (unfold s3; rewrite (fed_update_leaf_noop _ _ _ _ _ _ Hf2); exact En).
  exists (pm_set_storage s3 p). split; [|split; [split|done]].
  - set (r := Machine_form_update_qc_high (set_storage (pm_machine p) s2)).
    assert (Hpe : process_network_event (touched p) (PE_NewView (Context_single from to v) qc) =
      Ret (pm_set_ready [r] (pm_set_storage s2 p))).
    { cbn [process_network_event]. unfold emit_safety_event.
      cbn [Machine_process_safety_event ctx_view ctx_from Context_single].
      change (get_node _ (qc_node qc)) with (HSS_get s1 (qc_node qc)). rewrite Hg. cbn [mbind outcome_bind].
      match goal with |- context [pm_ready_queue ?q ++ _] => change (pm_ready_queue q) with (pm_ready_queue p) end.
      by rewrite (se_ready _ Hs). }
    rewrite net_turn_unfold, Hpe. cbn [mbind outcome_bind].
    rewrite (drain_one _ _ (pm_set_storage s3 p)); [done|exact (se_ready _ Hs)|reflexivity|exact (se_ready _ Hs)].
  - apply configured_store; [by rewrite (sc_conf _ _ Hcore3), Eco|by rewrite (sc_backend _ _ Hcore3), Eb|done].
  - by destruct Hs.
  - exact Hv.
  - change (HSS_get_view s3 = v). rewrite (same_core_view _ _ Hcore3). rewrite Ev. exact Hsv.
  - change (fed l k (x `max` j) y z s3). by rewrite <-Hcore3.
  - change (qc_certifies (public_keys s) l (x `max` j) (HSS_get_qc_high s3)).
    by rewrite (same_core_qc_high _ _ Hcore3).
  - exact Hvo.
  - change (new_views s3 v = <[from:=qc]> nvs). unfold new_views. rewrite Hn3.
    change (new_views s1 v = <[from:=qc]> nvs). unfold s1. rewrite new_views_insert.
    rewrite decide_True by done. unfold s0. by rewrite new_views_set, Hn.
  - intros w Hw. change (new_views s3 w = ∅). unfold new_views. rewrite Hn3.
    change (new_views s1 w = ∅). unfold s1. rewrite new_views_insert.
    rewrite decide_False by lia. unfold s0. rewrite new_views_set. auto.
Qed.

(** ** The proposal *)

(** The leader of view [v] with its proposal [prop] made and the votes [acc] counted. *)
Record proposing (l : list TreeNode) (k y z : nat) (v : Z) prop (acc : list (string * Z)) id p : Prop := {
  pr_conf : configured id p;
  pr_settled : idle p;
  pr_view : pm_view p = v;
  pr_store : exists s0, fed l k k y z s0 /\ same_core (HSS_update_leaf s0 prop) (liveness_storage p) /\
    HSS_get_view s0 = v;
  pr_votes : Voter_votes (m_voter (pm_machine p)) v =
    list_to_map (ballot_of s prop <$> acc);
  pr_other_votes w : v < w -> Voter_votes (m_voter (pm_machine p)) w = ∅;
  pr_later w : v <= w -> new_views (liveness_storage p) w = ∅;
}.

(** The application has [cmds] when a proposal is possible. *)
Definition offer (cmds : list Txn) (enable : bool) : option (list Txn) :=
  if enable then Some cmds else None.

Context (Hth : 0 < quorum_threshold total) (Hscheme : pks_threshold (public_keys s) <= quorum_threshold total).

Lemma collecting_leads l k y z v id p nvs st :
  collecting l k k y z v id p nvs -> same_core (liveness_storage p) st ->
  chain_height l k < v ->
  ready_to_lead s (set_storage (pm_machine p) st) (idx id) v.
Proof.
  intros [[_ _ _ Et Em Eth _ _] _ _ Hsv Hf _ Hvo _ _] Hcore Hlt.
  split; cbn [m_storage set_storage m_voter]; try done.
  - rewrite (same_core_view _ _ Hcore). exact Hsv.
  - apply Hvo. lia.
  - unfold Machine_threshold. cbn. by rewrite Et.
  - unfold Machine_threshold. cbn. by rewrite Et.
  - unfold Machine_threshold. cbn. by rewrite Et.
  - exists (HSS_get_leaf (liveness_storage p)). rewrite (same_core_get _ _ _ Hcore), (same_core_qc_high _ _ Hcore).
    rewrite (fs_qc_high _ _ _ _ _ _ Hf). pose proof (fs_leaf _ _ _ _ _ _ Hf) as Hl.
    split; [exact (fs_get _ _ _ _ _ _ Hf _ _ Hl (Nat.le_refl k))|].
    by rewrite (full_height l _ _ Hl).
Qed.

Lemma leader_makes_proposal l k y z v id p nvs cmds :
  chain_height l k < v -> 0 <= v < 2 ^ 63 ->
  collecting l k k y z v id p nvs -> quorum_threshold total < map_len nvs ->
  let prop := Machine_make_leaf (pm_machine p) cmds in
  exists p1, make_new_proposal (touched p) cmds =
      Ret (p1, Some (NewProposal (Context_broadcast id v) prop)) /\
    proposing l k y z v prop [(id, idx id)] id p1 /\ pm_sent p1 = pm_sent p.
Proof.
  intros Hch Hb Hco Hq prop. pose proof Hco as [Hc Hs Hv Hsv Hf _ Hvo Hn Hl].
  set (s1 := (HSS_new_view_set (liveness_storage (touched p)) (pm_view p)).1).
  set (s2 := HSS_clean_new_view_set s1 (wrap64 (pm_view p + 1))).
  assert (Hcore : same_core (liveness_storage p) s2) by done.
  destruct (beat_counts s _ _ _ cmds (collecting_leads _ _ _ _ _ _ _ _ s2 Hco Hcore Hch))
    as (m1 & Hbeat & Hst & _ & _ & [Vs Vt Vm Vth Vo] & Hcv).
  change (Machine_make_leaf (set_storage (pm_machine p) s2) cmds) with prop in *.
  cbn [m_self_id set_storage] in Hbeat. rewrite (cf_self _ _ _ _ _ _ Hc) in Hbeat.
  cbn [Machine_process_safety_event] in Hbeat. apply Ret_inv in Hbeat.
  assert (Hset : new_views (HSS_new_view_set (liveness_storage p) (pm_view p)).1 (pm_view p) = nvs)
    by (rewrite new_views_set, Hv; exact Hn).
  exists (pm_set_machine m1 (pm_set_storage s2 p)). split; [|split; [|done]].
  - unfold make_new_proposal. cbn [new_view_set HSS_LivenessStorage get_threshold].
    change (pm_view (touched p)) with (pm_view p).
    rewrite (surjective_pairing (HSS_new_view_set (liveness_storage (touched p)) (pm_view p))).
    change (HSS_new_view_set (liveness_storage (touched p)) (pm_view p)).2
      with (new_views (HSS_new_view_set (liveness_storage p) (pm_view p)).1 (pm_view p)).
    rewrite Hset. unfold HSS_threshold.
    change (hss_conf (liveness_storage (touched p))) with (hss_conf (liveness_storage p)).
    rewrite (cf_conf _ _ _ _ _ _ Hc).
    destruct (Z.leb_spec (map_len nvs) (quorum_threshold total)); [lia|].
    match goal with |- context [Machine_on_beat ?m cmds] =>
      change (Machine_on_beat m cmds) with (Machine_on_beat (set_storage (pm_machine p) s2) cmds) end.
    rewrite Hbeat. done.
  - destruct Hc as [Ci Ce Cs Ct Cm Cth Cc Cb].
    split; [| |exact Hv|..].
    + unfold Machine_threshold in Vth. cbn in Vs, Vt, Vth.
      split; unfold liveness_storage; cbn; rewrite ?Hst; cbn; try done; congruence.
    + by destruct Hs.
    + exists s2. split; [by rewrite <-Hcore|]. split; [|exact Hsv].
      change (same_core (HSS_update_leaf s2 prop) (m_storage m1)). by rewrite Hst.
    + pose proof (cv_votes _ _ _ _ _ _ _ Hcv) as Hvv. cbn [m_self_id set_storage] in Hvv.
      rewrite Cs in Hvv. exact Hvv.
    + intros w Hw. change (Voter_votes (m_voter m1) w = ∅). rewrite Vo by lia. apply Hvo. lia.
    + intros w Hw. change (new_views (m_storage m1) w = ∅). rewrite Hst.
      change (new_views s2 w = ∅). unfold s2. rewrite new_views_clean. case_decide as Hd; [|done].
      rewrite Hv, wrap64_small in Hd by (unfold u64_ok; lia).
      unfold s1. rewrite new_views_set. unfold touched.
      change (new_views (HSS_new_view_set (liveness_storage p) (pm_view p)).1 w = ∅).
      rewrite new_views_set. apply Hl. lia.
Qed.

(** The turn in which the quorum of new-view messages is seen. *)
Lemma leader_offers l k y z v id p nvs cmds :
  chain_height l k < v -> 0 <= v < 2 ^ 63 ->
  collecting l k k y z v id p nvs -> quorum_threshold total < map_len nvs ->
  let prop := Machine_make_leaf (pm_machine p) cmds in
  exists p', event_loop_turn p never (offer cmds) false Ev_tick = Ret (p', false) /\
    proposing l k y z v prop [(id, idx id)] id p' /\
    pm_sent p' = pm_sent p ++ [PE_NewProposal (Context_broadcast id v) prop].
Proof.
  intros Hch Hb Hco Hq prop.
  destruct (leader_makes_proposal l k y z v id p nvs cmds Hch Hb Hco Hq) as (p1 & Hmk & Hpr & Hs1).
  fold prop in Hmk, Hpr. pose proof Hpr as [Hc Hs _ _ _ _ _]. pose proof Hco as [Hcp _ Hv _ _ _ _ Hn _].
  set (rd := NewProposal (Context_broadcast id v) prop) in *.
  set (p' := emit_peer_event p1 (PE_NewProposal (Context_broadcast id v) prop)).
  assert (Hlp : loop_propose p (offer cmds) false = Ret (pm_set_ready [rd] p1, None)).
  { unfold loop_propose. cbn [new_view_set HSS_LivenessStorage get_threshold].
    rewrite (surjective_pairing (HSS_new_view_set (liveness_storage p) (pm_view p))).
    change (HSS_new_view_set (liveness_storage p) (pm_view p)).2
      with (new_views (liveness_storage p) (pm_view p)).
    change (pm_set_storage (HSS_new_view_set (liveness_storage p) (pm_view p)).1 p) with (touched p).
    rewrite Hv at 1. rewrite Hn. unfold HSS_threshold.
    change (hss_conf (liveness_storage (touched p))) with (hss_conf (liveness_storage p)).
    rewrite (cf_conf _ _ _ _ _ _ Hcp).
    destruct (Z.ltb_spec (quorum_threshold total) (map_len nvs)); [|lia]. cbn [offer].
    rewrite Hmk. cbn [mbind outcome_bind]. rewrite (se_ready _ Hs). done. }
  assert (Hfl : pm_flush (pm_set_ready [rd] p1) = Ret (pm_set_ready [rd] p1)).
  { unfold pm_flush. cbn [flush HSS_LivenessStorage]. unfold HSS_flush, HSS_async_flush.
    change (liveness_storage (pm_set_ready [rd] p1)) with (liveness_storage p1).
    rewrite (cf_backend _ _ _ _ _ _ Hc). destruct (negb _); cbn [mbind outcome_bind];
      (destruct p1 as [? ? ? ? [] ? ? ? ? ? ?]; reflexivity). }
  exists p'. split; [|split; [|by rewrite <-Hs1]].
  - unfold event_loop_turn. cbn [never]. rewrite Hlp. cbn [mbind outcome_bind]. rewrite Hfl.
    cbn [mbind outcome_bind].
    rewrite (drain_one p1 rd p'); [done|exact (se_ready _ Hs)|reflexivity|exact (se_ready _ Hs)].
  - destruct Hpr as [[] [] ? ? ? ? ?]. by split.
Qed.

(** ** Votes *)

Lemma proposing_touched l k y z v prop acc id p :
  proposing l k y z v prop acc id p -> proposing l k y z v prop acc id (touched p).
Proof.
  intros [Hc Hs Hv (s0 & Hf & Hcore & Hsv) Hvo Ho Hl].
  split; [by apply configured_store|by destruct Hs|exact Hv| |exact Hvo|exact Ho|].
  - exists s0. split; [done|]. split; [|done]. by etransitivity.
  - intros w Hw. change (new_views (HSS_new_view_set (liveness_storage p) (pm_view p)).1 w = ∅).
    rewrite new_views_set. auto.
Qed.

Section Chain.
Context (l : list TreeNode) (k : nat) (v : Z) (prop : TreeNode).
Let full : list TreeNode := INIT_NODE :: l.
Context (Hchain : certified_chain (public_keys s) INIT_NODE l) (Hok : chain_hashes_ok full)
  (Hprop : full !! S k = Some prop) (Hheight : node_height prop = v) (Hb : 0 <= v < 2 ^ 63)
  (Hel : round_mapper el <> []).

Definition sync_response id j a from : PeerEvent :=
  PE_BranchSyncResponse (Context_single id from v) (Grow (chain_height l j) BATCH_SIZE)
    (Some {| bd_data := [a; prop] |}) Success.

(** A replica that asks gets the certified proposal and the new one. *)
Lemma leader_answers j y z acc id p a from :
  k = S j -> proposing l k y z v prop acc id p -> full !! k = Some a ->
  exists p', net_turn p (sync_request l v id j from) = Ret (p', false) /\
    proposing l k y z v prop acc id p' /\ pm_sent p' = pm_sent p ++ [sync_response id j a from].
Proof.
  intros Hk Hpr Ha. apply proposing_touched in Hpr as Ht.
  pose proof Ht as [Hc Hs Hv (s0 & Hf & Hcore & Hsv) _ _ _].
  rewrite net_turn_unfold. cbn [sync_request process_network_event fetch_branch HSS_LivenessStorage].
  assert (Hfetch : HSS_fetch_branch (liveness_storage (touched p)) (Grow (chain_height l j) BATCH_SIZE) =
    Ok {| bd_data := [a; prop] |}).
  { rewrite Hk in Hf. rewrite <-(fed_fetch_pair _ _ Hchain Hok j _ _ _ s0 a prop BATCH_SIZE Hf);
      [|by rewrite <-Hk|by rewrite <-Hk].
    unfold HSS_fetch_branch. by rewrite (sc_queue _ _ Hcore). }
  rewrite Hfetch. cbn [mbind outcome_bind ctx_from Context_single].
  rewrite drain_empty by exact (se_ready _ Hs). cbn [mbind outcome_bind].
  eexists. split; [reflexivity|]. split.
  - destruct Ht as [[] [] ? ? ? ? ?]. by split.
  - cbn [emit_peer_event pm_sent pm_set_sent]. change (pm_sent (touched p)) with (pm_sent p).
    unfold sync_response. by rewrite Hv, (cf_id _ _ _ _ _ _ Hc).
Qed.

(** The state after the last vote of a quorum, before the view ends. *)
Lemma certified_member y z acc id p m r :
  proposing l k y z v prop acc id p ->
  certified_state s (pm_machine p) (idx id) v prop m r ->
  member_at l (S k) (S k) y z v id (pm_set_machine m p) /\
  r = Ok (ProposalReachConsensus v).
Proof.
  intros [Hc Hs Hv (s0 & Hf & Hcore & Hsv) Hvo Ho Hl] (Hr & [Vs Vt Vm Vth Vo] & Hv0 & c & Hver & Hst).
  change (liveness_storage p) with (m_storage (pm_machine p)) in Hcore.
  assert (Esv : HSS_get_view (m_storage (pm_machine p)) = v)
    by (rewrite <-Hsv; exact (same_core_view _ _ Hcore)).
  assert (Elf : HSS_get_leaf (m_storage (pm_machine p)) = prop)
    by exact (f_equal st_leaf (sc_state _ _ Hcore)).
  rewrite Esv, Elf in Hst. split; [|by rewrite Hr, Esv].
  set (qc := GenericQC_new v (TreeNode_hash prop) c) in Hst.
  destruct (fed_certified _ _ Hchain Hok k y z s0 prop qc Hf Hprop eq_refl) as (Hf' & Hq' & Hfr).
  pose proof (same_core_update_qc_high _ _ prop qc Hcore) as Hcore'. rewrite <-Hst in Hcore'.
  pose proof (update_qc_high_store_frame (m_storage (pm_machine p)) prop qc) as [Eco Eb En Ev].
  rewrite <-Hst in Eco, Eb, En, Ev. destruct Hc as [Ci Ce Cs Ct Cm Cth Cc Cb].
  unfold Machine_threshold in Vth. unfold liveness_storage in *.
  split; unfold liveness_storage; cbn [pm_machine pm_set_machine]; try done.
  - split; unfold liveness_storage; cbn [pm_machine pm_set_machine pm_id pm_elector]; congruence.
  - by destruct Hs.
  - congruence.
  - by rewrite <-Hcore'.
  - rewrite (same_core_qc_high _ _ Hcore'), Hq'. exists prop. split_and!; [done|done| |by right].
    by rewrite <-(full_height l _ _ Hprop).
  - intros w Hw. destruct (decide (w = v)) as [->|Hne]; [done|]. rewrite Vo by lia. apply Ho. lia.
  - intros w Hw. unfold new_views. rewrite En. by apply Hl.
Qed.

(** What the leader does with a vote it has not yet counted. *)
Lemma leader_counts y z acc id p from :
  proposing l k y z v prop acc id p -> NoDup (from :: acc.*1) -> NoDup (idx from :: acc.*2) ->
  exists p', net_turn p (vote_event s idx id v prop from) = Ret (p', false) /\
    pm_sent p `prefix_of` pm_sent p' /\
    if quorum_threshold total <? Z.of_nat (S (length acc))
    then member_at l (S k) (S k) y z (v + 1) id p' /\ announced el (v + 1) id p'
    else proposing l k y z v prop ((from, idx from) :: acc) id p'.
Proof.
  intros Hpr Hk Hi. apply proposing_touched in Hpr as Ht.
  pose proof Ht as [Hc Hs Hv _ Hvo Ho Hl]. pose proof Hc as [Ci Ce Cs Ct Cm Cth Cc Cb].
  assert (Hcv : counted_votes s (pm_machine (touched p)) (idx id) v prop
                  (pm_machine (touched p)) acc).
  { split; [done| |exact Hvo]. split; try done. unfold Machine_threshold. by rewrite Ct. }
  destruct (count_vote s (pm_machine (touched p)) (idx id) v prop id
              Hheight) with (m := pm_machine (touched p)) (acc := acc) (id := from)
    (j := idx from) as (m' & r & Hev & Hr); [| |done..|].
  { unfold Machine_threshold. rewrite Ct. lia. }
  { unfold Machine_threshold. rewrite Ct. lia. }
  unfold Machine_threshold in Hr. rewrite Ct in Hr.
  assert (Hpe : process_network_event (touched p) (vote_event s idx id v prop from) =
    match r with
    | Ok Nil => Ret (pm_set_machine m' (touched p))
    | Ok rd => Ret (pm_set_ready [rd] (pm_set_machine m' (touched p)))
    | Err _ => Ret (pm_set_machine m' (touched p))
    end).
  { cbn [vote_event process_network_event]. unfold emit_safety_event.
    unfold vote_msg in Hev. rewrite Hev. cbn [mbind outcome_bind].
    cbn [pm_ready_queue pm_set_machine]. rewrite (se_ready _ Hs). done. }
  rewrite net_turn_unfold, Hpe. destruct (quorum_threshold total <? Z.of_nat (S (length acc))).
  - destruct (certified_member _ _ _ _ _ _ _ Ht Hr) as [Hm ->]. cbn [mbind outcome_bind].
    destruct (member_moves _ _ _ _ Hel _ _ _ _ _ _ _ _ Hm Hb) as (p' & Hp' & Hm' & Ha & Hpre).
    exists p'. rewrite (drain_one _ _ p'); [|exact (se_ready _ Hs)|exact Hp'|apply Hm'].
    split; [done|]. split; [exact Hpre|done].
  - destruct Hr as [-> [Est [Vs Vt Vm Vth Vo] Vv]]. cbn [mbind outcome_bind].
    rewrite drain_empty by exact (se_ready _ Hs). eexists. split; [reflexivity|]. split; [done|].
    unfold Machine_threshold in Vth. destruct Ht as [_ _ _ Hst _ _ _].
    split; unfold liveness_storage in *; cbn [pm_machine pm_set_machine]; rewrite ?Est; try done.
    + split; unfold liveness_storage; cbn [pm_machine pm_set_machine pm_id pm_elector]; rewrite ?Est; congruence.
    + by destruct Hs.
    + intros w Hw. rewrite Vo by lia. auto.
Qed.
End Chain.
End RoundLeader.
