(* ===== verification/Cluster.v ===== *)
(** * The pacemakers of all replicas together

    A cluster is the pacemakers of the replicas by name, and whatever they have sent.  A
    step is a turn of the event loop of one of them: on a message that a member has sent
    and that is addressed to it (messages may arrive in any order, late, several times or
    never), on a tick, or on a timeout of its own timer. *)

From S2P Require Import Prelude Crypto HsData CryptoKit Voter SafetyStorage Machine.
From S2P Require Import LivenessData Persistor Hss Elector Timer Pacemaker RoundMember.

Section Cluster.
Context `{TC : ThresholdCrypto} {C : Codec} {F : Fnv} {Env : PacemakerEnv}.

Implicit Types (p q : Pacemaker HotstuffStorage) (id : string) (pe : PeerEvent).

Definition Cluster : Type := gmap string (Pacemaker HotstuffStorage).

Implicit Types (cl : Cluster).

Definition event_ctx pe : Context :=
  match pe with
  | PE_Ping ctx _ | PE_NewProposal ctx _ | PE_AcceptProposal ctx _ _ | PE_NewView ctx _
  | PE_Timeout ctx _ | PE_BranchSyncRequest ctx _ | PE_BranchSyncResponse ctx _ _ _ => ctx
  end.

Definition addressed id pe : Prop :=
  match ctx_to (event_ctx pe) with
  | Single to => to = id
  | Broadcast => True
  | Unknown => False
  end.

(** A message for [id] that some member has sent. *)
Definition available cl id pe : Prop :=
  addressed id pe /\ exists from q, (cl : gmap _ _) !! from = Some q /\ pe ∈ pm_sent q.

(** What [select!] of the event loop of [p] can take. *)
Inductive deliverable cl id p : loop_event -> Prop :=
| dl_net pe : available cl id pe -> deliverable cl id p (Ev_net pe)
| dl_tick : deliverable cl id p Ev_tick
| dl_timeout v : timer_armed (pm_timer p) v \/ ViewTimeout v ∈ dt_notifier (pm_timer p) ->
    deliverable cl id p (Ev_timeout (ViewTimeout v)).

Inductive cluster_step cl : Cluster -> Prop :=
| cluster_turn id p p' fetch ev :
    (cl : gmap _ _) !! id = Some p -> deliverable cl id p ev ->
    event_loop_turn p never fetch false ev = Ret (p', false) ->
    cluster_step cl (<[id:=p']> (cl : gmap _ _)).

(** Messages do not disappear. *)
Definition sent_le cl cl' : Prop := forall id pe, available cl id pe -> available cl' id pe.

#[global] Instance sent_le_preorder : PreOrder sent_le.
Proof. split; [by intros cl id pe|]. intros c1 c2 c3 H1 H2 id pe H. by apply H2, H1. Qed.

Lemma sent_le_insert cl id p p' :
  (cl : gmap _ _) !! id = Some p -> pm_sent p `prefix_of` pm_sent p' ->
  sent_le cl (<[id:=p']> (cl : gmap _ _)).
Proof.
  intros Hp Hpre id' pe [Ha (from & q & Hq & Hin)]. split; [done|].
  destruct (decide (from = id)) as [->|Hne].
  - exists id, p'. rewrite lookup_insert_eq. split; [done|]. simplify_eq. by eapply elem_of_prefix.
  - exists from, q. by rewrite lookup_insert_ne.
Qed.

Lemma deliverable_mono cl cl' id p ev :
  sent_le cl cl' -> deliverable cl id p ev -> deliverable cl' id p ev.
Proof. intros Hle [pe Ha| |v Ht]; [apply dl_net; by apply Hle|apply dl_tick|by apply dl_timeout]. Qed.

Lemma cluster_net cl id p p' pe :
  (cl : gmap _ _) !! id = Some p -> available cl id pe -> net_turn p pe = Ret (p', false) ->
  cluster_step cl (<[id:=p']> (cl : gmap _ _)).
Proof. intros Hp Ha Ht. eapply cluster_turn; [done|by apply dl_net|exact Ht]. Qed.

(** ** Phases *)

(** One member takes a message for every element of [todo]; [I] is what holds of it when
    the elements of [acc] were served. *)
Lemma phase_one {A : Type} (ev : A -> PeerEvent) (I : list A -> Pacemaker HotstuffStorage -> Prop)
    id (todo : list A) :
  forall acc cl p,
  (forall acc a p, a ∈ todo -> NoDup (a :: acc) -> I acc p -> exists p', net_turn p (ev a) = Ret (p', false) /\
     I (a :: acc) p' /\ pm_sent p `prefix_of` pm_sent p') ->
  (cl : gmap _ _) !! id = Some p -> I acc p -> NoDup (reverse todo ++ acc) ->
  (forall a, a ∈ todo -> available cl id (ev a)) ->
  exists p', rtc cluster_step cl (<[id:=p']> (cl : gmap _ _)) /\ I (reverse todo ++ acc) p' /\
    pm_sent p `prefix_of` pm_sent p'.
Proof.
  induction todo as [|a todo IH]; intros acc cl p Hstep Hp HI Hnd Hav.
  - exists p. rewrite insert_id by done. by split; [apply rtc_refl|].
  - rewrite reverse_cons, <-app_assoc in Hnd |- *. cbn [app] in *.
    destruct (Hstep acc a p ltac:(by left)) as (p1 & Ht & HI1 & Hpre1); [|done|].
    { by apply NoDup_app in Hnd as (_ & _ & ?). }
    set (cl1 := <[id:=p1]> (cl : gmap _ _)).
    pose proof (sent_le_insert cl id p p1 Hp Hpre1) as Hle.
    destruct (IH (a :: acc) cl1 p1) as (p' & Hr & HI' & Hpre').
    { intros acc' b q Hb. apply Hstep. by right. }
    { apply lookup_insert_eq. }
    { done. }
    { done. }
    { intros b Hb. apply Hle, Hav. by right. }
    exists p'. split; [|split; [done|by etransitivity]].
    eapply rtc_l; [apply (cluster_net cl id p p1 (ev a) Hp); [apply Hav; by left|done]|].
    unfold cl1 in Hr. by rewrite insert_insert_eq in Hr.
Qed.

(** Every member of [todo] takes one turn. *)
Lemma phase_all (ev : string -> loop_event) (Pre Post : string -> Pacemaker HotstuffStorage -> Prop)
    (todo : list string) :
  forall cl,
  (forall id p, Pre id p -> exists p', event_loop_turn p never no_txs false (ev id) = Ret (p', false) /\ Post id p' /\
     pm_sent p `prefix_of` pm_sent p') ->
  NoDup todo ->
  (forall id, id ∈ todo ->
     exists p, (cl : gmap _ _) !! id = Some p /\ deliverable cl id p (ev id) /\ Pre id p) ->
  exists cl' : Cluster, rtc cluster_step cl cl' /\ sent_le cl cl' /\
    (forall id, id ∈ todo -> exists p, (cl' : gmap _ _) !! id = Some p /\ Post id p) /\
    (forall id, id ∉ todo -> (cl' : gmap _ _) !! id = (cl : gmap _ _) !! id).
Proof.
  induction todo as [|id todo IH]; intros cl Hstep Hnd Hall.
  - exists cl. split; [apply rtc_refl|]. split; [done|]. split; [|done]. by intros id ?%elem_of_nil.
  - apply NoDup_cons in Hnd as [Hni Hnd].
    destruct (Hall id ltac:(by left)) as (p & Hp & Hav & Hpre).
    destruct (Hstep id p Hpre) as (p1 & Ht & Hpost & Hsent).
    set (cl1 := <[id:=p1]> (cl : gmap _ _)).
    pose proof (sent_le_insert cl id p p1 Hp Hsent) as Hle.
    destruct (IH cl1 Hstep Hnd) as (cl' & Hr & Hle' & Hin & Hout).
    { intros id' Hid'. destruct (Hall id' ltac:(by right)) as (p' & Hp' & Hav' & Hpre').
      exists p'. split; [|split; [by apply (deliverable_mono cl)|done]]. unfold cl1.
      rewrite lookup_insert_ne by (by intros ->). done. }
    exists cl'. split; [eapply rtc_l; [by apply (cluster_turn cl id p p1 no_txs (ev id))|exact Hr]|].
    split; [by etransitivity|]. split.
    + intros id' [->|Hid']%elem_of_cons; [|by apply Hin].
      exists p1. rewrite Hout by done. unfold cl1. by rewrite lookup_insert_eq.
    + intros id' Hid'. apply not_elem_of_cons in Hid' as [Hne Hid']. rewrite Hout by done.
      unfold cl1. by rewrite lookup_insert_ne.
Qed.
End Cluster.
