(* ===== verification/ClusterRound.v ===== *)
(** * Views of a cluster in which everything arrives

    A cluster in step: all replicas are in the view after the last proposal of a certified
    chain.  From there the turns of the replicas lead to the next view with one more
    proposal certified, whatever the transactions; so a fresh cluster makes, qc_certifies and
    commits any number of batches.  Every replica but the leader of the view before has to
    ask for the branch before it votes, because its leaf is behind the certificate. *)

From S2P Require Import Prelude Crypto HsData CryptoKit Voter SafetyStorage Machine Quorum.
From S2P Require Import MachineSafety LivenessData Persistor Hss HssSafety HssReach HssLiveness HssContract.
From S2P Require Import LeaderRound ChainRun Elector Timer Pacemaker PacemakerSafety PacemakerViews RoundStore.
From S2P Require Import RoundMember RoundLeader Cluster.

Section ClusterRound.
Context `{TC : ThresholdCrypto} {Laws : ThresholdCryptoLaws} {C : Codec} {F : Fnv} {FL : FnvLaws}
  {Env : PacemakerEnv}.
Context (s : SecretKeySet) (el : RoundRobinLeaderElector) (idx : string -> Z) (total : Z).

(** The replicas that run; the others of the [total] are silent. *)
Context (live : list string).

(** The running replicas are a quorum and have different key shares, a quorum of shares
    makes a signature, and the cell [DUR_REPLICA_WAIT] is set. *)
Record cluster_ok : Prop := {
  ok_NoDup : NoDup live;
  ok_quorum : 0 < quorum_threshold total < Z.of_nat (length live);
  ok_idx : NoDup (idx <$> live);
  ok_scheme : pks_threshold (public_keys s) <= quorum_threshold total;
  ok_elector : round_mapper el <> [];
  ok_wait : is_Some DUR_REPLICA_WAIT;
}.

Implicit Types (cl : Cluster) (p : Pacemaker HotstuffStorage) (id : string) (l : list TreeNode).

#[local] Abbreviation member_at := (member_at s el idx total).
#[local] Abbreviation collecting := (collecting s el idx total).
#[local] Abbreviation proposing := (proposing s el idx total).

(** All replicas are in view [v], above the last proposal of [l]; the leaf of [last], which
    made that proposal, is that proposal, the others have it stored on top of their leaf,
    and their lock and last commit are two and three behind it. *)
Definition member_in_step l (v : Z) (last id : string) p : Prop :=
  let k := length l in
  exists y z, member_at l k (if decide (id = last) then k else k - 1)%nat y z v id p /\
    announced el v id p /\ (y <= k - 2)%nat /\ (z <= k - 3)%nat /\
    (id <> last -> y = (k - 2)%nat /\ z = (k - 3)%nat).

Record in_step l (v : Z) (last : string) cl : Prop := {
  is_chain : certified_chain (public_keys s) INIT_NODE l;
  is_hashes : chain_hashes_ok (INIT_NODE :: l);
  is_above : chain_height l (length l) < v;
  is_last : last ∈ live;
  is_members id : id ∈ live ->
    exists p, (cl : gmap _ _) !! id = Some p /\ member_in_step l v last id p;
}.

Context (Hcl : cluster_ok).

(** ** The new-view messages *)

Section View.
Context (l : list TreeNode) (v : Z) (last leader : string).
#[local] Abbreviation k := (length l).
Context (Hchain : certified_chain (public_keys s) INIT_NODE l) (Hok : chain_hashes_ok (INIT_NODE :: l))
  (Hlead : get_leader el v = Ret leader).

(** The new-view message that the member [id] has sent at the end of the view before. *)
Definition new_view_event cl id : PeerEvent :=
  PE_NewView (Context_single id leader v)
    (default INIT_QC ((fun p => HSS_get_qc_high (liveness_storage p)) <$> (cl : gmap _ _) !! id)).

Context (cl : Cluster) (Hin : in_step l v last cl) (Hlive : leader ∈ live).

Lemma new_view_event_spec id :
  id ∈ live ->
  available cl leader (new_view_event cl id) /\
  exists qc, new_view_event cl id = PE_NewView (Context_single id leader v) qc /\
    qc_certifies (public_keys s) l (if decide (id = last) then k else k - 1)%nat qc.
Proof.
  intros Hid. destruct (is_members _ _ _ _ Hin id Hid) as (p & Hp & y & z & Hm & (_ & ldr & El & Hs) & _).
  rewrite Hlead in El. apply Ret_inv in El as <-. unfold new_view_event. rewrite Hp. split.
  - split; [done|]. by exists id, p.
  - eexists. split; [done|]. apply Hm.
Qed.

(** The leader with the messages of [acc]. *)
Definition collected y z (acc : list string) p : Prop :=
  exists x nvs, collecting l k x y z v leader p nvs /\ (x <= k)%nat /\
    dom nvs = list_to_set acc /\ (leader = last \/ last ∈ acc -> x = k).

Lemma collects_one y z acc id p :
  id ∈ live -> collected y z acc p ->
  exists p', net_turn p (new_view_event cl id) = Ret (p', false) /\ collected y z (id :: acc) p' /\
    pm_sent p `prefix_of` pm_sent p'.
Proof.
  intros Hid (x & nvs & Hco & Hx & Hdom & Hlast).
  destruct (new_view_event_spec id Hid) as [_ (qc & -> & Hqc)].
  set (j := (if decide (id = last) then k else k - 1)%nat) in *.
  assert (Hj : (j <= k)%nat) by (unfold j; case_decide; lia).
  destruct (leader_new_view s el idx total l k x y z v leader p nvs id leader j qc Hchain Hok Hco Hqc Hj)
    as (p' & Ht & Hco' & Hs). exists p'. split; [done|]. split; [|by rewrite Hs].
  exists (x `max` j)%nat, (<[id:=qc]> nvs). split; [done|]. split; [lia|]. split.
  - by rewrite dom_insert_L, Hdom.
  - intros [->|[<-|Hl]%elem_of_cons]; [|unfold j; rewrite decide_True by done; lia|];
      (rewrite Hlast by auto; lia).
Qed.

(** The new-view messages of all replicas reach the leader. *)
Lemma leader_collects :
  exists p y z nvs, rtc cluster_step cl (<[leader:=p]> (cl : gmap _ _)) /\
    sent_le cl (<[leader:=p]> (cl : gmap _ _)) /\
    collecting l k k y z v leader p nvs /\ map_len nvs = Z.of_nat (length live) /\ (y <= k - 2)%nat /\ (z <= k - 3)%nat.
Proof.
  destruct (is_members _ _ _ _ Hin leader Hlive) as (p0 & Hp0 & y & z & Hm & _ & Hy & Hz & _).
  destruct (phase_one (new_view_event cl) (collected y z) leader live [] cl p0)
    as (p & Hr & (x & nvs & Hco & Hx & Hdom & Hlast) & Hpre).
  - intros acc id p Hid _ HI. by apply collects_one.
  - done.
  - eexists _, ∅. split; [by apply member_collecting|].
    split; [case_decide; lia|]. split; [by rewrite dom_empty_L|].
    intros [->|[]%elem_of_nil]. by rewrite decide_True.
  - rewrite app_nil_r, reverse_Permutation. apply Hcl.
  - intros id Hid. by apply new_view_event_spec.
  - rewrite app_nil_r in Hdom, Hlast.
    rewrite Hlast in Hco by (right; rewrite reverse_Permutation; apply Hin).
    exists p, y, z, nvs. split; [done|]. split; [by eapply sent_le_insert|]. split; [done|].
    split; [|done]. unfold map_len. rewrite <-size_dom, Hdom.
    rewrite size_list_to_set by (rewrite reverse_Permutation; apply Hcl). by rewrite length_reverse.
Qed.
End View.

(** ** The proposal *)

(** The last proposal of a chain. *)
Definition tip l : TreeNode := default INIT_NODE (last l).

Lemma tip_lookup l : (INIT_NODE :: l) !! length l = Some (tip l).
Proof.
  unfold tip. destruct l as [|n l] using rev_ind; [done|].
  rewrite last_snoc, length_app, Nat.add_1_r. cbn [lookup list_lookup default].
  by apply list_lookup_middle.
Qed.

Lemma tip_snoc l n : tip (l ++ [n]) = n.
Proof. unfold tip. by rewrite last_snoc. Qed.

(** The hashes of the proposals that carry the given batches on top of [h] from view [v]
    on: the certificate does not enter the hash.  A plan has a batch for the views in which
    a proposal is made, and nothing for the views that time out. *)
Fixpoint plan_hashes (h : NodeHash) (v : Z) (plan : list (option (list Txn))) : list NodeHash :=
  match plan with
  | [] => []
  | None :: plan => plan_hashes h (v + 1) plan
  | Some cmds :: plan =>
      let h := TreeNode_hash (TreeNode_new cmds v h INIT_QC) in
      h :: plan_hashes h (v + 1) plan
  end.

Definition hashes_ok (hs : list NodeHash) : Prop := NoDup hs /\ qc_node zeroed_qc ∉ hs.

(** What the leader proposes extends the chain. *)
Lemma proposal_extends l y z v leader p nvs cmds :
  certified_chain (public_keys s) INIT_NODE l -> chain_height l (length l) < v ->
  collecting l (length l) (length l) y z v leader p nvs ->
  let prop := Machine_make_leaf (pm_machine p) cmds in
  certified_chain (public_keys s) INIT_NODE (l ++ [prop]) /\
  TreeNode_hash prop =
    TreeNode_hash (TreeNode_new cmds v (TreeNode_hash (tip l)) INIT_QC) /\
  qc_certifies (public_keys s) l (length l) (node_justify prop) /\ node_txs prop = cmds /\
  node_height prop = v.
Proof.
  intros Hch Hlt [_ _ _ Hsv Hf Hq _ _ _] prop.
  pose proof (fs_leaf _ _ _ _ _ _ Hf) as Hl. pose proof (tip_lookup l) as Ht.
  assert (Elf : HSS_get_leaf (liveness_storage p) = tip l) by congruence.
  assert (Eprop : prop = TreeNode_new cmds v (TreeNode_hash (tip l))
                           (HSS_get_qc_high (liveness_storage p))).
  { unfold prop, Machine_make_leaf. cbn [get_leaf get_qc_high get_view HSS_SafetyStorage].
    change (m_storage (pm_machine p)) with (liveness_storage p). by rewrite Elf, Hsv. }
  rewrite Eprop. split_and!; [|done|exact Hq|done|done].
  apply (certified_chain_snoc _ _ _ (tip l)); [done|done|].
  destruct Hq as (n & Hn & Hqn & _ & Hver). rewrite Ht in Hn. injection Hn as <-.
  split_and!; [|done|done|exact Hver].
  cbn [node_height TreeNode_new]. by rewrite (full_height l _ _ Ht).
Qed.

Lemma member_extend l l0 k x y z v id p :
  (k <= length l)%nat -> member_at l k x y z v id p -> member_at (l ++ l0) k x y z v id p.
Proof.
  intros Hk []. split; try done; [by apply fed_extend|by apply qc_certifies_extend].
Qed.

Lemma proposing_extend l l0 k y z v prop acc id p :
  (k <= length l)%nat -> proposing l k y z v prop acc id p -> proposing (l ++ l0) k y z v prop acc id p.
Proof.
  intros Hk [? ? ? (s0 & Hf & ?) ? ? ?]. split; try done. exists s0. split; [|done]. by apply fed_extend.
Qed.

(** ** The replicas vote *)

Section Round.
Context (l : list TreeNode) (v : Z) (last leader : string) (prop : TreeNode) (yl zl : nat).
#[local] Abbreviation k := (length l).
Context (Hchain : certified_chain (public_keys s) INIT_NODE (l ++ [prop])) (Hok : chain_hashes_ok (INIT_NODE :: (l ++ [prop])))
  (Hjust : qc_certifies (public_keys s) l k (node_justify prop)) (Hheight : node_height prop = v)
  (Hb : 0 <= v < 2 ^ 63)
  (Hlead : get_leader el v = Ret leader) (Hlive : leader ∈ live).

Lemma new_prop_at : (INIT_NODE :: (l ++ [prop])) !! S k = Some prop.
Proof. cbn [lookup list_lookup]. by apply list_lookup_middle. Qed.

(** A replica that has voted and is in the next view. *)
Definition follower id p : Prop :=
  member_at (l ++ [prop]) (S k) k (k - 1) (k - 2) (v + 1) id p /\ announced el (v + 1) id p /\
  vote_event s idx leader v prop id ∈ pm_sent p.

Lemma has_voted_follower y z id p p' :
  has_voted s el idx total (l ++ [prop]) k v prop leader k (y `max` (k - 1)) (z `max` (k - 2)) id p p' ->
  (y <= k - 2)%nat -> (z <= k - 3)%nat ->
  follower id p' /\ pm_sent p `prefix_of` pm_sent p'.
Proof.
  intros (Hm & Ha & Hv & Hpre) Hy Hz.
  replace (y `max` (k - 1))%nat with (k - 1)%nat in Hm by lia.
  replace (z `max` (k - 2))%nat with (k - 2)%nat in Hm by lia. by split.
Qed.

Lemma direct_step id p :
  id <> leader -> id = last \/ k = 0%nat -> member_in_step l v last id p ->
  exists p', net_turn p (PE_NewProposal (proposal_ctx v leader) prop) = Ret (p', false) /\ follower id p' /\
    pm_sent p `prefix_of` pm_sent p'.
Proof.
  intros Hne Hx (y & z & Hm & _ & Hy & Hz & _).
  replace (if decide (id = last) then k else k - 1)%nat with k in Hm by (case_decide; [done|]; destruct Hx; [done|lia]).
  apply (member_extend l [prop]) in Hm; [|done].
  destruct (member_votes s el idx total (ok_elector Hcl) (l ++ [prop]) k v prop leader Hchain Hok new_prop_at
    (qc_certifies_extend _ _ _ _ _ Hjust) Hheight (proj2 Hb) (ok_wait Hcl) y z id p Hm ltac:(lia) Hne) as (p' & Ht & Hvo).
  exists p'. split; [done|]. by apply (has_voted_follower y z).
Qed.

(** The part of a replica that has to synchronise first; [j] is the height of its leaf. *)
Definition lagging j id p : Prop :=
  waiting s el idx total (l ++ [prop]) k v prop leader j (k - 2) (k - 3) id p /\
  sync_request (l ++ [prop]) v leader j id ∈ pm_sent p.

Lemma lagging_step j id p :
  k = S j -> id <> last -> member_in_step l v last id p ->
  exists p', net_turn p (PE_NewProposal (proposal_ctx v leader) prop) = Ret (p', false) /\ lagging j id p' /\
    pm_sent p `prefix_of` pm_sent p'.
Proof.
  intros Hk Hne (y & z & Hm & _ & _ & _ & [-> ->]%(fun f => f Hne)).
  rewrite decide_False in Hm by done. replace (k - 1)%nat with j in Hm by lia.
  apply (member_extend l [prop]) in Hm; [|done].
  assert (Hm' : member_at (l ++ [prop]) (S j) j (k - 2) (k - 3) v id p) by (rewrite <-Hk; exact Hm).
  destruct (member_requests s el idx total (l ++ [prop]) k v prop leader Hchain new_prop_at
    (qc_certifies_extend _ _ _ _ _ Hjust) Hheight (proj2 Hb) j _ _ id p Hk Hm' Hlead) as (p' & Ht & Hw & Hs).
  exists p'. split; [done|]. rewrite Hs. split; [split; [done|]|by apply prefix_app_r].
  rewrite Hs. apply elem_of_app. right. by left.
Qed.

Lemma synced_step j id p :
  k = S j -> id <> leader -> lagging j id p ->
  exists p', net_turn p (sync_response (l ++ [prop]) v prop leader j (tip l) id) = Ret (p', false) /\ follower id p' /\
    pm_sent p `prefix_of` pm_sent p'.
Proof.
  intros Hk Hne [Hw _].
  destruct (member_synced s el idx total (ok_elector Hcl) (l ++ [prop]) k v prop leader Hchain Hok new_prop_at
    (qc_certifies_extend _ _ _ _ _ Hjust) Hheight (proj2 Hb) (ok_wait Hcl) j _ _ id p (tip l)
    (Context_single leader id v) Hk Hw ltac:(lia) Hne) as (p' & Ht & Hvo).
  { rewrite app_comm_cons. apply lookup_app_l_Some, tip_lookup. }
  exists p'. split; [exact Ht|]. apply (has_voted_follower (k - 2) (k - 3)); [done|lia|lia].
Qed.

(** The leader with the requests of [acc] answered. *)
Definition answered j (acc : list string) p : Prop :=
  proposing (l ++ [prop]) k yl zl v prop [(leader, idx leader)] leader p /\
  forall id, id ∈ acc -> sync_response (l ++ [prop]) v prop leader j (tip l) id ∈ pm_sent p.

Lemma answer_step j acc id p :
  k = S j -> answered j acc p ->
  exists p', net_turn p (sync_request (l ++ [prop]) v leader j id) = Ret (p', false) /\ answered j (id :: acc) p' /\
    pm_sent p `prefix_of` pm_sent p'.
Proof.
  intros Hk [Hpr Hacc].
  destruct (leader_answers s el idx total (l ++ [prop]) k v prop Hchain Hok new_prop_at j yl zl _ leader p (tip l) id Hk Hpr)
    as (p' & Ht & Hpr' & Hs). { rewrite app_comm_cons. apply lookup_app_l_Some, tip_lookup. }
  exists p'. split; [done|]. split; [split; [done|]|rewrite Hs; by apply prefix_app_r].
  intros id' Hid'. rewrite Hs. apply elem_of_app.
  apply elem_of_cons in Hid' as [->|Hid']; [right; by left|left; auto].
Qed.

(** The replicas other than the leader. *)
Definition others : list string := filter (fun id => id <> leader) live.

Lemma others_spec id : id ∈ others <-> id <> leader /\ id ∈ live.
Proof. unfold others. by rewrite list_elem_of_filter. Qed.

Lemma others_NoDup : NoDup others.
Proof. apply NoDup_filter, Hcl. Qed.

(** The cluster when the proposal has been made. *)
Record proposed (cl : Cluster) : Prop := {
  pd_leader : exists p, (cl : gmap _ _) !! leader = Some p /\
    proposing (l ++ [prop]) k yl zl v prop [(leader, idx leader)] leader p /\
    PE_NewProposal (proposal_ctx v leader) prop ∈ pm_sent p;
  pd_others id : id ∈ others -> exists p, (cl : gmap _ _) !! id = Some p /\ member_in_step l v last id p;
}.

(** The cluster when all replicas have voted. *)
Record all_voted (cl : Cluster) : Prop := {
  av_leader : exists p, (cl : gmap _ _) !! leader = Some p /\
    proposing (l ++ [prop]) k yl zl v prop [(leader, idx leader)] leader p;
  av_others id : id ∈ others -> exists p, (cl : gmap _ _) !! id = Some p /\ follower id p;
}.

(** The replicas that can vote at once do. *)
Lemma direct_phase cl :
  proposed cl ->
  let direct := filter (fun id => id = last \/ k = 0%nat) others in
  exists cl' : Cluster, rtc cluster_step cl cl' /\ sent_le cl cl' /\
    (forall id, id ∈ direct -> exists p, (cl' : gmap _ _) !! id = Some p /\ follower id p) /\
    (forall id, id ∉ direct -> (cl' : gmap _ _) !! id = (cl : gmap _ _) !! id).
Proof.
  intros [(pl & Hpl & _ & Hs) Ho] direct.
  apply (phase_all (fun _ => Ev_net (PE_NewProposal (proposal_ctx v leader) prop))
    (fun id p => id <> leader /\ (id = last \/ k = 0%nat) /\ member_in_step l v last id p)).
  - intros id p (Hne & Hx & Hm). by apply direct_step.
  - apply NoDup_filter, others_NoDup.
  - intros id [Hx Hid]%list_elem_of_filter. destruct (Ho id Hid) as (p & Hp & Hm). exists p.
    split; [done|]. split; [apply dl_net; split; [done|by exists leader, pl]|].
    by apply others_spec in Hid as [? _].
Qed.

(** The others ask for the branch, get it from the leader, and vote. *)
Lemma lagging_phase j cl (lag : list string) :
  k = S j -> NoDup lag -> (forall id, id ∈ lag -> id ∈ others /\ id <> last) ->
  (exists p, (cl : gmap _ _) !! leader = Some p /\
    proposing (l ++ [prop]) k yl zl v prop [(leader, idx leader)] leader p) ->
  (forall id, available cl id (PE_NewProposal (proposal_ctx v leader) prop)) ->
  (forall id, id ∈ lag -> exists p, (cl : gmap _ _) !! id = Some p /\ member_in_step l v last id p) ->
  exists cl' : Cluster, rtc cluster_step cl cl' /\
    (exists p, (cl' : gmap _ _) !! leader = Some p /\
      proposing (l ++ [prop]) k yl zl v prop [(leader, idx leader)] leader p) /\
    (forall id, id ∈ lag -> exists p, (cl' : gmap _ _) !! id = Some p /\ follower id p) /\
    (forall id, id ∉ lag -> id <> leader -> (cl' : gmap _ _) !! id = (cl : gmap _ _) !! id).
Proof.
  intros Hk Hnd Hlag (pl & Hpl & Hpr) Hav Hm.
  assert (Hnl : leader ∉ lag) by (intros Hin; apply Hlag in Hin as [[? _]%others_spec _]; done).
  destruct (phase_all (fun _ => Ev_net (PE_NewProposal (proposal_ctx v leader) prop))
    (fun id p => id <> last /\ member_in_step l v last id p) (lagging j) lag cl)
    as (cl1 & Hr1 & _ & Hin1 & Hout1).
  { intros id p [Hne Hmi]. by apply lagging_step. }
  { done. }
  { intros id Hid. destruct (Hm id Hid) as (p & Hp & Hmi). exists p.
    split; [done|]. split; [by apply dl_net|]. by apply Hlag in Hid as [_ ?]. }
  destruct (phase_one (sync_request (l ++ [prop]) v leader j) (answered j) leader lag [] cl1 pl)
    as (pl' & Hr2 & [Hpr' Hans] & _).
  { intros acc id p _ _ Ha. by apply answer_step. }
  { by rewrite Hout1. }
  { split; [done|]. by intros id []%elem_of_nil. }
  { by rewrite app_nil_r, reverse_Permutation. }
  { intros id Hid. destruct (Hin1 id Hid) as (p & Hp & _ & Hs). split; [done|]. by exists id, p. }
  set (cl2 := <[leader:=pl']> (cl1 : gmap _ _)) in *.
  destruct (phase_all (fun id => Ev_net (sync_response (l ++ [prop]) v prop leader j (tip l) id)) (fun id p => id <> leader /\ lagging j id p)
    follower lag cl2) as (cl3 & Hr3 & _ & Hin3 & Hout3).
  { intros id p [Hne Hla]. by apply synced_step with (j := j). }
  { done. }
  { intros id Hid. destruct (Hin1 id Hid) as (p & Hp & Hla). assert (id <> leader) by (by intros ->).
    exists p. split; [unfold cl2; by rewrite lookup_insert_ne|]. split; [|done]. apply dl_net.
    split; [done|]. exists leader, pl'. unfold cl2. rewrite lookup_insert_eq. split; [done|].
    apply Hans. by rewrite app_nil_r, reverse_Permutation. }
  exists cl3. split; [by etransitivity; [exact Hr1|]; etransitivity; [exact Hr2|]|]. split.
  - exists pl'. rewrite Hout3 by done. unfold cl2. by rewrite lookup_insert_eq.
  - split; [done|]. intros id Hid Hne. rewrite Hout3 by done. unfold cl2.
    rewrite lookup_insert_ne by done. by apply Hout1.
Qed.

Lemma replicas_vote cl :
  proposed cl -> exists cl', rtc cluster_step cl cl' /\ all_voted cl'.
Proof.
  intros Hpd. destruct (direct_phase cl Hpd) as (cl1 & Hr1 & Hle1 & Hin1 & Hout1).
  pose proof Hpd as [(pl & Hpl & Hpr & Hs) Ho].
  set (direct := filter (fun id => id = last \/ k = 0%nat) others) in *.
  assert (Hnl : leader ∉ direct) by (intros [_ [? _]%others_spec]%list_elem_of_filter; done).
  destruct (decide (k = 0%nat)) as [H0|Hk].
  { exists cl1. split; [done|]. split; [exists pl; by rewrite Hout1|].
    intros id Hid. apply Hin1, list_elem_of_filter. auto. }
  destruct (lagging_phase (k - 1) cl1 (filter (fun id => id <> last) others)) as (cl2 & Hr2 & Hl2 & Hin2 & Hout2).
  - lia.
  - apply NoDup_filter, others_NoDup.
  - intros id [? ?]%list_elem_of_filter. done.
  - exists pl. by rewrite Hout1.
  - intros id. apply Hle1. split; [done|]. by exists leader, pl.
  - intros id [Hne Hid]%list_elem_of_filter. rewrite Hout1; [by apply Ho|].
    intros [[?|?] _]%list_elem_of_filter; done.
  - exists cl2. split; [by etransitivity|]. split; [done|]. intros id Hid.
    destruct (decide (id = last)) as [->|Hne]; [|apply Hin2, list_elem_of_filter; done].
    rewrite Hout2; [apply Hin1, list_elem_of_filter; auto| |by apply others_spec in Hid as [? _]].
    intros [? _]%list_elem_of_filter. done.
Qed.

(** ** The leader counts *)

(** The leader with the votes of [acc] counted, [acc] being among [voters]. *)
Definition votes_counted (voters acc : list string) p : Prop :=
  proposing (l ++ [prop]) k yl zl v prop (((fun id => (id, idx id)) <$> acc) ++ [(leader, idx leader)]) leader p /\
  acc ⊆ voters.

Lemma voter_list_NoDup id acc :
  NoDup (id :: acc) -> id :: acc ⊆ others ->
  let votes := ((fun id => (id, idx id)) <$> acc) ++ [(leader, idx leader)] in
  NoDup (id :: votes.*1) /\ NoDup (idx id :: votes.*2).
Proof.
  intros Hnd Hsub votes.
  assert (E1 : votes.*1 = acc ++ [leader])
    by (unfold votes; rewrite fmap_app, <-list_fmap_compose; cbn; by rewrite list_fmap_id).
  assert (E2 : votes.*2 = idx <$> (acc ++ [leader]))
    by (unfold votes; rewrite !fmap_app, <-list_fmap_compose; done).
  assert (Hnd' : NoDup (id :: acc ++ [leader])).
  { change (NoDup ((id :: acc) ++ [leader])). apply NoDup_app. split; [done|].
    split; [|apply NoDup_singleton]. intros a Ha ->%list_elem_of_singleton.
    apply Hsub, others_spec in Ha as [? _]. done. }
  rewrite E1, E2. split; [done|]. change (NoDup (idx <$> (id :: acc ++ [leader]))).
  assert (Hsm : id :: acc ++ [leader] ⊆+ live).
  { apply NoDup_submseteq; [done|]. intros a Ha.
    change (a ∈ (id :: acc) ++ [leader]) in Ha. apply elem_of_app in Ha as [Ha|Ha].
    - by apply Hsub, others_spec in Ha as [_ ?].
    - by apply list_elem_of_singleton in Ha as ->. }
  apply submseteq_Permutation in Hsm as [rest Hperm]. pose proof (ok_idx Hcl) as Hi.
  rewrite Hperm, fmap_app in Hi. by apply NoDup_app in Hi as [? _].
Qed.

Lemma count_step voters acc id p :
  voters ⊆ others -> Z.of_nat (length voters) < quorum_threshold total -> id ∈ voters -> NoDup (id :: acc) ->
  votes_counted voters acc p ->
  exists p', net_turn p (vote_event s idx leader v prop id) = Ret (p', false) /\
    votes_counted voters (id :: acc) p' /\ pm_sent p `prefix_of` pm_sent p'.
Proof.
  intros Hvo Hlen Hid Hnd [Hpr Hsub].
  assert (Hsub' : id :: acc ⊆ voters) by (intros a [->|?]%elem_of_cons; auto).
  destruct (voter_list_NoDup id acc Hnd) as [Hn1 Hn2]; [by etransitivity|].
  destruct (ok_quorum Hcl) as [Ht0 _].
  destruct (leader_counts s el idx total Ht0 (ok_scheme Hcl) (l ++ [prop]) k v prop Hchain Hok new_prop_at Hheight Hb
    (ok_elector Hcl) yl zl _ leader p id Hpr Hn1 Hn2) as (p' & Ht & Hpre & Hr).
  exists p'. split; [done|]. split; [|done]. split; [|done].
  assert (Hle : (length (id :: acc) <= length voters)%nat) by (by apply submseteq_length, NoDup_submseteq).
  rewrite length_app, length_fmap in Hr. cbn [length] in Hr, Hle.
  destruct (Z.ltb_spec (quorum_threshold total) (Z.of_nat (S (length acc + 1)))); [lia|exact Hr].
Qed.

(** Enough others run to reach the threshold; the last of them completes the quorum. *)
Lemma quorum_voters :
  exists init w, init ++ [w] ⊆ others /\ NoDup (init ++ [w]) /\
    Z.of_nat (S (length init)) = quorum_threshold total.
Proof.
  pose proof (ok_quorum Hcl) as Hth. set (th := Z.to_nat (quorum_threshold total)).
  assert (Hlo : (th <= length others)%nat).
  { unfold th. assert (live ≡ₚ leader :: others) as Hp.
    { apply NoDup_Permutation; [apply Hcl|apply NoDup_cons; split; [|apply others_NoDup]|].
      - intros [? _]%others_spec. done.
      - intros a. rewrite elem_of_cons, others_spec.
        destruct (decide (a = leader)) as [->|]; tauto. }
    apply Permutation_length in Hp. simpl in Hp. lia. }
  assert (Hlt : length (take th others) = th) by (rewrite length_take; lia).
  destruct (exists_last (l := take th others)) as (init & w & Ew).
  { intros E. rewrite E in Hlt. simpl in Hlt. lia. }
  rewrite Ew, length_app in Hlt. simpl in Hlt. exists init, w. rewrite <-Ew. split_and!; [| |lia].
  - intros a Ha. rewrite <-(take_drop th others). apply elem_of_app. by left.
  - pose proof others_NoDup as Hn. rewrite <-(take_drop th others) in Hn. by apply NoDup_app in Hn as [? _].
Qed.

Lemma votes_phase cl :
  all_voted cl ->
  exists p, rtc cluster_step cl (<[leader:=p]> (cl : gmap _ _)) /\
    member_at (l ++ [prop]) (S k) (S k) yl zl (v + 1) leader p /\ announced el (v + 1) leader p.
Proof.
  intros [(pl & Hpl & Hpr) Ho]. destruct (ok_quorum Hcl) as [Hth _].
  destruct quorum_voters as (init & w & Hsub & Hnd & Hlt).
  assert (Hav : forall id, id ∈ init ++ [w] -> available cl leader (vote_event s idx leader v prop id)).
  { intros id Hid%Hsub. destruct (Ho id Hid) as (p & Hp & _ & _ & Hs). split; [done|]. by exists id, p. }
  destruct (phase_one (vote_event s idx leader v prop) (votes_counted init) leader init [] cl pl)
    as (p1 & Hr1 & [Hpr1 _] & Hpre1).
  { intros acc id p Hid Hn Hc. apply count_step; [|lia|done..].
    intros a Ha. apply Hsub, elem_of_app. by left. }
  { done. }
  { split; [done|]. by intros a ?%elem_of_nil. }
  { rewrite app_nil_r, reverse_Permutation. by apply NoDup_app in Hnd as [? _]. }
  { intros id Hid. apply Hav, elem_of_app. by left. }
  rewrite app_nil_r in Hpr1.
  destruct (voter_list_NoDup w (reverse init)) as [Hn1 Hn2].
  { by rewrite reverse_Permutation, Permutation_cons_append. }
  { rewrite reverse_Permutation, Permutation_cons_append. done. }
  destruct (leader_counts s el idx total Hth (ok_scheme Hcl) (l ++ [prop]) k v prop Hchain Hok new_prop_at Hheight Hb
    (ok_elector Hcl) yl zl _ leader p1 w Hpr1 Hn1 Hn2) as (p' & Ht & Hpre & Hr).
  rewrite length_app, length_fmap, length_reverse in Hr. cbn [length] in Hr.
  destruct (Z.ltb_spec (quorum_threshold total) (Z.of_nat (S (length init + 1)))); [|lia].
  exists p'. split; [|exact Hr]. etransitivity; [exact Hr1|]. apply rtc_once.
  rewrite <-(insert_insert_eq (cl : gmap _ _) leader p' p1).
  apply (cluster_net _ leader p1 p' (vote_event s idx leader v prop w)); [apply lookup_insert_eq| |done].
  apply (sent_le_insert cl leader pl p1 Hpl Hpre1), Hav, elem_of_app. right. by left.
Qed.
End Round.

(** ** One view *)

(** A view with a running leader: it gets the new-view messages, proposes [cmds], the
    replicas vote, and all are in step in the next view, with the proposal at the end of
    the chain. *)
Lemma cluster_view l v last leader cl cmds :
  in_step l v last cl -> 0 <= v < 2 ^ 63 -> get_leader el v = Ret leader -> leader ∈ live ->
  hashes_ok ((TreeNode_hash <$> INIT_NODE :: l) ++ plan_hashes (TreeNode_hash (tip l)) v [Some cmds]) ->
  exists cl' prop, rtc cluster_step cl cl' /\
    in_step (l ++ [prop]) (v + 1) leader cl' /\ node_txs prop = cmds /\
    TreeNode_hash prop = TreeNode_hash (TreeNode_new cmds v (TreeNode_hash (tip l)) INIT_QC).
Proof.
  intros Hin Hb Hlead Hld Hhs. pose proof Hin as [Hch Hok Hab Hlast Hmem].
  destruct (leader_collects l v last leader Hch Hok Hlead cl Hin Hld)
    as (p1 & y & z & nvs & Hr1 & Hle1 & Hco & Hlen & Hy & Hz).
  pose proof (ok_quorum Hcl) as [Ht0 Ht1].
  destruct (proposal_extends l y z v leader p1 nvs cmds Hch Hab Hco) as (Hch' & Hph & Hj & Htx & Hh).
  destruct (leader_offers s el idx total Ht0 (ok_scheme Hcl) l (length l) y z v leader p1 nvs cmds Hab Hb Hco)
    as (p2 & Ht2 & Hpr2 & Hs2); [lia|].
  set (prop := Machine_make_leaf (pm_machine p1) cmds) in *.
  assert (Hok' : chain_hashes_ok (INIT_NODE :: l ++ [prop])).
  { change (hashes_ok (TreeNode_hash <$> (INIT_NODE :: l) ++ [prop])). rewrite fmap_app.
    change (TreeNode_hash <$> [prop]) with [TreeNode_hash prop]. rewrite Hph. exact Hhs. }
  set (cl2 := <[leader:=p2]> (cl : gmap _ _)).
  assert (Hstep : cluster_step (<[leader:=p1]> (cl : gmap _ _)) cl2).
  { unfold cl2. rewrite <-(insert_insert_eq (cl : gmap _ _) leader p2 p1).
    eapply cluster_turn; [apply lookup_insert_eq|apply dl_tick|exact Ht2]. }
  destruct (replicas_vote l v last leader prop y z Hch' Hok' Hj Hh Hb Hlead cl2) as (cl3 & Hr3 & Hav).
  { split.
    - exists p2. unfold cl2. rewrite lookup_insert_eq. split; [done|].
      split; [by apply proposing_extend|]. rewrite Hs2. apply elem_of_app. right. by left.
    - intros id [Hne Hid]%others_spec. unfold cl2. rewrite lookup_insert_ne by done. by apply Hmem. }
  destruct (votes_phase l v leader prop y z Hch' Hok' Hh Hb Hld cl3 Hav) as (p4 & Hr4 & Hm4 & Ha4).
  exists (<[leader:=p4]> (cl3 : gmap _ _)), prop. split_and!; [| |done|done].
  - etransitivity; [exact Hr1|]. eapply rtc_l; [exact Hstep|]. by etransitivity.
  - assert (El : length (l ++ [prop]) = S (length l)) by (rewrite length_app; simpl; lia).
    split; [done|done| |done|].
    { rewrite El, <-(full_height _ _ _ (new_prop_at l prop)), Hh. lia. }
    intros id Hid. unfold member_in_step. rewrite El. destruct (decide (id = leader)) as [->|Hne].
    + exists p4. rewrite lookup_insert_eq. split; [done|]. exists y, z. split_and!; [done|done|lia|lia|done].
    + destruct (av_others _ _ _ _ _ _ _ Hav id) as (p & Hp & Hm & Ha & _); [by apply others_spec|].
      exists p. rewrite lookup_insert_ne by done. split; [done|].
      exists (length l - 1)%nat, (length l - 2)%nat. replace (S (length l) - 1)%nat with (length l) by lia.
      split_and!; [done|done|lia|lia|]. intros _. lia.
Qed.

(** A view in which no proposal comes: the timers of all replicas fire, and all are in step
    in the next view with the chain they had. *)
Lemma silent_view l v last cl :
  in_step l v last cl -> 0 <= v < 2 ^ 63 ->
  exists cl', rtc cluster_step cl cl' /\ in_step l (v + 1) last cl'.
Proof.
  intros [Hch Hok Hab Hlast Hmem] Hb.
  destruct (phase_all (fun _ => Ev_timeout (ViewTimeout v)) (fun id p => member_in_step l v last id p)
    (fun id p => member_in_step l (v + 1) last id p) live cl) as (cl' & Hr & _ & Hin & _).
  - intros id p (y & z & Hm & _ & Hyz).
    destruct (member_times_out _ _ _ _ (ok_elector Hcl) _ _ _ _ _ _ _ _ Hm Hb) as (p' & Ht & Hm' & Ha & Hpre).
    exists p'. split; [exact Ht|]. split; [|done]. by exists y, z.
  - apply Hcl.
  - intros id Hid. destruct (Hmem id Hid) as (p & Hp & Hm). exists p. split; [done|]. split; [|done].
    destruct Hm as (y & z & _ & [Ha _] & _). apply dl_timeout. by left.
  - exists cl'. split; [done|]. split; [done|done|lia|done|done].
Qed.

(** ** Any number of views *)

Lemma hashes_ok_app hs1 hs2 : hashes_ok (hs1 ++ hs2) -> hashes_ok hs1.
Proof.
  intros [Hn Hz]. apply NoDup_app in Hn as [Hn _]. split; [done|].
  intros Hin. apply Hz, elem_of_app. by left.
Qed.

(** The leaders of the views with a proposal run. *)
Fixpoint leaders_live (v : Z) (plan : list (option (list Txn))) : Prop :=
  match plan with
  | [] => True
  | None :: plan => leaders_live (v + 1) plan
  | Some _ :: plan =>
      (exists leader, get_leader el v = Ret leader /\ leader ∈ live) /\ leaders_live (v + 1) plan
  end.

Lemma leaders_live_all v plan : round_mapper el ⊆ live -> leaders_live v plan.
Proof.
  intros Hsub. revert v. induction plan as [|[cmds|] plan IH]; intros v; [done| |by apply IH].
  split; [|by apply IH]. destruct (get_leader_total el v (ok_elector Hcl)) as (leader & Hl & Hin).
  exists leader. auto.
Qed.

Lemma cluster_views plan : forall l v last cl,
  in_step l v last cl -> 0 <= v -> v + Z.of_nat (length plan) < 2 ^ 63 -> leaders_live v plan ->
  hashes_ok ((TreeNode_hash <$> INIT_NODE :: l) ++ plan_hashes (TreeNode_hash (tip l)) v plan) ->
  exists cl' last' l', rtc cluster_step cl cl' /\
    in_step (l ++ l') (v + Z.of_nat (length plan)) last' cl' /\ node_txs <$> l' = omap id plan.
Proof.
  induction plan as [|[cmds|] plan IH]; intros l v last cl Hin Hv Hb Hlv Hhs.
  - exists cl, last, []. rewrite app_nil_r, Z.add_0_r. by split; [apply rtc_refl|].
  - cbn [plan_hashes] in Hhs. rewrite (cons_middle _ _ (plan_hashes _ _ _)), app_assoc in Hhs.
    destruct Hlv as [(leader & Hlead & Hld) Hlv].
    destruct (cluster_view l v last leader cl cmds Hin) as (cl1 & prop & Hr1 & Hin1 & Htx & Hph);
      [simpl in Hb; lia|done|done|by eapply hashes_ok_app|].
    destruct (IH (l ++ [prop]) (v + 1) leader cl1 Hin1) as (cl2 & last2 & l2 & Hr2 & Hin2 & Htx2);
      [lia|simpl in Hb; lia|done| |].
    { rewrite tip_snoc, app_comm_cons, fmap_app.
      change (TreeNode_hash <$> [prop]) with [TreeNode_hash prop]. rewrite Hph. exact Hhs. }
    exists cl2, last2, (prop :: l2). rewrite <-app_assoc in Hin2. split; [by etransitivity|]. split.
    + replace (v + Z.of_nat (length (Some cmds :: plan))) with (v + 1 + Z.of_nat (length plan)) by (simpl; lia).
      exact Hin2.
    + cbn. by rewrite Htx, <-Htx2.
  - destruct (silent_view l v last cl Hin) as (cl1 & Hr1 & Hin1); [simpl in Hb; lia|].
    destruct (IH l (v + 1) last cl1 Hin1) as (cl2 & last2 & l2 & Hr2 & Hin2 & Htx2);
      [lia|simpl in Hb; lia|done|done|].
    exists cl2, last2, l2. split; [by etransitivity|]. split; [|done].
    replace (v + Z.of_nat (length (None :: plan))) with (v + 1 + Z.of_nat (length plan)) by (simpl; lia).
    exact Hin2.
Qed.

(** ** A fresh cluster *)

(** The pacemaker of [id] over an empty store in memory. *)
Definition fresh_pacemaker (peers : gmap string string) id : Pacemaker HotstuffStorage :=
  let sg := member s (idx id) in
  let storage := init_in_mem_storage total INIT_NODE INIT_NODE_HASH INIT_QC id peers sg in
  Pacemaker_new id el (Machine_new (Voter_new (quorum_threshold total) sg) id total None storage) sg.

(** The running replicas have started their event loops. *)
Definition booted cl : Prop :=
  forall id, id ∈ live -> exists peers p,
    (cl : gmap _ _) !! id = Some p /\ loop_start (fresh_pacemaker peers id) = Ret p.

Lemma booted_member peers id p :
  loop_start (fresh_pacemaker peers id) = Ret p ->
  member_at [] 0 0 0 0 1 id p /\ announced el 1 id p.
Proof.
  intros H. unfold loop_start in H. apply bind_Ret_inv in H as (p1 & H & H').
  apply bind_Ret_inv in H' as (d & _ & H'). apply Ret_inv in H' as <-.
  unfold goto_new_view in H. apply bind_Ret_inv in H as (leader & Hl & H). apply Ret_inv in H as <-.
  assert (Hn : forall w, new_views (HSS_clean_new_view_set (HSS_increase_view
    (liveness_storage (fresh_pacemaker peers id)) 1) 1) w = ∅).
  { intros w. rewrite new_views_clean. by case_decide. }
  split.
  - split; [by split|by split|done|done| | |done|intros w Hw; apply Hn].
    + pose proof (fed_init [] total peers id (member s (idx id))) as Hf.
      apply (fed_at_view _ _ _ _ _ 1) in Hf. revert Hf. by apply fed_proper.
    + exists INIT_NODE. split_and!; [done|done|done|]. left. by apply bool_decide_eq_true.
  - split; [apply view_timeout_only_armed|]. exists leader. split; [exact Hl|]. apply elem_of_app. right. by left.
Qed.

Lemma booted_in_step cl last :
  booted cl -> last ∈ live -> chain_hashes_ok [INIT_NODE] -> in_step [] 1 last cl.
Proof.
  intros Hbt Hl Hok. split; [done..|]. intros id Hid.
  destruct (Hbt id Hid) as (peers & p & Hp & Hstart).
  apply booted_member in Hstart as [Hm Ha]. exists p. split; [done|].
  exists 0%nat, 0%nat. split_and!; [|done..]. by destruct (decide (id = last)).
Qed.

(** The running replicas, each started. *)
Definition start_cluster (peers : gmap string string) : Cluster :=
  list_to_map ((fun id => (id, ret_or (fresh_pacemaker peers id) (loop_start (fresh_pacemaker peers id))))
                 <$> live).

Lemma start_cluster_booted peers : is_Some FLUSH_INTERVAL -> booted (start_cluster peers).
Proof.
  intros [d Hd] id Hid. exists peers. set (p0 := fresh_pacemaker peers id).
  assert (Hs : exists p, loop_start p0 = Ret p).
  { unfold loop_start, goto_new_view.
    destruct (get_leader_total el 1 (ok_elector Hcl)) as (leader & Hl & _).
    match goal with |- context [get_leader ?e ?w] =>
      change (get_leader e w) with (get_leader el 1) end.
    rewrite Hl, Hd. by eexists. }
  destruct Hs as [p Hp]. exists p. split; [|exact Hp].
  refine (elem_of_list_to_map_1 (M := gmap string) _ id p _ _).
  - rewrite <-list_fmap_compose. cbn. rewrite list_fmap_id. apply Hcl.
  - apply list_elem_of_fmap. exists id. fold p0. by rewrite Hp.
Qed.

(** C3. The replicas of a cluster together make progress, also past leaders that are down.
    A quorum of replicas with different key shares has just started over empty stores and
    the others are silent. A plan says for every coming view either which batch of
    transactions is offered, the leader of the view being among the running replicas, or
    that the view times out; its proposals have different hashes. Then there is a run of
    the cluster, each step of which is a turn of the event loop of one replica on a
    message that was sent to it, on a tick or on a timeout of its running timer, after
    which every running replica is in the view after the plan and stores one and the same
    chain of certified proposals with exactly the batches of the plan in order; the maker
    of the last proposal has it as leaf and a certificate of it, and every other running
    replica has committed all but the last three proposals. *)
Theorem cluster_commits cl plan :
  booted cl -> Z.of_nat (length plan) < 2 ^ 63 - 1 -> leaders_live 1 plan ->
  hashes_ok (INIT_NODE_HASH :: plan_hashes INIT_NODE_HASH 1 plan) ->
  exists cl' l last, rtc cluster_step cl cl' /\ node_txs <$> l = omap id plan /\
    certified_chain (public_keys s) INIT_NODE l /\ last ∈ live /\
    forall id, id ∈ live -> exists p, (cl' : gmap _ _) !! id = Some p /\
      let st := liveness_storage p in
      pm_view p = 1 + Z.of_nat (length plan) /\
      (forall n, n ∈ l -> HSS_get st (TreeNode_hash n) = Some n) /\
      (id = last -> HSS_get_leaf st = tip l /\
         qc_certifies (public_keys s) l (length l) (HSS_get_qc_high st)) /\
      (id <> last -> (INIT_NODE :: l) !! (length l - 3)%nat = Some (HSS_get_last_committed st)).
Proof.
  intros Hbt Hlen Hlv Hhs.
  assert (Hr0 : exists r0, r0 ∈ live).
  { destruct (ok_quorum Hcl) as [? Hq]. destruct live as [|r0 rs]; [simpl in Hq; lia|]. exists r0. by left. }
  destruct Hr0 as [r0 Hr0].
  destruct (cluster_views plan [] 1 r0 cl) as (cl' & last & l & Hr & Hin & Htx); [|lia|lia|done|exact Hhs|].
  { apply booted_in_step; [done|done|]. apply (hashes_ok_app [INIT_NODE_HASH] _ Hhs). }
  cbn [app] in Hin.
  exists cl', l, last. split; [done|]. split; [done|]. split; [apply Hin|]. split; [apply Hin|].
  intros id Hid. destruct (is_members _ _ _ _ Hin id Hid) as (p & Hp & y & z & Hm & _ & _ & _ & Hyz).
  exists p. split; [done|]. destruct Hm as [_ _ Hv _ Hf Hq _ _]. split_and!; [done| | |].
  - intros n [i Hi]%list_elem_of_lookup_1. apply (fs_get _ _ _ _ _ _ Hf (S i)); [done|].
    by apply lookup_lt_Some in Hi.
  - intros ->. rewrite decide_True in Hf, Hq by done. split; [|done].
    pose proof (fs_leaf _ _ _ _ _ _ Hf) as Hlf. rewrite tip_lookup in Hlf. by injection Hlf.
  - intros Hne. destruct (Hyz Hne) as [_ ->]. apply Hf.
Qed.
End ClusterRound.
