(* ===== verification/Recover.v ===== *)
(** * Initialising and recovering the database (hss/src/recover.rs, and the async
      constructors of hss/src/lib.rs and hss/src/persistor.rs)

    A database is [None] before its tables exist.  A query that finds no row, a
    value that does not decode and a duplicate key in a plain [insert] end in an
    [unwrap], hence [Panic].  Where SQL leaves the order of rows open the tables
    are read in the order of [map_to_list]. *)

From S2P Require Import Prelude Crypto HsData CryptoKit SafetyStorage LivenessData Persistor Hss.

Section Recover.
Context `{TC : ThresholdCrypto} {C : Codec}.

(** ** Tables *)

Definition empty_database : Database :=
  {| db_combined_tc := ∅; db_crypto := ∅; db_hotstuff_conf := ∅; db_hotstuff_state := ∅;
     db_partial_tc := ∅; db_peers := ∅; db_proposal := ∅; db_qc := ∅ |}.

Definition drop_tables (_ : option Database) : option Database := None.

(** [CREATE TABLE IF NOT EXISTS]. *)
Definition create_tables (db : option Database) : Database := default empty_database db.

(** [insert into] with a primary key. *)
Definition insert_row {K V : Type} `{Countable K} (k : K) (v : V) (t : gmap K V) :
    outcome (gmap K V) :=
  match t !! k with Some _ => Panic | None => Ret (<[k:=v]> t) end.

Fixpoint insert_peers (peers : list (string * string)) (t : gmap string string) :
    outcome (gmap string string) :=
  match peers with
  | [] => Ret t
  | (id, addr) :: rest => t ← insert_row id addr t; insert_peers rest t
  end.

Definition persist_other_msg (db : option Database) (conf : HotStuffConfig)
    (signaturer : DefaultSignaturer) : outcome Database :=
  let db := drop_tables db in
  let db := create_tables db in
  peers ← insert_peers (map_to_list (conf_peers_addr conf)) (db_peers db);
  self_addr ← unwrap (conf_peers_addr conf !! conf_replica_id conf);
  hotstuff_conf ← insert_row (conf_token conf)
    {| cr_total := conf_total conf; cr_self_addr := self_addr; cr_self_id := conf_replica_id conf |}
    (db_hotstuff_conf db);
  crypto ← insert_row (conf_token conf)
    {| cy_pk_set := json_of_pk (ds_pks signaturer); cy_sk_share := json_of_sk (ds_sks signaturer);
       cy_sk_id := sign_id signaturer |}
    (db_crypto db);
  Ret {| db_combined_tc := db_combined_tc db; db_crypto := crypto;
         db_hotstuff_conf := hotstuff_conf; db_hotstuff_state := db_hotstuff_state db;
         db_partial_tc := db_partial_tc db; db_peers := peers; db_proposal := db_proposal db;
         db_qc := db_qc db |}.

(** [MySQLStorage::init]: takes the pool, fills the tables and hands the pool and the
    receiver to the flusher task. *)
Definition MySQLStorage_init (b : MySQLStorage) (conf : HotStuffConfig)
    (signaturer : DefaultSignaturer) : outcome MySQLStorage :=
  if my_conn_pool b then
    let db := create_tables (drop_tables (Some (my_db b))) in
    db ← persist_other_msg (Some db) conf signaturer;
    if my_recvr_tmp b then
      Ret {| my_conn_pool := false; my_channel := my_channel b; my_recvr_tmp := false;
             my_flusher := true; my_txs := my_txs b; my_db := db |}
    else Panic
  else Ret b.

Definition HSS_init (s : HotstuffStorage) : outcome HotstuffStorage :=
  match hss_backend s with
  | Some backend =>
      backend ← MySQLStorage_init backend (hss_conf s) (hss_signaturer s);
      Ret (set_backend (Some backend) s)
  | None => Ret s
  end.

(** [conn] is the database the connection pool reaches. *)
Definition init_hotstuff_storage (token : string) (total : Z) (init_node : TreeNode)
    (init_node_hash : NodeHash) (self_id : ReplicaID) (peers_addr : gmap string string)
    (conn : Database) (signaturer : DefaultSignaturer) : outcome HotstuffStorage :=
  let backend := Some (MySQLStorage_new conn) in
  let conf := {| conf_token := token; conf_total := total; conf_replica_id := self_id;
                 conf_peers_addr := peers_addr |} in
  hss ← HSS_init (HSS_new token INIT_NODE INIT_QC conf signaturer backend);
  Ret (set_in_mem_queue (<[init_node_hash:=init_node]> (hss_in_mem_queue hss)) hss).

(** ** Reading proposals back *)

(** A row of [proposal inner join qc on proposal.justify_view = qc.view]. *)
Definition map_row_to_proposal (view : ViewNumber) (pr : proposal_row) (qr : qc_row) :
    outcome (NodeHash * TreeNode) :=
  hash_bytes ← unwrap (base64_decode (qr_node_hash qr));
  let node_hash := NodeHash_from_vec hash_bytes in
  txs ← unwrap (txns_of_json (pr_txn pr));
  parent_bytes ← unwrap (base64_decode (pr_parent_hash pr));
  sign_bytes ← unwrap (base64_decode (qr_combined_sign qr));
  combined_sign ← combined_sign_from_vec_u8 sign_bytes;
  Ret (node_hash,
       {| node_height := view; node_txs := txs; node_parent := NodeHash_from_vec parent_bytes;
          node_justify := GenericQC_new view node_hash combined_sign |}).

(** [Ok None] is [RowNotFound]. *)
Definition get_one_node_by_view (db : Database) (view : ViewNumber) :
    outcome (option (NodeHash * TreeNode)) :=
  match db_proposal db !! view with
  | Some pr =>
      match db_qc db !! pr_justify_view pr with
      | Some qr => x ← map_row_to_proposal view pr qr; Ret (Some x)
      | None => Ret None
      end
  | None => Ret None
  end.

Definition joined_row : Type := Z * proposal_row * qc_row.

Definition join_rows (db : Database) : list joined_row :=
  omap (fun vp : Z * proposal_row =>
          (fun qr => (vp.1, vp.2, qr)) <$> db_qc db !! pr_justify_view vp.2)
    (map_to_list (db_proposal db)).

(** [order by proposal.justify_view]. *)
Definition row_le (a b : joined_row) : Prop := pr_justify_view a.1.2 <= pr_justify_view b.1.2.
#[global] Instance row_le_dec : RelDecision row_le := fun a b => Z_le_dec _ _.

(** [collect] into a [HashMap]: a later row replaces an earlier one. *)
Fixpoint collect_rows (rows : list joined_row) (q : gmap NodeHash TreeNode) :
    outcome (gmap NodeHash TreeNode) :=
  match rows with
  | [] => Ret q
  | (view, pr, qr) :: rest =>
      '(h, node) ← map_row_to_proposal view pr qr;
      collect_rows rest (<[h:=node]> q)
  end.

Definition recover_in_mem_queue (db : Database) : outcome (gmap NodeHash TreeNode) :=
  collect_rows (merge_sort row_le (join_rows db)) ∅.

(** ** Timeout certificates, configuration, state, keys *)

(** The column [partial_sign] is parsed as a whole [TimeoutCertificate]. *)
Fixpoint collect_tcs (rows : list (Z * string * string)) (tc_map : gmap Z TcSet) :
    outcome (gmap Z TcSet) :=
  match rows with
  | [] => Ret tc_map
  | (view, _, partial_sign) :: rest =>
      tc ← unwrap (tc_of_json partial_sign);
      let tcs := default (∅ : gmap (Z * string) TimeoutCertificate) (tc_map !! view) in
      collect_tcs rest (<[view:=TcSet_insert tcs tc]> tc_map)
  end.

Definition recover_tc_map (db : Database) : outcome (gmap Z TcSet) :=
  collect_tcs (map_to_list (db_partial_tc db)) ∅.

(** The first row of a table. *)
Definition first_row {V : Type} (t : gmap string V) : option (string * V) := head (map_to_list t).

Definition recover_hotstuff_config (db : Database) : outcome HotStuffConfig :=
  '(token, row) ← unwrap (first_row (db_hotstuff_conf db));
  Ret {| conf_token := token; conf_total := cr_total row; conf_replica_id := cr_self_id row;
         conf_peers_addr := db_peers db |}.

(** A view above zero is looked up, view zero is [INIT_NODE]. *)
Definition recover_node (db : Database) (view : ViewNumber) : outcome TreeNode :=
  if 0 <? view then
    r ← get_one_node_by_view db view;
    '(_, node) ← unwrap r;
    Ret node
  else Ret INIT_NODE.

Definition recover_hotstuff_state (db : Database) : outcome InMemoryState :=
  '(token, row) ← unwrap (first_row (db_hotstuff_state db));
  leaf ← recover_node db (sr_leaf_view row);
  b_locked ← recover_node db (sr_locked_view row);
  last_commit ← recover_node db (sr_executed_view row);
  let qc_high := node_justify leaf in
  Ret {| st_token := token; st_leaf := leaf; st_qc_high := qc_high;
         st_vheight := sr_last_voted_view row; st_current_view := sr_current_view row;
         st_committed_height := sr_committed_view row; st_last_commit := last_commit;
         st_b_locked := b_locked |}.

Definition recover_signaturer (token : string) (db : Database) : outcome DefaultSignaturer :=
  row ← unwrap (db_crypto db !! token);
  pks ← unwrap (pk_of_json (cy_pk_set row));
  sks ← unwrap (sk_of_json (cy_sk_share row));
  Ret {| ds_sign_id := cy_sk_id row; ds_pks := pks; ds_sks := sks |}.

(** [HotstuffStorage::recover]: the backend is a fresh [MySQLStorage]. *)
Definition HSS_recover (token : string) (db : Database) : outcome HotstuffStorage :=
  conf ← recover_hotstuff_config db;
  in_mem_queue ← recover_in_mem_queue db;
  state ← recover_hotstuff_state db;
  tc_map ← recover_tc_map db;
  signaturer ← recover_signaturer token db;
  Ret {| hss_backend := Some (MySQLStorage_new db); hss_state := state; hss_conf := conf;
         hss_signaturer := signaturer; hss_in_mem_queue := in_mem_queue; hss_tc_map := tc_map;
         hss_new_view_set := ∅; hss_combined_tc_queue := []; hss_partial_tc_queue := [];
         hss_prop_queue := []; hss_justify_queue := []; hss_dirty := false |}.
End Recover.

(** ** Theorems *)

Section RecoverTheorems.
Context `{TC : ThresholdCrypto} {Laws : ThresholdCryptoLaws} {C : Codec} {CL : CodecLaws}.

Lemma insert_peers_all (l : list (string * string)) (t : gmap string string) :
  NoDup l.*1 -> (forall k v, (k, v) ∈ l -> t !! k = None) ->
  insert_peers l t = Ret (list_to_map l ∪ t).
Proof.
  revert t. induction l as [|[k v] l IH]; intros t Hnd Hfresh; simpl.
  - by rewrite map_empty_union.
  - apply NoDup_cons in Hnd as [Hk Hnd]. unfold insert_row.
    rewrite (Hfresh k v) by by left. cbn [mbind outcome_bind]. rewrite IH; [|done|].
    + f_equal. rewrite <-insert_union_r; [by rewrite insert_union_l|].
      by apply not_elem_of_list_to_map.
    + intros k' v' Hin. rewrite lookup_insert_ne; [apply (Hfresh k' v'); by right|].
      intros ->. apply Hk. apply list_elem_of_fmap. by exists (k', v').
Qed.

(** Initialising the database and recovering from it gives back the configuration and
    the keys, with all other tables empty; if the replica is not among its own peers the
    initialisation panics. *)
Theorem persist_recover_config (db : option Database) (conf : HotStuffConfig)
    (sg : DefaultSignaturer) :
  match conf_peers_addr conf !! conf_replica_id conf with
  | None => persist_other_msg db conf sg = Panic
  | Some _ =>
      exists db', persist_other_msg db conf sg = Ret db' /\
        recover_hotstuff_config db' = Ret conf /\
        recover_signaturer (conf_token conf) db' = Ret sg /\
        db_proposal db' = ∅ /\ db_qc db' = ∅ /\ db_hotstuff_state db' = ∅ /\ db_partial_tc db' = ∅
  end.
Proof.
  unfold persist_other_msg. cbn [drop_tables create_tables default empty_database db_peers
    db_hotstuff_conf db_crypto].
  rewrite insert_peers_all; [|apply NoDup_fst_map_to_list|intros; apply lookup_empty].
  rewrite map_union_empty, list_to_map_to_list. cbn [mbind outcome_bind].
  destruct (conf_peers_addr conf !! conf_replica_id conf) as [addr|]; [|done].
  cbn. unfold insert_row. rewrite !lookup_empty. eexists. split; [done|].
  unfold recover_hotstuff_config, recover_signaturer, first_row. cbn.
  rewrite lookup_insert_eq, insert_empty, map_to_list_singleton. cbn.
  rewrite json_pk_roundtrip, json_sk_roundtrip. cbn. by destruct conf, sg.
Qed.

(** ** A recovered store and its channel *)

(** A change followed by a flush. *)
Definition flush_dirty (s : HotstuffStorage) : outcome HotstuffStorage :=
  '(s, _) ← HSS_flush (HSS_set_dirty s); Ret s.

Fixpoint flush_times (n : nat) (s : HotstuffStorage) : outcome HotstuffStorage :=
  match n with O => Ret s | S n => s ← flush_dirty s; flush_times n s end.

Lemma flush_dirty_unread (s : HotstuffStorage) (b : MySQLStorage) :
  hss_backend s = Some b -> my_recvr_tmp b = true ->
  if (length (my_channel b) <? channel_capacity)%nat then
    exists s' b', flush_dirty s = Ret s' /\ hss_backend s' = Some b' /\ my_recvr_tmp b' = true /\
      length (my_channel b') = S (length (my_channel b)) /\ my_db b' = my_db b
  else flush_dirty s = Diverge.
Proof.
  intros Hb Hr. unfold flush_dirty, HSS_flush, HSS_async_flush. cbn [HSS_set_dirty set_dirty_flag
    hss_dirty negb hss_backend]. rewrite Hb. unfold MySQLStorage_async_flush, receiver_dropped. rewrite Hr. cbn [negb andb].
  destruct (_ <? _)%nat; [|done]. do 2 eexists. split; [done|]. split; [done|].
  split; [done|]. cbn. rewrite length_app. simpl. split; [lia|done].
Qed.

Lemma flush_times_unread n : forall s b,
  hss_backend s = Some b -> my_recvr_tmp b = true ->
  (length (my_channel b) + n <= channel_capacity)%nat ->
  exists s' b', flush_times n s = Ret s' /\ hss_backend s' = Some b' /\ my_recvr_tmp b' = true /\
    length (my_channel b') = (length (my_channel b) + n)%nat /\ my_db b' = my_db b.
Proof.
  induction n as [|n IH]; intros s b Hb Hr Hlen.
  - exists s, b. rewrite Nat.add_0_r. auto.
  - pose proof (flush_dirty_unread s b Hb Hr) as H1.
    destruct (Nat.ltb_spec (length (my_channel b)) channel_capacity); [|lia].
    destruct H1 as (s1 & b1 & Hf & Hb1 & Hr1 & Hl1 & Hdb1).
    destruct (IH s1 b1 Hb1 Hr1) as (s2 & b2 & Hf2 & Hb2 & Hr2 & Hl2 & Hdb2); [lia|].
    exists s2, b2. cbn [flush_times]. rewrite Hf. cbn [mbind outcome_bind].
    split_and!; [done|done|done|lia|congruence].
Qed.

(** C33. A recovered store writes nothing any more: no flusher receives from its channel,
    four flushes are buffered without reaching the database and the fifth waits for ever. *)
Theorem recovered_store_stops_flushing (token : string) (db : Database) (s : HotstuffStorage) :
  HSS_recover token db = Ret s ->
  (exists s' b, flush_times channel_capacity s = Ret s' /\ hss_backend s' = Some b /\ my_db b = db) /\
  flush_times (S channel_capacity) s = Diverge.
Proof.
  intros H. assert (Hb : hss_backend s = Some (MySQLStorage_new db))
    by (unfold HSS_recover in H; inv_ret; by subst).
  destruct (flush_times_unread channel_capacity s _ Hb eq_refl) as (s' & b & Hf & Hb' & Hr & Hl & Hdb);
    [done|]. split; [eauto|].
  assert (Hsplit : forall n s, flush_times (S n) s = (s ← flush_times n s; flush_dirty s)).
  { clear. induction n as [|n IH]; intros s.
    - cbn [flush_times mbind outcome_bind]. by destruct (flush_dirty s).
    - change (flush_times (S (S n)) s) with (s ← flush_dirty s; flush_times (S n) s).
      cbn [flush_times]. destruct (flush_dirty s); cbn [mbind outcome_bind]; [apply IH|done|done]. }
  rewrite Hsplit, Hf. cbn [mbind outcome_bind].
  pose proof (flush_dirty_unread s' b Hb' Hr) as H1. rewrite Hl in H1. exact H1.
Qed.
End RecoverTheorems.
