(* ===== verification/RecoverFlush.v ===== *)
(** * What recovery reads after flushes (hss/src/persistor.rs and hss/src/recover.rs)

    The tables after any sequence of flushes, as a function of the dirty data flushed,
    and what [get_one_node_by_view], [recover_hotstuff_state] and [recover_tc_map] make
    of them. *)

From S2P Require Import Prelude Crypto HsData CryptoKit SafetyStorage LivenessData Persistor Hss Recover.

Section RecoverFlush.
Context `{TC : ThresholdCrypto} {Laws : ThresholdCryptoLaws} {C : Codec} {CL : CodecLaws}.

Implicit Types (db : Database) (d : DirtyData) (ds : list DirtyData) (p x n : TreeNode).

(** ** Tables after flushes *)

Definition flush_all db ds : Database := fold_left MySQLFlusher_flush ds db.

(** The tables a flush writes are empty, as [persist_other_msg] leaves them. *)
Record fresh_db db : Prop := {
  fresh_proposal : db_proposal db = ∅;
  fresh_qc : db_qc db = ∅;
  fresh_partial_tc : db_partial_tc db = ∅;
  fresh_hotstuff_state : db_hotstuff_state db = ∅;
}.

(** The proposals of a flush by height, and its certificates by view, in the order in which
    they are written: a proposal writes its own hash with the signature of its certificate. *)
Definition props_written d : list (Z * TreeNode) :=
  (fun p => (node_height p, p)) <$> dd_prop_queue d.

Definition certs_written d : list (Z * (NodeHash * CombinedSign)) :=
  ((fun p => (qc_view (node_justify p), (TreeNode_hash p, qc_combined_sign (node_justify p))))
     <$> dd_prop_queue d) ++
  ((fun qc => (qc_view qc, (qc_node qc, qc_combined_sign qc))) <$> dd_justify_queue d).

Definition ptcs_written d : list ((Z * string) * string) :=
  (fun tc => ((tc_view tc, tc_from tc), json_of_sign_type (tc_view_sign tc))) <$> dd_partial_tc_queue d.

(** The first of each key. *)
Definition first_prop ds : gmap Z TreeNode := list_to_map (concat (props_written <$> ds)).
Definition first_cert ds : gmap Z (NodeHash * CombinedSign) :=
  list_to_map (concat (certs_written <$> ds)).

Definition proposal_row_of p : proposal_row :=
  mkProposalRow (base64_encode (NodeHash_as_ref (node_parent p))) (qc_view (node_justify p))
    (base64_encode (NodeHash_as_ref (TreeNode_hash p))) (json_of_txns (node_txs p)).

Definition qc_row_of (hc : NodeHash * CombinedSign) : qc_row :=
  mkQcRow (base64_encode (NodeHash_as_ref hc.1)) (base64_encode (sign_to_bytes hc.2)).

Definition state_row_of (s : InMemoryState) : state_row :=
  {| sr_current_view := st_current_view s; sr_last_voted_view := st_vheight s;
     sr_locked_view := node_height (st_b_locked s); sr_committed_view := st_committed_height s;
     sr_executed_view := node_height (st_last_commit s); sr_leaf_view := node_height (st_leaf s) |}.

(** [insert ignore] keeps the row that is there. *)
Lemma insert_ignore_union {K V : Type} `{Countable K} (k : K) (v : V) (t : gmap K V) :
  insert_ignore k v t = t ∪ list_to_map [(k, v)].
Proof.
  unfold insert_ignore. cbn [list_to_map foldr uncurry]. rewrite insert_empty.
  destruct (t !! k) eqn:E; [by rewrite (union_singleton_r _ _ _ _ E)|by apply insert_union_singleton_r].
Qed.

(** A table that each step of a loop extends is extended by all of them. *)
Lemma fold_table {A K V : Type} `{Countable K} (table : Database -> gmap K V)
    (f : Database -> A -> Database) (e : A -> list (K * V)) :
  (forall db a, table (f db a) = table db ∪ list_to_map (e a)) ->
  forall l db, table (fold_left f l db) = table db ∪ list_to_map (concat (e <$> l)).
Proof.
  intros Hf l. induction l as [|a l IH]; intros db; cbn [fold_left].
  - cbn. by rewrite map_union_empty.
  - rewrite IH, Hf, fmap_cons. cbn [concat]. by rewrite list_to_map_app, (assoc_L (∪)).
Qed.

(** A table that no step of a loop touches. *)
Lemma fold_frame {A T : Type} (table : Database -> T) (f : Database -> A -> Database) :
  (forall db a, table (f db a) = table db) -> forall l db, table (fold_left f l db) = table db.
Proof. intros Hf l. induction l as [|a l IH]; intros db; cbn [fold_left]; [done|]. by rewrite IH, Hf. Qed.

Lemma concat_singles {A B : Type} (f : A -> B) (l : list A) : concat ((fun a => [f a]) <$> l) = f <$> l.
Proof. induction l as [|a l IH]; [done|]. rewrite !fmap_cons. cbn. by rewrite IH. Qed.

Lemma flush_proposal_table db d :
  db_proposal (MySQLFlusher_flush db d) =
    db_proposal db ∪ list_to_map (prod_map id proposal_row_of <$> props_written d).
Proof.
  unfold MySQLFlusher_flush. cbn [flush_state set_hotstuff_state db_proposal].
  rewrite !(fold_frame db_proposal) by done.
  rewrite (fold_table db_proposal flush_prop (fun p => [(node_height p, proposal_row_of p)])).
  - rewrite concat_singles. unfold props_written. by rewrite <-list_fmap_compose.
  - intros db0 p. apply (insert_ignore_union (V := proposal_row)).
Qed.

Lemma flush_qc_table db d :
  db_qc (MySQLFlusher_flush db d) =
    db_qc db ∪ list_to_map (prod_map id qc_row_of <$> certs_written d).
Proof.
  unfold MySQLFlusher_flush. cbn [flush_state set_hotstuff_state db_qc].
  rewrite !(fold_frame db_qc flush_ctc), !(fold_frame db_qc flush_ptc) by done.
  rewrite (fold_table db_qc flush_justify
    (fun qc => [(qc_view qc, qc_row_of (qc_node qc, qc_combined_sign qc))]));
    [|intros; apply (insert_ignore_union (V := qc_row))].
  rewrite (fold_table db_qc flush_prop (fun p => [(qc_view (node_justify p),
    qc_row_of (TreeNode_hash p, qc_combined_sign (node_justify p)))]));
    [|intros; apply (insert_ignore_union (V := qc_row))].
  rewrite !concat_singles. unfold certs_written.
  by rewrite fmap_app, list_to_map_app, (assoc_L (∪)), <-!list_fmap_compose.
Qed.

Lemma flush_partial_tc_table db d :
  db_partial_tc (MySQLFlusher_flush db d) = db_partial_tc db ∪ list_to_map (ptcs_written d).
Proof.
  unfold MySQLFlusher_flush. cbn [flush_state set_hotstuff_state db_partial_tc].
  rewrite !(fold_frame db_partial_tc flush_ctc) by done.
  rewrite (fold_table db_partial_tc flush_ptc
    (fun tc => [((tc_view tc, tc_from tc), json_of_sign_type (tc_view_sign tc))]));
    [|intros; apply (insert_ignore_union (V := string))].
  by rewrite concat_singles, !(fold_frame db_partial_tc) by done.
Qed.

Lemma flush_state_table db d :
  db_hotstuff_state (MySQLFlusher_flush db d) =
    <[st_token (dd_state d):=state_row_of (dd_state d)]> (db_hotstuff_state db).
Proof.
  unfold MySQLFlusher_flush. cbn [flush_state set_hotstuff_state db_hotstuff_state].
  by rewrite !(fold_frame db_hotstuff_state) by done.
Qed.

Lemma concat_fmap {A B D : Type} (f : B -> D) (g : A -> list B) (l : list A) :
  concat ((fun a => f <$> g a) <$> l) = f <$> concat (g <$> l).
Proof. induction l as [|a l IH]; [done|]. rewrite !fmap_cons. cbn. by rewrite IH, fmap_app. Qed.

Lemma elem_of_concat_fmap {A B : Type} (f : A -> list B) (l : list A) (b : B) :
  b ∈ concat (f <$> l) <-> exists a, a ∈ l /\ b ∈ f a.
Proof.
  induction l as [|a l IH].
  - split; [intros []%elem_of_nil|intros (a & []%elem_of_nil & _)].
  - rewrite fmap_cons. cbn. rewrite elem_of_app, IH. split.
    + intros [Hb|(a' & Ha & Hb)]; [exists a|exists a']; split; try done; [by left|by right].
    + intros (a' & [->|Ha]%elem_of_cons & Hb); [by left|right; eauto].
Qed.

Lemma flush_all_proposal db ds :
  fresh_db db -> db_proposal (flush_all db ds) = proposal_row_of <$> first_prop ds.
Proof.
  intros [Hf _ _ _]. unfold flush_all, first_prop.
  rewrite (fold_table db_proposal _ _ flush_proposal_table), Hf, map_empty_union, concat_fmap.
  apply list_to_map_fmap.
Qed.

Lemma flush_all_qc db ds : fresh_db db -> db_qc (flush_all db ds) = qc_row_of <$> first_cert ds.
Proof.
  intros [_ Hf _ _]. unfold flush_all, first_cert.
  rewrite (fold_table db_qc _ _ flush_qc_table), Hf, map_empty_union, concat_fmap.
  apply list_to_map_fmap.
Qed.

Lemma flush_all_partial_tc db ds :
  fresh_db db -> db_partial_tc (flush_all db ds) = list_to_map (concat (ptcs_written <$> ds)).
Proof.
  intros [_ _ Hf _]. unfold flush_all.
  by rewrite (fold_table db_partial_tc _ _ flush_partial_tc_table), Hf, map_empty_union.
Qed.

(** ** Proposals *)

(** Hashes have their 32 bytes. *)
Record dirty_wf d : Prop := {
  dw_props : Forall (fun p => NodeHash_wf (node_parent p)) (dd_prop_queue d);
  dw_justify : Forall (fun qc => NodeHash_wf (qc_node qc)) (dd_justify_queue d);
}.

Lemma NodeHash_from_vec_as_ref (h : NodeHash) :
  NodeHash_wf h -> NodeHash_from_vec (NodeHash_as_ref h) = h.
Proof.
  intros Hwf. apply NodeHash_ext. rewrite from_vec_take, Hwf.
  rewrite take_ge by (by rewrite Hwf). simpl. by rewrite app_nil_r.
Qed.

Lemma map_row_flushed w p h c :
  NodeHash_wf (node_parent p) -> NodeHash_wf h ->
  map_row_to_proposal w (proposal_row_of p) (qc_row_of (h, c)) =
  Ret (h, TreeNode_new (node_txs p) w (node_parent p) (GenericQC_new w h c)).
Proof.
  intros Hp Hh. unfold map_row_to_proposal.
  cbn [qr_node_hash pr_txn pr_parent_hash qr_combined_sign proposal_row_of qc_row_of fst snd].
  rewrite !base64_roundtrip, json_txns_roundtrip. cbn [unwrap mbind outcome_bind].
  rewrite !NodeHash_from_vec_as_ref by done.
  unfold combined_sign_from_vec_u8. rewrite decide_True by apply sign_to_bytes_length.
  by rewrite sign_from_to_bytes.
Qed.

Lemma first_prop_Some ds w p :
  first_prop ds !! w = Some p ->
  node_height p = w /\ exists d, d ∈ ds /\ p ∈ dd_prop_queue d.
Proof.
  intros H%elem_of_list_to_map_2. apply elem_of_concat_fmap in H as (d & Hd & Hp).
  apply list_elem_of_fmap in Hp as (p' & [= -> ->] & Hp'). eauto.
Qed.

Lemma first_cert_wf ds v h c : Forall dirty_wf ds -> first_cert ds !! v = Some (h, c) -> NodeHash_wf h.
Proof.
  intros Hwf H%elem_of_list_to_map_2. apply elem_of_concat_fmap in H as (d & Hd & Hp).
  destruct (proj1 (Forall_forall _ _) Hwf d Hd) as [_ Hj].
  apply elem_of_app in Hp as [Hp|Hp]; apply list_elem_of_fmap in Hp as (y & [= -> -> ->] & Hy).
  - apply TreeNode_hash_wf.
  - by apply (proj1 (Forall_forall _ _) Hj y).
Qed.

(** Each proposal writes a certificate row. *)
Lemma first_cert_of_prop ds d p :
  d ∈ ds -> p ∈ dd_prop_queue d -> is_Some (first_cert ds !! qc_view (node_justify p)).
Proof.
  intros Hd Hp. apply not_eq_None_Some. intros HN%not_elem_of_list_to_map_2. apply HN.
  apply list_elem_of_fmap. eexists (_, (TreeNode_hash p, qc_combined_sign (node_justify p))). split; [done|].
  apply elem_of_concat_fmap. exists d. split; [done|].
  apply elem_of_app. left. by apply list_elem_of_fmap; exists p.
Qed.

Lemma flushed_proposal_read db ds w :
  fresh_db db -> Forall dirty_wf ds ->
  match first_prop ds !! w with
  | None => get_one_node_by_view (flush_all db ds) w = Ret None
  | Some p => exists h c, first_cert ds !! qc_view (node_justify p) = Some (h, c) /\
      get_one_node_by_view (flush_all db ds) w =
        Ret (Some (h, TreeNode_new (node_txs p) w (node_parent p) (GenericQC_new w h c)))
  end.
Proof.
  intros Hdb Hwf. unfold get_one_node_by_view.
  rewrite flush_all_proposal, flush_all_qc, lookup_fmap by done.
  destruct (first_prop ds !! w) as [p|] eqn:E; [|done]. cbn [fmap option_fmap option_map].
  apply first_prop_Some in E as (Hw & d & Hd & Hp).
  destruct (first_cert_of_prop ds d p Hd Hp) as [[h c] Hc]. exists h, c. split; [done|].
  rewrite lookup_fmap. change (pr_justify_view (proposal_row_of p)) with (qc_view (node_justify p)).
  rewrite Hc. cbn [fmap option_fmap option_map]. rewrite map_row_flushed; [done| |by eapply first_cert_wf].
  destruct (proj1 (Forall_forall _ _) Hwf d Hd) as [Hps _]. by apply (proj1 (Forall_forall _ _) Hps p).
Qed.

(** The rows of the join, decoded. *)
Definition row_node (r : joined_row) : outcome (NodeHash * TreeNode) :=
  map_row_to_proposal r.1.1 r.1.2 r.2.

Lemma elem_of_join_rows db w pr qr :
  (w, pr, qr) ∈ join_rows db <->
  db_proposal db !! w = Some pr /\ db_qc db !! pr_justify_view pr = Some qr.
Proof.
  unfold join_rows. rewrite list_elem_of_omap. split.
  - intros ([w' pr'] & Hin%elem_of_map_to_list & E). cbn in *.
    destruct (db_qc db !! _) eqn:Eq; cbn in E; simplify_eq. auto.
  - intros [Hw Hq]. exists (w, pr). rewrite elem_of_map_to_list. split; [done|]. cbn. by rewrite Hq.
Qed.

Lemma join_rows_read db h n :
  (exists r, r ∈ join_rows db /\ row_node r = Ret (h, n)) <->
  exists w, get_one_node_by_view db w = Ret (Some (h, n)).
Proof.
  unfold get_one_node_by_view. split.
  - intros ([[w pr] qr] & [Hw Hq]%elem_of_join_rows & Hr). exists w. rewrite Hw, Hq.
    unfold row_node in Hr. cbn in Hr. by rewrite Hr.
  - intros [w H]. destruct (db_proposal db !! w) as [pr|] eqn:Hw; [|done].
    destruct (db_qc db !! _) as [qr|] eqn:Hq; [|done]. exists (w, pr, qr).
    split; [by apply elem_of_join_rows|]. inv_ret. unfold row_node. cbn. congruence.
Qed.

Lemma collect_rows_total rows : forall q,
  Forall (fun r => exists h n, row_node r = Ret (h, n)) rows ->
  exists q', collect_rows rows q = Ret q' /\
    (forall h n, q' !! h = Some n -> q !! h = Some n \/ exists r, r ∈ rows /\ row_node r = Ret (h, n)) /\
    (forall h, is_Some (q !! h) \/ (exists r n, r ∈ rows /\ row_node r = Ret (h, n)) -> is_Some (q' !! h)).
Proof.
  induction rows as [|[[w pr] qr] rows IH]; intros q Hr.
  - exists q. split; [done|]. split; [by left|]. intros h [H|(r & n & []%elem_of_nil & _)]; done.
  - apply Forall_cons in Hr as [(h & n & Hhn) Hr].
    destruct (IH (<[h:=n]> q) Hr) as (q' & Hq & Hfrom & Hto). exists q'.
    cbn [collect_rows]. unfold row_node in Hhn. cbn in Hhn. rewrite Hhn. cbn [mbind outcome_bind].
    split; [done|]. split.
    + intros h' n' [[[<- <-]|[_ ?]]%lookup_insert_Some|(r & Hin & E)]%Hfrom.
      * right. exists (w, pr, qr). split; [by left|done].
      * by left.
      * right. exists r. split; [by right|done].
    + intros h' H. apply Hto. rewrite lookup_insert. case_decide; [by left; eauto|].
      destruct H as [H|(r & n' & [->|Hin]%elem_of_cons & E)]; [by left| |right; eauto].
      unfold row_node in E. cbn in E. congruence.
Qed.

Lemma recover_queue_total db :
  (forall w pr qr, db_proposal db !! w = Some pr -> db_qc db !! pr_justify_view pr = Some qr ->
     exists h n, map_row_to_proposal w pr qr = Ret (h, n)) ->
  exists q, recover_in_mem_queue db = Ret q /\
    (forall h n, q !! h = Some n -> exists w, get_one_node_by_view db w = Ret (Some (h, n))) /\
    (forall w h n, get_one_node_by_view db w = Ret (Some (h, n)) -> is_Some (q !! h)).
Proof.
  intros Hrows. unfold recover_in_mem_queue.
  pose proof (merge_sort_Permutation row_le (join_rows db)) as Hp.
  destruct (collect_rows_total (merge_sort row_le (join_rows db)) ∅) as (q & Hq & Hfrom & Hto).
  { rewrite Hp. apply Forall_forall. intros [[w pr] qr] [Hw Hqr]%elem_of_join_rows. by apply Hrows. }
  exists q. split; [done|]. setoid_rewrite Hp in Hfrom. setoid_rewrite Hp in Hto. split.
  - intros h n [Hn|Hn]%Hfrom; [by rewrite lookup_empty in Hn|]. by apply join_rows_read.
  - intros w h n Hw. apply Hto. right.
    destruct (proj2 (join_rows_read db h n)) as (r & ? & ?); eauto.
Qed.

(** C29. What recovery reads after any sequence of flushes into freshly created tables
    (hashes of 32 bytes): at a height no flushed proposal has, nothing; otherwise the
    transactions and the parent of the first proposal flushed at that height, filed under
    the hash and with the signature of whatever wrote the certificate row of its view
    first, which for a proposal is its own hash; and the certificate it gets names that
    hash in the view of the proposal, instead of what it had. Reading the whole table
    never fails, and gives exactly the hashes that reading height by height gives. *)
Theorem flushed_proposals_recover db ds :
  fresh_db db -> Forall dirty_wf ds ->
  (forall w, match first_prop ds !! w with
   | None => get_one_node_by_view (flush_all db ds) w = Ret None
   | Some p => exists h c, first_cert ds !! qc_view (node_justify p) = Some (h, c) /\
       get_one_node_by_view (flush_all db ds) w =
         Ret (Some (h, TreeNode_new (node_txs p) w (node_parent p) (GenericQC_new w h c)))
   end) /\
  exists q, recover_in_mem_queue (flush_all db ds) = Ret q /\
    (forall h n, q !! h = Some n -> exists w, get_one_node_by_view (flush_all db ds) w = Ret (Some (h, n))) /\
    (forall w h n, get_one_node_by_view (flush_all db ds) w = Ret (Some (h, n)) -> is_Some (q !! h)).
Proof.
  intros Hdb Hwf. split; [intros w; by apply flushed_proposal_read|]. apply recover_queue_total.
  intros w pr qr Hw Hq. pose proof (flushed_proposal_read db ds w Hdb Hwf) as Hr.
  unfold get_one_node_by_view in Hr. rewrite Hw, Hq in Hr. destruct (first_prop ds !! w).
  - destruct Hr as (h & c & _ & Hr). inv_ret. simplify_eq. eauto.
  - by inv_ret.
Qed.

(** ** State *)

(** [n] is recovered in the place of [x]: it has its height, and its hash as well when [x]
    was the first proposal flushed at that height. *)
Definition recovered_for ds x n : Prop :=
  node_height n = node_height x /\
  (first_prop ds !! node_height x = Some x -> 0 < node_height x -> TreeNode_hash n = TreeNode_hash x).

(** A proposal of the height of [x] was flushed, or [x] has height 0. *)
Definition height_flushed ds x : Prop :=
  node_height x = 0 \/ 0 < node_height x /\ is_Some (first_prop ds !! node_height x).

Lemma recover_node_flushed db ds x :
  fresh_db db -> Forall dirty_wf ds -> height_flushed ds x ->
  exists n, recover_node (flush_all db ds) (node_height x) = Ret n /\ recovered_for ds x n.
Proof.
  intros Hdb Hwf Hx. unfold recover_node, recovered_for. destruct Hx as [->|[Hpos [p Hp]]].
  - exists INIT_NODE. cbn. split; [done|]. split; [done|]. lia.
  - destruct (Z.ltb_spec 0 (node_height x)); [|lia].
    pose proof (flushed_proposal_read db ds (node_height x) Hdb Hwf) as Hr. rewrite Hp in Hr.
    destruct Hr as (h & c & _ & ->). cbn. eexists. split; [done|]. split; [done|].
    intros Hx _. rewrite Hx in Hp. by injection Hp as <-.
Qed.

Lemma flush_all_state db ds d :
  fresh_db db -> Forall (fun d' => st_token (dd_state d') = st_token (dd_state d)) ds ->
  db_hotstuff_state (flush_all db (ds ++ [d])) =
    {[ st_token (dd_state d) := state_row_of (dd_state d) ]}.
Proof.
  intros [_ _ _ Hf] Ht. unfold flush_all. rewrite fold_left_app. cbn [fold_left].
  rewrite flush_state_table.
  assert (Hrow : db_hotstuff_state (fold_left MySQLFlusher_flush ds db) = ∅ \/
    exists r, db_hotstuff_state (fold_left MySQLFlusher_flush ds db) = {[ st_token (dd_state d) := r ]}).
  { induction ds as [|d' ds IH] using rev_ind; [by left|]. right.
    apply Forall_app in Ht as [Ht [Hd _]%Forall_cons].
    rewrite fold_left_app. cbn [fold_left]. rewrite flush_state_table, Hd. exists (state_row_of (dd_state d')).
    destruct (IH Ht) as [->|[r ->]]; [apply insert_empty|apply insert_singleton_eq]. }
  destruct Hrow as [->|[r ->]]; [apply insert_empty|apply insert_singleton_eq].
Qed.

(** C30. After any sequence of flushes of one token into freshly created tables, if for
    the leaf, the lock and the last commit of the last flush a proposal of that height was
    flushed (or the height is 0), the state recovers: token, current view, vote height and
    committed height are those of the last flush, leaf, lock and last commit have the
    heights flushed, and their hash where they were the first proposal flushed at their
    height; qc_high is the certificate of the recovered leaf. *)
Theorem flushed_state_recovers db ds d :
  fresh_db db -> Forall dirty_wf (ds ++ [d]) ->
  Forall (fun d' => st_token (dd_state d') = st_token (dd_state d)) ds ->
  let s := dd_state d in let all := ds ++ [d] in
  height_flushed all (st_leaf s) -> height_flushed all (st_b_locked s) ->
  height_flushed all (st_last_commit s) ->
  exists st, recover_hotstuff_state (flush_all db all) = Ret st /\
    st_token st = st_token s /\ st_current_view st = st_current_view s /\
    st_vheight st = st_vheight s /\ st_committed_height st = st_committed_height s /\
    recovered_for all (st_leaf s) (st_leaf st) /\
    recovered_for all (st_b_locked s) (st_b_locked st) /\
    recovered_for all (st_last_commit s) (st_last_commit st) /\
    st_qc_high st = node_justify (st_leaf st).
Proof.
  intros Hdb Hwf Ht s all Hl Hk Hc. unfold recover_hotstuff_state, first_row.
  pose proof (flush_all_state db ds d Hdb Ht) as Hs. fold all in Hs.
  rewrite Hs, map_to_list_singleton.
  cbn [head unwrap mbind outcome_bind state_row_of sr_leaf_view sr_locked_view sr_executed_view].
  fold s. destruct (recover_node_flushed db all _ Hdb Hwf Hl) as (nl & -> & Hnl).
  destruct (recover_node_flushed db all _ Hdb Hwf Hk) as (nk & -> & Hnk).
  destruct (recover_node_flushed db all _ Hdb Hwf Hc) as (nc & -> & Hnc).
  eexists. split; [done|]. by split_and!.
Qed.

(** ** Timeout certificates *)

Lemma sign_type_not_tc t : tc_of_json (json_of_sign_type t) = None.
Proof.
  destruct json_derived_fields as (fields & Hs & Htc).
  destruct (tc_of_json (json_of_sign_type t)) as [tc|] eqn:E; [|done].
  apply Htc in E. rewrite Hs, list_elem_of_singleton in E. by destruct t.
Qed.

Lemma collect_tcs_unreadable rows tcs :
  rows <> [] -> Forall (fun r : Z * string * string => tc_of_json r.2 = None) rows ->
  collect_tcs rows tcs = Panic.
Proof. destruct rows as [|[[w r] v] l]; [done|]. intros _ [Hv _]%Forall_cons. cbn in *. by rewrite Hv. Qed.

(** C31. After any sequence of flushes into freshly created tables, the timeout
    certificates recover as none at all if no flush had a partial one, and otherwise
    recovery of the store fails, since the column holds the serialised signature only and
    is parsed as a whole certificate. (Assumed of the derived JSON code: a serialised
    SignType has one field, named after its variant, and a TimeoutCertificate is only read
    from an object with the field from.) *)
Theorem flushed_timeouts_recover db ds :
  fresh_db db ->
  match concat (dd_partial_tc_queue <$> ds) with
  | [] => recover_tc_map (flush_all db ds) = Ret ∅
  | _ :: _ => recover_tc_map (flush_all db ds) = Panic /\
      forall token s, HSS_recover token (flush_all db ds) <> Ret s
  end.
Proof.
  intros Hdb. assert (Hr : recover_tc_map (flush_all db ds) =
    match concat (dd_partial_tc_queue <$> ds) with [] => Ret ∅ | _ :: _ => Panic end).
  { unfold recover_tc_map. rewrite flush_all_partial_tc by done.
    replace (concat (ptcs_written <$> ds)) with
      ((fun tc => ((tc_view tc, tc_from tc), json_of_sign_type (tc_view_sign tc))) <$>
         concat (dd_partial_tc_queue <$> ds)) by by rewrite <-concat_fmap.
    destruct (concat _) as [|tc l]; [done|]. apply collect_tcs_unreadable.
    - intros E%map_to_list_empty_iff. rewrite fmap_cons, list_to_map_cons in E.
      by apply insert_non_empty in E.
    - apply Forall_forall. intros [k v] Hin%elem_of_map_to_list%elem_of_list_to_map_2.
      apply list_elem_of_fmap in Hin as (tc' & [= -> ->] & _). apply sign_type_not_tc. }
  destruct (concat _); [done|]. split; [done|]. intros token s H. unfold HSS_recover in H. inv_ret. congruence.
Qed.
End RecoverFlush.
