(* ===== verification/Demo.v ===== *)
(** * The demo node (examples/demo/src)

    Transactions are submitted and queried over HTTP, keys are generated and loaded as
    text, and [node_admin] runs a pacemaker with four callbacks.  Reading files, sockets
    and the command line are left out: [NodeConfig] is the parsed file, and a session is
    the sequence of requests and turns of the event loop. *)

From stdpp Require Import pretty.
From S2P Require Import Prelude Crypto HsData CryptoKit Voter SafetyStorage Machine.
From S2P Require Import LivenessData Persistor Hss Recover Elector Timer Pacemaker.

(** ** Configuration (config.rs) *)

Record PacemakerConfig := mkPacemakerConfig { flush_interval : Z; non_leader_wait : Z }.

Definition PacemakerConfig_default : PacemakerConfig :=
  {| flush_interval := 200; non_leader_wait := 200 |}.

Inductive PersistentBackend :=
| NoPersistor
| MySQL (db : string).

Record PeerInfo := mkPeerInfo { pi_node_id : string; pi_addr : string }.

Record BootstrapConfig := mkBootstrapConfig {
  bc_token : string;
  bc_total : Z;
  bc_peer_addrs : list PeerInfo;
}.

Record SecretConfig := mkSecretConfig {
  sc_sk_id : Z;
  sc_sk_share : string;
  sc_pk_set : string;
}.

Inductive TestConfig :=
| NonTest
| SingleNode (proposal_size proposal_num : Z)
| LocalCluster.

Record NodeConfig := mkNodeConfig {
  nc_node_name : string;
  nc_bootstrap_conf : BootstrapConfig;
  nc_pm_conf : PacemakerConfig;
  nc_self_addr : string;
  nc_persistor : PersistentBackend;
  nc_server_addr : string;
  nc_secret : SecretConfig;
  nc_test_config : TestConfig;
}.

(** ** Transactions (lib.rs) *)

Definition TX_STATE_PENDING : string := "pending".
Definition TX_STATE_QC_FORMED : string := "qc formed".
Definition TX_STATE_LOCKED : string := "locked".
Definition TX_STATE_COMMITTED : string := "committed".
Definition TX_STATE_INVALID : string := "invalid".

Record TxWrapper := mkTxWrapper { txw_tx_hash : string; txw_tx : Txn; txw_state : string }.

Record ServerSharedState := mkServerSharedState {
  sss_tx_queue : list Txn;
  sss_tx_pool : gmap string TxWrapper;
}.

Definition ServerSharedState_default : ServerSharedState :=
  {| sss_tx_queue := []; sss_tx_pool := ∅ |}.

Record NewTxRequest := mkNewTxRequest { ntr_tx_hash : string; ntr_tx : string }.
Record NewTxResponse := mkNewTxResponse { nts_tx_hash : string; nts_state : string }.

Section Demo.
Context `{TC : ThresholdCrypto} {C : Codec}.

Definition process_new_tx (sss : ServerSharedState) (request : NewTxRequest) :
    ServerSharedState * NewTxResponse :=
  let tx_hash := ntr_tx_hash request in
  match base64_decode (ntr_tx request) with
  | Some _ =>
      let txn := mkTxn (str_bytes tx_hash) in
      ({| sss_tx_pool := <[tx_hash:={| txw_tx_hash := tx_hash; txw_tx := txn;
                                       txw_state := TX_STATE_PENDING |}]> (sss_tx_pool sss);
          sss_tx_queue := sss_tx_queue sss ++ [txn] |},
       {| nts_tx_hash := tx_hash; nts_state := TX_STATE_PENDING |})
  | None => (sss, {| nts_tx_hash := tx_hash; nts_state := TX_STATE_INVALID |})
  end.

Definition query_tx (sss : ServerSharedState) (tx_hash : string) : NewTxResponse :=
  {| nts_tx_hash := tx_hash;
     nts_state := match sss_tx_pool sss !! tx_hash with
                  | Some txw => txw_state txw
                  | None => TX_STATE_INVALID
                  end |}.

(** ** Statistics and set-up (utils.rs)

    Times are nanoseconds since the epoch; [now] is what the clock shows. *)

Record HotStuffNodeStat := mkHotStuffNodeStat {
  hst_committed_prop_list : list Z;
  hst_interval_list : list Z;
  hst_ts_start : Z;
  hst_ts_last_prop : Z;
  hst_max_gap : Z;
}.

Definition HotStuffNodeStat_default (now_start now_last : Z) : HotStuffNodeStat :=
  {| hst_committed_prop_list := []; hst_interval_list := []; hst_ts_start := now_start;
     hst_ts_last_prop := now_last; hst_max_gap := 0 |}.

(** [SystemTime::duration_since]: an error when the clock went back. *)
Definition duration_since (now earlier : Z) : option Z :=
  if earlier <=? now then Some (now - earlier) else None.

Definition HNS_total_time (s : HotStuffNodeStat) (now : Z) : outcome Z :=
  unwrap (duration_since now (hst_ts_start s)).

Definition HNS_take_new_committed_prop (s : HotStuffNodeStat) (now : Z) (prop : TreeNode) :
    outcome HotStuffNodeStat :=
  dur ← unwrap (duration_since now (hst_ts_last_prop s));
  let gap := match last (hst_committed_prop_list s) with
             | None => 0
             | Some view => wrap64 (node_height prop - view)
             end in
  Ret {| hst_ts_last_prop := now; hst_max_gap := Z.max (hst_max_gap s) gap;
         hst_committed_prop_list := hst_committed_prop_list s ++ [node_height prop];
         hst_interval_list := hst_interval_list s ++ [dur]; hst_ts_start := hst_ts_start s |}.

(** The network adaptor and the proxy task come from a crate outside the repository. *)
Definition init_hotstuff_node (token : string) (total : Z) (replica_id : ReplicaID)
    (db : Database) (peer_addrs : gmap string string) (signaturer : DefaultSignaturer) :
    outcome (Pacemaker HotstuffStorage) :=
  let threshold := quorum_threshold total in
  let elector := RoundRobinLeaderElector_init (map_to_list peer_addrs).*1 in
  let voter := Voter_new threshold signaturer in
  storage ← init_hotstuff_storage token total INIT_NODE INIT_NODE_HASH replica_id peer_addrs db
              signaturer;
  let machine := Machine_new voter replica_id total None storage in
  Ret (Pacemaker_new replica_id elector machine signaturer).

Definition build_signaturer_from_string (sk_id : Z) (sk_share pk_set : string) :
    outcome DefaultSignaturer :=
  pkset ← unwrap (pk_of_json (str_bytes pk_set));
  skshare ← unwrap (sk_of_json (str_bytes sk_share));
  let view := u64_to_be_bytes 2021 in
  if share_verify pkset sk_id (sk_sign skshare view) view
  then Ret (DefaultSignaturer_new sk_id pkset skshare) else Panic.

(** ** Keys (bin/generate_sk.rs) *)

Definition newline : string := String.String (Ascii.ascii_of_nat 10) EmptyString.

(** The lines of a key file, joined. *)
Definition key_file_lines (num sk_id : Z) (skshare : SK) (pkset : PK) : list string :=
  ["num=" +:+ pretty num;
   "th=" +:+ pretty (quorum_threshold num);
   "sk_id=" +:+ pretty sk_id;
   "sk_share=" +:+ String.string_of_list_byte (json_of_sk skshare);
   "pk_set=" +:+ String.string_of_list_byte (json_of_pk pkset)]%string.

Definition join (sep : string) (l : list string) : string :=
  match l with
  | [] => EmptyString
  | s :: l => fold_left (fun acc t => acc +:+ sep +:+ t)%string l s
  end.

(** The key files for [num] peers; [s] is the key set that was drawn. *)
Definition generate_sk (s : SecretKeySet) (num : Z) : outcome (list (Z * string)) :=
  '(_, pkset, vec_skshare) ← threshold_sign_kit s num (quorum_threshold num);
  Ret (List.map (fun '(sk_id, skshare) =>
         (sk_id, join newline (key_file_lines num sk_id skshare pkset))) vec_skshare).

(** ** The node (bin/node_admin.rs) *)

(** What [main] takes out of the configuration before it starts anything. *)
Record NodeSettings := mkNodeSettings {
  ns_replica_id : ReplicaID;
  ns_sk_id : Z;
  ns_sk_share : string;
  ns_pk_set : string;
  ns_num : Z;
  ns_token : string;
  ns_block_size : Z;
  ns_block_num : Z;
  ns_flush_interval : Z;
  ns_replica_wait : Z;
  ns_is_test : bool;
  ns_db : string;
  ns_peer_addrs : gmap string string;
}.

(** A configuration without a test or without a database panics; a number of peers that
    differs from [total] is only printed. *)
Definition node_settings (config : NodeConfig) : outcome NodeSettings :=
  '(block_size, block_num) ←
    match nc_test_config config with
    | SingleNode proposal_size proposal_num => Ret (proposal_size, proposal_num)
    | _ => Panic
    end;
  let is_test := match nc_test_config config with SingleNode _ _ => true | _ => false end in
  db ← match nc_persistor config with MySQL db => Ret db | NoPersistor => Panic end;
  Ret {| ns_replica_id := nc_node_name config;
         ns_sk_id := sc_sk_id (nc_secret config);
         ns_sk_share := sc_sk_share (nc_secret config);
         ns_pk_set := sc_pk_set (nc_secret config);
         ns_num := bc_total (nc_bootstrap_conf config);
         ns_token := bc_token (nc_bootstrap_conf config);
         ns_block_size := block_size; ns_block_num := block_num;
         ns_flush_interval := Z.max 100 (flush_interval (nc_pm_conf config));
         ns_replica_wait := Z.max 100 (non_leader_wait (nc_pm_conf config));
         ns_is_test := is_test; ns_db := db;
         ns_peer_addrs := map_collect ((fun pi => (pi_node_id pi, pi_addr pi))
                            <$> bc_peer_addrs (nc_bootstrap_conf config)) |}.

(** [entry(key).and_modify(|txw| txw.state = TX_STATE_COMMITTED)]. *)
Definition mark_committed (pool : gmap string TxWrapper) (key : string) : gmap string TxWrapper :=
  alter (fun txw => {| txw_tx_hash := txw_tx_hash txw; txw_tx := txw_tx txw;
                       txw_state := TX_STATE_COMMITTED |}) key pool.

Fixpoint inform_txs (pool : gmap string TxWrapper) (txs : list Txn) :
    outcome (gmap string TxWrapper) :=
  match txs with
  | [] => Ret pool
  | tx :: rest =>
      key ← unwrap (String_from_utf8 (Txn_as_ref tx));
      inform_txs (mark_committed pool key) rest
  end.

(** The callback for a committed proposal. *)
Definition inform_fn (sss : ServerSharedState) (stat : HotStuffNodeStat) (now : Z)
    (prop : TreeNode) : outcome (ServerSharedState * HotStuffNodeStat) :=
  pool ← inform_txs (sss_tx_pool sss) (node_txs prop);
  stat ← HNS_take_new_committed_prop stat now prop;
  Ret ({| sss_tx_queue := sss_tx_queue sss; sss_tx_pool := pool |}, stat).

(** The callback that supplies transactions: a block of zeros. *)
Definition demo_fetch (block_size : Z) (enable_make_prop : bool) : option (list Txn) :=
  if negb enable_make_prop then None else Some [mkTxn (replicate (Z.to_nat block_size) x00)].

Definition demo_end_fn (block_num num : Z) (cur_view : ViewNumber) : bool :=
  wrap64 (block_num * num) <? cur_view.
End Demo.

Section DemoNode.
Context `{TC : ThresholdCrypto} {C : Codec} {F : Fnv} {Env : PacemakerEnv}.

Record DemoNode := mkDemoNode {
  dn_pm : Pacemaker HotstuffStorage;
  dn_sss : ServerSharedState;
  dn_stat : HotStuffNodeStat;
  dn_running : bool;
}.

(** What happens to a node: requests, and what [select!] takes in a turn of the event
    loop.  The sender of the quit channel is dropped at once, so quitting is not among
    them. *)
Inductive demo_event :=
| DE_new_tx (req : NewTxRequest)
| DE_query (tx_hash : string)
| DE_tick
| DE_net (pe : PeerEvent)
| DE_timeout (te : TimeoutEvent).

(** The closures [event_loop_with_functions] is given, over the state they capture. *)
Record Callbacks (App : Type) := mkCallbacks {
  cb_observe_fn : App -> App * bool;
  cb_inform_fn : TreeNode -> App -> outcome App;
  cb_fetch : bool -> App -> App * option (list Txn);
  cb_end_fn : ViewNumber -> App -> App * bool;
  cb_finilizer : App -> App;
}.

Arguments cb_observe_fn {App}.
Arguments cb_inform_fn {App}.
Arguments cb_fetch {App}.
Arguments cb_end_fn {App}.
Arguments cb_finilizer {App}.

(** One turn with the closures called where the loop calls them: [end_fn] with the view,
    [fetch] with the answer to whether a proposal is possible, then [observe_fn].  The
    parameter for [inform_fn] has no name in the source, so nothing calls it. *)
Definition event_loop_turn_with {App : Type} (cb : Callbacks App) (p : Pacemaker HotstuffStorage)
    (app : App) (ev : loop_event) : outcome (Pacemaker HotstuffStorage * App * bool) :=
  let '(app, stop) := cb_end_fn cb (pm_view p) app in
  if stop then Ret (p, app, true)
  else
    let '(s, set) := new_view_set (liveness_storage p) (pm_view p) in
    let '(app, cmds) := cb_fetch cb (get_threshold s <? map_len set) app in
    let '(app, observed) := cb_observe_fn cb app in
    '(p, quit) ← event_loop_turn p (fun _ => false) (fun _ => cmds) observed ev;
    Ret (p, app, quit).

(** The closures of [main]; [now] is what the clock shows when [inform_fn] runs. *)
Definition demo_callbacks (ns : NodeSettings) (now : Z) :
    Callbacks (ServerSharedState * HotStuffNodeStat) := {|
  cb_observe_fn := fun app => (app, false);
  cb_inform_fn := fun prop app => inform_fn app.1 app.2 now prop;
  cb_fetch := fun enable_make_prop app => (app, demo_fetch (ns_block_size ns) enable_make_prop);
  cb_end_fn := fun cur_view app => (app, demo_end_fn (ns_block_num ns) (ns_num ns) cur_view);
  cb_finilizer := fun app => app;
|}.

(** A turn of the loop of a running node; when it ends, the store is flushed and the
    finalizer, which prints the statistics, is called. *)
Definition demo_turn (ns : NodeSettings) (now : Z) (nd : DemoNode) (ev : loop_event) : outcome DemoNode :=
  if dn_running nd then
    let cb := demo_callbacks ns now in
    '(pm, app, stop) ← event_loop_turn_with cb (dn_pm nd) (dn_sss nd, dn_stat nd) ev;
    '(pm, app) ← (if (stop : bool) then pm ← pm_flush pm; Ret (pm, cb_finilizer cb app)
                  else Ret (pm, app));
    Ret {| dn_pm := pm; dn_sss := app.1; dn_stat := app.2; dn_running := negb stop |}
  else Ret nd.

Definition demo_step (ns : NodeSettings) (now : Z) (nd : DemoNode) (ev : demo_event) :
    outcome (DemoNode * option NewTxResponse) :=
  match ev with
  | DE_new_tx req =>
      let '(sss, resp) := process_new_tx (dn_sss nd) req in
      Ret ({| dn_pm := dn_pm nd; dn_sss := sss; dn_stat := dn_stat nd;
              dn_running := dn_running nd |}, Some resp)
  | DE_query tx_hash => Ret (nd, Some (query_tx (dn_sss nd) tx_hash))
  | DE_tick => nd ← demo_turn ns now nd Ev_tick; Ret (nd, None)
  | DE_net pe => nd ← demo_turn ns now nd (Ev_net pe); Ret (nd, None)
  | DE_timeout te => nd ← demo_turn ns now nd (Ev_timeout te); Ret (nd, None)
  end.

(** Each event comes with the clock. *)
Fixpoint demo_run (ns : NodeSettings) (nd : DemoNode) (evs : list (Z * demo_event)) :
    outcome (DemoNode * list NewTxResponse) :=
  match evs with
  | [] => Ret (nd, [])
  | (now, ev) :: evs =>
      '(nd, r) ← demo_step ns now nd ev;
      '(nd, rs) ← demo_run ns nd evs;
      Ret (nd, option_list r ++ rs)
  end.

(** [get_or_init] of the two cells, after which the pacemaker finds them set. *)
Definition demo_env (ns : NodeSettings) : PacemakerEnv :=
  {| rand_u64 := rand_u64;
     FLUSH_INTERVAL := Some (default (ns_flush_interval ns) FLUSH_INTERVAL);
     DUR_REPLICA_WAIT := Some (default (ns_replica_wait ns) DUR_REPLICA_WAIT) |}.
End DemoNode.

Section DemoMain.
Context `{TC : ThresholdCrypto} {C : Codec} {F : Fnv} {Env : PacemakerEnv}.

(** [main]: load the keys, build the node, enter the loop; [conn] is what the address of
    the database reaches, [now] the clock. *)
Definition node_admin_main (config : NodeConfig) (conn : string -> Database) (now : Z)
    (evs : list (Z * demo_event)) : outcome (DemoNode * list NewTxResponse) :=
  ns ← node_settings config;
  signaturer ← build_signaturer_from_string (ns_sk_id ns) (ns_sk_share ns) (ns_pk_set ns);
  pm ← init_hotstuff_node (ns_token ns) (ns_num ns) (ns_replica_id ns) (conn (ns_db ns))
         (ns_peer_addrs ns) signaturer;
  pm ← loop_start (Env := demo_env ns) pm;
  demo_run (Env := demo_env ns) ns {| dn_pm := pm; dn_sss := ServerSharedState_default;
                 dn_stat := HotStuffNodeStat_default now now; dn_running := true |} evs.
End DemoMain.
