(* ===== verification/KeysCli.v ===== *)
(** * The command line of the key generator (examples/demo/src/bin/generate_sk.rs)

    The parsing of the number of peers, the exits with an error and the files that are
    written.  The arguments are what the command-line library found; the file system is two
    parameters: which path is a directory, and which file can be created in it. *)

From stdpp Require Import pretty.
From S2P Require Import Prelude Crypto HsData CryptoKit Voter SafetyStorage Machine.
From S2P Require Import LivenessData Persistor Hss Recover Elector Timer Pacemaker Demo.

(** ** [str::parse::<usize>] *)

Definition digit_of (a : Ascii.ascii) : option Z :=
  let d := Z.of_N (Ascii.N_of_ascii a) - 48 in
  if (0 <=? d) && (d <=? 9) then Some d else None.

Fixpoint parse_digits (acc : Z) (s : string) : option Z :=
  match s with
  | EmptyString => Some acc
  | String.String a s =>
      d ← digit_of a;
      let acc := acc * 10 + d in
      if acc <? 2 ^ 64 then parse_digits acc s else None
  end.

(** A leading plus sign is allowed; the empty string and a lone sign are errors. *)
Definition parse_usize (s : string) : option Z :=
  match s with
  | EmptyString => None
  | String.String a rest =>
      if decide (a = Ascii.ascii_of_nat 43) then
        match rest with EmptyString => None | _ => parse_digits 0 rest end
      else parse_digits 0 s
  end.

Lemma digit_of_pretty x : (x < 10)%N -> digit_of (pretty_N_char x) = Some (Z.of_N x).
Proof.
  intros Hx. assert (x = 0 \/ x = 1 \/ x = 2 \/ x = 3 \/ x = 4 \/ x = 5 \/ x = 6 \/ x = 7 \/ x = 8 \/ x = 9)%N
    as Hd by lia. by repeat (destruct Hd as [->|Hd]; [reflexivity|]); subst.
Qed.

Lemma parse_digits_pretty x s :
  Z.of_N x < 2 ^ 64 -> parse_digits 0 (pretty_N_go x s) = parse_digits (Z.of_N x) s.
Proof.
  revert s. induction (N.lt_wf_0 x) as [x _ IH]. intros s Hx.
  destruct (decide (x = 0%N)) as [->|Hne]; [by rewrite pretty_N_go_0|].
  rewrite pretty_N_go_step by lia. rewrite IH.
  - cbn [parse_digits]. rewrite digit_of_pretty by (apply N.mod_lt; lia). cbn [mbind option_bind].
    assert (Hdm : Z.of_N (x / 10) * 10 + Z.of_N (x mod 10) = Z.of_N x) by (pose proof (N.div_mod x 10); lia).
    rewrite Hdm. destruct (Z.ltb_spec (Z.of_N x) (2 ^ 64)); [done|lia].
  - apply N.div_lt; lia.
  - pose proof (N.Div0.div_le_upper_bound x 10 x). lia.
Qed.

(** What starts with a plus sign is no sequence of digits. *)
Lemma parse_usize_digits s n : s <> EmptyString -> parse_digits 0 s = Some n -> parse_usize s = Some n.
Proof.
  destruct s as [|a s]; [done|]. intros _ H. unfold parse_usize. case_decide as Ha; [|done].
  subst a. discriminate.
Qed.

(** Printing a number of 64 bits and parsing it gives it back. *)
Theorem parse_usize_pretty n : u64_ok n -> parse_usize (pretty n) = Some n.
Proof.
  unfold u64_ok. intros Hn. destruct (decide (n = 0)) as [->|Hne]; [reflexivity|].
  destruct n as [|p|p]; [done| |lia].
  assert (Hp : parse_digits 0 (pretty (Z.pos p)) = Some (Z.pos p)).
  { change (pretty (Z.pos p)) with (pretty_N_go (N.pos p) EmptyString).
    rewrite parse_digits_pretty by lia. reflexivity. }
  apply parse_usize_digits; [|done]. intros He. rewrite He in Hp. discriminate.
Qed.

(** ** [main] *)

(** How the program ends: it exits with a code after a message, with the files written so
    far; it has written all files; or it has printed everything. *)
Inductive CliEnd :=
| CliExit (code : Z) (message : string) (files : list (string * string * string))
| CliWrote (files : list (string * string * string))
| CliPrinted (texts : list string).

Section KeysCli.
Context `{TC : ThresholdCrypto} {C : Codec}.
Context (is_dir : string -> bool) (can_create : string -> string -> bool).

(** The loop over the key files: directory, name and content of each. *)
Fixpoint write_keys (dir : string) (written : list (string * string * string))
    (conts : list (Z * string)) : CliEnd :=
  match conts with
  | [] => CliWrote written
  | (sk_id, cont) :: conts =>
      let name := ("crypto-" +:+ pretty sk_id)%string in
      if can_create dir name then write_keys dir (written ++ [(dir, name, cont)]) conts
      else CliExit (-1) "err" written
  end.

(** [s] is the key set that was drawn, if it comes to that. *)
Definition generate_sk_main (s : SecretKeySet) (num output : option string) : outcome CliEnd :=
  match nstr ← num; parse_usize nstr with
  | None => Ret (CliExit (-1) "expected peer number" [])
  | Some num =>
      conts ← generate_sk s num;
      match output with
      | Some dir =>
          if negb (is_dir dir) then Ret (CliExit (-1) "dir not exists" [])
          else Ret (write_keys dir [] conts)
      | None => Ret (CliPrinted ((fun '(_, cont) => cont +:+ newline +:+ newline +:+ newline)%string <$> conts))
      end
  end.

Lemma write_keys_all dir written conts :
  (forall i, i ∈ conts.*1 -> can_create dir ("crypto-" +:+ pretty i)%string = true) ->
  write_keys dir written conts =
    CliWrote (written ++ ((fun '(i, cont) => (dir, ("crypto-" +:+ pretty i)%string, cont)) <$> conts)).
Proof.
  revert written. induction conts as [|[i cont] conts IH]; intros written Hc; cbn [write_keys].
  - by rewrite app_nil_r.
  - rewrite Hc by by left. rewrite IH by (intros j Hj; apply Hc; by right). by rewrite <-app_assoc.
Qed.

(** The generator called with a printed number of peers and a directory in which it can
    create files writes one file per peer, named after its index, and different peers have
    different files. *)
Theorem generate_sk_writes s n dir :
  0 <= n < 2 ^ 63 -> is_dir dir = true -> (forall name, can_create dir name = true) ->
  exists files, generate_sk_main s (Some (pretty n)) (Some dir) = Ret (CliWrote files) /\
    Z.of_nat (length files) = n /\ NoDup ((fun '(_, name, _) => name) <$> files) /\
    forall i, 0 <= i < n ->
      (dir, ("crypto-" +:+ pretty i)%string,
       join newline (key_file_lines n i (secret_key_share s i) (public_keys s))) ∈ files.
Proof.
  intros Hn Hd Hc. unfold generate_sk_main. cbn [mbind option_bind].
  rewrite parse_usize_pretty by (unfold u64_ok; lia).
  unfold generate_sk, threshold_sign_kit. rewrite quorum_threshold_small by lia.
  destruct (Z.leb_spec (2 * n / 3) n) as [_|Hlt];
    [|exfalso; apply (Z.lt_irrefl n); eapply Z.lt_le_trans; [exact Hlt|]; apply Z.div_le_upper_bound; lia].
  cbn [mbind outcome_bind]. rewrite Hd. cbn [negb]. rewrite write_keys_all by (intros; apply Hc).
  eexists. split; [reflexivity|]. change (List.map ?f ?l) with (f <$> l). rewrite app_nil_l.
  split; [rewrite !length_fmap, length_seqZ; lia|]. split.
  - rewrite <-!list_fmap_compose. apply NoDup_fmap_2; [|apply NoDup_seqZ].
    intros i j Hij. apply (inj (String.append "crypto-")) in Hij. by apply (inj pretty) in Hij.
  - intros i Hi. rewrite <-!list_fmap_compose. apply list_elem_of_fmap. exists i. split; [done|].
    apply elem_of_seqZ. lia.
Qed.

(** Without a number, or with one that does not parse, it exits and draws no keys. *)
Theorem generate_sk_refuses s num output :
  (match num with Some nstr => parse_usize nstr = None | None => True end) ->
  generate_sk_main s num output = Ret (CliExit (-1) "expected peer number" []).
Proof. intros H. unfold generate_sk_main. destruct num as [nstr|]; [|done]. cbn. by rewrite H. Qed.
End KeysCli.
