(* ===== verification/DemoSafety.v ===== *)
(** * What the demo node shows its clients

    Submitted transactions never leave the state [pending], because the event loop does
    not call the callback that would mark them; the callback itself is correct.  The key
    files of [generate_sk] give signers that work together, and the statistics are those
    of the proposals
    committed. *)

From stdpp Require Import pretty.
From S2P Require Import Prelude Crypto HsData CryptoKit Voter SafetyStorage Machine.
From S2P Require Import LivenessData Persistor Hss Recover Elector Timer Pacemaker Demo.

Section DemoSafety.
Context `{TC : ThresholdCrypto} {C : Codec}.

(** ** The callback for committed proposals *)

(** The names of the transactions of a proposal, when all are UTF-8. *)
Definition tx_keys (txs : list Txn) : option (list string) :=
  mapM (fun tx => String_from_utf8 (Txn_as_ref tx)) txs.

Lemma inform_txs_spec pool txs :
  match tx_keys txs with
  | Some keys =>
      exists pool', inform_txs pool txs = Ret pool' /\
        forall h, pool' !! h =
          (fun w => if decide (h ∈ keys)
                    then mkTxWrapper (txw_tx_hash w) (txw_tx w) TX_STATE_COMMITTED else w) <$> pool !! h
  | None => inform_txs pool txs = Panic
  end.
Proof.
  revert pool. unfold tx_keys. induction txs as [|tx txs IH]; intros pool; cbn [mapM inform_txs].
  - exists pool. split; [done|]. intros h. destruct (pool !! h) as [w|]; [|done].
    cbn [fmap option_fmap option_map]. by rewrite decide_False by apply not_elem_of_nil.
  - destruct (String_from_utf8 (Txn_as_ref tx)) as [key|]; cbn [mbind option_bind unwrap]; [|done].
    specialize (IH (mark_committed pool key)). cbn [mbind outcome_bind].
    destruct (mapM _ txs) as [keys|]; cbn [mbind option_bind mret option_ret]; [|done].
    destruct IH as (pool' & -> & Hp). exists pool'. split; [done|].
    intros h. rewrite Hp. unfold mark_committed. destruct (decide (h = key)) as [->|Hne].
    + rewrite lookup_alter_eq. destruct (pool !! key) as [w|]; [|done].
      cbn [fmap option_fmap option_map]. rewrite (decide_True (P := key ∈ key :: keys)) by (by left).
      by case_decide.
    + rewrite lookup_alter_ne by done. destruct (pool !! h) as [w|]; [|done].
      cbn [fmap option_fmap option_map]. destruct (decide (h ∈ keys)) as [Hin|Hin].
      * by rewrite decide_True by (by right).
      * rewrite decide_False; [done|]. by intros [|]%elem_of_cons.
Qed.

(** ** Statistics *)

(** The largest difference between neighbours of [v :: l]. *)
Fixpoint max_gap_ref (v : Z) (l : list Z) : Z :=
  match l with
  | [] => 0
  | h :: l => Z.max (h - v) (max_gap_ref h l)
  end.

Fixpoint take_all (s : HotStuffNodeStat) (l : list (Z * TreeNode)) : outcome HotStuffNodeStat :=
  match l with
  | [] => Ret s
  | (now, prop) :: l => s ← HNS_take_new_committed_prop s now prop; take_all s l
  end.

(** Neighbours rise, within 64 bits. *)
Definition rising (v : Z) (hs : list Z) : Prop := StronglySorted Z.lt (v :: hs) /\ Forall u64_ok (v :: hs).

Lemma rising_tail v h hs : rising v (h :: hs) -> v < h < 2 ^ 64 /\ 0 <= v /\ rising h hs.
Proof.
  intros [Hs Hf]. apply StronglySorted_inv in Hs as [Hs Hv].
  apply Forall_cons in Hf as [[??] Hf]. pose proof Hf as Hf'. apply Forall_cons in Hf' as [[??] _].
  apply Forall_cons in Hv as [? _]. split; [lia|]. split; [lia|]. by split.
Qed.

Lemma take_all_spec s l v :
  last (hst_committed_prop_list s) = Some v -> 0 <= hst_max_gap s ->
  StronglySorted Z.le (hst_ts_last_prop s :: l.*1) ->
  rising v (node_height <$> l.*2) ->
  exists s', take_all s l = Ret s' /\
    hst_committed_prop_list s' = hst_committed_prop_list s ++ (node_height <$> l.*2) /\
    hst_max_gap s' = Z.max (hst_max_gap s) (max_gap_ref v (node_height <$> l.*2)) /\
    length (hst_interval_list s') = (length (hst_interval_list s) + length l)%nat.
Proof.
  revert s v. induction l as [|[now prop] l IH]; intros s v Hlast Hpos Htime Hr; cbn [take_all].
  { exists s. cbn. rewrite app_nil_r. split_and!; [done|done|lia|lia]. }
  cbn in Htime, Hr. apply rising_tail in Hr as (Hlt & Hv & Hr).
  apply StronglySorted_inv in Htime as [Htime Hnow]. apply Forall_cons in Hnow as [Hnow _].
  unfold HNS_take_new_committed_prop, duration_since. rewrite Hlast.
  destruct (Z.leb_spec (hst_ts_last_prop s) now); [|lia]. cbn [unwrap mbind outcome_bind].
  rewrite wrap64_small by (unfold u64_ok; lia).
  match goal with |- context [take_all ?s1 l] => destruct (IH s1 (node_height prop))
    as (s' & Hs' & Hc & Hg & Hi) end; [apply last_snoc|cbn; lia|done|done|].
  exists s'. split; [done|]. cbn in Hc, Hg, Hi |- *. rewrite Hc, Hg, Hi, <-app_assoc, length_app.
  cbn. split_and!; [done|lia|lia].
Qed.

(** The statistics of a node that commits proposals of rising heights on a clock that does
    not go back: the heights in order, one interval per proposal, and the largest gap
    between neighbours. *)
Theorem stat_of_commits t0 t1 now prop l :
  t1 <= now -> StronglySorted Z.le (now :: l.*1) ->
  rising (node_height prop) (node_height <$> l.*2) ->
  exists s, take_all (HotStuffNodeStat_default t0 t1) ((now, prop) :: l) = Ret s /\
    hst_committed_prop_list s = node_height prop :: (node_height <$> l.*2) /\
    hst_max_gap s = max_gap_ref (node_height prop) (node_height <$> l.*2) /\
    length (hst_interval_list s) = S (length l).
Proof.
  intros Ht Htime Hr. cbn [take_all]. unfold HNS_take_new_committed_prop, duration_since. cbn -[take_all].
  destruct (Z.leb_spec t1 now); [|lia]. cbn -[take_all].
  match goal with |- context [take_all ?s1 l] => destruct (take_all_spec s1 l (node_height prop))
    as (s' & Hs' & Hc & Hg & Hi) end; [done|done|done|done|].
  exists s'. split; [done|]. cbn in Hc, Hg, Hi. split_and!; [done| |lia].
  rewrite Hg. apply Z.max_r. clear. generalize (node_height <$> l.*2). generalize (node_height prop).
  intros v hs. revert v. induction hs as [|h hs IH]; intros v; simpl; [lia|]. specialize (IH h). lia.
Qed.

(** ** Keys *)

(** [sg] is the signer a node gets from the key file number [i]: the text after
    [sk_share=] and the text after [pk_set=] are given to [build_signaturer_from_string]. *)
Definition loads_from (files : list (Z * string)) (num i : Z) (sg : DefaultSignaturer) : Prop :=
  exists share pks,
    (i, join newline ["num=" +:+ pretty num; "th=" +:+ pretty (quorum_threshold num);
                      "sk_id=" +:+ pretty i; "sk_share=" +:+ share; "pk_set=" +:+ pks]%string) ∈ files /\
    build_signaturer_from_string i share pks = Ret sg.

Lemma generated_file_loads `{!ThresholdCryptoLaws} `{!CodecLaws} (s : SecretKeySet) num files i :
  generate_sk s num = Ret files -> i ∈ seqZ 0 num ->
  loads_from files num i (DefaultSignaturer_new i (public_keys s) (secret_key_share s i)).
Proof.
  unfold generate_sk, threshold_sign_kit. destruct (_ <=? num); [|done].
  cbn [mbind outcome_bind]. intros Hfiles Hi. apply Ret_inv in Hfiles as <-.
  exists (String.string_of_list_byte (json_of_sk (secret_key_share s i))),
    (String.string_of_list_byte (json_of_pk (public_keys s))). split.
  - change (List.map ?f ?l) with (f <$> l). rewrite <-list_fmap_compose.
    apply list_elem_of_fmap. by exists i.
  - unfold build_signaturer_from_string, str_bytes.
    rewrite !String.list_byte_of_string_of_list_byte, json_pk_roundtrip. cbn [unwrap mbind outcome_bind].
    rewrite json_sk_roundtrip. cbn [unwrap mbind outcome_bind]. by rewrite share_verify_ok.
Qed.

End DemoSafety.

Section DemoSession.
Context `{TC : ThresholdCrypto} {C : Codec} {F : Fnv} {Env : PacemakerEnv}.

Implicit Types (nd : DemoNode) (sss : ServerSharedState).

(** The transactions a session accepted, in order. *)
Definition accepted_tx (ev : demo_event) : option string :=
  match ev with
  | DE_new_tx req =>
      match base64_decode (ntr_tx req) with Some _ => Some (ntr_tx_hash req) | None => None end
  | _ => None
  end.

Definition accepted_txs (evs : list (Z * demo_event)) : list string := omap accepted_tx (evs.*2).

(** The answer to an event when the transactions [acc] were accepted before it. *)
Definition demo_answer (acc : list string) (ev : demo_event) : option NewTxResponse :=
  match ev with
  | DE_new_tx req =>
      Some {| nts_tx_hash := ntr_tx_hash req;
              nts_state := match accepted_tx ev with Some _ => TX_STATE_PENDING | None => TX_STATE_INVALID end |}
  | DE_query h =>
      Some {| nts_tx_hash := h;
              nts_state := if decide (h ∈ acc) then TX_STATE_PENDING else TX_STATE_INVALID |}
  | _ => None
  end.

Fixpoint demo_answers (acc : list string) (evs : list (Z * demo_event)) : list NewTxResponse :=
  match evs with
  | [] => []
  | (_, ev) :: evs => option_list (demo_answer acc ev) ++ demo_answers (acc ++ option_list (accepted_tx ev)) evs
  end.

(** The shared state when the transactions [acc] were accepted and nothing was committed. *)
Record pending_only (acc : list string) nd : Prop := {
  po_queue : sss_tx_queue (dn_sss nd) = (fun h => mkTxn (str_bytes h)) <$> acc;
  po_pool h : sss_tx_pool (dn_sss nd) !! h =
    if decide (h ∈ acc) then Some (mkTxWrapper h (mkTxn (str_bytes h)) TX_STATE_PENDING) else None;
  po_stat : hst_committed_prop_list (dn_stat nd) = [];
}.

Lemma event_loop_turn_with_app ns now p app ev p' app' b :
  event_loop_turn_with (demo_callbacks ns now) p app ev = Ret (p', app', b) -> app' = app.
Proof.
  unfold event_loop_turn_with. cbn [cb_end_fn cb_fetch cb_observe_fn demo_callbacks].
  destruct (demo_end_fn _ _ _); [by intros [= _ <- _]|]. destruct (new_view_set _ _) as [s set].
  intros H. apply bind_Ret_inv in H as ([p1 q] & _ & H). by injection H as _ <- _.
Qed.

Lemma demo_turn_frame ns now nd ev nd' :
  demo_turn ns now nd ev = Ret nd' -> dn_sss nd' = dn_sss nd /\ dn_stat nd' = dn_stat nd.
Proof.
  unfold demo_turn. destruct (dn_running nd); intros H; [|by apply Ret_inv in H as <-].
  apply bind_Ret_inv in H as ([[pm app] stop] & H1 & H). apply event_loop_turn_with_app in H1 as ->.
  apply bind_Ret_inv in H as ([pm' app'] & H2 & H). apply Ret_inv in H as <-. cbn.
  destruct stop; [apply bind_Ret_inv in H2 as (? & _ & H2)|]; by injection H2 as _ <-.
Qed.

Lemma demo_step_pending ns now acc nd ev nd' r :
  pending_only acc nd -> demo_step ns now nd ev = Ret (nd', r) ->
  r = demo_answer acc ev /\ pending_only (acc ++ option_list (accepted_tx ev)) nd'.
Proof.
  intros [Hq Hp Hs] H.
  assert (Hturn : forall lev nd1, demo_turn ns now nd lev = Ret nd1 -> pending_only (acc ++ []) nd1).
  { intros lev nd1 [E1 E2]%demo_turn_frame. rewrite app_nil_r. by split; rewrite ?E1, ?E2. }
  destruct ev as [req|h0| |pe|te]; cbn [demo_step] in H;
    try (apply bind_Ret_inv in H as (nd1 & H1%Hturn & H); by apply Ret_inv, pair_eq in H as [<- <-]).
  - unfold process_new_tx in H. cbn [demo_answer accepted_tx].
    destruct (base64_decode (ntr_tx req)) as [b|]; apply Ret_inv, pair_eq in H as [<- <-].
    + split; [done|]. split; cbn; [by rewrite Hq, fmap_app| |done]. intros h. rewrite lookup_insert.
      destruct (decide (ntr_tx_hash req = h)) as [->|Hne]; [by rewrite decide_True by set_solver|].
      rewrite Hp. destruct (decide (h ∈ acc)) as [Ha|Ha]; [rewrite decide_True by set_solver; done|].
      rewrite decide_False by set_solver. done.
    + split; [done|]. cbn. rewrite app_nil_r. by split.
  - apply Ret_inv, pair_eq in H as [<- <-]. cbn. rewrite app_nil_r. split; [|by split].
    unfold query_tx. rewrite Hp. by case_decide.
Qed.

Lemma demo_run_pending ns evs acc nd nd' rs :
  pending_only acc nd -> demo_run ns nd evs = Ret (nd', rs) ->
  rs = demo_answers acc evs /\ pending_only (acc ++ accepted_txs evs) nd'.
Proof.
  revert acc nd rs. induction evs as [|[now ev] evs IH]; intros acc nd rs Hacc H; cbn [demo_run] in H.
  - apply Ret_inv, pair_eq in H as [<- <-]. unfold accepted_txs. cbn. by rewrite app_nil_r.
  - apply bind_Ret_inv in H as ([nd1 r] & H1 & H). apply bind_Ret_inv in H as ([nd2 rs'] & H2 & H).
    apply Ret_inv, pair_eq in H as [<- <-].
    apply demo_step_pending with (acc := acc) in H1 as [-> H1]; [|done].
    apply (IH _ _ _ H1) in H2 as [-> H2]. split; [done|]. revert H2.
    rewrite <-app_assoc. unfold accepted_txs. cbn. by destruct (accepted_tx ev).
Qed.
End DemoSession.

Section DemoMainSafety.
Context `{TC : ThresholdCrypto} {C : Codec} {F : Fnv} {Env : PacemakerEnv}.

(** C39. A transaction submitted to the demo node is pending for ever. Over any session of
    requests and turns of the event loop with the callbacks of main, whatever the replicas
    commit: every transaction that decodes is answered with pending and any other with
    invalid, a query is answered with pending for the transactions accepted before it and
    with invalid for all others, the accepted transactions are queued in order, and the
    statistics stay empty, because the event loop never calls the callback for committed
    proposals. *)
Theorem demo_tx_stays_pending config conn now evs nd' rs :
  node_admin_main config conn now evs = Ret (nd', rs) ->
  rs = demo_answers [] evs /\
  sss_tx_queue (dn_sss nd') = (fun h => mkTxn (str_bytes h)) <$> accepted_txs evs /\
  (forall h, nts_state (query_tx (dn_sss nd') h) =
     if decide (h ∈ accepted_txs evs) then TX_STATE_PENDING else TX_STATE_INVALID) /\
  hst_committed_prop_list (dn_stat nd') = [].
Proof.
  intros H. unfold node_admin_main in H.
  apply bind_Ret_inv in H as (ns & _ & H). apply bind_Ret_inv in H as (sg & _ & H).
  apply bind_Ret_inv in H as (pm & _ & H). apply bind_Ret_inv in H as (pm1 & _ & H).
  apply (demo_run_pending ns evs []) in H as [-> [Hq Hp Hs]].
  - split; [done|]. split; [exact Hq|]. split; [|exact Hs].
    intros h. unfold query_tx. cbn [nts_state]. rewrite Hp, app_nil_l. by case_decide.
  - split; [done| |done]. intros h. cbn.
    destruct (decide (h ∈ [])) as [[]%elem_of_nil|_]. apply lookup_empty.
Qed.
End DemoMainSafety.
