(* ===== verification/Scenario.v ===== *)
(** * Runs of the protocol on concrete data

    The executable scheme of [Crypto] with a concrete codec: four replicas, a chain
    of proposals built by [form_chain], and one replica that is fed with it.  The
    runs show the commit rule at work, and what the height of the last vote allows. *)

From S2P Require Import Prelude Crypto HsData CryptoKit Voter SafetyStorage Machine.
From S2P Require Import LivenessData StorageContract Persistor Hss HssSafety HssWalk.
From S2P Require Import HssReach Elector Timer Pacemaker.

(** ** A codec: bytes as characters, anything countable as bits *)

Fixpoint bits_of_pos (p : positive) : list byte :=
  match p with
  | xH => []
  | xO p => x00 :: bits_of_pos p
  | xI p => x01 :: bits_of_pos p
  end.

Fixpoint pos_of_bits (l : list byte) : positive :=
  match l with
  | [] => 1%positive
  | x00 :: l => xO (pos_of_bits l)
  | _ :: l => xI (pos_of_bits l)
  end.

Lemma pos_of_bits_of_pos p : pos_of_bits (bits_of_pos p) = p.
Proof. induction p as [p IH|p IH|]; simpl; by rewrite ?IH. Qed.

#[local] Instance Txn_countable : Countable Txn :=
  inj_countable' Txn_as_ref mkTxn (fun t => match t with mkTxn _ => eq_refl end).

Definition bits_encode {A : Type} `{Countable A} (a : A) : list byte := bits_of_pos (encode a).
Definition bits_decode {A : Type} `{Countable A} (l : list byte) : option A := decode (pos_of_bits l).

Lemma bits_roundtrip {A : Type} `{Countable A} (a : A) : bits_decode (bits_encode a) = Some a.
Proof. unfold bits_decode, bits_encode. by rewrite pos_of_bits_of_pos, decode_encode. Qed.

#[local] Existing Instance ToyCrypto.

(** The one certificate the codec below can read. *)
Definition toy_tc : TimeoutCertificate :=
  TimeoutCertificate_new "r0" 0
    (SignKit_from (sk_sign (secret_key_share 2 0) [], 0)) INIT_QC.

Definition ToyCodec : Codec := {|
  base64_encode := String.string_of_list_byte;
  base64_decode := fun s => Some (String.list_byte_of_string s);
  json_of_txns := bits_encode;
  txns_of_json := bits_decode;
  json_of_sign_type := SignType_variant;
  tc_of_json := fun s => if String.eqb s "from" then Some toy_tc else None;
  json_of_pk := (bits_encode : Z -> list byte);
  pk_of_json := (bits_decode : list byte -> option Z);
  json_of_sk := (bits_encode : Z -> list byte);
  sk_of_json := (bits_decode : list byte -> option Z);
|}.

Lemma ToyCodecLaws : @CodecLaws ToyCrypto ToyCodec.
Proof.
  split; intros; try apply bits_roundtrip.
  - exact (f_equal Some (String.list_byte_of_string_of_list_byte l)).
  - exists (fun s => [s]). split; [done|]. intros s tc. cbn.
    destruct (String.eqb_spec s "from"); [|done]. subst. intros _. by left.
Qed.

#[local] Existing Instance ToyCodec.

(** ** Four replicas, threshold 2 *)

Definition keys : SecretKeySet := 2.
Definition share_keys : list (Z * SK) := (fun i => (i, secret_key_share keys i)) <$> seqZ 0 4.
Definition peers : gmap string string := <["r0":="a0"]> (<["r1":="a1"]> (<["r2":="a2"]> {["r3":="a3"]}))%string.

Definition replica_signer (i : Z) : DefaultSignaturer :=
  DefaultSignaturer_new i (public_keys keys) (secret_key_share keys i).

Definition replica_store (id : string) (i : Z) : HotstuffStorage :=
  init_in_mem_storage 4 INIT_NODE INIT_NODE_HASH INIT_QC id peers (replica_signer i).

Definition replica (id : string) (i : Z) : Machine HotstuffStorage :=
  Machine_new (Voter_new (quorum_threshold 4) (replica_signer i)) id 4 None (replica_store id i).

Definition from_leader : Context := Context_broadcast "r0"%string 1.

(** The chain of [n] proposals that [form_chain] makes, one byte each. *)
Definition chain (n : nat) : list TreeNode :=
  match form_chain ((fun i => [byte_of_Z (Z.of_nat i)]) <$> seq 1 n) share_keys (public_keys keys) with
  | Ret l => l.*2
  | _ => []
  end.

Definition prop_at (i : nat) : TreeNode := default INIT_NODE (chain 5 !! i).

(** The messages a replica signed with its votes, in order. *)
Definition signed (rs : list (result Ready SafetyErr)) : list (list byte) :=
  omap (fun r => match r with Ok (Signature _ p _) => Some (TreeNode_to_be_bytes p) | _ => None end) rs.

Definition feed (ps : list TreeNode) : outcome (Machine HotstuffStorage * list (result Ready SafetyErr)) :=
  Machine_run (replica "r1" 1) (RecvProposal from_leader <$> ps).

(** A concrete run: a replica fed with a chain of five proposals signs all five in
    order, commits the second, locks the third and has the fourth as leaf. *)
Theorem chain_of_five_commits_two :
  (fun '(m, rs) => (signed rs, node_height (HSS_get_last_committed (m_storage m)),
                    node_height (HSS_get_locked_node (m_storage m)),
                    node_height (HSS_get_leaf (m_storage m)))) <$> feed (chain 5)
  = Ret (TreeNode_to_be_bytes <$> chain 5, 2, 3, 4).
Proof. vm_compute. reflexivity. Qed.

(** A second proposal of the height of [prop_at 1], with the same parent and
    certificate. *)
Definition rival : TreeNode :=
  TreeNode_new [Txn_new [xff]] (node_height (prop_at 1)) (node_parent (prop_at 1))
    (node_justify (prop_at 1)).

(** A concrete run of one correct replica, with valid certificates throughout, in
    which it signs two different proposals of the same height: after the vote for the
    second proposal of a chain the vote height falls back, and a rival of that proposal is
    signed as well. *)
Example replica_votes_twice_at_one_height :
  node_height rival = node_height (prop_at 1) /\
  TreeNode_to_be_bytes rival <> TreeNode_to_be_bytes (prop_at 1) /\
  (fun '(_, rs) => signed rs) <$> feed [prop_at 0; prop_at 1; rival] =
    Ret (TreeNode_to_be_bytes <$> [prop_at 0; prop_at 1; rival]).
Proof.
  split; [done|]. split; [|vm_compute; reflexivity].
  apply (bool_decide_unpack _). vm_compute. exact I.
Qed.
