(* ===== verification/Attack.v ===== *)
(** * Two correct replicas that disagree

    Four replicas of which [r0] is faulty.  The faulty one makes the proposals and knows its
    own key share only: a certificate is formed from that share and from votes the correct
    replicas have cast.  Every correct replica votes for rising heights, and still two of
    them commit proposals on different branches, because the heights of a three-chain need
    not follow each other. *)

From S2P Require Import Prelude Crypto HsData CryptoKit Voter SafetyStorage Machine.
From S2P Require Import LivenessData Persistor Hss Scenario.

Section Attack.
Context `{TC : ThresholdCrypto} {C : Codec}.

(** The correct replicas and every vote they have cast, the latest last. *)
Record System := mkSystem {
  sy_machines : gmap string (Machine HotstuffStorage);
  sy_votes : list (string * TreeNode * SignKit);
}.

(** What a replica voted for, in order. *)
Definition voted_by (sy : System) (r : string) : list TreeNode :=
  omap (fun '(r', p, _) => if decide (r' = r) then Some p else None) (sy_votes sy).

(** A proposal of the faulty leader is delivered to a correct replica. *)
Definition deliver_to (sy : System) (r : string) (p : TreeNode) : outcome System :=
  m ← unwrap (sy_machines sy !! r);
  '(m, answer) ← Machine_process_safety_event m (RecvProposal (Context_broadcast "r0" (node_height p)) p);
  Ret {| sy_machines := <[r:=m]> (sy_machines sy);
         sy_votes := sy_votes sy ++ match answer with
                                    | Ok (Signature _ q kit) => [(r, q, kit)]
                                    | _ => []
                                    end |}.

Fixpoint deliver_all (sy : System) (rs : list string) (p : TreeNode) : outcome System :=
  match rs with
  | [] => Ret sy
  | r :: rs => sy ← deliver_to sy r p; deliver_all sy rs p
  end.

(** The shares on [p] among the votes cast. *)
Definition shares_on (sy : System) (p : TreeNode) : list (Z * Sign) :=
  omap (fun '(_, q, kit) => if decide (TreeNode_to_be_bytes q = TreeNode_to_be_bytes p)
                            then Some (kit_sign_id kit, kit_sign kit) else None) (sy_votes sy).

(** What the faulty replica can certify with its share [sk] of index 0. *)
Definition certify (sy : System) (pks : PK) (sk : SK) (p : TreeNode) : outcome GenericQC :=
  c ← unwrap (combine_signatures pks
        ((0, sk_sign sk (TreeNode_to_be_bytes p)) :: shares_on sy p));
  Ret (GenericQC_new (node_height p) (TreeNode_hash p) c).

Definition block (tx : byte) (height : Z) (parent : TreeNode) (qc : GenericQC) : TreeNode :=
  TreeNode_new [Txn_new [tx]] height (TreeNode_hash parent) qc.

(** Two branches on the initial proposal: [b1], [b5], [b6] and [x3], [x7], [x8].  The
    replicas [both] vote on the two of them; [one] sees the first, [both] the end of the
    second. *)
Definition attack (pks : PK) (sk : SK) (sy : System) (both : list string) (one : string) :
    outcome System :=
  let b1 := block xb1 1 INIT_NODE INIT_QC in
  sy ← deliver_all sy (one :: both) b1;
  qb1 ← certify sy pks sk b1;
  let x3 := block xc3 3 INIT_NODE INIT_QC in
  sy ← deliver_all sy both x3;
  qx3 ← certify sy pks sk x3;
  let b5 := block xb5 5 b1 qb1 in
  sy ← deliver_all sy (one :: both) b5;
  qb5 ← certify sy pks sk b5;
  let b6 := block xb6 6 b5 qb5 in
  sy ← deliver_all sy (one :: both) b6;
  qb6 ← certify sy pks sk b6;
  let b7 := block xb7 7 b6 qb6 in
  sy ← deliver_to sy one b7;
  let x7 := block xc7 7 x3 qx3 in
  sy ← deliver_all sy both x7;
  qx7 ← certify sy pks sk x7;
  let x8 := block xc8 8 x7 qx7 in
  sy ← deliver_all sy both x8;
  qx8 ← certify sy pks sk x8;
  let x9 := block xc9 9 x8 qx8 in
  deliver_all sy both x9.

Definition committed (sy : System) (r : string) : option TreeNode :=
  (fun m => HSS_get_last_committed (m_storage m)) <$> sy_machines sy !! r.
End Attack.

#[local] Existing Instance ToyCrypto.
#[local] Existing Instance ToyCodec.

Definition three_correct : System :=
  {| sy_machines := <["r1":=replica "r1" 1]> (<["r2":=replica "r2" 2]> {["r3":=replica "r3" 3]})%string;
     sy_votes := [] |}.

Definition attacked : outcome System :=
  attack (public_keys keys) (secret_key_share keys 0) three_correct ["r1"; "r2"]%string "r3"%string.

(** Why [agreement] asks for consecutive heights in a commit: one faulty replica of four
    makes correct ones commit different branches.  Every certificate it uses is formed from
    its own share and from votes cast by the correct replicas, each correct replica votes
    for strictly rising heights, and in the end r3 has committed a proposal of height 1 and
    r1 and r2 one of height 3, both children of the initial proposal. *)
Example correct_replicas_disagree :
  (fun sy => (node_height <$> voted_by sy "r1", node_height <$> voted_by sy "r2",
              node_height <$> voted_by sy "r3",
              (fun r => (fun b => (node_height b, bool_decide (node_parent b = INIT_NODE_HASH)))
                          <$> committed sy r) <$> ["r1"; "r2"; "r3"])%string) <$> attacked
  = Ret ([1; 3; 5; 6; 7; 8; 9], [1; 3; 5; 6; 7; 8; 9], [1; 5; 6; 7],
         [Some (3, true); Some (3, true); Some (1, true)]).
Proof. vm_compute. reflexivity. Qed.
