(* ===== verification/Mocker.v ===== *)
(** * The test bench of the machine (hs-test/src/mocker_hotstuff.rs)

    [MockHotStuff] plays the leader and the other replicas for one machine over
    [HotstuffStorage], the testee.  An assertion that fails is a panic.  The signatures it
    calls corrupted are uninitialised memory: any value, a parameter here. *)

From stdpp Require Import pretty.
From S2P Require Import Prelude Crypto HsData CryptoKit Voter SafetyStorage Machine.
From S2P Require Import LivenessData Persistor Hss.

#[export] Instance QCHash_countable : Countable QCHash :=
  inj_countable' QCHash_as_ref mkQCHash (fun h => match h with mkQCHash _ => eq_refl end).

(** [assert!]. *)
Definition assert_ (b : bool) : outcome unit := if b then Ret tt else Panic.

Definition replica_name (i : Z) : ReplicaID := ("replica-" +:+ pretty i)%string.

(** ** The bench *)

Section Mocker.
Context `{TC : ThresholdCrypto} {C : Codec}.

Inductive ExpectedState :=
| LockedAt (tx : string)
| CommittedBeforeHeight (h : Z)
| QcHighOf (tx : string)
| ParentIs (tx : string) (prop : TreeNode)
| QcOf (tx : string) (prop : TreeNode).

Inductive MockEvent :=
| CorruptedVoteFrom (from : Z) (tx : string)
| AcceptedVote (from : Z) (tx : string).

Record MockHotStuff := mkMockHotStuff {
  mk_testee : option (Machine HotstuffStorage);
  mk_token : string;
  mk_pks : option PK;
  mk_sk : option SecretKeySet;
  mk_sks : list (Z * SK);
  mk_tx_to_hash : gmap string NodeHash;
  mk_nodes : gmap NodeHash TreeNode;
  mk_qcs : gmap QCHash GenericQC;
  mk_parent : NodeHash;
  mk_qc_high : GenericQC;
  mk_height : Z;
  mk_th : Z;
  mk_n : Z;
  mk_leader_id : Z;
  mk_testee_id : Z;
  mk_init_done : bool;
  mk_adversial : option Z;
}.

Definition mk_set_testee (t : Machine HotstuffStorage) (k : MockHotStuff) : MockHotStuff :=
  mkMockHotStuff (Some t) (mk_token k) (mk_pks k) (mk_sk k) (mk_sks k) (mk_tx_to_hash k)
    (mk_nodes k) (mk_qcs k) (mk_parent k) (mk_qc_high k) (mk_height k) (mk_th k) (mk_n k)
    (mk_leader_id k) (mk_testee_id k) (mk_init_done k) (mk_adversial k).
Definition mk_set_height (h : Z) (k : MockHotStuff) : MockHotStuff :=
  mkMockHotStuff (mk_testee k) (mk_token k) (mk_pks k) (mk_sk k) (mk_sks k) (mk_tx_to_hash k)
    (mk_nodes k) (mk_qcs k) (mk_parent k) (mk_qc_high k) h (mk_th k) (mk_n k)
    (mk_leader_id k) (mk_testee_id k) (mk_init_done k) (mk_adversial k).
Definition mk_set_ids (leader testee : Z) (adversial : option Z) (k : MockHotStuff) : MockHotStuff :=
  mkMockHotStuff (mk_testee k) (mk_token k) (mk_pks k) (mk_sk k) (mk_sks k) (mk_tx_to_hash k)
    (mk_nodes k) (mk_qcs k) (mk_parent k) (mk_qc_high k) (mk_height k) (mk_th k) (mk_n k)
    leader testee (mk_init_done k) adversial.

Definition Mock_new (n : Z) : MockHotStuff :=
  {| mk_testee := None; mk_token := "test"; mk_parent := INIT_NODE_HASH; mk_qc_high := INIT_QC;
     mk_pks := None; mk_sk := None; mk_sks := []; mk_tx_to_hash := ∅; mk_nodes := ∅; mk_qcs := ∅;
     mk_height := 0; mk_th := quorum_threshold n; mk_n := n; mk_leader_id := 0; mk_testee_id := 0;
     mk_init_done := false; mk_adversial := None |}.

Definition Mock_specify_leader (leader : Z) (k : MockHotStuff) : outcome MockHotStuff :=
  _ ← assert_ (leader <? mk_n k); Ret (mk_set_ids leader (mk_testee_id k) (mk_adversial k) k).
Definition Mock_specify_testee (testee : Z) (k : MockHotStuff) : outcome MockHotStuff :=
  _ ← assert_ (testee <? mk_n k); Ret (mk_set_ids (mk_leader_id k) testee (mk_adversial k) k).
Definition Mock_specify_adversial (adv : Z) (k : MockHotStuff) : outcome MockHotStuff :=
  _ ← assert_ (adv <? mk_n k); Ret (mk_set_ids (mk_leader_id k) (mk_testee_id k) (Some adv) k).

(** [s] is the key set that was drawn. *)
Definition Mock_init (s : SecretKeySet) (k : MockHotStuff) : outcome MockHotStuff :=
  _ ← assert_ (negb (mk_init_done k));
  _ ← assert_ (0 <? mk_n k);
  _ ← assert_ (mk_testee_id k <? mk_n k);
  let th := quorum_threshold (mk_n k) in
  '(a, b, c) ← threshold_sign_kit s (mk_n k) th;
  let signaturer := DefaultSignaturer_new (mk_testee_id k) b (secret_key_share a (mk_testee_id k)) in
  let voter := Voter_new th signaturer in
  let id := replica_name (mk_testee_id k) in
  let peer_addr := map_collect [(id, "localhost:6666"%string)] in
  let storage := init_in_mem_storage (mk_n k) INIT_NODE INIT_NODE_HASH INIT_QC id peer_addr signaturer in
  let testee := Machine_new voter id (mk_n k) (Some (replica_name (mk_leader_id k))) storage in
  Ret {| mk_testee := Some testee; mk_token := mk_token k; mk_pks := Some b; mk_sk := Some a;
         mk_sks := c; mk_tx_to_hash := <["init"%string:=INIT_NODE_HASH]> (mk_tx_to_hash k);
         mk_nodes := <[INIT_NODE_HASH:=INIT_NODE]> (mk_nodes k);
         mk_qcs := <[INIT_QC_HASH:=INIT_QC]> (mk_qcs k);
         mk_parent := INIT_NODE_HASH; mk_qc_high := INIT_QC; mk_height := mk_height k;
         mk_th := th; mk_n := mk_n k; mk_leader_id := mk_leader_id k;
         mk_testee_id := mk_testee_id k; mk_init_done := true; mk_adversial := mk_adversial k |}.

(** ** Bookkeeping *)

Definition Mock_update (cmd : string) (view : ViewNumber) (prev_qc : GenericQC) (node : TreeNode)
    (hash : NodeHash) (k : MockHotStuff) : MockHotStuff :=
  {| mk_testee := mk_testee k; mk_token := mk_token k; mk_pks := mk_pks k; mk_sk := mk_sk k;
     mk_sks := mk_sks k; mk_tx_to_hash := <[cmd:=hash]> (mk_tx_to_hash k);
     mk_height := Z.max (mk_height k) view; mk_parent := hash; mk_qc_high := prev_qc;
     mk_nodes := <[TreeNode_hash node:=node]> (mk_nodes k);
     mk_qcs := <[GenericQC_hash prev_qc:=prev_qc]> (mk_qcs k);
     mk_th := mk_th k; mk_n := mk_n k; mk_leader_id := mk_leader_id k;
     mk_testee_id := mk_testee_id k; mk_init_done := mk_init_done k;
     mk_adversial := mk_adversial k |}.

Definition Mock_leader_ctx (k : MockHotStuff) : Context :=
  Context_single (replica_name (mk_leader_id k)) (replica_name (mk_testee_id k)) (mk_height k).

(** Increase the height of the bench and the view of the testee. *)
Definition Mock_tick (k : MockHotStuff) : outcome MockHotStuff :=
  let k := mk_set_height (wrap64 (mk_height k + 1)) k in
  t ← unwrap (mk_testee k);
  match Machine_on_view_change t (replica_name (mk_leader_id k)) (mk_height k) with
  | (t, Ok _) => Ret (mk_set_testee t k)
  | (_, Err _) => Panic
  end.

(** All key shares sign the proposal. *)
Definition Mock_form_qc (k : MockHotStuff) (view : ViewNumber) (node : TreeNode) (node_hash : NodeHash) :
    outcome GenericQC :=
  let node_bytes := TreeNode_to_be_bytes node in
  let signs := (fun isk => (isk.1, sk_sign isk.2 node_bytes)) <$> mk_sks k in
  pks ← unwrap (mk_pks k);
  combined_sign ← unwrap (combine_signatures pks signs);
  Ret (GenericQC_new view node_hash combined_sign).

(** ** Proposals *)

(** The loop of [prepare_proposals]. *)
Fixpoint Mock_prepare_loop (k : MockHotStuff) (cmds : list string) (prev_qc : GenericQC)
    (height : ViewNumber) (parent : NodeHash) : outcome (list (TreeNode * NodeHash)) :=
  match cmds with
  | [] => Ret []
  | cmd :: cmds =>
      let height := wrap64 (height + 1) in
      let '(node, hash) := TreeNode_node_and_hash [Txn_new (str_bytes cmd)] height parent prev_qc in
      prev_qc ← Mock_form_qc k height node hash;
      props ← Mock_prepare_loop k cmds prev_qc height hash;
      Ret ((node, hash) :: props)
  end.

Definition Mock_prepare_proposals (k : MockHotStuff) (cmds : list string) :
    outcome (list (TreeNode * NodeHash)) :=
  Mock_prepare_loop k cmds (mk_qc_high k) (mk_height k) (mk_parent k).

Definition Mock_testee_recv_honest_proposal (k : MockHotStuff) (node : TreeNode) (justify : GenericQC) :
    outcome (MockHotStuff * result Ready SafetyErr) :=
  t ← unwrap (mk_testee k);
  '(t, r) ← Machine_on_recv_proposal t (Mock_leader_ctx k) node justify;
  Ret (mk_set_testee t k, r).

Fixpoint Mock_load_loop (k : MockHotStuff) (nodes : list (string * (TreeNode * NodeHash))) :
    outcome MockHotStuff :=
  match nodes with
  | [] => Ret k
  | (cmd, (node, hash)) :: nodes =>
      '(k, res) ← Mock_testee_recv_honest_proposal k node (node_justify node);
      _ ← assert_ (is_ok res);
      let k := Mock_update cmd (node_height node) (node_justify node) node hash k in
      Mock_load_loop k nodes
  end.

Definition Mock_testee_load_consecutive_proposals (cmds : list string) (k : MockHotStuff) :
    outcome MockHotStuff :=
  nodes ← Mock_prepare_proposals k cmds;
  Mock_load_loop k (zip cmds nodes).

Definition Mock_propose (parent_hash : NodeHash) (tx : string) (qc : GenericQC) (k : MockHotStuff) :
    outcome (MockHotStuff * result Ready SafetyErr) :=
  k ← Mock_tick k;
  let '(node, hash) := TreeNode_node_and_hash [Txn_new (str_bytes tx)] (mk_height k) parent_hash qc in
  '(k, res) ← Mock_testee_recv_honest_proposal k node qc;
  Ret (Mock_update tx (mk_height k) qc node hash k, res).

Definition Mock_extend_from (parent tx : string) (k : MockHotStuff) : outcome MockHotStuff :=
  parent_hash ← unwrap (mk_tx_to_hash k !! parent);
  parent ← unwrap (mk_nodes k !! parent_hash);
  qc ← Mock_form_qc k (mk_height k) parent parent_hash;
  k ← Mock_tick k;
  '(k, res) ← Mock_propose parent_hash tx qc k;
  _ ← assert_ (match res with Ok (Signature _ _ _) => true | _ => false end);
  Ret k.

(** [corrupted] is the uninitialised signature. *)
Definition Mock_propose_with_corrupted_qc (corrupted : CombinedSign) (parent tx : string)
    (k : MockHotStuff) : outcome MockHotStuff :=
  parent_hash ← unwrap (mk_tx_to_hash k !! parent);
  let qc := GenericQC_new (mk_height k) parent_hash corrupted in
  k ← Mock_tick k;
  '(k, res) ← Mock_propose parent_hash tx qc k;
  _ ← assert_ (match res with Err CorruptedQC => true | _ => false end);
  Ret k.

(** The name of the first transaction of a proposal. *)
Definition first_tx_name (node : TreeNode) : outcome string :=
  tx ← unwrap (head (node_txs node)); unwrap (String_from_utf8 (Txn_as_ref tx)).

Fixpoint Mock_update_branch (branch : list TreeNode) (k : MockHotStuff) : outcome MockHotStuff :=
  match branch with
  | [] => Ret k
  | node :: branch =>
      cmd ← first_tx_name node;
      Mock_update_branch branch
        (Mock_update cmd (node_height node) (node_justify node) node (TreeNode_hash node) k)
  end.

Definition Mock_testee_event (req : SafetyEvent) (k : MockHotStuff) :
    outcome (MockHotStuff * result Ready SafetyErr) :=
  t ← unwrap (mk_testee k);
  '(t, r) ← Machine_process_safety_event t req;
  Ret (mk_set_testee t k, r).

(** [.unwrap()] of an answer. *)
Definition expect_ok (kr : MockHotStuff * result Ready SafetyErr) : outcome (MockHotStuff * Ready) :=
  match kr with (k, Ok rd) => Ret (k, rd) | (_, Err _) => Panic end.

Definition Mock_sync_state (branch : list TreeNode) (k : MockHotStuff) : outcome MockHotStuff :=
  k ← Mock_update_branch branch k;
  kr ← Mock_testee_event (BranchSync (Context_single (replica_name (mk_leader_id k))
                                        (replica_name (mk_testee_id k)) 6) branch) k;
  '(k, _) ← expect_ok kr;
  Ret k.

(** ** New views, proposals of the testee, votes *)

Fixpoint Mock_testee_recv_new_view_msgs (txs : list (Z * string)) (k : MockHotStuff) :
    outcome MockHotStuff :=
  match txs with
  | [] => Ret k
  | (_, tx) :: txs =>
      node_hash ← unwrap (mk_tx_to_hash k !! tx);
      node ← unwrap (mk_nodes k !! node_hash);
      kr ← Mock_testee_event (RecvNewViewMsg (Mock_leader_ctx k) (node_justify node)) k;
      '(k, _) ← expect_ok kr;
      Mock_testee_recv_new_view_msgs txs k
  end.

Definition Mock_testee_make_proposal (new_tx : string) (k : MockHotStuff) :
    outcome (MockHotStuff * Ready) :=
  k ← Mock_tick k;
  kr ← Mock_testee_event (NewTx [Txn_new (str_bytes new_tx)]) k;
  '(k, rd) ← expect_ok kr;
  match rd with
  | NewProposal _ node =>
      Ret (Mock_update new_tx (mk_height k) (node_justify node) node (TreeNode_hash node) k, rd)
  | _ => Panic
  end.

(** The answer to a corrupted new-view message is not looked at. *)
Definition Mock_testee_recv_corrupted_view_msg (corrupted : CombinedSign) (qc_node : string)
    (k : MockHotStuff) : outcome MockHotStuff :=
  prev_qc_hash ← unwrap (mk_tx_to_hash k !! qc_node);
  let prev_qc := GenericQC_new (mk_height k) prev_qc_hash corrupted in
  '(k, _) ← Mock_testee_event (RecvNewViewMsg (Mock_leader_ctx k) prev_qc) k;
  Ret k.

Definition Mock_recv_vote (ctx : Context) (node : TreeNode) (kit : SignKit) (k : MockHotStuff) :
    outcome (MockHotStuff * result Ready SafetyErr) :=
  t ← unwrap (mk_testee k);
  '(t, r) ← Machine_on_recv_vote t ctx node kit;
  Ret (mk_set_testee t k, r).

Fixpoint Mock_testee_recv_votes (corrupted : Sign) (votes : list MockEvent) (k : MockHotStuff) :
    outcome MockHotStuff :=
  match votes with
  | [] => Ret k
  | AcceptedVote from tx :: votes =>
      node_hash ← unwrap (mk_tx_to_hash k !! tx);
      node ← unwrap (mk_nodes k !! node_hash);
      sk ← unwrap (mk_sk k);
      let sign := sk_sign (secret_key_share sk from) (TreeNode_to_be_bytes node) in
      let ctx := Context_single (replica_name from) (replica_name (mk_testee_id k)) (mk_height k) in
      '(k, _) ← Mock_recv_vote ctx node (SignKit_from (sign, from)) k;
      Mock_testee_recv_votes corrupted votes k
  | CorruptedVoteFrom from tx :: votes =>
      node_hash ← unwrap (mk_tx_to_hash k !! tx);
      node ← unwrap (mk_nodes k !! node_hash);
      '(k, err) ← Mock_recv_vote (Mock_leader_ctx k) node (SignKit_from (corrupted, from)) k;
      _ ← assert_ (negb (is_ok err));
      Mock_testee_recv_votes corrupted votes k
  end.

(** ** Checks *)

Definition Mock_check_hotstuff_state_with (expected : ExpectedState) (k : MockHotStuff) :
    outcome unit :=
  t ← unwrap (mk_testee k);
  let ss := Machine_take_snapshot t in
  match expected with
  | LockedAt tx =>
      node_hash ← unwrap (mk_tx_to_hash k !! tx);
      node ← unwrap (mk_nodes k !! node_hash);
      assert_ (node_height (ss_locked_node ss) =? node_height node)
  | CommittedBeforeHeight h => assert_ (h <=? ss_last_committed ss)
  | QcHighOf tx =>
      prop_hash ← unwrap (mk_tx_to_hash k !! tx);
      _ ← unwrap (mk_nodes k !! qc_node (ss_qc_high ss));
      assert_ (bool_decide (qc_node (ss_qc_high ss) = prop_hash))
  | _ => Panic
  end.

Definition Mock_check_proposal_with (expected : ExpectedState) (k : MockHotStuff) : outcome unit :=
  match expected with
  | ParentIs parent prop =>
      parent ← unwrap (mk_tx_to_hash k !! parent);
      assert_ (bool_decide (parent = node_parent prop))
  | QcOf qc_node_tx prop =>
      qc_node_hash ← unwrap (mk_tx_to_hash k !! qc_node_tx);
      assert_ (bool_decide (qc_node_hash = qc_node (node_justify prop)))
  | _ => Panic
  end.
End Mocker.
