(* ===== verification/UnitTests.v ===== *)
(** * Unit tests of the crates (hs-data/src/lib.rs, pacemaker/src/{pacemaker,utils,timer}.rs)

    Four tests that the sources keep but do not run by default.  The events that the test of
    the heap leaves uninitialised are arguments, and so are the random numbers of the timer.
    The last assertion of the test of the timer does not hold. *)

From S2P Require Import Prelude Crypto HsData CryptoKit Voter SafetyStorage Machine.
From S2P Require Import LivenessData Elector Timer Pacemaker Mocker.

Section UnitTests.
Context `{TC : ThresholdCrypto}.

(** The two signatures that the test compares: the shares 0 to 2, and 1 to 3. *)
Definition test_threshold_sign (s : SecretKeySet) :
    outcome (option CombinedSign * option CombinedSign) :=
  let n := 4 in
  '(_, pks, vec_sks) ← threshold_sign_kit s n (Z.shiftl n 1 / 3);
  let signed := fun l => (fun isk => (isk.1, sk_sign isk.2 (u64_to_be_bytes 1))) <$> l in
  let sign_0_3 := signed (take 3 vec_sks) in
  let sign_1_4 := signed (take 3 (drop 1 vec_sks)) in
  Ret (combine_signatures pks sign_0_3, combine_signatures pks sign_1_4).

(** [assert!(0 == pop().unwrap().view)] and so on; views are kept negated. *)
Definition test_pending_prop (e0 e1 e2 : SafetyEvent) : outcome unit :=
  let pending_prop := heap_push (SafetyEventWrapper_from 0 e0) [] in
  let pending_prop := heap_push (SafetyEventWrapper_from 1 e1) pending_prop in
  let pending_prop := heap_push (SafetyEventWrapper_from 2 e2) pending_prop in
  '(x, pending_prop) ← unwrap (heap_pop pending_prop);
  _ ← assert_ (0 =? sw_view x);
  '(x, pending_prop) ← unwrap (heap_pop pending_prop);
  _ ← assert_ (-1 =? sw_view x);
  '(x, _) ← unwrap (heap_pop pending_prop);
  assert_ (-2 =? sw_view x).

(** The heap gives the proposals back by rising view, as the test expects. *)
Theorem test_pending_prop_passes e0 e1 e2 : test_pending_prop e0 e1 e2 = Ret tt.
Proof. reflexivity. Qed.

Context {Laws : ThresholdCryptoLaws}.

(** Any three of the four shares are enough: both combinations of the test succeed and both
    verify on the signed bytes, for every key set of threshold two. *)
Theorem test_threshold_sign_verifies s :
  pks_threshold (public_keys s) = 2 ->
  exists a b, test_threshold_sign s = Ret (Some a, Some b) /\
    pk_verify (public_keys s) a (u64_to_be_bytes 1) = true /\
    pk_verify (public_keys s) b (u64_to_be_bytes 1) = true.
Proof.
  intros Ht.
  destruct (combine_ok s (u64_to_be_bytes 1) [0; 1; 2]) as (a & Ha & Hva);
    [apply (bool_decide_unpack _); reflexivity|rewrite Ht; done|].
  destruct (combine_ok s (u64_to_be_bytes 1) [1; 2; 3]) as (b & Hb & Hvb);
    [apply (bool_decide_unpack _); reflexivity|rewrite Ht; done|].
  exists a, b. split; [|done]. unfold test_threshold_sign, threshold_sign_kit.
  change (4 <? Z.shiftl 4 1 / 3) with false. cbn [Z.leb Z.compare mbind outcome_bind].
  rewrite <-Ha, <-Hb. reflexivity.
Qed.
End UnitTests.

(** ** The spread of the leaders (utils.rs) *)

Section HashCollision.
Context `{F : Fnv} {FLaws : FnvLaws}.

(** The three arrays of the test. *)
Record Spread := mkSpread { sp_cnt : list Z; sp_max_step : list Z; sp_prev_index : list Z }.

(** The loop body for [view], over [n] indices. *)
Definition spread_step (n : Z) (sp : Spread) (view : Z) : outcome Spread :=
  index ← view_hash view n;
  let i := Z.to_nat index in
  c ← unwrap (sp_cnt sp !! i);
  s ← unwrap (sp_max_step sp !! i);
  prev_view ← unwrap (sp_prev_index sp !! i);
  Ret {| sp_max_step := <[i:=Z.max s (wrap64 (view - prev_view))]> (sp_max_step sp);
         sp_cnt := <[i:=c + 1]> (sp_cnt sp); sp_prev_index := <[i:=view]> (sp_prev_index sp) |}.

Fixpoint spread_loop (n : Z) (sp : Spread) (views : list Z) : outcome Spread :=
  match views with
  | [] => Ret sp
  | view :: views => sp ← spread_step n sp view; spread_loop n sp views
  end.

(** [flap_times] rounds over [n] replicas. *)
Definition spread (n flap_times : Z) : outcome Spread :=
  let zeros := replicate (Z.to_nat n) 0 in
  spread_loop n (mkSpread zeros zeros zeros) (seqZ 0 flap_times).

(** Seven replicas and a million rounds for each; the result is printed. *)
Definition hash_collision : outcome Spread :=
  let n := 3 * 2 + 1 in
  let flap_times := n * 1000000 in
  spread n flap_times.

Definition sum (l : list Z) : Z := foldr Z.add 0 l.

Lemma sum_insert l i c : l !! i = Some c -> sum (<[i:=c + 1]> l) = sum l + 1.
Proof.
  unfold sum. revert i. induction l as [|x l IH]; intros [|i] H; [done|done| |]; simpl in *.
  - simplify_eq. lia.
  - rewrite IH by done. lia.
Qed.

Lemma sum_zeros k : sum (replicate k 0) = 0.
Proof. unfold sum. induction k; [done|]. simpl. lia. Qed.

Lemma spread_loop_counts n sp views :
  0 < n -> length (sp_cnt sp) = Z.to_nat n -> length (sp_max_step sp) = Z.to_nat n ->
  length (sp_prev_index sp) = Z.to_nat n ->
  exists sp', spread_loop n sp views = Ret sp' /\ length (sp_cnt sp') = Z.to_nat n /\
    sum (sp_cnt sp') = sum (sp_cnt sp) + Z.of_nat (length views).
Proof.
  intros Hn. revert sp. induction views as [|view views IH]; intros sp Hc Hs Hp; cbn [spread_loop].
  { exists sp. split; [done|]. split; [done|]. cbn. lia. }
  unfold spread_step, view_hash. destruct (Z.eqb_spec n 0); [lia|]. cbn [mbind outcome_bind].
  pose proof (Z.mod_pos_bound (fnv_u64 view) n Hn).
  set (i := Z.to_nat (fnv_u64 view mod n)). assert (Hi : (i < Z.to_nat n)%nat) by lia.
  destruct (lookup_lt_is_Some_2 (sp_cnt sp) i) as [c Ec]; [lia|].
  destruct (lookup_lt_is_Some_2 (sp_max_step sp) i) as [s Es]; [lia|].
  destruct (lookup_lt_is_Some_2 (sp_prev_index sp) i) as [p Ep]; [lia|].
  rewrite Ec, Es, Ep. cbn [unwrap mbind outcome_bind].
  edestruct IH as (sp' & -> & Hl & Hsum); [cbn; by rewrite length_insert..|].
  exists sp'. split; [done|]. split; [done|]. rewrite Hsum. cbn [sp_cnt length].
  rewrite sum_insert by done. lia.
Qed.

Lemma spread_counts n flap_times :
  0 < n -> 0 <= flap_times ->
  exists sp, spread n flap_times = Ret sp /\ length (sp_cnt sp) = Z.to_nat n /\
    sum (sp_cnt sp) = flap_times.
Proof.
  intros Hn Hf. unfold spread.
  destruct (spread_loop_counts n (mkSpread (replicate (Z.to_nat n) 0) (replicate (Z.to_nat n) 0)
    (replicate (Z.to_nat n) 0)) (seqZ 0 flap_times)) as (sp & Hr & Hl & Hs);
    [done|cbn [sp_cnt sp_max_step sp_prev_index]; by rewrite length_replicate..|].
  exists sp. split; [done|]. split; [done|]. rewrite Hs. cbn [sp_cnt]. rewrite sum_zeros, length_seqZ. lia.
Qed.

(** The test never indexes out of range, and each of its seven million views is counted for
    exactly one of the seven replicas. *)
Theorem hash_collision_counts :
  exists sp, hash_collision = Ret sp /\ length (sp_cnt sp) = 7%nat /\ sum (sp_cnt sp) = 7000000.
Proof. apply (spread_counts 7 7000000); lia. Qed.
End HashCollision.

(** ** The timer (timer.rs) *)

(** What the tasks do during a sleep that is shorter than every delay: each is polled, and
    the stopped ones end. *)
Definition settled (k : TimerTask) : option TimerTask :=
  match tk_phase k with
  | Sending => Some k
  | Spawned | Selecting => if tk_stopped k then None else Some (with_phase k Selecting)
  end.

Definition settle (t : DefaultTimer) : DefaultTimer :=
  let l := omap settled (dt_tasks t) in
  timer_upd t l (dt_notifier t) (count counted l - count counted (dt_tasks t)).

(** The two values of the counter that the test looks at; its receiver [_] is dropped at
    once. *)
Definition test_close_all_tiemr (rand0 rand1 rand2 : Z) : Z * Z :=
  let max_timeout := 30000 in
  let rtt := 5000 in
  let t := close_notifier (DefaultTimer_new max_timeout rtt) in
  let t := timer_start t (timeout_by_delay t rand0) (ViewTimeout 0) in
  let t := timer_start t (timeout_by_delay t rand1) (ViewTimeout 1) in
  let t := settle t in
  let t := stop_view_timer t in
  let first := dt_cnt t in
  let t := timer_start t (timeout_by_delay t rand2 * 2) (ViewTimeout 1) in
  let t := settle t in
  (first, dt_cnt t).

(** Where the test is after its first and before its second sleep. *)
Definition timer_two (d0 d1 : Z) : DefaultTimer :=
  timer_start (timer_start (close_notifier (DefaultTimer_new 30000 5000)) d0 (ViewTimeout 0)) d1 (ViewTimeout 1).
Definition timer_three (d0 d1 d2 : Z) : DefaultTimer :=
  timer_start (stop_view_timer (settle (timer_two d0 d1))) d2 (ViewTimeout 1).

(** Both sleeps are runs of the timer's tasks. *)
Lemma timer_test_runs d0 d1 d2 :
  rtc timer_step (timer_two d0 d1) (settle (timer_two d0 d1)) /\
  rtc timer_step (timer_three d0 d1 d2) (settle (timer_three d0 d1 d2)).
Proof.
  split.
  - eapply rtc_l; [by eapply (timer_poll _ [] _ [_])|]. eapply rtc_l; [by eapply (timer_poll _ [_] _ [])|].
    reflexivity.
  - eapply rtc_l; [by eapply (timer_cancel _ [] _ [_; _])|]. eapply rtc_l; [by eapply (timer_cancel _ [] _ [_])|].
    eapply rtc_l; [by eapply (timer_poll _ [] _ [])|]. reflexivity.
Qed.

(** The test expects 0 both times.  Right after the stop signal the two tasks are still
    counted, and after the second sleep the third one is waiting for its 20 seconds. *)
Theorem test_close_all_tiemr_counts rand0 rand1 rand2 :
  test_close_all_tiemr rand0 rand1 rand2 = (2, 1).
Proof. reflexivity. Qed.
