(* ===== verification/MockerTests.v ===== *)
(** * The tests of the machine (hs-test/src/safety.rs)

    Each test is a program over the bench of [Mocker]; a test passes when it returns.
    [s] is the key set the bench draws, [bad] and [bad_share] are the uninitialised
    signatures it calls corrupted.  The theorems at the end run them. *)

From stdpp Require Import pretty.
From S2P Require Import Prelude Crypto HsData CryptoKit Voter SafetyStorage Machine.
From S2P Require Import Walk MachineSafety LivenessData Persistor Hss HssSafety ChainRun.
From S2P Require Import Mocker Scenario.

Section Tests.
Context `{TC : ThresholdCrypto} {C : Codec}.
Variables (s : SecretKeySet) (bad : CombinedSign) (bad_share : Sign).

(** [MockHotStuff::new(n)], the roles, [init()]. *)
Definition bench (n leader testee : Z) (adversial : option Z) : outcome MockHotStuff :=
  k ← Mock_specify_leader leader (Mock_new n);
  k ← Mock_specify_testee testee k;
  k ← match adversial with Some a => Mock_specify_adversial a k | None => Ret k end;
  Mock_init s k.

Definition test_competitive_branchs : outcome unit :=
  let n := 4 in let leader := 0 in let testee := 1 in
  mhs ← bench n leader testee None;
  mhs ← Mock_testee_load_consecutive_proposals ["a1"; "a2"; "a3"]%string mhs;
  let expected_1 := LockedAt "a1" in
  _ ← Mock_check_hotstuff_state_with expected_1 mhs;
  mhs ← Mock_extend_from "a1" "b1" mhs;
  mhs ← Mock_extend_from "b1" "b2" mhs;
  _ ← Mock_check_hotstuff_state_with expected_1 mhs;
  mhs ← Mock_extend_from "a3" "a4" mhs;
  let expected_2 := CommittedBeforeHeight 1 in
  let expected_3 := LockedAt "a2" in
  _ ← Mock_check_hotstuff_state_with expected_2 mhs;
  Mock_check_hotstuff_state_with expected_3 mhs.

Definition test_consecutive_commit : outcome unit :=
  let n := 4 in let leader := 0 in let testee := 1 in
  mhs ← bench n leader testee None;
  mhs ← Mock_testee_load_consecutive_proposals ["a1"; "a2"; "a3"; "a4"]%string mhs;
  _ ← Mock_check_hotstuff_state_with (LockedAt "a2") mhs;
  Mock_check_hotstuff_state_with (CommittedBeforeHeight 1) mhs.

Definition test_propose_with_corrupted_qc : outcome unit :=
  let n := 4 in let leader := 0 in let testee := 1 in let adversial := leader in
  mhs ← bench n leader testee (Some adversial);
  mhs ← Mock_testee_load_consecutive_proposals ["a1"]%string mhs;
  mhs ← Mock_propose_with_corrupted_qc bad "a1" "a2" mhs;
  mhs ← Mock_propose_with_corrupted_qc bad "a2" "a3" mhs;
  mhs ← Mock_propose_with_corrupted_qc bad "a3" "a4" mhs;
  _ ← Mock_check_hotstuff_state_with (CommittedBeforeHeight 0) mhs;
  _ ← Mock_check_hotstuff_state_with (LockedAt "init") mhs;
  mhs ← Mock_extend_from "a1" "b1" mhs;
  mhs ← Mock_extend_from "b1" "b2" mhs;
  mhs ← Mock_extend_from "b2" "b3" mhs;
  _ ← Mock_check_hotstuff_state_with (CommittedBeforeHeight 1) mhs;
  Mock_check_hotstuff_state_with (LockedAt "b1") mhs.

(** [if let Ready::NewProposal(_, prop, ..) = output]: what the proposal extends. *)
Definition check_output (output : Ready) (tx : string) (mhs : MockHotStuff) : outcome unit :=
  match output with
  | NewProposal _ prop =>
      _ ← Mock_check_proposal_with (QcOf tx prop) mhs;
      Mock_check_proposal_with (ParentIs tx prop) mhs
  | _ => Panic
  end.

Definition test_new_proposal : outcome unit :=
  let n := 4 in let leader := 0 in let testee := 0 in
  mhs ← bench n leader testee None;
  mhs ← Mock_testee_load_consecutive_proposals ["a1"; "a2"; "a3"; "a4"; "a5"]%string mhs;
  mhs ← Mock_testee_recv_new_view_msgs [(0, "a2"); (1, "a3"); (2, "a4")]%string mhs;
  '(mhs, output) ← Mock_testee_make_proposal "a6" mhs;
  check_output output "a4" mhs.

Definition test_corrupted_new_view_msg : outcome unit :=
  let n := 4 in let leader := 0 in let testee := 0 in let adversial := 1 in
  mhs ← bench n leader testee (Some adversial);
  mhs ← Mock_testee_load_consecutive_proposals ["a1"; "a2"; "a3"; "a4"]%string mhs;
  mhs ← Mock_testee_recv_corrupted_view_msg bad "a3" mhs;
  '(mhs, output) ← Mock_testee_make_proposal "a5" mhs;
  check_output output "a3" mhs.

Definition test_corrupted_vote : outcome unit :=
  let n := 4 in let leader := 0 in let testee := 0 in let adversial := 1 in
  mhs ← bench n leader testee (Some adversial);
  mhs ← Mock_testee_load_consecutive_proposals ["a1"; "a2"; "a3"]%string mhs;
  '(mhs, _) ← Mock_testee_make_proposal "a4" mhs;
  _ ← Mock_check_hotstuff_state_with (QcHighOf "a2") mhs;
  mhs ← Mock_testee_recv_votes bad_share [AcceptedVote 2 "a4"; CorruptedVoteFrom adversial "a4"] mhs;
  _ ← Mock_check_hotstuff_state_with (QcHighOf "a2") mhs;
  mhs ← Mock_testee_recv_votes bad_share [AcceptedVote 3 "a4"] mhs;
  Mock_check_hotstuff_state_with (QcHighOf "a4") mhs.

Definition test_sync_state : outcome unit :=
  let n := 4 in let leader := 0 in let testee := 0 in let adversial := 1 in
  mhs ← bench n leader testee (Some adversial);
  mhs ← Mock_testee_load_consecutive_proposals ["a1"; "a2"; "a3"]%string mhs;
  branch ← Mock_prepare_proposals mhs ["a4"; "a5"; "a6"; "a7"; "a8"]%string;
  '(a6, _) ← unwrap (last branch);
  '(mhs, output) ← Mock_testee_event
    (RecvProposal (Context_single (replica_name leader) (replica_name testee) (node_height a6)) a6) mhs;
  _ ← match output with Err CorruptedQC => Ret tt | _ => Panic end;
  _ ← Mock_check_hotstuff_state_with (LockedAt "a1") mhs;
  mhs ← Mock_sync_state (take 2 branch.*1) mhs;
  mhs ← Mock_sync_state (take 2 (drop 2 branch.*1)) mhs;
  mhs ← Mock_extend_from "a7" "a8" mhs;
  Mock_check_hotstuff_state_with (LockedAt "a6") mhs.
End Tests.

(** ** Loading a chain *)

Section Loading.
Context `{TC : ThresholdCrypto} `{!ThresholdCryptoLaws} {C : Codec}.

(** The bench holds the keys of [s] for [n] replicas. *)
Definition has_keys (s : SecretKeySet) (n : Z) (k : MockHotStuff) : Prop :=
  mk_pks k = Some (public_keys s) /\
  mk_sks k = (fun i => (i, secret_key_share s i)) <$> seqZ 0 n.

Lemma Mock_form_qc_ok s n k view node hash :
  has_keys s n k -> pks_threshold (public_keys s) < n ->
  exists c, Mock_form_qc k view node hash = Ret (GenericQC_new view hash c) /\
    pk_verify (public_keys s) c (TreeNode_to_be_bytes node) = true.
Proof.
  intros [Hp Hs] Hn. destruct (form_combined_sign_ok s n node Hn) as (c & Hc & Hv).
  exists c. split; [|done]. unfold Mock_form_qc. rewrite Hp, Hs. cbn [unwrap mbind outcome_bind].
  unfold form_combined_sign in Hc. by rewrite Hc.
Qed.

(** What the bench prepares on top of [p] is a chain a replica can be fed with. *)
Lemma Mock_prepare_loop_ok s n k cmds :
  has_keys s n k -> pks_threshold (public_keys s) < n ->
  forall p qc, 0 <= node_height p -> node_height p + Z.of_nat (length cmds) < 2 ^ 64 ->
  qc_node qc = TreeNode_hash p ->
  (GenericQC_is_init_qc qc = true \/
   pk_verify (public_keys s) (qc_combined_sign qc) (TreeNode_to_be_bytes p) = true) ->
  exists l, Mock_prepare_loop k cmds qc (node_height p) (TreeNode_hash p) = Ret l /\
    length l = length cmds /\ certified_chain (public_keys s) p l.*1.
Proof.
  intros Hk Hn. induction cmds as [|cmd cmds IH]; intros p qc Hp Hb Hqc Hver.
  - by exists [].
  - cbn [length] in Hb. cbn [Mock_prepare_loop]. rewrite wrap64_small by (unfold u64_ok; lia).
    set (node := TreeNode_new [Txn_new (str_bytes cmd)] (node_height p + 1) (TreeNode_hash p) qc).
    change (TreeNode_node_and_hash _ _ _ _) with (node, TreeNode_hash node). cbn iota beta.
    destruct (Mock_form_qc_ok s n k (node_height p + 1) node (TreeNode_hash node) Hk Hn)
      as (c & Hc & Hv). rewrite Hc. clear Hc.
    destruct (IH node (GenericQC_new (node_height p + 1) (TreeNode_hash node) c))
      as (l & Hl & Hlen & Hc); [cbn; lia|cbn; lia|done|by right|].
    cbn [mbind outcome_bind]. change (node_height node) with (node_height p + 1) in Hl.
    rewrite Hl. exists ((node, TreeNode_hash node) :: l). cbn. split; [done|].
    split; [congruence|]. split; [|done]. split_and!; [cbn; lia|done..].
Qed.

(** The testee takes what is left of the chain. *)
Lemma Mock_load_loop_fed pks l :
  certified_chain pks INIT_NODE l -> chain_hashes_ok (INIT_NODE :: l) ->
  forall cmds nodes i k t,
  length cmds = length nodes -> mk_testee k = Some t -> ds_pks (v_signature (m_voter t)) = pks ->
  fed_state l i (m_storage t) -> drop (S i) (INIT_NODE :: l) = nodes.*1 ->
  exists k' t', Mock_load_loop k (zip cmds nodes) = Ret k' /\ mk_testee k' = Some t' /\
    fed_state l (i + length nodes) (m_storage t').
Proof.
  intros Hc Hok cmds nodes. revert cmds.
  induction nodes as [|[node hash] nodes IH]; intros [|cmd cmds] i k t Hlen Ht Hpk Hf Hd;
    try done.
  - exists k, t. by rewrite Nat.add_0_r.
  - assert (Hp : (INIT_NODE :: l) !! S i = Some node).
    { rewrite <-(Nat.add_0_r (S i)), <-lookup_drop, Hd. done. }
    destruct (fed_recv pks l Hc Hok i t (Mock_leader_ctx k) node Hf Hpk Hp) as (s & Hev & Hf1 & _).
    cbn [zip Mock_load_loop zip_with]. unfold Mock_testee_recv_honest_proposal.
    rewrite Ht. cbn [unwrap mbind outcome_bind]. cbn [Machine_process_safety_event] in Hev.
    rewrite Hev. cbn [mbind outcome_bind assert_ is_ok].
    edestruct (IH cmds (S i)) as (k' & t' & Hl & Ht' & Hf'); [| | | | |exists k', t'; split; [exact Hl|]].
    + by injection Hlen.
    + reflexivity.
    + exact Hpk.
    + exact Hf1.
    + replace (S (S i)) with (S i + 1)%nat by lia. rewrite <-drop_drop, Hd. done.
    + cbn [length]. by rewrite Nat.add_succ_r.
Qed.
Lemma bench_ret s n leader testee :
  0 <= leader < n -> 0 <= testee < n -> n < 2 ^ 63 ->
  exists k t, bench s n leader testee None = Ret k /\ has_keys s n k /\
    mk_qc_high k = INIT_QC /\ mk_height k = 0 /\ mk_parent k = INIT_NODE_HASH /\
    mk_testee k = Some t /\ ds_pks (v_signature (m_voter t)) = public_keys s /\
    (forall l, fed_state l 0 (m_storage t)).
Proof.
  intros Hl Ht Hn.
  assert (El : (leader <? n) = true) by lia. assert (Et : (testee <? n) = true) by lia.
  assert (E0 : (0 <? n) = true) by lia.
  assert (Eq : (quorum_threshold n <=? n) = true).
  { apply Z.leb_le. rewrite quorum_threshold_small by lia. apply Z.div_le_upper_bound; lia. }
  unfold bench, Mock_specify_leader, Mock_specify_testee, Mock_init, threshold_sign_kit.
  cbn -[Z.ltb Z.leb quorum_threshold init_in_mem_storage seqZ]. rewrite El.
  cbn -[Z.ltb Z.leb quorum_threshold init_in_mem_storage seqZ]. rewrite Et.
  cbn -[Z.ltb Z.leb quorum_threshold init_in_mem_storage seqZ]. rewrite E0.
  cbn -[Z.ltb Z.leb quorum_threshold init_in_mem_storage seqZ]. rewrite Et.
  cbn -[Z.ltb Z.leb quorum_threshold init_in_mem_storage seqZ]. rewrite Eq.
  cbn [mbind outcome_bind]. eexists _, _. split; [reflexivity|].
  split_and!; [done..|]. intros l. apply fed_init.
Qed.

End Loading.

(** ** The tests run *)

#[local] Existing Instance ToyCrypto.
#[local] Existing Instance ToyCodec.

(** A signature of another message, and a share of it. *)
Definition bad_sign : @CombinedSign ToyCrypto := toy_signature [xee].
Definition bad_vote : @Sign ToyCrypto := (9, [xee]).

(** The seven tests of the machine pass, run on the definitions this development
    reasons about, with a signature of another message where the bench wants a corrupted
    one. With the all-zero signature there, the proposal with a corrupted certificate is
    not refused and its test fails. *)
Theorem machine_tests_pass :
  test_competitive_branchs keys = Ret tt /\
  test_consecutive_commit keys = Ret tt /\
  test_propose_with_corrupted_qc keys bad_sign = Ret tt /\
  test_propose_with_corrupted_qc keys toy_zeroed = Panic /\
  test_new_proposal keys = Ret tt /\
  test_corrupted_new_view_msg keys bad_sign = Ret tt /\
  test_corrupted_vote keys bad_vote = Ret tt /\
  test_sync_state keys = Ret tt.
Proof. split_and!; vm_compute; reflexivity. Qed.
