(* ===== verification/MockerNet.v ===== *)
(** * The test of the pacemaker (hs-test/src/pacemaker.rs)

    A pacemaker over a fresh database, fed with proposals through its network channel.
    The two channels are lists: what the test sends is among the events the pacemaker's
    task takes, what the pacemaker sends is [pm_sent].  [between] are the ticks and timer
    events the task takes before each message. *)

From stdpp Require Import pretty.
From S2P Require Import Prelude Crypto HsData CryptoKit Voter SafetyStorage Machine.
From S2P Require Import LivenessData Persistor Hss Recover Elector Timer Pacemaker Mocker Scenario.

Definition TX : list string :=
  ["One summer afternoon";
   "Alice and her sister were enjoying the cool under a big tree";
   "Suddenly, a rabbit in a dress and a pocket watch ran past Alice.";
   "As the rabbit ran, he looked at his pocket watch and said, " +:+ quote +:+ "Late, late!" +:+ quote;
   "Curious, Alice got up to chase the strange rabbit";
   "Alice followed the rabbit into a hole in the tree. ";
   "On a table in the tree hole, Alice saw a bottle. There is a label " +:+ quote +:+ "Drink Me" +:+
     quote +:+ " on the bottle"]%string.

Definition DEFAULT_LEADER : Z := 1.
Definition DEFAULT_TESTEE : Z := 0.

Section MockerNet.
Context `{TC : ThresholdCrypto} {C : Codec} {F : Fnv} {Env : PacemakerEnv}.

Record MockerNetwork := mkMockerNetwork {
  mn_token : string;
  mn_sks : SecretKeySet;
  mn_pks : PK;
  mn_vec_sks : list (Z * SK);
}.

(** What [propose_all] puts into the channel; its argument [from] is not used. *)
Definition propose_all (props : list TreeNode) : list PeerEvent :=
  (fun prop => PE_NewProposal
     (Context_single (replica_name DEFAULT_LEADER) (replica_name DEFAULT_TESTEE) (node_height prop))
     prop) <$> props.

(** The closure [v] has a state; the loop stops at the first event it refuses. *)
Fixpoint vertify_output_sequence {S : Type} (v : S -> PeerEvent -> bool * S) (st : S)
    (events : list PeerEvent) : bool :=
  match events with
  | [] => true
  | ready :: rest =>
      let '(flag, st) := v st ready in
      if negb flag then false else vertify_output_sequence v st rest
  end.

(** [s] is the key set that was drawn, [conn] what the address of the database reaches. *)
Definition new_mocker_with_mysql_enabled (s : SecretKeySet) (n : Z) (token : string) (conn : Database) :
    outcome (MockerNetwork * Pacemaker HotstuffStorage) :=
  _ ← assert_ (1 <=? n);
  let threshold := quorum_threshold n in
  let sign_id := DEFAULT_TESTEE in
  let id := replica_name sign_id in
  let peers_addr := map_collect ((fun i => (replica_name i, "127.0.0.1:" +:+ pretty (8800 + i))%string)
                                   <$> seqZ 0 n) in
  '(sks, pks, vec_sks) ← threshold_sign_kit s n threshold;
  '(_, sk) ← unwrap (vec_sks !! Z.to_nat sign_id);
  let signaturer := DefaultSignaturer_new sign_id pks sk in
  let elector := RoundRobinLeaderElector_init (map_to_list peers_addr).*1 in
  let voter := Voter_new threshold signaturer in
  _ ← unwrap (peers_addr !! id);
  storage ← init_hotstuff_storage token n INIT_NODE INIT_NODE_HASH id peers_addr conn signaturer;
  let machine := Machine_new voter id n None storage in
  Ret ({| mn_token := token; mn_sks := sks; mn_pks := pks; mn_vec_sks := vec_sks |},
       Pacemaker_new id elector machine signaturer).

Fixpoint interleave (between : list (list loop_event)) (msgs : list loop_event) : list loop_event :=
  match msgs with
  | [] => []
  | msg :: msgs => default [] (head between) ++ msg :: interleave (tail between) msgs
  end.

(** The closure of the test: [view] is the next height to be accepted. *)
Definition responsive (view : Z) (event : PeerEvent) : bool * Z :=
  match event with
  | PE_AcceptProposal _ prop sign =>
      (bool_decide (node_height prop = view) && bool_decide (is_Some sign), view + 1)
  | PE_Timeout _ tc => (tc_view tc <? view, view)
  | _ => (true, view)
  end.

(** [spawn_pm] and the test; the result is the flag, which the test does not look at. *)
Definition test_responsiveness (s : SecretKeySet) (conn : Database)
    (between : list (list loop_event)) : outcome bool :=
  '(mpm, pm) ← new_mocker_with_mysql_enabled s 4 "test" conn;
  chain ← form_chain (str_bytes <$> take 4 TX) (mn_vec_sks mpm) (mn_pks mpm);
  let sent := Ev_net <$> propose_all chain.*2 in
  pm ← Pacemaker_run pm (interleave between (sent ++ [Ev_quit]));
  Ret (vertify_output_sequence responsive 1 (pm_sent pm)).

(** The test needs the cell [FLUSH_INTERVAL], which nothing in its crate initialises. *)
Theorem responsiveness_test_fails s conn between r :
  FLUSH_INTERVAL = None -> test_responsiveness s conn between <> Ret r.
Proof.
  intros He H. unfold test_responsiveness in H.
  apply bind_Ret_inv in H as ([mpm pm] & _ & H). apply bind_Ret_inv in H as (chain & _ & H).
  apply bind_Ret_inv in H as (pm' & H & _). unfold Pacemaker_run, loop_start in H.
  apply bind_Ret_inv in H as (pm1 & H & _). apply bind_Ret_inv in H as (pm2 & _ & H).
  by rewrite He in H.
Qed.
End MockerNet.

(** ** The test runs *)

#[local] Existing Instance ToyCrypto.
#[local] Existing Instance ToyCodec.
#[local] Existing Instance Fnv1a.

(** Random numbers of no interest, and the two cells set or not. *)
Definition test_env (cells : option Z) : PacemakerEnv :=
  {| rand_u64 := Z.of_nat; FLUSH_INTERVAL := cells; DUR_REPLICA_WAIT := cells |}.

(** With the cells set, the four proposals are accepted in order, each before the timeout of
    its view, whether the queue of answers is drained after every proposal or at the end.
    A timeout of view 1 that comes before the first answer makes the flag false, which the
    test does not look at.  Without the cells the test panics. *)
Theorem responsiveness_test_runs :
  let test cells between := test_responsiveness (Env := test_env cells) keys empty_database between in
  let tick := [Ev_tick] in
  test (Some 200) [[]; tick; tick; tick; tick] = Ret true /\
  test (Some 200) [[]; []; []; []; tick] = Ret true /\
  test (Some 200) [[]; [Ev_timeout (ViewTimeout 1)]; []; []; tick] = Ret false /\
  test None [[]; tick; tick; tick; tick] = Panic.
Proof. split_and!; vm_compute; reflexivity. Qed.
