(* ===== verification/Witnesses.v ===== *)
(** * Concrete instances of the theorems

    Each lemma applies one theorem of the development to closed data of [Scenario]
    and discharges its hypotheses by evaluation. *)

From S2P Require Import Prelude Crypto HsData CryptoKit Voter SafetyStorage Machine.
From S2P Require Import MachineSafety MachineInvariant Quorum LivenessData.
From S2P Require Import StorageContract Persistor Hss HssSafety HssWalk HssReach HssProposal.
From S2P Require Import HssTotal HssLiveness HssContract Elector Timer Pacemaker.
From S2P Require Import PacemakerSafety PacemakerViews PacemakerHss Recover Scenario.

#[local] Existing Instance ToyCrypto.
#[local] Existing Instance ToyCryptoLaws.
#[local] Existing Instance ToyCodec.
#[local] Existing Instance ToyCodecLaws.
#[local] Existing Instance Fnv1a.
#[local] Existing Instance Fnv1aLaws.

#[local] Instance ToyEnv : PacemakerEnv :=
  {| rand_u64 := Z.of_nat; FLUSH_INTERVAL := Some 1000; DUR_REPLICA_WAIT := Some 50 |}.

(** ** Helpers *)

Definition is_some {A : Type} (o : option A) : bool := match o with Some _ => true | None => false end.

Lemma is_some_default {A : Type} (d : A) (o : option A) : is_some o = true -> o = Some (default d o).
Proof. by destruct o. Qed.

(** The machine after a run. *)
Definition after {A B : Type} (d : A) (o : outcome (A * B)) : A :=
  match o with Ret (a, _) => a | _ => d end.

Lemma after_run (m d : Machine HotstuffStorage) reqs :
  returns (Machine_run m reqs) = true ->
  exists rs, Machine_run m reqs = Ret (after d (Machine_run m reqs), rs).
Proof. destruct (Machine_run m reqs) as [[m' rs]| |]; [by exists rs|done..]. Qed.

Lemma after_event (m d : Machine HotstuffStorage) req :
  returns (Machine_process_safety_event m req) = true ->
  exists r, Machine_process_safety_event m req
            = Ret (after d (Machine_process_safety_event m req), r).
Proof. destruct (Machine_process_safety_event m req) as [[m' r]| |]; [by exists r|done..]. Qed.

Definition r1 : Machine HotstuffStorage := replica "r1" 1.

(** ** Data and votes *)

Lemma INIT_NODE_wf : TreeNode_wf INIT_NODE.
Proof. by repeat split. Qed.

Lemma TreeNode_signed_bytes_vs_hash_witness :
  TreeNode_to_be_bytes INIT_NODE = TreeNode_to_be_bytes INIT_NODE <->
  node_height INIT_NODE = node_height INIT_NODE /\ node_justify INIT_NODE = node_justify INIT_NODE /\
  node_parent INIT_NODE = node_parent INIT_NODE /\
  concat (Txn_as_ref <$> node_txs INIT_NODE) = concat (Txn_as_ref <$> node_txs INIT_NODE).
Proof.
  exact (proj1 (TreeNode_signed_bytes_vs_hash INIT_NODE INIT_NODE INIT_NODE_wf INIT_NODE_wf)).
Defined.

Lemma form_chain_justified_witness :
  exists l, form_chain [[x01]; [x02]] share_keys (public_keys keys) = Ret l /\ length l = 2%nat /\
    Forall (fun hn => hn.1 = TreeNode_hash hn.2) l /\
    justified_chain (public_keys keys) INIT_NODE (l.*2).
Proof.
  exact (form_chain_justified keys 4 3 [[x01]; [x02]] keys (public_keys keys) share_keys
           eq_refl eq_refl).
Defined.

Lemma Voter_combine_partial_sign_total_witness :
  exists v' r, Voter_combine_partial_sign (Voter_new 2 (replica_signer 0)) 1 = Ret (v', r) /\
    (Voter_vote_set_size (Voter_new 2 (replica_signer 0)) 1 <= 2 ->
       v' = Voter_new 2 (replica_signer 0) /\
       r = Err (InsufficientSigns (2 + 1) (Voter_vote_set_size (Voter_new 2 (replica_signer 0)) 1))).
Proof.
  destruct (Voter_combine_partial_sign_total (Voter_new 2 (replica_signer 0)) 1 ltac:(done))
    as (v' & r & H & H1 & _).
  exists v', r. split; [exact H|exact H1].
Defined.

(** Three voters at view 1. *)
Definition three_voters : list (Context * Z) :=
  [(Context_single "r0" "r1" 1, 0); (Context_single "r1" "r1" 1, 1); (Context_single "r2" "r1" 1, 2)].


(** ** The machine *)

Definition fed_machine (ps : list TreeNode) : Machine HotstuffStorage := after r1 (feed ps).

Lemma r1_inv : HSS_inv (m_storage r1).
Proof. apply HSS_inv_init. Qed.

Lemma fed_machine_run ps : returns (feed ps) = true ->
  exists rs, Machine_run r1 (RecvProposal from_leader <$> ps) = Ret (fed_machine ps, rs).
Proof. apply after_run. Qed.

Lemma Machine_run_monotone_witness :
  node_height (get_locked_node (m_storage r1)) <=
    node_height (get_locked_node (m_storage (fed_machine (chain 4)))).
Proof.
  destruct (fed_machine_run (chain 4)) as [rs Hrs]; [by vm_compute|].
  exact (proj1 (proj2 (Machine_run_monotone HSS_inv r1 (RecvProposal from_leader <$> chain 4)
                         (fed_machine (chain 4)) rs r1_inv Hrs))).
Defined.

Lemma HSS_recv_proposal_spec_witness :
  exists m' vote, returns (Machine_process_safety_event r1 (RecvProposal from_leader (prop_at 0))) = true /\
    (vote = true <->
       HSS_get_vheight (m_storage r1) < node_height (prop_at 0) /\
       (HSS_is_conflicting (m_storage r1) (prop_at 0) (HSS_get_locked_node (m_storage r1)) = Some false \/
        node_height (HSS_get_locked_node (m_storage r1)) < node_height INIT_NODE)) /\
    certificates_taken
      (if vote : bool then <[TreeNode_hash (prop_at 0):=prop_at 0]> (hss_in_mem_queue (m_storage r1))
       else hss_in_mem_queue (m_storage r1))
      (if vote then node_height (prop_at 0) else HSS_get_vheight (m_storage r1))
      (m_storage r1) (m_storage m') (prop_at 0).
Proof.
  destruct (after_event r1 r1 (RecvProposal from_leader (prop_at 0))) as [r Hr]; [by vm_compute|].
  destruct (HSS_recv_proposal_spec r1 from_leader (prop_at 0) _ r r1_inv Hr) as [_ H].
  assert (Hc : certified_by (hss_in_mem_queue (m_storage r1)) (prop_at 0) = Some INIT_NODE)
    by apply lookup_insert_eq.
  rewrite Hc in H. assert (Hv : certificate_valid r1 (prop_at 0) INIT_NODE = true) by done.
  rewrite Hv in H. destruct H as (vote & Hvote & _ & Ht).
  eexists _, vote. split; [by rewrite Hr|]. split; [exact Hvote|exact Ht].
Defined.

Definition vote_from (id : string) (i : Z) (p : TreeNode) : SafetyEvent :=
  RecvSign (Context_single id "r1" 1) p (DefaultSignaturer_sign (replica_signer i) p).


Lemma process_safety_event_ready_witness :
  exists m' rd, Machine_process_safety_event r1 RequestSnapshot = Ret (m', Ok rd) /\
    exists ctx, rd = InternalState ctx (Machine_take_snapshot r1).
Proof.
  do 2 eexists. split; [reflexivity|].
  exact (process_safety_event_ready HSS_inv r1 RequestSnapshot r1 _ eq_refl).
Defined.

(** ** Quorums *)

Definition all_replicas : gset string := {["r0"; "r1"; "r2"; "r3"]}%string.

Definition votes_of (ids : list string) : gmap string SignKit :=
  list_to_map ((fun id => (id, DefaultSignaturer_sign (replica_signer 0) INIT_NODE)) <$> ids).

Lemma quorum_intersection_witness :
  exists r, is_Some (votes_of ["r0"; "r1"; "r2"] !! r)%string /\
    is_Some (votes_of ["r1"; "r2"; "r3"] !! r)%string /\ r ∉ ({["r1"]}%string : gset string).
Proof.
  apply (quorum_intersection r1 r1 _ _ all_replicas).
  - by vm_compute.
  - by vm_compute.
  - by vm_compute.
  - by apply Nat.ltb_lt; vm_compute.
  - apply (bool_decide_unpack _). by vm_compute.
  - apply (bool_decide_unpack _). by vm_compute.
  - by vm_compute.
  - by vm_compute.
Defined.

Lemma correct_replicas_reach_quorum_witness :
  Machine_threshold r1 < map_len (votes_of ["r0"; "r1"; "r2"]%string).
Proof.
  apply (correct_replicas_reach_quorum r1 _ all_replicas {["r3"]}%string).
  - by vm_compute.
  - by vm_compute.
  - by apply Nat.ltb_lt; vm_compute.
  - apply (bool_decide_unpack _). by vm_compute.
Defined.

(** ** The store *)

Definition store4 : HotstuffStorage := foldl HSS_append_new_node (replica_store "r1" 1) (chain 4).

Definition three_chain : list TreeNode := HSS_find_three_chain store4 (prop_at 3).

Lemma HSS_three_chain_commit_rule_witness :
  exists b b3 b2, three_chain = [b3; b2; b] /\
    HSS_get store4 (qc_node (node_justify (prop_at 3))) = Some b3 /\
    HSS_get store4 (qc_node (node_justify b3)) = Some b2 /\
    HSS_get store4 (qc_node (node_justify b2)) = Some b /\
    node_parent b3 = TreeNode_hash b2 /\ node_parent b2 = TreeNode_hash b.
Proof.
  exists (default INIT_NODE (last three_chain)).
  apply (HSS_three_chain_commit_rule store4 (prop_at 3) three_chain).
  - reflexivity.
  - by vm_compute.
  - apply is_some_default. by vm_compute.
Defined.

Lemma fresh_queue h n :
  hss_in_mem_queue (replica_store "r1" 1) !! h = Some n -> h = INIT_NODE_HASH /\ n = INIT_NODE.
Proof.
  unfold replica_store, init_in_mem_storage, HSS_new. cbn [hss_in_mem_queue set_in_mem_queue].
  intros [[<- <-]|[_ Hm]]%lookup_insert_Some; [done|]. by rewrite lookup_empty in Hm.
Qed.

Lemma HSS_is_conflicting_spec_witness :
  exists c, HSS_is_conflicting (replica_store "r1" 1) (prop_at 0) INIT_NODE = Some c /\
    (c = false <-> extends (hss_in_mem_queue (replica_store "r1" 1)) (prop_at 0) INIT_NODE) /\
    (node_height INIT_NODE < node_height (prop_at 0) ->
       HSS_is_conflicting (replica_store "r1" 1) INIT_NODE (prop_at 0) = Some c).
Proof.
  apply (HSS_is_conflicting_spec (replica_store "r1" 1) (prop_at 0) INIT_NODE).
  - intros h n Hn p Hp. apply fresh_queue in Hn as [_ ->]. apply fresh_queue in Hp as [Hp _].
    exfalso. revert Hp. apply (bool_decide_unpack _). by vm_compute.
  - intros h n Hn. apply fresh_queue in Hn as [_ ->]. done.
  - intros p Hp. apply fresh_queue in Hp as [_ ->]. by vm_compute.
  - intros n [->|[h Hn]] He; [|by apply fresh_queue in Hn as [_ ->]].
    exfalso. revert He. apply (bool_decide_unpack _). by vm_compute.
  - by vm_compute.
Defined.

Lemma HSS_machine_tracks_changes_witness :
  HSS_wf (m_storage (fed_machine (chain 4))) /\ HSS_tracked (m_storage r1) (m_storage (fed_machine (chain 4))).
Proof.
  destruct (fed_machine_run (chain 4)) as [rs Hrs]; [by vm_compute|].
  exact (HSS_machine_tracks_changes r1 (fed_machine (chain 4)) _ rs (HSS_wf_init _ _ _ _) Hrs).
Defined.

(** Ranks for the proposals of the fresh store: genesis has a parent nobody has. *)
Definition rank0 (h : NodeHash) : nat := if decide (h = INIT_NODE_HASH) then 1 else 0.

Lemma r1_ranked : ranked rank0 (m_storage r1).
Proof.
  split; [exact r1_inv|]. intros h n Hn. apply fresh_queue in Hn as [_ ->].
  unfold ranked_node. apply Nat.ltb_lt. by vm_compute.
Qed.

Lemma HSS_event_returns_witness :
  exists m' r, Machine_process_safety_event r1 (RecvProposal from_leader (prop_at 0)) = Ret (m', r).
Proof.
  apply (HSS_event_returns rank0 r1 (RecvProposal from_leader (prop_at 0)) r1_ranked).
  - exact (Forall_nil_2 _).
  - done.
Defined.

(** The replica that voted for [prop_at 0], receiving [prop_at 1]. *)
Definition voted : Machine HotstuffStorage := fed_machine [prop_at 0].

Definition second_vote : outcome (Machine HotstuffStorage * result Ready SafetyErr) :=
  Machine_process_safety_event voted (RecvProposal from_leader (prop_at 1)).

(** The machine and the vote, when the event was answered with a vote. *)
Definition as_vote (o : outcome (Machine HotstuffStorage * result Ready SafetyErr)) :
    option (Machine HotstuffStorage * Context * TreeNode * SignKit) :=
  match o with Ret (m, Ok (Signature ctx p sg)) => Some (m, ctx, p, sg) | _ => None end.

Lemma as_vote_Some o m ctx p sg :
  as_vote o = Some (m, ctx, p, sg) -> o = Ret (m, Ok (Signature ctx p sg)).
Proof. destruct o as [[m' [[]|]]| |]; simpl; intros H; by simplify_eq. Qed.

Definition store_of_vote : HotstuffStorage := HSS_append_new_node (m_storage voted) (prop_at 1).

