(* ===== verification/WitnessesLive.v ===== *)
(** * Concrete instances of the theorems on liveness and recovery

    The election, the timer, the pacemaker over a fresh store, and the database. *)

From S2P Require Import Prelude Crypto HsData CryptoKit Voter SafetyStorage Machine.
From S2P Require Import MachineSafety LivenessData StorageContract Persistor Hss.
From S2P Require Import HssSafety HssReach HssLiveness HssContract Elector Timer.
From S2P Require Import Pacemaker PacemakerSafety PacemakerViews PacemakerHss Recover.
From S2P Require Import RecoverFlush Scenario.

#[local] Existing Instance ToyCrypto.
#[local] Existing Instance ToyCryptoLaws.
#[local] Existing Instance ToyCodec.
#[local] Existing Instance ToyCodecLaws.
#[local] Existing Instance Fnv1a.
#[local] Existing Instance Fnv1aLaws.

#[local] Instance LiveEnv : PacemakerEnv :=
  {| rand_u64 := Z.of_nat; FLUSH_INTERVAL := Some 1000; DUR_REPLICA_WAIT := Some 50 |}.

Definition names : list string := ["r2"; "r0"; "r3"; "r1"; "r0"]%string.

(** ** Election and timer *)

Lemma get_leader_agreement_witness :
  get_leader (RoundRobinLeaderElector_init ["a"; "b"]%string) 7 =
  get_leader (RoundRobinLeaderElector_init ["b"; "a"; "b"]%string) 7.
Proof.
  apply (get_leader_agreement ["a"; "b"]%string ["b"; "a"; "b"]%string 7).
  intros r. rewrite !elem_of_cons, elem_of_nil. tauto.
Defined.

Lemma get_leader_spec_witness :
  exists r, get_leader (RoundRobinLeaderElector_init names) 3 = Ret r /\ r ∈ names.
Proof. exact (get_leader_spec names 3). Defined.

Definition armed3 : DefaultTimer := view_timeout (DefaultTimer_new 30000 12000) 3 24001.

Definition polled3 : DefaultTimer :=
  timer_upd armed3 [with_phase (mkTimerTask (ViewTimeout 3) 24001 Spawned false) Selecting] [] 1.

Lemma polled3_step : timer_step armed3 polled3.
Proof. exact (timer_poll armed3 [] (mkTimerTask (ViewTimeout 3) 24001 Spawned false) [] eq_refl eq_refl). Qed.

(** The delay ends, the receiver is dropped, and the send panics. *)
Definition sent3 : DefaultTimer :=
  timer_upd polled3 [mkTimerTask (ViewTimeout 3) 24001 Sending false] [] 0.
Definition failed3 : DefaultTimer := timer_fail (close_notifier sent3) [] (ViewTimeout 3).

Lemma failed3_reachable : timer_reachable failed3.
Proof.
  apply (reach_step (close_notifier sent3)).
  - apply reach_close, (reach_step polled3).
    + exact (reach_step _ _ (reach_arm _ 3 24001 (reach_new 30000 12000)) polled3_step).
    + exact (timer_elapse polled3 [] (mkTimerTask (ViewTimeout 3) 24001 Selecting false) [] eq_refl eq_refl).
  - exact (timer_panic (close_notifier sent3) [] (mkTimerTask (ViewTimeout 3) 24001 Sending false) []
             eq_refl eq_refl eq_refl).
Qed.

Lemma timer_reachable_inv_witness :
  dt_cnt failed3 = count counted (dt_tasks failed3) + 1 /\ count live (dt_tasks failed3) <= 1.
Proof.
  destruct (timer_reachable_inv failed3 failed3_reachable) as (Hc & Hl & _). split; [exact Hc|exact Hl].
Defined.

Lemma timeout_reaches_pacemaker_witness :
  exists evs t', timer_run polled3 evs t' /\ ViewTimeout 3 ∈ evs.
Proof.
  exact (proj2 (timeout_reaches_pacemaker (DefaultTimer_new 30000 12000) polled3 3 24001 []
    (reach_new 30000 12000) (run_step _ _ _ _ polled3_step (run_nil _)))).
Defined.

(** ** The pacemaker *)

Definition elector4 : RoundRobinLeaderElector := RoundRobinLeaderElector_init names.

Lemma elector4_nonempty : round_mapper elector4 <> [].
Proof. by vm_compute. Qed.

Definition pm0 : Pacemaker HotstuffStorage :=
  Pacemaker_new "r1" elector4 (replica "r1" 1) (replica_signer 1).

Definition pending3 : list (Z * SafetyEvent) :=
  [(3, RequestSnapshot); (1, NewTx []); (2, RequestSnapshot)].

Lemma heap_pop_lowest_view_witness :
  exists sw rest, heap_pop ((fun vse => SafetyEventWrapper_from vse.1 vse.2) <$> pending3)
                  = Some (sw, rest) /\
    forall w se, (w, se) ∈ pending3 -> sw_justify_view sw <= w.
Proof.
  do 2 eexists. split; [reflexivity|].
  destruct (heap_pop_lowest_view pending3 _ _ ltac:(repeat constructor; simpl; lia) eq_refl)
    as (v & se & _ & _ & Hv & Hlow & _).
  intros w se' Hw. rewrite Hv. exact (Hlow w se' Hw).
Defined.

(** A session: two new-view messages, a timeout, a tick and the end. *)
Definition session : list ((bool -> option (list Txn)) * bool * loop_event) :=
  [(fun _ => None, false, Ev_net (PE_NewView (Context_single "r2" "r1" 1) INIT_QC));
   (fun _ => Some [], true, Ev_net (PE_NewView (Context_single "r3" "r1" 1) INIT_QC));
   (fun _ => None, false, Ev_timeout (ViewTimeout 1));
   (fun _ => None, false, Ev_tick);
   (fun _ => None, false, Ev_quit)].

Lemma session_returns : exists p', event_loop_with_functions pm0 (fun _ => false) session = Ret p'.
Proof. apply returns_Ret. by vm_compute. Qed.

Lemma pm0_inv : HSS_inv (liveness_storage pm0).
Proof. apply HSS_inv_init. Qed.

Lemma pm0_view : get_view (liveness_storage pm0) = pm_view pm0.
Proof. reflexivity. Qed.

Lemma event_loop_session_witness :
  exists p', event_loop_with_functions pm0 (fun _ => false) session = Ret p' /\
    get_view (liveness_storage p') = pm_view p' /\ 1 <= pm_view p'.
Proof.
  destruct session_returns as [p' Hp']. exists p'. split; [exact Hp'|].
  destruct (event_loop_session HSS_inv pm0 _ session p' pm0_inv pm0_view Hp') as (_ & Hv & Hge & _).
  split; [exact Hv|exact Hge].
Defined.

Lemma peer_timeouts_never_advance_witness :
  exists p' s', event_loop_with_functions pm0 (fun _ => false) session = Ret p' /\
    process_network_event p' (PE_Timeout (Context_broadcast "r2" 1)
      (TimeoutCertificate_new "r2" 1 (DefaultSignaturer_sign (replica_signer 2) INIT_NODE) INIT_QC))
      = Ret (pm_set_storage s' p').
Proof.
  destruct session_returns as [p' Hp']. exists p'.
  destruct (peer_timeouts_never_advance pm0 _ session p' (Context_broadcast "r2" 1)
    (TimeoutCertificate_new "r2" 1 (DefaultSignaturer_sign (replica_signer 2) INIT_NODE) INIT_QC)
    pm0_inv eq_refl pm0_view ltac:(done) Hp') as (s' & Hs' & _).
  exists s'. split; [exact Hp'|exact Hs'].
Defined.

Lemma process_local_timeout_spec_witness :
  exists p', pm_view p' = 2 /\ process_local_timeout pm0 1 = Ret p'.
Proof.
  destruct (process_local_timeout_spec HSS_inv pm0 1 elector4_nonempty ltac:(lia))
    as (p' & leader & Hv & _ & _ & _ & _ & _ & _ & Heq).
  exists p'. split; [exact Hv|exact Heq].
Defined.

(** The pacemaker in view 5. *)
Definition pm5 : Pacemaker HotstuffStorage := pm_set_view 5 pm0.

Lemma process_local_timeout_overflow_witness :
  exists p', process_local_timeout pm5 (2 ^ 64 - 1) = Ret p' /\ pm_view p' = 5.
Proof.
  destruct (process_local_timeout_overflow HSS_inv pm5 elector4_nonempty ltac:(simpl; lia) eq_refl)
    as (p' & Hr & Hv & _).
  exists p'. split; [exact Hr|exact Hv].
Defined.

(** A machine over a store whose view is 5. *)
Definition machine5 : Machine HotstuffStorage :=
  set_storage (replica "r1" 1) (HSS_increase_view (replica_store "r1" 1) 5).

Lemma machine5_view : get_view (m_storage machine5) = 5.
Proof. reflexivity. Qed.

Lemma machine5_view_pos : 1 <= get_view (m_storage machine5).
Proof. rewrite machine5_view. lia. Qed.

Lemma restarted_pacemaker_view_witness :
  exists p', loop_start (Pacemaker_new "r1" elector4 machine5 (replica_signer 1)) = Ret p' /\
    pm_view p' = 1 /\ HSS_get_view (liveness_storage p') = 5.
Proof.
  destruct (returns_Ret (loop_start (Pacemaker_new "r1" elector4 machine5 (replica_signer 1))))
    as [p' Hp']; [by vm_compute|]. exists p'. split; [exact Hp'|].
  destruct (restarted_pacemaker_view HSS_inv "r1" elector4 machine5 (replica_signer 1) p'
    machine5_view_pos Hp') as (H1 & H2 & _).
  split; [exact H1|]. rewrite machine5_view in H2. exact H2.
Defined.

(** Two events with certificates of views 12 and 9 are pending; the leaf is of height 0. *)
Definition pending2 : list (Z * SafetyEvent) := [(12, RequestSnapshot); (9, NewTx [])].
Definition pm_pending2 : Pacemaker HotstuffStorage := pm_set_pending (wrapped pending2) pm0.

Lemma check_pending_prop_spec_witness :
  exists p', check_pending_prop pm_pending2 0 = Ret p' /\ pm_sync_state p' = SYNC_SYNCHRONIZING.
Proof.
  destruct (check_pending_prop_spec pm_pending2 0 pending2 elector4_nonempty eq_refl
    ltac:(repeat constructor; simpl; lia) ltac:(discriminate)) as (v & se & others & Hp & Hmin & H).
  assert (Hv : v = 12 \/ v = 9).
  { assert (Hin : (v, se) ∈ pending2) by (rewrite Hp; by left).
    apply elem_of_cons in Hin as [[= -> _]|Hin]; [by left|].
    apply list_elem_of_singleton in Hin as [= -> _]. by right. }
  assert (E : (v <=? 0) = false) by (destruct Hv as [-> | ->]; reflexivity).
  rewrite E in H. destruct H as (p' & H1 & _ & _ & _ & _ & H2 & _). exists p'. split; [exact H1|exact H2].
Defined.

Lemma make_new_proposal_spec_witness :
  exists p', make_new_proposal pm0 [] = Ret (p', None).
Proof.
  destruct (make_new_proposal_spec HSS_inv pm0 []) as (p' & r & Hr & _ & H).
  assert (E : (map_len (nv (liveness_storage pm0) (pm_view pm0)) <=?
               get_threshold (liveness_storage pm0)) = true) by (by vm_compute).
  rewrite E in H. destruct H as [-> _]. exists p'. exact Hr.
Defined.

(** ** The database *)

Definition conf4 : HotStuffConfig :=
  {| conf_token := "t"; conf_total := 4; conf_replica_id := "r1"; conf_peers_addr := peers |}.

Lemma persist_recover_config_witness :
  exists db', persist_other_msg None conf4 (replica_signer 1) = Ret db' /\
    recover_hotstuff_config db' = Ret conf4.
Proof.
  pose proof (persist_recover_config None conf4 (replica_signer 1)) as H.
  assert (E : conf_peers_addr conf4 !! conf_replica_id conf4 = Some "a1"%string) by (by vm_compute).
  rewrite E in H. destruct H as (db' & H1 & H2 & _). exists db'. split; [exact H1|exact H2].
Defined.

Definition dirty0 : DirtyData := HSS_pending (replica_store "r1" 1).

(** What waits to be flushed in a replica that was fed a chain of four proposals. *)
Definition dirty_fed : DirtyData :=
  match feed (chain 4) with Ret (m, _) => HSS_pending (m_storage m) | _ => dirty0 end.

Lemma empty_fresh : fresh_db empty_database.
Proof. by split. Qed.

Definition wf_dirty (d : DirtyData) : bool :=
  forallb (fun p => Nat.eqb (length (NodeHash_as_ref (node_parent p))) 32) (dd_prop_queue d) &&
  forallb (fun qc => Nat.eqb (length (NodeHash_as_ref (qc_node qc))) 32) (dd_justify_queue d).

Lemma wf_dirty_true d : wf_dirty d = true -> dirty_wf d.
Proof.
  unfold wf_dirty. rewrite andb_true_iff, !forallb_forall. intros [Hp Hq].
  split; apply Forall_forall; intros x Hx%list_elem_of_In; apply Nat.eqb_eq; [by apply Hp|by apply Hq].
Qed.

Lemma dirties_wf : Forall dirty_wf [dirty0; dirty_fed].
Proof.
  rewrite !Forall_cons. split_and!; [apply wf_dirty_true; by vm_compute..|by apply Forall_nil].
Qed.

Lemma flushed_proposals_recover_witness :
  exists q, recover_in_mem_queue (flush_all empty_database [dirty0; dirty_fed]) = Ret q /\
    forall w h n, get_one_node_by_view (flush_all empty_database [dirty0; dirty_fed]) w = Ret (Some (h, n)) ->
      is_Some (q !! h).
Proof.
  destruct (flushed_proposals_recover empty_database [dirty0; dirty_fed] empty_fresh dirties_wf)
    as [_ (q & Hq & _ & Hto)]. exists q. split; [exact Hq|exact Hto].
Defined.

Definition flushed_height (ds : list DirtyData) (x : TreeNode) : bool :=
  (node_height x =? 0) || (0 <? node_height x) && match first_prop ds !! node_height x with Some _ => true | None => false end.

Lemma flushed_height_true ds x : flushed_height ds x = true -> height_flushed ds x.
Proof.
  unfold flushed_height, height_flushed. rewrite orb_true_iff, andb_true_iff, Z.eqb_eq, Z.ltb_lt.
  intros [?|[? H]]; [by left|right]. split; [done|]. by destruct (first_prop ds !! _).
Qed.

Lemma flushed_state_recovers_witness :
  st_vheight (dd_state dirty_fed) = 3 /\
  exists st, recover_hotstuff_state (flush_all empty_database [dirty0; dirty_fed]) = Ret st /\
    st_vheight st = 3.
Proof.
  split; [by vm_compute|].
  destruct (flushed_state_recovers empty_database [dirty0] dirty_fed empty_fresh dirties_wf)
    as (st & Hst & _ & _ & Hv & _).
  - apply Forall_singleton. by vm_compute.
  - apply flushed_height_true. by vm_compute.
  - apply flushed_height_true. by vm_compute.
  - apply flushed_height_true. by vm_compute.
  - exists st. split; [exact Hst|]. rewrite Hv. by vm_compute.
Defined.

Definition tc1 : TimeoutCertificate :=
  TimeoutCertificate_new "r2" 1 (DefaultSignaturer_sign (replica_signer 2) INIT_NODE) INIT_QC.

Definition dirty_tc : DirtyData :=
  {| dd_combined_tc_queue := []; dd_partial_tc_queue := [tc1]; dd_prop_queue := [];
     dd_justify_queue := []; dd_state := hss_state (replica_store "r1" 1) |}.

Lemma flushed_timeouts_recover_witness :
  recover_tc_map (flush_all empty_database [dirty0]) = Ret ∅ /\
  recover_tc_map (flush_all empty_database [dirty0; dirty_tc]) = Panic.
Proof.
  split.
  - exact (flushed_timeouts_recover empty_database [dirty0] empty_fresh).
  - exact (proj1 (flushed_timeouts_recover empty_database [dirty0; dirty_tc] empty_fresh)).
Defined.

(** The database after [init] and one flush. *)
Definition db_started : Database :=
  match persist_other_msg None conf4 (replica_signer 1) with
  | Ret db => MySQLFlusher_flush db dirty0
  | _ => empty_database
  end.

Lemma recovered_store_stops_flushing_witness :
  exists s, HSS_recover "t" db_started = Ret s /\ flush_times 5 s = Diverge.
Proof.
  destruct (returns_Ret (HSS_recover "t" db_started)) as [s Hs]; [by vm_compute|].
  exists s. split; [exact Hs|]. exact (proj2 (recovered_store_stops_flushing "t" db_started s Hs)).
Defined.

(** ** A flusher that ends *)

(** A store with a backend whose next transaction fails. *)
Definition failing_backend : MySQLStorage :=
  {| my_conn_pool := true; my_channel := [FlushTask_Async dirty0]; my_recvr_tmp := false;
     my_flusher := true; my_txs := [Tx_statement_failed]; my_db := empty_database |}.

Lemma flusher_ends_silently_witness :
  exists s', flush_changes [fun s => HSS_append_new_node s (prop_at 0)]
      (set_backend (Some (MySQLFlusher_step failing_backend))
         (set_backend (Some failing_backend) (replica_store "r1" 1))) = Ret (s', [Ok tt]) /\
    hss_backend s' = Some (MySQLFlusher_step failing_backend) /\ hss_prop_queue s' = [].
Proof.
  destruct (flusher_ends_silently (set_backend (Some failing_backend) (replica_store "r1" 1)) failing_backend
    (FlushTask_Async dirty0) [] [] [fun s => HSS_append_new_node s (prop_at 0)]
    eq_refl eq_refl eq_refl eq_refl eq_refl) as (_ & _ & s' & Hs & Hb & _ & Hq).
  - by constructor.
  - exists s'. split; [exact Hs|]. split; [exact Hb|].
    destruct Hq as (_ & Hp & _); [discriminate|exact Hp].
Defined.
