(* ===== verification/WitnessesRuns.v ===== *)
(** * Concrete instances of the theorems on whole runs

    A replica fed with chains of [Scenario], a machine of the prototype that answers the
    proposal of its leader, the demo node with generated keys, and the bench. *)

From stdpp Require Import pretty.
From S2P Require Import Prelude Walk Crypto HsData CryptoKit Voter SafetyStorage Machine.
From S2P Require Import MachineSafety MachineSync MachineInvariant LivenessData Persistor Hss.
From S2P Require Import HssSafety HssWalk HssReach ReplicaSpec ReplicaRefine ChainRun.
From S2P Require Import ProtoData Proto ProtoSafety ProtoServer ProtoNet Elector Timer Pacemaker.
From S2P Require Import Recover Demo DemoSafety Scenario Mocker MockerTests Witnesses.

#[local] Existing Instance ToyCrypto.
#[local] Existing Instance ToyCryptoLaws.
#[local] Existing Instance ToyCodec.
#[local] Existing Instance ToyCodecLaws.
#[local] Existing Instance Fnv1a.

#[local] Instance RunEnv : PacemakerEnv :=
  {| rand_u64 := Z.of_nat; FLUSH_INTERVAL := None; DUR_REPLICA_WAIT := None |}.

Definition from_ret {A : Type} (o : outcome A) : option A :=
  match o with Ret a => Some a | _ => None end.

(** ** A replica and a chain *)

Lemma HSS_machine_refines_replica_witness :
  exists seen tr, length tr = 10%nat /\
    arun (public_keys keys) (abs [INIT_NODE] (m_storage r1)) tr
      (abs seen (m_storage (fed_machine (chain 5)))).
Proof.
  destruct (fed_machine_run (chain 5)) as [rs Hrs]; [by vm_compute|].
  assert (Hlen : match feed (chain 5) with
    Ret (_, rs) => length (run_trace (RecvProposal from_leader <$> chain 5) rs) | _ => 0%nat end = 10%nat)
    by (vm_compute; reflexivity).
  unfold feed in Hlen. change (replica "r1" 1) with r1 in Hlen. rewrite Hrs in Hlen.
  destruct (HSS_machine_refines_replica (public_keys keys) [INIT_NODE] r1
    (RecvProposal from_leader <$> chain 5) (fed_machine (chain 5)) rs) as (seen & Hrun & _).
  - exact (proj1 (fresh_simulated (Voter_new (quorum_threshold 4) (replica_signer 1)) "r1" 4 None
      peers (replica_signer 1))).
  - exact Hrs.
  - exists seen. eexists. split; [exact Hlen|exact Hrun].
Defined.

Lemma HSS_commit_has_evidence_witness :
  exists rs, commit_evidence (run_nodes (RecvProposal from_leader <$> chain 5) rs)
    (HSS_get_last_committed (m_storage (fed_machine (chain 5)))).
Proof.
  destruct (fed_machine_run (chain 5)) as [rs Hrs]; [by vm_compute|]. exists rs.
  destruct (HSS_commit_has_evidence (Voter_new (quorum_threshold 4) (replica_signer 1)) "r1" 4 None
    peers (replica_signer 1) (RecvProposal from_leader <$> chain 5) (fed_machine (chain 5)) rs Hrs)
    as [[E|He] _]; [|exact He].
  exfalso. apply (f_equal node_height) in E. revert E. by vm_compute.
Defined.

Lemma branch_sync_replays_witness :
  exists m' k rs,
    Machine_run r1 (RecvProposal from_leader <$> take k (chain 3)) = Ret (m', rs) /\
    Forall (fun a => is_ok a = true) rs.
Proof.
  destruct (after_event r1 r1 (BranchSync from_leader (chain 3))) as [r Hr]; [by vm_compute|].
  destruct (branch_sync_replays r1 from_leader (chain 3) _ r Hr) as (_ & k & rs & H1 & H2 & _).
  do 3 eexists. split; [exact H1|exact H2].
Defined.

Lemma chain_justified n : justified_chain (public_keys keys) INIT_NODE (chain n).
Proof.
  unfold chain. destruct (form_chain_justified keys 4 3
    ((fun i => [byte_of_Z (Z.of_nat i)]) <$> seq 1 n) keys (public_keys keys) share_keys
    eq_refl eq_refl) as (l & -> & _ & _ & H). exact H.
Qed.

Lemma justified_chain_run_witness :
  exists s, (INIT_NODE :: chain 5) !! 3%nat = Some (HSS_get_locked_node s) /\
    (INIT_NODE :: chain 5) !! 2%nat = Some (HSS_get_last_committed s).
Proof.
  assert (Hlen : length (chain 5) = 5%nat) by (by vm_compute).
  destruct (justified_chain_run (Voter_new (quorum_threshold 4) (replica_signer 1)) "r1" 4 None peers
    (replica_signer 1) from_leader (chain 5)) as (s & _ & _ & Hl & Hc & _).
  - apply chain_justified.
  - apply chain_hashes_okb_spec. by vm_compute.
  - exists s. rewrite Hlen in Hl, Hc. split; [exact Hl|exact Hc].
Defined.

Definition forged : list TreeNode :=
  forged_chain ((fun b => [Txn_new [b]]) <$> [x01; x02; x03; x04; x05]) INIT_NODE.

Lemma forged_chain_commits_witness :
  exists s, (INIT_NODE :: forged) !! 2%nat = Some (HSS_get_last_committed s).
Proof.
  destruct (forged_chain_commits (Voter_new (quorum_threshold 4) (replica_signer 1)) "r1" 4 None peers
    (replica_signer 1) from_leader ((fun b => [Txn_new [b]]) <$> [x01; x02; x03; x04; x05]))
    as (s & _ & _ & Hc).
  - apply chain_hashes_okb_spec. by vm_compute.
  - exists s. exact Hc.
Defined.


(** ** The prototype *)

Definition proto_machine (id : string) (i : Z) : PMachine :=
  P_new id i (public_keys keys) (secret_key_share keys i) reply_ch (main_peers 4).

(** The proposal that the leader makes on its first command. *)
Definition proto_proposal : PTreeNode :=
  match P_on_beat (proto_machine "node-0" 0) ["tx"%string] with
  | Ret (_, [OutPropose _ node _]) => node
  | _ => PTreeNode_genesis
  end.

Definition proto_request : RpcRequest :=
  {| rq_ctx := {| pc_from := "node-0"; pc_view := 1 |}; rq_msg_type := RpcNewProposal;
     rq_leader := None; rq_prop := Some proto_proposal;
     rq_qc := Some (PGenericQC_genesis 0 PTreeNode_genesis) |}.

Definition proto_msgs : list InternalMsg :=
  [PRecvProposal (rq_ctx proto_request) proto_proposal (PGenericQC_genesis 0 PTreeNode_genesis) reply_ch;
   PViewChange "node-0" 2 reply_ch; PDown].

Definition proto_run : outcome (PMachine * list POut) := P_run (proto_machine "node-1" 1) proto_msgs.

Lemma proto_run_votes :
  exists m' out, proto_run = Ret (m', out) /\ vote_heights out = [1].
Proof.
  assert (H : match proto_run with Ret (_, out) => bool_decide (vote_heights out = [1]) | _ => false end
    = true) by (by vm_compute).
  destruct proto_run as [[m' out]| |]; [|done..]. exists m', out. split; [done|].
  by apply bool_decide_eq_true in H.
Qed.

Lemma P_votes_increase_witness :
  exists m' out, proto_run = Ret (m', out) /\ px_vheight m' = 1 /\
    px_view (proto_machine "node-1" 1) <= px_view m'.
Proof.
  destruct proto_run_votes as (m' & out & Hr & Hv). exists m', out. split; [exact Hr|].
  destruct (P_votes_increase _ _ _ _ Hr) as (_ & Hl & Hw). rewrite Hv in Hl.
  split; [by injection Hl|exact Hw].
Defined.

Lemma P_commit_needs_self_parent_witness :
  exists m' out, proto_run = Ret (m', out) /\ px_b_executed m' = PTreeNode_genesis.
Proof.
  destruct proto_run_votes as (m' & out & Hr & _). exists m', out. split; [exact Hr|].
  exact (proj1 (P_commit_needs_self_parent _ _ _ _ _ _ _ _ _ Hr)).
Defined.

Lemma timer_drives_views_witness :
  exists m', P_run (proto_machine "node-1" 1)
      ((DP_run (DP_new (main_peers 4) reply_ch reply_ch (Some "node-0"%string))
          (default_timer 7 2 (fun _ => true))).1 ++ [PDown]) = Ret (m', []) /\
    px_view m' = 4.
Proof.
  pose proof (timer_drives_views 7 2 (main_peers 4) reply_ch "node-0" "node-1" 1 (public_keys keys)
    (secret_key_share keys 1) reply_ch (main_peers 4) ltac:(lia) ltac:(lia) ltac:(lia)) as H.
  destruct (DP_run _ _) as [sent e]. destruct H as (_ & _ & m' & Hr & Hv).
  exists m'. split; [exact Hr|exact Hv].
Defined.

Lemma vote_roundtrip_witness :
  exists m' body, Proxy_recv_new_proposal (Some (proto_machine "node-1" 1)) proto_request
                  = Ret (Some m', HttpOk body) /\
    exists msgs, broadcastor_step reply_ch false (BcPosted (Some body)) = Ret (false, msgs) /\
      length msgs = 1%nat.
Proof.
  assert (H : match P_process_internal_msg (proto_machine "node-1" 1) (PRecvProposal (rq_ctx proto_request)
      proto_proposal (PGenericQC_genesis 0 PTreeNode_genesis) reply_ch) with
    Ret (_, out) => bool_decide (length (votes_as_msgs out) = 1%nat) | _ => false end = true)
    by (by vm_compute).
  destruct (P_process_internal_msg _ _) as [[m' out]| |] eqn:E; [|done..].
  apply bool_decide_eq_true in H.
  destruct (vote_roundtrip (proto_machine "node-1" 1) proto_request proto_proposal
    (PGenericQC_genesis 0 PTreeNode_genesis) m' out eq_refl eq_refl E) as (body & H1 & H2).
  exists m', body. split; [exact H1|]. eexists. split; [exact H2|exact H].
Defined.

(** ** The demo node *)


Definition demo_config : NodeConfig :=
  {| nc_node_name := "r1";
     nc_bootstrap_conf := {| bc_token := "t"; bc_total := 4;
       bc_peer_addrs := [mkPeerInfo "r0" "a0"; mkPeerInfo "r1" "a1"; mkPeerInfo "r2" "a2";
                         mkPeerInfo "r3" "a3"] |};
     nc_pm_conf := PacemakerConfig_default; nc_self_addr := "a1"; nc_persistor := MySQL "db";
     nc_server_addr := "s1";
     nc_secret := {| sc_sk_id := 1;
       sc_sk_share := String.string_of_list_byte (json_of_sk (secret_key_share keys 1));
       sc_pk_set := String.string_of_list_byte (json_of_pk (public_keys keys)) |};
     nc_test_config := SingleNode 4 100 |}%string.

Definition demo_events : list (Z * demo_event) :=
  [(1, DE_query "h1"); (2, DE_new_tx (mkNewTxRequest "h1" "payload")); (3, DE_tick);
   (4, DE_net (PE_NewProposal from_leader (prop_at 0))); (5, DE_tick); (6, DE_query "h1")]%string.

Lemma demo_tx_stays_pending_witness :
  exists nd, node_admin_main demo_config (fun _ => empty_database) 0 demo_events =
      Ret (nd, [mkNewTxResponse "h1" TX_STATE_INVALID; mkNewTxResponse "h1" TX_STATE_PENDING;
                mkNewTxResponse "h1" TX_STATE_PENDING]%string) /\
    nts_state (query_tx (dn_sss nd) "h1") = TX_STATE_PENDING.
Proof.
  destruct (returns_Ret (node_admin_main demo_config (fun _ => empty_database) 0 demo_events))
    as [[nd rs] H]; [by vm_compute|].
  destruct (demo_tx_stays_pending demo_config (fun _ => empty_database) 0 demo_events nd rs H)
    as (Hrs & _ & Hq & _).
  assert (E : demo_answers [] demo_events =
    [mkNewTxResponse "h1" TX_STATE_INVALID; mkNewTxResponse "h1" TX_STATE_PENDING;
     mkNewTxResponse "h1" TX_STATE_PENDING]%string) by (vm_compute; reflexivity).
  exists nd. split; [by rewrite H, Hrs, E|exact (Hq "h1"%string)].
Defined.
