(* ===== verification/WitnessesNet.v ===== *)
(** * A system of replicas that commits, and a round of the prototype

    Four replicas, [r0] faulty.  The other three are fed with the chain of [Scenario] and
    vote, one of them is synchronised, one makes a proposal of its own; the replica that saw
    four proposals has committed the first, the ones that saw five the second, and
    [agreement] applies to them. *)

From S2P Require Import Prelude Crypto HsData CryptoKit Voter SafetyStorage Machine Quorum Ledger.
From S2P Require Import MachineSafety LivenessData Persistor Hss Network Agreement Scenario.
From S2P Require Import HssSafety HssReach LeaderRound ProtoData Proto ProtoServer ProtoRound.

#[local] Existing Instance ToyCrypto.
#[local] Existing Instance ToyCryptoLaws.
#[local] Existing Instance ToyCodec.

(** Certificates of the executable scheme can be compared. *)
Definition toy_qc_data (qc : GenericQC) : Z * list byte * list byte :=
  (qc_view qc, NodeHash_as_ref (qc_node qc), proj1_sig (qc_combined_sign qc)).

Lemma toy_qc_data_inj a b : toy_qc_data a = toy_qc_data b -> a = b.
Proof.
  destruct a as [va [na] [sa Ha]], b as [vb [nb] [sb Hb]]. unfold toy_qc_data. simpl.
  intros [= -> -> ->]. by rewrite (proof_irrel Ha Hb).
Qed.

(** ** The conditions on a run, evaluated *)

Section Checks.
Context (pks : PK) (all faulty : gset string) (L : Ledger).

Definition backedb : bool :=
  forallb (fun qc => forallb (fun prev =>
    if bool_decide (TreeNode_hash prev = qc_node qc) then
      if pk_verify pks (qc_combined_sign qc) (TreeNode_to_be_bytes prev)
      then bool_decide (certified all faulty L (qc_node qc)) else true
    else true) (lg_seen L)) (lg_certs L).

Definition initb : bool :=
  forallb (fun qc => negb (GenericQC_is_init_qc qc) || bool_decide (qc_node qc = INIT_NODE_HASH)) (lg_certs L).

Definition linkedb : bool :=
  forallb (fun n =>
    forallb (fun prev => negb (bool_decide (TreeNode_hash prev = qc_node (node_justify n)))) (lg_seen L) ||
    (bool_decide (node_parent n = qc_node (node_justify n)) && (0 <? node_height n) &&
     forallb (fun prev => negb (bool_decide (TreeNode_hash prev = node_parent n)) ||
                          (node_height prev <? node_height n)) (lg_seen L))) (lg_seen L).

Definition madeb : bool :=
  forallb (fun '(r, p) =>
    bool_decide (toy_qc_data (node_justify p) ∈ toy_qc_data <$> lg_certs L) &&
    existsb (fun prev => bool_decide (TreeNode_hash prev = qc_node (node_justify p)) &&
      (GenericQC_is_init_qc (node_justify p) ||
       pk_verify pks (qc_combined_sign (node_justify p)) (TreeNode_to_be_bytes prev))) (lg_seen L) &&
    forallb (fun n => node_height n <=? node_height p) (cast L r)) (lg_made L).

(** The votes of every replica rise. *)
Fixpoint risingb (votes : list TreeNode) : bool :=
  match votes with
  | [] => true
  | n :: earlier => forallb (fun p => node_height p <? node_height n) earlier && risingb earlier
  end.

Definition votesb : bool := forallb (fun '(r, _) => risingb (cast L r)) (lg_votes L).

(** The assumptions on the digest. *)
Definition digest_okb : bool :=
  let keyed := (fun x => (TreeNode_hash x, x)) <$> lg_seen L in
  forallb (fun '(h, x) =>
    negb (bool_decide (h = qc_node (node_justify INIT_NODE))) &&
    forallb (fun '(k, y) => negb (bool_decide (h = k)) ||
      ((node_height x =? node_height y) && bool_decide (node_parent x = node_parent y))) keyed) keyed.

Definition soundb : bool := backedb && initb && linkedb && madeb && votesb && digest_okb.

Definition no_gapb (b : TreeNode) : bool :=
  forallb (fun b2 => forallb (fun b3 =>
    if bool_decide (node_parent b2 = TreeNode_hash b) then
      if bool_decide (node_parent b3 = TreeNode_hash b2)
      then (node_height b2 =? node_height b + 1) && (node_height b3 =? node_height b + 2) else true
    else true) (lg_seen L)) (lg_seen L).

Lemma forallb_elem {A : Type} (f : A -> bool) (l : list A) x : forallb f l = true -> x ∈ l -> f x = true.
Proof. rewrite forallb_forall. intros H Hx. by apply H, list_elem_of_In. Qed.

Lemma digest_okb_sound : digest_okb = true -> collision_free L /\ no_zero_hash L.
Proof.
  intros H.
  assert (Hk : forall x, x ∈ lg_seen L -> (TreeNode_hash x, x) ∈ (fun x => (TreeNode_hash x, x)) <$> lg_seen L)
    by (intros x Hx; by apply (list_elem_of_fmap_2 (fun x => (TreeNode_hash x, x)))).
  split.
  - intros x y Hx Hy E. pose proof (forallb_elem _ _ _ H (Hk x Hx)) as H1. cbn beta iota in H1.
    apply andb_true_iff in H1 as [_ H1]. apply (forallb_elem _ _ (TreeNode_hash y, y)) in H1; [|by apply Hk].
    cbn beta iota in H1. rewrite orb_true_iff, negb_true_iff, andb_true_iff, bool_decide_eq_false,
      bool_decide_eq_true, Z.eqb_eq in H1. by destruct H1.
  - intros x Hx. pose proof (forallb_elem _ _ _ H (Hk x Hx)) as H1. cbn beta iota in H1.
    apply andb_true_iff in H1 as [H1 _]. by rewrite negb_true_iff, bool_decide_eq_false in H1.
Qed.

Lemma risingb_split votes later n earlier p :
  risingb votes = true -> votes = later ++ n :: earlier -> p ∈ earlier -> node_height p < node_height n.
Proof.
  revert later. induction votes as [|x votes IH]; intros [|y later] H E Hp; simplify_eq/=;
    apply andb_true_iff in H as [H1 H2]; [|by eapply IH].
  apply Z.ltb_lt. by apply (forallb_elem _ _ p H1).
Qed.

Lemma votesb_rising r later n earlier p :
  votesb = true -> cast L r = later ++ n :: earlier -> p ∈ earlier -> node_height p < node_height n.
Proof.
  intros H E Hp. assert (Hn : (r, n) ∈ lg_votes L).
  { apply elem_of_cast. rewrite E. apply elem_of_app. right. by left. }
  eapply risingb_split; [exact (forallb_elem _ _ _ H Hn)|exact E|done].
Qed.

Lemma soundb_sound : soundb = true -> sound pks all faulty L.
Proof.
  unfold soundb. rewrite !andb_true_iff.
  intros (((((Hb & Hi) & Hl) & Hm) & Hv) & [Hcf Hz]%digest_okb_sound). split; try done.
  - intros qc prev Hqc Hp Hh Hver. apply (forallb_elem _ _ qc) in Hb; [|done].
    apply (forallb_elem _ _ prev) in Hb; [|done]. cbn beta in Hb.
    rewrite bool_decide_true, Hver in Hb by done. by apply bool_decide_eq_true in Hb.
  - intros qc Hqc Hq. apply (forallb_elem _ _ qc) in Hi; [|done]. cbn beta in Hi. rewrite Hq in Hi.
    by apply bool_decide_eq_true in Hi.
  - intros n Hn (_ & prev & Hp & Hh & _). apply (forallb_elem _ _ n) in Hl; [|done].
    rewrite orb_true_iff, !andb_true_iff, bool_decide_eq_true, Z.ltb_lt in Hl. destruct Hl as [Hl|[[? ?] Hl]].
    + apply (forallb_elem _ _ prev) in Hl; [|done]. by rewrite negb_true_iff, bool_decide_eq_false in Hl.
    + split; [done|]. split; [done|]. intros x Hx Hxn. apply (forallb_elem _ _ x) in Hl; [|done].
      rewrite orb_true_iff, negb_true_iff, bool_decide_eq_false, Z.ltb_lt in Hl. by destruct Hl.
  - intros r p Hp. apply (forallb_elem _ _ (r, p)) in Hm; [|done]. cbn beta iota in Hm.
    rewrite !andb_true_iff, bool_decide_eq_true, list_elem_of_fmap, existsb_exists in Hm.
    destruct Hm as [[(qc & <-%toy_qc_data_inj & Hq) (prev & Hin & Hv')] _]. split; [done|]. exists prev.
    rewrite andb_true_iff, orb_true_iff, bool_decide_eq_true in Hv'. destruct Hv'.
    split; [by apply list_elem_of_In|done].
  - intros r later n earlier p prev E Hp _ _ [_ Hle]. pose proof (votesb_rising r later n earlier p Hv E Hp). lia.
  - intros r later n earlier p E Hp Hmd Hlt. apply (forallb_elem _ _ (r, p)) in Hm; [|done]. cbn beta iota in Hm.
    apply andb_true_iff in Hm as [_ Hm]. apply (forallb_elem _ _ n) in Hm; [apply Z.leb_le in Hm; lia|].
    rewrite E. apply elem_of_app. right. by left.
Qed.

Lemma no_gapb_sound b : no_gapb b = true -> no_gap all faulty L b.
Proof.
  intros H b2 b3 H2 H3 P2 P3 C3. apply (forallb_elem _ _ b2) in H; [|done].
  apply (forallb_elem _ _ b3) in H; [|done]. cbn beta in H.
  rewrite !bool_decide_true, andb_true_iff, !Z.eqb_eq in H by done. done.
Qed.
End Checks.

(** ** The run *)

Definition everyone : gset string := {["r0"; "r1"; "r2"; "r3"]}%string.
Definition liars : gset string := {["r0"]}%string.

Definition net_start : Net :=
  {| nw_machines := <["r1":=replica "r1" 1]> (<["r2":=replica "r2" 2]> {["r3":=replica "r3" 3]})%string;
     nw_ledger := {| lg_seen := [INIT_NODE]; lg_certs := []; lg_votes := []; lg_made := [] |} |}.

(** Three replicas get four proposals, [r2] the fifth, [r3] the fifth by synchronisation;
    then [r2] goes to view 6 and makes a proposal of its own. *)
Definition deliveries : list (string * (SafetyEvent + Z)) :=
  (p ← take 4 (chain 5); (fun r => (r, inl (RecvProposal from_leader p))) <$> ["r1"; "r2"; "r3"]) ++
  [("r2", inl (RecvProposal from_leader (prop_at 4)));
   ("r3", inl (BranchSync from_leader [prop_at 4]));
   ("r2", inr 6); ("r2", inl (NewTx [Txn_new [x77]]))]%string.

(** The system after the deliveries, if every one of them is a step. *)
Fixpoint net_run (all faulty : gset string) (net : Net) (evs : list (string * (SafetyEvent + Z))) : option Net :=
  match evs with
  | [] => Some net
  | (r, inl req) :: evs =>
      m ← nw_machines net !! r;
      if bool_decide (r ∈ all /\ r ∉ faulty) && match req with RecvSign _ _ _ => false | _ => true end
      then match Machine_process_safety_event m req with
           | Ret (m', answer) =>
               net_run all faulty {| nw_machines := <[r:=m']> (nw_machines net);
                                     nw_ledger := ledger_after (nw_ledger net) r req answer |} evs
           | _ => None
           end
      else None
  | (r, inr view) :: evs =>
      m ← nw_machines net !! r;
      net_run all faulty {| nw_machines := <[r:=(Machine_on_view_change m r view).1]> (nw_machines net);
                            nw_ledger := nw_ledger net |} evs
  end.

Lemma net_run_reach all faulty net0 net evs net' :
  net_reach all faulty net0 net -> net_run all faulty net evs = Some net' -> net_reach all faulty net0 net'.
Proof.
  revert net. induction evs as [|[r [req|view]] evs IH]; intros net Hr H; [by simplify_eq/=|..];
    cbn [net_run] in H; destruct (nw_machines net !! r) as [m|] eqn:Em; try done; cbn in H.
  - destruct (bool_decide _ && _) eqn:Eb; [|done].
    rewrite andb_true_iff, bool_decide_eq_true in Eb. destruct Eb as [[? ?] Hq].
    destruct (Machine_process_safety_event m req) as [[m' answer]| |] eqn:Ep; [|done..].
    eapply IH; [|exact H]. eapply reach_step; [exact Hr|]. eapply net_deliver; try done. by destruct req.
  - eapply IH; [|exact H]. eapply reach_step; [exact Hr|]. by apply net_view.
Qed.

Definition committed_height (m : Machine HotstuffStorage) : Z :=
  node_height (HSS_get_last_committed (m_storage m)).

(** Everything the theorem asks of the two replicas and of the ledger, as one test. *)
Definition net_okb (net : Net) : bool :=
  soundb (public_keys keys) everyone liars (nw_ledger net) &&
  match nw_machines net !! "r1"%string, nw_machines net !! "r2"%string with
  | Some m1, Some m2 =>
      no_gapb (nw_ledger net) (HSS_get_last_committed (m_storage m1)) &&
      (committed_height m1 =? 1) && (committed_height m2 =? 2)
  | _, _ => false
  end.

Lemma net_okb_sound net :
  net_okb net = true ->
  sound (public_keys keys) everyone liars (nw_ledger net) /\
  exists m1 m2, nw_machines net !! "r1"%string = Some m1 /\ nw_machines net !! "r2"%string = Some m2 /\
    no_gap everyone liars (nw_ledger net) (HSS_get_last_committed (m_storage m1)) /\
    committed_height m1 = 1 /\ committed_height m2 = 2.
Proof.
  unfold net_okb. intros [Hs%soundb_sound H]%andb_true_iff. split; [done|].
  destruct (nw_machines net !! "r1"%string) as [m1|]; [|done].
  destruct (nw_machines net !! "r2"%string) as [m2|]; [|done]. exists m1, m2.
  rewrite !andb_true_iff, !Z.eqb_eq in H. destruct H as [[Hc H1] H2].
  split_and!; try done. by apply no_gapb_sound.
Qed.

Lemma net_end_ok : from_option net_okb false (net_run everyone liars net_start deliveries) = true.
Proof. vm_compute. reflexivity. Qed.

Lemma net_start_fresh : net_fresh (public_keys keys) net_start.
Proof.
  split; [done|]. intros r m Hm.
  assert (exists id i, m = replica id i) as (id & i & ->);
    [|do 6 eexists; split; [|reflexivity]; reflexivity].
  cbn [nw_machines net_start] in Hm.
  repeat (apply lookup_insert_Some in Hm as [[_ <-]|[_ Hm]]; [by do 2 eexists|]).
  apply lookup_singleton_Some in Hm as [_ <-]. by do 2 eexists.
Qed.

Lemma net_end_exists :
  exists net, net_run everyone liars net_start deliveries = Some net /\ net_okb net = true.
Proof.
  pose proof net_end_ok as H. revert H. generalize (net_run everyone liars net_start deliveries).
  intros [net|] H; [by exists net|done].
Qed.

Lemma agreement_witness :
  exists net m1 m2, nw_machines net !! "r1"%string = Some m1 /\ nw_machines net !! "r2"%string = Some m2 /\
    committed_height m1 = 1 /\ committed_height m2 = 2 /\
    ancestor (nw_ledger net) (TreeNode_hash (HSS_get_last_committed (m_storage m1)))
      (TreeNode_hash (HSS_get_last_committed (m_storage m2))).
Proof.
  destruct net_end_exists as (net & Er & (Hso & m1 & m2 & E1 & E2 & Hgap & H1 & H2)%net_okb_sound).
  exists net, m1, m2. split; [exact E1|]. split; [exact E2|]. split; [exact H1|]. split; [exact H2|].
  apply (agreement (public_keys keys) everyone liars net_start net "r1" "r2" m1 m2);
    [vm_compute; reflexivity|apply (bool_decide_unpack _); vm_compute; exact I..|exact net_start_fresh|
    |exact Hso|exact E1|exact E2|exact Hgap|].
  - eapply net_run_reach; [apply reach_refl|exact Er].
  - unfold committed_height in H1, H2. rewrite H1, H2. discriminate.
Defined.

(** ** A round of the machine *)

(** A fresh replica in view 1. *)
Definition in_view_one (id : string) (i : Z) : Machine HotstuffStorage :=
  set_storage (replica id i) (HSS_increase_view (replica_store id i) 1).

Lemma in_view_one_get id i :
  HSS_get (m_storage (in_view_one id i)) INIT_NODE_HASH = Some INIT_NODE.
Proof. unfold HSS_get. simpl. apply lookup_insert_eq. Qed.

Definition is_none {A : Type} (o : option A) : bool := match o with Some _ => false | None => true end.

Lemma is_none_sound {A : Type} (o : option A) : is_none o = true -> o = None.
Proof. by destruct o. Qed.

Definition round_txs : list Txn := [Txn_new [xaa; xbb]].
Definition round_prop : TreeNode := Machine_make_leaf (in_view_one "r0" 0) round_txs.

Lemma in_view_one_willing id i :
  HSS_is_conflicting (m_storage (in_view_one id i)) round_prop
    (HSS_get_locked_node (m_storage (in_view_one id i))) = Some false ->
  willing keys (in_view_one id i) i 1 round_prop.
Proof.
  intros Hc. split; [reflexivity|reflexivity| |reflexivity|exact Hc].
  exists INIT_NODE. split; [exact (in_view_one_get id i)|left].
  unfold GenericQC_is_init_qc. apply bool_decide_eq_true. reflexivity.
Qed.

Lemma leader_round_certifies_witness :
  exists m1 msgs m' rs,
    Machine_process_safety_event (in_view_one "r0" 0) (NewTx round_txs) =
      Ret (m1, Ok (NewProposal (Context_broadcast "r0" 1) round_prop)) /\
    length msgs = 2%nat /\ Machine_run m1 msgs = Ret (m', rs) /\
    last rs = Some (Ok (ProposalReachConsensus 1)).
Proof.
  destruct (leader_round_certifies keys (in_view_one "r0" 0) 0 1 round_txs
              [(1, in_view_one "r1" 1); (2, in_view_one "r2" 2)])
    as (m1 & msgs & m' & rs & H1 & H2 & H3 & H4 & _).
  - split; [reflexivity|reflexivity|reflexivity|reflexivity|reflexivity|vm_compute; discriminate|].
    exists INIT_NODE. split; [exact (in_view_one_get "r0" 0)|reflexivity].
  - apply is_none_sound. vm_compute. reflexivity.
  - constructor; [|constructor; [|constructor]]; apply in_view_one_willing; vm_compute; reflexivity.
  - apply (bool_decide_unpack _). vm_compute. exact I.
  - apply (bool_decide_unpack _). vm_compute. exact I.
  - vm_compute. reflexivity.
  - exists m1, msgs, m', rs. split; [exact H1|]. split; [|split; [exact H3|exact H4]].
    rewrite <-(Forall2_length _ _ _ H2). reflexivity.
Defined.

(** ** The prototype *)

(** The replicas of [main] with the indices of their key shares. *)
Definition proto_voters : list (string * Z) :=
  [("node-3", 3); ("node-0", 0); ("node-2", 2); ("node-1", 1)]%string.

Lemma prototype_round_certifies_witness :
  exists l1 node qc msgs l2,
    P_process_internal_msg (fresh keys (main_peers 4) "node-0" 0) (PNewTx "tx"%string) =
      Ret (l1, [OutPropose leader_ctx node qc]) /\
    length msgs = 4%nat /\ P_run l1 (msgs ++ [PDown]) = Ret (l2, []) /\ px_decided l2 = true.
Proof.
  destruct (prototype_round_certifies keys (main_peers 4) "tx") with (i := 0) (vs := proto_voters)
    as (l1 & node & qc & req & msgs & l2 & c & H1 & _ & _ & H2 & H3 & H4 & _).
  - apply (bool_decide_unpack _). vm_compute. exact I.
  - vm_compute. reflexivity.
  - vm_compute. discriminate.
  - apply (bool_decide_unpack _). vm_compute. exact I.
  - apply (bool_decide_unpack _). vm_compute. exact I.
  - apply (bool_decide_unpack _). vm_compute. exact I.
  - exists l1, node, qc, msgs, l2. split; [exact H1|]. split; [|split; [exact H3|exact H4]].
    rewrite <-(Forall2_length _ _ _ H2). reflexivity.
Defined.
