(* ===== verification/WitnessesCluster.v ===== *)
(** * A cluster that commits

    Three of four replicas over the executable scheme, started with empty stores, and seven
    batches; the fourth replica is down and the views it leads time out. *)

From S2P Require Import Prelude Crypto HsData CryptoKit Voter SafetyStorage Machine.
From S2P Require Import LivenessData Persistor Hss Elector Timer Pacemaker ChainRun Scenario MockerNet.
From S2P Require Import RoundStore Cluster ClusterRound.

#[local] Existing Instance ToyCrypto.
#[local] Existing Instance ToyCryptoLaws.
#[local] Existing Instance ToyCodec.
#[local] Existing Instance Fnv1a.
#[local] Existing Instance Fnv1aLaws.

Definition cluster_env : PacemakerEnv := test_env (Some 200).
#[local] Existing Instance cluster_env.

Definition four_names : list string := ["r0"; "r1"; "r2"; "r3"]%string.
Definition four_elector : RoundRobinLeaderElector := RoundRobinLeaderElector_init four_names.

(** The index of the key share is the last character of the name. *)
Definition four_index (id : string) : Z :=
  if decide (id = "r0"%string) then 0 else if decide (id = "r1"%string) then 1
  else if decide (id = "r2"%string) then 2 else 3.

(** The replicas that run; [r3] leads views 2 and 6. *)
Definition three_names : list string := ["r0"; "r1"; "r2"]%string.

Definition nine_views : list (option (list Txn)) :=
  option_map (fun b => [Txn_new [b]]) <$>
    [Some x01; None; Some x02; Some x03; Some x04; None; Some x05; Some x06; Some x07].

Definition hashes_okb (hs : list NodeHash) : bool :=
  bool_decide (NoDup (NodeHash_as_ref <$> hs)) &&
  bool_decide (replicate 32 x00 ∉ NodeHash_as_ref <$> hs).

Lemma hashes_okb_spec hs : hashes_okb hs = true -> hashes_ok hs.
Proof.
  unfold hashes_okb. rewrite andb_true_iff, !bool_decide_eq_true. intros [Hn Hz]. split.
  - by eapply NoDup_fmap_1.
  - intros Hin. apply Hz. apply list_elem_of_fmap. by exists (qc_node zeroed_qc).
Qed.

Lemma four_ok : cluster_ok keys four_elector four_index 4 three_names.
Proof.
  split; [apply (bool_decide_unpack _); vm_compute; exact I|vm_compute; done| |vm_compute; discriminate|
          vm_compute; discriminate|by eexists].
  apply (bool_decide_unpack _). vm_compute. exact I.
Qed.

Lemma nine_views_led : leaders_live four_elector three_names 1 nine_views.
Proof.
  repeat split;
    (eexists; split; [vm_compute; reflexivity|apply (bool_decide_unpack _); vm_compute; exact I]).
Qed.

Lemma cluster_commits_witness :
  exists cl cl' l id p, booted keys four_elector four_index 4 three_names cl /\ rtc cluster_step cl cl' /\
    node_txs <$> l = (fun b => [Txn_new [b]]) <$> [x01; x02; x03; x04; x05; x06; x07] /\
    (cl' : gmap _ _) !! id = Some p /\ pm_view p = 10 /\
    (INIT_NODE :: l) !! 4%nat = Some (HSS_get_last_committed (liveness_storage p)).
Proof.
  pose proof (start_cluster_booted keys four_elector four_index 4 three_names four_ok ∅ ltac:(by eexists)) as Hbt.
  destruct (cluster_commits keys four_elector four_index 4 three_names four_ok _ nine_views Hbt)
    as (cl' & l & last & Hr & Htx & _ & _ & Hall).
  - reflexivity.
  - exact nine_views_led.
  - apply hashes_okb_spec. vm_compute. reflexivity.
  - assert (Hid : exists id, id ∈ three_names /\ id <> last).
    { destruct (decide (last = "r1"%string)) as [->|Hne]; [exists "r2"%string|exists "r1"%string];
        (split; [apply (bool_decide_unpack _); vm_compute; exact I|congruence]). }
    destruct Hid as (id & Hid & Hne). destruct (Hall id Hid) as (p & Hp & Hv & _ & _ & Hc).
    apply (f_equal length) in Htx as Hlen. rewrite length_fmap in Hlen.
    specialize (Hc Hne). rewrite Hlen in Hc.
    eexists _, cl', l, id, p. split; [exact Hbt|]. split; [exact Hr|]. split; [exact Htx|].
    split; [exact Hp|]. split; [exact Hv|exact Hc].
Defined.
